(* ===== verification/_CoqProject ===== *)
-Q . S2P
Prelude.v
GoText.v
SqlToken.v
Temporal.v
Filter.v
Float64.v
Bytes.v
FloatArith.v
Plane.v
Decimal.v
FilterDialect.v
FilterGpkg.v
FilterMysql.v
FilterPostgis.v
FilterHana.v
Cql2Lexer.v
Cql2Parser.v
Cql2Print.v
JsonPatch.v
LinkedList.v
LockStore.v
Identity.v
Schema.v
Coordinator.v
Cache.v
RawGeom.v
RawWkb.v
GpkgHeader.v
FeatureExtent.v
FeatureSpatial.v
FeatureTransform.v
GpkgGeometry.v
FeatureQuery.v
GpkgSpatial.v
GpkgQuery.v
TemporalMatch.v
Datetime.v
UrlQuery.v
ItemsQuery.v
ItemsPages.v
RingArea.v
GeoJson.v
FeatureService.v
Revision.v
GpkgTx.v
