(* ===== verification/Prelude.v ===== *)
(** * Verification of the Tegola feature server

    Tegola serves vector tiles and, through OGC API Features and WFS, features that
    clients query and change.  This library models the parts of the server that decide
    which features a request sees, which changes are committed, and what is kept
    between requests, and proves that they do.  Source paths are relative to src/.

    ** The program

    A request for features (server/handle_features_items.go) becomes a
    provider.FeatureQuery: bounds, a temporal constraint, a filter, a window.  The filter comes from CQL2 text (ogc/cql2), is a
    typed expression (provider/query_filter.go), is resolved against the queryables a
    provider publishes, and is compiled to a SQL predicate of the dialect of the
    provider.  The provider scans the candidate rows, decodes their geometry, tests the
    exact spatial predicate and delivers a page to the service (ogc/features), which
    converts and encodes each feature for the answer; the handler links the page to its
    neighbours.  A change becomes provider.Mutation
    values (from JSON, JSON Patch or WFS transactions), which feature/mutation.go
    authorises, validates and applies in one transaction of a provider, guarded by the
    locks of ogc/wfs and by revisions, and after which cached tiles are invalidated.

    ** The files

    Foundations.  [Prelude]: Go strings as byte lists, results, loops, tactics, shared
    lemmas.  [GoText]: UTF-8, strconv and strings.  [Float64]: the values of float64 by
    rank, and big.Float conversions.  [FloatArith]: IEEE addition and multiplication
    with their rounding errors.  [Bytes]: encoding/binary.  [Plane]: segments and
    rectangles over the rationals.  [Decimal]: decimal literals.

    Filters.  [Temporal] (provider/temporal.go, temporal_bound.go, TemporalConstraint),
    [Filter] (provider/query_filter.go), [Cql2Lexer], [Cql2Parser], [Cql2Print]
    (ogc/cql2; the printer is a specification), [FilterDialect] (what the four compilers
    share), [FilterGpkg], [FilterMysql], [FilterPostgis], [FilterHana]
    (provider/*/filter_sql.go), [SqlToken] (internal/sqltoken).

    Feature queries.  [RawGeom], [RawWkb] (provider/geometrycodec, strict WKB),
    [FeatureExtent], [FeatureSpatial], [FeatureTransform] (exact intersection with
    rectangles and boxes, projection, transformation), [FeatureQuery]
    (provider/query.go), [GpkgHeader], [GpkgGeometry], [GpkgSpatial], [GpkgQuery]
    (provider/gpkg: header, geometry of a row, spatial predicate, page), [TemporalMatch]
    (provider/internal/featuresemantics and provider/*/query_temporal.go: the temporal
    predicates of the four providers).

    The features interface.  [UrlQuery]: net/url queries.  [Datetime], [ItemsQuery]
    (the parameters of server/handle_features_items.go), [ItemsPages] (the handler
    serveItems with its links, and the choice of reference systems of
    ogc/features/crs.go), [RingArea], [GeoJson] (ogc/features/geojson.go: the area of
    rings, RFC 7946 geometries), [FeatureService] (ogc/features/service.go: queries of
    collections, conversion and encoding of features, status of errors).

    Mutations.  [Schema] (feature/schema.go and the input checks), [Identity]
    (feature/identity.go), [JsonPatch] (server/jsonpatch.go), [Coordinator]
    (feature/mutation.go, feature/policy.go), [LockStore] (ogc/wfs/lockstore.go),
    [Revision] (provider/audit/revision.go), [GpkgTx] (provider/gpkg transactions).

    Containers.  [Cache] (cache, cache/memory, cache/file, cache/multilevel),
    [LinkedList] (container/list, on a heap of nodes).

    ** How the code is modelled

    A Go function that returns an error returns a [result]; early returns are the
    branches of its binds.  State is passed explicitly, as a record per component; the
    sequences of operations of the lock stores, the caches and the transactions are
    lists of steps, and their invariants hold in every reachable state.  What the code
    asks of the outside (databases, clocks, contexts, random identifiers, callbacks,
    projections) is an argument, so the theorems hold for every behaviour of it,
    failures included.  Integers are in [Z] with their wrap-around written where the
    code can reach it.  A provider is, for the service, a tree of deliveries that may do
    anything with the answers of the callback.  Geometries that the encoder changes in
    place are returned changed.  A float64 is its 64 bits or its rank among the float64 values.
    A failed type assertion, index or slice is an error value of its own, which the
    theorems on the decoders exclude.

    ** What the theorems show

    Refinement: the predicate each of the four compilers produces has, on every row,
    the three-valued value of the filter; the SQL lock store refines the memory one;
    linked lists refine sequences.  Exactness: the validations, the parameters of a
    request, the WKB decoder, the cache keys, the intersection tests, the spatial and the
    temporal predicates accept exactly what their specifications say, in exact
    arithmetic.  Pages: a query delivers the window of offset and limit of the matching
    features, whatever the chunks, with exact counts; the service answers a page exactly
    when the provider keeps its contract, and a client that follows the links gets each
    match once.  Publication: features keep their identifier and properties, their
    positions are the conversions of those of the source, and rings are closed and turned
    as RFC 7946 asks.  Safety of changes: a request
    runs one of a few histories of calls, commits only what was cleared, and a
    conditional change never overwrites one it has not seen; no feature is locked
    twice; a cache never serves what was not written.  Round trips: CQL2 text, JSON
    pointers, feature identifiers, GeoPackage geometry.  Termination and bounds of the
    scanner and the parser.

    ** Fuel

    The loops over a text or a list are structural or take as fuel its length, which
    every step shortens ([Scan], [lex], [ValidString]); the parser takes the number of
    tokens plus one per nesting level; the WKB decoder takes the number of levels it
    allows, 33; the scan of a query takes one more than the number of candidate rows,
    each chunk but the last consuming at least one; a client walks pages with more fuel
    than there are matches.  That the fuel suffices is part of the theorems.  The sign of
    the area of a ring is exact for rings of up to 2^40 positions, more than fit in
    memory.

    ** Not modelled

    The SQL text of queries and mutations outside the filters, and its execution; the
    registration of layers from configuration; HTTP, XML and JSON text handling, apart
    from the parameters, links and GeoJSON geometries named above; tile
    assembly and the approximate geometry of tiles, which compute with transcendental
    functions; remote caches; logging and metrics.  The case folding of names, the
    decoders of WKT and MOS values, strconv.ParseFloat, the text of numbers in JSON and
    the projections are arguments where a modelled operation uses them.  The context of a
    query is polled at each delivery and at the end, not inside the encoding of a
    feature; products and sums of float64 are rounded one by one, without fused
    operations. *)

From Stdlib Require Export Ascii ZArith Lia.
From Stdlib Require String.
From stdpp Require Export base list gmap strings sorting.

#[global] Open Scope Z_scope.
#[global] Open Scope list_scope.
#[global] Open Scope bool_scope.

(** ** Go strings

    A Go string (and a []byte) is a sequence of bytes, so it is a list of
    8-bit characters; [len(s)] is [blen s], and slices are [take]/[drop].  [B]
    turns a Rocq string literal into such a list. *)

Abbreviation gostring := (list ascii).

Definition B (s : string) : gostring := String.list_ascii_of_string s.

Definition blen {A : Type} (s : list A) : Z := Z.of_nat (length s).

(** The value of a byte, for the range tests [c >= 'a' && c <= 'z']. *)
Definition code (c : ascii) : Z := Z.of_N (N_of_ascii c).

Definition byte_of (z : Z) : ascii := ascii_of_N (Z.to_N z).

Definition in_range (lo hi : Z) (c : ascii) : bool :=
  (lo <=? code c) && (code c <=? hi).

Definition is_digit (c : ascii) : bool := in_range 48 57 c.
Definition is_lower (c : ascii) : bool := in_range 97 122 c.
Definition is_upper (c : ascii) : bool := in_range 65 90 c.
Definition is_letter (c : ascii) : bool := is_lower c || is_upper c.

Definition beq (s t : gostring) : bool := bool_decide (s = t).

(** The slice [s[i:j]]; the callers stay within the bounds. *)
Definition slice {A : Type} (s : list A) (i j : nat) : list A :=
  take (j - i) (drop i s).

(** ** Fallible computations

    A Go function that returns [(T, error)] becomes a [result E T]. *)

Inductive result (E A : Type) : Type :=
| Ok (a : A)
| Err (e : E).

Arguments Ok {E A} a.
Arguments Err {E A} e.

Declare Scope go_scope.
Delimit Scope go_scope with go.

Definition rbind {E A C : Type} (r : result E A) (k : A -> result E C) : result E C :=
  match r with
  | Ok a => k a
  | Err e => Err e
  end.

Notation "'let?' x ':=' r 'in' k" := (rbind r (fun x => k))
  (at level 10, x pattern, r at level 100, k at level 200,
   format "'[v' 'let?'  x  ':='  r  'in' '/' k ']'") : go_scope.

Notation "'check?' r 'in' k" := (rbind r (fun _ : unit => k))
  (at level 10, r at level 100, k at level 200,
   format "'[v' 'check?'  r  'in' '/' k ']'") : go_scope.

#[global] Open Scope go_scope.

Definition is_ok {E A : Type} (r : result E A) : bool :=
  match r with Ok _ => true | Err _ => false end.

(** A [for _, a := range l] loop whose body may return an error and updates a
    state [s]. *)
Section Loop.
Context {E A S : Type} (f : A -> S -> result E S).

Fixpoint rfold (l : list A) (s : S) : result E S :=
  match l with
  | [] => Ok s
  | a :: l' => let? s' := f a s in rfold l' s'
  end.

End Loop.

#[global] Instance result_eq_dec {E A : Type} `{EqDecision E} `{EqDecision A} :
  EqDecision (result E A).
Proof. solve_decision. Defined.

(** ** Tactics *)

(** Case analysis on the innermost test of a [match] or an [if]. *)
Ltac case_test :=
  match goal with
  | |- context [match ?x with _ => _ end] =>
      lazymatch x with
      | context [match _ with _ => _ end] => fail
      | _ => destruct x eqn:?
      end
  | H : context [match ?x with _ => _ end] |- _ =>
      lazymatch x with
      | context [match _ with _ => _ end] => fail
      | _ => destruct x eqn:?
      end
  end.

(** Open one [rbind] in a hypothesis that says a computation succeeded. *)
Ltac inv_bind H :=
  lazymatch type of H with
  | rbind ?r _ = Ok _ =>
      let E := fresh "E" in
      destruct r eqn:E; cbn [rbind] in H; [| discriminate H]
  end.

(** Evaluate the decisions between constants and the boolean tests on them. *)
Ltac closed_decide :=
  repeat match goal with
  | |- context [bool_decide ?P] =>
      let b := eval vm_compute in (bool_decide P) in
      lazymatch b with
      | true => change (bool_decide P) with true
      | false => change (bool_decide P) with false
      end
  end; cbn [andb orb negb].

(** Boolean conjunctions, disjunctions and comparisons as propositions. *)
Create Rewrite HintDb go_bool.

#[export] Hint Rewrite andb_true_iff orb_true_iff negb_true_iff andb_false_iff
  orb_false_iff negb_false_iff Z.leb_le Z.ltb_lt Z.eqb_eq Z.leb_gt Z.ltb_ge
  Z.eqb_neq bool_decide_eq_true bool_decide_eq_false Nat.ltb_lt Nat.ltb_ge
  Nat.leb_le Nat.leb_gt Nat.eqb_eq Nat.eqb_neq : go_bool.

Ltac bool_props := autorewrite with go_bool in *.

(** ** Shared lemmas *)

Lemma rbind_Ok {E A C : Type} (r : result E A) (k : A -> result E C) (c : C) :
  rbind r k = Ok c <-> exists a, r = Ok a /\ k a = Ok c.
Proof.
  destruct r as [a|e]; cbn; split.
  - intros H. by exists a.
  - by intros (a' & [= <-] & H).
  - discriminate.
  - by intros (a' & ? & _).
Qed.

Lemma rbind_unit {E A : Type} (r : result E unit) (k : result E A) (a : A) :
  rbind r (fun _ => k) = Ok a <-> r = Ok tt /\ k = Ok a.
Proof. destruct r as [[]|]; cbn; naive_solver. Qed.

Lemma if_Err_Ok {E A : Type} (b : bool) (e : E) (r : result E A) (a : A) :
  (if b then Err e else r) = Ok a <-> b = false /\ r = Ok a.
Proof. destruct b; naive_solver. Qed.

Lemma rbind_discard {E A : Type} (r : result E A) :
  rbind r (fun _ => Ok tt) = Ok tt <-> is_ok r = true.
Proof. destruct r; cbn; naive_solver. Qed.

(** A loop that only checks succeeds when every check does. *)
Lemma rfold_check {E A : Type} (f : A -> result E unit) (l : list A) :
  rfold (fun a _ => f a) l tt = Ok tt <-> Forall (fun a => f a = Ok tt) l.
Proof.
  induction l as [|a l IH]; cbn; [by split|].
  rewrite Forall_cons, <- IH. destruct (f a) as [[]|]; cbn; naive_solver.
Qed.

Lemma forallb_Forall_true {A : Type} (f : A -> bool) (l : list A) :
  forallb f l = true <-> Forall (fun x => f x = true) l.
Proof.
  induction l as [|x l IH]; cbn; [by rewrite Forall_nil|].
  by rewrite andb_true_iff, Forall_cons, IH.
Qed.

Lemma blen_app {A : Type} (s t : list A) : blen (s ++ t) = blen s + blen t.
Proof. unfold blen. rewrite length_app. lia. Qed.

Lemma blen_nil {A : Type} : blen (@nil A) = 0.
Proof. done. Qed.

Lemma blen_nonneg {A : Type} (s : list A) : 0 <= blen s.
Proof. unfold blen. lia. Qed.

Lemma beq_true (s t : gostring) : beq s t = true <-> s = t.
Proof. apply bool_decide_eq_true. Qed.

Lemma beq_refl (s : gostring) : beq s s = true.
Proof. by apply beq_true. Qed.

Lemma beq_false (s t : gostring) : beq s t = false <-> s <> t.
Proof. apply bool_decide_eq_false. Qed.

Lemma code_range (c : ascii) : 0 <= code c < 256.
Proof. unfold code. pose proof (N_ascii_bounded c). lia. Qed.

Lemma byte_of_code (c : ascii) : byte_of (code c) = c.
Proof. unfold byte_of, code. by rewrite N2Z.id, ascii_N_embedding. Qed.

Lemma code_byte_of (z : Z) : 0 <= z < 256 -> code (byte_of z) = z.
Proof.
  intros Hz. unfold byte_of, code. rewrite N_ascii_embedding by lia. lia.
Qed.

Lemma code_inj (c d : ascii) : code c = code d -> c = d.
Proof. intros H. by rewrite <- (byte_of_code c), <- (byte_of_code d), H. Qed.

Lemma slice_all {A : Type} (s : list A) : slice s 0 (length s) = s.
Proof. unfold slice. rewrite Nat.sub_0_r, drop_0. by apply take_ge. Qed.

Lemma slice_split {A : Type} (s : list A) (i j k : nat) :
  (i <= j <= k)%nat -> slice s i j ++ slice s j k = slice s i k.
Proof.
  intros H. unfold slice.
  replace (k - i)%nat with ((j - i) + (k - j))%nat by lia.
  rewrite <- (take_take_drop (drop i s) (j - i)), drop_drop.
  do 2 f_equal. f_equal. lia.
Qed.

Lemma slice_nil {A : Type} (s : list A) (i : nat) : slice s i i = [].
Proof. unfold slice. by rewrite Nat.sub_diag. Qed.

Lemma length_slice {A : Type} (s : list A) (i j : nat) :
  (i <= j <= length s)%nat -> length (slice s i j) = (j - i)%nat.
Proof. intros H. unfold slice. rewrite length_take, length_drop. lia. Qed.

Lemma slice_slice {A : Type} (s : list A) (i j a b : nat) :
  (a <= b)%nat -> (i + b <= j)%nat ->
  slice (slice s i j) a b = slice s (i + a) (i + b).
Proof.
  intros Hab Hij. unfold slice.
  rewrite skipn_firstn_comm, drop_drop, take_take. f_equal. lia.
Qed.

Lemma slice_cons_inv {A : Type} (s : list A) (i j : nat) (c : A) (t : list A) :
  slice s i j = c :: t -> s !! i = Some c /\ t = slice s (S i) j.
Proof.
  unfold slice. destruct (j - i)%nat as [|k] eqn:Ek; [done|].
  destruct (drop i s) as [|c' r] eqn:Ed; [done|].
  cbn. intros [= -> <-]. rewrite <- (Nat.add_0_r i), <- lookup_drop, Ed. split; [done|].
  replace (j - S (i + 0))%nat with k by lia. f_equal.
  replace (S (i + 0)) with (i + 1)%nat by lia. by rewrite <- drop_drop, Ed.
Qed.

(** A closed decidable proposition, by evaluation. *)
Ltac by_decide := apply (bool_decide_unpack _); vm_compute; exact I.

(** Decide the integer comparisons of the goal by arithmetic. *)
Ltac decide_ltb :=
  repeat match goal with
         | |- context [?a <? ?b] =>
             first [rewrite (proj2 (Z.ltb_lt a b)) by lia
                   |rewrite (proj2 (Z.ltb_ge a b)) by lia]
         | |- context [?a <=? ?b] =>
             first [rewrite (proj2 (Z.leb_le a b)) by lia
                   |rewrite (proj2 (Z.leb_gt a b)) by lia]
         end.
