(* ===== verification/GoText.v ===== *)
(** * The parts of Go's text packages that the program uses

    unicode/utf8 (decoding, validity, encoding), strconv (decimal integers) and
    strings (splitting, trimming, replacing), on byte strings. *)

From S2P Require Import Prelude.

(** ** unicode/utf8 *)

Definition RuneError : Z := 0xFFFD.

Definition cont (c : ascii) : bool := in_range 0x80 0xBF c.

(** The accepted range of the second byte, by first byte. *)
Definition second_ok (b0 : Z) (c : ascii) : bool :=
  if b0 =? 0xE0 then in_range 0xA0 0xBF c
  else if b0 =? 0xED then in_range 0x80 0x9F c
  else if b0 =? 0xF0 then in_range 0x90 0xBF c
  else if b0 =? 0xF4 then in_range 0x80 0x8F c
  else cont c.

(** [utf8.DecodeRuneInString]: the rune and its width; an invalid sequence gives
    [(RuneError, 1)] and the empty string [(RuneError, 0)]. *)
Definition DecodeRune (s : gostring) : Z * nat :=
  match s with
  | [] => (RuneError, 0%nat)
  | c0 :: s1 =>
      let b0 := code c0 in
      if b0 <? 0x80 then (b0, 1%nat)
      else if (b0 <? 0xC2) || (0xF4 <? b0) then (RuneError, 1%nat)
      else
        match s1 with
        | [] => (RuneError, 1%nat)
        | c1 :: s2 =>
            if negb (second_ok b0 c1) then (RuneError, 1%nat)
            else if b0 <? 0xE0 then
              ((b0 - 0xC0) * 64 + (code c1 - 0x80), 2%nat)
            else
              match s2 with
              | [] => (RuneError, 1%nat)
              | c2 :: s3 =>
                  if negb (cont c2) then (RuneError, 1%nat)
                  else if b0 <? 0xF0 then
                    ((b0 - 0xE0) * 4096 + (code c1 - 0x80) * 64 + (code c2 - 0x80), 3%nat)
                  else
                    match s3 with
                    | [] => (RuneError, 1%nat)
                    | c3 :: _ =>
                        if negb (cont c3) then (RuneError, 1%nat)
                        else ((b0 - 0xF0) * 262144 + (code c1 - 0x80) * 4096
                              + (code c2 - 0x80) * 64 + (code c3 - 0x80), 4%nat)
                    end
              end
        end
  end.

Definition is_surrogate (r : Z) : bool := (0xD800 <=? r) && (r <=? 0xDFFF).

Definition valid_rune (r : Z) : bool := (0 <=? r) && (r <=? 0x10FFFF) && negb (is_surrogate r).

(** The UTF-8 form of a rune, as [string(r)], [WriteRune] and [AppendRune] give
    it: an invalid rune is written as RuneError. *)
Definition EncodeRune (r0 : Z) : gostring :=
  let r := if valid_rune r0 then r0 else RuneError in
  if r <? 0x80 then [byte_of r]
  else if r <? 0x800 then [byte_of (0xC0 + r / 64); byte_of (0x80 + r mod 64)]
  else if r <? 0x10000 then
    [byte_of (0xE0 + r / 4096); byte_of (0x80 + (r / 64) mod 64); byte_of (0x80 + r mod 64)]
  else
    [byte_of (0xF0 + r / 262144); byte_of (0x80 + (r / 4096) mod 64);
     byte_of (0x80 + (r / 64) mod 64); byte_of (0x80 + r mod 64)].

(** The runes of [range s] with their byte offsets. *)
Fixpoint range_loop (fuel : nat) (s : gostring) (i : nat) : list (nat * Z) :=
  match fuel, s with
  | S fuel', _ :: _ =>
      let '(r, w) := DecodeRune s in
      (i, r) :: range_loop fuel' (drop w s) (i + w)
  | _, _ => []
  end.

Definition range_string (s : gostring) : list (nat * Z) := range_loop (length s) s 0.

(** [utf8.ValidString]: no position decodes to an error of width 1. *)
Fixpoint valid_loop (fuel : nat) (s : gostring) : bool :=
  match fuel, s with
  | _, [] => true
  | O, _ => false
  | S fuel', _ =>
      let '(r, w) := DecodeRune s in
      negb ((r =? RuneError) && (w =? 1)%nat) && valid_loop fuel' (drop w s)
  end.

Definition ValidString (s : gostring) : bool := valid_loop (length s) s.

(** ** strconv *)

Definition digit_char (d : Z) : ascii := byte_of (48 + d).

Fixpoint format_loop (fuel : nat) (n : Z) (acc : gostring) : gostring :=
  match fuel with
  | O => acc
  | S fuel' =>
      if n <? 10 then digit_char n :: acc
      else format_loop fuel' (n / 10) (digit_char (n mod 10) :: acc)
  end.

(** [strconv.FormatUint(n, 10)]: a number has at most as many decimal digits as
    binary ones. *)
Definition FormatUint (n : Z) : gostring := format_loop (S (Z.to_nat (Z.log2 n))) n [].

Definition FormatInt (n : Z) : gostring :=
  if n <? 0 then "-"%char :: FormatUint (- n) else FormatUint n.

Fixpoint parse_digits (s : gostring) (acc : Z) : option Z :=
  match s with
  | [] => Some acc
  | c :: s' => if is_digit c then parse_digits s' (acc * 10 + (code c - 48)) else None
  end.

(** [strconv.ParseUint(s, 10, bits)]; [None] is a syntax or range error. *)
Definition ParseUint (s : gostring) (bits : Z) : option Z :=
  match s with
  | [] => None
  | _ =>
      match parse_digits s 0 with
      | Some n => if n <? 2 ^ bits then Some n else None
      | None => None
      end
  end.

(** [strconv.ParseInt(s, 10, bits)]. *)
Definition ParseInt (s : gostring) (bits : Z) : option Z :=
  let signed (neg : bool) (t : gostring) :=
    match t with
    | [] => None
    | _ =>
        match parse_digits t 0 with
        | Some n =>
            if neg then (if n <=? 2 ^ (bits - 1) then Some (- n) else None)
            else (if n <? 2 ^ (bits - 1) then Some n else None)
        | None => None
        end
    end in
  match s with
  | [] => None
  | c :: t =>
      if Ascii.eqb c "-" then signed true t
      else if Ascii.eqb c "+" then signed false t
      else signed false s
  end.

(** [strconv.Atoi] on a 64-bit platform. *)
Definition Atoi (s : gostring) : option Z := ParseInt s 64.

(** ** strings *)

Fixpoint HasPrefix (s p : gostring) : bool :=
  match p, s with
  | [], _ => true
  | c :: p', d :: s' => Ascii.eqb c d && HasPrefix s' p'
  | _ :: _, [] => false
  end.

(** [strings.Split(s, sep)] for a one-byte separator. *)
Fixpoint SplitByte (sep : ascii) (s : gostring) : list gostring :=
  match s with
  | [] => [[]]
  | c :: s' =>
      if Ascii.eqb c sep then [] :: SplitByte sep s'
      else match SplitByte sep s' with
           | part :: parts => (c :: part) :: parts
           | [] => [[c]]
           end
  end.

(** [strings.Contains(s, t)] *)
Fixpoint Contains (s t : gostring) : bool :=
  HasPrefix s t || match s with [] => false | _ :: s' => Contains s' t end.

(** [strings.Join(parts, sep)] *)
Fixpoint Join (parts : list gostring) (sep : gostring) : gostring :=
  match parts with
  | [] => []
  | [p] => p
  | p :: parts' => p ++ sep ++ Join parts' sep
  end.

(** [strings.Join(parts, sep)] for a one-byte separator. *)
Fixpoint JoinByte (sep : ascii) (parts : list gostring) : gostring :=
  match parts with
  | [] => []
  | [p] => p
  | p :: parts' => p ++ sep :: JoinByte sep parts'
  end.

(** [strings.ReplaceAll(s, old, new)] for a two-byte [old]. *)
Fixpoint ReplaceAll2 (a b : ascii) (new : gostring) (s : gostring) : gostring :=
  match s with
  | [] => []
  | c :: s1 =>
      match s1 with
      | d :: s2 =>
          if Ascii.eqb c a && Ascii.eqb d b then new ++ ReplaceAll2 a b new s2
          else c :: ReplaceAll2 a b new s1
      | [] => [c]
      end
  end.

(** [strings.LastIndex(s, sep)] for a one-byte [sep]. *)
Fixpoint LastIndexByte (s : gostring) (b : ascii) : option nat :=
  match s with
  | [] => None
  | c :: s' =>
      match LastIndexByte s' b with
      | Some i => Some (S i)
      | None => if Ascii.eqb c b then Some 0%nat else None
      end
  end.

(** [unicode.IsSpace]. *)
Definition IsSpace (r : Z) : bool :=
  ((9 <=? r) && (r <=? 13)) || (r =? 32) || (r =? 0x85) || (r =? 0xA0) || (r =? 0x1680)
    || ((0x2000 <=? r) && (r <=? 0x200A)) || (r =? 0x2028) || (r =? 0x2029)
    || (r =? 0x202F) || (r =? 0x205F) || (r =? 0x3000).

(** [strings.TrimSpace(s) == ""]: the only way the program uses TrimSpace on
    property names. *)
Definition is_blank (s : gostring) : bool :=
  forallb (fun ir => IsSpace (snd ir)) (range_string s).

(** [strings.TrimSpace]: leading and trailing white-space runes are cut. *)
Fixpoint trim_left (fuel : nat) (s : gostring) : gostring :=
  match fuel, s with
  | S fuel', _ :: _ =>
      let '(r, w) := DecodeRune s in
      if IsSpace r then trim_left fuel' (drop w s) else s
  | _, _ => s
  end.

(** The byte offset behind the last rune that is not white space. *)
Fixpoint last_visible (fuel : nat) (s : gostring) (i found : nat) : nat :=
  match fuel, s with
  | S fuel', _ :: _ =>
      let '(r, w) := DecodeRune s in
      last_visible fuel' (drop w s) (i + w) (if IsSpace r then found else (i + w)%nat)
  | _, _ => found
  end.

Definition TrimSpace (s : gostring) : gostring :=
  let t := trim_left (length s) s in
  take (last_visible (length t) t 0 0) t.

(** [strings.Compare]: lexicographic on bytes. *)
Fixpoint Compare (a b : gostring) : comparison :=
  match a, b with
  | [], [] => Eq
  | [], _ => Lt
  | _, [] => Gt
  | x :: a', y :: b' =>
      match code x ?= code y with Eq => Compare a' b' | c => c end
  end.

Definition string_le (a b : gostring) : Prop := Compare a b <> Gt.

#[export] Instance string_le_dec (a b : gostring) : Decision (string_le a b).
Proof. unfold string_le. apply _. Defined.

(** ** Lemmas: decoding and encoding are inverse *)

Lemma in_range_iff (lo hi : Z) (c : ascii) : in_range lo hi c = true <-> lo <= code c <= hi.
Proof. unfold in_range. rewrite andb_true_iff, !Z.leb_le. done. Qed.

Lemma DecodeRune_width (s : gostring) :
  s <> [] -> (1 <= snd (DecodeRune s) <= 4)%nat /\ (snd (DecodeRune s) <= length s)%nat.
Proof.
  destruct s as [|c0 s1]; [done|]. intros _. unfold DecodeRune.
  destruct s1 as [|c1 [|c2 [|c3 s4]]]; repeat case_match; cbn; lia.
Qed.

Lemma valid_rune_iff (r : Z) :
  valid_rune r = true <-> 0 <= r <= 0x10FFFF /\ ~ (0xD800 <= r <= 0xDFFF).
Proof.
  unfold valid_rune, is_surrogate. rewrite !andb_true_iff, negb_true_iff, andb_false_iff. lia.
Qed.

Lemma second_ok_iff (b0 : Z) (c : ascii) :
  second_ok b0 c = true <->
  0x80 <= code c <= 0xBF
  /\ (b0 = 0xE0 -> 0xA0 <= code c) /\ (b0 = 0xED -> code c <= 0x9F)
  /\ (b0 = 0xF0 -> 0x90 <= code c) /\ (b0 = 0xF4 -> code c <= 0x8F).
Proof.
  unfold second_ok, cont.
  repeat match goal with |- context [?a =? ?b] => destruct (Z.eqb_spec a b) end;
    rewrite in_range_iff; lia.
Qed.

Lemma second_ok_byte (b0 x : Z) :
  0x80 <= x <= 0xBF -> (b0 = 0xE0 -> 0xA0 <= x) -> (b0 = 0xED -> x <= 0x9F) ->
  (b0 = 0xF0 -> 0x90 <= x) -> (b0 = 0xF4 -> x <= 0x8F) -> second_ok b0 (byte_of x) = true.
Proof. intros. apply second_ok_iff. rewrite code_byte_of by lia. lia. Qed.

Lemma cont_byte (x : Z) : 0x80 <= x <= 0xBF -> cont (byte_of x) = true.
Proof. intros. apply in_range_iff. rewrite code_byte_of by lia. lia. Qed.

Lemma DecodeRune_EncodeRune (r : Z) (t : gostring) :
  valid_rune r = true -> DecodeRune (EncodeRune r ++ t) = (r, length (EncodeRune r)).
Proof.
  intros Hv. apply valid_rune_iff in Hv as Hr.
  unfold EncodeRune. rewrite Hv.
  pose proof (Z.div_mod r 64 ltac:(lia)). pose proof (Z.mod_pos_bound r 64 ltac:(lia)).
  pose proof (Z.div_mod (r / 64) 64 ltac:(lia)). pose proof (Z.mod_pos_bound (r / 64) 64 ltac:(lia)).
  pose proof (Z.div_mod (r / 4096) 64 ltac:(lia)). pose proof (Z.mod_pos_bound (r / 4096) 64 ltac:(lia)).
  assert (r / 4096 = r / 64 / 64) as E1 by (rewrite Zdiv_Zdiv; [done|lia..]).
  assert (r / 262144 = r / 4096 / 64) as E2 by (rewrite Zdiv_Zdiv; [done|lia..]).
  destruct (Z.ltb_spec r 0x80); [|destruct (Z.ltb_spec r 0x800); [|destruct (Z.ltb_spec r 0x10000)]];
    cbn [app DecodeRune length]; rewrite !code_byte_of by lia.
  - by decide_ltb.
  - rewrite second_ok_byte by lia. decide_ltb. cbn. f_equal. lia.
  - rewrite second_ok_byte, cont_byte by lia. decide_ltb. cbn. f_equal. lia.
  - rewrite second_ok_byte, !cont_byte by lia. decide_ltb. cbn. f_equal. lia.
Qed.

Lemma split64 (r q m : Z) : r = q * 64 + m -> 0 <= m < 64 -> r / 64 = q /\ r mod 64 = m.
Proof.
  intros -> Hm. split; symmetry; [apply Z.div_unique with m|apply Z.mod_unique with q]; lia.
Qed.

(** An encoding is read back from the decoding that is not an error. *)
Lemma EncodeRune_DecodeRune (s : gostring) (r : Z) (w : nat) :
  DecodeRune s = (r, w) -> s <> [] -> ~ (r = RuneError /\ w = 1%nat) ->
  valid_rune r = true /\ take w s = EncodeRune r.
Proof.
  destruct s as [|c0 s1]; [done|]. intros H _ Hne. unfold DecodeRune in H.
  pose proof (code_range c0) as R0.
  destruct (Z.ltb_spec (code c0) 0x80) as [L|L].
  { simplify_eq. assert (valid_rune (code c0) = true) as Hv by (apply valid_rune_iff; lia).
    split; [done|]. unfold EncodeRune. rewrite Hv. decide_ltb. cbn. by rewrite byte_of_code. }
  destruct ((code c0 <? 0xC2) || (0xF4 <? code c0)) eqn:E0; [by simplify_eq; destruct Hne|].
  bool_props. destruct s1 as [|c1 s2]; [by simplify_eq; destruct Hne|].
  destruct (second_ok (code c0) c1) eqn:E1; cbn [negb] in H; [|by simplify_eq; destruct Hne].
  apply second_ok_iff in E1.
  destruct (Z.ltb_spec (code c0) 0xE0) as [L2|L2].
  { simplify_eq. set (r := _ + _).
    assert (r / 64 = code c0 - 0xC0 /\ r mod 64 = code c1 - 0x80) as [Ed Em] by (apply split64; lia).
    assert (valid_rune r = true) as Hv by (apply valid_rune_iff; lia).
    split; [done|]. unfold EncodeRune. rewrite Hv. decide_ltb. cbn [take]. rewrite Ed, Em.
    by rewrite !Zplus_minus, !byte_of_code. }
  destruct s2 as [|c2 s3]; [by simplify_eq; destruct Hne|].
  destruct (cont c2) eqn:E2; cbn [negb] in H; [|by simplify_eq; destruct Hne].
  apply in_range_iff in E2.
  destruct (Z.ltb_spec (code c0) 0xF0) as [L3|L3].
  { simplify_eq. set (r := _ + _ + _).
    assert (r / 64 = (code c0 - 0xE0) * 64 + (code c1 - 0x80) /\ r mod 64 = code c2 - 0x80) as [Ed Em] by (apply split64; lia).
    assert (r / 64 / 64 = code c0 - 0xE0 /\ (r / 64) mod 64 = code c1 - 0x80) as [Ed2 Em2] by (apply split64; lia).
    assert (r / 4096 = r / 64 / 64) as E4 by (rewrite Zdiv_Zdiv; [done|lia..]).
    assert (valid_rune r = true) as Hv by (apply valid_rune_iff; lia).
    split; [done|]. unfold EncodeRune. rewrite Hv. decide_ltb. cbn [take].
    by rewrite E4, Ed2, Em2, Em, !Zplus_minus, !byte_of_code. }
  destruct s3 as [|c3 s4]; [by simplify_eq; destruct Hne|].
  destruct (cont c3) eqn:E3; cbn [negb] in H; [|by simplify_eq; destruct Hne].
  apply in_range_iff in E3. simplify_eq. set (r := _ + _ + _ + _).
  assert (r / 64 = (code c0 - 0xF0) * 4096 + (code c1 - 0x80) * 64 + (code c2 - 0x80)
          /\ r mod 64 = code c3 - 0x80) as [Ed Em] by (apply split64; lia).
  assert (r / 64 / 64 = (code c0 - 0xF0) * 64 + (code c1 - 0x80)
          /\ (r / 64) mod 64 = code c2 - 0x80) as [Ed2 Em2] by (apply split64; lia).
  assert (r / 64 / 64 / 64 = code c0 - 0xF0 /\ (r / 64 / 64) mod 64 = code c1 - 0x80) as [Ed3 Em3] by (apply split64; lia).
  assert (r / 4096 = r / 64 / 64) as E5 by (rewrite Zdiv_Zdiv; [done|lia..]).
  assert (r / 262144 = r / 64 / 64 / 64) as E6 by (rewrite !Zdiv_Zdiv; [done|lia..]).
  assert (valid_rune r = true) as Hv by (apply valid_rune_iff; lia).
  split; [done|]. unfold EncodeRune. rewrite Hv. decide_ltb. cbn [take].
  by rewrite E6, Ed3, E5, Em3, Em2, Em, !Zplus_minus, !byte_of_code.
Qed.

(** ** Lemmas: the loops do not depend on their bound *)

Lemma drop_width_length (s : gostring) :
  s <> [] -> (length (drop (snd (DecodeRune s)) s) < length s)%nat.
Proof.
  intros Hs. pose proof (DecodeRune_width s Hs). rewrite length_drop. lia.
Qed.

Lemma valid_loop_fuel (n m : nat) (s : gostring) :
  (length s <= n)%nat -> (length s <= m)%nat -> valid_loop n s = valid_loop m s.
Proof.
  revert m s. induction n as [|n IH]; intros [|m] [|c s] Hn Hm; cbn in Hn, Hm; try lia; try done.
  cbn [valid_loop]. destruct (DecodeRune (c :: s)) as [r w] eqn:E. f_equal.
  pose proof (drop_width_length (c :: s) ltac:(done)) as Hd. rewrite E in Hd. cbn in Hd.
  apply IH; cbn; lia.
Qed.

Lemma ValidString_step (s : gostring) (r : Z) (w : nat) :
  s <> [] -> DecodeRune s = (r, w) ->
  ValidString s = negb ((r =? RuneError) && (w =? 1)%nat) && ValidString (drop w s).
Proof.
  intros Hs E. pose proof (drop_width_length s Hs) as Hd. rewrite E in Hd. cbn [snd] in Hd.
  destruct s as [|c s]; [done|]. unfold ValidString. cbn [valid_loop length]. rewrite E.
  f_equal. apply valid_loop_fuel; cbn in *; lia.
Qed.

Lemma range_loop_fuel (n m : nat) (s : gostring) (i : nat) :
  (length s <= n)%nat -> (length s <= m)%nat -> range_loop n s i = range_loop m s i.
Proof.
  revert m s i. induction n as [|n IH]; intros [|m] [|c s] i Hn Hm; cbn in Hn, Hm; try lia; try done.
  cbn [range_loop]. destruct (DecodeRune (c :: s)) as [r w] eqn:E. f_equal.
  pose proof (drop_width_length (c :: s) ltac:(done)) as Hd. rewrite E in Hd. cbn in Hd.
  apply IH; cbn; lia.
Qed.

Lemma range_loop_step (n : nat) (s : gostring) (i : nat) (r : Z) (w : nat) :
  (length s <= n)%nat -> s <> [] -> DecodeRune s = (r, w) ->
  range_loop n s i = (i, r) :: range_loop (length (drop w s)) (drop w s) (i + w).
Proof.
  intros Hn Hs E. pose proof (drop_width_length s Hs) as Hd. rewrite E in Hd. cbn [snd] in Hd.
  destruct n as [|n]; [destruct s; cbn in *; [done|lia]|].
  destruct s as [|c s]; [done|]. cbn [range_loop]. rewrite E. f_equal.
  apply range_loop_fuel; cbn in *; lia.
Qed.

Lemma EncodeRune_nonempty (r : Z) : EncodeRune r <> [].
Proof. unfold EncodeRune. repeat case_match; done. Qed.

Lemma EncodeRune_not_error (r : Z) :
  valid_rune r = true -> (r =? RuneError) && (length (EncodeRune r) =? 1)%nat = false.
Proof.
  intros Hv. destruct (Z.eqb_spec r RuneError) as [->|]; [|done]. by vm_compute.
Qed.

Lemma ValidString_EncodeRune (r : Z) (t : gostring) :
  valid_rune r = true -> ValidString (EncodeRune r ++ t) = ValidString t.
Proof.
  intros Hv. assert (EncodeRune r ++ t <> []) as Hne.
  { pose proof (EncodeRune_nonempty r). by destruct (EncodeRune r). }
  rewrite (ValidString_step _ _ _ Hne (DecodeRune_EncodeRune r t Hv)).
  by rewrite EncodeRune_not_error, drop_app_length.
Qed.

(** Induction over a valid string, rune by rune. *)
Lemma valid_string_ind (P : gostring -> Prop) :
  P [] ->
  (forall r t, valid_rune r = true -> ValidString t = true -> P t -> P (EncodeRune r ++ t)) ->
  forall s, ValidString s = true -> P s.
Proof.
  intros Hnil Hcons s. induction s as [s IH] using (induction_ltof1 _ (@length ascii)).
  intros Hs. destruct (decide (s = [])) as [->|Hne]; [done|].
  destruct (DecodeRune s) as [r w] eqn:E.
  rewrite (ValidString_step s r w Hne E) in Hs. apply andb_true_iff in Hs as [Hr Ht].
  destruct (EncodeRune_DecodeRune s r w E Hne) as [Hv Htake].
  { intros [-> ->]. by vm_compute in Hr. }
  rewrite <- (take_drop w s), Htake. apply Hcons; [done|done|]. apply IH; [|done].
  unfold ltof. pose proof (drop_width_length s Hne) as Hd. by rewrite E in Hd.
Qed.

(** ** Lemmas: decimal numbers *)

Lemma is_digit_char (d : Z) : 0 <= d < 10 -> is_digit (digit_char d) = true.
Proof.
  intros Hd. unfold digit_char. apply in_range_iff. rewrite code_byte_of by lia. lia.
Qed.

Lemma code_digit_char (d : Z) : 0 <= d < 10 -> code (digit_char d) = 48 + d.
Proof. intros Hd. unfold digit_char. by rewrite code_byte_of by lia. Qed.

Lemma format_loop_parse (fuel : nat) (n : Z) (acc : gostring) :
  0 <= n < 2 ^ Z.of_nat fuel -> parse_digits (format_loop fuel n acc) 0 = parse_digits acc n.
Proof.
  revert n acc. induction fuel as [|fuel IH]; intros n acc Hn.
  - cbn in Hn. cbn. f_equal. lia.
  - cbn [format_loop]. rewrite Nat2Z.inj_succ, Z.pow_succ_r in Hn by lia.
    destruct (Z.ltb_spec n 10).
    + cbn [parse_digits]. rewrite is_digit_char, code_digit_char by lia. f_equal. lia.
    + pose proof (Z.div_mod n 10 ltac:(lia)). pose proof (Z.mod_pos_bound n 10 ltac:(lia)).
      rewrite IH by lia. cbn [parse_digits].
      rewrite is_digit_char, code_digit_char by lia. f_equal. lia.
Qed.

Lemma log2_bound (n : Z) : 0 <= n -> n < 2 ^ Z.of_nat (S (Z.to_nat (Z.log2 n))).
Proof.
  intros Hn. rewrite Nat2Z.inj_succ, Z2Nat.id by apply Z.log2_nonneg.
  destruct (decide (n = 0)) as [->|]; [done|]. apply Z.log2_spec. lia.
Qed.

Lemma parse_FormatUint (n : Z) : 0 <= n -> parse_digits (FormatUint n) 0 = Some n.
Proof.
  intros Hn. unfold FormatUint. rewrite format_loop_parse; [done|].
  pose proof (log2_bound n Hn). lia.
Qed.

Lemma format_loop_digits (fuel : nat) (n : Z) (acc : gostring) :
  0 <= n -> forallb is_digit acc = true -> forallb is_digit (format_loop fuel n acc) = true.
Proof.
  revert n acc. induction fuel as [|fuel IH]; intros n acc Hn Ha; cbn; [done|].
  destruct (Z.ltb_spec n 10).
  - cbn. by rewrite is_digit_char.
  - pose proof (Z.mod_pos_bound n 10 ltac:(lia)). apply IH; [apply Z.div_pos; lia|].
    cbn. by rewrite is_digit_char.
Qed.

Lemma FormatUint_digits (n : Z) : 0 <= n -> forallb is_digit (FormatUint n) = true.
Proof. intros. by apply format_loop_digits. Qed.

Lemma FormatUint_nonempty (n : Z) : FormatUint n <> [].
Proof.
  unfold FormatUint. cbn [format_loop]. case_match; [done|].
  assert (forall fuel m c acc, format_loop fuel m (c :: acc) <> []) as Hl; [|apply Hl].
  induction fuel as [|fuel IH]; intros m c acc; cbn; [done|]. case_match; [done|]. apply IH.
Qed.

Lemma ParseUint_FormatUint (n bits : Z) :
  0 <= n < 2 ^ bits -> ParseUint (FormatUint n) bits = Some n.
Proof.
  intros Hn. unfold ParseUint. pose proof (FormatUint_nonempty n).
  destruct (FormatUint n) as [|c t] eqn:E; [done|].
  rewrite <- E, parse_FormatUint by lia. by decide_ltb.
Qed.

Lemma ParseUint_range (s : gostring) (bits n : Z) :
  ParseUint s bits = Some n -> 0 <= n < 2 ^ bits.
Proof.
  unfold ParseUint. destruct s as [|c s]; [done|].
  assert (forall t a m, 0 <= a -> parse_digits t a = Some m -> 0 <= m) as Hp.
  { induction t as [|d t IH]; intros a m Ha; cbn; [intros [= <-]; done|].
    destruct (is_digit d) eqn:Ed; [|done]. apply in_range_iff in Ed. apply IH. lia. }
  destruct (parse_digits (c :: s) 0) as [m|] eqn:E; [|done].
  apply Hp in E; [|lia]. destruct (Z.ltb_spec m (2 ^ bits)); [|done]. intros [= <-]. lia.
Qed.

(** ** Lemmas: splitting and joining *)

Lemma SplitByte_nonempty (sep : ascii) (s : gostring) : SplitByte sep s <> [].
Proof. destruct s; cbn; [done|]. repeat case_match; done. Qed.

Lemma SplitByte_app (sep : ascii) (p s : gostring) :
  sep ∉ p -> SplitByte sep (p ++ sep :: s) = p :: SplitByte sep s.
Proof.
  induction p as [|c p IH]; intros Hp; cbn.
  - by rewrite Ascii.eqb_refl.
  - apply not_elem_of_cons in Hp as [Hc Hp].
    rewrite (proj2 (Ascii.eqb_neq c sep)) by done. by rewrite IH.
Qed.

Lemma SplitByte_single (sep : ascii) (p : gostring) : sep ∉ p -> SplitByte sep p = [p].
Proof.
  induction p as [|c p IH]; intros Hp; cbn; [done|].
  apply not_elem_of_cons in Hp as [Hc Hp].
  rewrite (proj2 (Ascii.eqb_neq c sep)) by done. by rewrite IH.
Qed.

Lemma SplitByte_JoinByte (sep : ascii) (parts : list gostring) :
  parts <> [] -> Forall (fun p => sep ∉ p) parts ->
  SplitByte sep (JoinByte sep parts) = parts.
Proof.
  intros Hne H. induction H as [|p parts Hp H IH]; [done|].
  destruct parts as [|q parts]; cbn [JoinByte].
  - by apply SplitByte_single.
  - rewrite SplitByte_app by done. f_equal. by apply IH.
Qed.

Lemma JoinByte_SplitByte (sep : ascii) (s : gostring) : JoinByte sep (SplitByte sep s) = s.
Proof.
  induction s as [|c s IH]; [done|]. cbn [SplitByte]. pose proof (SplitByte_nonempty sep s) as Hne.
  destruct (Ascii.eqb_spec c sep) as [->|Hc].
  - destruct (SplitByte sep s) as [|p ps]; [done|]. cbn [JoinByte app] in *. by rewrite IH.
  - destruct (SplitByte sep s) as [|p ps]; [done|]. rewrite <- IH. by destruct ps.
Qed.

Lemma SplitByte_no_sep (sep : ascii) (s : gostring) : Forall (fun p => sep ∉ p) (SplitByte sep s).
Proof.
  induction s as [|c s IH]; cbn; [repeat constructor; apply not_elem_of_nil|].
  destruct (Ascii.eqb_spec c sep) as [->|Hc]; [constructor; [apply not_elem_of_nil|done]|].
  destruct (SplitByte sep s) as [|p ps] eqn:E; [by pose proof (SplitByte_nonempty sep s)|].
  apply Forall_cons in IH as [Hp Hps]. constructor; [|done].
  apply not_elem_of_cons. done.
Qed.

Lemma LastIndexByte_app (a b : gostring) (c : ascii) :
  c ∉ b -> LastIndexByte (a ++ c :: b) c = Some (length a).
Proof.
  intros Hb. assert (LastIndexByte b c = None) as Hn.
  { induction b as [|d b IH]; cbn; [done|]. apply not_elem_of_cons in Hb as [Hd Hb].
    rewrite IH by done. by rewrite (proj2 (Ascii.eqb_neq d c)) by done. }
  induction a as [|d a IH]; cbn; [by rewrite Hn, Ascii.eqb_refl|]. by rewrite IH.
Qed.

(** ** The order of strings is total *)

Lemma Compare_antisym (a b : gostring) : Compare b a = CompOpp (Compare a b).
Proof.
  revert b; induction a as [|x a IH]; intros [|y b]; cbn; try done.
  rewrite (Z.compare_antisym (code x) (code y)). destruct (code x ?= code y); cbn; auto.
Qed.

Lemma Compare_eq (a b : gostring) : Compare a b = Eq <-> a = b.
Proof.
  split; [|intros ->].
  - revert b; induction a as [|x a IH]; intros [|y b]; cbn; try done.
    destruct (Z.compare_spec (code x) (code y)) as [Hc| |]; try done.
    intros H. by rewrite (code_inj _ _ Hc), (IH b H).
  - induction b as [|y b IH]; cbn; [done|]. by rewrite Z.compare_refl.
Qed.

#[export] Instance string_le_total : Total string_le.
Proof.
  intros a b. unfold string_le. rewrite (Compare_antisym a b).
  destruct (Compare a b); cbn; naive_solver.
Qed.

#[export] Instance string_le_trans : Transitive string_le.
Proof.
  unfold string_le. intros a. induction a as [|x a IH]; intros [|y b] [|z c]; cbn; try done.
  destruct (Z.compare_spec (code x) (code y)), (Z.compare_spec (code y) (code z)),
    (Z.compare_spec (code x) (code z)); try done; try lia.
  apply IH.
Qed.

Lemma string_le_antisym (a b : gostring) : string_le a b -> string_le b a -> a = b.
Proof.
  unfold string_le. rewrite (Compare_antisym a b), <- Compare_eq. destruct (Compare a b); done.
Qed.

(** ** Valid strings as sequences of runes *)

Definition valid_runes (rs : list Z) : Prop := Forall (fun r => valid_rune r = true) rs.

(** [string(runes)]. *)
Definition EncodeRunes (rs : list Z) : gostring := concat (map EncodeRune rs).

Lemma EncodeRunes_cons (r : Z) (rs : list Z) : EncodeRunes (r :: rs) = EncodeRune r ++ EncodeRunes rs.
Proof. done. Qed.

Lemma EncodeRunes_app (rs ts : list Z) : EncodeRunes (rs ++ ts) = EncodeRunes rs ++ EncodeRunes ts.
Proof. unfold EncodeRunes. by rewrite map_app, concat_app. Qed.

Lemma ValidString_runes (s : gostring) :
  ValidString s = true <-> exists rs, valid_runes rs /\ s = EncodeRunes rs.
Proof.
  split.
  - revert s. apply valid_string_ind; [by exists []; split; [constructor|]|].
    intros r t Hr _ (rs & Hrs & ->). exists (r :: rs). by split; [constructor|].
  - intros (rs & Hrs & ->). induction Hrs as [|r rs Hr _ IH]; [done|].
    rewrite EncodeRunes_cons. by rewrite ValidString_EncodeRune.
Qed.

Lemma ValidString_app (s t : gostring) :
  ValidString s = true -> ValidString (s ++ t) = ValidString t.
Proof.
  intros (rs & Hrs & ->)%ValidString_runes.
  induction Hrs as [|r rs Hr _ IH]; [done|].
  by rewrite EncodeRunes_cons, <- (app_assoc (EncodeRune r)), ValidString_EncodeRune.
Qed.

Lemma DecodeRunes_cons (r : Z) (rs : list Z) :
  valid_rune r = true ->
  DecodeRune (EncodeRunes (r :: rs)) = (r, length (EncodeRune r))
  /\ drop (length (EncodeRune r)) (EncodeRunes (r :: rs)) = EncodeRunes rs.
Proof.
  intros Hr. rewrite EncodeRunes_cons. by rewrite DecodeRune_EncodeRune, drop_app_length.
Qed.

Lemma range_loop_runes (rs : list Z) (fuel i : nat) :
  valid_runes rs -> (length (EncodeRunes rs) <= fuel)%nat ->
  map snd (range_loop fuel (EncodeRunes rs) i) = rs.
Proof.
  intros Hrs. revert fuel i. induction Hrs as [|r rs Hr _ IH]; intros fuel i Hf.
  - by destruct fuel.
  - destruct (DecodeRunes_cons r rs Hr) as [Hd Hdrop].
    rewrite (range_loop_step _ _ _ _ _ Hf) with (2 := Hd).
    + cbn [map snd]. rewrite Hdrop. f_equal. by apply IH.
    + rewrite EncodeRunes_cons. pose proof (EncodeRune_nonempty r). by destruct (EncodeRune r).
Qed.

Lemma range_string_runes (rs : list Z) :
  valid_runes rs -> map snd (range_string (EncodeRunes rs)) = rs.
Proof. intros. by apply range_loop_runes. Qed.

Lemma DecodeRune_ascii (c : ascii) (s : gostring) :
  code c < 128 -> DecodeRune (c :: s) = (code c, 1%nat).
Proof. intros H. unfold DecodeRune. by rewrite (proj2 (Z.ltb_lt _ _) H). Qed.

Lemma ValidString_ascii (c : ascii) (s : gostring) :
  code c < 128 -> ValidString (c :: s) = ValidString s.
Proof.
  intros H. rewrite (ValidString_step (c :: s) _ _ ltac:(done) (DecodeRune_ascii c s H)).
  destruct (Z.eqb_spec (code c) RuneError) as [E|]; [unfold RuneError in E; lia|done].
Qed.

Lemma EncodeRune_ascii (r : Z) : 0 <= r < 128 -> EncodeRune r = [byte_of r].
Proof.
  intros H. unfold EncodeRune.
  assert (valid_rune r = true) as -> by (apply valid_rune_iff; lia). by decide_ltb.
Qed.

(** The first byte of a rune is below 128 only for an ASCII rune, and is then it. *)
Lemma EncodeRune_head (r : Z) (c : ascii) (t : gostring) :
  valid_rune r = true -> EncodeRune r = c :: t -> code c < 128 -> r = code c /\ t = [].
Proof.
  intros Hv E Hc. pose proof (DecodeRune_EncodeRune r [] Hv) as Hd.
  rewrite app_nil_r, E, DecodeRune_ascii in Hd by done.
  injection Hd as Hr Hl. split; [done|]. by destruct t.
Qed.

(** ** White space *)

(** A text of white-space runes. *)
Definition white (s : gostring) : Prop :=
  exists rs, Forall (fun r => IsSpace r = true) rs /\ s = EncodeRunes rs.

Lemma IsSpace_valid (r : Z) : IsSpace r = true -> valid_rune r = true /\ r <> RuneError.
Proof.
  unfold IsSpace, valid_rune, is_surrogate, RuneError. rewrite !orb_true_iff, !andb_true_iff.
  rewrite !negb_true_iff, andb_false_iff, !Z.leb_le, !Z.leb_gt, !Z.eqb_eq. lia.
Qed.

Lemma DecodeRune_space (s : gostring) (r : Z) (w : nat) :
  DecodeRune s = (r, w) -> s <> [] -> IsSpace r = true -> s = EncodeRune r ++ drop w s.
Proof.
  intros E Hs Hr. destruct (IsSpace_valid r Hr) as [Hv Hne].
  destruct (EncodeRune_DecodeRune s r w E Hs ltac:(naive_solver)) as [_ <-].
  by rewrite take_drop.
Qed.

Lemma white_nil : white [].
Proof. by exists []. Qed.

Lemma white_cons (r : Z) (t : gostring) : IsSpace r = true -> white t -> white (EncodeRune r ++ t).
Proof.
  intros Hr (rs & Hrs & ->). exists (r :: rs). rewrite EncodeRunes_cons. split; [by constructor|done].
Qed.

Lemma trim_left_split (fuel : nat) (s : gostring) :
  (length s <= fuel)%nat -> exists l, white l /\ s = l ++ trim_left fuel s.
Proof.
  revert s. induction fuel as [|fuel IH]; intros [|c s] Hf; cbn [length trim_left] in Hf |- *;
    try (exists []; split; [apply white_nil|done]).
  destruct (DecodeRune (c :: s)) as [r w] eqn:E.
  destruct (IsSpace r) eqn:Er; [|exists []; split; [apply white_nil|done]].
  pose proof (DecodeRune_width (c :: s) ltac:(done)) as Hw. rewrite E in Hw. cbn [snd length] in Hw.
  destruct (IH (drop w (c :: s))) as (l & Hl & El). { rewrite length_drop. cbn. lia. }
  exists (EncodeRune r ++ l). split; [by apply white_cons|].
  rewrite <- app_assoc, <- El. by apply DecodeRune_space.
Qed.

Lemma trim_left_white (rs : list Z) (c : ascii) (t : gostring) (fuel : nat) :
  Forall (fun r => IsSpace r = true) rs -> code c < 128 -> IsSpace (code c) = false ->
  (length (EncodeRunes rs ++ c :: t) <= fuel)%nat ->
  trim_left fuel (EncodeRunes rs ++ c :: t) = c :: t.
Proof.
  intros Hrs Hc Hn. revert fuel. induction Hrs as [|r rs Hr _ IH]; intros fuel Hf.
  - destruct fuel as [|fuel]; [cbn in Hf; lia|]. cbn [EncodeRunes concat map app trim_left].
    by rewrite DecodeRune_ascii, Hn.
  - revert Hf. rewrite EncodeRunes_cons, <- app_assoc. intros Hf.
    destruct (IsSpace_valid r Hr) as [Hv _]. pose proof (DecodeRune_EncodeRune r (EncodeRunes rs ++ c :: t) Hv) as Hd.
    pose proof (EncodeRune_nonempty r) as He. destruct fuel as [|fuel].
    { destruct (EncodeRune r); [done|cbn in Hf; lia]. }
    cbn [trim_left]. destruct (EncodeRune r) as [|b bs] eqn:Eb; [done|].
    cbn [app] in *. rewrite Hd, Hr. cbn [length drop]. rewrite drop_app_length. apply IH.
    cbn in Hf. rewrite length_app in Hf. lia.
Qed.

(** The part behind [last_visible] is white space. *)
Lemma last_visible_split (fuel : nat) (s : gostring) (i found : nat) :
  (length s <= fuel)%nat -> (found <= i)%nat ->
  let e := last_visible fuel s i found in
  (e = found /\ white s) \/ ((i < e <= i + length s)%nat /\ white (drop (e - i) s)).
Proof.
  revert s i found. induction fuel as [|fuel IH]; intros [|c s] i found Hf Hi; cbn [length last_visible] in Hf |- *;
    try (left; split; [done|apply white_nil]); [lia|].
  destruct (DecodeRune (c :: s)) as [r w] eqn:E.
  pose proof (DecodeRune_width (c :: s) ltac:(done)) as Hw. rewrite E in Hw. cbn [snd length] in Hw.
  assert (length (drop w (c :: s)) <= fuel)%nat as Hl by (rewrite length_drop; cbn; lia).
  assert (length (drop w (c :: s)) + w = S (length s))%nat as Hl' by (rewrite length_drop; cbn; lia).
  destruct (IH (drop w (c :: s)) (i + w)%nat (if IsSpace r then found else (i + w)%nat)) as [[-> Hwh]|[Hr Hwh]];
    [lia|destruct (IsSpace r); lia| |].
  - destruct (IsSpace r) eqn:Er.
    + left. split; [done|]. rewrite (DecodeRune_space _ _ _ E ltac:(done) Er). by apply white_cons.
    + right. split; [lia|]. by replace (i + w - i)%nat with w by lia.
  - right. split; [lia|]. rewrite drop_drop in Hwh.
    by replace (w + (last_visible fuel (drop w (c :: s)) (i + w) (if IsSpace r then found else (i + w)%nat) - (i + w)))%nat
      with (last_visible fuel (drop w (c :: s)) (i + w) (if IsSpace r then found else (i + w)%nat) - i)%nat in Hwh by lia.
Qed.

Lemma last_visible_white (rs : list Z) (fuel i found : nat) :
  Forall (fun r => IsSpace r = true) rs -> last_visible fuel (EncodeRunes rs) i found = found.
Proof.
  intros Hrs. revert fuel i. induction Hrs as [|r rs Hr _ IH]; intros [|fuel] i; try done.
  destruct (IsSpace_valid r Hr) as [Hv _]. rewrite EncodeRunes_cons.
  pose proof (DecodeRune_EncodeRune r (EncodeRunes rs) Hv) as Hd.
  pose proof (EncodeRune_nonempty r) as He. cbn [last_visible].
  destruct (EncodeRune r) as [|b bs] eqn:Eb; [done|]. cbn [app] in *. rewrite Hd, Hr.
  cbn [length drop]. rewrite drop_app_length. apply IH.
Qed.

Lemma last_visible_ascii (d t : gostring) (fuel i found : nat) :
  forallb (fun c => (code c <? 128) && negb (IsSpace (code c))) d = true -> (length (d ++ t) <= fuel)%nat ->
  last_visible fuel (d ++ t) i found
  = last_visible (fuel - length d) t (i + length d) (if beq d [] then found else (i + length d)%nat).
Proof.
  revert fuel i found. induction d as [|c d IH]; intros fuel i found Hd Hf.
  { cbn [length app]. by rewrite Nat.sub_0_r, Nat.add_0_r. }
  cbn [forallb] in Hd. apply andb_true_iff in Hd as [[Hc Hn]%andb_true_iff Hd].
  apply Z.ltb_lt in Hc. apply negb_true_iff in Hn. cbn in Hf. destruct fuel as [|fuel]; [lia|].
  cbn [app last_visible]. rewrite DecodeRune_ascii, Hn by done. cbn [drop length].
  rewrite drop_0, IH by (done || lia). replace (i + 1 + length d)%nat with (i + S (length d))%nat by lia.
  change (S fuel - S (length d))%nat with (fuel - length d)%nat. f_equal.
  rewrite (proj2 (beq_false (c :: d) [])) by done. destruct (beq d []) eqn:Ed; [|done].
  apply beq_true in Ed. subst d. cbn. lia.
Qed.

(** What TrimSpace cuts is white space. *)
Lemma TrimSpace_split (s : gostring) :
  exists l r, white l /\ white r /\ s = l ++ TrimSpace s ++ r.
Proof.
  destruct (trim_left_split (length s) s ltac:(done)) as (l & Hl & El). unfold TrimSpace.
  set (t := trim_left (length s) s) in *.
  destruct (last_visible_split (length t) t 0 0 ltac:(done) ltac:(done)) as [[-> Hw]|[_ Hw]].
  - exists l, t. by rewrite take_0.
  - rewrite Nat.sub_0_r in Hw. eexists l, _. split; [done|]. split; [exact Hw|].
    by rewrite take_drop.
Qed.

(** TrimSpace finds a visible ASCII text between white space. *)
Lemma TrimSpace_ascii (l d r : gostring) :
  white l -> white r -> forallb (fun c => (code c <? 128) && negb (IsSpace (code c))) d = true -> d <> [] ->
  TrimSpace (l ++ d ++ r) = d.
Proof.
  intros (ls & Hls & ->) (rs & Hrs & ->) Hd Hne. unfold TrimSpace.
  assert (trim_left (length (EncodeRunes ls ++ d ++ EncodeRunes rs)) (EncodeRunes ls ++ d ++ EncodeRunes rs)
          = d ++ EncodeRunes rs) as ->.
  { destruct d as [|c d]; [done|]. cbn [forallb] in Hd.
    apply andb_true_iff in Hd as [[Hc Hn]%andb_true_iff _]. apply Z.ltb_lt in Hc. apply negb_true_iff in Hn.
    cbn [app]. by apply trim_left_white. }
  rewrite last_visible_ascii, (proj2 (beq_false d [])), last_visible_white by done.
  by rewrite Nat.add_0_l, take_app_length.
Qed.
