(* ===== verification/SqlToken.v ===== *)
(** * internal/sqltoken: SQL-context-aware token handling

    SQL text is scanned into consecutive segments (code, string literals,
    quoted identifiers, comments, dollar-quoted strings) and the !TOKEN!
    placeholders are found and rewritten in the code segments only. *)

From S2P Require Import Prelude.

(** ** Data *)

Inductive Dialect := Legacy | PostgreSQL | MySQL | SQLite | HANA.

Inductive Kind := Code | StringLiteral | QuotedIdentifier | Comment | DollarQuoted.

#[export] Instance Dialect_eq_dec : EqDecision Dialect.
Proof. solve_decision. Defined.

#[export] Instance Kind_eq_dec : EqDecision Kind.
Proof. solve_decision. Defined.

Definition Protected (k : Kind) : bool :=
  match k with Code => false | _ => true end.

Record Segment := mkSegment { seg_kind : Kind; seg_start : nat; seg_end : nat }.

Record Token := mkToken { tok_start : nat; tok_end : nat; tok_text : gostring }.

(** ** The two regular expressions of the package *)

Definition token_char (c : ascii) : bool :=
  is_letter c || is_digit c || Ascii.eqb c "_" || Ascii.eqb c "-".

(** The length of the longest prefix of [s] whose characters satisfy [p]. *)
Fixpoint span (p : ascii -> bool) (s : gostring) : nat :=
  match s with
  | c :: s' => if p c then S (span p s') else 0%nat
  | [] => 0%nat
  end.

(** [![a-zA-Z0-9_-]+!] anchored at the start of [s]: the length of the match.
    The class does not contain the exclamation mark, so the greedy run either
    ends at the closing mark or there is no match. *)
Definition match_token (s : gostring) : option nat :=
  match s with
  | c :: s' =>
      if Ascii.eqb c "!" then
        let n := span token_char s' in
        match n, drop n s' with
        | S _, c' :: _ => if Ascii.eqb c' "!" then Some (n + 2)%nat else None
        | _, _ => None
        end
      else None
  | [] => None
  end.

(** [TokenRegexp.FindAllStringIndex(s, -1)], with [i] the offset of [s] and
    [skip] the bytes of the current match that are still to be passed over:
    matches are leftmost and do not overlap. *)
Fixpoint findall_loop (s : gostring) (i skip : nat) : list (nat * nat) :=
  match s with
  | [] => []
  | _ :: s' =>
      match skip with
      | S k => findall_loop s' (S i) k
      | O =>
          match match_token s with
          | Some n => (i, i + n)%nat :: findall_loop s' (S i) (n - 1)
          | None => findall_loop s' (S i) 0
          end
      end
  end.

Definition FindAllStringIndex (s : gostring) : list (nat * nat) := findall_loop s 0 0.

(** [TokenRegexp.MatchString(s)]. *)
Fixpoint MatchString (s : gostring) : bool :=
  match s with
  | [] => false
  | _ :: s' => bool_decide (is_Some (match_token s)) || MatchString s'
  end.

Definition tag_start (c : ascii) : bool := is_letter c || Ascii.eqb c "_".
Definition tag_char (c : ascii) : bool := is_letter c || is_digit c || Ascii.eqb c "_".

(** The dollarTagRegexp at the start of [s]: a dollar sign, an optional tag (a
    letter or an underscore, then letters, digits and underscores), a dollar
    sign; the matched text. *)
Definition match_dollar_tag (s : gostring) : option gostring :=
  match s with
  | c :: s' =>
      if Ascii.eqb c "$" then
        let n := match s' with
                 | c1 :: s1 => if tag_start c1 then S (span tag_char s1) else 0%nat
                 | [] => 0%nat
                 end in
        match drop n s' with
        | c2 :: _ => if Ascii.eqb c2 "$" then Some (take (n + 2) s) else None
        | [] => None
        end
      else None
  | [] => None
  end.

(** ** Scanning *)

Definition identifierByte (c : ascii) : bool :=
  (128 <=? code c) || is_lower c || is_upper c || is_digit c
    || Ascii.eqb c "_" || Ascii.eqb c "$".

(** The bytes before [sql[quote]] are read through [at]. *)
Definition at_is (sql : gostring) (i : nat) (p : ascii -> bool) : bool :=
  match sql !! i with Some c => p c | None => false end.

Definition postgresEscapePrefix (sql : gostring) (quote : nat) : bool :=
  (0 <? quote)%nat
    && at_is sql (quote - 1) (fun c => Ascii.eqb c "E" || Ascii.eqb c "e")
    && ((quote =? 1)%nat || negb (at_is sql (quote - 2) identifierByte)).

(** The loop of scanQuoted at index [i], [s] being the rest [sql[i:]]. *)
Fixpoint scanQuoted_loop (quote : ascii) (backslash : bool) (s : gostring) (i : nat) : nat :=
  match s with
  | [] => i
  | c :: s1 =>
      if Ascii.eqb c "\" then
        match backslash, s1 with
        | true, _ :: s2 => scanQuoted_loop quote backslash s2 (i + 2)
        | _, _ => scanQuoted_loop quote backslash s1 (i + 1)
        end
      else if Ascii.eqb c quote then
        match s1 with
        | c1 :: s2 =>
            if Ascii.eqb c1 quote then scanQuoted_loop quote backslash s2 (i + 2)
            else (i + 1)%nat
        | [] => (i + 1)%nat
        end
      else scanQuoted_loop quote backslash s1 (i + 1)
  end.

Definition scanQuoted (sql : gostring) (start : nat) (quote : ascii) (backslash : bool) : nat :=
  scanQuoted_loop quote backslash (drop (start + 1) sql) (start + 1).

Definition double_quote : ascii := "034".
Definition newline : ascii := "010".
Definition carriage_return : ascii := "013".

Fixpoint scanLineComment_loop (s : gostring) (i : nat) : nat :=
  match s with
  | [] => i
  | c :: s' =>
      if Ascii.eqb c newline || Ascii.eqb c carriage_return then i
      else scanLineComment_loop s' (i + 1)
  end.

Definition scanLineComment (sql : gostring) (start : nat) : nat :=
  scanLineComment_loop (drop start sql) start.

Fixpoint scanBlockComment_loop (nested : bool) (s : gostring) (i depth : nat) : nat :=
  match s with
  | [] => i
  | c :: s1 =>
      match s1 with
      | c1 :: s2 =>
          if nested && Ascii.eqb c "/" && Ascii.eqb c1 "*" then
            scanBlockComment_loop nested s2 (i + 2) (depth + 1)
          else if Ascii.eqb c "*" && Ascii.eqb c1 "/" then
            if (depth - 1 =? 0)%nat then (i + 2)%nat
            else scanBlockComment_loop nested s2 (i + 2) (depth - 1)
          else scanBlockComment_loop nested s1 (i + 1) depth
      | [] => scanBlockComment_loop nested s1 (i + 1) depth
      end
  end.

Definition scanBlockComment (sql : gostring) (start : nat) (nested : bool) : nat :=
  scanBlockComment_loop nested (drop (start + 2) sql) (start + 2) 1.

Fixpoint is_prefix (p s : gostring) : bool :=
  match p, s with
  | [], _ => true
  | c :: p', d :: s' => Ascii.eqb c d && is_prefix p' s'
  | _ :: _, [] => false
  end.

(** [strings.Index]. *)
Fixpoint Index (s sub : gostring) : option nat :=
  if is_prefix sub s then Some 0%nat
  else match s with
       | [] => None
       | _ :: s' => S <$> Index s' sub
       end.

Definition scanDollarQuote (sql : gostring) (start : nat) : option nat :=
  match match_dollar_tag (drop start sql) with
  | None => None
  | Some open =>
      match Index (drop (start + length open) sql) open with
      | Some idx => Some (start + length open + idx + length open)%nat
      | None => Some (length sql)
      end
  end.

(** [strings.IndexByte]. *)
Fixpoint IndexByte (s : gostring) (b : ascii) : option nat :=
  match s with
  | [] => None
  | c :: s' => if Ascii.eqb c b then Some 0%nat else S <$> IndexByte s' b
  end.

Definition scanBracket (sql : gostring) (start : nat) (doubled : bool) : nat :=
  if doubled then scanQuoted sql start "]" false
  else match IndexByte (drop (start + 1) sql) "]" with
       | Some e => (start + 2 + e)%nat
       | None => length sql
       end.

Definition is_dialect (d e : Dialect) : bool := bool_decide (d = e).

(** What one iteration of Scan does at [sql[i] = c]: the protected region that
    starts there, or nothing (the byte is code). *)
Definition Scan_step (d : Dialect) (sql : gostring) (i : nat) (c : ascii) : option (Kind * nat) :=
  let n := length sql in
  if Ascii.eqb c "'" then
    Some (StringLiteral,
          scanQuoted sql i "'"
            (is_dialect d Legacy || is_dialect d MySQL
             || (is_dialect d PostgreSQL && postgresEscapePrefix sql i)))
  else if Ascii.eqb c double_quote then
    Some (QuotedIdentifier, scanQuoted sql i double_quote (is_dialect d Legacy || is_dialect d MySQL))
  else if Ascii.eqb c "`" && (is_dialect d Legacy || is_dialect d MySQL || is_dialect d SQLite) then
    Some (QuotedIdentifier, scanQuoted sql i "`" (is_dialect d Legacy))
  else if Ascii.eqb c "[" && (is_dialect d Legacy || is_dialect d SQLite) then
    Some (QuotedIdentifier, scanBracket sql i (is_dialect d Legacy))
  else if Ascii.eqb c "-" && at_is sql (i + 1) (fun c1 => Ascii.eqb c1 "-")
          && (negb (is_dialect d MySQL) || (i + 2 =? n)%nat
              || at_is sql (i + 2) (fun c2 => code c2 <=? 32)) then
    Some (Comment, scanLineComment sql i)
  else if Ascii.eqb c "#" && (is_dialect d Legacy || is_dialect d MySQL) then
    Some (Comment, scanLineComment sql i)
  else if Ascii.eqb c "/" && at_is sql (i + 1) (fun c1 => Ascii.eqb c1 "*") then
    Some (Comment, scanBlockComment sql i (is_dialect d Legacy || is_dialect d PostgreSQL))
  else if Ascii.eqb c "$"
          && (is_dialect d Legacy
              || (is_dialect d PostgreSQL
                  && ((i =? 0)%nat || negb (at_is sql (i - 1) identifierByte)))) then
    (fun e => (DollarQuoted, e)) <$> scanDollarQuote sql i
  else None.

Definition addCode (codeStart e : nat) : list Segment :=
  if (codeStart <? e)%nat then [mkSegment Code codeStart e] else [].

(** The loop of Scan at index [i], [codeStart] being where the current run of
    code began.  Every iteration moves forward, so [length sql] iterations are
    enough; [Scan_loop_covers] shows that the bound is never what ends it. *)
Fixpoint Scan_loop (fuel : nat) (d : Dialect) (sql : gostring) (i codeStart : nat) : list Segment :=
  match fuel, sql !! i with
  | S fuel', Some c =>
      match Scan_step d sql i c with
      | Some (k, e) =>
          addCode codeStart i ++ mkSegment k i e :: Scan_loop fuel' d sql e e
      | None => Scan_loop fuel' d sql (i + 1) codeStart
      end
  | _, _ => addCode codeStart (length sql)
  end.

Definition Scan (d : Dialect) (sql : gostring) : list Segment :=
  Scan_loop (length sql) d sql 0 0.

(** ** Tokens *)

Definition loc_token (sql : gostring) (start : nat) (loc : nat * nat) : Token :=
  let s := (start + fst loc)%nat in
  let e := (start + snd loc)%nat in
  mkToken s e (slice sql s e).

(** The body of the loop of CodeTokens over the segments. *)
Definition seg_tokens (sql : gostring) (seg : Segment) : list Token :=
  match seg_kind seg with
  | Code =>
      map (loc_token sql (seg_start seg))
        (FindAllStringIndex (slice sql (seg_start seg) (seg_end seg)))
  | _ => []
  end.

Definition CodeTokens (d : Dialect) (sql : gostring) : list Token :=
  flat_map (seg_tokens sql) (Scan d sql).

Fixpoint MapTokens_loop (sql : gostring) (fn : gostring -> gostring)
    (toks : list Token) (last : nat) : gostring :=
  match toks with
  | [] => drop last sql
  | tok :: toks' =>
      slice sql last (tok_start tok) ++ fn (tok_text tok)
        ++ MapTokens_loop sql fn toks' (tok_end tok)
  end.

Definition MapTokens (d : Dialect) (sql : gostring) (fn : gostring -> gostring) : gostring :=
  MapTokens_loop sql fn (CodeTokens d sql) 0.

Definition ReplaceToken (d : Dialect) (sql token value : gostring) : gostring :=
  MapTokens d sql (fun t => if beq t token then value else t).

Definition StripTokens (d : Dialect) (sql : gostring) : gostring :=
  MapTokens d sql (fun _ => []).

Definition ContainsToken (d : Dialect) (sql : gostring) (tokens : list gostring) : bool :=
  existsb (fun tok => existsb (fun want => beq (tok_text tok) want) tokens) (CodeTokens d sql).

(** The loop of SpanHasProtectedToken over the segments; [None] is the run-time
    panic of the slice expression [sql[s:e]] when the clamped range is reversed. *)
Fixpoint span_protected_loop (sql : gostring) (start e : Z) (segs : list Segment) : option bool :=
  match segs with
  | [] => Some false
  | seg :: segs' =>
      if negb (Protected (seg_kind seg)) || (Z.of_nat (seg_end seg) <=? start)
         || (e <=? Z.of_nat (seg_start seg)) then span_protected_loop sql start e segs'
      else
        let s := if Z.of_nat (seg_start seg) <? start then start else Z.of_nat (seg_start seg) in
        let e' := if e <? Z.of_nat (seg_end seg) then e else Z.of_nat (seg_end seg) in
        if e' <? s then None
        else if MatchString (slice sql (Z.to_nat s) (Z.to_nat e')) then Some true
        else span_protected_loop sql start e segs'
  end.

Definition SpanHasProtectedToken (d : Dialect) (sql : gostring) (start e : Z) : option bool :=
  let start := if start <? 0 then 0 else start in
  let e := if blen sql <? e then blen sql else e in
  span_protected_loop sql start e (Scan d sql).

(** The package-level functions use the legacy scanner. *)
Definition Scan_legacy := Scan Legacy.
Definition CodeTokens_legacy := CodeTokens Legacy.
Definition MapTokens_legacy := MapTokens Legacy.
Definition ReplaceToken_legacy := ReplaceToken Legacy.
Definition StripTokens_legacy := StripTokens Legacy.
Definition ContainsToken_legacy := ContainsToken Legacy.

(** ** Sanity runs *)

Example scan_code_and_literal :
  Scan MySQL (B "a '!X!' !Y!")
  = [mkSegment Code 0 2; mkSegment StringLiteral 2 7; mkSegment Code 7 11].
Proof. vm_compute. reflexivity. Qed.

Example replace_skips_literal :
  ReplaceToken PostgreSQL (B "a '!X!' !X! -- !X!") (B "!X!") (B "1") = B "a '!X!' 1 -- !X!".
Proof. vm_compute. reflexivity. Qed.

Example dollar_quote_protects :
  CodeTokens PostgreSQL (B "$t$ !X! $t$ !Y!") = [mkToken 12 15 (B "!Y!")].
Proof. vm_compute. reflexivity. Qed.

(** ** Scanning covers the input

    Every scanner moves forward and stays within the input. *)

Lemma span_le (p : ascii -> bool) (s : gostring) : (span p s <= length s)%nat.
Proof. induction s as [|c s IH]; cbn; [lia|]. destruct (p c); cbn; lia. Qed.

Lemma scanQuoted_loop_bounds (q : ascii) (b : bool) (n : nat) (s : gostring) (i : nat) :
  (length s <= n)%nat ->
  (i <= scanQuoted_loop q b s i <= i + length s)%nat.
Proof.
  revert s i. induction n as [|n IH]; intros [|c [|c1 s]] i Hn; cbn in *; try lia.
  - repeat case_test; try lia.
  - specialize (IH (c1 :: s)) as IH1. specialize (IH s (i + 2)%nat) as IH2. cbn in *.
    specialize (IH1 (i + 1)%nat). repeat case_test; lia.
Qed.

Lemma scanQuoted_bounds (sql : gostring) (i : nat) (q : ascii) (b : bool) :
  (i < length sql)%nat -> (i < scanQuoted sql i q b <= length sql)%nat.
Proof.
  intros Hi. unfold scanQuoted.
  pose proof (scanQuoted_loop_bounds q b _ (drop (i + 1) sql) (i + 1) (le_n _)) as H.
  rewrite length_drop in H. lia.
Qed.

Lemma scanLineComment_loop_bounds (s : gostring) (i : nat) :
  (i <= scanLineComment_loop s i <= i + length s)%nat.
Proof.
  revert i. induction s as [|c s IH]; intros i; cbn; [lia|].
  specialize (IH (i + 1)%nat). case_test; lia.
Qed.

Lemma scanLineComment_bounds (sql : gostring) (i : nat) (c : ascii) :
  sql !! i = Some c -> c <> newline -> c <> carriage_return ->
  (i < scanLineComment sql i <= length sql)%nat.
Proof.
  intros Hi Hn Hr. pose proof (lookup_lt_Some _ _ _ Hi) as Hlt.
  unfold scanLineComment. rewrite (drop_S _ _ _ Hi). cbn.
  apply Ascii.eqb_neq in Hn, Hr. rewrite Hn, Hr. cbn.
  pose proof (scanLineComment_loop_bounds (drop (S i) sql) (i + 1)) as H.
  rewrite length_drop in H. lia.
Qed.

Lemma scanBlockComment_loop_bounds (nested : bool) (n : nat) (s : gostring) (i depth : nat) :
  (length s <= n)%nat ->
  (i <= scanBlockComment_loop nested s i depth <= i + length s)%nat.
Proof.
  revert s i depth. induction n as [|n IH]; intros [|c [|c1 s]] i depth Hn; cbn in *; try lia.
  assert (forall d, i + 2 <= scanBlockComment_loop nested s (i + 2) d <= i + 2 + length s)%nat
    as IH2 by (intros d; apply IH; cbn in *; lia).
  assert (i + 1 <= scanBlockComment_loop nested (c1 :: s) (i + 1) depth
          <= i + 1 + length (c1 :: s))%nat as IH1 by (apply IH; cbn in *; lia).
  cbn in IH1. pose proof (IH2 (depth + 1)%nat). pose proof (IH2 (depth - 1)%nat).
  repeat case_test; lia.
Qed.

Lemma Index_bounds (s sub : gostring) (k : nat) :
  Index s sub = Some k -> (k + length sub <= length s)%nat.
Proof.
  assert (forall p t, is_prefix p t = true -> (length p <= length t)%nat) as Hp.
  { induction p as [|c p IH]; intros [|d t]; cbn; try lia; try discriminate.
    intros H. apply andb_true_iff in H as [_ H]. apply IH in H. lia. }
  revert k. induction s as [|c s IH]; intros k; cbn;
    destruct (is_prefix sub _) eqn:E; intros H; simplify_eq.
  - apply Hp in E. cbn in *. lia.
  - apply Hp in E. cbn in *. lia.
  - destruct (Index s sub) as [j|] eqn:Ej; cbn in H; simplify_eq.
    specialize (IH _ eq_refl). lia.
Qed.

Lemma IndexByte_bounds (s : gostring) (b : ascii) (k : nat) :
  IndexByte s b = Some k -> (k < length s)%nat.
Proof.
  revert k. induction s as [|c s IH]; intros k; cbn; [done|].
  case_test; intros H; simplify_eq; [lia|].
  destruct (IndexByte s b) as [j|] eqn:Ej; cbn in H; simplify_eq.
  specialize (IH _ eq_refl). lia.
Qed.

Lemma match_dollar_tag_length (s open : gostring) :
  match_dollar_tag s = Some open -> (2 <= length open <= length s)%nat.
Proof.
  unfold match_dollar_tag. destruct s as [|c s']; [done|].
  case_test; [|done].
  set (n := match s' with [] => _ | _ => _ end).
  destruct (drop n s') as [|c2 r] eqn:Ed; [done|]. case_test; [|done].
  intros [= <-]. assert (n < length s')%nat as Hn.
  { apply (f_equal length) in Ed. rewrite length_drop in Ed. cbn in Ed. lia. }
  rewrite length_take. cbn [length]. lia.
Qed.

Lemma scanDollarQuote_bounds (sql : gostring) (i e : nat) :
  scanDollarQuote sql i = Some e -> (i < e <= length sql)%nat.
Proof.
  unfold scanDollarQuote. destruct (match_dollar_tag _) as [open|] eqn:Eo; [|done].
  apply match_dollar_tag_length in Eo. rewrite length_drop in Eo.
  destruct (Index _ open) as [k|] eqn:Ek; intros H; simplify_eq; [|lia].
  apply Index_bounds in Ek. rewrite length_drop in Ek. lia.
Qed.

Lemma scanBracket_bounds (sql : gostring) (i : nat) (b : bool) :
  (i < length sql)%nat -> (i < scanBracket sql i b <= length sql)%nat.
Proof.
  intros Hi. unfold scanBracket. destruct b; [by apply scanQuoted_bounds|].
  destruct (IndexByte _ _) as [k|] eqn:Ek; [|lia].
  apply IndexByte_bounds in Ek. rewrite length_drop in Ek. lia.
Qed.

Lemma at_is_lt (sql : gostring) (i : nat) (p : ascii -> bool) :
  at_is sql i p = true -> (i < length sql)%nat.
Proof.
  unfold at_is. destruct (sql !! i) eqn:E; [|done]. intros _. by eapply lookup_lt_Some.
Qed.

(** A protected region starts at the current byte, is not empty and ends within
    the input. *)
Lemma Scan_step_bounds (d : Dialect) (sql : gostring) (i : nat) (c : ascii) (k : Kind) (e : nat) :
  sql !! i = Some c -> Scan_step d sql i c = Some (k, e) ->
  k <> Code /\ (i < e <= length sql)%nat.
Proof.
  intros Hi. pose proof (lookup_lt_Some _ _ _ Hi) as Hlt. unfold Scan_step.
  repeat match goal with
         | |- context [if ?b then _ else _] =>
             lazymatch b with context [if _ then _ else _] => fail | _ => idtac end;
             destruct b eqn:?
         end; intros H; simplify_eq;
    try (split; [done|]; first [by apply scanQuoted_bounds | by apply scanBracket_bounds]).
  - split; [done|]. bool_props. destruct_and!. simplify_eq.
    eapply scanLineComment_bounds; [done|..]; intros ->; done.
  - split; [done|]. bool_props. destruct_and!.
    eapply scanLineComment_bounds; [done|..]; intros ->; done.
  - split; [done|]. bool_props. destruct_and!. apply at_is_lt in H0.
    unfold scanBlockComment.
    pose proof (scanBlockComment_loop_bounds (is_dialect d Legacy || is_dialect d PostgreSQL)
      _ (drop (i + 2) sql) (i + 2) 1 (le_n _)) as Hb.
    rewrite length_drop in Hb. lia.
  - destruct (scanDollarQuote sql i) as [e'|] eqn:Ed; cbn in H; simplify_eq.
    split; [done|]. by apply scanDollarQuote_bounds.
Qed.

(** [segs] are consecutive, non-empty and cover exactly the range [i, n). *)
Fixpoint covers (i n : nat) (segs : list Segment) : Prop :=
  match segs with
  | [] => i = n
  | seg :: segs' => seg_start seg = i /\ (i < seg_end seg)%nat /\ covers (seg_end seg) n segs'
  end.

Lemma covers_addCode (a b n : nat) (segs : list Segment) :
  (a <= b)%nat -> covers b n segs -> covers a n (addCode a b ++ segs).
Proof.
  intros Hab H. unfold addCode. destruct (Nat.ltb_spec a b); cbn; [done|].
  by replace a with b by lia.
Qed.

Lemma covers_le (i n : nat) (segs : list Segment) : covers i n segs -> (i <= n)%nat.
Proof.
  revert i. induction segs as [|seg segs IH]; intros i; cbn; [lia|].
  intros (_ & Hlt & H). apply IH in H. lia.
Qed.

Lemma Scan_loop_covers (fuel : nat) (d : Dialect) (sql : gostring) (i cs : nat) :
  (cs <= i <= length sql)%nat -> (length sql - i <= fuel)%nat ->
  covers cs (length sql) (Scan_loop fuel d sql i cs).
Proof.
  revert i cs. induction fuel as [|fuel IH]; intros i cs Hi Hf; cbn.
  - rewrite <- (app_nil_r (addCode _ _)). apply covers_addCode; [lia|done].
  - destruct (sql !! i) as [c|] eqn:Ec.
    + apply lookup_lt_Some in Ec as Hlt.
      destruct (Scan_step d sql i c) as [[k e]|] eqn:Es.
      * apply Scan_step_bounds in Es as [_ He]; [|done].
        apply covers_addCode; [lia|]. cbn. split_and!; [done|lia|]. apply IH; lia.
      * apply IH; lia.
    + apply lookup_ge_None in Ec.
      rewrite <- (app_nil_r (addCode _ _)). apply covers_addCode; [lia|done].
Qed.

Lemma Scan_covers (d : Dialect) (sql : gostring) : covers 0 (length sql) (Scan d sql).
Proof. apply Scan_loop_covers; lia. Qed.

Lemma covers_text (sql : gostring) (i : nat) (segs : list Segment) :
  covers i (length sql) segs ->
  flat_map (fun seg => slice sql (seg_start seg) (seg_end seg)) segs = drop i sql.
Proof.
  revert i. induction segs as [|seg segs IH]; intros i; cbn.
  - intros ->. by rewrite drop_all.
  - intros (<- & Hlt & H). apply covers_le in H as Hle. rewrite (IH _ H).
    unfold slice. rewrite <- (take_drop (seg_end seg - seg_start seg) (drop (seg_start seg) sql)) at 2.
    rewrite drop_drop. do 2 f_equal. lia.
Qed.

(** ** Rewriting segment by segment

    [subst_tokens] is an index-free reference for what the token regular
    expression rewrites in a piece of code. *)

Fixpoint subst_tokens (fn : gostring -> gostring) (s : gostring) (skip : nat) : gostring :=
  match s with
  | [] => []
  | c :: s' =>
      match skip with
      | S k => subst_tokens fn s' k
      | O =>
          match match_token s with
          | Some n => fn (take n s) ++ subst_tokens fn s' (n - 1)
          | None => c :: subst_tokens fn s' 0
          end
      end
  end.

Definition rewrite_segment (fn : gostring -> gostring) (sql : gostring) (seg : Segment) : gostring :=
  let text := slice sql (seg_start seg) (seg_end seg) in
  if Protected (seg_kind seg) then text else subst_tokens fn text 0.

Lemma match_token_bounds (s : gostring) (n : nat) :
  match_token s = Some n -> (3 <= n <= length s)%nat.
Proof.
  unfold match_token. destruct s as [|c s']; [done|]. case_test; [|done].
  destruct (span token_char s') as [|k] eqn:Ek; [done|].
  destruct (drop (S k) s') as [|c' r] eqn:Ed; [done|]. case_test; [|done].
  intros [= <-]. apply (f_equal length) in Ed. rewrite length_drop in Ed. cbn in *. lia.
Qed.

Lemma findall_loop_starts (s : gostring) (i skip a b : nat) :
  (a, b) ∈ findall_loop s i skip -> (i + skip <= a)%nat /\ (a < b <= i + length s)%nat.
Proof.
  revert i skip. induction s as [|c s IH]; intros i skip; cbn [findall_loop]; [set_solver|].
  destruct skip as [|k].
  - destruct (match_token (c :: s)) as [n|] eqn:En.
    + apply match_token_bounds in En. intros [H|H]%elem_of_cons; [simplify_eq; cbn in *; lia|].
      apply IH in H. cbn in *. lia.
    + intros H. apply IH in H. cbn in *. lia.
  - intros H. apply IH in H. cbn in *. lia.
Qed.

Definition starts_from (m : nat) (toks : list Token) : Prop :=
  match toks with [] => True | tok :: _ => (m <= tok_start tok)%nat end.

Lemma MapTokens_loop_advance (sql : gostring) (fn : gostring -> gostring)
    (toks : list Token) (last m : nat) :
  (last <= m)%nat -> starts_from m toks ->
  MapTokens_loop sql fn toks last = slice sql last m ++ MapTokens_loop sql fn toks m.
Proof.
  intros Hm Hs. destruct toks as [|tok toks]; cbn in *.
  - unfold slice. rewrite <- (take_drop (m - last) (drop last sql)) at 1.
    rewrite drop_drop. do 2 f_equal. lia.
  - by rewrite (app_assoc (slice sql last m)), slice_split by lia.
Qed.

Section segment_tokens.
Context (sql : gostring) (fn : gostring -> gostring) (base b : nat) (rest : list Token).
Context (Hb : (base <= b <= length sql)%nat) (Hrest : starts_from b rest).

Lemma findall_starts_from (s : gostring) (i skip : nat) :
  (base + i + length s = b)%nat -> (skip <= length s)%nat ->
  starts_from (base + i + skip) (map (loc_token sql base) (findall_loop s i skip) ++ rest).
Proof using Hb Hrest.
  intros Hs Hk. destruct (findall_loop s i skip) as [|[x y] l] eqn:E; cbn.
  - destruct rest; cbn in *; lia.
  - assert ((x, y) ∈ findall_loop s i skip) as H%findall_loop_starts
      by (rewrite E; constructor). lia.
Qed.

Lemma MapTokens_loop_segment (s : gostring) (i skip : nat) :
  s = slice sql (base + i) b -> (base + i + length s = b)%nat -> (skip <= length s)%nat ->
  MapTokens_loop sql fn (map (loc_token sql base) (findall_loop s i skip) ++ rest) (base + i + skip)
  = subst_tokens fn s skip ++ MapTokens_loop sql fn rest b.
Proof using Hb Hrest.
  revert i skip. induction s as [|c s IH]; intros i skip Hs Hl Hk.
  - cbn in *. by replace (base + i + skip)%nat with b by lia.
  - assert (s = slice sql (base + S i) b) as Hs'.
    { symmetry in Hs. apply slice_cons_inv in Hs as [_ ->]. f_equal. lia. }
    assert (base + S i + length s = b)%nat as Hl' by (cbn in Hl; lia).
    cbn [findall_loop subst_tokens]. destruct skip as [|k].
    + destruct (match_token (c :: s)) as [n|] eqn:En.
      * apply match_token_bounds in En. cbn [map app MapTokens_loop].
        replace (base + i + 0)%nat with (base + i)%nat by lia.
        unfold loc_token at 2 3 4. cbn [fst snd tok_start tok_end tok_text].
        rewrite slice_nil. cbn [app].
        assert (slice sql (base + i) (base + (i + n)) = take n (c :: s)) as ->.
        { rewrite Hs. unfold slice. rewrite take_take. f_equal.
          rewrite <- Hl. lia. }
        rewrite <- app_assoc. f_equal.
        rewrite <- (IH (S i) (n - 1)%nat Hs' Hl') by (cbn in En; lia).
        f_equal. lia.
      * rewrite (MapTokens_loop_advance _ _ _ _ (base + S i + 0)); [|lia|].
        -- rewrite (IH (S i) 0%nat Hs' Hl') by lia.
           assert (slice sql (base + i + 0) (base + S i + 0) = take 1 (c :: s)) as ->; [|done].
           rewrite Hs. unfold slice. rewrite take_take.
           f_equal; [cbn in Hl; lia|f_equal; lia].
        -- apply findall_starts_from; lia.
    + rewrite <- (IH (S i) k Hs' Hl') by (cbn in Hk; lia). f_equal. lia.
Qed.
End segment_tokens.

Lemma MapTokens_loop_covers (sql : gostring) (fn : gostring -> gostring)
    (segs : list Segment) (i : nat) :
  covers i (length sql) segs ->
  MapTokens_loop sql fn (flat_map (seg_tokens sql) segs) i
  = flat_map (rewrite_segment fn sql) segs
  /\ starts_from i (flat_map (seg_tokens sql) segs).
Proof.
  revert i. induction segs as [|seg segs IH]; intros i; cbn.
  - intros ->. split; [|done]. by rewrite drop_all.
  - intros (<- & Hlt & H). pose proof (covers_le _ _ _ H) as Hle.
    destruct (IH _ H) as [IH1 IH2].
    assert (starts_from (seg_start seg) (flat_map (seg_tokens sql) segs)) as IH3.
    { destruct (flat_map _ segs); cbn in *; lia. }
    unfold rewrite_segment at 1, seg_tokens at 1 3.
    destruct (seg_kind seg) eqn:Ek; cbn [Protected];
      try (split; [|done]; cbn; rewrite <- IH1; apply MapTokens_loop_advance; [lia|done]).
    assert (seg_start seg + 0 + length (slice sql (seg_start seg) (seg_end seg)) = seg_end seg)%nat
      as Hl by (rewrite length_slice; lia).
    split.
    + rewrite <- IH1. unfold FindAllStringIndex.
      rewrite <- (MapTokens_loop_segment sql fn (seg_start seg) (seg_end seg)
        (flat_map (seg_tokens sql) segs) ltac:(lia) IH2 _ 0 0); [|f_equal; lia|done|lia].
      f_equal. lia.
    + pose proof (findall_starts_from sql (seg_start seg) (seg_end seg)
        (flat_map (seg_tokens sql) segs) ltac:(lia) IH2
        (slice sql (seg_start seg) (seg_end seg)) 0 0 Hl ltac:(lia)) as Hf.
      unfold FindAllStringIndex. by replace (seg_start seg + 0 + 0)%nat with (seg_start seg) in Hf by lia.
Qed.

Lemma MapTokens_segments (d : Dialect) (sql : gostring) (fn : gostring -> gostring) :
  MapTokens d sql fn = flat_map (rewrite_segment fn sql) (Scan d sql).
Proof. apply MapTokens_loop_covers, Scan_covers. Qed.

(** The token grammar, declaratively: an exclamation mark, one or more token
    characters, an exclamation mark. *)
Definition is_token (t : gostring) : Prop :=
  exists body, t = "!"%char :: body ++ ["!"%char] /\ body <> [] /\ forallb token_char body = true.

Lemma span_app (p : ascii -> bool) (u v : gostring) :
  forallb p u = true -> span p (u ++ v) = (length u + span p v)%nat.
Proof.
  induction u as [|c u IH]; cbn; [done|]. intros [-> H]%andb_true_iff. by rewrite IH.
Qed.

Lemma span_forallb (p : ascii -> bool) (s : gostring) : forallb p (take (span p s) s) = true.
Proof.
  induction s as [|c s IH]; cbn; [done|]. destruct (p c) eqn:E; cbn; [|done]. by rewrite E.
Qed.

Lemma match_token_spec (s : gostring) (n : nat) :
  match_token s = Some n <-> is_token (take n s) /\ (n <= length s)%nat.
Proof.
  split.
  - intros H. split; [|apply match_token_bounds in H; lia].
    unfold match_token in H. destruct s as [|c s']; [done|].
    destruct (Ascii.eqb_spec c "!") as [->|]; [|done].
    destruct (span token_char s') as [|k] eqn:Ek; [done|].
    destruct (drop (S k) s') as [|c' r] eqn:Ed; [done|].
    destruct (Ascii.eqb_spec c' "!") as [->|]; [|done]. injection H as <-.
    exists (take (S k) s'). split_and!.
    + rewrite <- (take_drop (S k) s') at 1. rewrite Ed, app_comm_cons, take_app.
      assert (length (take (S k) s') = S k) as Hl.
      { apply (f_equal length) in Ed. rewrite length_drop in Ed. cbn in Ed.
        rewrite length_take. lia. }
      rewrite take_ge by (cbn; lia). cbn [length]. rewrite Hl.
      by replace (S (k + 2) - S (S k))%nat with 1%nat by lia.
    + destruct s'; [done|]. by cbn.
    + rewrite <- Ek. apply span_forallb.
  - intros [(body & Ht & Hne & Hb) Hn].
    assert (exists r, s = "!"%char :: body ++ "!"%char :: r /\ n = (length body + 2)%nat) as (r & -> & ->).
    { exists (drop n s). split.
      - rewrite <- (take_drop n s) at 1. rewrite Ht. cbn. by rewrite <- app_assoc.
      - apply (f_equal length) in Ht. rewrite length_take in Ht. cbn in Ht.
        rewrite length_app in Ht. cbn in Ht. lia. }
    unfold match_token. cbn. rewrite span_app by done.
    assert (span token_char ("!"%char :: r) = 0%nat) as -> by done.
    rewrite !Nat.add_0_r. destruct (length body) as [|k] eqn:El; [by destruct body|].
    by rewrite <- El, drop_app_length.
Qed.

Lemma subst_tokens_id (fn : gostring -> gostring) (s : gostring) (skip : nat) :
  (skip <= length s)%nat ->
  (forall j n, match_token (drop j s) = Some n -> fn (take n (drop j s)) = take n (drop j s)) ->
  take skip s ++ subst_tokens fn s skip = s.
Proof.
  revert skip. induction s as [|c s IH]; intros skip Hk Hfn; cbn [subst_tokens].
  - by rewrite take_nil.
  - assert (forall j n, match_token (drop j s) = Some n ->
              fn (take n (drop j s)) = take n (drop j s)) as Hfn'
      by (intros j n; exact (Hfn (S j) n)).
    destruct skip as [|k].
    + destruct (match_token (c :: s)) as [n|] eqn:En.
      * pose proof (Hfn 0%nat n En) as Hf. cbn [drop] in Hf. rewrite Hf.
        apply match_token_bounds in En.
        destruct n as [|n]; [lia|]. cbn. rewrite Nat.sub_0_r. f_equal.
        apply IH; [cbn in En; lia|done].
      * cbn. f_equal. apply (IH 0%nat); [lia|done].
    + cbn. f_equal. apply IH; [cbn in Hk; lia|done].
Qed.

Lemma findall_loop_complete (s : gostring) (i skip j n : nat) :
  (skip <= j)%nat -> match_token (drop j s) = Some n ->
  exists a b, (a, b) ∈ findall_loop s i skip /\ (a <= i + j < b)%nat.
Proof.
  revert i skip j. induction s as [|c s IH]; intros i skip j Hk Hm.
  - by rewrite drop_nil in Hm.
  - assert (forall skip' j', j = S j' -> (skip' <= j')%nat -> exists a b,
              (a, b) ∈ findall_loop s (S i) skip' /\ (a <= i + j < b)%nat) as IH'.
    { intros skip' j' -> Hk'. destruct (IH (S i) skip' j' Hk' Hm) as (a & b & Hin & Hab).
      exists a, b. split; [done|lia]. }
    cbn [findall_loop]. destruct skip as [|k].
    + destruct (match_token (c :: s)) as [m|] eqn:Em.
      * apply match_token_bounds in Em as Hb.
        destruct (decide (j < m)%nat) as [Hj|Hj].
        { exists i, (i + m)%nat. split; [constructor|lia]. }
        destruct j as [|j']; [lia|].
        destruct (IH' (m - 1)%nat j' eq_refl ltac:(lia)) as (a & b & Hin & Hab).
        exists a, b. split; [by constructor|done].
      * destruct j as [|j']; [by rewrite drop_0, Em in Hm|].
        apply (IH' 0%nat j'); [done|lia].
    + destruct j as [|j']; [lia|]. apply (IH' k j'); [done|lia].
Qed.

Lemma findall_loop_sound (s : gostring) (i skip a b : nat) :
  (a, b) ∈ findall_loop s i skip ->
  match_token (drop (a - i) s) = Some (b - a)%nat.
Proof.
  revert i skip. induction s as [|c s IH]; intros i skip; cbn [findall_loop]; [set_solver|].
  assert (forall k, (a, b) ∈ findall_loop s (S i) k ->
            match_token (drop (a - i) (c :: s)) = Some (b - a)%nat) as IH'.
  { intros k Hin. apply findall_loop_starts in Hin as Hs. apply IH in Hin.
    replace (a - i)%nat with (S (a - S i)) by lia. done. }
  destruct skip as [|k]; [|apply IH'].
  destruct (match_token (c :: s)) as [n|] eqn:En; [|apply IH'].
  intros [H|H]%elem_of_cons; [|by eapply IH'].
  simplify_eq. rewrite Nat.sub_diag. cbn [drop]. rewrite En. f_equal. lia.
Qed.


Lemma seg_tokens_sound (sql : gostring) (seg : Segment) (tok : Token) :
  (seg_start seg <= seg_end seg <= length sql)%nat -> tok ∈ seg_tokens sql seg ->
  seg_kind seg = Code
  /\ (seg_start seg <= tok_start tok < tok_end tok)%nat /\ (tok_end tok <= seg_end seg)%nat
  /\ tok_text tok = slice sql (tok_start tok) (tok_end tok)
  /\ is_token (tok_text tok).
Proof.
  intros Hb. unfold seg_tokens. destruct (seg_kind seg); try (by intros ?%elem_of_nil).
  rewrite list_elem_of_In, in_map_iff. intros ([x y] & <- & Hin%list_elem_of_In).
  apply findall_loop_starts in Hin as Hs. apply findall_loop_sound in Hin as Hm.
  rewrite length_slice in Hs by lia. cbn. split_and!; try done; try lia.
  apply match_token_spec in Hm as [Ht _]. rewrite Nat.sub_0_r in Ht.
  assert (take (y - x) (drop x (slice sql (seg_start seg) (seg_end seg)))
          = slice (slice sql (seg_start seg) (seg_end seg)) x y) as E by done.
  by rewrite E, slice_slice in Ht by lia.
Qed.

Lemma covers_elem (i n : nat) (segs : list Segment) (seg : Segment) :
  covers i n segs -> seg ∈ segs -> (i <= seg_start seg < seg_end seg)%nat /\ (seg_end seg <= n)%nat.
Proof.
  revert i. induction segs as [|s segs IH]; intros i; cbn; [set_solver|].
  intros (<- & Hlt & H) [->|Hin]%elem_of_cons.
  - apply covers_le in H. lia.
  - specialize (IH _ H Hin). lia.
Qed.

Lemma MatchString_spec (s : gostring) :
  MatchString s = true <-> exists j n, match_token (drop j s) = Some n.
Proof.
  induction s as [|c s IH]; cbn [MatchString].
  - split; [done|]. intros (j & n & H). by rewrite drop_nil in H.
  - rewrite orb_true_iff, bool_decide_eq_true, IH. split.
    + intros [[n Hn]|(j & n & H)]; [by exists 0%nat, n|by exists (S j), n].
    + intros ([|j] & n & H); [left; by exists n|right; by exists j, n].
Qed.

(** ** Properties *)

Fixpoint code_separated (segs : list Segment) : Prop :=
  match segs with
  | a :: segs' =>
      (seg_kind a = Code -> match segs' with b :: _ => seg_kind b <> Code | [] => True end)
      /\ code_separated segs'
  | [] => True
  end.

Lemma Scan_loop_separated (fuel : nat) (d : Dialect) (sql : gostring) (i cs : nat) :
  code_separated (Scan_loop fuel d sql i cs).
Proof.
  assert (forall e, code_separated (addCode cs e)) as Ha
    by (intros e; unfold addCode; destruct (cs <? e)%nat; cbn; naive_solver).
  revert i cs Ha. induction fuel as [|fuel IH]; intros i cs Ha; cbn; [done|].
  destruct (sql !! i) as [c|] eqn:Ec; [|done].
  destruct (Scan_step d sql i c) as [[k e]|] eqn:Es; [|by apply IH].
  apply Scan_step_bounds in Es as [Hk _]; [|done].
  assert (code_separated (Scan_loop fuel d sql e e)) as H.
  { apply IH. intros e'. unfold addCode. destruct (e <? e')%nat; cbn; naive_solver. }
  unfold addCode. destruct (cs <? i)%nat; cbn; naive_solver.
Qed.

(** C39. Scanning partitions the input, for every dialect and every input: the
    segments are non-empty and consecutive, start at 0 and end at the length of
    the input, their texts concatenate to the input, and code runs are maximal
    (no two code segments are adjacent). *)
Theorem Scan_partition (d : Dialect) (sql : gostring) :
  covers 0 (length sql) (Scan d sql)
  /\ flat_map (fun seg => slice sql (seg_start seg) (seg_end seg)) (Scan d sql) = sql
  /\ code_separated (Scan d sql).
Proof.
  split_and!; [apply Scan_covers| |apply Scan_loop_separated].
  by rewrite (covers_text sql 0 _ (Scan_covers d sql)).
Qed.

(** C40. MapTokens rewrites code only: the result is the concatenation, over the
    segments of the input, of the unchanged text of a protected segment and of
    the token-by-token rewriting of a code segment. *)
Theorem MapTokens_rewrites_code_only (d : Dialect) (sql : gostring) (fn : gostring -> gostring) :
  MapTokens d sql fn
  = flat_map (fun seg => let text := slice sql (seg_start seg) (seg_end seg) in
                         if Protected (seg_kind seg) then text else subst_tokens fn text 0)
      (Scan d sql).
Proof. exact (MapTokens_segments d sql fn). Qed.

(** CodeTokens is sound and complete: every reported token has the token
    grammar, is the text at its offsets and lies inside one code segment; and
    every token-shaped text inside a code segment starts within a reported
    token. *)
Lemma CodeTokens_sound_complete (d : Dialect) (sql : gostring) :
  (forall tok, tok ∈ CodeTokens d sql ->
     is_token (tok_text tok) /\ tok_text tok = slice sql (tok_start tok) (tok_end tok)
     /\ exists seg, seg ∈ Scan d sql /\ seg_kind seg = Code
          /\ (seg_start seg <= tok_start tok)%nat /\ (tok_end tok <= seg_end seg)%nat)
  /\ (forall seg a b, seg ∈ Scan d sql -> seg_kind seg = Code ->
        (seg_start seg <= a <= b)%nat -> (b <= seg_end seg)%nat -> is_token (slice sql a b) ->
        exists tok, tok ∈ CodeTokens d sql /\ (tok_start tok <= a < tok_end tok)%nat).
Proof.
  split.
  - intros tok. unfold CodeTokens. rewrite list_elem_of_In, in_flat_map.
    intros (seg & Hseg%list_elem_of_In & Htok%list_elem_of_In).
    destruct (covers_elem _ _ _ _ (Scan_covers d sql) Hseg) as [Hs He].
    destruct (seg_tokens_sound sql seg tok ltac:(lia) Htok) as (Hk & ? & ? & ? & ?).
    split_and!; [done|done|]. exists seg. split_and!; [done|done|lia|done].
  - intros seg a b Hseg Hk Hab Hb Ht.
    destruct (covers_elem _ _ _ _ (Scan_covers d sql) Hseg) as [Hs He].
    assert (slice (slice sql (seg_start seg) (seg_end seg)) (a - seg_start seg) (b - seg_start seg)
            = slice sql a b) as Et.
    { rewrite slice_slice by lia. f_equal; lia. }
    destruct (findall_loop_complete (slice sql (seg_start seg) (seg_end seg)) 0 0
      (a - seg_start seg) (b - a)) as (x & y & Hin & Hxy); [lia| |].
    { apply match_token_spec. rewrite length_drop, length_slice by lia. split; [|lia].
      rewrite <- Et in Ht. unfold slice at 1 in Ht.
      by replace (b - seg_start seg - (a - seg_start seg))%nat with (b - a)%nat in Ht by lia. }
    exists (loc_token sql (seg_start seg) (x, y)). split; [|cbn; lia].
    unfold CodeTokens. rewrite list_elem_of_In, in_flat_map. exists seg.
    split; [by apply list_elem_of_In|]. unfold seg_tokens. rewrite Hk.
    apply in_map. by apply list_elem_of_In.
Qed.

Lemma MapTokens_ext (d : Dialect) (sql : gostring) (fn gn : gostring -> gostring) :
  (forall tok, tok ∈ CodeTokens d sql -> fn (tok_text tok) = gn (tok_text tok)) ->
  MapTokens d sql fn = MapTokens d sql gn.
Proof.
  unfold MapTokens. generalize 0%nat.
  induction (CodeTokens d sql) as [|tok toks IH]; intros last H; cbn; [done|].
  rewrite H by constructor. do 2 f_equal. apply IH. intros t Ht. apply H. by constructor.
Qed.

Lemma MapTokens_id (d : Dialect) (sql : gostring) : MapTokens d sql (fun t => t) = sql.
Proof.
  rewrite MapTokens_segments.
  transitivity (drop 0 sql); [|done]. rewrite <- (covers_text sql 0 _ (Scan_covers d sql)).
  apply flat_map_ext. intros seg. unfold rewrite_segment.
  destruct (Protected _); [done|].
  by apply (subst_tokens_id (fun t => t) _ 0); [lia|].
Qed.

(** Replacing a token that does not occur in code leaves the SQL unchanged,
    whatever its quoted or commented occurrences. *)
Lemma ReplaceToken_absent (d : Dialect) (sql token value : gostring) :
  ContainsToken d sql [token] = false -> ReplaceToken d sql token value = sql.
Proof.
  intros H. rewrite <- (MapTokens_id d sql) at 2. apply MapTokens_ext.
  intros tok Htok. destruct (beq (tok_text tok) token) eqn:E; [|done].
  assert (ContainsToken d sql [token] = true); [|congruence].
  apply existsb_exists. exists tok. split; [by apply list_elem_of_In|]. cbn. by rewrite E.
Qed.

(** Quoting: the delimiter is doubled, and so is the backslash where it is an
    escape character. *)
Fixpoint escape_quoted (quote : ascii) (backslash : bool) (text : gostring) : gostring :=
  match text with
  | [] => []
  | c :: text' =>
      if Ascii.eqb c quote || (backslash && Ascii.eqb c "\")
      then c :: c :: escape_quoted quote backslash text'
      else c :: escape_quoted quote backslash text'
  end.

Lemma scanQuoted_loop_escape (q : ascii) (b : bool) (text rest : gostring) (i : nat) :
  q <> "\"%char -> head rest <> Some q ->
  scanQuoted_loop q b (escape_quoted q b text ++ q :: rest) i
  = (i + length (escape_quoted q b text) + 1)%nat.
Proof.
  intros Hq Hr. apply Ascii.eqb_neq in Hq as Hqb.
  revert i. induction text as [|c text IH]; intros i.
  - cbn. rewrite Hqb, Ascii.eqb_refl. destruct rest as [|c' rest]; [lia|].
    destruct (Ascii.eqb_spec c' q) as [->|]; [by destruct Hr|]. lia.
  - cbn [escape_quoted]. destruct (Ascii.eqb_spec c q) as [->|Hc]; cbn [orb].
    + cbn. rewrite Hqb, Ascii.eqb_refl, IH. lia.
    + destruct (Ascii.eqb_spec c "\") as [->|Hb]; rewrite ?andb_false_r; cbn.
      * destruct b; cbn; rewrite IH; [lia|].
        destruct text; cbn; lia.
      * apply Ascii.eqb_neq in Hb, Hc. rewrite Hb, Hc, IH. lia.
Qed.

(** A quoted region ends where it was meant to: at any position, the text
    between two delimiters with its delimiters doubled (and its backslashes, in
    the dialects where they escape) is scanned as one region ending just past
    the closing delimiter, whatever the text contains. *)
Lemma scanQuoted_literal (pre text rest : gostring) (q : ascii) (b : bool) :
  q <> "\"%char -> head rest <> Some q ->
  scanQuoted (pre ++ q :: escape_quoted q b text ++ q :: rest) (length pre) q b
  = (length pre + length (escape_quoted q b text) + 2)%nat.
Proof.
  intros Hq Hr. unfold scanQuoted.
  rewrite drop_app_ge by lia. replace (length pre + 1 - length pre)%nat with 1%nat by lia.
  cbn [drop]. rewrite drop_0, scanQuoted_loop_escape by done. lia.
Qed.

Definition protected_token_in (sql : gostring) (segs : list Segment) (start e : Z) : Prop :=
  exists seg a b, seg ∈ segs /\ seg_kind seg <> Code /\ is_token (slice sql a b)
    /\ (seg_start seg <= a < b)%nat /\ (b <= seg_end seg)%nat
    /\ start <= Z.of_nat a /\ Z.of_nat b <= e.

Lemma MatchString_slice (sql : gostring) (s e : nat) :
  (s <= e <= length sql)%nat ->
  MatchString (slice sql s e) = true
  <-> exists a b, (s <= a < b)%nat /\ (b <= e)%nat /\ is_token (slice sql a b).
Proof.
  intros He. rewrite MatchString_spec. split.
  - intros (j & n & Hm). apply match_token_bounds in Hm as Hn.
    apply match_token_spec in Hm as [Ht _]. rewrite length_drop, length_slice in Hn by lia.
    exists (s + j)%nat, (s + j + n)%nat. split_and!; [lia..|].
    assert (slice (slice sql s e) j (j + n) = take n (drop j (slice sql s e))) as E.
    { unfold slice at 1. f_equal. lia. }
    rewrite <- E, slice_slice in Ht by lia. by rewrite Nat.add_assoc in Ht.
  - intros (a & b & Hab & Hb & Ht). exists (a - s)%nat, (b - a)%nat.
    apply match_token_spec. rewrite length_drop, length_slice by lia. split; [|lia].
    assert (slice (slice sql s e) (a - s) (b - s) = slice sql a b) as E.
    { rewrite slice_slice by lia. f_equal; lia. }
    rewrite <- E in Ht. unfold slice at 1 in Ht.
    by replace (b - s - (a - s))%nat with (b - a)%nat in Ht by lia.
Qed.

Lemma protected_token_in_cons (sql : gostring) (seg : Segment) (segs : list Segment) (start e : Z) :
  protected_token_in sql (seg :: segs) start e
  <-> protected_token_in sql [seg] start e \/ protected_token_in sql segs start e.
Proof.
  unfold protected_token_in. split.
  - intros (s & a & b & [->|Hin]%elem_of_cons & H); [left; exists seg, a, b|right; by exists s, a, b].
    split; [constructor|done].
  - intros [(s & a & b & ->%list_elem_of_singleton & H)|(s & a & b & Hin & H)].
    + exists seg, a, b. split; [constructor|done].
    + exists s, a, b. split; [by constructor|done].
Qed.

Lemma span_protected_loop_spec (sql : gostring) (start e : Z) (segs : list Segment) :
  0 <= start <= e -> e <= blen sql ->
  Forall (fun seg => (seg_start seg < seg_end seg <= length sql)%nat) segs ->
  exists found, span_protected_loop sql start e segs = Some found
    /\ (found = true <-> protected_token_in sql segs start e).
Proof.
  intros Hse Hlen. unfold blen in Hlen.
  induction 1 as [|seg segs Hseg _ (found & Hf & IH)]; cbn [span_protected_loop].
  { exists false. split; [done|]. split; [done|]. by intros (? & ? & ? & ?%elem_of_nil & _). }
  setoid_rewrite protected_token_in_cons.
  destruct (negb _ || _ || _) eqn:Eskip.
  { exists found. split; [done|]. rewrite IH. split; [by right|]. intros [H|]; [|done]. exfalso.
    destruct H as (seg' & a & b & ->%list_elem_of_singleton & Hk & _ & ? & ? & ? & ?).
    bool_props. destruct (seg_kind seg); cbn in *; naive_solver lia. }
  bool_props. destruct Eskip as [[Hk Hs1] Hs2].
  set (s := if Z.of_nat _ <? start then _ else _). set (e' := if e <? Z.of_nat _ then _ else _).
  assert (0 <= s <= e' /\ e' <= Z.of_nat (length sql)) as Hb
    by (subst s e'; repeat case_test; bool_props; lia).
  destruct (e' <? s) eqn:E; [bool_props; lia|].
  assert (MatchString (slice sql (Z.to_nat s) (Z.to_nat e')) = true
          <-> protected_token_in sql [seg] start e) as Hm.
  { rewrite MatchString_slice by lia. unfold protected_token_in. split.
    - intros (a & b & Hab & Hbe & Ht). exists seg, a, b.
      assert (seg_kind seg <> Code) by (intros Ec; by rewrite Ec in Hk).
      subst s e'. repeat case_test; bool_props; split_and!; try done; try lia; constructor.
    - intros (seg' & a & b & ->%list_elem_of_singleton & _ & Ht & ? & ? & ? & ?).
      exists a, b. subst s e'. repeat case_test; bool_props; split_and!; try done; lia. }
  destruct (MatchString _) eqn:Em.
  - exists true. split; [done|]. split; [|done]. intros _. left. by apply Hm.
  - exists found. split; [done|]. rewrite IH. split; [by right|]. intros [H|]; [|done].
    apply Hm in H. congruence.
Qed.

(** SpanHasProtectedToken reports exactly the presence of token-shaped text
    that lies inside both the clamped span and one protected segment; on a span
    with start <= end (after clamping) it does not panic. *)
Lemma SpanHasProtectedToken_spec (d : Dialect) (sql : gostring) (start e : Z) :
  0 <= start <= e -> e <= blen sql ->
  exists found, SpanHasProtectedToken d sql start e = Some found
    /\ (found = true <-> protected_token_in sql (Scan d sql) start e).
Proof.
  intros Hse He. unfold SpanHasProtectedToken.
  rewrite (proj2 (Z.ltb_ge start 0)), (proj2 (Z.ltb_ge (blen sql) e)) by lia.
  apply span_protected_loop_spec; [lia|lia|].
  apply Forall_forall. intros seg Hseg.
  pose proof (covers_elem _ _ _ _ (Scan_covers d sql) Hseg). lia.
Qed.
