(* ===== verification/Temporal.v ===== *)
(** * provider/temporal_bound.go and the temporal part of provider/query.go

    Exact UTC endpoints: a civil time to the nanosecond, the remaining decimal
    digits of a nanosecond, and a marker for an inserted (leap) second. *)

From S2P Require Import Prelude GoText.

(** ** Civil UTC time, as [time.Time] in UTC *)

Record Time := mkTime {
  t_year : Z; t_month : Z; t_day : Z;
  t_hour : Z; t_min : Z; t_sec : Z; t_nsec : Z
}.

#[export] Instance Time_eq_dec : EqDecision Time.
Proof. solve_decision. Defined.

(** The zero [time.Time]. *)
Definition zeroTime : Time := mkTime 1 1 1 0 0 0 0.

Definition is_leap_year (y : Z) : bool :=
  (y mod 4 =? 0) && (negb (y mod 100 =? 0) || (y mod 400 =? 0)).

(** [time.daysIn]. *)
Definition daysIn (month year : Z) : Z :=
  if month =? 2 then (if is_leap_year year then 29 else 28)
  else if (month =? 4) || (month =? 6) || (month =? 9) || (month =? 11) then 30
  else 31.

(** The number of days from 1970-01-01 to a civil date (proleptic Gregorian). *)
Definition days_before_year (y : Z) : Z :=
  let p := y - 1 in 365 * p + p / 4 - p / 100 + p / 400.

Fixpoint days_before_month (n : nat) (year : Z) : Z :=
  match n with
  | O => 0
  | S n' => daysIn (Z.of_nat n) year + days_before_month n' year
  end.

Definition days_from_civil (y m d : Z) : Z :=
  days_before_year y - days_before_year 1970
  + days_before_month (Z.to_nat (m - 1)) y + (d - 1).

(** [t.Unix()]. *)
Definition Unix (t : Time) : Z :=
  days_from_civil (t_year t) (t_month t) (t_day t) * 86400
  + t_hour t * 3600 + t_min t * 60 + t_sec t.

(** ** temporal_bound.go *)

Definition leap_second_dates : list (Z * Z * Z) :=
  [(1972, 6, 30); (1972, 12, 31); (1973, 12, 31); (1974, 12, 31); (1975, 12, 31);
   (1976, 12, 31); (1977, 12, 31); (1978, 12, 31); (1979, 12, 31); (1981, 6, 30);
   (1982, 6, 30); (1983, 6, 30); (1985, 6, 30); (1987, 12, 31); (1989, 12, 31);
   (1990, 12, 31); (1992, 6, 30); (1993, 6, 30); (1994, 6, 30); (1995, 12, 31);
   (1997, 6, 30); (1998, 12, 31); (2005, 12, 31); (2008, 12, 31); (2012, 6, 30);
   (2015, 6, 30); (2016, 12, 31)].

Definition IsPositiveLeapSecondPredecessor (u : Time) : bool :=
  if negb (t_hour u =? 23) || negb (t_min u =? 59) || negb (t_sec u =? 59) then false
  else bool_decide ((t_year u, t_month u, t_day u) ∈ leap_second_dates).

(** [provider.InvalidFeatureQueryError]; [fq_unsupported] says that the error
    is joined with [ErrUnsupported]. *)
Record QueryError := mkQueryError {
  fq_field : string; fq_reason : string; fq_unsupported : bool
}.

Definition InvalidFeatureQueryError (field reason : string) : QueryError :=
  mkQueryError field reason false.

Definition validateTemporalEndpoint (t : option Time) (fraction : gostring) (leap : bool)
    : result QueryError unit :=
  if bool_decide (t = None) && (negb (beq fraction []) || leap) then
    Err (InvalidFeatureQueryError "temporal" "fraction and leap marker require an endpoint")
  else if negb (forallb is_digit fraction) then
    Err (InvalidFeatureQueryError "temporal" "subnanosecond fraction must contain decimal digits")
  else
    match t with
    | Some u =>
        if leap && negb (IsPositiveLeapSecondPredecessor u) then
          Err (InvalidFeatureQueryError "temporal"
                 "leap marker does not identify an announced positive insertion")
        else Ok tt
    | None => Ok tt
    end.

(** The final loop of compareTemporalEndpoints, with [n] iterations left:
    missing digits read as '0'. *)
Fixpoint compare_fraction (n : nat) (af bf : gostring) : Z :=
  match n with
  | O => 0
  | S n' =>
      let x := code (default "0"%char (head af)) in
      let y := code (default "0"%char (head bf)) in
      if x <? y then -1 else if y <? x then 1 else compare_fraction n' (tail af) (tail bf)
  end.

Definition compareTemporalEndpoints (a : Time) (af : gostring) (al : bool)
    (b : Time) (bf : gostring) (bl : bool) : Z :=
  if Unix a <? Unix b then -1
  else if Unix b <? Unix a then 1
  else if negb (Bool.eqb al bl) then (if al then 1 else -1)
  else if t_nsec a <? t_nsec b then -1
  else if t_nsec b <? t_nsec a then 1
  else compare_fraction (Nat.max (length af) (length bf)) af bf.

(** ** query.go: TemporalConstraint *)

Record TemporalConstraint := mkTemporal {
  tc_start : option Time;
  tc_end : option Time;
  tc_start_sub : gostring;
  tc_end_sub : gostring;
  tc_start_leap : bool;
  tc_end_leap : bool
}.

Definition TemporalConstraint_Validate (t : TemporalConstraint) : result QueryError unit :=
  if bool_decide (tc_start t = None) && bool_decide (tc_end t = None) then
    Err (InvalidFeatureQueryError "temporal" "both bounds are open")
  else
    check? validateTemporalEndpoint (tc_start t) (tc_start_sub t) (tc_start_leap t) in
    check? validateTemporalEndpoint (tc_end t) (tc_end_sub t) (tc_end_leap t) in
    match tc_start t, tc_end t with
    | Some s, Some e =>
        if 0 <? compareTemporalEndpoints s (tc_start_sub t) (tc_start_leap t)
                  e (tc_end_sub t) (tc_end_leap t)
        then Err (InvalidFeatureQueryError "temporal" "start follows end")
        else Ok tt
    | _, _ => Ok tt
    end.

(** ** temporal.go: TemporalMapping *)

Record TemporalMapping := mkMapping {
  InstantField : gostring; StartField : gostring; EndField : gostring
}.

Definition TemporalMapping_Validate (m : TemporalMapping) : result QueryError unit :=
  if existsb (fun field => negb (beq field []) && is_blank field)
       [InstantField m; StartField m; EndField m] then
    Err (InvalidFeatureQueryError "temporal" "contains a blank source field name")
  else
    let hasInstant := negb (beq (InstantField m) []) in
    let hasInterval := negb (beq (StartField m) []) || negb (beq (EndField m) []) in
    if hasInstant && hasInterval then
      Err (InvalidFeatureQueryError "temporal" "instant and interval mappings cannot be combined")
    else if hasInterval && (beq (StartField m) [] || beq (EndField m) []) then
      Err (InvalidFeatureQueryError "temporal" "interval requires both source field names")
    else if hasInterval && beq (StartField m) (EndField m) then
      Err (InvalidFeatureQueryError "temporal" "interval source field names must differ")
    else Ok tt.

Example unix_epoch : Unix (mkTime 1970 1 1 0 0 0 0) = 0.
Proof. vm_compute. reflexivity. Qed.

Example unix_2017 : Unix (mkTime 2017 1 1 0 0 0 0) = 1483228800.
Proof. vm_compute. reflexivity. Qed.

Example leap_2016 : IsPositiveLeapSecondPredecessor (mkTime 2016 12 31 23 59 59 5) = true.
Proof. vm_compute. reflexivity. Qed.

(** ** The order of endpoints *)

(** The value of the first [n] digits of a fraction, missing digits being '0'. *)
Fixpoint fraction_value (n : nat) (f : gostring) : Z :=
  match n with
  | O => 0
  | S n' => (code (default "0"%char (head f)) - 48) * 10 ^ Z.of_nat n' + fraction_value n' (tail f)
  end.

Definition digits (f : gostring) : Prop := forallb is_digit f = true.

Lemma digits_tail (f : gostring) : digits f -> digits (tail f).
Proof. unfold digits. destruct f; cbn; [done|]. by intros [_ ?]%andb_true_iff. Qed.

Lemma digits_head (f : gostring) :
  digits f -> 0 <= code (default "0"%char (head f)) - 48 <= 9.
Proof.
  unfold digits. destruct f as [|c f]; cbn; [done|].
  intros [Hc%in_range_iff _]%andb_true_iff. lia.
Qed.

Lemma fraction_value_range (n : nat) (f : gostring) :
  digits f -> 0 <= fraction_value n f < 10 ^ Z.of_nat n.
Proof.
  revert f. induction n as [|n IH]; intros f Hf; cbn [fraction_value]; [lia|].
  specialize (IH _ (digits_tail f Hf)). pose proof (digits_head f Hf).
  rewrite Nat2Z.inj_succ, Z.pow_succ_r by lia. nia.
Qed.

(** Digits beyond the end of both strings do not matter. *)
Lemma fraction_value_more (n k : nat) (f : gostring) :
  (length f <= n)%nat -> fraction_value (n + k) f = fraction_value n f * 10 ^ Z.of_nat k.
Proof.
  revert f. induction n as [|n IH]; intros f Hf.
  - destruct f; [|cbn in Hf; lia]. cbn [Nat.add]. induction k as [|k IHk]; cbn in *; [done|]. by rewrite IHk.
  - cbn [Nat.add fraction_value]. rewrite IH by (destruct f; cbn in *; lia).
    rewrite Nat2Z.inj_add, Z.pow_add_r by lia. lia.
Qed.

(** The sign of a comparison, as the Go code returns it. *)
Definition sign_of (c : comparison) : Z :=
  match c with Lt => -1 | Eq => 0 | Gt => 1 end.

Lemma compare_step (p x y u v : Z) :
  0 <= u < p -> 0 <= v < p ->
  sign_of (x * p + u ?= y * p + v) =
  if x <? y then -1 else if y <? x then 1 else sign_of (u ?= v).
Proof.
  intros Hu Hv. destruct (Z.ltb_spec x y); [|destruct (Z.ltb_spec y x)].
  - rewrite (proj2 (Z.compare_lt_iff _ _)); [done|]. nia.
  - rewrite (proj2 (Z.compare_gt_iff _ _)); [done|]. nia.
  - replace y with x by lia. by rewrite Z.add_compare_mono_l.
Qed.

Lemma compare_fraction_value (n : nat) (af bf : gostring) :
  digits af -> digits bf ->
  compare_fraction n af bf = sign_of (fraction_value n af ?= fraction_value n bf).
Proof.
  revert af bf. induction n as [|n IH]; intros af bf Ha Hb; [done|].
  cbn [compare_fraction fraction_value].
  rewrite compare_step by auto using fraction_value_range, digits_tail.
  rewrite IH by auto using digits_tail.
  set (x := code (default _ (head af))). set (y := code (default _ (head bf))).
  repeat case_test; bool_props; lia || done.
Qed.

(** An endpoint's position on the time line, in units of 10^-n nanoseconds
    within its second; an inserted second follows the second it repeats. *)
Definition endpoint_key (n : nat) (t : Time) (f : gostring) (leap : bool) : Z :=
  (2 * Unix t + (if leap then 1 else 0)) * (10 ^ 9 * 10 ^ Z.of_nat n)
  + (t_nsec t * 10 ^ Z.of_nat n + fraction_value n f).

(** The comparison of exact endpoints is the order of the time line: the sign of
    comparing the two exact positions (seconds, inserted second, nanoseconds, and
    every further decimal digit), at any common precision that holds both digit
    strings. *)
Lemma endpoint_key_compare (n : nat) (a : Time) (af : gostring) (al : bool)
    (b : Time) (bf : gostring) (bl : bool) :
  digits af -> digits bf -> (length af <= n)%nat -> (length bf <= n)%nat ->
  0 <= t_nsec a < 10 ^ 9 -> 0 <= t_nsec b < 10 ^ 9 ->
  compareTemporalEndpoints a af al b bf bl
  = sign_of (endpoint_key n a af al ?= endpoint_key n b bf bl).
Proof.
  intros Ha Hb La Lb Na Nb. unfold compareTemporalEndpoints, endpoint_key.
  set (m := Nat.max (length af) (length bf)).
  pose proof (fraction_value_range n af Ha). pose proof (fraction_value_range n bf Hb).
  rewrite compare_step by nia. rewrite compare_step by lia.
  assert (compare_fraction m af bf = sign_of (fraction_value n af ?= fraction_value n bf)) as ->.
  { rewrite compare_fraction_value by done.
    replace n with (m + (n - m))%nat by lia. rewrite !fraction_value_more by lia.
    by rewrite <- Zmult_compare_compat_r by (apply Z.lt_gt, Z.pow_pos_nonneg; lia). }
  destruct al, bl; cbn [negb Bool.eqb]; repeat case_test; bool_props; lia || done.
Qed.

(** A well-formed endpoint: digits only, and a leap marker only on an announced
    insertion; an open bound carries neither. *)
Definition endpoint_ok (t : option Time) (f : gostring) (leap : bool) : Prop :=
  match t with
  | Some u => digits f /\ (leap = true -> IsPositiveLeapSecondPredecessor u = true)
  | None => f = [] /\ leap = false
  end.

Lemma validateTemporalEndpoint_ok (t : option Time) (f : gostring) (leap : bool) :
  validateTemporalEndpoint t f leap = Ok tt <-> endpoint_ok t f leap.
Proof.
  unfold validateTemporalEndpoint, endpoint_ok, digits.
  destruct t as [u|]; cbn [bool_decide decide].
  - rewrite bool_decide_false by done. cbn.
    destruct (forallb is_digit f); cbn; [|naive_solver].
    destruct leap, (IsPositiveLeapSecondPredecessor u); cbn; naive_solver.
  - rewrite bool_decide_true by done. destruct f, leap; cbn; naive_solver.
Qed.

(** TemporalConstraint.Validate accepts exactly the non-empty intervals: at
    least one bound, well-formed endpoints, and a start whose exact position on
    the time line (leap second and sub-nanosecond digits included) does not
    follow the end's. *)
Lemma TemporalConstraint_Validate_exact (t : TemporalConstraint) (n : nat) :
  (length (tc_start_sub t) <= n)%nat -> (length (tc_end_sub t) <= n)%nat ->
  (forall u, tc_start t = Some u \/ tc_end t = Some u -> 0 <= t_nsec u < 10 ^ 9) ->
  TemporalConstraint_Validate t = Ok tt
  <-> (tc_start t <> None \/ tc_end t <> None)
      /\ endpoint_ok (tc_start t) (tc_start_sub t) (tc_start_leap t)
      /\ endpoint_ok (tc_end t) (tc_end_sub t) (tc_end_leap t)
      /\ (forall s e, tc_start t = Some s -> tc_end t = Some e ->
            endpoint_key n s (tc_start_sub t) (tc_start_leap t)
            <= endpoint_key n e (tc_end_sub t) (tc_end_leap t)).
Proof.
  intros Ls Le Hn. destruct t as [st en sf ef sl el]; cbn in *.
  unfold TemporalConstraint_Validate; cbn.
  rewrite <- !validateTemporalEndpoint_ok.
  destruct (bool_decide (st = None) && bool_decide (en = None)) eqn:Eo.
  { bool_props. destruct Eo as [-> ->]. naive_solver. }
  assert (st <> None \/ en <> None) as Hone by (bool_props; done).
  destruct (validateTemporalEndpoint st sf sl) as [[]|] eqn:Es; cbn [rbind]; [|naive_solver].
  destruct (validateTemporalEndpoint en ef el) as [[]|] eqn:Ee; cbn [rbind]; [|naive_solver].
  destruct st as [s|], en as [e|]; try naive_solver.
  apply validateTemporalEndpoint_ok in Es as [Ds _], Ee as [De _].
  rewrite (endpoint_key_compare n) by naive_solver.
  assert ((forall s0 e0, Some s = Some s0 -> Some e = Some e0 ->
             endpoint_key n s0 sf sl <= endpoint_key n e0 ef el)
          <-> endpoint_key n s sf sl <= endpoint_key n e ef el) as -> by naive_solver.
  destruct (Z.compare_spec (endpoint_key n s sf sl) (endpoint_key n e ef el));
    cbn [sign_of]; decide_ltb; (split; [intros ?|intros (_ & _ & _ & ?)]);
    first [done|lia|split_and!; done || lia].
Qed.
