(* ===== verification/Filter.v ===== *)
(** * provider/query_filter.go: typed filter expressions

    Literals, the construction descriptor [FilterNode] with its resource
    budget, immutable expressions, the catalog of queryable properties and the
    resolution of an expression against it. *)

From Stdlib Require Import QArith.
From S2P Require Import Prelude GoText Temporal.

#[local] Open Scope Z_scope.

(** ** Limits *)

Definition MaxFilterBytes : Z := 65536.
Definition MaxFilterNodes : Z := 4096.
Definition MaxFilterDepth : Z := 32.
Definition MaxFilterPropertyBytes : Z := 1024.
Definition MaxFilterLiteralBytes : Z := 16384.
Definition MaxFilterNumericDigits : Z := 1024.
Definition MaxFilterNumericExponent : Z := 4096.
Definition MaxFilterTimestampFractionDigits : Z := 1024.
Definition MaxQueryableFields : Z := 4096.
Definition MaxQueryableNameBytes : Z := 1024.
Definition MaxQueryableTotalNameBytes : Z := 65536.

(** ** Literals *)

Inductive FilterScalarType :=
| FilterScalarInvalid | FilterString | FilterNumber | FilterBoolean | FilterDate | FilterTimestamp.

#[export] Instance FilterScalarType_eq_dec : EqDecision FilterScalarType.
Proof. solve_decision. Defined.

Record FilterInstant := mkInstant {
  fi_time : Time; fi_sub : gostring; fi_leap : bool
}.

#[export] Instance FilterInstant_eq_dec : EqDecision FilterInstant.
Proof. solve_decision. Defined.

Record FilterLiteral := mkLiteral {
  fl_kind : FilterScalarType; fl_text : gostring; fl_date : Time; fl_instant : FilterInstant
}.

#[export] Instance FilterLiteral_eq_dec : EqDecision FilterLiteral.
Proof. solve_decision. Defined.

Definition zeroInstant : FilterInstant := mkInstant zeroTime [] false.

(** The zero value [FilterLiteral{}]. *)
Definition zeroLiteral : FilterLiteral := mkLiteral FilterScalarInvalid [] zeroTime zeroInstant.

Definition invalidFilter (reason : string) : QueryError := InvalidFeatureQueryError "filter" reason.

Definition unsupportedFilter : QueryError :=
  mkQueryError "filter" "operator is outside the supported filter profile" true.

(** *** The numeric pattern: an optional sign, digits with an optional fraction
    or a fraction alone, an optional exponent *)

Fixpoint digit_run (s : gostring) : gostring * gostring :=
  match s with
  | c :: s' => if is_digit c then let '(d, r) := digit_run s' in (c :: d, r) else ([], s)
  | [] => ([], [])
  end.

Definition drop_sign (s : gostring) : gostring :=
  match s with
  | c :: s' => if Ascii.eqb c "+" || Ascii.eqb c "-" then s' else s
  | [] => []
  end.

Definition is_e (c : ascii) : bool := Ascii.eqb c "e" || Ascii.eqb c "E".

(** The digits after a point, when there is one, and what follows. *)
Definition fraction_part (r : gostring) : gostring * gostring :=
  match r with
  | c :: r' => if Ascii.eqb c "." then digit_run r' else ([], r)
  | [] => ([], [])
  end.

(** The exponent that ends the text, its sign included; [None] when what is left
    is not one. *)
Definition exponent_part (r : gostring) : option (option gostring) :=
  match r with
  | [] => Some None
  | c :: e =>
      if is_e c then
        let '(d, r') := digit_run (drop_sign e) in
        if negb (beq d []) && beq r' [] then Some (Some e) else None
      else None
  end.

(** The integer digits, the fraction digits and the exponent text of a numeric
    literal; [None] when the pattern does not match. *)
Definition filterNumberPattern (s : gostring) : option (gostring * gostring * option gostring) :=
  let '(int, r1) := digit_run (drop_sign s) in
  let '(frac, r2) := fraction_part r1 in
  if beq int [] && beq frac [] then None
  else
    match exponent_part r2 with
    | Some exp => Some (int, frac, exp)
    | None => None
    end.

Definition count_digits (s : gostring) : Z := blen (List.filter is_digit s).

(** [strings.IndexAny(text, "eE")] and the text after it. *)
Fixpoint after_e (s : gostring) : option gostring :=
  match s with
  | [] => None
  | c :: s' => if is_e c then Some s' else after_e s'
  end.

Definition is_negative (s : gostring) : bool :=
  match s with c :: _ => Ascii.eqb c "-" | [] => false end.

(** [new(big.Rat).SetString(text)] on a text of the pattern. *)
Definition Rat_SetString (s : gostring) : option Q :=
  match filterNumberPattern s with
  | None => None
  | Some (int, frac, exp) =>
      match parse_digits (int ++ frac) 0, default (Some 0) ((fun e => ParseInt e 64) <$> exp) with
      | Some m, Some e =>
          let m := if is_negative s then - m else m in
          let e := e - blen frac in
          Some (if 0 <=? e then (m * 10 ^ e) # 1 else m # Z.to_pos (10 ^ (- e)))
      | _, _ => None
      end
  end.

(** *** Calendar dates and instants *)

(** [n] decimal digits as a number. *)
Definition parse_fixed (s : gostring) (i n : nat) : option Z :=
  let t := slice s i (i + n) in
  if (length t =? n)%nat then parse_digits t 0 else None.

Definition byte_at (s : gostring) (i : nat) (c : ascii) : bool := bool_decide (s !! i = Some c).

(** [time.Parse("2006-01-02", text)] on a 10-byte text. *)
Definition parse_date (s : gostring) : option Time :=
  match parse_fixed s 0 4, parse_fixed s 5 2, parse_fixed s 8 2 with
  | Some y, Some m, Some d =>
      if byte_at s 4 "-" && byte_at s 7 "-"
         && (1 <=? m) && (m <=? 12) && (1 <=? d) && (d <=? daysIn m y)
      then Some (mkTime y m d 0 0 0 0) else None
  | _, _, _ => None
  end.

(** Zero-padded decimal of width [n]. *)
Fixpoint pad_digits (n : nat) (v : Z) : gostring :=
  match n with
  | O => []
  | S n' => pad_digits n' (v / 10) ++ [digit_char (v mod 10)]
  end.

(** [date.Format("2006-01-02")] for a year of at most four digits. *)
Definition format_date (t : Time) : gostring :=
  pad_digits 4 (t_year t) ++ "-"%char :: pad_digits 2 (t_month t)
    ++ "-"%char :: pad_digits 2 (t_day t).

(** [filterTimestampPattern]: the fraction digits. *)
Definition filterTimestampPattern (s : gostring) : option gostring :=
  let digits_at i n := forallb is_digit (slice s i (i + n)) in
  if (20 <=? length s)%nat
     && digits_at 0%nat 4%nat && byte_at s 4 "-" && digits_at 5%nat 2%nat && byte_at s 7 "-"
     && digits_at 8%nat 2%nat && byte_at s 10 "T" && digits_at 11%nat 2%nat && byte_at s 13 ":"
     && digits_at 14%nat 2%nat && byte_at s 16 ":" && digits_at 17%nat 2%nat
  then
    match drop 19 s with
    | c :: r =>
        if Ascii.eqb c "Z" then (if beq r [] then Some [] else None)
        else if Ascii.eqb c "." then
          let '(f, r') := digit_run r in
          if negb (beq f []) && beq r' (B "Z") then Some f else None
        else None
    | [] => None
    end
  else None.

(** [time.Parse(time.RFC3339Nano, ordinary+"Z")] for an [ordinary] of the form
    YYYY-MM-DDThh:mm:ss with at most nine fraction digits given apart. *)
Definition parse_rfc3339 (ordinary fraction : gostring) : option Time :=
  match parse_date (take 10 ordinary), parse_fixed ordinary 11 2, parse_fixed ordinary 14 2,
        parse_fixed ordinary 17 2, parse_digits (fraction ++ repeat "0"%char (9 - length fraction)) 0 with
  | Some d, Some h, Some mi, Some s, Some ns =>
      if (h <=? 23) && (mi <=? 59) && (s <=? 59)
      then Some (mkTime (t_year d) (t_month d) (t_day d) h mi s ns) else None
  | _, _, _, _, _ => None
  end.

Definition parseFilterInstant (text : gostring) : result QueryError FilterInstant :=
  match filterTimestampPattern text with
  | None => Err (invalidFilter "timestamp must use UTC T/Z syntax")
  | Some fraction =>
      if MaxFilterTimestampFractionDigits <? blen fraction then
        Err (invalidFilter "timestamp fraction exceeds its limit")
      else
        let ordinary := take 19 text in
        let leap := beq (slice ordinary 17 19) (B "60") in
        let ordinary := if leap then take 17 ordinary ++ B "59" else ordinary in
        let tail := if 9 <? blen fraction then drop 9 fraction else [] in
        let fraction := if 9 <? blen fraction then take 9 fraction else fraction in
        match parse_rfc3339 ordinary fraction with
        | None => Err (invalidFilter "invalid timestamp")
        | Some t =>
            match validateTemporalEndpoint (Some t) tail leap with
            | Err _ => Err (invalidFilter "timestamp leap second is not an announced insertion")
            | Ok _ => Ok (mkInstant t tail leap)
            end
        end
  end.

Definition NewFilterLiteral (kind : FilterScalarType) (text : gostring)
    : result QueryError FilterLiteral :=
  if (MaxFilterLiteralBytes <? blen text) || negb (ValidString text) then
    Err (invalidFilter "literal exceeds its byte limit or is not UTF-8")
  else
    match kind with
    | FilterString => Ok (mkLiteral kind text zeroTime zeroInstant)
    | FilterNumber =>
        if bool_decide (filterNumberPattern text = None) then
          Err (invalidFilter "invalid numeric literal")
        else if MaxFilterNumericDigits <? count_digits text then
          Err (invalidFilter "numeric literal exceeds its digit limit")
        else if match after_e text with
                | Some e =>
                    match ParseInt e 64 with
                    | Some exponent =>
                        (exponent <? - MaxFilterNumericExponent)
                        || (MaxFilterNumericExponent <? exponent)
                    | None => true
                    end
                | None => false
                end then
          Err (invalidFilter "numeric exponent exceeds its limit")
        else if bool_decide (Rat_SetString text = None) then
          Err (invalidFilter "invalid numeric literal")
        else Ok (mkLiteral kind text zeroTime zeroInstant)
    | FilterBoolean =>
        if negb (beq text (B "true")) && negb (beq text (B "false")) then
          Err (invalidFilter "invalid boolean literal")
        else Ok (mkLiteral kind text zeroTime zeroInstant)
    | FilterDate =>
        if negb (blen text =? 10) then Err (invalidFilter "date must be YYYY-MM-DD")
        else
          match parse_date text with
          | Some date =>
              if negb (beq (format_date date) text) then Err (invalidFilter "invalid calendar date")
              else Ok (mkLiteral kind text date zeroInstant)
          | None => Err (invalidFilter "invalid calendar date")
          end
    | FilterTimestamp =>
        let? instant := parseFilterInstant text in
        Ok (mkLiteral kind text zeroTime instant)
    | FilterScalarInvalid => Err (invalidFilter "invalid scalar literal type")
    end.

(** [Number], [Date] and [Instant]. *)
Definition Number (l : FilterLiteral) : option Q :=
  match fl_kind l with FilterNumber => Rat_SetString (fl_text l) | _ => None end.

Definition Date (l : FilterLiteral) : Time * bool :=
  (fl_date l, bool_decide (fl_kind l = FilterDate)).

Definition Instant (l : FilterLiteral) : FilterInstant * bool :=
  (fl_instant l, bool_decide (fl_kind l = FilterTimestamp)).

(** ** Nodes *)

Inductive FilterKind :=
| FilterInvalid | FilterBooleanConstant | FilterCompare | FilterIsNull | FilterIsNotNull
| FilterAnd | FilterOr | FilterNot | FilterLike | FilterIn | FilterBetween | FilterSpatial
| FilterTemporal.

#[export] Instance FilterKind_eq_dec : EqDecision FilterKind.
Proof. solve_decision. Defined.

Inductive FilterCompareOperator :=
| FilterComparisonInvalid | FilterEqual | FilterNotEqual | FilterLess | FilterLessEqual
| FilterGreater | FilterGreaterEqual.

#[export] Instance FilterCompareOperator_eq_dec : EqDecision FilterCompareOperator.
Proof. solve_decision. Defined.

Inductive FilterNode :=
| mkNode (kind : FilterKind) (operator : FilterCompareOperator) (property : gostring)
    (literal : FilterLiteral) (boolean : bool) (children : list FilterNode).

Definition n_kind (n : FilterNode) := let 'mkNode k _ _ _ _ _ := n in k.
Definition n_operator (n : FilterNode) := let 'mkNode _ o _ _ _ _ := n in o.
Definition n_property (n : FilterNode) := let 'mkNode _ _ p _ _ _ := n in p.
Definition n_literal (n : FilterNode) := let 'mkNode _ _ _ l _ _ := n in l.
Definition n_boolean (n : FilterNode) := let 'mkNode _ _ _ _ b _ := n in b.
Definition n_children (n : FilterNode) := let 'mkNode _ _ _ _ _ c := n in c.

Record FilterExpression := mkExpression { fe_root : FilterNode; fe_valid : bool }.

Record filterBudget := mkBudget { b_nodes : Z; b_bytes : Z }.

Definition validFilterProperty (name : gostring) : bool :=
  negb (is_blank name) && ValidString name.

(** The checks that the [switch node.Kind] makes on the node itself. *)
Definition node_shape (node : FilterNode) : result QueryError unit :=
  let 'mkNode kind op property literal boolean children := node in
  let leafEmpty := beq property [] && bool_decide (op = FilterComparisonInvalid)
                   && bool_decide (literal = zeroLiteral) && negb boolean in
  let nchildren := length children in
  match kind with
  | FilterBooleanConstant =>
      if negb (beq property []) || negb (bool_decide (op = FilterComparisonInvalid))
         || negb (bool_decide (literal = zeroLiteral)) || negb (nchildren =? 0)%nat
      then Err (invalidFilter "invalid boolean node shape") else Ok tt
  | FilterCompare =>
      if negb (validFilterProperty property) || bool_decide (op = FilterComparisonInvalid)
         || boolean || negb (nchildren =? 0)%nat
      then Err (invalidFilter "invalid comparison node shape")
      else
        match NewFilterLiteral (fl_kind literal) (fl_text literal) with
        | Ok _ => Ok tt
        | Err e => Err e
        end
  | FilterIsNull | FilterIsNotNull =>
      if negb (validFilterProperty property) || negb (bool_decide (op = FilterComparisonInvalid))
         || negb (bool_decide (literal = zeroLiteral)) || boolean || negb (nchildren =? 0)%nat
      then Err (invalidFilter "invalid null node shape") else Ok tt
  | FilterAnd | FilterOr | FilterNot =>
      if negb leafEmpty
         || (bool_decide (kind = FilterNot) && negb (nchildren =? 1)%nat)
         || (negb (bool_decide (kind = FilterNot)) && (nchildren <? 2)%nat)
      then Err (invalidFilter "invalid logical node shape") else Ok tt
  | FilterLike | FilterIn | FilterBetween | FilterSpatial | FilterTemporal => Err unsupportedFilter
  | FilterInvalid => Err (invalidFilter "invalid filter node kind")
  end.

Definition is_logical (k : FilterKind) : bool :=
  match k with FilterAnd | FilterOr | FilterNot => true | _ => false end.

(** validateFilterNode; the budget is threaded through the calls. *)
Fixpoint validateFilterNode (node : FilterNode) (depth : Z) (budget : filterBudget)
    : result QueryError filterBudget :=
  let 'mkNode kind op property literal boolean children := node in
  if (MaxFilterDepth <? depth) || (MaxFilterNodes <=? b_nodes budget) then
    Err (invalidFilter "filter exceeds its depth or node limit")
  else
    let nodes := b_nodes budget + 1 in
    let bytes := b_bytes budget in
    if (MaxFilterPropertyBytes <? blen property) || (MaxFilterBytes - bytes <? blen property) then
      Err (invalidFilter "filter property exceeds its byte limit")
    else
      let bytes := bytes + blen property in
      if MaxFilterBytes - bytes <? blen (fl_text literal) then
        Err (invalidFilter "filter exceeds its byte limit")
      else
        let bytes := bytes + blen (fl_text literal) in
        check? node_shape node in
        if is_logical kind then
          rfold (fun child b => validateFilterNode child (depth + 1) b) children
            (mkBudget nodes bytes)
        else Ok (mkBudget nodes bytes).

Fixpoint cloneFilterNode (node : FilterNode) : FilterNode :=
  let 'mkNode kind op property literal boolean children := node in
  mkNode kind op property literal boolean (map cloneFilterNode children).

Definition NewFilterExpression (root : FilterNode) : result QueryError FilterExpression :=
  let? _ := validateFilterNode root 1 (mkBudget 0 0) in
  Ok (mkExpression (cloneFilterNode root) true).

Definition Expression_Validate (f : FilterExpression) : result QueryError unit :=
  if negb (fe_valid f) then Err (invalidFilter "uninitialized filter expression")
  else let? _ := validateFilterNode (fe_root f) 1 (mkBudget 0 0) in Ok tt.

Definition Root (f : FilterExpression) : FilterNode := cloneFilterNode (fe_root f).

Definition Clone (f : FilterExpression) : FilterExpression :=
  mkExpression (cloneFilterNode (fe_root f)) (fe_valid f).

(** ** The catalog of queryable properties *)

Inductive QueryableType :=
| QueryableInvalid | QueryableString | QueryableInteger | QueryableNumber | QueryableBoolean
| QueryableDate | QueryableTimestamp.

#[export] Instance QueryableType_eq_dec : EqDecision QueryableType.
Proof. solve_decision. Defined.

Record FeatureQueryable := mkQueryable {
  fq_name : gostring; fq_type : QueryableType; fq_nullable : bool
}.

Record FeatureQueryables := mkQueryables {
  qs_fields : list FeatureQueryable; qs_valid : bool
}.

Definition validateQueryableBounds (fields : list FeatureQueryable) : result QueryError unit :=
  if MaxQueryableFields <? blen fields then Err (invalidFilter "queryables exceed the field limit")
  else
    let? _ := rfold (fun field total =>
                if (MaxQueryableNameBytes <? blen (fq_name field))
                   || (MaxQueryableTotalNameBytes - total <? blen (fq_name field))
                then Err (invalidFilter "queryables exceed the name byte limit")
                else Ok (total + blen (fq_name field))) fields 0 in
    Ok tt.

Definition validateQueryableFields (fields : list FeatureQueryable) : result QueryError unit :=
  check? validateQueryableBounds fields in
  let? _ := rfold (fun field seen =>
              if negb (validFilterProperty (fq_name field))
                 || bool_decide (fq_type field = QueryableInvalid)
              then Err (invalidFilter "invalid queryable metadata")
              else if bool_decide (fq_name field ∈ seen)
              then Err (invalidFilter "duplicate queryable name")
              else Ok ({[fq_name field]} ∪ seen)) fields (∅ : gset gostring) in
  Ok tt.

Definition queryable_le (a b : FeatureQueryable) : Prop := string_le (fq_name a) (fq_name b).

#[export] Instance queryable_le_dec (a b : FeatureQueryable) : Decision (queryable_le a b).
Proof. unfold queryable_le. apply _. Defined.

Definition NewFeatureQueryables (fields : list FeatureQueryable)
    : result QueryError FeatureQueryables :=
  check? validateQueryableFields fields in
  Ok (mkQueryables (merge_sort queryable_le fields) true).

Definition Queryables_Validate (q : FeatureQueryables) : result QueryError unit :=
  if negb (qs_valid q) then Err (invalidFilter "uninitialized queryables catalog")
  else validateQueryableFields (qs_fields q).

Fixpoint lookup_field (fields : list FeatureQueryable) (name : gostring)
    : option FeatureQueryable :=
  match fields with
  | [] => None
  | field :: fields' => if beq (fq_name field) name then Some field else lookup_field fields' name
  end.

Definition Queryables_Lookup (q : FeatureQueryables) (name : gostring) : option FeatureQueryable :=
  lookup_field (qs_fields q) name.

Record ResolvedFeatureFilter := mkResolved {
  rf_expression : FilterExpression; rf_queryables : FeatureQueryables
}.

(** The literal type a comparison with a queryable of the given type admits. *)
Definition compatible (t : QueryableType) (k : FilterScalarType) : bool :=
  match t with
  | QueryableString => bool_decide (k = FilterString)
  | QueryableInteger | QueryableNumber => bool_decide (k = FilterNumber)
  | QueryableBoolean => bool_decide (k = FilterBoolean)
  | QueryableDate => bool_decide (k = FilterDate)
  | QueryableTimestamp => bool_decide (k = FilterTimestamp)
  | QueryableInvalid => false
  end.

Definition resolve_leaf (node : FilterNode) (catalog : FeatureQueryables)
    : result QueryError unit :=
  match n_kind node with
  | FilterCompare | FilterIsNull | FilterIsNotNull =>
      match Queryables_Lookup catalog (n_property node) with
      | None => Err (invalidFilter "unknown queryable property")
      | Some field =>
          if bool_decide (n_kind node = FilterCompare)
             && negb (compatible (fq_type field) (fl_kind (n_literal node)))
          then Err (invalidFilter "comparison literal type does not match queryable")
          else Ok tt
      end
  | _ => Ok tt
  end.

Fixpoint resolveFilterNode (node : FilterNode) (catalog : FeatureQueryables)
    : result QueryError unit :=
  let 'mkNode _ _ _ _ _ children := node in
  check? resolve_leaf node catalog in
  rfold (fun child _ => resolveFilterNode child catalog) children tt.

Definition ResolveFeatureFilter (expression : FilterExpression) (queryables : FeatureQueryables)
    : result QueryError ResolvedFeatureFilter :=
  check? Queryables_Validate queryables in
  check? Expression_Validate expression in
  check? resolveFilterNode (fe_root expression) queryables in
  let? catalog := NewFeatureQueryables (qs_fields queryables) in
  Ok (mkResolved (Clone expression) catalog).

(** ** Induction over nodes *)

Section Node_ind.
Context (P : FilterNode -> Prop).
Context (Hnode : forall k o p l b cs, Forall P cs -> P (mkNode k o p l b cs)).

Fixpoint FilterNode_ind' (n : FilterNode) : P n :=
  let 'mkNode k o p l b cs := n in
  Hnode k o p l b cs
    ((fix go (cs : list FilterNode) : Forall P cs :=
        match cs with
        | [] => Forall_nil_2 P
        | c :: cs' => Forall_cons_2 P c cs' (FilterNode_ind' c) (go cs')
        end) cs).

End Node_ind.

(** ** What a valid node is

    The number of nodes, the bytes of properties and literals, the depth, and a
    predicate on every node of the tree. *)

Fixpoint node_count (n : FilterNode) : Z :=
  let 'mkNode _ _ _ _ _ cs := n in 1 + foldr (fun c a => node_count c + a) 0 cs.

Fixpoint node_bytes (n : FilterNode) : Z :=
  let 'mkNode _ _ p l _ cs := n in
  blen p + blen (fl_text l) + foldr (fun c a => node_bytes c + a) 0 cs.

Fixpoint node_depth (n : FilterNode) : Z :=
  let 'mkNode _ _ _ _ _ cs := n in 1 + foldr (fun c a => Z.max (node_depth c) a) 0 cs.

Fixpoint every_node (f : FilterNode -> Prop) (n : FilterNode) : Prop :=
  let 'mkNode _ _ _ _ _ cs := n in f n /\ foldr (fun c P => every_node f c /\ P) True cs.

Definition node_ok (n : FilterNode) : Prop :=
  node_shape n = Ok tt /\ blen (n_property n) <= MaxFilterPropertyBytes.

(** The declarative content of the budgeted validation. *)
Record admissible (n : FilterNode) : Prop := {
  adm_nodes : every_node node_ok n;
  adm_depth : node_depth n <= MaxFilterDepth;
  adm_count : node_count n <= MaxFilterNodes;
  adm_bytes : node_bytes n <= MaxFilterBytes
}.

Lemma node_count_pos (n : FilterNode) : 1 <= node_count n.
Proof.
  induction n as [k o p l b cs IH] using FilterNode_ind'. cbn [node_count].
  enough (0 <= foldr (fun c a => node_count c + a) 0 cs) by lia.
  induction IH as [|c cs Hc _ IHl]; cbn [foldr]; lia.
Qed.

Lemma node_bytes_nonneg (n : FilterNode) : 0 <= node_bytes n.
Proof.
  induction n as [k o p l b cs IH] using FilterNode_ind'. cbn [node_bytes].
  pose proof (blen_nonneg p). pose proof (blen_nonneg (fl_text l)).
  enough (0 <= foldr (fun c a => node_bytes c + a) 0 cs) by lia.
  induction IH as [|c cs Hc _ IHl]; cbn [foldr]; lia.
Qed.

Lemma children_nonneg (cs : list FilterNode) :
  0 <= foldr (fun c a => node_count c + a) 0 cs /\ 0 <= foldr (fun c a => node_bytes c + a) 0 cs
  /\ 0 <= foldr (fun c a => Z.max (node_depth c) a) 0 cs.
Proof.
  induction cs as [|c cs IH]; cbn [foldr]; [lia|].
  pose proof (node_count_pos c). pose proof (node_bytes_nonneg c). lia.
Qed.

(** Validation starting at a depth with a partly consumed budget. *)
Definition valid_from (n : FilterNode) (d : Z) (b b' : filterBudget) : Prop :=
  every_node node_ok n /\ d + node_depth n - 1 <= MaxFilterDepth
  /\ b_nodes b + node_count n <= MaxFilterNodes /\ b_bytes b + node_bytes n <= MaxFilterBytes
  /\ b' = mkBudget (b_nodes b + node_count n) (b_bytes b + node_bytes n).

Lemma validate_children (cs : list FilterNode) (d : Z) (b b' : filterBudget) :
  Forall (fun c => forall b b', validateFilterNode c (d + 1) b = Ok b'
                                <-> valid_from c (d + 1) b b') cs ->
  d <= MaxFilterDepth -> b_nodes b <= MaxFilterNodes -> b_bytes b <= MaxFilterBytes ->
  rfold (fun c b => validateFilterNode c (d + 1) b) cs b = Ok b'
  <-> foldr (fun c P => every_node node_ok c /\ P) True cs
      /\ d + foldr (fun c a => Z.max (node_depth c) a) 0 cs <= MaxFilterDepth
      /\ b_nodes b + foldr (fun c a => node_count c + a) 0 cs <= MaxFilterNodes
      /\ b_bytes b + foldr (fun c a => node_bytes c + a) 0 cs <= MaxFilterBytes
      /\ b' = mkBudget (b_nodes b + foldr (fun c a => node_count c + a) 0 cs)
                (b_bytes b + foldr (fun c a => node_bytes c + a) 0 cs).
Proof.
  intros Hcs Hd. revert b. induction Hcs as [|c cs Hc _ IH]; intros b Hn Hb; cbn [rfold foldr].
  - rewrite !Z.add_0_r. destruct b; cbn [b_nodes b_bytes] in *. naive_solver lia.
  - rewrite rbind_Ok. setoid_rewrite Hc. unfold valid_from.
    pose proof (node_count_pos c). pose proof (node_bytes_nonneg c). split.
    + intros (b1 & (Hok & Hdep & Hcnt & Hby & ->) & Hrest).
      apply IH in Hrest as (? & ? & ? & ? & ->); cbn [b_nodes b_bytes] in *; try lia.
      split_and!; try done; try lia. f_equal; lia.
    + intros ((? & ?) & Hdep & Hcnt & Hby & ->).
      pose proof (children_nonneg cs).
      eexists. split; [split_and!; done || lia|].
      apply IH; cbn [b_nodes b_bytes]; try lia. split_and!; try done; try lia. f_equal; lia.
Qed.

Lemma node_shape_leaf (n : FilterNode) :
  node_shape n = Ok tt -> is_logical (n_kind n) = false -> n_children n = [].
Proof.
  destruct n as [k o p l b cs]. unfold node_shape. cbn [n_kind n_children].
  destruct k; cbn [is_logical]; try done; intros H _;
    apply if_Err_Ok in H as [H _]; bool_props; by destruct cs; naive_solver.
Qed.

Lemma logical_children {A : Type} (n : FilterNode) (f : FilterNode -> A -> result QueryError A) (a : A) :
  node_shape n = Ok tt ->
  (if is_logical (n_kind n) then rfold f (n_children n) a else Ok a) = rfold f (n_children n) a.
Proof.
  intros Hs. destruct (is_logical (n_kind n)) eqn:E; [done|]. by rewrite node_shape_leaf.
Qed.

Lemma validateFilterNode_spec (n : FilterNode) :
  forall d b b', validateFilterNode n d b = Ok b' <-> valid_from n d b b'.
Proof.
  induction n as [k o p l bo cs IH] using FilterNode_ind'. intros d b b'.
  cbn [validateFilterNode]. rewrite !if_Err_Ok, rbind_unit.
  rewrite !orb_false_iff, !Z.ltb_ge, Z.leb_gt. unfold valid_from.
  cbn [every_node node_depth node_count node_bytes].
  change (node_ok (mkNode k o p l bo cs))
    with (node_shape (mkNode k o p l bo cs) = Ok tt /\ blen p <= MaxFilterPropertyBytes).
  pose proof (blen_nonneg p). pose proof (blen_nonneg (fl_text l)). pose proof (children_nonneg cs).
  destruct (node_shape (mkNode k o p l bo cs)) as [[]|] eqn:Es; [|naive_solver].
  pose proof (logical_children _ (fun c b => validateFilterNode c (d + 1) b)
                (mkBudget (b_nodes b + 1) (b_bytes b + blen p + blen (fl_text l))) Es) as Hl.
  cbn [n_kind n_children] in Hl. rewrite Hl. clear Hl.
  assert (Forall (fun c => forall b b', validateFilterNode c (d + 1) b = Ok b'
                                        <-> valid_from c (d + 1) b b') cs) as IH'.
  { eapply Forall_impl; [exact IH|]. intros c Hc b1 b1'. apply Hc. }
  split.
  - intros ([? ?] & [? ?] & ? & _ & Hc).
    apply validate_children in Hc as (? & ? & ? & ? & ->); cbn [b_nodes b_bytes] in *; try done; try lia.
    split_and!; try done; try lia. f_equal; lia.
  - intros (([_ ?] & ?) & ? & ? & ? & ->). split_and!; try done; try lia.
    apply validate_children; cbn [b_nodes b_bytes]; try done; try lia.
    split_and!; try done; try lia. f_equal; lia.
Qed.

Lemma validateFilterNode_admissible (n : FilterNode) :
  (exists b, validateFilterNode n 1 (mkBudget 0 0) = Ok b) <-> admissible n.
Proof.
  setoid_rewrite validateFilterNode_spec. unfold valid_from. cbn [b_nodes b_bytes]. split.
  - intros (b & ? & ? & ? & ? & _). split; done || lia.
  - intros []. eexists. split_and!; try done; lia.
Qed.

Lemma cloneFilterNode_id (n : FilterNode) : cloneFilterNode n = n.
Proof.
  induction n as [k o p l b cs IH] using FilterNode_ind'. cbn. f_equal.
  induction IH; cbn; congruence.
Qed.

Lemma Expression_Validate_ok (f : FilterExpression) :
  Expression_Validate f = Ok tt <-> fe_valid f = true /\ admissible (fe_root f).
Proof.
  unfold Expression_Validate. rewrite <- validateFilterNode_admissible.
  destruct (fe_valid f), (validateFilterNode (fe_root f) 1 (mkBudget 0 0)); cbn; naive_solver.
Qed.


(** ** The catalog *)

Definition name_bytes (fields : list FeatureQueryable) : Z :=
  foldr (fun f a => blen (fq_name f) + a) 0 fields.

Definition field_ok (f : FeatureQueryable) : Prop :=
  blen (fq_name f) <= MaxQueryableNameBytes
  /\ validFilterProperty (fq_name f) = true /\ fq_type f <> QueryableInvalid.

Record catalog_ok (fields : list FeatureQueryable) : Prop := {
  cat_count : blen fields <= MaxQueryableFields;
  cat_bytes : name_bytes fields <= MaxQueryableTotalNameBytes;
  cat_fields : Forall field_ok fields;
  cat_names : NoDup (map fq_name fields)
}.

Lemma name_bytes_nonneg (fields : list FeatureQueryable) : 0 <= name_bytes fields.
Proof.
  induction fields as [|f fs IH]; cbn [name_bytes foldr]; [lia|].
  pose proof (blen_nonneg (fq_name f)). unfold name_bytes in IH. lia.
Qed.

Lemma bounds_loop (fields : list FeatureQueryable) (total : Z) :
  total <= MaxQueryableTotalNameBytes ->
  is_ok (rfold (fun field total =>
                if (MaxQueryableNameBytes <? blen (fq_name field))
                   || (MaxQueryableTotalNameBytes - total <? blen (fq_name field))
                then Err (invalidFilter "queryables exceed the name byte limit")
                else Ok (total + blen (fq_name field))) fields total) = true
  <-> total + name_bytes fields <= MaxQueryableTotalNameBytes
      /\ Forall (fun f => blen (fq_name f) <= MaxQueryableNameBytes) fields.
Proof.
  revert total. induction fields as [|f fs IH]; intros total Ht; cbn [rfold name_bytes foldr].
  - rewrite Forall_nil. cbn. naive_solver lia.
  - rewrite Forall_cons. fold (name_bytes fs). pose proof (name_bytes_nonneg fs).
    destruct (_ || _) eqn:E; bool_props.
    + cbn [rbind is_ok]. split; [done|]. intros (? & ? & ?). lia.
    + cbn [rbind]. rewrite IH by lia. naive_solver lia.
Qed.

Lemma names_loop (fields : list FeatureQueryable) (seen : gset gostring) :
  is_ok (rfold (fun field seen =>
              if negb (validFilterProperty (fq_name field))
                 || bool_decide (fq_type field = QueryableInvalid)
              then Err (invalidFilter "invalid queryable metadata")
              else if bool_decide (fq_name field ∈ seen)
              then Err (invalidFilter "duplicate queryable name")
              else Ok ({[fq_name field]} ∪ seen)) fields seen) = true
  <-> Forall (fun f => validFilterProperty (fq_name f) = true /\ fq_type f <> QueryableInvalid) fields
      /\ NoDup (map fq_name fields) /\ (forall x, x ∈ map fq_name fields -> x ∉ seen).
Proof.
  revert seen. induction fields as [|f fs IH]; intros seen; cbn [rfold map].
  - rewrite Forall_nil. cbn. split; [|done]. intros _. split_and!; [done|constructor|].
    intros x Hx. by apply elem_of_nil in Hx.
  - rewrite Forall_cons, NoDup_cons. setoid_rewrite elem_of_cons.
    destruct (negb _ || _) eqn:E1; [bool_props; cbn [rbind is_ok]; naive_solver congruence|].
    destruct (bool_decide (_ ∈ _)) eqn:E2; bool_props; cbn [rbind is_ok].
    + split; [done|]. intros (_ & _ & H). exfalso. eapply H; eauto.
    + rewrite IH. setoid_rewrite not_elem_of_union. setoid_rewrite not_elem_of_singleton.
      split.
      * intros (HF & Hnd & Hs). split_and!; [tauto|tauto|done| |done|].
        -- intros Hin. by destruct (Hs _ Hin).
        -- intros x [->|Hx]; [done|]. by apply Hs.
      * intros ([_ HF] & [Hni Hnd] & Hs). split_and!; [done|done|].
        intros x Hx. split; [intros ->; done|]. apply Hs. by right.
Qed.

Lemma validateQueryableFields_ok (fields : list FeatureQueryable) :
  validateQueryableFields fields = Ok tt <-> catalog_ok fields.
Proof.
  unfold validateQueryableFields, validateQueryableBounds.
  rewrite rbind_unit, if_Err_Ok, Z.ltb_ge.
  rewrite !rbind_discard, bounds_loop, names_loop by done. split.
  - intros ([? [? ?]] & Hf & ? & _). split; try done; try lia.
    unfold field_ok. rewrite Forall_and, Forall_and in *. tauto.
  - intros [? ? Hf ?]. unfold field_ok in Hf. rewrite !Forall_and in Hf. rewrite Forall_and.
    split_and!; try tauto; try lia. intros x _. apply not_elem_of_empty.
Qed.

Lemma catalog_ok_perm (fs gs : list FeatureQueryable) : fs ≡ₚ gs -> catalog_ok fs -> catalog_ok gs.
Proof.
  intros Hp [H1 H2 H3 H4]. split.
  - unfold blen in *. by rewrite <- (Permutation_length Hp).
  - enough (name_bytes gs = name_bytes fs) by lia. unfold name_bytes.
    clear -Hp. induction Hp; cbn [foldr]; lia.
  - by rewrite <- Hp.
  - by rewrite <- Hp.
Qed.

Lemma lookup_field_spec (fields : list FeatureQueryable) (name : gostring) (f : FeatureQueryable) :
  NoDup (map fq_name fields) ->
  lookup_field fields name = Some f <-> f ∈ fields /\ fq_name f = name.
Proof.
  induction fields as [|g gs IH]; cbn [map lookup_field]; intros Hnd.
  - split; [done|]. intros [H _]. by apply elem_of_nil in H.
  - apply NoDup_cons in Hnd as [Hni Hnd]. rewrite elem_of_cons.
    destruct (beq (fq_name g) name) eqn:E.
    + apply beq_true in E. split; [intros [= <-]; auto|].
      intros [[->|Hin] Hf]; [done|]. exfalso. apply Hni. rewrite E, <- Hf.
      apply list_elem_of_fmap. eauto.
    + apply beq_false in E. rewrite IH by done. naive_solver.
Qed.

Lemma lookup_field_perm (fs gs : list FeatureQueryable) (name : gostring) :
  NoDup (map fq_name fs) -> fs ≡ₚ gs -> lookup_field fs name = lookup_field gs name.
Proof.
  intros Hnd Hp. apply option_eq. intros f.
  assert (NoDup (map fq_name gs)) by by rewrite <- Hp.
  rewrite !lookup_field_spec by done. by rewrite Hp.
Qed.

#[export] Instance queryable_le_total : Total queryable_le.
Proof. intros a b. apply string_le_total. Qed.

#[export] Instance queryable_le_trans : Transitive queryable_le.
Proof. intros a b c. apply string_le_trans. Qed.

Lemma NewFeatureQueryables_ok (fields : list FeatureQueryable) (q : FeatureQueryables) :
  NewFeatureQueryables fields = Ok q ->
  catalog_ok fields /\ qs_fields q ≡ₚ fields /\ StronglySorted queryable_le (qs_fields q)
  /\ (forall name, Queryables_Lookup q name = lookup_field fields name)
  /\ Queryables_Validate q = Ok tt.
Proof.
  unfold NewFeatureQueryables. rewrite rbind_unit, validateQueryableFields_ok.
  intros [Hok [= <-]]. unfold Queryables_Validate, Queryables_Lookup. cbn [qs_fields qs_valid negb].
  pose proof (merge_sort_Permutation queryable_le fields) as Hp. split_and!.
  - done.
  - done.
  - apply StronglySorted_merge_sort; apply _.
  - intros name. symmetry. apply lookup_field_perm; [apply Hok|done].
  - apply validateQueryableFields_ok. by eapply catalog_ok_perm.
Qed.

(** ** Resolution *)

(** Every property a node names is in the catalog, with a literal of its type. *)
Definition resolves (catalog : FeatureQueryables) (n : FilterNode) : Prop :=
  n_kind n ∈ [FilterCompare; FilterIsNull; FilterIsNotNull] ->
  exists f, Queryables_Lookup catalog (n_property n) = Some f
            /\ (n_kind n = FilterCompare -> compatible (fq_type f) (fl_kind (n_literal n)) = true).

Lemma resolve_leaf_ok (n : FilterNode) (catalog : FeatureQueryables) :
  resolve_leaf n catalog = Ok tt <-> resolves catalog n.
Proof.
  unfold resolve_leaf, resolves. rewrite !elem_of_cons, elem_of_nil.
  destruct (n_kind n); try (split; [intros _ H; naive_solver|done]);
    (destruct (Queryables_Lookup catalog (n_property n)) as [f|];
       [|split; [done|intros H; destruct H as (? & [=] & _); auto]]); cbn;
    try (split; [intros _ _; by exists f|done]).
  destruct (compatible _ _) eqn:Ec; cbn; [split; [eauto|done]|]. split; [done|].
  intros H. destruct H as (f' & [= <-] & H); [by left|]. rewrite H in Ec; done.
Qed.

Lemma every_node_children (P : FilterNode -> Prop) (cs : list FilterNode) :
  foldr (fun c Q => every_node P c /\ Q) True cs <-> Forall (every_node P) cs.
Proof. induction cs; cbn; [by rewrite Forall_nil|]. by rewrite Forall_cons, IHcs. Qed.

Lemma resolveFilterNode_ok (n : FilterNode) (catalog : FeatureQueryables) :
  resolveFilterNode n catalog = Ok tt <-> every_node (resolves catalog) n.
Proof.
  induction n as [k o p l b cs IH] using FilterNode_ind'.
  cbn [resolveFilterNode every_node].
  rewrite rbind_unit, rfold_check, resolve_leaf_ok, every_node_children.
  apply and_iff_compat_l. rewrite !Forall_forall. rewrite Forall_forall in IH. naive_solver.
Qed.

Lemma ResolveFeatureFilter_ok (e : FilterExpression) (q : FeatureQueryables)
    (r : ResolvedFeatureFilter) :
  ResolveFeatureFilter e q = Ok r
  <-> qs_valid q = true /\ catalog_ok (qs_fields q)
      /\ fe_valid e = true /\ admissible (fe_root e)
      /\ every_node (resolves q) (fe_root e)
      /\ r = mkResolved e (mkQueryables (merge_sort queryable_le (qs_fields q)) true).
Proof.
  unfold ResolveFeatureFilter, Queryables_Validate, NewFeatureQueryables.
  rewrite rbind_unit, if_Err_Ok, negb_false_iff, validateQueryableFields_ok.
  rewrite 2 rbind_unit, Expression_Validate_ok, resolveFilterNode_ok, rbind_Ok.
  setoid_rewrite rbind_unit. setoid_rewrite validateQueryableFields_ok.
  assert (Clone e = e) as -> by (destruct e; unfold Clone; cbn; by rewrite cloneFilterNode_id).
  naive_solver.
Qed.

