(* ===== verification/Float64.v ===== *)
(** * Go's float64 by rank

    A finite float64 is its position in the order of the finite values: rank 0 is
    zero, rank [r] the [r]-th positive value (the bits of the number), and [- r]
    its opposite.  [float_value] is the exact rational value; the neighbour in the
    order is [math.Nextafter].  [big_Float64] is the conversion
    [new(big.Float).SetPrec(256).SetRat(x).Float64()] of math/big. *)

From Stdlib Require Export QArith Qround Lqa.
From Stdlib Require Import Qpower.
From S2P Require Import Prelude.

#[local] Open Scope Z_scope.

(** ** Powers of two and logarithms *)

Definition pow2 (t : Z) : Q := Qpower 2 t.

Lemma pow2_pos (t : Z) : (0 < pow2 t)%Q.
Proof. by apply Qpower_0_lt. Qed.

Lemma pow2_add (a b : Z) : (pow2 (a + b) == pow2 a * pow2 b)%Q.
Proof. by apply Qpower_plus. Qed.

Lemma pow2_Z (t : Z) : 0 <= t -> (pow2 t == inject_Z (2 ^ t))%Q.
Proof. intros H. unfold pow2. rewrite Zpower_Qpower by done. done. Qed.

Lemma pow2_lt (a b : Z) : a < b -> (pow2 a < pow2 b)%Q.
Proof. intros H. by apply Qpower_lt_compat_l. Qed.

Lemma pow2_le (a b : Z) : a <= b -> (pow2 a <= pow2 b)%Q.
Proof. intros H. by apply Qpower_le_compat_l. Qed.

(** The exponent of a positive rational: the largest [e] with [2 ^ e <= x]. *)
Definition Qlog2 (x : Q) : Z :=
  let e := Z.log2 (Qnum x) - Z.log2 (Zpos (Qden x)) in
  if Qle_bool (pow2 e) x then e else e - 1.

Lemma Qlog2_spec (x : Q) : (0 < x)%Q -> (pow2 (Qlog2 x) <= x < pow2 (Qlog2 x + 1))%Q.
Proof.
  intros Hx. destruct x as [n d]. unfold Qlog2. cbn [Qnum Qden].
  assert (0 < n)%Z as Hn by (unfold Qlt in Hx; cbn in Hx; lia).
  set (a := Z.log2 n). set (b := Z.log2 (Zpos d)).
  pose proof (Z.log2_spec n Hn) as [Hn1 Hn2]. pose proof (Z.log2_spec (Zpos d) ltac:(lia)) as [Hd1 Hd2].
  fold a in Hn1, Hn2. fold b in Hd1, Hd2.
  pose proof (Z.log2_nonneg n) as Ha. pose proof (Z.log2_nonneg (Zpos d)) as Hb. fold a in Ha. fold b in Hb.
  assert (inject_Z n == (n # d) * inject_Z (Zpos d))%Q as Hq by (unfold Qeq; cbn; lia).
  assert (pow2 a <= inject_Z n)%Q as H1 by (rewrite pow2_Z, <- Zle_Qle; lia).
  assert (inject_Z n < pow2 (a + 1))%Q as H2 by (rewrite pow2_Z, <- Zlt_Qlt; [done|lia]).
  assert (pow2 b <= inject_Z (Zpos d))%Q as H3 by (rewrite pow2_Z, <- Zle_Qle; lia).
  assert (inject_Z (Zpos d) < pow2 (b + 1))%Q as H4 by (rewrite pow2_Z, <- Zlt_Qlt; [done|lia]).
  assert (pow2 (a - b) * pow2 b == pow2 a)%Q as E1 by (rewrite <- pow2_add; by replace (a - b + b) with a by lia).
  assert (pow2 (a + 1) == 2 * pow2 a)%Q as E2 by (rewrite pow2_add, Qmult_comm; done).
  assert (pow2 (b + 1) == 2 * pow2 b)%Q as E3 by (rewrite pow2_add, Qmult_comm; done).
  assert (pow2 (a - b + 1) == 2 * pow2 (a - b))%Q as E4 by (rewrite pow2_add, Qmult_comm; done).
  assert (2 * pow2 (a - b - 1) == pow2 (a - b))%Q as E5.
  { rewrite <- (Z.sub_add 1 (a - b)) at 2. rewrite (pow2_add (a - b - 1) 1), Qmult_comm. done. }
  pose proof (pow2_pos (a - b)) as Hp. pose proof (pow2_pos b) as Hpb.
  set (x := (n # d)%Q) in *. set (D := inject_Z (Zpos d)) in *. set (P := pow2 (a - b)) in *.
  destruct (Qle_bool P x) eqn:Ele.
  - apply Qle_bool_iff in Ele. split; [done|]. rewrite E4. nra.
  - assert (~ P <= x)%Q as Hlt by (intros H%Qle_bool_iff; congruence). apply Qnot_le_lt in Hlt.
    replace (a - b - 1 + 1) with (a - b) by lia. split; [|done]. nra.
Qed.

(** ** The finite values *)

(** The value of a non-negative rank, from its exponent and mantissa fields. *)
Definition magnitude (r : Z) : Q :=
  let e := r / 2 ^ 52 in
  let m := r mod 2 ^ 52 in
  if e =? 0 then inject_Z m * pow2 (-1074) else inject_Z (2 ^ 52 + m) * pow2 (e - 1075).

Definition float_value (r : Z) : Q := if 0 <=? r then magnitude r else - magnitude (- r).

(** [math.MaxFloat64] *)
Definition max_rank : Z := 2047 * 2 ^ 52 - 1.

(** The largest rank whose value does not exceed [x >= 0]. *)
Definition rank_floor (x : Q) : Z :=
  if Qle_bool (pow2 (-1022)) x then
    let e := Qlog2 x in
    (e + 1023) * 2 ^ 52 + (Qfloor (x * pow2 (52 - e)) - 2 ^ 52)
  else Qfloor (x * pow2 1074).

(** ** Conversion *)

(** Round a positive rational to 256 significant bits, ties to even. *)
Definition round256 (x : Q) : Q :=
  let t := Qlog2 x - 255 in
  let y := (x * pow2 (- t))%Q in
  let k := Qfloor y in
  let up :=
    match Qcompare (y - inject_Z k) (1 # 2) with
    | Lt => false
    | Gt => true
    | Eq => Z.odd k
    end in
  inject_Z (if up then k + 1 else k) * pow2 t.

(** Round a non-negative rational to the nearest float64, ties to even. *)
Definition round_rank (y : Q) : Z :=
  let r := rank_floor y in
  match Qcompare (y - magnitude r) (magnitude (r + 1) - y) with
  | Lt => r
  | Gt => r + 1
  | Eq => if Z.odd r then r + 1 else r
  end.

Definition big_Float64 (x : Q) : Z :=
  match Qcompare x 0 with
  | Eq => 0
  | Gt => round_rank (round256 x)
  | Lt => - round_rank (round256 (- x))
  end.

(** ** The order of the finite values *)

(** The mantissa and the exponent of a non-negative rank. *)
Definition mantissa (r : Z) : Z := if r / 2 ^ 52 =? 0 then r mod 2 ^ 52 else 2 ^ 52 + r mod 2 ^ 52.
Definition ulp_exponent (r : Z) : Z := if r / 2 ^ 52 =? 0 then -1074 else r / 2 ^ 52 - 1075.

Lemma magnitude_parts (r : Z) : magnitude r = (inject_Z (mantissa r) * pow2 (ulp_exponent r))%Q.
Proof. unfold magnitude, mantissa, ulp_exponent. by destruct (r / 2 ^ 52 =? 0). Qed.

Lemma mantissa_bound (r : Z) : 0 <= mantissa r < 2 ^ 53.
Proof.
  unfold mantissa. pose proof (Z.mod_pos_bound r (2 ^ 52) ltac:(lia)). destruct (r / 2 ^ 52 =? 0); lia.
Qed.

(** Neighbours are one unit in the last place apart. *)
Lemma magnitude_succ (r : Z) :
  0 <= r -> (magnitude (r + 1) == magnitude r + pow2 (ulp_exponent r))%Q.
Proof.
  intros Hr. rewrite !magnitude_parts.
  assert (forall m t, inject_Z (m + 1) * pow2 t == inject_Z m * pow2 t + pow2 t)%Q as Hsame.
  { intros m t. rewrite inject_Z_plus. change (inject_Z 1) with 1%Q. ring. }
  assert (r mod 2 ^ 52 = 2 ^ 52 - 1 /\ (r + 1) / 2 ^ 52 = r / 2 ^ 52 + 1 /\ (r + 1) mod 2 ^ 52 = 0
          \/ (r + 1) / 2 ^ 52 = r / 2 ^ 52 /\ (r + 1) mod 2 ^ 52 = r mod 2 ^ 52 + 1) as Hcase.
  { pose proof (Z.div_mod r (2 ^ 52) ltac:(lia)). pose proof (Z.mod_pos_bound r (2 ^ 52) ltac:(lia)).
    destruct (Z.eq_dec (r mod 2 ^ 52) (2 ^ 52 - 1)) as [E|E].
    - left. split; [done|]. assert (r + 1 = 2 ^ 52 * (r / 2 ^ 52 + 1) + 0) as E2 by lia.
      split; [symmetry; apply (Z.div_unique _ _ _ 0)|symmetry; apply (Z.mod_unique _ _ (r / 2 ^ 52 + 1))]; lia.
    - right. split; [symmetry; apply (Z.div_unique _ _ _ (r mod 2 ^ 52 + 1))
                    |symmetry; apply (Z.mod_unique _ _ (r / 2 ^ 52))]; lia. }
  pose proof (Z.div_pos r (2 ^ 52) Hr ltac:(lia)) as Hd.
  unfold mantissa, ulp_exponent. destruct Hcase as [(Em & -> & ->)|[-> ->]].
  - rewrite (proj2 (Z.eqb_neq (r / 2 ^ 52 + 1) 0)) by lia. rewrite Em, Z.add_0_r.
    destruct (Z.eqb_spec (r / 2 ^ 52) 0) as [->|].
    + rewrite <- Hsame. change (0 + 1 - 1075) with (-1074). by rewrite Z.sub_add.
    + replace (r / 2 ^ 52 + 1 - 1075) with (1 + (r / 2 ^ 52 - 1075)) by lia.
      rewrite <- Hsame, pow2_add. change (2 ^ 52 + (2 ^ 52 - 1) + 1) with (2 ^ 52 * 2).
      rewrite inject_Z_mult. change (inject_Z 2) with 2%Q. change (pow2 1) with 2%Q. ring.
  - destruct (r / 2 ^ 52 =? 0); rewrite <- Hsame; [done|]. by rewrite Z.add_assoc.
Qed.

Lemma magnitude_lt_succ (r : Z) : 0 <= r -> (magnitude r < magnitude (r + 1))%Q.
Proof. intros Hr. rewrite (magnitude_succ r Hr). pose proof (pow2_pos (ulp_exponent r)). lra. Qed.

Lemma magnitude_lt (r s : Z) : 0 <= r < s -> (magnitude r < magnitude s)%Q.
Proof.
  intros [Hr Hs]. assert (exists n, s = r + 1 + Z.of_nat n) as [n ->] by (exists (Z.to_nat (s - r - 1)); lia).
  clear Hs. induction n as [|n IH]; [rewrite Z.add_0_r; by apply magnitude_lt_succ|].
  replace (r + 1 + Z.of_nat (S n)) with (r + 1 + Z.of_nat n + 1) by lia.
  pose proof (magnitude_lt_succ (r + 1 + Z.of_nat n) ltac:(lia)). lra.
Qed.

Lemma magnitude_le (r s : Z) : 0 <= r <= s -> (magnitude r <= magnitude s)%Q.
Proof.
  intros [Hr Hs]. destruct (Z.eq_dec r s) as [->|]; [lra|]. apply Qlt_le_weak, magnitude_lt. lia.
Qed.

Lemma magnitude_0 : (magnitude 0 == 0)%Q.
Proof. done. Qed.

Lemma float_value_lt (r s : Z) : r < s -> (float_value r < float_value s)%Q.
Proof.
  intros H. unfold float_value. pose proof magnitude_0 as H0.
  destruct (Z.leb_spec 0 r), (Z.leb_spec 0 s); try lia.
  - apply magnitude_lt. lia.
  - pose proof (magnitude_lt 0 (- r) ltac:(lia)). pose proof (magnitude_le 0 s ltac:(lia)). lra.
  - pose proof (magnitude_lt (- s) (- r) ltac:(lia)). lra.
Qed.

Lemma float_value_le (r s : Z) : r <= s -> (float_value r <= float_value s)%Q.
Proof.
  intros H. destruct (Z.eq_dec r s) as [->|]; [apply Qle_refl|]. apply Qlt_le_weak, float_value_lt. lia.
Qed.

Lemma float_value_opp (r : Z) : (float_value (- r) == - float_value r)%Q.
Proof.
  unfold float_value. destruct (Z.eq_dec r 0) as [->|]; [done|].
  destruct (Z.leb_spec 0 r), (Z.leb_spec 0 (- r)); try lia; rewrite ?Z.opp_involutive; lra.
Qed.

(** Comparing values is comparing ranks. *)
Lemma float_value_compare (r s : Z) : (float_value r ?= float_value s)%Q = (r ?= s)%Z.
Proof.
  destruct (Z.compare_spec r s) as [->|H|H].
  - by apply Qeq_alt.
  - by apply Qlt_alt, float_value_lt.
  - by apply Qgt_alt, float_value_lt.
Qed.

(** ** Correctness of the conversion *)

Lemma inject_Z_lt (a b : Z) : (inject_Z a < inject_Z b)%Q -> a < b.
Proof. by rewrite <- Zlt_Qlt. Qed.

Lemma Qfloor_spec (x : Q) : (inject_Z (Qfloor x) <= x < inject_Z (Qfloor x + 1))%Q.
Proof. split; [apply Qfloor_le|apply Qlt_floor]. Qed.

(** A rank is the floor of [x] when its magnitude and its unit bracket [x]. *)
Lemma rank_floor_normal (x : Q) :
  (pow2 (-1022) <= x)%Q ->
  let e := Qlog2 x in
  let r := (e + 1023) * 2 ^ 52 + (Qfloor (x * pow2 (52 - e)) - 2 ^ 52) in
  0 <= r /\ (magnitude r <= x < magnitude (r + 1))%Q.
Proof.
  intros Ex. pose proof (pow2_pos (-1022)) as H0.
  destruct (Qlog2_spec x ltac:(lra)) as [H1 H2]. cbn zeta. set (e := Qlog2 x) in *.
  assert (-1022 <= e) as He.
  { destruct (Z.le_gt_cases (-1022) e) as [|H]; [done|].
    pose proof (pow2_le (e + 1) (-1022) ltac:(lia)). lra. }
  pose proof (Qfloor_spec (x * pow2 (52 - e))) as [F1 F2]. set (k := Qfloor (x * pow2 (52 - e))) in *.
  assert (pow2 (52 - e) * pow2 (e - 52) == 1)%Q as Einv by (rewrite <- pow2_add; by replace (52 - e + (e - 52)) with 0 by lia).
  assert (pow2 e * pow2 (52 - e) == inject_Z (2 ^ 52))%Q as E1.
  { rewrite <- pow2_add. replace (e + (52 - e)) with 52 by lia. done. }
  assert (pow2 (e + 1) * pow2 (52 - e) == inject_Z (2 ^ 53))%Q as E2.
  { rewrite <- pow2_add. replace (e + 1 + (52 - e)) with 53 by lia. done. }
  pose proof (pow2_pos (52 - e)) as P1. pose proof (pow2_pos (e - 52)) as P2.
  assert (2 ^ 52 < k + 1) as K1 by (apply inject_Z_lt; nra).
  assert (k < 2 ^ 53) as K2 by (apply inject_Z_lt; nra).
  set (r := (e + 1023) * 2 ^ 52 + (k - 2 ^ 52)).
  assert (r / 2 ^ 52 = e + 1023 /\ r mod 2 ^ 52 = k - 2 ^ 52) as [Ed Em].
  { split; [symmetry; apply (Z.div_unique _ _ _ (k - 2 ^ 52))|symmetry; apply (Z.mod_unique _ _ (e + 1023))]; lia. }
  assert (0 <= r) as Hr by lia. split; [done|]. rewrite (magnitude_succ r Hr), magnitude_parts.
  unfold mantissa, ulp_exponent. rewrite Ed, Em, (proj2 (Z.eqb_neq (e + 1023) 0)) by lia.
  replace (2 ^ 52 + (k - 2 ^ 52)) with k by lia. replace (e + 1023 - 1075) with (e - 52) by lia.
  rewrite inject_Z_plus in F2. change (inject_Z 1) with 1%Q in F2. nra.
Qed.

Lemma rank_floor_subnormal (x : Q) :
  (0 <= x < pow2 (-1022))%Q ->
  let r := Qfloor (x * pow2 1074) in
  0 <= r /\ (magnitude r <= x < magnitude (r + 1))%Q.
Proof.
  intros [Hx Hlt]. cbn zeta. pose proof (Qfloor_spec (x * pow2 1074)) as [F1 F2].
  set (k := Qfloor (x * pow2 1074)) in *.
  assert (pow2 1074 * pow2 (-1074) == 1)%Q as Einv by (by rewrite <- pow2_add).
  assert (pow2 (-1022) * pow2 1074 == inject_Z (2 ^ 52))%Q as E1 by (by rewrite <- pow2_add).
  pose proof (pow2_pos 1074) as P1. pose proof (pow2_pos (-1074)) as P2.
  assert (0 < k + 1) as K1 by (apply inject_Z_lt; change (inject_Z 0) with 0%Q; nra).
  assert (k < 2 ^ 52) as K2 by (apply inject_Z_lt; nra).
  assert (k / 2 ^ 52 = 0 /\ k mod 2 ^ 52 = k) as [Ed Em] by (rewrite Z.div_small, Z.mod_small; lia).
  assert (0 <= k) as Hk by lia. split; [done|]. rewrite (magnitude_succ k Hk), magnitude_parts.
  unfold mantissa, ulp_exponent. rewrite Ed, Em. cbn [Z.eqb].
  rewrite inject_Z_plus in F2. change (inject_Z 1) with 1%Q in F2. nra.
Qed.

Lemma rank_floor_spec (x : Q) :
  (0 <= x)%Q -> 0 <= rank_floor x /\ (magnitude (rank_floor x) <= x < magnitude (rank_floor x + 1))%Q.
Proof.
  intros Hx. unfold rank_floor. destruct (Qle_bool (pow2 (-1022)) x) eqn:Ex.
  - apply rank_floor_normal. by apply Qle_bool_iff.
  - apply rank_floor_subnormal. split; [done|]. apply Qnot_le_lt. intros H%Qle_bool_iff. congruence.
Qed.

(** Rounding to 256 bits does not cross a float64. *)
Lemma round256_cases (x : Q) :
  (0 < x)%Q ->
  exists k, let t := Qlog2 x - 255 in
    2 ^ 255 <= k /\ (inject_Z k * pow2 t <= x < inject_Z (k + 1) * pow2 t)%Q
    /\ ((round256 x == inject_Z k * pow2 t)%Q
        \/ (round256 x == inject_Z (k + 1) * pow2 t)%Q /\ (inject_Z k * pow2 t < x)%Q).
Proof.
  intros Hx. destruct (Qlog2_spec x Hx) as [H1 H2]. unfold round256. set (e := Qlog2 x) in *. set (t := e - 255).
  pose proof (Qfloor_spec (x * pow2 (- t))) as [F1 F2]. set (k := Qfloor (x * pow2 (- t))) in *.
  assert (pow2 (- t) * pow2 t == 1)%Q as Einv by (rewrite <- pow2_add; by replace (- t + t) with 0 by lia).
  assert (pow2 e == inject_Z (2 ^ 255) * pow2 t)%Q as E1.
  { rewrite <- pow2_Z, <- pow2_add by lia. by replace (255 + t) with e by lia. }
  pose proof (pow2_pos (- t)) as P1. pose proof (pow2_pos t) as P2. exists k. cbn zeta. split_and!.
  - assert (2 ^ 255 < k + 1); [|lia]. apply inject_Z_lt. nra.
  - nra.
  - nra.
  - assert (inject_Z k < x * pow2 (- t) -> inject_Z k * pow2 t < x)%Q as Hstrict by (intros; nra).
    destruct (Qcompare _ _) eqn:Ec.
    + apply Qeq_alt in Ec. destruct (Z.odd k); [right|by left]. split; [done|]. apply Hstrict. lra.
    + by left.
    + apply Qgt_alt in Ec. right. split; [done|]. apply Hstrict. lra.
Qed.

(** A float64 is either a multiple of a unit or small compared to its 2^255-fold. *)
Lemma magnitude_unit (r t : Z) :
  (exists j, magnitude r == inject_Z j * pow2 t)%Q \/ (magnitude r < inject_Z (2 ^ 255) * pow2 t)%Q.
Proof.
  pose proof (mantissa_bound r) as Hm. rewrite magnitude_parts. set (m := mantissa r) in *. set (u := ulp_exponent r).
  destruct (Z.le_gt_cases t u) as [H|H].
  - left. exists (m * 2 ^ (u - t)). rewrite inject_Z_mult, <- pow2_Z, <- Qmult_assoc, <- pow2_add by lia.
    by replace (u - t + t) with u by lia.
  - right. rewrite <- pow2_Z, <- pow2_add by lia.
    assert (inject_Z m < inject_Z (2 ^ 53))%Q as Hm2 by (rewrite <- Zlt_Qlt; lia).
    rewrite <- pow2_Z in Hm2 by lia. pose proof (pow2_pos u).
    pose proof (pow2_lt (53 + u) (255 + t) ltac:(lia)) as Hp.
    rewrite (pow2_add 53 u) in Hp. nra.
Qed.

Lemma round256_lower (x : Q) (r : Z) :
  (0 < x)%Q -> (magnitude r <= x)%Q -> (magnitude r <= round256 x)%Q.
Proof.
  intros Hx Hr. destruct (round256_cases x Hx) as (k & Hk & [H1 H2] & Hy). cbn zeta in *.
  set (t := Qlog2 x - 255) in *. pose proof (pow2_pos t) as P.
  assert (magnitude r <= inject_Z k * pow2 t)%Q as H.
  { destruct (magnitude_unit r t) as [[j Ej]|Hs].
    - rewrite Ej in *. assert (j < k + 1) as Hj by (apply inject_Z_lt; nra).
      assert (inject_Z j <= inject_Z k)%Q by (rewrite <- Zle_Qle; lia). nra.
    - assert (inject_Z (2 ^ 255) <= inject_Z k)%Q by (rewrite <- Zle_Qle; lia). nra. }
  rewrite inject_Z_plus in Hy. change (inject_Z 1) with 1%Q in Hy. destruct Hy as [->|[-> _]]; nra.
Qed.

Lemma round256_upper (x : Q) (r : Z) :
  (0 < x)%Q -> (x <= magnitude r)%Q -> (round256 x <= magnitude r)%Q.
Proof.
  intros Hx Hr. destruct (round256_cases x Hx) as (k & Hk & [H1 H2] & Hy). cbn zeta in *.
  set (t := Qlog2 x - 255) in *. pose proof (pow2_pos t) as P.
  destruct Hy as [->|[-> Hlt]]; [lra|]. destruct (magnitude_unit r t) as [[j Ej]|Hs].
  - rewrite Ej in *. assert (k < j) as Hj by (apply inject_Z_lt; nra).
    assert (inject_Z (k + 1) <= inject_Z j)%Q by (rewrite <- Zle_Qle; lia). nra.
  - assert (inject_Z (2 ^ 255) <= inject_Z k)%Q by (rewrite <- Zle_Qle; lia). nra.
Qed.

(** Nor does rounding to the nearest float64. *)
Lemma magnitude_le_inv (r s : Z) : 0 <= s -> (magnitude r <= magnitude s)%Q -> r <= s.
Proof.
  intros Hs H. destruct (Z.le_gt_cases r s) as [|Hlt]; [done|]. pose proof (magnitude_lt s r ltac:(lia)). lra.
Qed.

Lemma round_rank_lower (y : Q) (s : Z) : 0 <= s -> (0 <= y)%Q -> (magnitude s <= y)%Q -> s <= round_rank y.
Proof.
  intros Hs Hy H. destruct (rank_floor_spec y Hy) as (Hg & G1 & G2). unfold round_rank. set (g := rank_floor y) in *.
  assert (s <= g).
  { destruct (Z.le_gt_cases s g) as [|Hlt]; [done|]. pose proof (magnitude_le (g + 1) s ltac:(lia)). lra. }
  destruct (Qcompare _ _); [destruct (Z.odd g)|..]; lia.
Qed.

Lemma round_rank_upper (y : Q) (s : Z) : 0 <= s -> (0 <= y)%Q -> (y <= magnitude s)%Q -> round_rank y <= s.
Proof.
  intros Hs Hy H. destruct (rank_floor_spec y Hy) as (Hg & G1 & G2). unfold round_rank. set (g := rank_floor y) in *.
  assert (g <= s) as Hle by (apply magnitude_le_inv; [done|lra]).
  destruct (Z.eq_dec g s) as [->|]; [|destruct (Qcompare _ _); [destruct (Z.odd g)|..]; lia].
  rewrite (proj1 (Qlt_alt _ _)); [lia|]. pose proof (magnitude_lt_succ s Hs). lra.
Qed.

Lemma round256_pos (x : Q) : (0 < x)%Q -> (0 <= round256 x)%Q.
Proof. intros Hx. pose proof (round256_lower x 0 Hx). rewrite magnitude_0 in *. apply H. lra. Qed.

Lemma positive_Float64 (x : Q) :
  (0 < x)%Q -> let r := round_rank (round256 x) in (float_value (r - 1) < x < float_value (r + 1))%Q.
Proof.
  intros Hx. cbn zeta. set (r := round_rank (round256 x)).
  pose proof (round256_pos x Hx) as Hp.
  assert (0 <= r) as Hr by (apply round_rank_lower; [done|done|by rewrite magnitude_0]).
  assert (forall s, 0 <= s -> float_value s = magnitude s) as Hv.
  { intros s Hs. unfold float_value. by rewrite (proj2 (Z.leb_le 0 s)). }
  split; apply Qnot_le_lt; intros H.
  - destruct (Z.eq_dec r 0) as [->|Hr0].
    { pose proof (float_value_lt (0 - 1) 0 ltac:(lia)) as Hlt. rewrite (Hv 0), magnitude_0 in Hlt by lia. lra. }
    rewrite Hv in H by lia. apply round256_upper in H; [|done].
    apply round_rank_upper in H; [|lia|done]. fold r in H. lia.
  - rewrite Hv in H by lia. apply round256_lower in H; [|done].
    apply round_rank_lower in H; [|lia|done]. fold r in H. lia.
Qed.

(** The converted value is [x] or one of its two neighbours: no float64 lies
    strictly between them. *)
Lemma big_Float64_near (x : Q) :
  (float_value (big_Float64 x - 1) < x < float_value (big_Float64 x + 1))%Q.
Proof.
  unfold big_Float64. destruct (Qcompare x 0) eqn:Ec.
  - apply Qeq_alt in Ec. pose proof (float_value_lt (0 - 1) 0 ltac:(lia)) as H1.
    pose proof (float_value_lt 0 (0 + 1) ltac:(lia)) as H2.
    change (float_value 0) with (magnitude 0) in *. rewrite magnitude_0 in *. rewrite Ec. done.
  - apply Qlt_alt in Ec. destruct (positive_Float64 (- x) ltac:(lra)) as [H1 H2].
    set (r := round_rank (round256 (- x))) in *.
    replace (- r - 1) with (- (r + 1)) by lia. replace (- r + 1) with (- (r - 1)) by lia.
    rewrite !float_value_opp. lra.
  - apply Qgt_alt in Ec. by apply positive_Float64.
Qed.
