(* ===== verification/Bytes.v ===== *)
(** * encoding/binary: integers as bytes

    Unsigned integers of a fixed width in both byte orders, as package encoding/binary
    reads and writes them, with the lemmas that one undoes the other. *)

From S2P Require Import Prelude.

#[local] Open Scope Z_scope.

Inductive byte_order := BigEndian | LittleEndian.

#[export] Instance byte_order_eq_dec : EqDecision byte_order.
Proof. solve_decision. Defined.

Fixpoint le_value (bs : gostring) : Z :=
  match bs with
  | [] => 0
  | b :: bs' => code b + 256 * le_value bs'
  end.

Fixpoint le_bytes (n : nat) (v : Z) : gostring :=
  match n with
  | O => []
  | S n' => byte_of (v mod 256) :: le_bytes n' (v / 256)
  end.

(** [order.Uint16], [Uint32] and [Uint64] of exactly the bytes they read. *)
Definition Uint (order : byte_order) (bs : gostring) : Z :=
  match order with LittleEndian => le_value bs | BigEndian => le_value (reverse bs) end.

(** [order.PutUint16], [PutUint32] and [PutUint64]. *)
Definition PutUint (order : byte_order) (n : nat) (v : Z) : gostring :=
  match order with LittleEndian => le_bytes n v | BigEndian => reverse (le_bytes n v) end.

(** The conversions [int32(u)] and [uint32(i)]. *)
Definition to_int32 (u : Z) : Z := if u <? 2 ^ 31 then u else u - 2 ^ 32.
Definition to_uint32 (i : Z) : Z := i mod 2 ^ 32.

Lemma length_le_bytes (n : nat) (v : Z) : length (le_bytes n v) = n.
Proof. revert v. induction n as [|n IH]; intros v; cbn; [done|]. by rewrite IH. Qed.

Lemma le_value_range (bs : gostring) : 0 <= le_value bs < 256 ^ Z.of_nat (length bs).
Proof.
  induction bs as [|b bs IH]; cbn [le_value length]; [done|].
  rewrite Nat2Z.inj_succ, Z.pow_succ_r by lia. pose proof (code_range b). lia.
Qed.

Lemma le_value_bytes (n : nat) (v : Z) : 0 <= v < 256 ^ Z.of_nat n -> le_value (le_bytes n v) = v.
Proof.
  revert v. induction n as [|n IH]; intros v Hv; cbn [le_value le_bytes]; [cbn in Hv; lia|].
  rewrite Nat2Z.inj_succ, Z.pow_succ_r in Hv by lia.
  rewrite code_byte_of by (apply Z.mod_pos_bound; lia).
  rewrite IH; [symmetry; rewrite Z.add_comm; by apply Z.div_mod|].
  split; [apply Z.div_pos; lia|]. apply Z.div_lt_upper_bound; lia.
Qed.

Lemma le_bytes_value (bs : gostring) : le_bytes (length bs) (le_value bs) = bs.
Proof.
  induction bs as [|b bs IH]; cbn [le_value le_bytes length]; [done|].
  pose proof (code_range b).
  rewrite (Z.mul_comm 256), Z_mod_plus_full, Z.mod_small, Z_div_plus_full, Z.div_small, byte_of_code by lia.
  by rewrite Z.add_0_l, IH.
Qed.

Lemma length_PutUint (order : byte_order) (n : nat) (v : Z) : length (PutUint order n v) = n.
Proof. destruct order; cbn [PutUint]; rewrite ?length_reverse; apply length_le_bytes. Qed.

Lemma Uint_range (order : byte_order) (bs : gostring) : 0 <= Uint order bs < 256 ^ Z.of_nat (length bs).
Proof.
  destruct order; cbn [Uint]; [rewrite <- (length_reverse bs)|]; apply le_value_range.
Qed.

Lemma Uint_PutUint (order : byte_order) (n : nat) (v : Z) :
  0 <= v < 256 ^ Z.of_nat n -> Uint order (PutUint order n v) = v.
Proof. intros H. destruct order; cbn [Uint PutUint]; rewrite ?reverse_involutive; by apply le_value_bytes. Qed.

Lemma PutUint_Uint (order : byte_order) (bs : gostring) : PutUint order (length bs) (Uint order bs) = bs.
Proof.
  destruct order; cbn [Uint PutUint]; [|apply le_bytes_value].
  rewrite <- (length_reverse bs), le_bytes_value. apply reverse_involutive.
Qed.

Lemma PutUint_Uint_length (order : byte_order) (n : nat) (bs : gostring) :
  length bs = n -> PutUint order n (Uint order bs) = bs.
Proof. intros <-. apply PutUint_Uint. Qed.

Lemma to_int32_uint32 (i : Z) : -2 ^ 31 <= i < 2 ^ 31 -> to_int32 (to_uint32 i) = i.
Proof.
  intros Hi. unfold to_int32, to_uint32. destruct (Z.ltb_spec i 0).
  - rewrite <- (Z_mod_plus_full i 1), Z.mod_small by lia. decide_ltb. lia.
  - rewrite Z.mod_small by lia. decide_ltb. done.
Qed.

Lemma to_uint32_range (i : Z) : 0 <= to_uint32 i < 256 ^ 4.
Proof. apply Z.mod_pos_bound. lia. Qed.

Lemma to_uint32_int32 (u : Z) : 0 <= u < 2 ^ 32 -> to_uint32 (to_int32 u) = u.
Proof.
  intros Hu. unfold to_int32, to_uint32. destruct (Z.ltb_spec u (2 ^ 31)); [apply Z.mod_small; lia|].
  rewrite <- (Z_mod_plus_full _ 1), Z.mod_small; lia.
Qed.

Lemma to_int32_range (u : Z) : 0 <= u < 2 ^ 32 -> -2 ^ 31 <= to_int32 u < 2 ^ 31.
Proof. intros Hu. unfold to_int32. destruct (Z.ltb_spec u (2 ^ 31)); lia. Qed.

(** ** Splitting a buffer *)

(** Two ways to cut the same bytes at the same place. *)
Lemma app_cut {A : Type} (a b c d : list A) : length a = length c -> a ++ b = c ++ d -> a = c /\ b = d.
Proof. apply app_inj_1. Qed.

Lemma slice_prefix {A : Type} (a b : list A) (n : nat) : length a = n -> slice (a ++ b) 0 n = a.
Proof. intros <-. unfold slice. rewrite Nat.sub_0_r, drop_0. by rewrite take_app_length. Qed.

Lemma slice_skip {A : Type} (a b : list A) (i j : nat) :
  (length a <= i <= j)%nat -> slice (a ++ b) i j = slice b (i - length a) (j - length a).
Proof.
  intros H. unfold slice. rewrite drop_app_ge by lia. f_equal. lia.
Qed.
