(* ===== verification/FloatArith.v ===== *)
(** * Go's float64 arithmetic

    Sums, differences and products of float64: the exact rational result rounded to the
    nearest value, ties to even, as IEEE 754 prescribes.  Values are finite, by the rank
    of Float64.v, infinite, or not a number; the two zeros are one value, since no
    operation here tells them apart.  The lemmas bound the rounding errors. *)

From Stdlib Require Import Qabs.
From S2P Require Import Prelude Float64.

#[local] Open Scope Z_scope.

Inductive fnum :=
| FFin (r : Z)
| FInf (negative : bool)
| FNaN.

(** The nearest float64 of a rational. *)
Definition round64 (x : Q) : fnum :=
  match Qcompare x 0 with
  | Eq => FFin 0
  | Gt => let r := round_rank x in if max_rank <? r then FInf false else FFin r
  | Lt => let r := round_rank (- x) in if max_rank <? r then FInf true else FFin (- r)
  end.

Definition fneg (x : fnum) : fnum :=
  match x with FFin r => FFin (- r) | FInf s => FInf (negb s) | FNaN => FNaN end.

Definition fadd (x y : fnum) : fnum :=
  match x, y with
  | FFin a, FFin b => round64 (float_value a + float_value b)
  | FInf s, FFin _ | FFin _, FInf s => FInf s
  | FInf s, FInf t => if eqb s t then FInf s else FNaN
  | _, _ => FNaN
  end.

Definition fsub (x y : fnum) : fnum := fadd x (fneg y).

Definition fmul (x y : fnum) : fnum :=
  match x, y with
  | FFin a, FFin b => round64 (float_value a * float_value b)
  | FInf s, FFin r | FFin r, FInf s => if r =? 0 then FNaN else FInf (xorb s (r <? 0))
  | FInf s, FInf t => FInf (xorb s t)
  | _, _ => FNaN
  end.

(** [math.Abs] *)
Definition fabs (x : fnum) : fnum :=
  match x with FFin r => FFin (Z.abs r) | FInf _ => FInf false | FNaN => FNaN end.

Definition ffinite (x : fnum) : bool := match x with FFin _ => true | _ => false end.

(** The comparison [x > y]. *)
Definition fgt (x y : fnum) : bool :=
  match x, y with
  | FFin a, FFin b => b <? a
  | FFin _, FInf s => s
  | FInf s, FFin _ => negb s
  | FInf s, FInf t => negb s && t
  | _, _ => false
  end.

Definition feq (x y : fnum) : bool :=
  match x, y with
  | FFin a, FFin b => a =? b
  | FInf s, FInf t => eqb s t
  | _, _ => false
  end.

Definition fge (x y : fnum) : bool := fgt x y || feq x y.

(** ** Values *)

Lemma float_value_nonneg (r : Z) : 0 <= r -> float_value r = magnitude r.
Proof. intros H. unfold float_value. by rewrite (proj2 (Z.leb_le 0 r)). Qed.

Lemma magnitude_nonneg (r : Z) : 0 <= r -> (0 <= magnitude r)%Q.
Proof. intros H. rewrite <- magnitude_0. by apply magnitude_le. Qed.

Lemma float_value_0 : (float_value 0 == 0)%Q.
Proof. rewrite float_value_nonneg by done. apply magnitude_0. Qed.

Lemma float_value_abs (r : Z) : (float_value (Z.abs r) == Qabs (float_value r))%Q.
Proof.
  destruct (Z.le_gt_cases 0 r) as [H|H].
  - rewrite Z.abs_eq by done. rewrite Qabs_pos; [done|]. rewrite <- float_value_0. by apply float_value_le.
  - rewrite Z.abs_neq by lia. rewrite float_value_opp, Qabs_neg; [done|].
    rewrite <- float_value_0. apply float_value_le. lia.
Qed.

(** ** Rounding errors *)

(** The unit in the last place is at most [2 ^ -52] of the value, or the smallest
    positive number. *)
Lemma ulp_bound (r : Z) :
  0 <= r -> (pow2 (ulp_exponent r) <= pow2 (-52) * magnitude r)%Q \/ ulp_exponent r = -1074 /\ (magnitude r < pow2 (-1022))%Q.
Proof.
  intros Hr. rewrite magnitude_parts. unfold mantissa, ulp_exponent.
  destruct (Z.eqb_spec (r / 2 ^ 52) 0) as [E|E].
  - right. split; [done|]. pose proof (Z.mod_pos_bound r (2 ^ 52) ltac:(lia)) as Hm.
    assert (pow2 (-1022) == inject_Z (2 ^ 52) * pow2 (-1074))%Q as ->.
    { rewrite <- pow2_Z by lia. by rewrite <- pow2_add. }
    pose proof (pow2_pos (-1074)). assert (inject_Z (r mod 2 ^ 52) < inject_Z (2 ^ 52))%Q by (rewrite <- Zlt_Qlt; lia). nra.
  - left. pose proof (Z.mod_pos_bound r (2 ^ 52) ltac:(lia)) as Hm. set (p := pow2 (r / 2 ^ 52 - 1075)).
    assert (0 < p)%Q by apply pow2_pos.
    assert (pow2 (-52) * inject_Z (2 ^ 52) == 1)%Q as H1.
    { rewrite <- pow2_Z by lia. by rewrite <- pow2_add. }
    assert (inject_Z (2 ^ 52) <= inject_Z (2 ^ 52 + r mod 2 ^ 52))%Q as H2 by (rewrite <- Zle_Qle; lia).
    pose proof (pow2_pos (-52)). set (a := inject_Z (2 ^ 52 + _)) in *. set (b := inject_Z (2 ^ 52)) in *.
    set (c := pow2 (-52)) in *. assert (1 <= c * a)%Q by nra. nra.
Qed.

Definition eps : Q := 1 # 9007199254740992.
Definition eta : Q := pow2 (-1075).

Lemma pow2_eps : (pow2 (-52) == 2 * eps)%Q.
Proof. done. Qed.

Lemma pow2_eta : (pow2 (-1074) == 2 * eta)%Q.
Proof. unfold eta. change (-1074) with (1 + -1075). by rewrite pow2_add. Qed.

(** Rounding to the nearest is off by at most half a unit. *)
Lemma round_rank_error (y : Q) :
  (0 <= y)%Q -> 0 <= round_rank y /\ (Qabs (magnitude (round_rank y) - y) <= eps * y \/ Qabs (magnitude (round_rank y) - y) <= eta /\ y < pow2 (-1022))%Q.
Proof.
  intros Hy. destruct (rank_floor_spec y Hy) as (Hg & G1 & G2). set (g := rank_floor y) in *.
  pose proof (magnitude_succ g Hg) as Es. set (s := pow2 (ulp_exponent g)) in *.
  assert (0 <= round_rank y) as Hr.
  { apply round_rank_lower; [done|done|]. by rewrite magnitude_0. }
  split; [done|].
  assert (2 * Qabs (magnitude (round_rank y) - y) <= s)%Q as He.
  { unfold round_rank. fold g. destruct (Qcompare _ _) eqn:Ec; [apply Qeq_alt in Ec|apply Qlt_alt in Ec|apply Qgt_alt in Ec].
    - destruct (Z.odd g); [rewrite Qabs_pos by lra|rewrite Qabs_neg by lra]; lra.
    - rewrite Qabs_neg by lra. lra.
    - rewrite Qabs_pos by lra. lra. }
  destruct (ulp_bound g Hg) as [Hu|[Hu Hs]].
  - left. fold s in Hu. rewrite pow2_eps in Hu. assert (0 < eps)%Q by done. nra.
  - right. unfold s in He. rewrite Hu, pow2_eta in He. split; [lra|].
    (* the floor of a number above the smallest normal one is above it too *)
    apply Qnot_le_lt. intros Hn. assert (magnitude (2 ^ 52) == pow2 (-1022))%Q as E52 by done.
    assert (2 ^ 52 <= g); [|pose proof (magnitude_le (2 ^ 52) g ltac:(lia)); lra].
    destruct (Z.le_gt_cases (2 ^ 52) g) as [|Hlt]; [done|]. pose proof (magnitude_le (g + 1) (2 ^ 52) ltac:(lia)). lra.
Qed.

(** What is known of a rounded number. *)
Definition close (v x : Q) : Prop := (Qabs (v - x) <= eps * Qabs x \/ Qabs (v - x) <= eta /\ Qabs x < pow2 (-1022))%Q.

Lemma round64_error (x : Q) (r : Z) : round64 x = FFin r -> close (float_value r) x.
Proof.
  unfold round64, close. destruct (Qcompare x 0) eqn:Ec; [apply Qeq_alt in Ec|apply Qlt_alt in Ec|apply Qgt_alt in Ec].
  - intros [= <-]. left. rewrite Ec, float_value_0. done.
  - destruct (round_rank_error (- x)) as [Hr He]; [lra|]. set (s := round_rank (- x)) in *.
    destruct (max_rank <? s); [done|]. intros [= <-]. rewrite float_value_opp, float_value_nonneg by done.
    assert (- magnitude s - x == - (magnitude s - - x))%Q as -> by ring. rewrite Qabs_opp, (Qabs_neg x) by lra. exact He.
  - destruct (round_rank_error x) as [Hr He]; [lra|]. set (s := round_rank x) in *.
    destruct (max_rank <? s); [done|]. intros [= <-]. rewrite float_value_nonneg, (Qabs_pos x) by (done || lra). exact He.
Qed.

(** Rounding keeps the sign. *)
Lemma round64_sign (x : Q) (r : Z) : round64 x = FFin r -> ((0 < x)%Q -> 0 <= r) /\ ((x < 0)%Q -> r <= 0) /\ ((x == 0)%Q -> r = 0).
Proof.
  unfold round64. destruct (Qcompare x 0) eqn:Ec; [apply Qeq_alt in Ec|apply Qlt_alt in Ec|apply Qgt_alt in Ec].
  - intros [= <-]. split_and!; intros; done || lra.
  - destruct (round_rank_error (- x)) as [Hr He]; [lra|]. destruct (max_rank <? _); [done|].
    intros [= <-]. split_and!; intros; lia || lra.
  - destruct (round_rank_error x) as [Hr He]; [lra|]. destruct (max_rank <? _); [done|].
    intros [= <-]. split_and!; intros; lia || lra.
Qed.

Lemma float_multiple (r : Z) : exists n, (float_value r == inject_Z n * pow2 (-1074))%Q.
Proof.
  assert (forall s, 0 <= s -> exists n, (magnitude s == inject_Z n * pow2 (-1074))%Q) as Hm.
  { intros s Hs. rewrite magnitude_parts. set (e := ulp_exponent s). assert (-1074 <= e) as He.
    { unfold e, ulp_exponent. pose proof (Z.div_pos s (2 ^ 52) Hs ltac:(lia)). destruct (Z.eqb_spec (s / 2 ^ 52) 0); lia. }
    exists (mantissa s * 2 ^ (e + 1074)). rewrite inject_Z_mult, <- pow2_Z, <- Qmult_assoc, <- pow2_add by lia.
    by replace (e + 1074 + -1074) with e by lia. }
  unfold float_value. destruct (Z.leb_spec 0 r); [by apply Hm|]. destruct (Hm (- r)) as [n E]; [lia|]. exists (- n). rewrite E, inject_Z_opp. ring.
Qed.

(** A multiple of the smallest positive number that is below the normal range is a
    float64 itself. *)
Lemma round64_small (x : Q) (n r : Z) :
  (x == inject_Z n * pow2 (-1074))%Q -> (Qabs x < pow2 (-1022))%Q -> round64 x = FFin r -> (float_value r == x)%Q.
Proof.
  intros En Hx Hr. pose proof (pow2_pos (-1074)) as Hp.
  assert (pow2 (-1022) == inject_Z (2 ^ 52) * pow2 (-1074))%Q as E by (rewrite <- pow2_Z by lia; by rewrite <- pow2_add).
  assert (Z.abs n < 2 ^ 52) as Hn.
  { apply inject_Z_lt. rewrite En, Qabs_Qmult, (Qabs_pos (pow2 (-1074))), E in Hx by lra.
    change (Qabs (inject_Z n)) with (inject_Z (Z.abs n)) in Hx. nra. }
  assert (forall k, 0 <= k < 2 ^ 52 -> (magnitude k == inject_Z k * pow2 (-1074))%Q) as Hk.
  { intros k Hk. unfold magnitude. rewrite Z.div_small, Z.mod_small by lia. done. }
  assert (forall k y, 0 <= k < 2 ^ 52 -> (y == inject_Z k * pow2 (-1074))%Q -> round_rank y = k) as Hrk.
  { intros k y Hk1 Hy. rewrite <- Hk in Hy by done. pose proof (magnitude_nonneg k ltac:(lia)).
    pose proof (round_rank_lower y k ltac:(lia) ltac:(lra) ltac:(lra)). pose proof (round_rank_upper y k ltac:(lia) ltac:(lra) ltac:(lra)). lia. }
  unfold round64 in Hr. destruct (Qcompare x 0) eqn:Ec; [apply Qeq_alt in Ec|apply Qlt_alt in Ec|apply Qgt_alt in Ec].
  - injection Hr as <-. rewrite Ec. apply float_value_0.
  - assert (n < 0) as Hneg by (apply inject_Z_lt; change (inject_Z 0) with 0%Q; nra).
    rewrite (Hrk (- n) (- x)%Q) in Hr; [|lia|rewrite inject_Z_opp, En; ring].
    destruct (max_rank <? - n); [done|]. injection Hr as <-. rewrite float_value_opp, float_value_nonneg, Hk by lia.
    rewrite inject_Z_opp, En. ring.
  - assert (0 < n) as Hpos by (apply inject_Z_lt; change (inject_Z 0) with 0%Q; nra).
    rewrite (Hrk n x) in Hr; [|lia|done]. destruct (max_rank <? n); [done|]. injection Hr as <-.
    rewrite float_value_nonneg, Hk by lia. by rewrite En.
Qed.

(** Sums and differences have a relative error only. *)
Lemma fadd_error (a b r : Z) :
  fadd (FFin a) (FFin b) = FFin r ->
  (Qabs (float_value r - (float_value a + float_value b)) <= eps * Qabs (float_value a + float_value b))%Q.
Proof.
  cbn [fadd]. intros Hr. destruct (round64_error _ _ Hr) as [He|[He Hs]]; [done|].
  destruct (float_multiple a) as [n En], (float_multiple b) as [m Em].
  set (x := (float_value a + float_value b)%Q) in *.
  rewrite (round64_small x (n + m) r); [|unfold x; rewrite En, Em, inject_Z_plus; ring|done|done].
  assert (x - x == 0)%Q as -> by ring. pose proof (Qabs_nonneg x). change (Qabs 0) with 0%Q. assert (0 < eps)%Q by done. nra.
Qed.

Lemma fsub_error (a b r : Z) :
  fsub (FFin a) (FFin b) = FFin r ->
  (Qabs (float_value r - (float_value a - float_value b)) <= eps * Qabs (float_value a - float_value b))%Q.
Proof.
  unfold fsub. cbn [fneg]. intros H%fadd_error.
  assert (float_value a + float_value (- b) == float_value a - float_value b)%Q as E by (rewrite float_value_opp; ring).
  by rewrite E in H.
Qed.

Lemma fsub_sign (a b r : Z) : fsub (FFin a) (FFin b) = FFin r -> (0 < r -> b < a) /\ (r < 0 -> a < b).
Proof.
  unfold fsub. cbn [fneg fadd]. intros (H1 & H2 & H3)%round64_sign.
  assert (float_value a + float_value (- b) == float_value a - float_value b)%Q as E by (rewrite float_value_opp; ring).
  rewrite E in H1, H2, H3. destruct (Z.lt_trichotomy a b) as [H|[->|H]]; [pose proof (float_value_lt a b H)| |pose proof (float_value_lt b a H)].
  - specialize (H2 ltac:(lra)). lia.
  - specialize (H3 ltac:(lra)). lia.
  - specialize (H1 ltac:(lra)). lia.
Qed.

Lemma fmul_error (a b r : Z) :
  fmul (FFin a) (FFin b) = FFin r -> close (float_value r) (float_value a * float_value b).
Proof. apply round64_error. Qed.
