(* ===== verification/Plane.v ===== *)
(** * Segments and rectangles of the plane

    Exact geometry over the rationals: the orientation determinant, the points of a
    segment, when two segments share a point, and when a segment meets a rectangle. *)

From Stdlib Require Import QArith Lqa.
From S2P Require Import Prelude.

#[local] Open Scope Z_scope.

(** Twice the signed area of a triangle. *)
Definition det (a b c : Q * Q) : Q :=
  ((fst a - fst c) * (snd b - snd c) - (snd a - snd c) * (fst b - fst c))%Q.

(** ** Segments *)

(** The point at parameter [t] of a segment. *)
Definition along (a b : Q * Q) (t : Q) : Q * Q := ((fst a + t * (fst b - fst a))%Q, (snd a + t * (snd b - snd a))%Q).

Definition same (p q : Q * Q) : Prop := (fst p == fst q)%Q /\ (snd p == snd q)%Q.

Definition unit_interval (t : Q) : Prop := (0 <= t <= 1)%Q.

Definition on_segment (a b q : Q * Q) : Prop := exists t, unit_interval t /\ same q (along a b t).

Definition between (x y z : Q) : Prop := ((x <= z <= y) \/ (y <= z <= x))%Q.

Definition in_box (a b c : Q * Q) : Prop := between (fst a) (fst b) (fst c) /\ between (snd a) (snd b) (snd c).

Lemma between_param (x y z : Q) : ~ (x == y)%Q -> between x y z -> unit_interval ((z - x) / (y - x)).
Proof.
  intros Hne Hb. unfold unit_interval. assert (~ y - x == 0)%Q as Hd by lra.
  assert ((z - x) / (y - x) * (y - x) == z - x)%Q as E by (field; done). set (t := ((z - x) / (y - x))%Q) in *.
  destruct (Qlt_le_dec x y) as [H|H]; destruct Hb; split; nra.
Qed.

Lemma param_between (x y t : Q) : unit_interval t -> between x y (x + t * (y - x)).
Proof. unfold unit_interval, between. intros H. destruct (Qlt_le_dec x y); [left|right]; split; nra. Qed.

(** A point of the line that lies in the box of the segment lies on the segment. *)
Lemma on_segment_iff (a b c : Q * Q) : (det a b c == 0)%Q /\ in_box a b c <-> on_segment a b c.
Proof.
  destruct a as [ax ay], b as [bx b_y], c as [cx cy]. unfold det, in_box, on_segment, same, along. cbn [fst snd]. split.
  - intros [Hd [Hx Hy]]. destruct (Qeq_dec ax bx) as [Ex|Nx]; [destruct (Qeq_dec ay b_y) as [Ey|Ny]|].
    + exists 0%Q. unfold unit_interval, between in *. split; [lra|]. split; lra.
    + pose proof (between_param ay b_y cy Ny Hy) as Ht. assert (~ b_y - ay == 0)%Q as Hn by lra.
      assert ((cy - ay) / (b_y - ay) * (b_y - ay) == cy - ay)%Q as E by (field; done). set (t := ((cy - ay) / (b_y - ay))%Q) in *.
      exists t. split; [done|]. split; [|lra]. assert (t * (bx - ax) == 0)%Q as -> by (rewrite Ex; ring). unfold between in Hx. lra.
    + pose proof (between_param ax bx cx Nx Hx) as Ht. assert (~ bx - ax == 0)%Q as Hn by lra.
      assert ((cx - ax) / (bx - ax) * (bx - ax) == cx - ax)%Q as E by (field; done). set (t := ((cx - ax) / (bx - ax))%Q) in *.
      exists t. split; [done|]. split; [lra|]. apply (Qmult_inj_r _ _ (bx - ax) Hn).
      assert ((ay + t * (b_y - ay)) * (bx - ax) == ay * (bx - ax) + (t * (bx - ax)) * (b_y - ay))%Q as -> by ring. rewrite E. lra.
  - intros (t & Ht & Ex & Ey). split; [rewrite Ex, Ey; ring|]. pose proof (param_between ax bx t Ht) as H1. pose proof (param_between ay b_y t Ht) as H2.
    unfold between in *. rewrite Ex, Ey. done.
Qed.

(** The determinant along a segment. *)
Lemma det_along (a b c d : Q * Q) (t : Q) : (det a b (along c d t) == (1 - t) * det a b c + t * det a b d)%Q.
Proof. unfold det, along. cbn [fst snd]. ring. Qed.

#[export] Instance same_equivalence : Equivalence same.
Proof.
  split.
  - intros p. by split.
  - intros p q [H1 H2]. split; by symmetry.
  - intros p q r [H1 H2] [H3 H4]. split; etransitivity; done.
Qed.

#[export] Instance det_proper : Proper (same ==> same ==> same ==> Qeq) det.
Proof. intros [] [] [E1 E2] [] [] [E3 E4] [] [] [E5 E6]. unfold det. cbn [fst snd] in *. by rewrite E1, E2, E3, E4, E5, E6. Qed.

#[export] Instance on_segment_proper : Proper (same ==> same ==> same ==> iff) on_segment.
Proof.
  assert (forall a a' b b' q q', same a a' -> same b b' -> same q q' -> on_segment a b q -> on_segment a' b' q') as H.
  { intros a a' b b' q q' [E1 E2] [E3 E4] [E5 E6] (t & Ht & [F1 F2]). exists t. split; [done|]. unfold same, along in *. cbn [fst snd] in *.
    rewrite <- E1, <- E2, <- E3, <- E4, <- E5, <- E6. done. }
  intros a a' Ha b b' Hb q q' Hq. split; apply H; done || by symmetry.
Qed.

(** Where a value changes its sign between two numbers. *)
Lemma sign_change (x y : Q) :
  (x * y < 0)%Q -> unit_interval (x / (x - y)) /\ (x / (x - y) * (x - y) == x)%Q.
Proof.
  intros Hxy. assert (~ x - y == 0)%Q as Hn by (intros E; assert (x == y)%Q as Exy by lra; rewrite Exy in Hxy; nra).
  assert (x / (x - y) * (x - y) == x)%Q as E by (field; done). split; [|done]. unfold unit_interval.
  set (t := (x / (x - y))%Q) in *. destruct (Qlt_le_dec 0 x) as [H|H].
  - assert (y < 0)%Q by nra. split; nra.
  - assert (x < 0)%Q by (destruct (Qeq_dec x 0) as [E0|]; [rewrite E0 in Hxy; lra|lra]). assert (0 < y)%Q by nra. split; nra.
Qed.

(** Segments that cross properly, each one separating the ends of the other. *)
Lemma proper_crossing (a b c d : Q * Q) :
  (det a b c * det a b d < 0)%Q -> (det c d a * det c d b < 0)%Q -> exists q, on_segment a b q /\ on_segment c d q.
Proof.
  intros H12 H34. destruct (sign_change _ _ H12) as [Ht Et]. destruct (sign_change _ _ H34) as [Hs Es].
  set (t := (det a b c / (det a b c - det a b d))%Q) in *. set (s := (det c d a / (det c d a - det c d b))%Q) in *.
  exists (along a b s). split; [exists s; by split|]. exists t. split; [done|].
  assert (det c d a - det c d b == - (det a b c - det a b d))%Q as ED by (unfold det; ring).
  set (D := (det a b c - det a b d)%Q) in *. rewrite ED in Es.
  assert (~ D == 0)%Q as HD by (intros E; unfold D in E; assert (det a b c == det a b d)%Q as E' by lra; rewrite E' in H12; nra).
  unfold same, along. cbn [fst snd]. split; apply (Qmult_inj_r _ _ D HD).
  - assert ((fst a + s * (fst b - fst a)) * D == fst a * D + - (s * - D) * (fst b - fst a))%Q as -> by ring.
    assert ((fst c + t * (fst d - fst c)) * D == fst c * D + (t * D) * (fst d - fst c))%Q as -> by ring.
    rewrite Es, Et. unfold D, det. ring.
  - assert ((snd a + s * (snd b - snd a)) * D == snd a * D + - (s * - D) * (snd b - snd a))%Q as -> by ring.
    assert ((snd c + t * (snd d - snd c)) * D == snd c * D + (t * D) * (snd d - snd c))%Q as -> by ring.
    rewrite Es, Et. unfold D, det. ring.
Qed.

(** On the line of a segment a point has a parameter. *)
Lemma collinear_param (a b c : Q * Q) :
  ~ same a b -> (det a b c == 0)%Q -> exists g, same c (along a b g).
Proof.
  destruct a as [ax ay], b as [bx b_y], c as [cx cy]. unfold same, det, along. cbn [fst snd]. intros Hne Hd.
  destruct (Qeq_dec ax bx) as [Ex|Nx].
  - assert (~ b_y - ay == 0)%Q as Hn by (intros E; apply Hne; split; lra).
    exists ((cy - ay) / (b_y - ay))%Q. assert ((cy - ay) / (b_y - ay) * (b_y - ay) == cy - ay)%Q as E by (field; done).
    set (t := ((cy - ay) / (b_y - ay))%Q) in *. split; [|lra].
    assert (t * (bx - ax) == 0)%Q as -> by (rewrite Ex; ring). apply (Qmult_inj_r _ _ (b_y - ay) Hn). rewrite <- Ex in Hd. lra.
  - assert (~ bx - ax == 0)%Q as Hn by lra.
    exists ((cx - ax) / (bx - ax))%Q. assert ((cx - ax) / (bx - ax) * (bx - ax) == cx - ax)%Q as E by (field; done).
    set (t := ((cx - ax) / (bx - ax))%Q) in *. split; [lra|]. apply (Qmult_inj_r _ _ (bx - ax) Hn).
    assert ((ay + t * (b_y - ay)) * (bx - ax) == ay * (bx - ax) + (t * (bx - ax)) * (b_y - ay))%Q as -> by ring. rewrite E. lra.
Qed.

Create HintDb plane.

Lemma on_segment_first (a b : Q * Q) : on_segment a b a.
Proof. exists 0%Q. split; [unfold unit_interval; lra|]. unfold same, along. cbn [fst snd]. split; ring. Qed.

Lemma on_segment_last (a b : Q * Q) : on_segment a b b.
Proof. exists 1%Q. split; [unfold unit_interval; lra|]. unfold same, along. cbn [fst snd]. split; ring. Qed.

#[export] Hint Resolve on_segment_first on_segment_last : plane.

(** One end of two segments on a line lies on the other segment when they meet. *)
Lemma collinear_meet (a b c d q : Q * Q) :
  (det a b c == 0)%Q -> (det a b d == 0)%Q -> on_segment a b q -> on_segment c d q ->
  on_segment a b c \/ on_segment a b d \/ on_segment c d a.
Proof.
  intros H1 H2 (s & Hs & Eq1) (t & Ht & Eq2).
  assert (same a b \/ ~ same a b) as [Es|Ns].
  { unfold same. destruct (Qeq_dec (fst a) (fst b)), (Qeq_dec (snd a) (snd b)); tauto. }
  { right. right. exists t. split; [done|]. rewrite <- Eq2, Eq1. destruct Es as [E1 E2]. unfold same, along. cbn [fst snd]. rewrite E1, E2. split; ring. }
  destruct (collinear_param a b c Ns H1) as [g Eg]. destruct (collinear_param a b d Ns H2) as [h Eh].
  assert (s == (1 - t) * g + t * h)%Q as E.
  { rewrite Eq1 in Eq2. destruct Eq2 as [Ex Ey], Eg as [Gx Gy], Eh as [Hx Hy]. unfold along in *. cbn [fst snd] in *.
    rewrite Gx, Hx in Ex. rewrite Gy, Hy in Ey. unfold same in Ns.
    destruct (Qeq_dec (fst a) (fst b)) as [E1|N1].
    - assert (~ snd b - snd a == 0)%Q as N2 by (intros E2; apply Ns; split; lra). apply (Qmult_inj_r _ _ _ N2). lra.
    - assert (~ fst b - fst a == 0)%Q as N2 by lra. apply (Qmult_inj_r _ _ _ N2). lra. }
  unfold unit_interval in *.
  destruct (Qlt_le_dec g 0) as [G|G]; [|destruct (Qlt_le_dec 1 g) as [G'|G']; [|left; exists g; by unfold unit_interval]];
  (destruct (Qlt_le_dec h 0) as [F|F]; [|destruct (Qlt_le_dec 1 h) as [F'|F']; [|right; left; exists h; by unfold unit_interval]]);
  try (exfalso; destruct (Qlt_le_dec 0 t); [nra|]; assert (t == 0)%Q as E0 by lra; rewrite E0 in E; lra).
  all: right; right; rewrite Eg, Eh; assert (g * h < 0)%Q as Hgh by nra; destruct (sign_change g h Hgh) as [Hu E0];
    exists (g / (g - h))%Q; split; [done|]; set (u := (g / (g - h))%Q) in *;
    assert (g + u * (h - g) == 0)%Q as E1 by lra; unfold same, along; cbn [fst snd].
  all: split; [transitivity (fst a + (g + u * (h - g)) * (fst b - fst a))%Q; [rewrite E1; ring|ring]|
               transitivity (snd a + (g + u * (h - g)) * (snd b - snd a))%Q; [rewrite E1; ring|ring]].
Qed.

(** An end that is not strictly on one side is on the other segment. *)
Lemma touching_meet (a b c d q : Q * Q) :
  (0 <= det a b c * det a b d)%Q -> on_segment a b q -> on_segment c d q ->
  on_segment a b c \/ on_segment a b d \/ on_segment c d a.
Proof.
  intros Hp Hq (t & Ht & Et). assert (det a b q == 0)%Q as Hd by (by apply on_segment_iff in Hq as [? _]).
  rewrite Et, det_along in Hd. set (o1 := det a b c) in *. set (o2 := det a b d) in *. unfold unit_interval in Ht.
  destruct (Qeq_dec o1 0) as [E1|N1], (Qeq_dec o2 0) as [E2|N2].
  - apply (collinear_meet a b c d q); try done. by exists t.
  - assert (t == 0)%Q as E0 by (rewrite E1 in Hd; assert (t * o2 == 0)%Q as H by lra; apply Qmult_integral in H as [?|?]; done).
    left. assert (same c q) as ->; [|done]. rewrite Et. unfold same, along. cbn [fst snd]. rewrite E0. split; ring.
  - assert (1 - t == 0)%Q as E0 by (rewrite E2 in Hd; assert ((1 - t) * o1 == 0)%Q as H by lra; apply Qmult_integral in H as [?|?]; done).
    right; left. assert (same d q) as ->; [|done]. rewrite Et. unfold same, along. cbn [fst snd]. assert (t == 1)%Q as -> by lra. split; ring.
  - exfalso. destruct (Qlt_le_dec 0 o1) as [P|P].
    + assert (0 < o2)%Q by (destruct (Qlt_le_dec 0 o2); [done|nra]). nra.
    + assert (o1 < 0)%Q by lra. assert (o2 < 0)%Q by (destruct (Qlt_le_dec o2 0); [done|nra]). nra.
Qed.

(** Two segments share a point exactly when an end of one lies on the other or they
    cross properly. *)
Lemma segments_meet (a b c d : Q * Q) :
  on_segment a b c \/ on_segment a b d \/ on_segment c d a \/ on_segment c d b \/
  ((det a b c * det a b d < 0)%Q /\ (det c d a * det c d b < 0)%Q) <->
  exists q, on_segment a b q /\ on_segment c d q.
Proof.
  split.
  - intros [H|[H|[H|[H|[H1 H2]]]]]; [exists c|exists d|exists a|exists b|by apply proper_crossing]; auto with plane.
  - intros (q & Hq1 & Hq2). destruct (Qlt_le_dec (det a b c * det a b d) 0) as [N1|P1].
    + destruct (Qlt_le_dec (det c d a * det c d b) 0) as [N2|P2]; [by auto 10|].
      destruct (touching_meet c d a b q P2 Hq2 Hq1) as [?|[?|?]]; auto.
    + destruct (touching_meet a b c d q P1 Hq1 Hq2) as [?|[?|?]]; auto.
Qed.

(** ** Rectangles *)

(** A quantity that is [x] at parameter 0 and [y] at parameter 1. *)
Definition lerp (xy : Q * Q) (t : Q) : Q := (fst xy + t * (snd xy - fst xy))%Q.

(** Going from 0 to 1, where all quantities are non-negative, either all are so from
    the start, or at some point all are and one of them is zero. *)
Lemma clip (l : list (Q * Q)) :
  Forall (fun xy => (0 <= snd xy)%Q) l ->
  Forall (fun xy => (0 <= fst xy)%Q) l \/
  exists t, unit_interval t /\ Forall (fun xy => (0 <= lerp xy t)%Q) l /\ Exists (fun xy => (lerp xy t == 0)%Q) l.
Proof.
  unfold unit_interval, lerp.
  assert (forall x y t, 0 <= t <= 1 -> 0 <= x + t * (y - x) -> 0 <= y -> forall u, t <= u <= 1 -> 0 <= x + u * (y - x))%Q as Hlater.
  { intros x y t Ht Hx Hy u Hu. destruct (Qlt_le_dec x y); nra. }
  assert (forall x y, x < 0 -> 0 <= y -> exists t, (0 <= t <= 1 /\ x + t * (y - x) == 0))%Q as Hzero.
  { intros x y Hx Hy. exists (- x / (y - x))%Q. assert (~ y - x == 0)%Q by lra.
    assert (- x / (y - x) * (y - x) == - x)%Q as E by (field; done). set (t := (- x / (y - x))%Q) in *. split; [split; nra|lra]. }
  induction 1 as [|[x y] l Hy Hl IH]; [by left|]. cbn [fst snd] in *. destruct IH as [IH|(t & Ht & IH & He)].
  - destruct (Qlt_le_dec x 0) as [Hx|Hx]; [right|left; by constructor].
    destruct (Hzero x y Hx Hy) as (t & Ht & E). exists t. split; [done|]. split; [|by left].
    constructor; [cbn; lra|]. rewrite Forall_forall in *. intros xy Hi. apply (Hlater _ _ 0%Q); try lra; [|by apply Hl]. specialize (IH xy Hi). lra.
  - right. destruct (Qlt_le_dec (x + t * (y - x)) 0) as [Hx|Hx].
    + assert (x < 0)%Q as Hx0 by (destruct (Qlt_le_dec x 0); [done|nra]).
      destruct (Hzero x y Hx0 Hy) as (u & Hu & E). exists u. split; [done|]. split; [|by left].
      assert (t <= u)%Q as Htu by (destruct (Qlt_le_dec u t); [nra|done]).
      constructor; [cbn; lra|]. rewrite Forall_forall in *. intros xy Hi. apply (Hlater _ _ t); try lra; [by apply IH|by apply Hl].
    + exists t. split; [done|]. split; [by constructor|by right].
Qed.

Section Rectangle.
Context (lx ly hx hy : Q).
Hypothesis Hx : (lx <= hx)%Q.
Hypothesis Hy : (ly <= hy)%Q.

Definition in_rect (p : Q * Q) : Prop := (lx <= fst p <= hx)%Q /\ (ly <= snd p <= hy)%Q.

(** The edges of the rectangle. *)
Definition rect_edges : list ((Q * Q) * (Q * Q)) :=
  [((lx, ly), (hx, ly)); ((hx, ly), (hx, hy)); ((hx, hy), (lx, hy)); ((lx, hy), (lx, ly))].

Lemma edge_in_rect (e : (Q * Q) * (Q * Q)) (q : Q * Q) : In e rect_edges -> on_segment (fst e) (snd e) q -> in_rect q.
Proof.
  intros He (t & Ht & E1 & E2). unfold in_rect. unfold unit_interval, along in *.
  destruct He as [<-|[<-|[<-|[<-|[]]]]]; cbn [fst snd] in *; rewrite E1, E2; nra.
Qed.

Lemma rect_boundary (q : Q * Q) :
  in_rect q -> (fst q == lx \/ fst q == hx \/ snd q == ly \/ snd q == hy)%Q ->
  Exists (fun e => on_segment (fst e) (snd e) q) rect_edges.
Proof.
  unfold in_rect. intros [H1 H2] Hb. unfold rect_edges. rewrite !Exists_cons. cbn [fst snd].
  assert (forall a b, (det a b q == 0)%Q -> in_box a b q -> on_segment a b q) as Hs by (intros a b ? ?; apply on_segment_iff; by split).
  unfold in_box, between, det in Hs. destruct Hb as [E|[E|[E|E]]]; [do 3 right; left|right; left|left|do 2 right; left]; apply Hs; cbn [fst snd];
    try (rewrite E; ring); split; lra.
Qed.

(** A segment meets a rectangle when an end is in it or it crosses an edge. *)
Lemma segment_rect (p r : Q * Q) :
  (exists q, on_segment p r q /\ in_rect q) <->
  in_rect p \/ in_rect r \/ Exists (fun e => exists q, on_segment p r q /\ on_segment (fst e) (snd e) q) rect_edges.
Proof.
  split.
  - intros (q & (t & Ht & Eq) & Hq). unfold in_rect in *.
    destruct (clip [(fst p - lx, fst q - lx); (hx - fst p, hx - fst q); (snd p - ly, snd q - ly); (hy - snd p, hy - snd q)]%Q) as [H|(u & Hu & H & He)].
    + rewrite !Forall_cons, Forall_nil. cbn [fst snd]. repeat split; lra.
    + left. rewrite !Forall_cons, Forall_nil in H. cbn [fst snd] in H. repeat split; lra.
    + right. right. set (z := along p q u). rewrite !Forall_cons, Forall_nil in H. unfold lerp in H, He. cbn [fst snd] in H.
      assert (in_rect z) as Hz by (unfold in_rect, z, along; cbn [fst snd]; repeat split; lra).
      assert (fst z == lx \/ fst z == hx \/ snd z == ly \/ snd z == hy)%Q as Hb.
      { rewrite !Exists_cons, Exists_nil in He. unfold z, along. cbn [fst snd] in He |- *.
        destruct He as [E|[E|[E|[E|[]]]]]; [left|right; left|right; right; left|right; right; right]; lra. }
      eapply Exists_impl; [by apply rect_boundary|]. intros e Hz'. exists z. split; [|done].
      exists (u * t)%Q. unfold unit_interval in *. split; [split; nra|]. destruct Eq as [E1 E2]. unfold z, same, along in *. cbn [fst snd] in *.
      rewrite E1, E2. split; ring.
  - intros [H|[H|H]]; [exists p; auto with plane|exists r; auto with plane|]. apply Exists_exists in H as (e & He & q & Hq1 & Hq2).
    exists q. split; [done|]. apply (edge_in_rect e); [by apply list_elem_of_In|done].
Qed.
End Rectangle.
