(* ===== verification/Decimal.v ===== *)
(** * Decimal numerals

    The texts that the filter compilers bind as exact decimal parameters, and the
    number a database reads from them. *)

From S2P Require Import Prelude GoText Float64.

#[local] Open Scope Z_scope.

(** The power of ten of a scale, as the denominator of a rational. *)
Definition pow10 (scale : Z) : positive := Z.to_pos (10 ^ scale).

(** ** Reading *)

(** The parts before and after the first point. *)
Fixpoint split_point (s : gostring) : gostring * gostring :=
  match s with
  | [] => ([], [])
  | c :: s' => if Ascii.eqb c "." then ([], s') else let '(a, b) := split_point s' in (c :: a, b)
  end.

(** The number of digits with an optional sign and an optional point. *)
Definition numeral (s : gostring) : option Q :=
  let '(negative, t) := match s with "-"%char :: t => (true, t) | _ => (false, s) end in
  let '(int, frac) := split_point t in
  match parse_digits (int ++ frac) 0 with
  | Some m => Some ((if negative then - m else m) # pow10 (blen frac))
  | None => None
  end.

(** ** Writing *)

(** Zeros in front, up to [n] digits. *)
Definition pad_zeros (n : Z) (digits : gostring) : gostring := replicate (Z.to_nat (n - blen digits)) "0"%char ++ digits.

(** The decimal text of the unscaled integer [bound], as the MySQL provider writes
    it. *)
Definition decimal_text (scale bound : Z) : gostring :=
  let digits := pad_zeros (scale + 1) (FormatUint (Z.abs bound)) in
  let point := Z.to_nat (blen digits - scale) in
  let digits := if 0 <? scale then take point digits ++ B "." ++ drop point digits else digits in
  if bound <? 0 then B "-" ++ digits else digits.

(** [FloatString] of a [big.Rat]: rounded half away from zero to [prec] digits after the
    point. *)
Definition FloatString (x : Q) (prec : Z) : gostring :=
  let a := Z.abs (Qnum x) in
  let b := Zpos (Qden x) in
  let p := 10 ^ prec in
  let r := (a mod b) * p in
  let r' := r / b + (if b <=? r mod b + r mod b then 1 else 0) in
  let '(q, r) := if p <=? r' then (a / b + 1, r' - p) else (a / b, r') in
  (if Qnum x <? 0 then B "-" else []) ++ FormatUint q
    ++ (if 0 <? prec then B "." ++ pad_zeros prec (FormatUint r) else []).

(** ** The texts denote what was written *)

Lemma parse_digits_app (s t : gostring) (acc : Z) :
  parse_digits (s ++ t) acc = match parse_digits s acc with Some m => parse_digits t m | None => None end.
Proof. revert acc. induction s as [|c s IH]; intros acc; cbn; [done|]. by destruct (is_digit c). Qed.

Lemma parse_digits_zeros (k : nat) (s : gostring) : parse_digits (replicate k "0"%char ++ s) 0 = parse_digits s 0.
Proof. induction k as [|k IH]; [done|]. cbn [replicate app parse_digits]. exact IH. Qed.

(** Reading on from an accumulated number. *)
Lemma parse_digits_acc (s : gostring) (acc a : Z) :
  parse_digits s acc = (fun m => m + (acc - a) * 10 ^ blen s) <$> parse_digits s a.
Proof.
  revert acc a. induction s as [|c s IH]; intros acc a; cbn [parse_digits].
  { rewrite (@blen_nil ascii). cbn. f_equal. lia. }
  destruct (is_digit c); [|done]. rewrite (IH _ (a * 10 + (code c - 48))).
  unfold blen. cbn [length]. rewrite Nat2Z.inj_succ, Z.pow_succ_r by lia.
  destruct (parse_digits s _); cbn; [|done]. f_equal. ring.
Qed.

Lemma split_point_digits (s t : gostring) :
  forallb is_digit s = true -> split_point (s ++ B "." ++ t) = (s, t) /\ split_point s = (s, []).
Proof.
  induction s as [|c s IH]; intros H; [done|]. cbn [forallb] in H. apply andb_true_iff in H as [Hc Hs].
  destruct (IH Hs) as [E1 E2]. cbn [app split_point]. destruct (Ascii.eqb_spec c ".") as [->|]; [done|].
  by rewrite E1, E2.
Qed.

Lemma pad_zeros_spec (n : Z) (s : gostring) :
  forallb is_digit s = true ->
  forallb is_digit (pad_zeros n s) = true /\ parse_digits (pad_zeros n s) 0 = parse_digits s 0
  /\ blen (pad_zeros n s) = Z.max n (blen s).
Proof.
  intros H. unfold pad_zeros. rewrite forallb_app, H, parse_digits_zeros, blen_app. split_and!; [|done|].
  - rewrite andb_true_r. induction (Z.to_nat _) as [|k IH]; [done|]. by cbn [replicate forallb].
  - unfold blen at 1. rewrite length_replicate. pose proof (blen_nonneg s). lia.
Qed.

(** Digits with an optional fraction, read back. *)
Lemma numeral_read (negative : bool) (int frac : gostring) (m : Z) :
  forallb is_digit int = true -> int <> [] -> parse_digits (int ++ frac) 0 = Some m ->
  numeral ((if negative then B "-" else []) ++ int ++ (if beq frac [] then [] else B "." ++ frac))
  = Some ((if negative then - m else m) # pow10 (blen frac)).
Proof.
  intros Hd Hne Hm. unfold numeral. set (t := int ++ _).
  assert (split_point t = (int, frac)) as Et.
  { unfold t. destruct (beq frac []) eqn:E; [|by apply split_point_digits].
    apply beq_true in E as ->. rewrite app_nil_r. by apply (split_point_digits int []). }
  assert ((match (if negative then B "-" else []) ++ t with
           | "-"%char :: t => (true, t) | _ => (false, (if negative then B "-" else []) ++ t) end) = (negative, t)) as ->.
  { destruct negative; [done|]. cbn [app]. unfold t. destruct int as [|c int]; [done|]. cbn [app].
    cbn [forallb] in Hd. apply andb_true_iff in Hd as [Hc _]. by destruct c as [[] [] [] [] [] [] [] []]. }
  by rewrite Et, Hm.
Qed.

Lemma pow10_pos (scale : Z) : 0 <= scale -> Zpos (pow10 scale) = 10 ^ scale.
Proof. intros H. unfold pow10. apply Z2Pos.id. by apply Z.pow_pos_nonneg. Qed.

Lemma sign_abs (b : Z) : (if b <? 0 then - Z.abs b else Z.abs b) = b.
Proof. destruct (Z.ltb_spec b 0); lia. Qed.

(** The MySQL text denotes the scaled integer. *)
Lemma numeral_decimal_text (scale b : Z) : 0 <= scale -> numeral (decimal_text scale b) = Some (b # pow10 scale).
Proof.
  intros Hs. unfold decimal_text.
  pose proof (FormatUint_digits (Z.abs b) ltac:(lia)) as Hd.
  pose proof (parse_FormatUint (Z.abs b) ltac:(lia)) as Hp.
  destruct (pad_zeros_spec (scale + 1) _ Hd) as (D1 & D2 & D3). rewrite Hp in D2.
  set (ds := pad_zeros _ _) in *. pose proof (blen_nonneg (FormatUint (Z.abs b))) as Hl.
  set (point := Z.to_nat (blen ds - scale)).
  assert (blen (drop point ds) = scale) as Hfrac.
  { unfold blen. rewrite length_drop. unfold point, blen in *. lia. }
  assert (forallb is_digit (take point ds) = true) as Hint.
  { rewrite <- (take_drop point ds), forallb_app in D1. by apply andb_true_iff in D1 as [? _]. }
  assert (take point ds <> []) as Hne.
  { intros E%(f_equal length). rewrite length_take in E. cbn [length] in E. unfold point, blen in *. lia. }
  pose proof (numeral_read (b <? 0) (take point ds) (drop point ds) (Z.abs b) Hint Hne) as H.
  rewrite take_drop in H. specialize (H D2). rewrite sign_abs, Hfrac in H. rewrite <- H. f_equal.
  destruct (Z.ltb_spec 0 scale) as [Hs'|Hs'].
  - rewrite (proj2 (beq_false (drop point ds) [])) by (intros E; rewrite E, (@blen_nil ascii) in Hfrac; lia).
    by destruct (b <? 0).
  - assert (drop point ds = []) as E by (apply nil_length_inv; unfold blen in Hfrac; lia). rewrite E, beq_refl, app_nil_r.
    assert (take point ds = ds) as -> by (rewrite <- (take_drop point ds) at 2; by rewrite E, app_nil_r).
    by destruct (b <? 0).
Qed.

(** A number below [10 ^ n] has at most [n] digits. *)
Lemma format_loop_length (fuel : nat) (n k : Z) (acc : gostring) :
  0 <= n < 10 ^ k -> 1 <= k -> blen (format_loop fuel n acc) <= k + blen acc.
Proof.
  revert n k acc. induction fuel as [|fuel IH]; intros n k acc Hn Hk; cbn [format_loop]; [lia|].
  assert (forall c, blen (c :: acc) = 1 + blen acc) as Hc by (intros; unfold blen; cbn [length]; lia).
  destruct (Z.ltb_spec n 10); [rewrite Hc; lia|]. destruct (Z.eq_dec k 1) as [->|]; [lia|].
  assert (0 <= n / 10 < 10 ^ (k - 1)) as Hd.
  { split; [apply Z.div_pos; lia|]. apply Z.div_lt_upper_bound; [lia|]. rewrite <- Z.pow_succ_r by lia.
    replace (Z.succ (k - 1)) with k by lia. lia. }
  etrans; [apply (IH (n / 10) (k - 1)); [done|lia]|]. rewrite Hc. lia.
Qed.

(** An exact [FloatString] denotes its number. *)
Lemma numeral_FloatString (scale b : Z) :
  0 <= scale -> numeral (FloatString (b # pow10 scale) scale) = Some (b # pow10 scale).
Proof.
  intros Hs. unfold FloatString. cbn [Qnum Qden]. rewrite pow10_pos by done.
  set (p := 10 ^ scale). assert (0 < p) as Hp by by apply Z.pow_pos_nonneg.
  rewrite Z.div_mul, Z.mod_mul by lia.
  pose proof (Z.mod_pos_bound (Z.abs b) p Hp) as Hr. pose proof (Z.div_mod (Z.abs b) p ltac:(lia)) as E.
  pose proof (Z.div_pos (Z.abs b) p ltac:(lia) Hp) as Hq.
  set (q := Z.abs b / p) in *. set (r := Z.abs b mod p) in *. decide_ltb. rewrite Z.add_0_r. decide_ltb.
  pose proof (FormatUint_digits r ltac:(lia)) as Hd. pose proof (parse_FormatUint r ltac:(lia)) as Hpr.
  destruct (pad_zeros_spec scale _ Hd) as (D1 & D2 & D3). rewrite Hpr in D2.
  set (frac := if 0 <? scale then pad_zeros scale (FormatUint r) else []).
  assert (blen frac = scale /\ parse_digits frac 0 = Some r) as [Hf Hpf].
  { unfold frac. destruct (Z.ltb_spec 0 scale) as [Hs'|Hs'].
    - split; [|done]. rewrite D3. pose proof (format_loop_length (S (Z.to_nat (Z.log2 r))) r scale [] ltac:(lia) ltac:(lia)) as H.
      rewrite (@blen_nil ascii) in H. unfold FormatUint. lia.
    - assert (scale = 0) as -> by lia. split; [done|]. cbn. f_equal. unfold p in Hr. cbn in Hr. lia. }
  pose proof (numeral_read (b <? 0) (FormatUint q) frac (Z.abs b) (FormatUint_digits q Hq) (FormatUint_nonempty q)) as H.
  rewrite sign_abs, Hf in H. rewrite <- H.
  - f_equal. do 2 f_equal. unfold frac. destruct (Z.ltb_spec 0 scale) as [Hs'|Hs']; [|by rewrite beq_refl].
    rewrite (proj2 (beq_false _ _)); [done|]. intros E'. rewrite E', (@blen_nil ascii) in D3.
    pose proof (blen_nonneg (FormatUint r)). lia.
  - rewrite parse_digits_app, parse_FormatUint, (parse_digits_acc frac q 0), Hpf, Hf by done. cbn [fmap option_fmap option_map].
    f_equal. unfold p in E. lia.
Qed.

(** Numbers of one scale compare as their unscaled integers. *)
Lemma compare_same_scale (k b : Z) (d : positive) : (k # d ?= b # d)%Q = (k ?= b).
Proof.
  unfold Qcompare. cbn [Qnum Qden]. destruct (Z.compare_spec k b) as [->|H|H].
  - apply Z.compare_refl.
  - apply Z.compare_lt_iff. nia.
  - apply Z.compare_gt_iff. nia.
Qed.

(** Scaling a comparison. *)
Lemma compare_scaled (k s : Z) (q : Q) :
  0 <= s -> (k # pow10 s ?= q)%Q = (inject_Z k ?= q * inject_Z (10 ^ s))%Q.
Proof.
  intros Hs. destruct q as [n d]. unfold Qcompare, Qmult, inject_Z. cbn [Qnum Qden].
  by rewrite Pos.mul_1_r, pow10_pos, Z.mul_1_r.
Qed.
