(* ===== verification/FilterDialect.v ===== *)
(** * What filters mean, and how they are compiled to SQL predicates

    A typed filter means a three-valued predicate on the public values of a
    feature.  The providers compile it to a SQL predicate with bound parameters,
    each in its own dialect but all with the recursion [compile_filter];
    [predicate] is the syntax of what they produce, [print] and [params] its text
    and parameters, [eval] its value.  [compile_filter_correct] reduces the
    correctness of a compiler to that of its leaves and of its way of joining. *)

From S2P Require Import Prelude GoText Temporal Filter Float64.


#[local] Open Scope Z_scope.

(** ** Three-valued logic: [None] is unknown *)

Definition and3 (a b : option bool) : option bool :=
  match a, b with
  | Some false, _ | _, Some false => Some false
  | Some true, Some true => Some true
  | _, _ => None
  end.

Definition or3 (a b : option bool) : option bool :=
  match a, b with
  | Some true, _ | _, Some true => Some true
  | Some false, Some false => Some false
  | _, _ => None
  end.

Definition not3 (a : option bool) : option bool := negb <$> a.

(** ** What a filter means *)

Inductive field_value :=
| VNull
| VString (s : gostring)
| VNumber (q : Q)
| VBoolean (b : bool).

(** The comparison of a filter, from the order of its operands. *)
Definition holds (op : FilterCompareOperator) (c : comparison) : bool :=
  match op, c with
  | FilterEqual, Eq | FilterNotEqual, (Lt | Gt) | FilterLess, Lt | FilterLessEqual, (Lt | Eq)
  | FilterGreater, Gt | FilterGreaterEqual, (Gt | Eq) => true
  | _, _ => false
  end.

(** [node.Literal.Text() == "true"] *)
Definition literal_true (l : FilterLiteral) : bool := beq (fl_text l) (B "true").

Definition compare_meaning (op : FilterCompareOperator) (v : field_value) (l : FilterLiteral) : option bool :=
  match v with
  | VNull => None
  | VString s => Some (holds op (Compare s (fl_text l)))
  | VNumber x => (fun q => holds op (x ?= q)%Q) <$> Number l
  | VBoolean b => Some (holds op (Z.b2z b ?= Z.b2z (literal_true l)))
  end.

Fixpoint meaning (row : gostring -> field_value) (n : FilterNode) : option bool :=
  let 'mkNode kind op property literal boolean children := n in
  match kind with
  | FilterBooleanConstant => Some boolean
  | FilterCompare => compare_meaning op (row property) literal
  | FilterIsNull => Some (match row property with VNull => true | _ => false end)
  | FilterIsNotNull => Some (match row property with VNull => false | _ => true end)
  | FilterAnd => foldr and3 (Some true) (map (meaning row) children)
  | FilterOr => foldr or3 (Some false) (map (meaning row) children)
  | FilterNot => not3 (default None (head (map (meaning row) children)))
  | _ => None
  end.

(** ** Exact comparison with the integers of a range

    The bound of the comparison that decides [v op q] for every integer [v] of the
    range, or the constant it folds to; [None] for an invalid operator. *)

Inductive bound_test :=
| Fold (value : bool)
| Test (direction : FilterCompareOperator) (bound : Z).

Definition clamp (direction : FilterCompareOperator) (minimum maximum bound : Z) : bound_test :=
  if bool_decide (direction = FilterLessEqual) then
    if bound <? minimum then Fold false
    else if maximum <=? bound then Fold true
    else Test direction bound
  else
    if maximum <? bound then Fold false
    else if bound <=? minimum then Fold true
    else Test direction bound.

Definition is_integer (q : Q) : bool := Qnum q mod Zpos (Qden q) =? 0.

Definition directed (minimum maximum : Z) (op : FilterCompareOperator) (q : Q) : option bound_test :=
  let floor := Qnum q / Zpos (Qden q) in
  let ceil := if is_integer q then floor else floor + 1 in
  match op with
  | FilterEqual | FilterNotEqual =>
      if negb (is_integer q) || (floor <? minimum) || (maximum <? floor)
      then Some (Fold (bool_decide (op = FilterNotEqual)))
      else Some (Test op floor)
  | FilterLess => Some (clamp FilterLessEqual minimum maximum (ceil - 1))
  | FilterLessEqual => Some (clamp FilterLessEqual minimum maximum floor)
  | FilterGreater => Some (clamp FilterGreaterEqual minimum maximum (floor + 1))
  | FilterGreaterEqual => Some (clamp FilterGreaterEqual minimum maximum ceil)
  | FilterComparisonInvalid => None
  end.

Definition decide_test (t : bound_test) (v : Z) : bool :=
  match t with
  | Fold b => b
  | Test op bound => holds op (v ?= bound)
  end.

Lemma compare_integer (v : Z) (q : Q) :
  (inject_Z v ?= q)%Q
  = if is_integer q then v ?= Qnum q / Zpos (Qden q)
    else if v <=? Qnum q / Zpos (Qden q) then Lt else Gt.
Proof.
  destruct q as [n d]. unfold Qcompare, is_integer. cbn [Qnum Qden inject_Z]. rewrite Z.mul_1_r.
  pose proof (Z.div_mod n (Zpos d) ltac:(lia)) as E. pose proof (Z.mod_pos_bound n (Zpos d) ltac:(lia)) as B.
  set (f := n / Zpos d) in *. destruct (Z.eqb_spec (n mod Zpos d) 0) as [H|H].
  - replace n with (f * Zpos d) by lia. destruct (Z.compare_spec v f) as [->|Hv|Hv].
    + apply Z.compare_refl.
    + apply Z.compare_lt_iff. nia.
    + apply Z.compare_gt_iff. nia.
  - destruct (Z.leb_spec v f).
    + apply Z.compare_lt_iff. nia.
    + apply Z.compare_gt_iff. nia.
Qed.

(** The bound decides the comparison for every integer of the range. *)
Lemma directed_correct (minimum maximum v : Z) (op : FilterCompareOperator) (q : Q) (t : bound_test) :
  minimum <= v <= maximum -> directed minimum maximum op q = Some t ->
  decide_test t v = holds op (inject_Z v ?= q)%Q.
Proof.
  intros Hv. rewrite compare_integer. unfold directed, clamp. set (f := Qnum q / Zpos (Qden q)).
  destruct (is_integer q), op; closed_decide;
    repeat match goal with
    | |- context [?a <? ?b] => destruct (Z.ltb_spec a b)
    | |- context [?a <=? ?b] => destruct (Z.leb_spec a b)
    end; cbn [orb]; try discriminate; intros [= <-]; cbn [decide_test holds];
    repeat match goal with |- context [?a ?= ?b] => destruct (Z.compare_spec a b) end;
    try reflexivity; lia.
Qed.

Lemma directed_total (minimum maximum : Z) (op : FilterCompareOperator) (q : Q) :
  op <> FilterComparisonInvalid -> exists t, directed minimum maximum op q = Some t.
Proof. intros H. unfold directed. destruct op; try done; eauto. case_match; eauto. case_match; eauto. Qed.

Lemma directed_valid (minimum maximum : Z) (op : FilterCompareOperator) (q : Q) (d : FilterCompareOperator) (b : Z) :
  directed minimum maximum op q = Some (Test d b) -> d <> FilterComparisonInvalid /\ minimum <= b <= maximum.
Proof.
  unfold directed, clamp. set (f := Qnum q / Zpos (Qden q)).
  destruct op; closed_decide; repeat case_match; intros [=]; subst; bool_props; split; try done; lia.
Qed.

(** ** Predicates *)

Section Predicates.
Context {leaf arg : Type}.

Inductive predicate :=
| PConst (b : bool)
| PLeaf (l : leaf)
| PParen (p : predicate)
| PNot (p : predicate)
| PAnd (l r : predicate)
| POr (l r : predicate).

(** How a provider writes predicates: the constants, whether the operands of a
    connective and a negation are put in parentheses, the text of several operands
    of a connective (a conjunction when [conj]), the leaves, whose text may depend
    on the number of parameters before them, and their parameters. *)
Record dialect := mkDialect {
  d_const : bool -> gostring;
  d_child : bool;
  d_not : bool;
  d_join : bool -> list gostring -> gostring;
  d_leaf : nat -> leaf -> gostring;
  d_args : leaf -> list arg
}.

Definition paren (b : bool) (s : gostring) : gostring := if b then B "(" ++ s ++ B ")" else s.

Definition connective (conj : bool) : gostring := if conj then B " AND " else B " OR ".

Fixpoint params (d : dialect) (p : predicate) : list arg :=
  match p with
  | PConst _ => []
  | PLeaf l => d_args d l
  | PParen p | PNot p => params d p
  | PAnd l r | POr l r => params d l ++ params d r
  end.

(** The text of a predicate after [n] parameters. *)
Fixpoint print (d : dialect) (n : nat) (p : predicate) : gostring :=
  match p with
  | PConst b => d_const d b
  | PLeaf l => d_leaf d n l
  | PParen p => B "(" ++ print d n p ++ B ")"
  | PNot p => B "NOT " ++ print d n p
  | PAnd l r => print d n l ++ connective true ++ print d (n + length (params d l)) r
  | POr l r => print d n l ++ connective false ++ print d (n + length (params d l)) r
  end.

Fixpoint eval (value : leaf -> option bool) (p : predicate) : option bool :=
  match p with
  | PConst b => Some b
  | PLeaf l => value l
  | PParen p => eval value p
  | PNot p => not3 (eval value p)
  | PAnd l r => and3 (eval value l) (eval value r)
  | POr l r => or3 (eval value l) (eval value r)
  end.

Definition pjoin (conj : bool) (l r : predicate) : predicate := if conj then PAnd l r else POr l r.

Definition join3 (conj : bool) : option bool -> option bool -> option bool := if conj then and3 else or3.

Definition pparen (b : bool) (p : predicate) : predicate := if b then PParen p else p.

(** Consecutive operands. *)
Fixpoint print_list (d : dialect) (n : nat) (ps : list predicate) : list gostring :=
  match ps with
  | [] => []
  | p :: ps' => print d n p :: print_list d (n + length (params d p)) ps'
  end.

Definition params_list (d : dialect) (ps : list predicate) : list arg := concat (map (params d) ps).

(** What a provider's way of joining texts promises: it writes the operands in order
    as some nesting of the connective, which has the value of all of them. *)
Class Groups (d : dialect) : Prop :=
  groups : forall (conj : bool) (n : nat) (ps : list predicate), ps <> [] ->
    exists p, d_join d conj (print_list d n ps) = print d n p /\ params d p = params_list d ps
              /\ forall value, eval value p = foldr (join3 conj) (Some conj) (map (eval value) ps).

End Predicates.

Arguments predicate : clear implicits.
Arguments dialect : clear implicits.

(** ** The compiler *)

Section Compiler.
Context {leaf arg : Type} (d : dialect leaf arg).

(** The predicate text and the parameters bound so far. *)
Definition compiled : Type := result QueryError (gostring * list arg).

(** The loop over the children. *)
Section Children.
Context (f : FilterNode -> list arg -> compiled).

Fixpoint compile_children (cs : list FilterNode) (args : list arg) : result QueryError (list gostring * list arg) :=
  match cs with
  | [] => Ok ([], args)
  | c :: cs' =>
      let? (value, args) := f c args in
      let? (values, args) := compile_children cs' args in
      Ok (paren (d_child d) value :: values, args)
  end.

End Children.

(** The switch of the compilers; [leaf_text] is the rest of it, on nodes of the other
    kinds. *)
Context (leaf_text : FilterKind -> FilterCompareOperator -> gostring -> FilterLiteral -> list arg -> compiled).

Fixpoint compile_filter (node : FilterNode) (args : list arg) : compiled :=
  let 'mkNode kind op property literal boolean children := node in
  match kind with
  | FilterBooleanConstant => Ok (d_const d boolean, args)
  | FilterNot =>
      let? (values, args) := compile_children compile_filter children args in
      Ok (paren (d_not d) (B "NOT " ++ default [] (head values)), args)
  | FilterAnd =>
      let? (values, args) := compile_children compile_filter children args in
      Ok (d_join d true values, args)
  | FilterOr =>
      let? (values, args) := compile_children compile_filter children args in
      Ok (d_join d false values, args)
  | _ => leaf_text kind op property literal args
  end.

(** *** Correctness *)

(** [row]s with the value of the leaves on them, their public values, and the rows
    the provider admits. *)
Context {row : Type} (value : row -> leaf -> option bool) (public : row -> gostring -> field_value) (row_ok : row -> Prop).

(** A predicate that a compiler returns, and what it decides on every row. *)
Definition compiled_to (m : (gostring -> field_value) -> option bool) (args : list arg) (r : compiled) : Prop :=
  exists p, r = Ok (print d (length args) p, args ++ params d p)
            /\ forall x, row_ok x -> eval (value x) p = m (public x).

Context `{!Groups d} (catalog : FeatureQueryables).

(** The leaves that can occur: comparisons and null tests of catalog fields. *)
Definition leaves_correct : Prop :=
  (forall name f args, Queryables_Lookup catalog name = Some f ->
     forall op l,
       (compiled_to (fun v => Some (match v name with VNull => true | _ => false end)) args
          (leaf_text FilterIsNull op name l args))
       /\ (compiled_to (fun v => Some (match v name with VNull => false | _ => true end)) args
             (leaf_text FilterIsNotNull op name l args)))
  /\ forall name f op l args, Queryables_Lookup catalog name = Some f ->
       op <> FilterComparisonInvalid -> compatible (fq_type f) (fl_kind l) = true ->
       is_ok (NewFilterLiteral (fl_kind l) (fl_text l)) = true ->
       compiled_to (fun v => compare_meaning op (v name) l) args (leaf_text FilterCompare op name l args).

Lemma print_pparen (b : bool) (n : nat) (p : predicate leaf) : print d n (pparen b p) = paren b (print d n p).
Proof. by destruct b. Qed.

Lemma params_pparen (b : bool) (p : predicate leaf) : params d (pparen b p) = params d p.
Proof. by destruct b. Qed.

Lemma eval_pparen (v : leaf -> option bool) (b : bool) (p : predicate leaf) : eval v (pparen b p) = eval v p.
Proof. by destruct b. Qed.

Lemma compile_children_spec (cs : list FilterNode) :
  Forall (fun c => forall args, compiled_to (fun v => meaning v c) args (compile_filter c args)) cs ->
  forall args, exists ps,
    compile_children compile_filter cs args = Ok (print_list d (length args) ps, args ++ params_list d ps)
    /\ length ps = length cs
    /\ forall x, row_ok x -> map (eval (value x)) ps = map (meaning (public x)) cs.
Proof.
  induction 1 as [|c cs Hc _ IH]; intros args; cbn [compile_children].
  { exists []. cbn. by rewrite app_nil_r. }
  destruct (Hc args) as (p & -> & Hp). cbn [rbind].
  destruct (IH (args ++ params d p)) as (ps & -> & Hl & Hps). cbn [rbind].
  exists (pparen (d_child d) p :: ps). unfold params_list. cbn [map print_list concat length].
  rewrite print_pparen, params_pparen, (app_assoc args), Hl, length_app. split_and!; try done.
  intros x Hx. by rewrite eval_pparen, (Hp x Hx), (Hps x Hx).
Qed.

Lemma shape_compare (op : FilterCompareOperator) (p : gostring) (l : FilterLiteral) (b : bool) (cs : list FilterNode) :
  node_shape (mkNode FilterCompare op p l b cs) = Ok tt ->
  op <> FilterComparisonInvalid /\ is_ok (NewFilterLiteral (fl_kind l) (fl_text l)) = true.
Proof.
  cbn [node_shape]. rewrite if_Err_Ok, !orb_false_iff, bool_decide_eq_false. intros [[[[_ H] _] _] H2].
  split; [done|]. by destruct (NewFilterLiteral _ _).
Qed.

Lemma shape_children (k : FilterKind) (op : FilterCompareOperator) (p : gostring) (l : FilterLiteral) (b : bool)
    (cs : list FilterNode) :
  is_logical k = true -> node_shape (mkNode k op p l b cs) = Ok tt -> cs <> [].
Proof.
  intros Hk H ->. destruct k; try done; cbn [node_shape length] in H; closed_decide;
    rewrite if_Err_Ok, !orb_false_iff in H; cbn in H; destruct H as [[[_ ?] ?] _]; done.
Qed.

Lemma shape_not (op : FilterCompareOperator) (p : gostring) (l : FilterLiteral) (b : bool) (cs : list FilterNode) :
  node_shape (mkNode FilterNot op p l b cs) = Ok tt -> length cs = 1%nat.
Proof.
  cbn [node_shape]. closed_decide. rewrite if_Err_Ok, !orb_false_iff. intros [[[_ H%negb_false_iff] _] _].
  by apply Nat.eqb_eq.
Qed.

(** The predicate compiled for a valid, resolved filter means the filter. *)
Lemma compile_filter_correct (Hleaf : leaves_correct) (n : FilterNode) :
  every_node node_ok n -> every_node (resolves catalog) n ->
  forall args, compiled_to (fun v => meaning v n) args (compile_filter n args).
Proof.
  induction n as [k op p l b cs IH] using FilterNode_ind'. cbn [every_node].
  rewrite !every_node_children. intros [[Hshape _] Hok] [Hres Hrs] args.
  assert (is_logical k = true -> exists ps,
      compile_children compile_filter cs args = Ok (print_list d (length args) ps, args ++ params_list d ps)
      /\ ps <> [] /\ length ps = length cs
      /\ forall x, row_ok x -> map (eval (value x)) ps = map (meaning (public x)) cs) as Hcs.
  { intros Hk. destruct (compile_children_spec cs) with (args := args) as (es & E & Hl & Hes).
    - rewrite Forall_forall in *. intros c Hc. apply IH; auto.
    - exists es. split_and!; [done| |done|done]. intros ->. apply (shape_children k op p l b cs Hk Hshape). by destruct cs. }
  cbn [compile_filter meaning]. unfold resolves in Hres. cbn [n_kind n_property n_literal] in Hres.
  destruct Hleaf as [Hnull Hcmp].
  destruct k; try (cbn [node_shape] in Hshape; discriminate).
  - exists (PConst b). split; [by rewrite app_nil_r|done].
  - destruct Hres as (f & Hf & Hc); [set_solver|]. destruct (shape_compare op p l b cs Hshape) as [Hop Hlit].
    apply (Hcmp p f); auto.
  - destruct Hres as (f & Hf & _); [set_solver|]. by apply (Hnull p f).
  - destruct Hres as (f & Hf & _); [set_solver|]. by apply (Hnull p f).
  - destruct (Hcs eq_refl) as (ps & -> & Hne & _ & Hes). cbn [rbind].
    destruct (groups true (length args) ps Hne) as (q & -> & <- & He). exists q. split; [done|].
    intros x Hx. by rewrite He, Hes.
  - destruct (Hcs eq_refl) as (ps & -> & Hne & _ & Hes). cbn [rbind].
    destruct (groups false (length args) ps Hne) as (q & -> & <- & He). exists q. split; [done|].
    intros x Hx. by rewrite He, Hes.
  - destruct (Hcs eq_refl) as (ps & -> & Hne & Hlen & Hes). cbn [rbind].
    rewrite (shape_not op p l b cs Hshape) in Hlen.
    destruct ps as [|q [|]]; try done. exists (pparen (d_not d) (PNot q)).
    rewrite print_pparen, params_pparen. unfold params_list. cbn [map print_list head default print params concat].
    rewrite app_nil_r. split; [done|]. intros x Hx. rewrite eval_pparen, <- (Hes x Hx). done.
Qed.

End Compiler.

Arguments compiled : clear implicits.

(** ** Ways of joining *)

Lemma print_list_app {leaf arg : Type} (d : dialect leaf arg) (n : nat) (l r : list (predicate leaf)) :
  print_list d n (l ++ r) = print_list d n l ++ print_list d (n + length (params_list d l)) r.
Proof.
  revert n. induction l as [|p l IH]; intros n; cbn [app print_list].
  { by rewrite Nat.add_0_r. }
  rewrite IH. unfold params_list. cbn [map concat]. by rewrite length_app, Nat.add_assoc.
Qed.

Lemma length_print_list {leaf arg : Type} (d : dialect leaf arg) (n : nat) (l : list (predicate leaf)) :
  length (print_list d n l) = length l.
Proof. revert n. induction l; intros; cbn; auto. Qed.

Lemma params_list_app {leaf arg : Type} (d : dialect leaf arg) (l r : list (predicate leaf)) :
  params_list d (l ++ r) = params_list d l ++ params_list d r.
Proof. unfold params_list. by rewrite map_app, concat_app. Qed.

Lemma join3_assoc (conj : bool) (a b c : option bool) :
  join3 conj a (join3 conj b c) = join3 conj (join3 conj a b) c.
Proof. by destruct conj, a as [[]|], b as [[]|], c as [[]|]. Qed.

Lemma join3_unit (conj : bool) (a : option bool) : join3 conj a (Some conj) = a /\ join3 conj (Some conj) a = a.
Proof. by destruct conj, a as [[]|]. Qed.

Lemma foldr_join3 (conj : bool) (l r : list (option bool)) :
  foldr (join3 conj) (Some conj) (l ++ r)
  = join3 conj (foldr (join3 conj) (Some conj) l) (foldr (join3 conj) (Some conj) r).
Proof. induction l as [|a l IH]; cbn [app foldr]; [by rewrite (proj2 (join3_unit conj _))|]. by rewrite IH, join3_assoc. Qed.

(** Join the operands pairwise; [fuel] bounds the halvings.  The program only
    calls it on non-empty lists. *)
Fixpoint balanced (fuel : nat) (values : list gostring) (operator : gostring) : gostring :=
  match fuel, values with
  | _, [value] => value
  | O, _ => []
  | S fuel', _ =>
      let middle := (length values / 2)%nat in
      B "(" ++ balanced fuel' (take middle values) operator ++ operator
        ++ balanced fuel' (drop middle values) operator ++ B ")"
  end.

Definition balancedFilterSQL (values : list gostring) (operator : gostring) : gostring :=
  balanced (length values) values operator.

Section Joins.
Context {leaf arg : Type} (d : dialect leaf arg).

(** A nesting of the connective over the operands. *)
Definition grouping (conj : bool) (n : nat) (text : gostring) (ps : list (predicate leaf)) : Prop :=
  exists p, text = print d n p /\ params d p = params_list d ps
            /\ forall value, eval value p = foldr (join3 conj) (Some conj) (map (eval value) ps).

Lemma grouping_one (conj : bool) (n : nat) (p : predicate leaf) : grouping conj n (print d n p) [p].
Proof.
  exists p. unfold params_list. cbn. rewrite app_nil_r. split_and!; [done|done|]. intros v.
  by rewrite (proj1 (join3_unit conj _)).
Qed.

Lemma grouping_paren (conj : bool) (n : nat) (t : gostring) (ps : list (predicate leaf)) :
  grouping conj n t ps -> grouping conj n (B "(" ++ t ++ B ")") ps.
Proof. intros (p & -> & Hp & He). by exists (PParen p). Qed.

Lemma grouping_app (conj : bool) (n : nat) (t u : gostring) (l r : list (predicate leaf)) :
  grouping conj n t l -> grouping conj (n + length (params_list d l)) u r ->
  grouping conj n (t ++ connective conj ++ u) (l ++ r).
Proof.
  intros (p & -> & Hp & Ep) (q & -> & Hq & Eq). exists (pjoin conj p q). rewrite params_list_app, <- Hp, <- Hq.
  split_and!; [by destruct conj|by destruct conj|]. intros v. rewrite map_app, foldr_join3, <- Ep, <- Eq. by destruct conj.
Qed.

Lemma balanced_grouping (conj : bool) (fuel n : nat) (ps : list (predicate leaf)) :
  ps <> [] -> (length ps <= fuel)%nat ->
  grouping conj n (balanced fuel (print_list d n ps) (connective conj)) ps.
Proof.
  revert n ps. induction fuel as [|fuel IH]; intros n ps Hne Hf; [by destruct ps; [|cbn in Hf; lia]|].
  destruct ps as [|p1 [|p2 ps]]; [done|apply grouping_one|].
  set (all := p1 :: p2 :: ps) in *. set (m := (length all / 2)%nat).
  assert (0 < m < length all)%nat as Hm.
  { unfold m. split; [apply Nat.div_str_pos; cbn; lia|apply Nat.div_lt; cbn; lia]. }
  assert (balanced (S fuel) (print_list d n all) (connective conj)
          = B "(" ++ (balanced fuel (print_list d n (take m all)) (connective conj) ++ connective conj
              ++ balanced fuel (print_list d (n + length (params_list d (take m all))) (drop m all)) (connective conj)) ++ B ")") as ->.
  { pose proof (print_list_app d n (take m all) (drop m all)) as E. rewrite take_drop in E.
    pose proof (length_print_list d n (take m all)) as El. rewrite length_take, Nat.min_l in El by lia.
    unfold all at 1. cbn [print_list balanced]. change (print d n p1 :: _) with (print_list d n all).
    rewrite length_print_list. fold m.
    rewrite E, take_app_length', drop_app_length', <- !app_assoc by done. done. }
  apply grouping_paren. rewrite <- (take_drop m all) at 4. apply grouping_app; apply IH.
  - intros E%(f_equal length). rewrite length_take in E. change (length (@nil (predicate leaf))) with 0%nat in E. lia.
  - rewrite length_take. lia.
  - intros E%(f_equal length). rewrite length_drop in E. change (length (@nil (predicate leaf))) with 0%nat in E. lia.
  - rewrite length_drop. lia.
Qed.

(** strings.Join *)
Lemma join_grouping (conj : bool) (n : nat) (ps : list (predicate leaf)) :
  ps <> [] -> grouping conj n (Join (print_list d n ps) (connective conj)) ps.
Proof.
  revert n. induction ps as [|p ps IH]; intros n Hne; [done|]. destruct ps as [|q ps]; [apply grouping_one|].
  change (p :: q :: ps) with ([p] ++ q :: ps). rewrite print_list_app.
  change (Join (print_list d n [p] ++ ?r) (connective conj)) with (print d n p ++ connective conj ++ Join r (connective conj)).
  apply grouping_app; [apply grouping_one|by apply IH].
Qed.

End Joins.

(** ** Texts shared by the providers *)

(** A bound parameter: the Go values that the compilers put in the [[]any] of a
    statement, a float64 by its rank. *)
Inductive sql_arg :=
| ArgInt (z : Z) | ArgFloat (rank : Z) | ArgBytes (s : gostring) | ArgString (s : gostring) | ArgBool (b : bool).

(** [strings.ReplaceAll] of a byte by two of it, between two of it. *)
Definition quote_with (q : ascii) (name : gostring) : gostring :=
  [q] ++ concat (map (fun c => if Ascii.eqb c q then [q; q] else [c]) name) ++ [q].

(** The switch of [featureFilterOperator]; [None] is its default case. *)
Definition comparison_text (op : FilterCompareOperator) : option gostring :=
  match op with
  | FilterEqual => Some (B "=")
  | FilterNotEqual => Some (B "<>")
  | FilterLess => Some (B "<")
  | FilterLessEqual => Some (B "<=")
  | FilterGreater => Some (B ">")
  | FilterGreaterEqual => Some (B ">=")
  | FilterComparisonInvalid => None
  end.

Definition operator_text (op : FilterCompareOperator) : gostring := default [] (comparison_text op).

Lemma comparison_text_valid (op : FilterCompareOperator) :
  op <> FilterComparisonInvalid -> comparison_text op = Some (operator_text op).
Proof. by destruct op. Qed.

(** The closure [fold] of the numeric compilers. *)
Definition fold_text (source : gostring) (value : bool) : gostring :=
  B "CASE WHEN " ++ source ++ B " IS NULL THEN NULL ELSE " ++ (if value then B "1" else B "0") ++ B " END".

Definition minInt64 : Z := - 2 ^ 63.
Definition maxInt64 : Z := 2 ^ 63 - 1.

Lemma number_literal (l : FilterLiteral) :
  is_ok (NewFilterLiteral (fl_kind l) (fl_text l)) = true -> fl_kind l = FilterNumber -> exists q, Number l = Some q.
Proof.
  unfold Number. intros H E. rewrite E in *. unfold NewFilterLiteral in H.
  destruct (Rat_SetString (fl_text l)) as [q|] eqn:Eq; [eauto|].
  repeat case_match; try done.
Qed.

(** ** Catalogs with their columns *)

(** [columns[name] = column] for each published field, in order: a later entry
    replaces an earlier one. *)
Definition index_columns {column : Type} (entries : list (FeatureQueryable * column)) : gmap gostring column :=
  foldl (fun m e => <[fq_name (fst e) := snd e]> m) ∅ entries.

Lemma index_columns_from {column : Type} (entries : list (FeatureQueryable * column)) (f : FeatureQueryable) (c : column)
    (m : gmap gostring column) :
  NoDup (map fq_name (map fst entries)) ->
  (f, c) ∈ entries \/ (m !! fq_name f = Some c /\ fq_name f ∉ map fq_name (map fst entries)) ->
  foldl (fun m e => <[fq_name (fst e) := snd e]> m) m entries !! fq_name f = Some c.
Proof.
  revert m. induction entries as [|[g x] es IH]; intros m Hnd H; cbn [foldl map fst snd] in *.
  { destruct H as [H|[H _]]; [by apply elem_of_nil in H|done]. }
  apply NoDup_cons in Hnd as [Hx Hnd]. apply IH; [done|].
  destruct H as [[[= <- <-]|H]%elem_of_cons|[H Hn]]; [|by left|].
  - right. split; [apply lookup_insert_eq|done].
  - right. apply not_elem_of_cons in Hn as [Hn1 Hn2]. split; [|done]. by rewrite lookup_insert_ne.
Qed.

(** In a catalog built from entries, every published property has its column. *)
Lemma index_columns_lookup {column : Type} (entries : list (FeatureQueryable * column)) (catalog : FeatureQueryables)
    (name : gostring) (f : FeatureQueryable) :
  NewFeatureQueryables (map fst entries) = Ok catalog -> Queryables_Lookup catalog name = Some f ->
  exists c, index_columns entries !! name = Some c /\ (f, c) ∈ entries /\ fq_name f = name.
Proof.
  intros En. destruct (NewFeatureQueryables_ok _ catalog En) as (Hok & _ & _ & Hl & _).
  rewrite Hl, lookup_field_spec by apply Hok. intros [Hf <-].
  apply list_elem_of_fmap in Hf as ([f' c] & -> & Hin). cbn [fst].
  exists c. split_and!; [|done|done]. apply index_columns_from; [apply Hok|by left].
Qed.

(** A catalog that was built can be built again. *)
Lemma catalog_again (fields : list FeatureQueryable) (catalog : FeatureQueryables) :
  NewFeatureQueryables fields = Ok catalog ->
  Queryables_Validate catalog = Ok tt /\ is_ok (NewFeatureQueryables (qs_fields catalog)) = true.
Proof.
  intros En. destruct (NewFeatureQueryables_ok fields catalog En) as (_ & _ & _ & _ & Hv). split; [done|].
  unfold Queryables_Validate in Hv. rewrite if_Err_Ok in Hv. destruct Hv as [_ Hv].
  unfold NewFeatureQueryables. by rewrite Hv.
Qed.
