(* ===== verification/FilterGpkg.v ===== *)
(** * provider/gpkg/filter_sql.go

    The GeoPackage provider's filter compiler: the catalog frozen from the schema of
    a table, the comparisons, whose numeric bounds are exact for the integers and
    the reals SQLite stores, and the whole predicate.  [gpkg_leaf] is the syntax of
    the tests it produces, [gpkg_value] what SQLite makes of them. *)

From S2P Require Import Prelude GoText Temporal Filter Float64 FilterDialect.

#[local] Open Scope Z_scope.

(** ** The compiler *)

Definition invalidQuery (field reason : string) : QueryError := InvalidFeatureQueryError field reason.

Definition filterUnsupported : QueryError :=
  mkQueryError "filter" "gpkg optional queryable profile unavailable" true.

Definition quoteIdent (name : gostring) : gostring := quote_with "`" name.

Definition column_source (name : gostring) : gostring := B "l." ++ quoteIdent name.

Definition featureFilterOperator (op : FilterCompareOperator) : result QueryError gostring :=
  match comparison_text op with
  | Some text => Ok text
  | None => Err (invalidQuery "filter" "invalid comparison")
  end.

Definition compileFilterInteger (source : gostring) (op : FilterCompareOperator) (literal : FilterLiteral)
    (args : list sql_arg) : compiled sql_arg :=
  match Number literal with
  | None => Err (invalidQuery "filter" "invalid numeric literal")
  | Some rational =>
      match directed minInt64 maxInt64 op rational with
      | None => Err (invalidQuery "filter" "invalid comparison")
      | Some (Fold value) => Ok (fold_text source value, args)
      | Some (Test direction bound) =>
          let? text := featureFilterOperator direction in
          Ok (source ++ B " " ++ text ++ B " ?", args ++ [ArgInt bound])
      end
  end.

Definition compileFilterReal (source : gostring) (op : FilterCompareOperator) (literal : FilterLiteral)
    (args : list sql_arg) : compiled sql_arg :=
  let invalid := Err (invalidQuery "filter" "invalid comparison") in
  match Number literal with
  | None => Err (invalidQuery "filter" "invalid numeric literal")
  | Some rational =>
      match (rational ?= float_value max_rank)%Q, (rational ?= - float_value max_rank)%Q with
      | Gt, _ =>
          match op with
          | FilterEqual | FilterGreater | FilterGreaterEqual => Ok (fold_text source false, args)
          | FilterNotEqual | FilterLess | FilterLessEqual => Ok (fold_text source true, args)
          | FilterComparisonInvalid => invalid
          end
      | _, Lt =>
          match op with
          | FilterEqual | FilterLess | FilterLessEqual => Ok (fold_text source false, args)
          | FilterNotEqual | FilterGreater | FilterGreaterEqual => Ok (fold_text source true, args)
          | FilterComparisonInvalid => invalid
          end
      | _, _ =>
          let nearest := big_Float64 rational in
          let cmp := (float_value nearest ?= rational)%Q in
          let lo := match cmp with Gt => nearest - 1 | _ => nearest end in
          let hi := match cmp with Lt => nearest + 1 | _ => nearest end in
          match op with
          | FilterEqual =>
              match cmp with
              | Eq => Ok (source ++ B " = ?", args ++ [ArgFloat nearest])
              | _ => Ok (fold_text source false, args)
              end
          | FilterNotEqual =>
              match cmp with
              | Eq => Ok (source ++ B " <> ?", args ++ [ArgFloat nearest])
              | _ => Ok (fold_text source true, args)
              end
          | FilterLess => Ok (source ++ B " < ?", args ++ [ArgFloat hi])
          | FilterLessEqual => Ok (source ++ B " <= ?", args ++ [ArgFloat lo])
          | FilterGreater => Ok (source ++ B " > ?", args ++ [ArgFloat lo])
          | FilterGreaterEqual => Ok (source ++ B " >= ?", args ++ [ArgFloat hi])
          | FilterComparisonInvalid => invalid
          end
      end
  end.

Definition compileFilterNumber (source : gostring) (op : FilterCompareOperator) (literal : FilterLiteral)
    (args : list sql_arg) : compiled sql_arg :=
  let? (integer, args) := compileFilterInteger source op literal args in
  let? (real, args) := compileFilterReal source op literal args in
  Ok (B "CASE WHEN typeof(" ++ source ++ B ")='integer' THEN (" ++ integer ++ B ") ELSE (" ++ real ++ B ") END",
      args).

Record featureFilterColumn := mkFilterColumn {
  fc_name : gostring; fc_declaration : gostring; fc_notnull : Z; fc_primary : Z; fc_hidden : Z;
  fc_kind : QueryableType
}.

Record featureFilterProfile := mkProfile {
  fp_catalog : FeatureQueryables; fp_columns : gmap gostring featureFilterColumn;
  fp_schema_sql : gostring; fp_encoding : gostring; fp_schema_columns : list featureFilterColumn
}.

(** The cases of a comparison, by the kind of the column. *)
Definition compile_compare (c : featureFilterColumn) (op : FilterCompareOperator) (literal : FilterLiteral)
    (args : list sql_arg) : compiled sql_arg :=
  let source := column_source (fc_name c) in
  let? operator := featureFilterOperator op in
  match fc_kind c with
  | QueryableString =>
      Ok (B "CAST(" ++ source ++ B " AS BLOB) " ++ operator ++ B " CAST(? AS BLOB)",
          args ++ [ArgBytes (fl_text literal)])
  | QueryableBoolean =>
      Ok (source ++ B " " ++ operator ++ B " ?", args ++ [ArgInt (Z.b2z (literal_true literal))])
  | QueryableInteger => compileFilterInteger source op literal args
  | QueryableNumber => compileFilterNumber source op literal args
  | _ => Err filterUnsupported
  end.

(** The cases on a property. *)
Definition compile_leaf (columns : gmap gostring featureFilterColumn) (kind : FilterKind) (op : FilterCompareOperator)
    (property : gostring) (literal : FilterLiteral) (args : list sql_arg) : compiled sql_arg :=
  match kind with
  | FilterCompare | FilterIsNull | FilterIsNotNull =>
      match columns !! property with
      | None => Err (invalidQuery "filter" "unknown queryable property")
      | Some c =>
          match kind with
          | FilterIsNull => Ok (column_source (fc_name c) ++ B " IS NULL", args)
          | FilterIsNotNull => Ok (column_source (fc_name c) ++ B " IS NOT NULL", args)
          | _ => compile_compare c op literal args
          end
      end
  | _ => Err (invalidQuery "filter" "invalid filter node")
  end.

(** The tests the compiler writes. *)
Inductive gpkg_leaf :=
| GIsNull (col : gostring)
| GIsNotNull (col : gostring)
| GBlob (col : gostring) (op : FilterCompareOperator) (s : gostring)
| GTest (col : gostring) (op : FilterCompareOperator) (arg : sql_arg)
| GFold (col : gostring) (value : bool)
| GByType (col : gostring) (integer real : gpkg_leaf).

Fixpoint gpkg_text (l : gpkg_leaf) : gostring :=
  match l with
  | GIsNull col => column_source col ++ B " IS NULL"
  | GIsNotNull col => column_source col ++ B " IS NOT NULL"
  | GBlob col op _ => B "CAST(" ++ column_source col ++ B " AS BLOB) " ++ operator_text op ++ B " CAST(? AS BLOB)"
  | GTest col op _ => column_source col ++ B " " ++ operator_text op ++ B " ?"
  | GFold col value => fold_text (column_source col) value
  | GByType col i r =>
      B "CASE WHEN typeof(" ++ column_source col ++ B ")='integer' THEN (" ++ gpkg_text i ++ B ") ELSE (" ++ gpkg_text r
        ++ B ") END"
  end.

(** Their parameters, in the order of their question marks. *)
Fixpoint gpkg_args (l : gpkg_leaf) : list sql_arg :=
  match l with
  | GBlob _ _ s => [ArgBytes s]
  | GTest _ _ arg => [arg]
  | GByType _ i r => gpkg_args i ++ gpkg_args r
  | _ => []
  end.

Definition gpkg_dialect : dialect gpkg_leaf sql_arg :=
  mkDialect (fun b => if b then B "1" else B "0") true false (fun conj values => balancedFilterSQL values (connective conj))
    (fun _ => gpkg_text) gpkg_args.

Definition compile (columns : gmap gostring featureFilterColumn) : FilterNode -> list sql_arg -> compiled sql_arg :=
  compile_filter gpkg_dialect (compile_leaf columns).

(** *** The layer *)

(** The base name of a column type: its parameters, case and surrounding space
    removed.  [ToUpper] is exact on ASCII and on the two other runes whose upper case
    is ASCII (U+0131 and U+017F); it leaves every other rune alone, which cannot
    make a type name equal to one of the ASCII names it is compared with. *)
Definition upper_rune (r : Z) : Z :=
  if (97 <=? r) && (r <=? 122) then r - 32 else if r =? 0x131 then 73 else if r =? 0x17F then 83 else r.

Definition ToUpper (s : gostring) : gostring := EncodeRunes (map (fun ir => upper_rune (snd ir)) (range_string s)).

Fixpoint before_paren (s : gostring) : option gostring :=
  match s with
  | [] => None
  | c :: s' => if Ascii.eqb c "(" then Some [] else cons c <$> before_paren s'
  end.

Definition normalizeFilterColumnType (declaration : gostring) : gostring :=
  let t := ToUpper (TrimSpace declaration) in
  match before_paren t with Some b => TrimSpace b | None => t end.

Definition filter_column_kind (base : gostring) : option QueryableType :=
  if bool_decide (base ∈ [B "INTEGER"; B "INT"; B "BIGINT"; B "SMALLINT"; B "MEDIUMINT"; B "TINYINT"; B "INT2"; B "INT8"])
  then Some QueryableInteger
  else if bool_decide (base ∈ [B "REAL"; B "DOUBLE"; B "DOUBLE PRECISION"; B "FLOAT"; B "NUMERIC"; B "DECIMAL"])
  then Some QueryableNumber
  else if bool_decide (base ∈ [B "BOOLEAN"; B "BOOL"]) then Some QueryableBoolean
  else if bool_decide (base ∈ [B "TEXT"; B "CHAR"; B "CHARACTER"; B "VARCHAR"; B "NCHAR"; B "NATIVE CHARACTER";
                               B "NVARCHAR"; B "CLOB"])
  then Some QueryableString
  else None.

(** The loop of freeze: the published fields with their columns; [public] are the
    public properties of the layer. *)
Fixpoint freeze_columns (public : list gostring) (cs : list featureFilterColumn)
    : list (FeatureQueryable * featureFilterColumn) :=
  match cs with
  | [] => []
  | c :: cs' =>
      let entries := freeze_columns public cs' in
      if negb (fc_hidden c =? 0) || negb (existsb (beq (fc_name c)) public) then entries
      else
        match filter_column_kind (normalizeFilterColumnType (fc_declaration c)) with
        | None => entries
        | Some kind =>
            (mkQueryable (fc_name c) kind (fc_notnull c =? 0),
             mkFilterColumn (fc_name c) (fc_declaration c) (fc_notnull c) (fc_primary c) (fc_hidden c) kind) :: entries
        end
  end.

Definition freeze (public : result QueryError (list gostring)) (profile : featureFilterProfile)
    : result QueryError featureFilterProfile :=
  let? public := public in
  let entries := freeze_columns public (fp_schema_columns profile) in
  let? catalog := NewFeatureQueryables (map fst entries) in
  Ok (mkProfile catalog (index_columns entries) (fp_schema_sql profile) (fp_encoding profile)
        (fp_schema_columns profile)).

(** The parts of a layer the filter uses: whether it supports feature queries, the
    error of its catalog, the profile. *)
Record filter_layer := mkFilterLayer {
  ly_supported : result QueryError unit; ly_error : option QueryError; ly_profile : option featureFilterProfile
}.

Definition Layer_FeatureQueryables (l : filter_layer) : result QueryError FeatureQueryables :=
  check? ly_supported l in
  match ly_error l, ly_profile l with
  | Some e, _ => Err e
  | None, None => Err filterUnsupported
  | None, Some profile => NewFeatureQueryables (qs_fields (fp_catalog profile))
  end.

Definition prepareFeatureFilter (l : filter_layer) (expression : option FilterExpression) : compiled sql_arg :=
  match expression with
  | None => Ok ([], [])
  | Some e =>
      let? _ := Layer_FeatureQueryables l in
      match ly_profile l with
      | None => Err filterUnsupported
      | Some profile =>
          let? resolved := ResolveFeatureFilter e (fp_catalog profile) in
          let? (predicate, args) := compile (fp_columns profile) (Root (rf_expression resolved)) [] in
          if (512 * 1024 <? blen predicate) || (8192 <? blen args) then
            Err (invalidQuery "filter" "compiled filter exceeds limits")
          else Ok (predicate, args)
      end
  end.

(** ** What SQLite makes of the tests *)

(** A stored value with its storage class. *)
Inductive sval := SNull | SInt (z : Z) | SReal (rank : Z) | SText (s : gostring) | SBlob (s : gostring).

Definition arg_value (a : sql_arg) : sval :=
  match a with
  | ArgInt z => SInt z
  | ArgFloat r => SReal r
  | ArgBytes s => SBlob s
  | ArgString s => SText s
  | ArgBool b => SInt (Z.b2z b)
  end.

Definition numeric (v : sval) : option Q :=
  match v with SInt z => Some (inject_Z z) | SReal r => Some (float_value r) | _ => None end.

Definition storage_class (v : sval) : Z :=
  match v with SNull => 0 | SInt _ | SReal _ => 1 | SText _ => 2 | SBlob _ => 3 end.

(** The order of two values that are not null: numbers by value, before texts,
    before blobs, both by bytes. *)
Definition sql_compare (a b : sval) : comparison :=
  match numeric a, numeric b with
  | Some x, Some y => (x ?= y)%Q
  | _, _ =>
      match a, b with
      | SText s, SText t | SBlob s, SBlob t => Compare s t
      | _, _ => storage_class a ?= storage_class b
      end
  end.

Definition compare_sql (op : FilterCompareOperator) (a b : sval) : option bool :=
  match a with SNull => None | _ => Some (holds op (sql_compare a b)) end.

(** CAST(v AS BLOB); a number has its text as bytes, which is only given here for
    integers: a text column holds no reals. *)
Definition cast_blob (v : sval) : sval :=
  match v with
  | SText s => SBlob s
  | SInt z => SBlob (FormatInt z)
  | SReal _ => SNull
  | v => v
  end.

Section Value.
Context (row : gostring -> sval).

Fixpoint gpkg_value (l : gpkg_leaf) : option bool :=
  match l with
  | GIsNull col => Some (match row col with SNull => true | _ => false end)
  | GIsNotNull col => Some (match row col with SNull => false | _ => true end)
  | GBlob col op s => compare_sql op (cast_blob (row col)) (SBlob s)
  | GTest col op arg => compare_sql op (row col) (arg_value arg)
  | GFold col value => match row col with SNull => None | _ => Some value end
  | GByType col i r => match row col with SInt _ => gpkg_value i | _ => gpkg_value r end
  end.

End Value.

(** The stored values that the domain scan of a layer admits, by the kind of the
    column, and the public value they stand for. *)
Definition in_domain (kind : QueryableType) (v : sval) : Prop :=
  match kind, v with
  | _, SNull => True
  | (QueryableInteger | QueryableNumber), SInt z => minInt64 <= z <= maxInt64
  | QueryableNumber, SReal r => - max_rank <= r <= max_rank
  | QueryableBoolean, SInt z => z = 0 \/ z = 1
  | QueryableString, SText _ => True
  | _, _ => False
  end.

Definition public_value (kind : QueryableType) (v : sval) : field_value :=
  match kind, v with
  | QueryableBoolean, SInt z => VBoolean (z =? 1)
  | _, SInt z => VNumber (inject_Z z)
  | _, SReal r => VNumber (float_value r)
  | _, SText s => VString s
  | _, _ => VNull
  end.

(** ** Leaves *)

(** A comparison with a numeric literal is decided exactly for every stored
    integer, and for every stored real. *)
Definition integer_exact (op : FilterCompareOperator) (q : Q) (col : gostring) (e : gpkg_leaf) : Prop :=
  forall row,
    (row col = SNull -> gpkg_value row e = None)
    /\ forall z, row col = SInt z -> minInt64 <= z <= maxInt64 -> gpkg_value row e = Some (holds op (inject_Z z ?= q)%Q).

Definition real_exact (op : FilterCompareOperator) (q : Q) (col : gostring) (e : gpkg_leaf) : Prop :=
  forall row,
    (row col = SNull -> gpkg_value row e = None)
    /\ forall r, row col = SReal r -> - max_rank <= r <= max_rank ->
         gpkg_value row e = Some (holds op (float_value r ?= q)%Q).

Lemma gpkg_operator_text_ok (op : FilterCompareOperator) :
  op <> FilterComparisonInvalid -> featureFilterOperator op = Ok (operator_text op).
Proof. intros H. unfold featureFilterOperator. by rewrite comparison_text_valid. Qed.

Lemma compileFilterInteger_exact (col : gostring) (op : FilterCompareOperator) (l : FilterLiteral) (q : Q)
    (args : list sql_arg) :
  op <> FilterComparisonInvalid -> Number l = Some q ->
  exists e, compileFilterInteger (column_source col) op l args = Ok (gpkg_text e, args ++ gpkg_args e)
            /\ integer_exact op q col e.
Proof.
  intros Hop Hq. unfold compileFilterInteger. rewrite Hq.
  destruct (directed_total minInt64 maxInt64 op q Hop) as [t Ht]. rewrite Ht.
  destruct t as [value|d b].
  - exists (GFold col value). rewrite app_nil_r. split; [done|]. intros row. cbn. split; [by intros ->|].
    intros z -> Hz. by rewrite <- (directed_correct _ _ z op q _ Hz Ht).
  - rewrite (gpkg_operator_text_ok d) by (by eapply directed_valid). exists (GTest col d (ArgInt b)).
    split; [done|]. intros row. cbn. split; [by intros ->|]. intros z -> Hz. cbn [compare_sql sql_compare numeric].
    rewrite <- (directed_correct _ _ z op q _ Hz Ht). cbn [decide_test]. do 2 f_equal.
    unfold Qcompare. cbn. by rewrite !Z.mul_1_r.
Qed.

(** Where a float64 lies relative to a rational, from the float64 next to it. *)
Lemma Qcompare_Lt (x y : Q) : (x < y)%Q -> (x ?= y)%Q = Lt.
Proof. apply Qlt_alt. Qed.

Lemma Qcompare_Gt (x y : Q) : (y < x)%Q -> (x ?= y)%Q = Gt.
Proof. apply Qgt_alt. Qed.

Lemma near_compare (q : Q) (n r : Z) :
  (float_value (n - 1) < q < float_value (n + 1))%Q ->
  (float_value r ?= q)%Q
  = match (float_value n ?= q)%Q with
    | Eq => r ?= n
    | Gt => if r <=? n - 1 then Lt else Gt
    | Lt => if r <=? n then Lt else Gt
    end.
Proof.
  intros [H1 H2]. destruct (float_value n ?= q)%Q eqn:Ec.
  - apply Qeq_alt in Ec. rewrite <- (float_value_compare r n). by rewrite Ec.
  - apply Qlt_alt in Ec. destruct (Z.leb_spec r n) as [H|H].
    + apply Qcompare_Lt. pose proof (float_value_le r n H). lra.
    + apply Qcompare_Gt. pose proof (float_value_le (n + 1) r ltac:(lia)). lra.
  - apply Qgt_alt in Ec. destruct (Z.leb_spec r (n - 1)) as [H|H].
    + apply Qcompare_Lt. pose proof (float_value_le r (n - 1) H). lra.
    + apply Qcompare_Gt. pose proof (float_value_le n r ltac:(lia)). lra.
Qed.

(** A test of a column against a float64 parameter. *)
Lemma eval_float_test (row : gostring -> sval) (col : gostring) (op : FilterCompareOperator) (r b : Z) :
  row col = SReal r -> gpkg_value row (GTest col op (ArgFloat b)) = Some (holds op (r ?= b)).
Proof. intros E. cbn. rewrite E. cbn. by rewrite float_value_compare. Qed.

Lemma real_fold (op : FilterCompareOperator) (q : Q) (col : gostring) (value : bool) :
  (forall r, - max_rank <= r <= max_rank -> holds op (float_value r ?= q)%Q = value) ->
  real_exact op q col (GFold col value).
Proof. intros H row. cbn. split; [by intros ->|]. intros r -> Hr. by rewrite H. Qed.

Lemma real_test (op d : FilterCompareOperator) (q : Q) (col : gostring) (b : Z) :
  (forall r, holds op (float_value r ?= q)%Q = holds d (r ?= b)) ->
  real_exact op q col (GTest col d (ArgFloat b)).
Proof.
  intros H row. split; [intros E; cbn; by rewrite E|]. intros r E _. by rewrite (eval_float_test row col d r b E), H.
Qed.

Ltac compare_cases :=
  repeat match goal with
  | |- context [?a <=? ?b] => destruct (Z.leb_spec a b)
  | |- context [(?a ?= ?b)%Z] => destruct (Z.compare_spec a b)
  end; first [reflexivity | lia].

(** The comparison [op q] is compiled to a predicate that decides it. *)
Definition real_compiled (col : gostring) (op : FilterCompareOperator) (q : Q) (args : list sql_arg) (r : compiled sql_arg) : Prop :=
  exists e, r = Ok (gpkg_text e, args ++ gpkg_args e) /\ real_exact op q col e.

Lemma fold_compiled (col : gostring) (op : FilterCompareOperator) (q : Q) (args : list sql_arg) (value : bool) :
  (forall r, - max_rank <= r <= max_rank -> holds op (float_value r ?= q)%Q = value) ->
  real_compiled col op q args (Ok (fold_text (column_source col) value, args)).
Proof. intros H. exists (GFold col value). rewrite app_nil_r. split; [done|by apply real_fold]. Qed.

Lemma test_compiled (col : gostring) (op d : FilterCompareOperator) (q : Q) (args : list sql_arg) (b : Z) :
  (forall r, holds op (float_value r ?= q)%Q = holds d (r ?= b)) ->
  real_compiled col op q args (Ok (column_source col ++ B " " ++ operator_text d ++ B " ?", args ++ [ArgFloat b])).
Proof. intros H. exists (GTest col d (ArgFloat b)). split; [done|by apply real_test]. Qed.

Lemma compileFilterReal_exact (col : gostring) (op : FilterCompareOperator) (l : FilterLiteral) (q : Q)
    (args : list sql_arg) :
  op <> FilterComparisonInvalid -> Number l = Some q ->
  real_compiled col op q args (compileFilterReal (column_source col) op l args).
Proof.
  intros Hop Hq. unfold compileFilterReal. rewrite Hq.
  destruct (q ?= float_value max_rank)%Q eqn:E1.
  3: { apply Qgt_alt in E1.
       assert (forall r, - max_rank <= r <= max_rank -> (float_value r ?= q)%Q = Lt) as Hlt.
       { intros r Hr. apply Qcompare_Lt. pose proof (float_value_le r max_rank ltac:(lia)). lra. }
       destruct op; try done; apply fold_compiled; intros r Hr; by rewrite Hlt. }
  all: destruct (q ?= - float_value max_rank)%Q eqn:E2.
  2, 5: apply Qlt_alt in E2;
       assert (forall r, - max_rank <= r <= max_rank -> (float_value r ?= q)%Q = Gt) as Hgt by
         (intros r Hr; apply Qcompare_Gt; pose proof (float_value_le (- max_rank) r ltac:(lia)) as H;
          rewrite float_value_opp in H; lra);
       destruct op; try done; apply fold_compiled; intros r Hr; by rewrite Hgt.
  all: clear E1 E2; pose proof (fun r => near_compare q (big_Float64 q) r (big_Float64_near q)) as Hn;
       destruct (float_value (big_Float64 q) ?= q)%Q; destruct op; try done.
  all: try (apply fold_compiled; intros r _; rewrite Hn; compare_cases).
  all: first
    [ apply (test_compiled col _ FilterEqual) | apply (test_compiled col _ FilterNotEqual)
    | apply (test_compiled col _ FilterLess) | apply (test_compiled col _ FilterLessEqual)
    | apply (test_compiled col _ FilterGreater) | apply (test_compiled col _ FilterGreaterEqual) ].
  all: intros r; rewrite Hn; compare_cases.
Qed.

(** ** Whole filters *)

(** The kinds of column the layer publishes. *)
Definition published_kind (k : QueryableType) : Prop :=
  k ∈ [QueryableInteger; QueryableNumber; QueryableBoolean; QueryableString].

(** The stored values of a row are those the domain scan admits. *)
Definition row_ok (columns : gmap gostring featureFilterColumn) (row : gostring -> sval) : Prop :=
  forall name c, columns !! name = Some c -> in_domain (fc_kind c) (row (fc_name c)).

(** The public values of a row. *)
Definition public_row (columns : gmap gostring featureFilterColumn) (row : gostring -> sval) (name : gostring)
    : field_value :=
  match columns !! name with
  | Some c => public_value (fc_kind c) (row (fc_name c))
  | None => VNull
  end.

(** The predicates compiled for the columns of a profile. *)
Abbreviation gpkg_compiled columns := (compiled_to gpkg_dialect gpkg_value (public_row columns) (row_ok columns)).

Lemma gpkg_leaf_compiled (columns : gmap gostring featureFilterColumn) (m : (gostring -> field_value) -> option bool)
    (args : list sql_arg) (e : gpkg_leaf) (text : gostring) (args' : list sql_arg) :
  text = gpkg_text e -> args' = args ++ gpkg_args e ->
  (forall row, row_ok columns row -> gpkg_value row e = m (public_row columns row)) ->
  gpkg_compiled columns m args (Ok (text, args')).
Proof. intros -> -> H. by exists (PLeaf e). Qed.

Lemma compileFilterNumber_exact (col : gostring) (op : FilterCompareOperator) (l : FilterLiteral) (q : Q)
    (args : list sql_arg) :
  op <> FilterComparisonInvalid -> Number l = Some q ->
  exists e, compileFilterNumber (column_source col) op l args = Ok (gpkg_text e, args ++ gpkg_args e)
            /\ integer_exact op q col e /\ real_exact op q col e.
Proof.
  intros Hop Hq. unfold compileFilterNumber.
  destruct (compileFilterInteger_exact col op l q args Hop Hq) as (ei & -> & Hi). cbn [rbind].
  destruct (compileFilterReal_exact col op l q (args ++ gpkg_args ei) Hop Hq) as (er & -> & Hr). cbn [rbind].
  exists (GByType col ei er). cbn [gpkg_text gpkg_args]. rewrite (app_assoc args). split; [done|].
  split; intros row; (split; [intros E; cbn; rewrite E; by apply Hr|]).
  - intros z E Hz. cbn. rewrite E. by apply Hi.
  - intros r E Hz. cbn. rewrite E. by apply Hr.
Qed.

Lemma gpkg_compile_compare_exact (columns : gmap gostring featureFilterColumn) (name : gostring) (c : featureFilterColumn)
    (op : FilterCompareOperator) (l : FilterLiteral) (args : list sql_arg) :
  columns !! name = Some c -> published_kind (fc_kind c) -> op <> FilterComparisonInvalid ->
  compatible (fc_kind c) (fl_kind l) = true -> is_ok (NewFilterLiteral (fl_kind l) (fl_text l)) = true ->
  gpkg_compiled columns (fun v => compare_meaning op (v name) l) args (compile_compare c op l args).
Proof.
  intros Hc Hk Hop Hl Hok. unfold compile_compare. rewrite (gpkg_operator_text_ok op Hop). cbn [rbind].
  assert (forall row, row_ok columns row -> in_domain (fc_kind c) (row (fc_name c))) as Hdom by (intros row H; by eapply H).
  assert (forall row, public_row columns row name = public_value (fc_kind c) (row (fc_name c))) as Hpub
    by (intros row; unfold public_row; by rewrite Hc).
  set (col := fc_name c) in *. unfold published_kind in Hk. rewrite !elem_of_cons, elem_of_nil in Hk.
  destruct Hk as [E|[E|[E|[E|[]]]]]; rewrite E in *; cbn [compatible] in Hl; apply bool_decide_eq_true in Hl.
  - destruct (number_literal l Hok Hl) as [q Hq].
    destruct (compileFilterInteger_exact col op l q args Hop Hq) as (e & -> & Hi). eapply gpkg_leaf_compiled; [done..|].
    intros row Hrow%Hdom. destruct (Hi row) as [H0 H1]. rewrite Hpub. unfold public_value, compare_meaning. rewrite Hq.
    destruct (row col) eqn:Er; cbn [in_domain] in Hrow; try done; [by apply H0|by apply H1].
  - destruct (number_literal l Hok Hl) as [q Hq].
    destruct (compileFilterNumber_exact col op l q args Hop Hq) as (e & -> & Hi & Hr). eapply gpkg_leaf_compiled; [done..|].
    intros row Hrow%Hdom. destruct (Hi row) as [H0 H1]. destruct (Hr row) as [_ H2].
    rewrite Hpub. unfold public_value, compare_meaning. rewrite Hq.
    destruct (row col) eqn:Er; cbn [in_domain] in Hrow; try done; [by apply H0|by apply H1|by apply H2].
  - apply (gpkg_leaf_compiled columns _ args (GTest col op (ArgInt (Z.b2z (literal_true l))))); [done..|].
    intros row Hrow%Hdom. rewrite Hpub. cbn. destruct (row col) as [|z| | |]; cbn [in_domain] in Hrow; try done.
    cbn. do 2 f_equal. unfold Qcompare. cbn. rewrite !Z.mul_1_r. by destruct Hrow as [->| ->].
  - apply (gpkg_leaf_compiled columns _ args (GBlob col op (fl_text l))); [done..|].
    intros row Hrow%Hdom. rewrite Hpub. cbn. by destruct (row col); cbn [in_domain] in Hrow.
Qed.

Lemma gpkg_public_null {A : Type} (k : QueryableType) (v : sval) (a b : A) :
  in_domain k v ->
  match public_value k v with VNull => a | _ => b end = match v with SNull => a | _ => b end.
Proof. by destruct k, v. Qed.

#[export] Instance gpkg_groups : Groups gpkg_dialect.
Proof.
  intros conj n ps Hne. cbn [d_join gpkg_dialect]. unfold balancedFilterSQL. rewrite length_print_list.
  by apply balanced_grouping.
Qed.

(** *** The profile of a layer *)

Lemma filter_column_kind_published (base : gostring) (k : QueryableType) :
  filter_column_kind base = Some k -> published_kind k.
Proof. unfold filter_column_kind, published_kind. repeat case_match; intros [= <-]; set_solver. Qed.

Lemma freeze_columns_match (public : list gostring) (cs : list featureFilterColumn) :
  Forall (fun e => fc_kind (snd e) = fq_type (fst e) /\ published_kind (fc_kind (snd e))) (freeze_columns public cs).
Proof.
  induction cs as [|c cs IH]; cbn [freeze_columns]; [constructor|].
  destruct (negb _ || negb _); [done|].
  destruct (filter_column_kind _) as [k|] eqn:Ek; [|done]. constructor; [|done].
  split; [done|]. by eapply filter_column_kind_published.
Qed.

(** The leaves of a frozen profile are compiled correctly, and its catalog is valid. *)
Lemma freeze_correct (public : result QueryError (list gostring)) (profile0 profile : featureFilterProfile) :
  freeze public profile0 = Ok profile ->
  leaves_correct gpkg_dialect (compile_leaf (fp_columns profile)) gpkg_value (public_row (fp_columns profile))
    (row_ok (fp_columns profile)) (fp_catalog profile)
  /\ is_ok (NewFeatureQueryables (qs_fields (fp_catalog profile))) = true.
Proof.
  unfold freeze. destruct public as [public|]; cbn [rbind]; [|done].
  pose proof (freeze_columns_match public (fp_schema_columns profile0)) as Hm. rewrite Forall_forall in Hm.
  destruct (NewFeatureQueryables _) as [catalog|] eqn:En; cbn [rbind]; [|done].
  intros [= <-]. cbn [fp_catalog fp_columns]. set (columns := index_columns _).
  split; [split|by eapply catalog_again].
  - intros name f args Hf op l. destruct (index_columns_lookup _ _ _ _ En Hf) as (c & Hc & Hin & _). fold columns in Hc.
    unfold compile_leaf. rewrite Hc.
    split; [apply (gpkg_leaf_compiled columns _ _ (GIsNull (fc_name c)))|apply (gpkg_leaf_compiled columns _ _ (GIsNotNull (fc_name c)))];
      try done; try (cbn; by rewrite app_nil_r);
      intros row Hrow; unfold public_row; rewrite Hc; cbn [gpkg_value]; (rewrite gpkg_public_null; [done|by eapply Hrow]).
  - intros name f op l args Hf Hop Hl Hok. destruct (index_columns_lookup _ _ _ _ En Hf) as (c & Hc & Hin & _).
    fold columns in Hc. unfold compile_leaf. rewrite Hc. destruct (Hm _ Hin) as [Hk Hp]. cbn [fst snd] in Hk, Hp.
    apply gpkg_compile_compare_exact; try done. by rewrite Hk.
Qed.


