(* ===== verification/FilterMysql.v ===== *)
(** * provider/mysql/filter_sql.go

    The MySQL provider's filter compiler: the catalog built from the columns of a
    table, the comparisons, whose numeric bounds are exact on the lattice of the
    column, bound as texts, and the whole predicate.  [mysql_leaf] is the syntax of the tests it
    produces, [mysql_value] what MySQL makes of them. *)

From S2P Require Import Prelude GoText Temporal Filter Float64 Decimal FilterDialect.

#[local] Open Scope Z_scope.

Definition featureInvalid (field reason : string) : QueryError := InvalidFeatureQueryError field reason.

Definition featureUnsupported (reason : string) : QueryError := mkQueryError "filter" reason true.

Definition featureQuoteIdentifier (name : gostring) : gostring := quote_with "`" name.

Definition featureFilterOperator (op : FilterCompareOperator) : result QueryError gostring :=
  match comparison_text op with
  | Some text => Ok text
  | None => Err (featureInvalid "filter" "invalid comparison")
  end.

(** ** Columns *)

Record featureColumn := mkColumn {
  mc_name : gostring; mc_dataType : gostring; mc_columnType : gostring; mc_nullable : gostring; mc_extra : gostring;
  mc_collation : gostring; mc_characterSet : gostring; mc_srid : option Z
}.

Record featureFilterColumn := mkFilterColumn {
  fc_column : featureColumn; fc_kind : QueryableType;
  fc_bits : Z; fc_precision : Z; fc_scale : Z; fc_unsigned : bool
}.

(** [strings.ToLower] and [strings.EqualFold], for comparison with lower-case ASCII
    names: exact on ASCII letters and on the runes beyond ASCII that lower or fold to
    an ASCII letter; the others are left alone, which cannot make them equal. *)
Definition lower_rune (r : Z) : Z :=
  if (65 <=? r) && (r <=? 90) then r + 32 else if r =? 0x130 then 105 else if r =? 0x212A then 107 else r.

Definition ToLower (s : gostring) : gostring := EncodeRunes (map (fun ir => lower_rune (snd ir)) (range_string s)).

Definition fold_rune (r : Z) : Z :=
  if (65 <=? r) && (r <=? 90) then r + 32 else if r =? 0x17F then 115 else if r =? 0x212A then 107 else r.

Definition EqualFold (s name : gostring) : bool :=
  bool_decide (map (fun ir => fold_rune (snd ir)) (range_string s) = map code name).

Fixpoint IndexByte (s : gostring) (b : ascii) : option nat :=
  match s with
  | [] => None
  | c :: s' => if Ascii.eqb c b then Some O else S <$> IndexByte s' b
  end.

(** The value of [strconv.Atoi] when its error is ignored: zero for a syntax error,
    the nearest int64 for a range error. *)
Definition atoi_value (s : gostring) : Z :=
  match Atoi s with
  | Some v => v
  | None =>
      let clamped (v : Z) (t : gostring) := match t with [] => 0 | _ => if forallb is_digit t then v else 0 end in
      match s with
      | "-"%char :: t => clamped minInt64 t
      | "+"%char :: t => clamped maxInt64 t
      | t => clamped maxInt64 t
      end
  end.

Definition column_unsigned (column : featureColumn) : bool := Contains (ToLower (mc_columnType column)) (B "unsigned").

Definition integralColumn (column : featureColumn) : Z * bool :=
  let t := ToLower (mc_dataType column) in
  let bits :=
    if beq t (B "tinyint") then 8
    else if beq t (B "smallint") then 16
    else if beq t (B "mediumint") then 24
    else if beq t (B "int") || beq t (B "integer") then 32
    else if beq t (B "bigint") then 64
    else 0 in
  (bits, column_unsigned column).

Definition generatedColumn (column : featureColumn) : bool := Contains (ToLower (mc_extra column)) (B "generated").

(** The precision and scale that [featureColumnMetadata] gives a decimal column. *)
Definition decimal_metadata (columnType : gostring) : Z * Z :=
  match IndexByte columnType "(", IndexByte columnType ")" with
  | Some open, Some close =>
      if (open <? close)%nat then
        match SplitByte "," (slice columnType (S open) close) with
        | [p; s] => (atoi_value p, atoi_value s)
        | _ => (0, 0)
        end
      else (0, 0)
  | _, _ => (0, 0)
  end.

(** The body of the loop of initializeFilterCatalog: the column of a property,
    unless it is not queryable. *)
Definition filter_column (column : featureColumn) : option featureFilterColumn :=
  let '(bits, unsigned) := integralColumn column in
  let decimal := EqualFold (mc_dataType column) (B "decimal") || EqualFold (mc_dataType column) (B "numeric") in
  let text := ToLower (mc_dataType column) in
  if generatedColumn column then None
  else if negb (bits =? 0) then Some (mkFilterColumn column QueryableInteger bits 0 0 unsigned)
  else if EqualFold (mc_dataType column) (B "bit") && EqualFold (mc_columnType column) (B "bit(1)") then
    Some (mkFilterColumn column QueryableBoolean bits 0 0 unsigned)
  else if decimal then
    let '(precision, scale) := decimal_metadata (mc_columnType column) in
    if (precision <? 1) || (65 <? precision) || (scale <? 0) || (30 <? scale) || (precision <? scale) then None
    else Some (mkFilterColumn column QueryableNumber bits precision scale (column_unsigned column))
  else if EqualFold (mc_characterSet column) (B "utf8mb4")
          && existsb (beq text) [B "varchar"; B "tinytext"; B "text"; B "mediumtext"; B "longtext"] then
    Some (mkFilterColumn column QueryableString bits 0 0 unsigned)
  else None.

(** The parts of a feature profile that filters use. *)
Record featureProfile := mkProfile {
  fp_properties : list gostring;
  fp_filter : gostring; fp_filterArgs : list sql_arg;
  fp_catalog : FeatureQueryables; fp_columns : gmap gostring featureFilterColumn; fp_error : option QueryError
}.

Section Catalog.
(** The source column of a property: [sourceColumn] in the projection, then
    [column] in the schema. *)
Context (source_column : gostring -> option featureColumn).

Definition catalog_entries (properties : list gostring) : list (FeatureQueryable * featureFilterColumn) :=
  omap (fun name =>
    column ← source_column name; c ← filter_column column;
    Some (mkQueryable name (fc_kind c) (beq (mc_nullable column) (B "YES")), c)) properties.

Definition initializeFilterCatalog (f : featureProfile) : featureProfile :=
  let entries := catalog_entries (fp_properties f) in
  match NewFeatureQueryables (map fst entries) with
  | Ok catalog => mkProfile (fp_properties f) (fp_filter f) (fp_filterArgs f) catalog (index_columns entries) None
  | Err _ =>
      mkProfile (fp_properties f) (fp_filter f) (fp_filterArgs f) (mkQueryables [] false) ∅
        (Some (featureUnsupported "optional queryable catalog unavailable"))
  end.

End Catalog.

(** ** The compiler *)

(** The smallest and largest unscaled integer of a column. *)
Definition number_range (c : featureFilterColumn) : Z * Z :=
  if bool_decide (fc_kind c = QueryableNumber) then
    let maximum := 10 ^ fc_precision c - 1 in (if fc_unsigned c then 0 else - maximum, maximum)
  else if fc_unsigned c then (0, 2 ^ fc_bits c - 1)
  else (- 2 ^ (fc_bits c - 1), 2 ^ (fc_bits c - 1) - 1).

(** The type of a CAST. *)
Inductive cast_type := CastSigned | CastDecimal (precision scale : Z).

Definition cast_text (t : cast_type) : gostring :=
  match t with
  | CastSigned => B "SIGNED"
  | CastDecimal p s => B "DECIMAL(" ++ FormatInt p ++ B "," ++ FormatInt s ++ B ")"
  end.

Definition number_cast (c : featureFilterColumn) : cast_type :=
  if bool_decide (fc_kind c = QueryableNumber) then CastDecimal (fc_precision c) (fc_scale c)
  else if fc_unsigned c then CastDecimal 20 0 else CastSigned.

Definition bound_text (c : featureFilterColumn) (bound : Z) : gostring :=
  if bool_decide (fc_kind c = QueryableNumber) then decimal_text (fc_scale c) bound else FormatInt bound.

(** The literal is scaled to the lattice of the column; the bound of [directed] is the
    same for a fraction and its reduced form. *)
Definition compileNumber (c : featureFilterColumn) (source : gostring) (op : FilterCompareOperator)
    (literal : FilterLiteral) (args : list sql_arg) : compiled sql_arg :=
  match Number literal with
  | None => Err (featureInvalid "filter" "invalid numeric literal")
  | Some rational =>
      let '(minimum, maximum) := number_range c in
      match directed minimum maximum op (rational * inject_Z (10 ^ fc_scale c)) with
      | None => Err (featureInvalid "filter" "invalid comparison")
      | Some (Fold value) => Ok (fold_text source value, args)
      | Some (Test direction bound) =>
          let? text := featureFilterOperator direction in
          Ok (source ++ B " " ++ text ++ B " CAST(? AS " ++ cast_text (number_cast c) ++ B ")",
              args ++ [ArgString (bound_text c bound)])
      end
  end.

(** [hex.EncodeToString] *)
Definition hex_digit (d : Z) : ascii := byte_of (if d <? 10 then 48 + d else 87 + d).

Definition EncodeToString (s : gostring) : gostring :=
  concat (map (fun c => [hex_digit (code c / 16); hex_digit (code c mod 16)]) s).

Definition column_source (c : featureFilterColumn) : gostring := B "l." ++ featureQuoteIdentifier (mc_name (fc_column c)).

Definition compile_compare (c : featureFilterColumn) (op : FilterCompareOperator) (literal : FilterLiteral)
    (args : list sql_arg) : compiled sql_arg :=
  let source := column_source c in
  let? operator := featureFilterOperator op in
  match fc_kind c with
  | QueryableString =>
      Ok (B "CAST(" ++ source ++ B " AS BINARY) " ++ operator ++ B " UNHEX(?)",
          args ++ [ArgString (EncodeToString (fl_text literal))])
  | QueryableBoolean =>
      Ok (B "CAST(" ++ source ++ B " AS UNSIGNED) " ++ operator ++ B " CAST(? AS UNSIGNED)",
          args ++ [ArgString (if literal_true literal then B "1" else B "0")])
  | QueryableInteger | QueryableNumber => compileNumber c source op literal args
  | _ => Err (featureUnsupported "queryable comparison unavailable")
  end.

Definition compile_leaf (columns : gmap gostring featureFilterColumn) (kind : FilterKind) (op : FilterCompareOperator)
    (property : gostring) (literal : FilterLiteral) (args : list sql_arg) : compiled sql_arg :=
  match kind with
  | FilterCompare | FilterIsNull | FilterIsNotNull =>
      match columns !! property with
      | None => Err (featureInvalid "filter" "unknown queryable property")
      | Some c =>
          match kind with
          | FilterIsNull => Ok (column_source c ++ B " IS NULL", args)
          | FilterIsNotNull => Ok (column_source c ++ B " IS NOT NULL", args)
          | _ => compile_compare c op literal args
          end
      end
  | _ => Err (featureInvalid "filter" "invalid filter node")
  end.

(** The tests the compiler writes, on a column. *)
Inductive mysql_leaf :=
| MIsNull (c : featureFilterColumn)
| MIsNotNull (c : featureFilterColumn)
| MBinary (c : featureFilterColumn) (op : FilterCompareOperator) (hex : gostring)
| MBit (c : featureFilterColumn) (op : FilterCompareOperator) (text : gostring)
| MNumber (c : featureFilterColumn) (op : FilterCompareOperator) (t : cast_type) (text : gostring)
| MFold (c : featureFilterColumn) (value : bool).

Definition mysql_text (l : mysql_leaf) : gostring :=
  match l with
  | MIsNull c => column_source c ++ B " IS NULL"
  | MIsNotNull c => column_source c ++ B " IS NOT NULL"
  | MBinary c op _ => B "CAST(" ++ column_source c ++ B " AS BINARY) " ++ operator_text op ++ B " UNHEX(?)"
  | MBit c op _ => B "CAST(" ++ column_source c ++ B " AS UNSIGNED) " ++ operator_text op ++ B " CAST(? AS UNSIGNED)"
  | MNumber c op t _ => column_source c ++ B " " ++ operator_text op ++ B " CAST(? AS " ++ cast_text t ++ B ")"
  | MFold c value => fold_text (column_source c) value
  end.

Definition mysql_args (l : mysql_leaf) : list sql_arg :=
  match l with
  | MBinary _ _ s | MBit _ _ s | MNumber _ _ _ s => [ArgString s]
  | _ => []
  end.

Definition mysql_dialect : dialect mysql_leaf sql_arg :=
  mkDialect (fun b => if b then B "1" else B "0") true false (fun conj values => balancedFilterSQL values (connective conj))
    (fun _ => mysql_text) mysql_args.

Definition compileFeatureFilter (columns : gmap gostring featureFilterColumn)
    : FilterNode -> list sql_arg -> compiled sql_arg :=
  compile_filter mysql_dialect (compile_leaf columns).

(** A predicate added to the filter of a profile. *)
Definition add_filter (filter predicate : gostring) : gostring :=
  if beq filter [] then predicate else B "(" ++ filter ++ B ") AND (" ++ predicate ++ B ")".

Definition prepareFeatureFilter (f : featureProfile) (expression : option FilterExpression)
    : result QueryError featureProfile :=
  match expression with
  | None => Ok f
  | Some e =>
      match fp_error f with
      | Some err => Err err
      | None =>
          match Queryables_Validate (fp_catalog f) with
          | Err _ => Err (featureUnsupported "queryable catalog unavailable")
          | Ok _ =>
              let? resolved := ResolveFeatureFilter e (fp_catalog f) in
              let? (predicate, args) := compileFeatureFilter (fp_columns f) (Root (rf_expression resolved)) (fp_filterArgs f) in
              if (512 * 1024 <? blen predicate) || (8192 <? blen args) then
                Err (featureInvalid "filter" "compiled filter exceeds limits")
              else
                Ok (mkProfile (fp_properties f) (add_filter (fp_filter f) predicate) args (fp_catalog f) (fp_columns f)
                      (fp_error f))
          end
      end
  end.

(** ** What MySQL makes of the tests *)

(** A stored value; a number is its unscaled integer and its scale. *)
Inductive mval := MyNull | MyNumber (k scale : Z) | MyBit (b : bool) | MyText (s : gostring).

Definition round_half_away (q : Q) : Z :=
  if Qnum q <? 0 then - Qfloor (- q + (1 # 2)) else Qfloor (q + (1 # 2)).

Definition clamp_to (lo hi z : Z) : Z := Z.max lo (Z.min hi z).

(** CAST of a text: to DECIMAL it is rounded to the scale and limited to the
    precision, to SIGNED truncated and limited to 64 bits; other texts are zero. *)
Definition cast_value (t : cast_type) (text : gostring) : Q :=
  let q := default 0%Q (numeral text) in
  match t with
  | CastSigned => inject_Z (clamp_to minInt64 maxInt64 (Z.quot (Qnum q) (Zpos (Qden q))))
  | CastDecimal p s =>
      clamp_to (- (10 ^ p - 1)) (10 ^ p - 1) (round_half_away (q * inject_Z (10 ^ s))) # pow10 s
  end.

Definition hex_value (c : ascii) : option Z :=
  if is_digit c then Some (code c - 48)
  else if in_range 97 102 c then Some (code c - 87)
  else if in_range 65 70 c then Some (code c - 55)
  else None.

(** UNHEX of an even number of hexadecimal digits. *)
Fixpoint UNHEX (s : gostring) : option gostring :=
  match s with
  | [] => Some []
  | a :: b :: s' =>
      match hex_value a, hex_value b, UNHEX s' with
      | Some x, Some y, Some t => Some (byte_of (16 * x + y) :: t)
      | _, _, _ => None
      end
  | _ => None
  end.

Definition mysql_value (row : gostring -> mval) (l : mysql_leaf) : option bool :=
  let stored c := row (mc_name (fc_column c)) in
  match l with
  | MIsNull c => Some (match stored c with MyNull => true | _ => false end)
  | MIsNotNull c => Some (match stored c with MyNull => false | _ => true end)
  | MBinary c op hex =>
      match stored c, UNHEX hex with MyText s, Some t => Some (holds op (Compare s t)) | _, _ => None end
  | MBit c op text =>
      match stored c with
      | MyBit b => Some (holds op (inject_Z (Z.b2z b) ?= default 0%Q (numeral text))%Q)
      | _ => None
      end
  | MNumber c op t text =>
      match stored c with
      | MyNumber k scale => Some (holds op (k # pow10 scale ?= cast_value t text)%Q)
      | _ => None
      end
  | MFold c value => match stored c with MyNull => None | _ => Some value end
  end.

(** The values a column can store: an integer of its width, a decimal of its precision
    and scale, or a bit or text. *)
Definition in_domain (c : featureFilterColumn) (v : mval) : Prop :=
  match fc_kind c, v with
  | _, MyNull => True
  | QueryableInteger, MyNumber k scale =>
      scale = 0 /\ (if fc_unsigned c then 0 <= k < 2 ^ fc_bits c else - 2 ^ (fc_bits c - 1) <= k < 2 ^ (fc_bits c - 1))
  | QueryableNumber, MyNumber k scale =>
      scale = fc_scale c /\ Z.abs k < 10 ^ fc_precision c /\ (fc_unsigned c = true -> 0 <= k)
  | QueryableBoolean, MyBit _ => True
  | QueryableString, MyText _ => True
  | _, _ => False
  end.

Definition public_value (v : mval) : field_value :=
  match v with
  | MyNull => VNull
  | MyNumber k scale => VNumber (k # pow10 scale)
  | MyBit b => VBoolean b
  | MyText s => VString s
  end.

(** ** Columns *)

(** What a queryable column satisfies. *)
Definition column_ok (c : featureFilterColumn) : Prop :=
  match fc_kind c with
  | QueryableInteger => 8 <= fc_bits c <= 64 /\ fc_scale c = 0
  | QueryableNumber => 1 <= fc_precision c <= 65 /\ 0 <= fc_scale c <= 30
  | QueryableBoolean | QueryableString => True
  | _ => False
  end.

Lemma filter_column_ok (column : featureColumn) (c : featureFilterColumn) :
  filter_column column = Some c -> column_ok c.
Proof.
  unfold filter_column. destruct (integralColumn column) as [bits unsigned] eqn:Ei.
  assert (bits = 0 \/ 8 <= bits <= 64) as Hbits.
  { unfold integralColumn in Ei. injection Ei as <- _. repeat case_match; lia. }
  destruct (generatedColumn column); [done|].
  destruct (Z.eqb_spec bits 0) as [E|E]; cbn [negb]; [|intros [= <-]; unfold column_ok; cbn; split; lia].
  destruct (_ && _); [by intros [= <-]|].
  destruct (_ || _); [|destruct (_ && _); [by intros [= <-]|done]].
  destruct (decimal_metadata _) as [precision scale].
  destruct (_ || _) eqn:Eb; [done|]. intros [= <-]. rewrite !orb_false_iff, !Z.ltb_ge in Eb. unfold column_ok. cbn. lia.
Qed.

(** The bound that a comparison is compiled to is read back exactly. *)
Lemma numeral_FormatInt (z : Z) : numeral (FormatInt z) = Some (z # 1).
Proof.
  unfold FormatInt.
  assert (0 <= Z.abs z) as Ha by lia.
  pose proof (numeral_read (z <? 0) (FormatUint (Z.abs z)) [] (Z.abs z) (FormatUint_digits _ Ha) (FormatUint_nonempty _)) as H.
  rewrite app_nil_r, parse_FormatUint in H by done. specialize (H eq_refl). rewrite sign_abs in H.
  rewrite beq_refl, app_nil_r in H. rewrite (@blen_nil ascii) in H. change (pow10 0) with 1%positive in H.
  rewrite <- H. f_equal. destruct (Z.ltb_spec z 0).
  - by replace (Z.abs z) with (- z) by lia.
  - by replace (Z.abs z) with z by lia.
Qed.

Lemma round_half_away_Z (q : Q) (z : Z) : (q == inject_Z z)%Q -> round_half_away q = z.
Proof.
  assert (forall x y, (x == inject_Z y)%Q -> Qfloor (x + (1 # 2)) = y) as Hf.
  { intros x y ->. unfold Qfloor, inject_Z, Qplus. cbn. symmetry. apply (Z.div_unique _ _ _ 1); lia. }
  intros E. unfold round_half_away. destruct (Qnum q <? 0); [|by apply Hf].
  rewrite (Hf (- q)%Q (- z)); [lia|]. by rewrite E, inject_Z_opp.
Qed.

Lemma cast_decimal_exact (p s b : Z) (text : gostring) :
  0 <= s -> - (10 ^ p - 1) <= b <= 10 ^ p - 1 -> numeral text = Some (b # pow10 s) ->
  cast_value (CastDecimal p s) text = (b # pow10 s).
Proof.
  intros Hs Hb E. unfold cast_value. rewrite E. cbn [default].
  rewrite (round_half_away_Z _ b).
  - f_equal. unfold clamp_to. lia.
  - unfold Qeq, Qmult, inject_Z. cbn. rewrite Pos2Z.inj_mul, pow10_pos by done. ring.
Qed.

Lemma cast_bound (c : featureFilterColumn) (b : Z) :
  column_ok c -> fc_kind c = QueryableInteger \/ fc_kind c = QueryableNumber ->
  fst (number_range c) <= b <= snd (number_range c) ->
  (cast_value (number_cast c) (bound_text c b) == b # pow10 (fc_scale c))%Q.
Proof.
  unfold column_ok, number_range, number_cast, bound_text.
  intros Hok [E|E]; rewrite E in *; closed_decide; cbn [fst snd]; intros Hb.
  - destruct Hok as [Hbits ->]. change (pow10 0) with 1%positive.
    assert (2 ^ fc_bits c <= 2 ^ 64) by (apply Z.pow_le_mono_r; lia).
    assert (2 ^ (fc_bits c - 1) <= 2 ^ 63) by (apply Z.pow_le_mono_r; lia).
    destruct (fc_unsigned c); cbn [fst snd] in Hb.
    + rewrite (cast_decimal_exact 20 0 b); [done|lia|lia|apply numeral_FormatInt].
    + unfold cast_value. rewrite numeral_FormatInt. cbn [default id Qnum Qden]. rewrite Z.quot_1_r.
      unfold clamp_to, minInt64, maxInt64. rewrite Z.min_r, Z.max_r by lia. done.
  - rewrite (cast_decimal_exact (fc_precision c) (fc_scale c) b); [done|lia| |apply numeral_decimal_text; lia].
    assert (0 < 10 ^ fc_precision c) by (apply Z.pow_pos_nonneg; lia). destruct (fc_unsigned c); cbn [fst snd] in Hb; lia.
Qed.

Lemma hex_value_digit (d : Z) : 0 <= d < 16 -> hex_value (hex_digit d) = Some d.
Proof.
  intros H. assert (d ∈ seqZ 0 16) as Hd by (apply elem_of_seqZ; lia). revert Hd. clear H. revert d.
  apply Forall_forall. repeat constructor.
Qed.

Lemma UNHEX_EncodeToString (s : gostring) : UNHEX (EncodeToString s) = Some s.
Proof.
  induction s as [|c s IH]; [done|]. unfold EncodeToString in *. cbn [map concat app UNHEX].
  pose proof (code_range c) as Hc. pose proof (Z.div_mod (code c) 16 ltac:(lia)). pose proof (Z.mod_pos_bound (code c) 16 ltac:(lia)).
  rewrite !hex_value_digit by lia. rewrite IH. f_equal. f_equal. rewrite <- (byte_of_code c) at 3. f_equal. lia.
Qed.

(** ** Leaves *)

Definition row_ok (columns : gmap gostring featureFilterColumn) (row : gostring -> mval) : Prop :=
  forall name c, columns !! name = Some c -> in_domain c (row (mc_name (fc_column c))).

Definition public_row (columns : gmap gostring featureFilterColumn) (row : gostring -> mval) (name : gostring) : field_value :=
  match columns !! name with
  | Some c => public_value (row (mc_name (fc_column c)))
  | None => VNull
  end.

Abbreviation mysql_compiled columns := (compiled_to mysql_dialect mysql_value (public_row columns) (row_ok columns)).

Lemma mysql_leaf_compiled (columns : gmap gostring featureFilterColumn) (m : (gostring -> field_value) -> option bool)
    (args : list sql_arg) (e : mysql_leaf) (text : gostring) (args' : list sql_arg) :
  text = mysql_text e -> args' = args ++ mysql_args e ->
  (forall row, row_ok columns row -> mysql_value row e = m (public_row columns row)) ->
  mysql_compiled columns m args (Ok (text, args')).
Proof. intros -> -> H. by exists (PLeaf e). Qed.

Lemma mysql_operator_text_ok (op : FilterCompareOperator) :
  op <> FilterComparisonInvalid -> featureFilterOperator op = Ok (operator_text op).
Proof. intros H. unfold featureFilterOperator. by rewrite comparison_text_valid. Qed.

Lemma domain_number (c : featureFilterColumn) (v : mval) :
  column_ok c -> fc_kind c = QueryableInteger \/ fc_kind c = QueryableNumber -> in_domain c v ->
  v = MyNull
  \/ exists k, v = MyNumber k (fc_scale c) /\ fst (number_range c) <= k <= snd (number_range c).
Proof.
  unfold in_domain, column_ok, number_range.
  intros Hok [E|E] Hv; rewrite E in *; closed_decide; destruct v as [|k s| |]; try done; auto; right; exists k.
  - destruct Hv as [-> Hk], Hok as [_ ->]. split; [done|]. destruct (fc_unsigned c); cbn [fst snd]; lia.
  - destruct Hv as (-> & Hk & Hu). split; [done|]. destruct (fc_unsigned c); cbn [fst snd]; [specialize (Hu eq_refl)|]; lia.
Qed.

(** A comparison of a number is decided exactly on the lattice of its column. *)
Lemma compileNumber_exact (c : featureFilterColumn) (op : FilterCompareOperator) (l : FilterLiteral) (q : Q)
    (args : list sql_arg) :
  column_ok c -> fc_kind c = QueryableInteger \/ fc_kind c = QueryableNumber ->
  op <> FilterComparisonInvalid -> Number l = Some q ->
  exists e, compileNumber c (column_source c) op l args = Ok (mysql_text e, args ++ mysql_args e)
    /\ forall row, in_domain c (row (mc_name (fc_column c))) ->
         mysql_value row e = compare_meaning op (public_value (row (mc_name (fc_column c)))) l.
Proof.
  intros Hok Hk Hop Hq. unfold compileNumber. rewrite Hq.
  pose proof (cast_bound c) as Hcast. pose proof (fun v => domain_number c v Hok Hk) as Hdom.
  assert (0 <= fc_scale c) as Hs by (unfold column_ok in Hok; destruct Hk as [E|E]; rewrite E in Hok; lia).
  destruct (number_range c) as [lo hi]. cbn [fst snd] in *.
  set (qs := (q * inject_Z (10 ^ fc_scale c))%Q). destruct (directed_total lo hi op qs Hop) as [t Ht]. rewrite Ht.
  assert (forall k, lo <= k <= hi -> decide_test t k = holds op (k # pow10 (fc_scale c) ?= q)%Q) as Hdec.
  { intros k Hkr. rewrite compare_scaled by done. by apply (directed_correct lo hi). }
  destruct t as [value|d b].
  - exists (MFold c value). rewrite app_nil_r. split; [done|]. intros row [E|(k & E & Hkr)]%Hdom; cbn; rewrite E; [done|].
    cbn. rewrite Hq. cbn. by rewrite <- Hdec.
  - destruct (directed_valid _ _ _ _ _ _ Ht) as [Hd Hb]. rewrite (mysql_operator_text_ok d Hd). cbn [rbind].
    exists (MNumber c d (number_cast c) (bound_text c b)). split; [done|].
    intros row [E|(k & E & Hkr)]%Hdom; cbn [mysql_value]; rewrite E; [done|]. cbn [compare_meaning public_value].
    rewrite Hcast, Hq by auto. cbn [fmap option_fmap option_map]. rewrite <- Hdec by done. cbn [decide_test].
    by rewrite compare_same_scale.
Qed.

Lemma mysql_compile_compare_exact (columns : gmap gostring featureFilterColumn) (name : gostring) (c : featureFilterColumn)
    (op : FilterCompareOperator) (l : FilterLiteral) (args : list sql_arg) :
  columns !! name = Some c -> column_ok c -> op <> FilterComparisonInvalid ->
  compatible (fc_kind c) (fl_kind l) = true -> is_ok (NewFilterLiteral (fl_kind l) (fl_text l)) = true ->
  mysql_compiled columns (fun v => compare_meaning op (v name) l) args (compile_compare c op l args).
Proof.
  intros Hc Hcol Hop Hl Hok. unfold compile_compare. rewrite (mysql_operator_text_ok op Hop). cbn [rbind].
  assert (forall row, row_ok columns row -> in_domain c (row (mc_name (fc_column c)))) as Hdom by (intros row H; by eapply H).
  assert (forall row, public_row columns row name = public_value (row (mc_name (fc_column c)))) as Hpub
    by (intros row; unfold public_row; by rewrite Hc).
  assert (fc_kind c = QueryableInteger \/ fc_kind c = QueryableNumber ->
          mysql_compiled columns (fun v => compare_meaning op (v name) l) args
            (compileNumber c (column_source c) op l args)) as Hnum.
  { intros Hk. assert (fl_kind l = FilterNumber) as El.
    { destruct Hk as [E|E]; rewrite E in Hl; by apply bool_decide_eq_true in Hl. }
    destruct (number_literal l Hok El) as [q Hq].
    destruct (compileNumber_exact c op l q args Hcol Hk Hop Hq) as (e & -> & He). eapply mysql_leaf_compiled; [done..|].
    intros row Hrow. rewrite Hpub. auto. }
  destruct (fc_kind c) eqn:E; try (unfold column_ok in Hcol; by rewrite E in Hcol); auto.
  - apply (mysql_leaf_compiled columns _ args (MBinary c op (EncodeToString (fl_text l)))); [done..|].
    intros row Hrow%Hdom. rewrite Hpub. cbn. rewrite UNHEX_EncodeToString.
    unfold in_domain in Hrow. rewrite E in Hrow. by destruct (row _).
  - apply (mysql_leaf_compiled columns _ args (MBit c op (if literal_true l then B "1" else B "0"))); [done..|].
    intros row Hrow%Hdom. rewrite Hpub. cbn. unfold in_domain in Hrow. rewrite E in Hrow.
    destruct (row _) as [| |b|]; try done. cbn. do 2 f_equal. by destruct b, (literal_true l).
Qed.

Lemma mysql_public_null {A : Type} (c : featureFilterColumn) (v : mval) (a b : A) :
  match public_value v with VNull => a | _ => b end = match v with MyNull => a | _ => b end.
Proof. by destruct v. Qed.

#[export] Instance mysql_groups : Groups mysql_dialect.
Proof.
  intros conj n ps Hne. cbn [d_join mysql_dialect]. unfold balancedFilterSQL. rewrite length_print_list.
  by apply balanced_grouping.
Qed.

(** ** Whole filters *)

Lemma mysql_catalog_entries_ok (source_column : gostring -> option featureColumn) (properties : list gostring)
    (f : FeatureQueryable) (c : featureFilterColumn) :
  (f, c) ∈ catalog_entries source_column properties -> fc_kind c = fq_type f /\ column_ok c.
Proof.
  unfold catalog_entries. rewrite list_elem_of_omap. intros (name & _ & H).
  apply bind_Some in H as (column & _ & (c' & E & [= <- <-])%bind_Some).
  split; [done|]. by eapply filter_column_ok.
Qed.

(** The leaves of a profile with a catalog are compiled correctly. *)
Lemma initializeFilterCatalog_correct (source_column : gostring -> option featureColumn) (f0 f : featureProfile) :
  initializeFilterCatalog source_column f0 = f -> fp_error f = None ->
  leaves_correct mysql_dialect (compile_leaf (fp_columns f)) mysql_value (public_row (fp_columns f))
    (row_ok (fp_columns f)) (fp_catalog f)
  /\ Queryables_Validate (fp_catalog f) = Ok tt
  /\ fp_filter f = fp_filter f0 /\ fp_filterArgs f = fp_filterArgs f0.
Proof.
  unfold initializeFilterCatalog. pose proof (mysql_catalog_entries_ok source_column (fp_properties f0)) as Hm.
  destruct (NewFeatureQueryables _) as [catalog|] eqn:En; intros <-; [|done]. intros _. cbn [fp_catalog fp_columns fp_filter fp_filterArgs].
  set (columns := index_columns _). split_and!; [split|by eapply catalog_again|done..].
  - intros name f args Hf op l. destruct (index_columns_lookup _ _ _ _ En Hf) as (c & Hc & Hin & _). fold columns in Hc.
    unfold compile_leaf. rewrite Hc.
    split; [apply (mysql_leaf_compiled columns _ _ (MIsNull c))|apply (mysql_leaf_compiled columns _ _ (MIsNotNull c))];
      try done; try (cbn; by rewrite app_nil_r);
      intros row Hrow; unfold public_row; rewrite Hc; cbn [mysql_value]; by rewrite mysql_public_null.
  - intros name f op l args Hf Hop Hl Hok. destruct (index_columns_lookup _ _ _ _ En Hf) as (c & Hc & Hin & _).
    fold columns in Hc. unfold compile_leaf. rewrite Hc. destruct (Hm _ _ Hin) as [Hk Hp].
    apply mysql_compile_compare_exact; try done. by rewrite Hk.
Qed.


