(* ===== verification/FilterPostgis.v ===== *)
(** * provider/postgis/filter_sql.go

    The PostGIS provider's filter compiler, with the public fields and the column
    lookup it starts from.  Comparisons are left to PostgreSQL's numeric, boolean and
    bytea types; parameters are numbered.  [pg_leaf] is the syntax of the tests it
    produces, [pg_value] what PostgreSQL makes of them. *)

From S2P Require Import Prelude GoText Temporal Filter Float64 FilterDialect.

#[local] Open Scope Z_scope.

Definition featureInvalid (field reason : string) : QueryError := InvalidFeatureQueryError field reason.

Definition featureUnsupported (reason : string) : QueryError := mkQueryError "filter" reason true.

Definition quote_byte : ascii := byte_of 34.

Definition pgQuoteIdent (name : gostring) : gostring := quote_with quote_byte name.

(** ** Columns *)

Record featureColumn := mkColumn {
  pc_name : gostring; pc_number : Z; pc_oid : Z; pc_typmod : Z; pc_generated : gostring; pc_identity : gostring;
  pc_collation : Z; pc_notNull : bool; pc_typeName : gostring; pc_typeSchema : gostring; pc_extension : gostring
}.

Record featureProjection := mkProjection { pp_output : gostring; pp_column : featureColumn }.

(** The parts of a feature profile that filters use. *)
Record featureProfile := mkProfile {
  fp_queryables : FeatureQueryables; fp_queryablesErr : option QueryError; fp_filterColumns : gmap gostring featureColumn;
  fp_projections : list featureProjection; fp_publicFields : list gostring;
  fp_where : gostring; fp_whereArgs : list sql_arg;
  fp_columns : list featureColumn; fp_id : gostring; fp_geometry : gostring; fp_private : gset gostring
}.

(** Fold the ASCII letters of an identifier. *)
Definition featureFoldIdentifier (name : gostring) : gostring :=
  EncodeRunes (map (fun ir => let r := snd ir in if (65 <=? r) && (r <=? 90) then r + 32 else r) (range_string name)).

Definition privatePhysicalField (f : featureProfile) (name : gostring) : bool :=
  let reserved := featureFoldIdentifier name in
  bool_decide (name ∈ fp_private f) || beq reserved (B "min_zoom") || beq reserved (B "max_zoom").

Definition featurePropertyType (oid : Z) : bool :=
  bool_decide (oid ∈ [16; 17; 20; 21; 23; 25; 700; 701; 1042; 1043; 114; 3802]).

(** The first loop of featureFields: the public outputs in order. *)
Fixpoint public_outputs (f : featureProfile) (ps : list featureProjection) : result QueryError (list gostring) :=
  match ps with
  | [] => Ok []
  | p :: ps' =>
      if beq (pp_output p) (fp_geometry f) || beq (pp_output p) (fp_id f) || privatePhysicalField f (pc_name (pp_column p))
      then public_outputs f ps'
      else if negb (length (fp_publicFields f) =? 0)%nat && negb (existsb (beq (pp_output p)) (fp_publicFields f))
      then public_outputs f ps'
      else if negb (featurePropertyType (pc_oid (pp_column p))) then
        Err (featureUnsupported "source property type is not admitted for JSON output")
      else
        let? public := public_outputs f ps' in
        Ok (pp_output p :: public)
  end.

(** The third loop: the requested fields without repetition. *)
Fixpoint requested_fields (eligible : list gostring) (requested seen : list gostring) : result QueryError (list gostring) :=
  match requested with
  | [] => Ok []
  | field :: rest =>
      if negb (existsb (beq field) eligible) then
        Err (featureInvalid "fields" "unknown or private output property")
      else
        let? more := requested_fields eligible rest (field :: seen) in
        Ok (if existsb (beq field) seen then more else field :: more)
  end.

Definition featureFields (f : featureProfile) (requested : list gostring) : result QueryError (list gostring) :=
  let projections :=
    match fp_projections f with
    | [] => map (fun c => mkProjection (pc_name c) c) (fp_columns f)
    | ps => ps
    end in
  let? public := public_outputs f projections in
  if existsb (fun field => negb (existsb (beq field) public) && negb (beq field (fp_id f))
                           && negb (beq field (fp_geometry f)) && negb (privatePhysicalField f field)) (fp_publicFields f)
  then Err (featureInvalid "fields" "unknown configured output property")
  else
    match requested with
    | [] => Ok public
    | _ => requested_fields public requested []
    end.

Definition column (p : featureProfile) (name : gostring) : option featureColumn :=
  match fp_projections p with
  | [] => List.find (fun c => beq (pc_name c) name) (fp_columns p)
  | ps => pp_column <$> List.find (fun p => beq (pp_output p) name) ps
  end.

Definition column_kind (c : featureColumn) : option QueryableType :=
  if negb (beq (pc_generated c) []) || negb (beq (pc_typeSchema c) (B "pg_catalog")) then None
  else if (pc_oid c =? 20) || (pc_oid c =? 21) || (pc_oid c =? 23) then Some QueryableInteger
  else if pc_oid c =? 16 then Some QueryableBoolean
  else if (pc_oid c =? 25) || (pc_oid c =? 1043) then Some QueryableString
  else None.

Definition catalog_entries (f : featureProfile) (fields : list gostring) : list (FeatureQueryable * featureColumn) :=
  omap (fun name =>
    c ← column f name; kind ← column_kind c; Some (mkQueryable name kind (negb (pc_notNull c)), c)) fields.

Definition with_queryables (f : featureProfile) (catalog : FeatureQueryables) (err : option QueryError)
    (columns : gmap gostring featureColumn) : featureProfile :=
  mkProfile catalog err columns (fp_projections f) (fp_publicFields f) (fp_where f) (fp_whereArgs f) (fp_columns f)
    (fp_id f) (fp_geometry f) (fp_private f).

Definition freezeQueryables (f : featureProfile) : result QueryError featureProfile :=
  let? fields := featureFields f [] in
  let entries := catalog_entries f fields in
  let? catalog := NewFeatureQueryables (map fst entries) in
  Ok (with_queryables f catalog (fp_queryablesErr f) (index_columns entries)).

Definition freezeOptionalQueryables (f : featureProfile) : featureProfile :=
  let f := with_queryables f (fp_queryables f) None (fp_filterColumns f) in
  match freezeQueryables f with
  | Ok f' => f'
  | Err _ =>
      with_queryables f (mkQueryables [] false) (Some (featureUnsupported "optional queryable catalog is unavailable")) ∅
  end.

(** ** The compiler *)

Definition column_source (c : featureColumn) : gostring := B "l." ++ pgQuoteIdent (pc_name c).

(** [fmt.Sprintf("$%d", len(args)+1)] *)
Definition parameter_text (n : nat) : gostring := B "$" ++ FormatInt (Z.of_nat n + 1).

Definition operator_call (op : gostring) : gostring := B " OPERATOR(pg_catalog." ++ op ++ B ") ".

Definition compile_compare (c : featureColumn) (op : FilterCompareOperator) (literal : FilterLiteral)
    (args : list sql_arg) : compiled sql_arg :=
  let source := column_source c in
  match comparison_text op with
  | None => Err (featureInvalid "filter" "invalid comparison")
  | Some operator =>
      let parameter := parameter_text (length args) in
      if (pc_oid c =? 20) || (pc_oid c =? 21) || (pc_oid c =? 23) then
        Ok (source ++ B "::pg_catalog.numeric" ++ operator_call operator ++ parameter
              ++ B "::pg_catalog.text::pg_catalog.numeric",
            args ++ [ArgString (fl_text literal)])
      else if pc_oid c =? 16 then
        Ok (source ++ operator_call operator ++ parameter ++ B "::pg_catalog.bool", args ++ [ArgBool (literal_true literal)])
      else if (pc_oid c =? 25) || (pc_oid c =? 1043) then
        Ok (B "pg_catalog.convert_to(" ++ source ++ B ",'UTF8')" ++ operator_call operator ++ parameter
              ++ B "::pg_catalog.bytea",
            args ++ [ArgBytes (fl_text literal)])
      else Err (featureUnsupported "queryable comparison profile is unavailable")
  end.

Definition compile_leaf (columns : gmap gostring featureColumn) (kind : FilterKind) (op : FilterCompareOperator)
    (property : gostring) (literal : FilterLiteral) (args : list sql_arg) : compiled sql_arg :=
  match kind with
  | FilterCompare | FilterIsNull | FilterIsNotNull =>
      match columns !! property with
      | None => Err (featureInvalid "filter" "unknown queryable property")
      | Some c =>
          match kind with
          | FilterIsNull => Ok (column_source c ++ B " IS NULL", args)
          | FilterIsNotNull => Ok (column_source c ++ B " IS NOT NULL", args)
          | _ => compile_compare c op literal args
          end
      end
  | _ => Err (featureInvalid "filter" "invalid filter node")
  end.

(** The tests the compiler writes, on a column. *)
Inductive pg_leaf :=
| PgIsNull (c : featureColumn)
| PgIsNotNull (c : featureColumn)
| PgNumeric (c : featureColumn) (op : FilterCompareOperator) (text : gostring)
| PgBool (c : featureColumn) (op : FilterCompareOperator) (b : bool)
| PgBytea (c : featureColumn) (op : FilterCompareOperator) (s : gostring).

Definition pg_text (n : nat) (l : pg_leaf) : gostring :=
  match l with
  | PgIsNull c => column_source c ++ B " IS NULL"
  | PgIsNotNull c => column_source c ++ B " IS NOT NULL"
  | PgNumeric c op _ =>
      column_source c ++ B "::pg_catalog.numeric" ++ operator_call (operator_text op) ++ parameter_text n
        ++ B "::pg_catalog.text::pg_catalog.numeric"
  | PgBool c op _ => column_source c ++ operator_call (operator_text op) ++ parameter_text n ++ B "::pg_catalog.bool"
  | PgBytea c op _ =>
      B "pg_catalog.convert_to(" ++ column_source c ++ B ",'UTF8')" ++ operator_call (operator_text op) ++ parameter_text n
        ++ B "::pg_catalog.bytea"
  end.

Definition pg_args (l : pg_leaf) : list sql_arg :=
  match l with
  | PgNumeric _ _ s => [ArgString s]
  | PgBool _ _ b => [ArgBool b]
  | PgBytea _ _ s => [ArgBytes s]
  | _ => []
  end.

Definition pg_dialect : dialect pg_leaf sql_arg :=
  mkDialect (fun b => if b then B "TRUE" else B "FALSE") true false (fun conj values => Join values (connective conj))
    pg_text pg_args.

Definition compileFeatureFilter (columns : gmap gostring featureColumn) : FilterNode -> list sql_arg -> compiled sql_arg :=
  compile_filter pg_dialect (compile_leaf columns).

Definition prepareFeatureFilter (f : featureProfile) (expression : option FilterExpression)
    : result QueryError featureProfile :=
  match expression with
  | None => Ok f
  | Some e =>
      match fp_queryablesErr f with
      | Some err => Err err
      | None =>
          match Queryables_Validate (fp_queryables f) with
          | Err _ => Err (featureUnsupported "queryable metadata is unavailable")
          | Ok _ =>
              let? resolved := ResolveFeatureFilter e (fp_queryables f) in
              let? (predicate, args) :=
                compileFeatureFilter (fp_filterColumns f) (Root (rf_expression resolved)) (fp_whereArgs f) in
              if (512 * 1024 <? blen predicate) || (8192 <? blen args) then
                Err (featureInvalid "filter" "compiled filter exceeds resource limits")
              else
                let where' :=
                  if negb (beq (fp_where f) []) then B "(" ++ fp_where f ++ B ") AND (" ++ predicate ++ B ")" else predicate in
                Ok (mkProfile (fp_queryables f) (fp_queryablesErr f) (fp_filterColumns f) (fp_projections f)
                      (fp_publicFields f) where' args (fp_columns f) (fp_id f) (fp_geometry f) (fp_private f))
          end
      end
  end.

(** ** What PostgreSQL makes of the tests *)

Inductive pval := PvNull | PvInt (z : Z) | PvBool (b : bool) | PvText (s : gostring).

(** Numeric reads a decimal literal with an exponent exactly, within limits that
    filter literals respect; convert_to gives the UTF-8 bytes of a text. *)
Definition pg_value (row : gostring -> pval) (l : pg_leaf) : option bool :=
  match l with
  | PgIsNull c => Some (match row (pc_name c) with PvNull => true | _ => false end)
  | PgIsNotNull c => Some (match row (pc_name c) with PvNull => false | _ => true end)
  | PgNumeric c op text =>
      match row (pc_name c), Rat_SetString text with
      | PvInt z, Some q => Some (holds op (inject_Z z ?= q)%Q)
      | _, _ => None
      end
  | PgBool c op b =>
      match row (pc_name c) with PvBool x => Some (holds op (Z.b2z x ?= Z.b2z b)) | _ => None end
  | PgBytea c op s =>
      match row (pc_name c) with PvText t => Some (holds op (Compare t s)) | _ => None end
  end.

(** The values a column can store, by the oid of its type: int8, int2, int4, bool, text
    and varchar. *)
Definition in_domain (c : featureColumn) (v : pval) : Prop :=
  match v with
  | PvNull => True
  | PvInt z =>
      (pc_oid c = 20 /\ - 2 ^ 63 <= z < 2 ^ 63) \/ (pc_oid c = 21 /\ - 2 ^ 15 <= z < 2 ^ 15)
      \/ (pc_oid c = 23 /\ - 2 ^ 31 <= z < 2 ^ 31)
  | PvBool _ => pc_oid c = 16
  | PvText _ => pc_oid c = 25 \/ pc_oid c = 1043
  end.

Definition public_value (v : pval) : field_value :=
  match v with
  | PvNull => VNull
  | PvInt z => VNumber (inject_Z z)
  | PvBool b => VBoolean b
  | PvText s => VString s
  end.

(** ** Correctness *)

Definition row_ok (columns : gmap gostring featureColumn) (row : gostring -> pval) : Prop :=
  forall name c, columns !! name = Some c -> in_domain c (row (pc_name c)).

Definition public_row (columns : gmap gostring featureColumn) (row : gostring -> pval) (name : gostring) : field_value :=
  match columns !! name with
  | Some c => public_value (row (pc_name c))
  | None => VNull
  end.

Abbreviation pg_compiled columns := (compiled_to pg_dialect pg_value (public_row columns) (row_ok columns)).

Lemma pg_leaf_compiled (columns : gmap gostring featureColumn) (m : (gostring -> field_value) -> option bool)
    (args : list sql_arg) (e : pg_leaf) (text : gostring) (args' : list sql_arg) :
  text = pg_text (length args) e -> args' = args ++ pg_args e ->
  (forall row, row_ok columns row -> pg_value row e = m (public_row columns row)) ->
  pg_compiled columns m args (Ok (text, args')).
Proof. intros -> -> H. by exists (PLeaf e). Qed.

Lemma pg_compile_compare_exact (columns : gmap gostring featureColumn) (name : gostring) (c : featureColumn)
    (k : QueryableType) (op : FilterCompareOperator) (l : FilterLiteral) (args : list sql_arg) :
  columns !! name = Some c -> column_kind c = Some k -> op <> FilterComparisonInvalid ->
  compatible k (fl_kind l) = true -> is_ok (NewFilterLiteral (fl_kind l) (fl_text l)) = true ->
  pg_compiled columns (fun v => compare_meaning op (v name) l) args (compile_compare c op l args).
Proof.
  intros Hc Hk Hop Hl Hok. unfold compile_compare. rewrite (comparison_text_valid op Hop).
  assert (forall row, row_ok columns row -> in_domain c (row (pc_name c))) as Hdom by (intros row H; by eapply H).
  assert (forall row, public_row columns row name = public_value (row (pc_name c))) as Hpub
    by (intros row; unfold public_row; by rewrite Hc).
  unfold column_kind in Hk. destruct (negb _ || negb _); [done|].
  destruct (_ || _ || _) eqn:E1; [|destruct (pc_oid c =? 16) eqn:E2; [|destruct ((pc_oid c =? 25) || (pc_oid c =? 1043)) eqn:E3; [|done]]]; injection Hk as <-;
    cbn [compatible] in Hl; apply bool_decide_eq_true in Hl; rewrite ?orb_true_iff, ?orb_false_iff, ?Z.eqb_eq, ?Z.eqb_neq in *.
  - destruct (number_literal l Hok Hl) as [q Hq].
    apply (pg_leaf_compiled columns _ args (PgNumeric c op (fl_text l))); [done..|].
    intros row Hrow%Hdom. rewrite Hpub. cbn [pg_value].
    assert (Rat_SetString (fl_text l) = Some q) as -> by (unfold Number in Hq; by rewrite Hl in Hq).
    destruct (row (pc_name c)); cbn in Hrow; try done; [|lia..]. cbn. by rewrite Hq.
  - apply (pg_leaf_compiled columns _ args (PgBool c op (literal_true l))); [done..|].
    intros row Hrow%Hdom. rewrite Hpub. cbn. destruct (row (pc_name c)); cbn in Hrow; try done; lia.
  - apply (pg_leaf_compiled columns _ args (PgBytea c op (fl_text l))); [done..|].
    intros row Hrow%Hdom. rewrite Hpub. cbn. destruct (row (pc_name c)); cbn in Hrow; try done; lia.
Qed.

Lemma pg_public_null {A : Type} (v : pval) (a b : A) :
  match public_value v with VNull => a | _ => b end = match v with PvNull => a | _ => b end.
Proof. by destruct v. Qed.

#[export] Instance pg_groups : Groups pg_dialect.
Proof. intros conj n ps Hne. by apply join_grouping. Qed.

Lemma pg_catalog_entries_ok (f : featureProfile) (fields : list gostring) (q : FeatureQueryable) (c : featureColumn) :
  (q, c) ∈ catalog_entries f fields -> column_kind c = Some (fq_type q).
Proof.
  unfold catalog_entries. rewrite list_elem_of_omap.
  intros (name & _ & (c' & _ & (k & E & [= <- <-])%bind_Some)%bind_Some). done.
Qed.

(** The leaves of a profile with a catalog are compiled correctly. *)
Lemma freezeOptionalQueryables_correct (f0 f : featureProfile) :
  freezeOptionalQueryables f0 = f -> fp_queryablesErr f = None ->
  leaves_correct pg_dialect (compile_leaf (fp_filterColumns f)) pg_value (public_row (fp_filterColumns f))
    (row_ok (fp_filterColumns f)) (fp_queryables f)
  /\ Queryables_Validate (fp_queryables f) = Ok tt /\ fp_where f = fp_where f0 /\ fp_whereArgs f = fp_whereArgs f0.
Proof.
  unfold freezeOptionalQueryables, freezeQueryables. set (f1 := with_queryables _ _ _ _).
  destruct (featureFields f1 []) as [fields|]; cbn [rbind]; [|by intros <-].
  pose proof (pg_catalog_entries_ok f1 fields) as Hm.
  destruct (NewFeatureQueryables _) as [catalog|] eqn:En; cbn [rbind]; intros <-; [|done]. intros _.
  cbn [with_queryables fp_queryables fp_filterColumns fp_where fp_whereArgs f1].
  set (columns := index_columns _). split_and!; [split|by eapply catalog_again|done..].
  - intros name q args Hf op l. destruct (index_columns_lookup _ _ _ _ En Hf) as (c & Hc & Hin & _). fold columns in Hc.
    unfold compile_leaf. rewrite Hc.
    split; [apply (pg_leaf_compiled columns _ _ (PgIsNull c))|apply (pg_leaf_compiled columns _ _ (PgIsNotNull c))];
      try done; try (cbn; by rewrite app_nil_r);
      intros row Hrow; unfold public_row; rewrite Hc; cbn [pg_value]; by rewrite pg_public_null.
  - intros name q op l args Hf Hop Hl Hok. destruct (index_columns_lookup _ _ _ _ En Hf) as (c & Hc & Hin & _).
    fold columns in Hc. unfold compile_leaf. rewrite Hc. by apply (pg_compile_compare_exact _ _ _ (fq_type q)); auto.
Qed.


