(* ===== verification/FilterHana.v ===== *)
(** * provider/hana/filter_sql.go

    The HANA provider's filter compiler: the catalog built from the projections of a
    source, the comparisons, whose numeric thresholds are rounded towards the
    side that keeps them exact, and the whole predicate.  [hana_leaf] is the syntax
    of the tests it produces, [hana_value] what HANA makes of them. *)

From S2P Require Import Prelude GoText Temporal Filter Float64 Decimal FilterDialect.

#[local] Open Scope Z_scope.

Definition featureInvalid (field reason : string) : QueryError := InvalidFeatureQueryError field reason.

Definition featureUnsupported (reason : string) : QueryError := mkQueryError "filter" reason true.

Definition quoteIdent (name : gostring) : gostring := quote_with (byte_of 34) name.

Definition featureFilterServerVersion : gostring := B "2.00.088.00.1760424921".

(** ** Columns *)

Record featureColumn := mkColumn {
  hc_name : gostring; hc_id : Z; hc_type : gostring; hc_length : Z; hc_scale : Z; hc_nullable : bool;
  hc_collation : gostring; hc_generated : gostring; hc_generation : gostring; hc_hidden : bool; hc_masked : bool
}.

Record featureProjection := mkProjection { hp_output : gostring; hp_physical : gostring }.

(** The parts of a feature source that filters use; [hs_public] is [None] for a nil
    map. *)
Record featureSource := mkSource {
  hs_columns : list featureColumn; hs_projections : list featureProjection;
  hs_private : gset gostring; hs_public : option (gset gostring);
  hs_queryables : FeatureQueryables; hs_filterColumns : gmap gostring featureColumn; hs_filterVersion : gostring;
  hs_filterError : option QueryError
}.

Definition featureComputed (c : featureColumn) : bool :=
  if negb (beq (TrimSpace (hc_generated c)) []) then true
  else negb (existsb (beq (hc_generation c)) [[]; B "ALWAYS AS IDENTITY"; B "BY DEFAULT AS IDENTITY"]).

Definition featureQueryableType (c : featureColumn) : option QueryableType :=
  if existsb (beq (hc_type c)) [B "TINYINT"; B "SMALLINT"; B "INTEGER"; B "BIGINT"] then Some QueryableInteger
  else if beq (hc_type c) (B "DECIMAL") then
    if (0 <? hc_length c) && (hc_length c <=? 38) && (0 <=? hc_scale c) && (hc_scale c <=? hc_length c)
    then Some QueryableNumber else None
  else if beq (hc_type c) (B "BOOLEAN") then Some QueryableBoolean
  else if beq (hc_type c) (B "NVARCHAR") then
    if (0 <? hc_length c) && (hc_length c <=? 5000) then Some QueryableString else None
  else None.

(** [featureCatalog.column] *)
Definition catalog_column (s : featureSource) (name : gostring) : option featureColumn :=
  List.find (fun c => beq (hc_name c) name) (hs_columns s).

(** The body of the loop of buildFeatureQueryables. *)
Definition queryable_entry (s : featureSource) (p : featureProjection) : option (FeatureQueryable * featureColumn) :=
  if bool_decide (hp_physical p ∈ hs_private s)
     || match hs_public s with Some public => negb (bool_decide (hp_output p ∈ public)) | None => false end
  then None
  else
    c ← catalog_column s (hp_physical p);
    if hc_hidden c || hc_masked c || featureComputed c then None
    else
      kind ← featureQueryableType c;
      Some (mkQueryable (hp_output p) kind (hc_nullable c), c).

Definition with_queryables (s : featureSource) (catalog : FeatureQueryables) (columns : gmap gostring featureColumn)
    (version : gostring) (err : option QueryError) : featureSource :=
  mkSource (hs_columns s) (hs_projections s) (hs_private s) (hs_public s) catalog columns version err.

(** The catalog is published whole or not at all. *)
Definition buildFeatureQueryables (s : featureSource) (version : gostring) : featureSource * option QueryError :=
  let s := with_queryables s (mkQueryables [] false) ∅ [] (hs_filterError s) in
  if negb (beq version featureFilterServerVersion) then (s, Some (featureUnsupported "filter server revision is unproved"))
  else
    let entries := omap (queryable_entry s) (hs_projections s) in
    if MaxQueryableFields <? blen entries then
      (s, Some (featureUnsupported "queryable catalog exceeds its field limit"))
    else
      match NewFeatureQueryables (map fst entries) with
      | Ok catalog => (with_queryables s catalog (index_columns entries) version (hs_filterError s), None)
      | Err _ => (s, Some (featureUnsupported "queryable catalog is not representable"))
      end.

(** [version] is the answer of the version query. *)
Definition registerFeatureQueryables (version : option gostring) (s : featureSource) : featureSource :=
  match version with
  | None =>
      with_queryables s (hs_queryables s) (hs_filterColumns s) (hs_filterVersion s)
        (Some (featureUnsupported "filter server profile unavailable"))
  | Some v =>
      let '(s', err) := buildFeatureQueryables s v in
      with_queryables s' (hs_queryables s') (hs_filterColumns s') (hs_filterVersion s') err
  end.

(** ** The compiler *)

Definition featureFilterOperator (op : FilterCompareOperator) : result QueryError gostring :=
  match comparison_text op with
  | Some text => Ok text
  | None => Err (featureInvalid "filter" "unknown comparison operator")
  end.

(** The smallest and largest unscaled integer of a column, and its scale as a power
    of ten. *)
Definition featureNumericDomain (c : featureColumn) : result QueryError (Z * Z * Z) :=
  let signed bits := Ok (- 2 ^ (bits - 1), 2 ^ (bits - 1) - 1, 1) in
  if beq (hc_type c) (B "TINYINT") then Ok (0, 255, 1)
  else if beq (hc_type c) (B "SMALLINT") then signed 16
  else if beq (hc_type c) (B "INTEGER") then signed 32
  else if beq (hc_type c) (B "BIGINT") then signed 64
  else if beq (hc_type c) (B "DECIMAL") then
    if (hc_length c <? 1) || (38 <? hc_length c) || (hc_scale c <? 0) || (hc_length c <? hc_scale c)
    then Err (featureUnsupported "decimal filter metadata invalid")
    else Ok (- (10 ^ hc_length c - 1), 10 ^ hc_length c - 1, 10 ^ hc_scale c)
  else Err (featureUnsupported "numeric filter storage unproved").

Definition featureNullFold (physical : gostring) (value : bool) : gostring :=
  B "(CASE WHEN " ++ physical ++ B " IS NULL THEN NULL ELSE " ++ (if value then B "1" else B "0") ++ B " END = 1)".

(** On the sign of a comparison. *)
Definition featureNumericComparison (comparison : comparison) (op : FilterCompareOperator) : bool :=
  match op, comparison with
  | FilterLess, Lt | FilterLessEqual, (Lt | Eq) | FilterGreater, Gt | FilterGreaterEqual, (Gt | Eq) => true
  | _, _ => false
  end.

(** The threshold of a comparison with the rational [q], or the constant it folds to. *)
Definition threshold_test (minimum maximum : Z) (op : FilterCompareOperator) (q : Q) : bound_test :=
  let threshold := Z.quot (Qnum q) (Zpos (Qden q)) in
  let remainder := Z.rem (Qnum q) (Zpos (Qden q)) in
  if bool_decide (op = FilterEqual) || bool_decide (op = FilterNotEqual) then
    if negb (remainder =? 0) || (threshold <? minimum) || (maximum <? threshold)
    then Fold (bool_decide (op = FilterNotEqual))
    else Test op threshold
  else
    let ceiling := bool_decide (op = FilterLess) || bool_decide (op = FilterGreaterEqual) in
    let threshold :=
      if ceiling && (0 <? remainder) then threshold + 1
      else if negb ceiling && (remainder <? 0) then threshold - 1
      else threshold in
    let low := featureNumericComparison (minimum ?= threshold) op in
    let high := featureNumericComparison (maximum ?= threshold) op in
    if Bool.eqb low high then Fold low else Test op threshold.

Definition compileFeatureNumericFilter (c : featureColumn) (physical : gostring) (op : FilterCompareOperator)
    (literal : FilterLiteral) (args : list sql_arg) : compiled sql_arg :=
  let? (minimum, maximum, scale) := featureNumericDomain c in
  match Number literal with
  | None => Err (featureInvalid "filter" "numeric literal required")
  | Some number =>
      match threshold_test minimum maximum op (number * inject_Z scale) with
      | Fold value => Ok (featureNullFold physical value, args)
      | Test op threshold =>
          let? operator := featureFilterOperator op in
          if beq (hc_type c) (B "DECIMAL") then
            Ok (B "(" ++ physical ++ B " " ++ operator ++ B " CAST(CAST(? AS NVARCHAR(64)) AS DECIMAL("
                  ++ FormatInt (hc_length c) ++ B "," ++ FormatInt (hc_scale c) ++ B ")))",
                args ++ [ArgString (FloatString (threshold # pow10 (hc_scale c)) (hc_scale c))])
          else
            Ok (B "(" ++ physical ++ B " " ++ operator ++ B " CAST(? AS " ++ hc_type c ++ B "))", args ++ [ArgInt threshold])
      end
  end.

Definition column_source (c : featureColumn) : gostring := B "l." ++ quoteIdent (hc_name c).

Definition boolean_case (physical : gostring) : gostring :=
  B "(CASE WHEN " ++ physical ++ B " IS NULL THEN NULL WHEN " ++ physical ++ B "=TRUE THEN 1 ELSE 0 END)".

Definition compile_compare (c : featureColumn) (op : FilterCompareOperator) (literal : FilterLiteral) (args : list sql_arg)
    : compiled sql_arg :=
  let physical := column_source c in
  let? operator := featureFilterOperator op in
  if beq (hc_type c) (B "NVARCHAR") then
    Ok (B "(STRTOBIN(" ++ physical ++ B ",'UTF-8') " ++ operator ++ B " ?)", args ++ [ArgBytes (fl_text literal)])
  else if beq (hc_type c) (B "BOOLEAN") then
    Ok (B "(" ++ boolean_case physical ++ B " " ++ operator ++ B " CAST(? AS INTEGER))",
        args ++ [ArgInt (Z.b2z (literal_true literal))])
  else compileFeatureNumericFilter c physical op literal args.

Definition compile_leaf (columns : gmap gostring featureColumn) (kind : FilterKind) (op : FilterCompareOperator)
    (property : gostring) (literal : FilterLiteral) (args : list sql_arg) : compiled sql_arg :=
  match columns !! property with
  | None => Err (featureInvalid "filter" "unknown queryable property")
  | Some c =>
      match kind with
      | FilterIsNull => Ok (B "(" ++ column_source c ++ B " IS NULL)", args)
      | FilterIsNotNull => Ok (B "(" ++ column_source c ++ B " IS NOT NULL)", args)
      | FilterCompare => compile_compare c op literal args
      | _ => Err (featureInvalid "filter" "unsupported filter node")
      end
  end.

(** The tests the compiler writes, on a column. *)
Inductive hana_leaf :=
| HIsNull (c : featureColumn)
| HIsNotNull (c : featureColumn)
| HBinary (c : featureColumn) (op : FilterCompareOperator) (s : gostring)
| HBoolean (c : featureColumn) (op : FilterCompareOperator) (value : Z)
| HDecimal (c : featureColumn) (op : FilterCompareOperator) (text : gostring)
| HInteger (c : featureColumn) (op : FilterCompareOperator) (value : Z)
| HFold (c : featureColumn) (value : bool).

Definition hana_text (l : hana_leaf) : gostring :=
  match l with
  | HIsNull c => B "(" ++ column_source c ++ B " IS NULL)"
  | HIsNotNull c => B "(" ++ column_source c ++ B " IS NOT NULL)"
  | HBinary c op _ => B "(STRTOBIN(" ++ column_source c ++ B ",'UTF-8') " ++ operator_text op ++ B " ?)"
  | HBoolean c op _ =>
      B "(" ++ boolean_case (column_source c) ++ B " " ++ operator_text op ++ B " CAST(? AS INTEGER))"
  | HDecimal c op _ =>
      B "(" ++ column_source c ++ B " " ++ operator_text op ++ B " CAST(CAST(? AS NVARCHAR(64)) AS DECIMAL("
        ++ FormatInt (hc_length c) ++ B "," ++ FormatInt (hc_scale c) ++ B ")))"
  | HInteger c op _ =>
      B "(" ++ column_source c ++ B " " ++ operator_text op ++ B " CAST(? AS " ++ hc_type c ++ B "))"
  | HFold c value => featureNullFold (column_source c) value
  end.

Definition hana_args (l : hana_leaf) : list sql_arg :=
  match l with
  | HBinary _ _ s => [ArgBytes s]
  | HBoolean _ _ z | HInteger _ _ z => [ArgInt z]
  | HDecimal _ _ s => [ArgString s]
  | _ => []
  end.

(** A valid negation has one child, the only one that the code compiles. *)
Definition hana_dialect : dialect hana_leaf sql_arg :=
  mkDialect (fun b => if b then B "(1=1)" else B "(1=0)") false true
    (fun conj values => B "(" ++ Join values (connective conj) ++ B ")") (fun _ => hana_text) hana_args.

Definition compileFeatureFilterNode (columns : gmap gostring featureColumn) : FilterNode -> list sql_arg -> compiled sql_arg :=
  compile_filter hana_dialect (compile_leaf columns).

(** [supported] is the answer of FeatureQuerySupported. *)
Definition Layer_FeatureQueryables (supported : result QueryError unit) (s : featureSource) : result QueryError FeatureQueryables :=
  check? supported in
  match hs_filterError s with
  | Some err => Err err
  | None =>
      match Queryables_Validate (hs_queryables s) with
      | Err _ => Err (featureUnsupported "queryable metadata unavailable")
      | Ok _ => NewFeatureQueryables (qs_fields (hs_queryables s))
      end
  end.

Definition compileFeatureFilter (supported : result QueryError unit) (s : featureSource) (expression : option FilterExpression)
    : compiled sql_arg :=
  match expression with
  | None => Ok ([], [])
  | Some e =>
      let? catalog := Layer_FeatureQueryables supported s in
      let? resolved := ResolveFeatureFilter e catalog in
      compileFeatureFilterNode (hs_filterColumns s) (Root (rf_expression resolved)) []
  end.

(** ** What HANA makes of the tests *)

(** A stored value; a number is its unscaled integer and its scale. *)
Inductive hval := HvNull | HvNumber (k scale : Z) | HvBool (b : bool) | HvText (s : gostring).

(** The unscaled integers that a numeric type represents, and their scale. *)
Definition represents (c : featureColumn) (k scale : Z) : Prop :=
  (hc_type c = B "TINYINT" /\ scale = 0 /\ 0 <= k < 2 ^ 8)
  \/ (hc_type c = B "SMALLINT" /\ scale = 0 /\ - 2 ^ 15 <= k < 2 ^ 15)
  \/ (hc_type c = B "INTEGER" /\ scale = 0 /\ - 2 ^ 31 <= k < 2 ^ 31)
  \/ (hc_type c = B "BIGINT" /\ scale = 0 /\ - 2 ^ 63 <= k < 2 ^ 63)
  \/ (hc_type c = B "DECIMAL" /\ scale = hc_scale c /\ Z.abs k < 10 ^ hc_length c).

#[export] Instance represents_dec (c : featureColumn) (k scale : Z) : Decision (represents c k scale).
Proof. unfold represents. apply _. Defined.

(** A CAST to the type of a numeric column, of a value the type represents; another
    value is an error. *)
Definition cast_value (c : featureColumn) (q : Q) : option Q :=
  let scale := if beq (hc_type c) (B "DECIMAL") then hc_scale c else 0 in
  let k := (q * inject_Z (10 ^ scale))%Q in
  if is_integer k && bool_decide (represents c (Qfloor k) scale) then Some q else None.

Definition hana_value (row : gostring -> hval) (l : hana_leaf) : option bool :=
  match l with
  | HIsNull c => Some (match row (hc_name c) with HvNull => true | _ => false end)
  | HIsNotNull c => Some (match row (hc_name c) with HvNull => false | _ => true end)
  | HBinary c op s => match row (hc_name c) with HvText t => Some (holds op (Compare t s)) | _ => None end
  | HBoolean c op z => match row (hc_name c) with HvBool b => Some (holds op (Z.b2z b ?= z)) | _ => None end
  | HDecimal c op text =>
      match row (hc_name c), numeral text ≫= cast_value c with
      | HvNumber k scale, Some q => Some (holds op (k # pow10 scale ?= q)%Q)
      | _, _ => None
      end
  | HInteger c op z =>
      match row (hc_name c), cast_value c (inject_Z z) with
      | HvNumber k scale, Some q => Some (holds op (k # pow10 scale ?= q)%Q)
      | _, _ => None
      end
  | HFold c value => match row (hc_name c) with HvNull => None | _ => Some value end
  end.

(** The values a column can store, by its type. *)
Definition in_domain (c : featureColumn) (v : hval) : Prop :=
  match v with
  | HvNull => True
  | HvNumber k scale => represents c k scale
  | HvBool _ => hc_type c = B "BOOLEAN"
  | HvText _ => hc_type c = B "NVARCHAR"
  end.

Definition public_value (v : hval) : field_value :=
  match v with
  | HvNull => VNull
  | HvNumber k scale => VNumber (k # pow10 scale)
  | HvBool b => VBoolean b
  | HvText s => VString s
  end.

(** ** Thresholds *)

Lemma compare_quot (v : Z) (q : Q) :
  let t := Z.quot (Qnum q) (Zpos (Qden q)) in
  let r := Z.rem (Qnum q) (Zpos (Qden q)) in
  (inject_Z v ?= q)%Q
  = if r =? 0 then v ?= t else if 0 <? r then (if v <=? t then Lt else Gt) else (if v <? t then Lt else Gt).
Proof.
  destruct q as [n d]. unfold Qcompare. cbn [Qnum Qden inject_Z]. rewrite Z.mul_1_r.
  set (t := Z.quot n (Zpos d)). set (r := Z.rem n (Zpos d)). cbn zeta.
  pose proof (Z.quot_rem' n (Zpos d)) as E. fold t r in E. rewrite E. clear E.
  assert (- Zpos d < r < Zpos d) as Hr by (pose proof (Z.rem_bound_abs n (Zpos d) ltac:(lia)); unfold r; lia).
  clearbody t r. destruct (Z.eqb_spec r 0) as [->|H0].
  - rewrite Z.add_0_r. destruct (Z.compare_spec v t) as [->|H|H].
    + apply Z.compare_eq_iff. lia.
    + apply Z.compare_lt_iff. nia.
    + apply Z.compare_gt_iff. nia.
  - destruct (Z.ltb_spec 0 r); [destruct (Z.leb_spec v t)|destruct (Z.ltb_spec v t)].
    all: first [apply Z.compare_lt_iff; nia | apply Z.compare_gt_iff; nia].
Qed.

(** The threshold decides the comparison for every integer of the range, and lies in
    the range. *)
Lemma threshold_correct (minimum maximum v : Z) (op : FilterCompareOperator) (q : Q) :
  minimum <= v <= maximum -> op <> FilterComparisonInvalid ->
  decide_test (threshold_test minimum maximum op q) v = holds op (inject_Z v ?= q)%Q.
Proof.
  intros Hv Hop. rewrite compare_quot. unfold threshold_test.
  set (t := Z.quot _ _). set (r := Z.rem _ _). clearbody t r.
  destruct op; try done; closed_decide; cbn [andb negb];
    destruct (Z.eqb_spec r 0) as [->|]; cbn [negb orb];
    repeat match goal with
    | |- context [?a <? ?b] => destruct (Z.ltb_spec a b); try lia
    | |- context [?a <=? ?b] => destruct (Z.leb_spec a b); try lia
    end; cbn [negb orb];
    repeat match goal with
    | |- context [featureNumericComparison (?a ?= ?b)] => destruct (Z.compare_spec a b); try lia
    end; cbn [featureNumericComparison Bool.eqb decide_test holds];
    repeat match goal with |- context [?a ?= ?b] => destruct (Z.compare_spec a b) end;
    cbn [holds]; first [reflexivity | lia].
Qed.

Lemma thresholds_differ (minimum maximum t : Z) (op : FilterCompareOperator) :
  minimum <= maximum ->
  Bool.eqb (featureNumericComparison (minimum ?= t) op) (featureNumericComparison (maximum ?= t) op) = false ->
  minimum <= t <= maximum.
Proof.
  intros H. destruct (Z.compare_spec minimum t), (Z.compare_spec maximum t); try lia; by destruct op.
Qed.

Lemma threshold_range (minimum maximum : Z) (op d : FilterCompareOperator) (q : Q) (b : Z) :
  threshold_test minimum maximum op q = Test d b -> minimum <= maximum -> d = op /\ minimum <= b <= maximum.
Proof.
  unfold threshold_test. set (t := Z.quot _ _). set (r := Z.rem _ _). clearbody t r. intros H Hmm. revert H.
  destruct (bool_decide (op = FilterEqual) || bool_decide (op = FilterNotEqual)).
  - destruct (_ || _) eqn:E; intros [= <- <-]. rewrite !orb_false_iff, !Z.ltb_ge in E. split; [done|lia].
  - match goal with |- context [minimum ?= ?u] => set (t' := u) end.
    destruct (Bool.eqb _ _) eqn:E; intros [= <- <-]. split; [done|]. by eapply thresholds_differ.
Qed.

(** ** Leaves *)

Definition row_ok (columns : gmap gostring featureColumn) (row : gostring -> hval) : Prop :=
  forall name c, columns !! name = Some c -> in_domain c (row (hc_name c)).

Definition public_row (columns : gmap gostring featureColumn) (row : gostring -> hval) (name : gostring) : field_value :=
  match columns !! name with
  | Some c => public_value (row (hc_name c))
  | None => VNull
  end.

Abbreviation hana_compiled columns := (compiled_to hana_dialect hana_value (public_row columns) (row_ok columns)).

Lemma hana_leaf_compiled (columns : gmap gostring featureColumn) (m : (gostring -> field_value) -> option bool)
    (args : list sql_arg) (e : hana_leaf) (text : gostring) (args' : list sql_arg) :
  text = hana_text e -> args' = args ++ hana_args e ->
  (forall row, row_ok columns row -> hana_value row e = m (public_row columns row)) ->
  hana_compiled columns m args (Ok (text, args')).
Proof. intros -> -> H. by exists (PLeaf e). Qed.

Lemma hana_operator_text_ok (op : FilterCompareOperator) :
  op <> FilterComparisonInvalid -> featureFilterOperator op = Ok (operator_text op).
Proof. intros H. unfold featureFilterOperator. by rewrite comparison_text_valid. Qed.

Definition numeric_kind (k : QueryableType) : Prop := k = QueryableInteger \/ k = QueryableNumber.

(** The domain of a numeric column is what its type represents. *)
Lemma numeric_domain (c : featureColumn) (k : QueryableType) :
  featureQueryableType c = Some k -> numeric_kind k ->
  let scale := if beq (hc_type c) (B "DECIMAL") then hc_scale c else 0 in
  exists minimum maximum,
    featureNumericDomain c = Ok (minimum, maximum, 10 ^ scale) /\ minimum <= maximum /\ 0 <= scale
    /\ (forall x s, represents c x s <-> s = scale /\ minimum <= x <= maximum)
    /\ hc_type c <> B "BOOLEAN" /\ hc_type c <> B "NVARCHAR".
Proof.
  intros E Hk. unfold represents.
  assert (hc_type c ∈ [B "TINYINT"; B "SMALLINT"; B "INTEGER"; B "BIGINT"]
          \/ (hc_type c = B "DECIMAL" /\ 0 < hc_length c <= 38 /\ 0 <= hc_scale c <= hc_length c)) as Ht.
  { unfold featureQueryableType in E. destruct (existsb _ _) eqn:Ee.
    - left. apply existsb_exists in Ee as (t & Ht & ->%beq_true). by apply list_elem_of_In.
    - right. destruct (beq _ (B "DECIMAL")) eqn:E5; [|repeat case_match; try done; injection E as <-; by destruct Hk].
      apply beq_true in E5. destruct (_ && _) eqn:Eb; [|done]. rewrite !andb_true_iff, !Z.leb_le, Z.ltb_lt in Eb. split; [done|lia]. }
  rewrite !elem_of_cons, elem_of_nil in Ht. unfold featureNumericDomain.
  destruct Ht as [[Ht|[Ht|[Ht|[Ht|[]]]]]|(Ht & Hl & Hs)]; rewrite Ht; unfold beq; closed_decide; cbn zeta.
  5: { assert (0 < 10 ^ hc_length c) by (apply Z.pow_pos_nonneg; lia). decide_ltb. cbn [orb].
       eexists _, _. split_and!; [reflexivity|lia|lia| |done|done]. intros x s. split; [|intuition lia].
       intros [(? & _)|[(? & _)|[(? & _)|[(? & _)|(_ & -> & H')]]]]; try done. split; [done|]. lia. }
  all: eexists _, _; split_and!; [reflexivity|lia|lia| |done|done]; intros x s; split; [|intuition lia].
  all: intros [(? & -> & H')|[(? & -> & H')|[(? & -> & H')|[(? & -> & H')|(? & _)]]]]; try done; split; [done|lia].
Qed.

(** A bound of the domain is read back exactly. *)
Lemma cast_exact (c : featureColumn) (b : Z) :
  let scale := if beq (hc_type c) (B "DECIMAL") then hc_scale c else 0 in
  0 <= scale -> represents c b scale -> cast_value c (b # pow10 scale) = Some (b # pow10 scale).
Proof.
  intros scale Hs Hb. unfold cast_value. fold scale. set (k := (_ * _)%Q).
  assert (is_integer k = true /\ Qfloor k = b) as [-> ->].
  { unfold k, is_integer, Qfloor, Qmult, inject_Z. cbn. rewrite Pos.mul_1_r, pow10_pos by done.
    assert (10 ^ scale <> 0) by (apply Z.pow_nonzero; lia).
    split; [by rewrite Z.mod_mul|by rewrite Z.div_mul]. }
  by rewrite bool_decide_eq_true_2.
Qed.

(** A comparison of a number is decided exactly on the lattice of its column. *)
Lemma compileFeatureNumericFilter_exact (c : featureColumn) (k : QueryableType) (op : FilterCompareOperator)
    (l : FilterLiteral) (q : Q) (args : list sql_arg) :
  featureQueryableType c = Some k -> numeric_kind k -> op <> FilterComparisonInvalid -> Number l = Some q ->
  exists e, compileFeatureNumericFilter c (column_source c) op l args = Ok (hana_text e, args ++ hana_args e)
    /\ forall row, in_domain c (row (hc_name c)) ->
         hana_value row e = compare_meaning op (public_value (row (hc_name c))) l.
Proof.
  intros Hk Hn Hop Hq. pose proof (numeric_domain c k Hk Hn) as Hd. pose proof (fun b => cast_exact c b) as Hcast.
  set (s := if beq (hc_type c) (B "DECIMAL") then hc_scale c else 0) in *. cbn zeta in Hd.
  destruct Hd as (lo & hi & Ed & Hlh & Hs & Hrep & Hb1 & Hb2).
  assert (forall v, in_domain c v -> v = HvNull \/ exists x, v = HvNumber x s /\ lo <= x <= hi) as Hdom.
  { intros v. unfold in_domain. destruct v as [|x s'| |]; try done; auto. intros [-> Hx]%Hrep. eauto. }
  unfold compileFeatureNumericFilter. rewrite Ed, Hq. cbn [rbind].
  set (qs := (q * inject_Z (10 ^ s))%Q).
  assert (forall x, lo <= x <= hi -> decide_test (threshold_test lo hi op qs) x = holds op (x # pow10 s ?= q)%Q) as Hdec.
  { intros x Hx. rewrite compare_scaled by done. by apply threshold_correct. }
  destruct (threshold_test lo hi op qs) as [value|d b] eqn:Et.
  - exists (HFold c value). rewrite app_nil_r. split; [done|]. intros row [E|(x & E & Hx)]%Hdom; cbn; rewrite E; [done|].
    cbn. rewrite Hq. cbn. by rewrite <- Hdec.
  - destruct (threshold_range _ _ _ _ _ _ Et Hlh) as [-> Hb]. rewrite (hana_operator_text_ok op Hop). cbn [rbind].
    assert (cast_value c (b # pow10 s) = Some (b # pow10 s)) as Hc by (apply Hcast; [done|by apply Hrep]).
    destruct (beq (hc_type c) (B "DECIMAL")).
    + exists (HDecimal c op (FloatString (b # pow10 s) s)). split; [done|].
      intros row [E|(x & E & Hx)]%Hdom; cbn [hana_value]; rewrite E; [done|].
      rewrite numeral_FloatString by done. cbn [mbind option_bind]. rewrite Hc. cbn. rewrite Hq. cbn.
      rewrite <- Hdec by done. cbn. by rewrite compare_same_scale.
    + exists (HInteger c op b). split; [done|].
      intros row [E|(x & E & Hx)]%Hdom; cbn [hana_value]; rewrite E; [done|].
      change (inject_Z b) with (b # pow10 s). rewrite Hc. cbn [compare_meaning public_value]. rewrite Hq. cbn [fmap option_fmap option_map].
      rewrite <- Hdec by done. cbn [decide_test]. by rewrite compare_same_scale.
Qed.

(** Texts and truth values are stored in columns of their type only. *)
Lemma text_only (c : featureColumn) (v : hval) :
  in_domain c v -> hc_type c = B "NVARCHAR" -> match v with HvNull | HvText _ => True | _ => False end.
Proof. unfold in_domain, represents. intros H E. destruct v; try done; rewrite E in H; intuition done. Qed.

Lemma bool_only (c : featureColumn) (v : hval) :
  in_domain c v -> hc_type c = B "BOOLEAN" -> match v with HvNull | HvBool _ => True | _ => False end.
Proof. unfold in_domain, represents. intros H E. destruct v; try done; rewrite E in H; intuition done. Qed.

Lemma hana_compile_compare_exact (columns : gmap gostring featureColumn) (name : gostring) (c : featureColumn)
    (k : QueryableType) (op : FilterCompareOperator) (l : FilterLiteral) (args : list sql_arg) :
  columns !! name = Some c -> featureQueryableType c = Some k -> op <> FilterComparisonInvalid ->
  compatible k (fl_kind l) = true -> is_ok (NewFilterLiteral (fl_kind l) (fl_text l)) = true ->
  hana_compiled columns (fun v => compare_meaning op (v name) l) args (compile_compare c op l args).
Proof.
  intros Hc Hk Hop Hl Hok. unfold compile_compare. rewrite (hana_operator_text_ok op Hop). cbn [rbind].
  assert (forall row, row_ok columns row -> in_domain c (row (hc_name c))) as Hdom by (intros row H; by eapply H).
  assert (forall row, public_row columns row name = public_value (row (hc_name c))) as Hpub
    by (intros row; unfold public_row; by rewrite Hc).
  destruct (beq (hc_type c) (B "NVARCHAR")) eqn:E1; [|destruct (beq (hc_type c) (B "BOOLEAN")) eqn:E2].
  - apply (hana_leaf_compiled columns _ args (HBinary c op (fl_text l))); [done..|].
    intros row Hrow%Hdom. rewrite Hpub. apply beq_true in E1. apply (text_only c _ Hrow) in E1. cbn.
    by destruct (row (hc_name c)).
  - apply (hana_leaf_compiled columns _ args (HBoolean c op (Z.b2z (literal_true l)))); [done..|].
    intros row Hrow%Hdom. rewrite Hpub. apply beq_true in E2. apply (bool_only c _ Hrow) in E2. cbn.
    by destruct (row (hc_name c)).
  - assert (numeric_kind k) as Hn.
    { unfold numeric_kind. unfold featureQueryableType in Hk. rewrite E1, E2 in Hk. repeat case_match; try done; injection Hk as <-; auto. }
    assert (fl_kind l = FilterNumber) as El by (destruct Hn as [-> | ->]; by apply bool_decide_eq_true in Hl).
    destruct (number_literal l Hok El) as [q Hq].
    destruct (compileFeatureNumericFilter_exact c k op l q args Hk Hn Hop Hq) as (e & -> & He).
    eapply hana_leaf_compiled; [done..|]. intros row Hrow. rewrite Hpub. auto.
Qed.

Lemma hana_public_null {A : Type} (v : hval) (a b : A) :
  match public_value v with VNull => a | _ => b end = match v with HvNull => a | _ => b end.
Proof. by destruct v. Qed.

#[export] Instance hana_groups : Groups hana_dialect.
Proof. intros conj n ps Hne. by apply (grouping_paren hana_dialect), join_grouping. Qed.

(** ** Whole filters *)

Lemma queryable_entry_ok (s : featureSource) (p : featureProjection) (f : FeatureQueryable) (c : featureColumn) :
  queryable_entry s p = Some (f, c) -> featureQueryableType c = Some (fq_type f).
Proof.
  unfold queryable_entry. destruct (_ || _); [done|]. intros (c' & _ & H)%bind_Some.
  destruct (_ || _); [done|]. by apply bind_Some in H as (k & E & [= <- <-]).
Qed.

(** The leaves of a source with a catalog are compiled correctly, and the catalog can
    be handed out. *)
Lemma buildFeatureQueryables_correct (s0 s : featureSource) (version : gostring) :
  buildFeatureQueryables s0 version = (s, None) ->
  leaves_correct hana_dialect (compile_leaf (hs_filterColumns s)) hana_value (public_row (hs_filterColumns s))
    (row_ok (hs_filterColumns s)) (hs_queryables s)
  /\ Queryables_Validate (hs_queryables s) = Ok tt.
Proof.
  unfold buildFeatureQueryables. set (s1 := with_queryables _ _ _ _ _).
  destruct (negb _); [done|]. set (entries := omap _ _).
  assert (forall f c, (f, c) ∈ entries -> featureQueryableType c = Some (fq_type f)) as Hm.
  { intros f c. unfold entries. rewrite list_elem_of_omap. intros (p & _ & H). by eapply queryable_entry_ok. }
  clearbody entries. destruct (_ <? _); [done|].
  destruct (NewFeatureQueryables _) as [catalog|] eqn:En; [|done]. intros [= <-].
  cbn [with_queryables hs_queryables hs_filterColumns]. set (columns := index_columns _).
  split; [split|by eapply catalog_again].
  - intros name f args Hf op l. destruct (index_columns_lookup _ _ _ _ En Hf) as (c & Hc & Hin & _). fold columns in Hc.
    unfold compile_leaf. rewrite Hc.
    split; [apply (hana_leaf_compiled columns _ _ (HIsNull c))|apply (hana_leaf_compiled columns _ _ (HIsNotNull c))];
      try done; try (cbn; by rewrite app_nil_r);
      intros row Hrow; unfold public_row; rewrite Hc; cbn [hana_value]; by rewrite hana_public_null.
  - intros name f op l args Hf Hop Hl Hok. destruct (index_columns_lookup _ _ _ _ En Hf) as (c & Hc & Hin & _).
    fold columns in Hc. unfold compile_leaf. rewrite Hc. by apply (hana_compile_compare_exact _ _ _ (fq_type f)); auto.
Qed.

(** The same catalog, built again. *)
Lemma rebuilt_lookup (catalog catalog' : FeatureQueryables) (name : gostring) :
  NewFeatureQueryables (qs_fields catalog) = Ok catalog' -> Queryables_Lookup catalog' name = Queryables_Lookup catalog name.
Proof. intros En. destruct (NewFeatureQueryables_ok _ catalog' En) as (_ & _ & _ & Hl & _). by rewrite Hl. Qed.

Lemma every_node_mono (P Q : FilterNode -> Prop) (n : FilterNode) :
  (forall x, P x -> Q x) -> every_node P n -> every_node Q n.
Proof.
  intros H. induction n as [k op p l b cs IH] using FilterNode_ind'. cbn [every_node]. rewrite !every_node_children.
  intros [H1 H2]. split; [auto|]. rewrite Forall_forall in *. auto.
Qed.


