(* ===== verification/Cql2Lexer.v ===== *)
(** * ogc/cql2/lexer.go, property_name.go: the CQL2 text scanner

    The scanner works on the suffix of the input that is left, with its byte
    offset; every error carries the offset the code reports. *)

From S2P Require Import Prelude GoText Temporal Filter.

#[local] Open Scope Z_scope.

Definition maxInputBytes : Z := 65536.
Definition maxTokens : Z := 8192.
Definition maxPropertyBytes : Z := 1024.
Definition maxLiteralBytes : Z := 16384.

Inductive tokenKind :=
| tokenEnd | tokenName | tokenQuotedName | tokenString | tokenNumber | tokenOperator
| tokenOpen | tokenClose | tokenUnsupported.

#[export] Instance tokenKind_eq_dec : EqDecision tokenKind.
Proof. solve_decision. Defined.

Record token := mkToken { tk_kind : tokenKind; tk_text : gostring; tk_offset : Z }.

#[export] Instance token_eq_dec : EqDecision token.
Proof. solve_decision. Defined.

(** The message is [cql2 REASON at byte OFFSET]. *)
Definition invalid (offset : Z) (reason : string) : QueryError :=
  InvalidFeatureQueryError "filter"
    ("cql2 " +:+ reason +:+ " at byte " +:+ String.string_of_list_ascii (FormatInt offset)).

Definition unsupported (offset : Z) : QueryError :=
  mkQueryError "filter" (fq_reason (invalid offset "unsupported expression profile")) true.

Definition between (lo hi r : Z) : bool := (lo <=? r) && (r <=? hi).

Definition nameStart (r : Z) : bool :=
  (r =? 58) || (r =? 95) || between 65 90 r || between 97 122 r
  || between 0xc0 0xd6 r || between 0xd8 0xf6 r || between 0xf8 0x2ff r
  || between 0x370 0x37d r || between 0x37f 0x1ffe r || between 0x200c 0x200d r
  || between 0x2070 0x218f r || between 0x2c00 0x2fef r || between 0x3001 0xd7ff r
  || between 0xf900 0xfdcf r || between 0xfdf0 0xfffd r || between 0x10000 0xeffff r.

Definition namePart (r : Z) : bool :=
  nameStart r || (r =? 46) || between 48 57 r || between 0x300 0x36f r || between 0x203f 0x2040 r.

Definition space (r : Z) : bool :=
  bool_decide (r ∈ [32; 9; 10; 13; 11; 12; 0x85; 0xa0; 0x1680; 0x2028; 0x2029; 0x202f; 0x205f; 0x3000])
  || between 0x2000 0x200a r.

(** ** String literals *)

(** The value of an escape; [None] for an invalid one. *)
Definition escape_value (c : ascii) : option ascii :=
  if Ascii.eqb c "'" || Ascii.eqb c "\" then Some c
  else if Ascii.eqb c "a" then Some "007"%char
  else if Ascii.eqb c "b" then Some "008"%char
  else if Ascii.eqb c "t" then Some "009"%char
  else if Ascii.eqb c "n" then Some "010"%char
  else if Ascii.eqb c "v" then Some "011"%char
  else if Ascii.eqb c "f" then Some "012"%char
  else if Ascii.eqb c "r" then Some "013"%char
  else None.

Definition bad_string_rune (r : Z) : bool :=
  (r =? 0) || (r <? 7) || ((13 <? r) && (r <? 32)) || (r =? 0xfffe) || (r =? 0xffff).

(** One iteration of the loop of quotedString, on the input from offset [i] on:
    whether the literal ends here, the value so far and the bytes consumed. *)
Definition quoted_step (start i : Z) (s value : gostring)
    : result QueryError (bool * gostring * nat) :=
  let '(r, width) := DecodeRune s in
  let s1 := drop width s in
  if r =? 39 then
    match s1 with
    | c :: _ => if Ascii.eqb c "'" then Ok (false, value ++ ["'"%char], (width + 1)%nat)
                else Ok (true, value, width)
    | [] => Ok (true, value, width)
    end
  else if r =? 92 then
    match s1 with
    | [] => Err (invalid start "unterminated string escape")
    | c :: _ =>
        match escape_value c with
        | Some decoded => Ok (false, value ++ [decoded], (width + 1)%nat)
        | None => Err (invalid (i + Z.of_nat width) "invalid string escape")
        end
    end
  else if bad_string_rune r then Err (invalid i "invalid string character")
  else Ok (false, value ++ EncodeRune r, width).

(** The loop: the value and the number of bytes it consumes. *)
Fixpoint quoted_loop (fuel : nat) (start i : Z) (s value : gostring)
    : result QueryError (gostring * nat) :=
  match fuel, s with
  | S fuel', _ :: _ =>
      let? (finished, value, used) := quoted_step start i s value in
      if finished : bool then Ok (value, used)
      else if maxLiteralBytes <? blen value then Err (invalid start "literal exceeds limit")
      else
        let? (v, n) := quoted_loop fuel' start (i + Z.of_nat used) (drop used s) value in
        Ok (v, (used + n)%nat)
  | _, _ => Err (invalid start "unterminated string")
  end.

(** quotedString on the input from the opening quote on. *)
Definition quotedString (s : gostring) (start : Z) : result QueryError (gostring * nat) :=
  let? (v, n) := quoted_loop (length s) start (start + 1) (drop 1 s) [] in
  Ok (v, (1 + n)%nat).

(** ** Names and numbers *)

(** The loop over a quoted name; [n] bytes of it have been read. *)
Fixpoint quotedName_loop (fuel : nat) (start i : Z) (s : gostring) (n : nat)
    : result QueryError nat :=
  match fuel, s with
  | S fuel', c :: _ =>
      if Ascii.eqb c "034" then Ok n
      else
        let '(r, w) := DecodeRune s in
        if ((n =? 0)%nat && negb (nameStart r)) || (negb (n =? 0)%nat && negb (namePart r)) then
          Err (invalid i "invalid quoted property")
        else if maxPropertyBytes <? Z.of_nat (n + w) then Err (invalid start "property exceeds limit")
        else quotedName_loop fuel' start (i + Z.of_nat w) (drop w s) (n + w)
  | _, _ => Err (invalid start "unterminated or empty quoted property")
  end.

Fixpoint name_run (fuel : nat) (s : gostring) : nat :=
  match fuel, s with
  | S fuel', _ :: _ =>
      let '(r, w) := DecodeRune s in
      if namePart r then (w + name_run fuel' (drop w s))%nat else 0%nat
  | _, _ => 0%nat
  end.

Definition skip_sign (s : gostring) : nat :=
  match s with
  | c :: _ => if Ascii.eqb c "+" || Ascii.eqb c "-" then 1%nat else 0%nat
  | [] => 0%nat
  end.

Definition skip_digits (s : gostring) : nat := length (fst (digit_run s)).

(** numberEnd on the input from the start of the number on: the bytes read. *)
Definition numberEnd (s : gostring) : nat :=
  let i := skip_sign s in
  let i := (i + skip_digits (drop i s))%nat in
  let i := if byte_at s i "." then (i + 1 + skip_digits (drop (i + 1) s))%nat else i in
  if byte_at s i "e" || byte_at s i "E" then
    let i := (i + 1)%nat in
    let i := (i + skip_sign (drop i s))%nat in
    (i + skip_digits (drop i s))%nat
  else i.

(** ** Tokens *)

(** One iteration of the [switch] of lex: the token at the start of [s], whose
    first rune is [r] of [width] bytes, and the bytes it takes. *)
Definition lex_item (s : gostring) (i r : Z) (width : nat) : result QueryError (token * nat) :=
  let next_is c := byte_at s 1 c in
  if r =? 39 then
    let? (value, n) := quotedString s i in
    Ok (mkToken tokenString value i, n)
  else if r =? 34 then
    let? n := quotedName_loop (length s) i (i + 1) (drop 1 s) 0 in
    if (n =? 0)%nat then Err (invalid i "unterminated or empty quoted property")
    else Ok (mkToken tokenQuotedName (slice s 1 (1 + n)) i, (1 + n + 1)%nat)
  else if nameStart r then
    let n := (width + name_run (length s) (drop width s))%nat in
    if maxPropertyBytes <? Z.of_nat n then Err (invalid i "property exceeds limit")
    else Ok (mkToken tokenName (take n s) i, n)
  else if between 48 57 r || (r =? 46) || (r =? 43) || (r =? 45) then
    if (r =? 45) && next_is "-"%char then Err (invalid i "comments are not expressions")
    else
      let n := numberEnd s in
      if maxLiteralBytes <? blen (take n s) then Err (invalid i "literal exceeds limit")
      else Ok (mkToken tokenNumber (take n s) i, n)
  else if (r =? 61) || (r =? 60) || (r =? 62) then
    let n := if next_is "="%char || ((r =? 60) && next_is ">"%char) then 2%nat else 1%nat in
    Ok (mkToken tokenOperator (take n s) i, n)
  else if r =? 40 then Ok (mkToken tokenOpen [] i, 1%nat)
  else if r =? 41 then Ok (mkToken tokenClose [] i, 1%nat)
  else if (r =? 42) || (r =? 47) || (r =? 37) || (r =? 94) || (r =? 44) then
    if (r =? 47) && next_is "*"%char then Err (invalid i "comments are not expressions")
    else Ok (mkToken tokenUnsupported [] i, width)
  else Err (invalid i "unexpected character").

(** The loop of lex; [n] tokens have been produced. *)
Fixpoint lex_loop (fuel : nat) (s : gostring) (i n : Z) : result QueryError (list token) :=
  match fuel, s with
  | S fuel', _ :: _ =>
      let '(r, width) := DecodeRune s in
      if space r then lex_loop fuel' (drop width s) (i + Z.of_nat width) n
      else if maxTokens <=? n then Err (invalid i "token count exceeds limit")
      else
        let? (item, used) := lex_item s i r width in
        let? rest := lex_loop fuel' (drop used s) (i + Z.of_nat used) (n + 1) in
        Ok (item :: rest)
  | _, _ => Ok [mkToken tokenEnd [] i]
  end.

Definition lex (input : gostring) : result QueryError (list token) :=
  if maxInputBytes <? blen input then Err (invalid 0 "input exceeds limit")
  else if negb (ValidString input) then Err (invalid 0 "invalid utf8")
  else lex_loop (length input) input 0 0.

(** property_name.go *)
Definition CanReferenceProperty (name : gostring) : bool :=
  if beq name [] || (maxPropertyBytes <? blen name) || negb (ValidString name) then false
  else
    match map snd (range_string name) with
    | r :: rs => nameStart r && forallb namePart rs
    | [] => true
    end.

(** ** Runs of name characters *)

(** A rune that is the given punctuation is not a name character. *)
Lemma namePart_not (r : Z) : r ∈ [32; 34; 39] -> namePart r = false /\ nameStart r = false.
Proof.
  rewrite !elem_of_cons, elem_of_nil. intros [->|[->|[->|[]]]]; vm_compute; done.
Qed.

Lemma nameStart_namePart (r : Z) : nameStart r = true -> namePart r = true.
Proof. intros H. unfold namePart. by rewrite H. Qed.

Lemma name_run_split (rs : list Z) (fuel : nat) :
  valid_runes rs -> (length (EncodeRunes rs) <= fuel)%nat ->
  exists ps qs, rs = ps ++ qs /\ Forall (fun r => namePart r = true) ps
                /\ name_run fuel (EncodeRunes rs) = length (EncodeRunes ps).
Proof.
  intros Hrs. revert fuel. induction Hrs as [|r rs Hr _ IH]; intros fuel Hf.
  - exists [], []. split_and!; [done|constructor|by destruct fuel].
  - destruct (DecodeRunes_cons r rs Hr) as [Hd Hdrop].
    rewrite EncodeRunes_cons in *. rewrite length_app in Hf.
    pose proof (EncodeRune_nonempty r) as Hne.
    destruct (EncodeRune r) as [|c t] eqn:Er; [done|]. cbn [app length] in *.
    destruct fuel as [|fuel]; [lia|]. cbn [name_run]. rewrite Hd.
    destruct (namePart r) eqn:Ep.
    + destruct (IH fuel) as (ps & qs & -> & Hps & Hrun); [lia|].
      exists (r :: ps), qs. split_and!; [done|by constructor|].
      rewrite Hdrop, Hrun, EncodeRunes_cons, Er, length_app. done.
    + exists [], (r :: rs). split_and!; [done|constructor|done].
Qed.

(** Reading a name stops at the first rune that is not a name character. *)
Lemma name_run_app (ps : list Z) (t : gostring) (fuel : nat) :
  valid_runes ps -> Forall (fun r => namePart r = true) ps ->
  namePart (fst (DecodeRune t)) = false ->
  (length (EncodeRunes ps ++ t) <= fuel)%nat ->
  name_run fuel (EncodeRunes ps ++ t) = length (EncodeRunes ps).
Proof.
  intros Hv Hp Ht. revert fuel. induction Hv as [|r ps Hr _ IH]; intros fuel Hf.
  - cbn [app]. destruct fuel, t; try done. cbn [name_run].
    destruct (DecodeRune _) as [r w]. cbn [fst] in Ht. by rewrite Ht.
  - apply Forall_cons in Hp as [Hpr Hp]. rewrite EncodeRunes_cons, <- app_assoc in *.
    pose proof (DecodeRune_EncodeRune r (EncodeRunes ps ++ t) Hr) as Hd.
    pose proof (drop_app_length (EncodeRune r) (EncodeRunes ps ++ t)) as Hdrop.
    rewrite length_app in Hf. pose proof (EncodeRune_nonempty r) as Hne. rewrite length_app.
    destruct (EncodeRune r) as [|c u] eqn:Er; [done|]. cbn [app length] in *.
    destruct fuel as [|fuel]; [lia|]. cbn [name_run]. rewrite Hd, Hpr, Hdrop, IH by (done || lia).
    done.
Qed.

(** A name: the first rune starts one, the others continue it. *)
Definition name_runes (rs : list Z) : Prop :=
  match rs with
  | r :: rs' => nameStart r = true /\ Forall (fun r => namePart r = true) rs'
  | [] => False
  end.

Lemma CanReferenceProperty_runes (name : gostring) :
  CanReferenceProperty name = true
  <-> exists rs, valid_runes rs /\ name = EncodeRunes rs /\ name_runes rs
                 /\ blen name <= maxPropertyBytes.
Proof.
  unfold CanReferenceProperty. split.
  - destruct (_ || _) eqn:E; [done|]. rewrite !orb_false_iff in E. destruct E as [[E1 E2] E3].
    apply negb_false_iff, ValidString_runes in E3 as (rs & Hv & ->).
    apply Z.ltb_ge in E2. apply beq_false in E1. rewrite range_string_runes by done.
    destruct rs as [|r rs]; [done|]. intros [H1 H2]%andb_true_iff.
    exists (r :: rs). split_and!; [done|done| |done]. split; [done|].
    by apply forallb_Forall_true.
  - intros (rs & Hv & -> & Hn & Hl). rewrite range_string_runes by done.
    assert (ValidString (EncodeRunes rs) = true) as -> by (apply ValidString_runes; eauto).
    rewrite (proj2 (Z.ltb_ge _ _) Hl). destruct rs as [|r rs]; [done|]. destruct Hn as [Hs Hp].
    assert (beq (EncodeRunes (r :: rs)) [] = false) as ->.
    { apply beq_false. rewrite EncodeRunes_cons. pose proof (EncodeRune_nonempty r).
      by destruct (EncodeRune r). }
    cbn [orb negb]. rewrite Hs. cbn [andb]. by apply forallb_Forall_true.
Qed.

(** The part of a quoted name read after [n] bytes of it. *)
Definition name_tail (n : nat) (rs : list Z) : Prop :=
  match n with O => rs = [] \/ name_runes rs | S _ => Forall (fun r => namePart r = true) rs end.

Lemma name_tail_cons (n w : nat) (r : Z) (rs : list Z) :
  (1 <= w)%nat ->
  ((n =? 0)%nat && negb (nameStart r)) || (negb (n =? 0)%nat && negb (namePart r)) = false
  /\ name_tail (n + w) rs <-> name_tail n (r :: rs).
Proof.
  intros Hw. destruct w as [|w]; [lia|]. destruct n as [|n]; cbn.
  - destruct (nameStart r) eqn:E; cbn; naive_solver.
  - rewrite Forall_cons. destruct (namePart r) eqn:E; cbn; naive_solver.
Qed.

Lemma quotedName_loop_inv (rs : list Z) (fuel : nat) (start i : Z) (n m : nat) :
  valid_runes rs -> quotedName_loop fuel start i (EncodeRunes rs) n = Ok m ->
  exists ps qs, rs = ps ++ 34 :: qs /\ m = (n + length (EncodeRunes ps))%nat
                /\ name_tail n ps /\ (ps = [] \/ Z.of_nat m <= maxPropertyBytes).
Proof.
  intros Hrs. revert fuel i n. induction Hrs as [|r rs Hr _ IH]; intros fuel i n H.
  - by destruct fuel.
  - destruct (DecodeRunes_cons r rs Hr) as [Hd Hdrop].
    rewrite EncodeRunes_cons in *. pose proof (EncodeRune_nonempty r) as Hne.
    destruct (EncodeRune r) as [|c t] eqn:Er; [done|]. cbn [app] in *.
    destruct fuel as [|fuel]; [done|]. cbn [quotedName_loop] in H.
    destruct (Ascii.eqb_spec c "034") as [->|Hc].
    + injection H as <-. destruct (EncodeRune_head r "034" t Hr Er) as [-> _]; [done|].
      exists [], rs. split_and!; [done|cbn; lia| |by left]. destruct n; [by left|constructor].
    + rewrite Hd in H. apply if_Err_Ok in H as [Hname H]. apply if_Err_Ok in H as [Hlim H].
      rewrite Hdrop in H. apply IH in H as (ps & qs & -> & -> & Hps & Hm).
      exists (r :: ps), qs. rewrite EncodeRunes_cons, Er, length_app. split_and!.
      * done.
      * cbn. lia.
      * eapply name_tail_cons; [|done]. cbn. lia.
      * right. apply Z.ltb_ge in Hlim. destruct Hm as [->|Hm]; [|done]. cbn in *. lia.
Qed.

Lemma quotedName_loop_app (ps : list Z) (t : gostring) (fuel : nat) (start i : Z) (n : nat) :
  valid_runes ps -> name_tail n ps -> Z.of_nat n + blen (EncodeRunes ps) <= maxPropertyBytes ->
  (length (EncodeRunes ps ++ "034"%char :: t) <= fuel)%nat ->
  quotedName_loop fuel start i (EncodeRunes ps ++ "034"%char :: t) n
  = Ok (n + length (EncodeRunes ps))%nat.
Proof.
  intros Hv. revert fuel i n. induction Hv as [|r ps Hr _ IH]; intros fuel i n Hn Hl Hf.
  - destruct fuel; [cbn in Hf; lia|]. cbn. f_equal. lia.
  - rewrite EncodeRunes_cons, <- app_assoc in *.
    pose proof (DecodeRune_EncodeRune r (EncodeRunes ps ++ "034"%char :: t) Hr) as Hd.
    pose proof (drop_app_length (EncodeRune r) (EncodeRunes ps ++ "034"%char :: t)) as Hdrop.
    rewrite length_app, blen_app in *. pose proof (EncodeRune_nonempty r) as Hne.
    pose proof (blen_nonneg (EncodeRunes ps)).
    destruct (EncodeRune r) as [|c u] eqn:Er; [done|]. cbn [app] in *.
    destruct fuel as [|fuel]; [cbn in Hf; lia|]. cbn [quotedName_loop].
    destruct (proj2 (name_tail_cons n (length (c :: u)) r ps ltac:(cbn; lia)) Hn) as [Hn1 Hn2].
    destruct (Ascii.eqb_spec c "034") as [->|Hc].
    + destruct (EncodeRune_head r "034" u Hr Er) as [-> _]; [done|].
      destruct n; vm_compute in Hn1; done.
    + rewrite Hd, Hn1, Hdrop. unfold blen in *.
      rewrite (proj2 (Z.ltb_ge _ _)) by lia. rewrite IH; [f_equal; lia|done|lia|].
      rewrite length_app in Hf. cbn in *. lia.
Qed.

(** ** Numbers *)

(** The first [n] bytes exist and are ASCII, so that what follows is still valid. *)
Definition ascii_prefix (n : nat) (s : gostring) : Prop :=
  (n <= length s)%nat /\ Forall (fun c => code c < 128) (take n s).

Lemma ascii_prefix_add (n m : nat) (s : gostring) :
  ascii_prefix n s -> ascii_prefix m (drop n s) -> ascii_prefix (n + m) s.
Proof.
  intros [Hn Fn] [Hm Fm]. rewrite length_drop in Hm. split; [lia|].
  rewrite <- (take_take_drop s n m). by apply Forall_app.
Qed.

Lemma ascii_prefix_byte (n : nat) (s : gostring) (c : ascii) :
  code c < 128 -> byte_at s n c = true -> ascii_prefix n s -> ascii_prefix (n + 1) s.
Proof.
  intros Hc Hb%bool_decide_eq_true Hn. apply ascii_prefix_add; [done|].
  assert (exists t, drop n s = c :: t) as [t ->].
  { exists (drop (S n) s). by apply drop_S. }
  split; [cbn; lia|]. by repeat constructor.
Qed.

Lemma digit_run_app (s : gostring) : s = fst (digit_run s) ++ snd (digit_run s).
Proof.
  induction s as [|c s IH]; cbn; [done|]. destruct (is_digit c); [|done].
  destruct (digit_run s). cbn in *. by rewrite <- IH.
Qed.

Lemma digit_run_digits (s : gostring) : Forall (fun c => is_digit c = true) (fst (digit_run s)).
Proof.
  induction s as [|c s IH]; cbn; [constructor|]. destruct (is_digit c) eqn:E; [|constructor].
  destruct (digit_run s). by constructor.
Qed.

Lemma skip_digits_prefix (s : gostring) : ascii_prefix (skip_digits s) s.
Proof.
  pose proof (digit_run_app s) as Hs. unfold skip_digits, ascii_prefix. rewrite Hs at 2 4.
  rewrite length_app, take_app_length. split; [lia|].
  eapply Forall_impl; [apply digit_run_digits|].
  intros c Hc%in_range_iff. lia.
Qed.

Lemma skip_sign_prefix (s : gostring) : ascii_prefix (skip_sign s) s.
Proof.
  destruct s as [|c s]; cbn; [by split; [|constructor]|].
  destruct (Ascii.eqb_spec c "+") as [->|]; [by split; cbn; [lia|repeat constructor]|].
  destruct (Ascii.eqb_spec c "-") as [->|]; [by split; cbn; [lia|repeat constructor]|].
  by split; cbn; [lia|constructor].
Qed.

Lemma numberEnd_prefix (s : gostring) : ascii_prefix (numberEnd s) s.
Proof.
  unfold numberEnd.
  set (i := (skip_sign s + skip_digits (drop (skip_sign s) s))%nat).
  assert (ascii_prefix i s) as Hi.
  { apply ascii_prefix_add; [apply skip_sign_prefix|apply skip_digits_prefix]. }
  clearbody i.
  set (j := if byte_at s i "." then _ else i).
  assert (ascii_prefix j s) as Hj.
  { subst j. destruct (byte_at s i ".") eqn:E; [|done].
    apply ascii_prefix_add; [|apply skip_digits_prefix]. by eapply ascii_prefix_byte; [|done|done]. }
  clearbody j.
  destruct (_ || _) eqn:E; [|done]. apply orb_true_iff in E.
  assert (ascii_prefix (j + 1) s) as Hk.
  { destruct E; by eapply ascii_prefix_byte; [|done|done]. }
  apply ascii_prefix_add; [|apply skip_digits_prefix].
  apply ascii_prefix_add; [done|apply skip_sign_prefix].
Qed.

Lemma ValidString_drop_prefix (n : nat) (s : gostring) :
  ascii_prefix n s -> ValidString (drop n s) = ValidString s.
Proof.
  intros [Hn Hf]. rewrite <- (take_drop n s) at 2.
  induction Hf as [|c t Hc _ IH]; [done|]. cbn [app]. by rewrite ValidString_ascii.
Qed.

Lemma numberEnd_pos (c : ascii) (s : gostring) :
  is_digit c || Ascii.eqb c "." || Ascii.eqb c "+" || Ascii.eqb c "-" = true ->
  (1 <= numberEnd (c :: s))%nat.
Proof.
  intros H. unfold numberEnd.
  set (i := (skip_sign (c :: s) + skip_digits (drop (skip_sign (c :: s)) (c :: s)))%nat).
  assert (1 <= i \/ i = 0 /\ c = "."%char)%nat as Hi.
  { subst i. cbn [skip_sign]. destruct (Ascii.eqb c "+" || Ascii.eqb c "-") eqn:E; [left; lia|].
    cbn [drop]. unfold skip_digits. cbn [digit_run]. destruct (is_digit c) eqn:Ed.
    - destruct (digit_run s). cbn. left. lia.
    - right. split; [done|]. apply orb_false_iff in E as [E1 E2]. rewrite E1, E2, !orb_false_r in H.
      by apply Ascii.eqb_eq. }
  clearbody i. destruct Hi as [Hi|[-> ->]].
  - repeat case_match; lia.
  - change (byte_at ("."%char :: s) 0 ".") with true. cbv iota. repeat case_match; lia.
Qed.

(** ** String literals: what the loop accepts *)

Lemma escape_value_ascii (c d : ascii) : escape_value c = Some d -> code c < 128 /\ code d < 128.
Proof.
  unfold escape_value.
  repeat match goal with |- context [Ascii.eqb c ?d] => destruct (Ascii.eqb_spec c d) as [->|] end;
    cbn; intros [= <-]; by vm_compute.
Qed.

Lemma ValidString_snoc (s : gostring) (c : ascii) :
  ValidString s = true -> code c < 128 -> ValidString (s ++ [c]) = true.
Proof. intros Hs Hc. by rewrite ValidString_app, ValidString_ascii. Qed.

Lemma quoted_step_inv (start i : Z) (s value v : gostring) (fin : bool) (u : nat) :
  s <> [] -> ValidString s = true -> ValidString value = true ->
  quoted_step start i s value = Ok (fin, v, u) ->
  (1 <= u <= length s)%nat /\ ValidString (drop u s) = true /\ ValidString v = true
  /\ (if fin then v = value else blen v <= blen value + Z.of_nat u).
Proof.
  intros Hne (rs & Hrv & ->)%ValidString_runes Hv. destruct rs as [|r rs]; [done|].
  apply Forall_cons in Hrv as [Hr Hrv]. destruct (DecodeRunes_cons r rs Hr) as [Hd Hdrop].
  assert (ValidString (EncodeRunes rs) = true) as Hrest by (apply ValidString_runes; eauto).
  unfold quoted_step. rewrite Hd, Hdrop. pose proof (EncodeRune_nonempty r) as Hw.
  assert (1 <= length (EncodeRune r))%nat by (destruct (EncodeRune r); [done|cbn; lia]).
  set (w := length (EncodeRune r)) in *.
  assert (length (EncodeRunes (r :: rs)) = w + length (EncodeRunes rs))%nat as ->
    by (by rewrite EncodeRunes_cons, length_app).
  assert (forall c t, EncodeRunes rs = c :: t -> code c < 128 ->
                      ValidString (drop (w + 1) (EncodeRunes (r :: rs))) = true) as Hskip.
  { intros c t Ht Hc. rewrite <- drop_drop, Hdrop, Ht. cbn. rewrite Ht in Hrest.
    by rewrite ValidString_ascii in Hrest. }
  destruct (r =? 39); [|destruct (r =? 92); [|destruct (bad_string_rune r); [done|]]].
  - destruct (EncodeRunes rs) as [|c t] eqn:Et; [intros [= <- <- <-]|].
    { rewrite Hdrop. by split_and!; [lia|cbn; lia|..]. }
    destruct (Ascii.eqb_spec c "'") as [->|]; intros [= <- <- <-].
    + split_and!; [lia|cbn; lia|by eapply Hskip|by apply ValidString_snoc|].
      rewrite blen_app. unfold blen. cbn [length]. lia.
    + rewrite Hdrop. by split_and!; [lia|cbn; lia|..].
  - destruct (EncodeRunes rs) as [|c t] eqn:Et; [done|].
    destruct (escape_value c) as [d|] eqn:Ee; [|done]. intros [= <- <- <-].
    apply escape_value_ascii in Ee as [Hc Hdc].
    split_and!; [lia|cbn; lia|by eapply Hskip|by apply ValidString_snoc|].
    rewrite blen_app. unfold blen. cbn [length]. lia.
  - intros [= <- <- <-]. rewrite Hdrop, ValidString_app by done.
    split_and!; [lia|lia|done| |rewrite blen_app; unfold blen; lia].
    rewrite <- (app_nil_r (EncodeRune r)). by rewrite ValidString_EncodeRune.
Qed.

Lemma quoted_loop_inv (fuel : nat) (start i : Z) (s value v : gostring) (n : nat) :
  ValidString s = true -> ValidString value = true -> blen value <= maxLiteralBytes ->
  quoted_loop fuel start i s value = Ok (v, n) ->
  (n <= length s)%nat /\ blen v < blen value + Z.of_nat n /\ blen v <= maxLiteralBytes
  /\ ValidString v = true /\ ValidString (drop n s) = true.
Proof.
  revert i s value v n. induction fuel as [|fuel IH]; intros i s value v n Hs Hv Hl H; [done|].
  cbn [quoted_loop] in H. destruct s as [|c s']; [done|]. set (s := c :: s') in *.
  inv_bind H. destruct a as [[fin v1] u].
  apply quoted_step_inv in E as (Hu & Hd & Hv1 & Hfin); [|done|done|done].
  destruct fin.
  - injection H as <- <-. subst v1. split_and!; done || lia.
  - apply if_Err_Ok in H as [Hlim%Z.ltb_ge H]. inv_bind H. destruct a as [v2 n2].
    injection H as <- <-. apply IH in E as (? & ? & ? & ? & Hdd); [|done|done|done].
    rewrite length_drop in *. rewrite drop_drop in Hdd. split_and!; done || lia.
Qed.

(** ** What the scanner produces *)

Definition operators : list gostring :=
  [B "="; B "<"; B ">"; B "<="; B ">="; B "<>"; B "=="].

Definition token_ok (t : token) : Prop :=
  match tk_kind t with
  | tokenName | tokenQuotedName => CanReferenceProperty (tk_text t) = true
  | tokenString => ValidString (tk_text t) = true /\ blen (tk_text t) <= maxLiteralBytes
  | tokenNumber => ValidString (tk_text t) = true /\ blen (tk_text t) <= maxLiteralBytes
  | tokenOperator => tk_text t ∈ operators
  | tokenEnd | tokenOpen | tokenClose | tokenUnsupported => tk_text t = []
  end.

(** A token read from [s] at offset [i], taking [u] bytes. *)
Record token_read (s : gostring) (i : Z) (t : token) (u : nat) : Prop := {
  tr_used : (1 <= u <= length s)%nat;
  tr_valid : ValidString (drop u s) = true;
  tr_bytes : blen (tk_text t) <= Z.of_nat u;
  tr_offset : tk_offset t = i;
  tr_kind : tk_kind t <> tokenEnd;
  tr_ok : token_ok t
}.

(** A rune below 128 is the first byte. *)
Lemma valid_head (s : gostring) (r : Z) (w : nat) :
  s <> [] -> ValidString s = true -> DecodeRune s = (r, w) -> r < 128 ->
  exists c s', s = c :: s' /\ code c = r /\ w = 1%nat /\ ValidString s' = true.
Proof.
  intros Hne (rs & Hrv & ->)%ValidString_runes Hd Hr. destruct rs as [|r0 rs]; [done|].
  apply Forall_cons in Hrv as [Hr0 Hrv]. destruct (DecodeRunes_cons r0 rs Hr0) as [Hd0 _].
  rewrite Hd in Hd0. injection Hd0 as -> Hw. apply valid_rune_iff in Hr0.
  rewrite EncodeRune_ascii in Hw by lia.
  exists (byte_of r0), (EncodeRunes rs). rewrite EncodeRunes_cons, EncodeRune_ascii by lia.
  split_and!; [done|by apply code_byte_of; lia|done|]. apply ValidString_runes; eauto.
Qed.

Lemma lex_quoted_name (s : gostring) (i : Z) (n : nat) :
  ValidString s = true -> quotedName_loop (S (length s)) i (i + 1) s 0 = Ok n -> n <> 0%nat ->
  token_read ("034"%char :: s) i (mkToken tokenQuotedName (take n s) i) (1 + n + 1).
Proof.
  intros (rs & Hrv & ->)%ValidString_runes H Hn.
  apply quotedName_loop_inv in H as (ps & qs & -> & Hm & Hps & Hlim); [|done]. cbn in Hm. subst n.
  apply Forall_app in Hrv as [Hpv Hqv]. apply Forall_cons in Hqv as [_ Hqv].
  rewrite EncodeRunes_app, EncodeRunes_cons, take_app_length.
  change (EncodeRune 34) with ["034"%char]. split; cbn [tk_text tk_offset tk_kind].
  - cbn [length]. rewrite length_app. cbn. lia.
  - cbn [drop Nat.add]. rewrite <- drop_drop, drop_app_length. cbn.
    apply ValidString_runes; eauto.
  - unfold blen. lia.
  - done.
  - done.
  - apply CanReferenceProperty_runes. exists ps. cbn [tk_text].
    destruct Hps as [->|Hps]; [done|]. split_and!; [done|done|done|].
    destruct Hlim as [->|Hlim]; [done|exact Hlim].
Qed.

Lemma lex_name (s : gostring) (i r : Z) (w : nat) :
  s <> [] -> ValidString s = true -> DecodeRune s = (r, w) -> nameStart r = true ->
  let n := (w + name_run (length s) (drop w s))%nat in
  Z.of_nat n <= maxPropertyBytes ->
  token_read s i (mkToken tokenName (take n s) i) n.
Proof.
  intros Hne (rs & Hrv & ->)%ValidString_runes Hd Hr n Hlim. destruct rs as [|r0 rs]; [done|].
  apply Forall_cons in Hrv as [Hr0 Hrv]. destruct (DecodeRunes_cons r0 rs Hr0) as [Hd0 Hdrop].
  rewrite Hd in Hd0. injection Hd0 as -> ->. subst n. rewrite Hdrop in *.
  rewrite EncodeRunes_cons, length_app in Hlim |- *.
  destruct (name_run_split rs (length (EncodeRune r0) + length (EncodeRunes rs)) Hrv)
    as (ps & qs & -> & Hps & Hrun); [lia|].
  rewrite Hrun in *. apply Forall_app in Hrv as [Hpv Hqv].
  assert (EncodeRunes (r0 :: ps) = EncodeRune r0 ++ EncodeRunes ps) as Hp by done.
  rewrite EncodeRunes_app, (app_assoc (EncodeRune r0)), <- Hp.
  assert (length (EncodeRune r0) + length (EncodeRunes ps) = length (EncodeRunes (r0 :: ps)))%nat
    as Hlen by by rewrite Hp, length_app.
  rewrite Hlen in *. rewrite take_app_length. split; cbn [tk_text tk_offset tk_kind].
  - rewrite length_app. split; [|lia]. rewrite <- Hlen. pose proof (EncodeRune_nonempty r0).
    destruct (EncodeRune r0); [done|cbn; lia].
  - rewrite drop_app_length. apply ValidString_runes; eauto.
  - unfold blen. lia.
  - done.
  - done.
  - apply CanReferenceProperty_runes. exists (r0 :: ps). cbn [tk_text].
    split_and!; [by constructor|done|done|exact Hlim].
Qed.

Lemma lex_number (c : ascii) (s : gostring) (i : Z) :
  ValidString (c :: s) = true ->
  is_digit c || Ascii.eqb c "." || Ascii.eqb c "+" || Ascii.eqb c "-" = true ->
  let n := numberEnd (c :: s) in
  blen (take n (c :: s)) <= maxLiteralBytes ->
  token_read (c :: s) i (mkToken tokenNumber (take n (c :: s)) i) n.
Proof.
  intros Hv Hc n Hlim. pose proof (numberEnd_pos c s Hc) as H1.
  pose proof (numberEnd_prefix (c :: s)) as Hp. fold n in H1, Hp. destruct Hp as [H2 Hf] eqn:E.
  clear E. split; cbn [tk_text tk_offset tk_kind]; try done.
  - by rewrite ValidString_drop_prefix.
  - unfold blen. rewrite length_take. lia.
  - split; [|done]. cbn [tk_text]. clear -Hf.
    induction Hf as [|d t Hd _ IH]; [done|]. by rewrite ValidString_ascii.
Qed.

(** The operator at the head of the input: one or two bytes of the table. *)
Lemma lex_operator (c : ascii) (s : gostring) (i : Z) (two : bool) :
  ValidString s = true -> c ∈ ["="%char; "<"%char; ">"%char] ->
  two = byte_at (c :: s) 1 "=" || (Ascii.eqb c "<" && byte_at (c :: s) 1 ">") ->
  let n := if two then 2%nat else 1%nat in
  token_read (c :: s) i (mkToken tokenOperator (take n (c :: s)) i) n.
Proof.
  intros Hv Hc Htwo.
  assert (two = true -> exists d t, s = d :: t /\ (d = "="%char \/ c = "<"%char /\ d = ">"%char)) as Hd.
  { intros ->. symmetry in Htwo. unfold byte_at in Htwo. bool_props. rewrite Ascii.eqb_eq in Htwo.
    destruct s as [|d t]; [naive_solver|]. exists d, t. cbn in Htwo. naive_solver. }
  clear Htwo. destruct two; cbn zeta.
  - destruct (Hd eq_refl) as (d & t & -> & Hdt).
    assert (code d < 128) as Hda by (destruct Hdt as [->|[_ ->]]; by vm_compute).
    split; cbn [tk_text tk_offset tk_kind length drop]; try done; try lia.
    + by rewrite ValidString_ascii in Hv.
    + change (token_ok (mkToken tokenOperator [c; d] i)). unfold token_ok, operators.
      cbn [tk_kind tk_text]. rewrite !elem_of_cons, elem_of_nil in Hc.
      destruct Hdt as [->|[-> ->]]; [destruct Hc as [->|[->|[->|[]]]]|]; by_decide.
  - split; cbn [tk_text tk_offset tk_kind length drop]; try done; try lia.
    change (token_ok (mkToken tokenOperator [c] i)). unfold token_ok, operators.
    cbn [tk_kind tk_text]. rewrite !elem_of_cons, elem_of_nil in Hc.
    destruct Hc as [->|[->|[->|[]]]]; by_decide.
Qed.

Lemma code_eq_lit (c d : ascii) (r : Z) : code c = r -> r = code d -> c = d.
Proof. intros H1 H2. apply code_inj. congruence. Qed.

Lemma byte_token_read (c : ascii) (s : gostring) (i : Z) (k : tokenKind) :
  ValidString s = true -> k ∈ [tokenOpen; tokenClose; tokenUnsupported] ->
  token_read (c :: s) i (mkToken k [] i) 1.
Proof.
  intros Hv Hk. split; cbn [tk_text tk_offset tk_kind length drop]; try done; try lia.
  - intros ->. by apply (bool_decide_pack _) in Hk.
  - unfold token_ok. cbn [tk_kind tk_text]. rewrite !elem_of_cons, elem_of_nil in Hk.
    by destruct Hk as [->|[->|[->|[]]]].
Qed.

Lemma lex_item_read (s : gostring) (i r : Z) (w u : nat) (t : token) :
  s <> [] -> ValidString s = true -> DecodeRune s = (r, w) ->
  lex_item s i r w = Ok (t, u) -> token_read s i t u.
Proof.
  intros Hne Hv Hd H. unfold lex_item in H. pose proof (valid_head s r w Hne Hv Hd) as Hh.
  destruct (Z.eqb_spec r 39) as [->|_].
  { destruct Hh as (c & s' & -> & Hc & -> & Hv'); [lia|]. inv_bind H. destruct a as [v n].
    injection H as <- <-. unfold quotedString in E. inv_bind E. destruct a as [v' n'].
    injection E as <- <-. cbn [drop] in E0. rewrite drop_0 in E0. apply quoted_loop_inv in E0; [|done|done|done].
    destruct E0 as (? & Hb & ? & ? & ?). change (blen (@nil ascii)) with 0 in Hb.
    split; cbn [tk_text tk_offset tk_kind length drop Nat.add]; done || lia. }
  destruct (Z.eqb_spec r 34) as [->|_].
  { destruct Hh as (c & s' & -> & Hc & -> & Hv'); [lia|]. inv_bind H.
    apply if_Err_Ok in H as [Hn H]. injection H as <- <-.
    rewrite (code_eq_lit c "034" 34) by done. cbn [length drop] in E.
    rewrite drop_0 in E. unfold slice. cbn [drop]. rewrite drop_0.
    replace (S a - 1)%nat with a by lia. change (S (a + 1)) with (1 + a + 1)%nat.
    apply lex_quoted_name; [done|done|]. intros ->. done. }
  destruct (nameStart r) eqn:Hs.
  { apply if_Err_Ok in H as [Hlim%Z.ltb_ge H]. injection H as <- <-. by eapply lex_name. }
  destruct (between 48 57 r || (r =? 46) || (r =? 43) || (r =? 45)) eqn:Hnum.
  { apply if_Err_Ok in H as [_ H]. apply if_Err_Ok in H as [Hlim%Z.ltb_ge H]. injection H as <- <-.
    destruct Hh as (c & s' & -> & Hc & -> & Hv').
    { unfold between in Hnum. bool_props. lia. }
    apply lex_number; [done| |done]. subst r. unfold is_digit, in_range.
    revert Hnum. unfold between. clear. intros Hnum. bool_props. rewrite !Ascii.eqb_eq.
    destruct Hnum as [[[?|?]|?]|?]; [tauto|left; left; right|left; right|right];
      by eapply code_eq_lit. }
  destruct ((r =? 61) || (r =? 60) || (r =? 62)) eqn:Hop.
  { destruct Hh as (c & s' & -> & Hc & -> & Hv'); [bool_props; lia|].
    set (two := byte_at (c :: s') 1 "=" || ((r =? 60) && byte_at (c :: s') 1 ">")) in H.
    replace t with (mkToken tokenOperator (take (if two then 2 else 1)%nat (c :: s')) i)
      by (destruct two; injection H as <- <-; done).
    replace u with (if two then 2%nat else 1%nat) by (destruct two; injection H as <- <-; done).
    apply lex_operator; [done| |].
    - rewrite !elem_of_cons. bool_props. destruct Hop as [[?|?]|?];
        [left|right; left|right; right; left]; by eapply code_eq_lit.
    - subst two. do 2 f_equal. subst r. destruct (Ascii.eqb_spec c "<") as [->|Hn]; [done|].
      apply Z.eqb_neq. intros E. apply Hn. by eapply code_eq_lit. }
  destruct (Z.eqb_spec r 40) as [->|_].
  { injection H as <- <-. destruct Hh as (c & s' & -> & _ & _ & Hv'); [lia|].
    apply byte_token_read; [done|by_decide]. }
  destruct (Z.eqb_spec r 41) as [->|_].
  { injection H as <- <-. destruct Hh as (c & s' & -> & _ & _ & Hv'); [lia|].
    apply byte_token_read; [done|by_decide]. }
  destruct ((r =? 42) || (r =? 47) || (r =? 37) || (r =? 94) || (r =? 44)) eqn:Hu; [|done].
  apply if_Err_Ok in H as [_ H]. injection H as <- <-.
  destruct Hh as (c & s' & -> & _ & -> & Hv'); [bool_props; lia|].
  apply byte_token_read; [done|by_decide].
Qed.

Definition text_bytes (ts : list token) : Z := foldr (fun t a => blen (tk_text t) + a) 0 ts.

(** A token sequence for an input of [len] bytes that starts at offset [i]:
    well-formed tokens in order, closed by the only end token, whose texts fit
    the bytes they were read from. *)
Record lexed (len i n : Z) (ts body : list token) : Prop := {
  lx_end : ts = body ++ [mkToken tokenEnd [] (i + len)];
  lx_body : Forall (fun t => tk_kind t <> tokenEnd /\ token_ok t) body;
  lx_count : n + blen body <= maxTokens;
  lx_bytes : text_bytes body <= len;
  lx_range : Forall (fun t => i <= tk_offset t < i + len) body;
  lx_order : StronglySorted (fun t u => tk_offset t < tk_offset u) body
}.

Lemma lexed_nil (i n : Z) : n <= maxTokens -> lexed 0 i n [mkToken tokenEnd [] i] [].
Proof.
  intros Hn. split; [by rewrite Z.add_0_r|apply Forall_nil_2| |done|apply Forall_nil_2|constructor].
  change (blen (@nil token)) with 0. lia.
Qed.

(** With fuel for every byte the loop never stops early. *)
Lemma lex_loop_fuel (fuel fuel' : nat) (s : gostring) (i n : Z) :
  (length s <= fuel)%nat -> (length s <= fuel')%nat -> ValidString s = true ->
  lex_loop fuel s i n = lex_loop fuel' s i n.
Proof.
  revert fuel' s i n. induction fuel as [|fuel IH]; intros [|fuel'] [|c s] i n Hf Hf' Hv;
    cbn in Hf, Hf'; try lia; try done.
  cbn [lex_loop]. destruct (DecodeRune (c :: s)) as [r w] eqn:Ed.
  pose proof (drop_width_length (c :: s) ltac:(done)) as Hdl. rewrite Ed in Hdl. cbn [snd] in Hdl.
  pose proof (ValidString_step (c :: s) r w ltac:(done) Ed) as Hstep. rewrite Hv in Hstep.
  symmetry in Hstep. apply andb_true_iff in Hstep as [_ Hstep].
  destruct (space r); [apply IH; [cbn in Hdl; lia|cbn in Hdl; lia|done]|].
  destruct (maxTokens <=? n); [done|].
  destruct (lex_item (c :: s) i r w) as [[t u]|] eqn:Et; [|done]. cbn [rbind].
  apply lex_item_read in Et as [Hu Hd _ _ _ _]; [|done|done|done].
  rewrite (IH fuel'); [done| | |done]; rewrite length_drop; cbn [length] in *; lia.
Qed.

Lemma lex_loop_sound (fuel : nat) (s : gostring) (i n : Z) (ts : list token) :
  (length s <= fuel)%nat -> ValidString s = true -> n <= maxTokens ->
  lex_loop fuel s i n = Ok ts -> exists body, lexed (blen s) i n ts body.
Proof.
  revert s i n ts. induction fuel as [|fuel IH]; intros [|c s] i n ts Hf Hv Hn H;
    cbn [length] in Hf; try lia.
  1, 2: by injection H as <-; exists []; apply lexed_nil.
  cbn [lex_loop] in H. destruct (DecodeRune (c :: s)) as [r w] eqn:Ed.
  pose proof (DecodeRune_width (c :: s) ltac:(done)) as [Hw1 Hw2]. rewrite Ed in Hw1, Hw2.
  cbn [snd] in Hw1, Hw2.
  pose proof (ValidString_step (c :: s) r w ltac:(done) Ed) as Hstep. rewrite Hv in Hstep.
  symmetry in Hstep. apply andb_true_iff in Hstep as [_ Hstep].
  destruct (space r).
  - apply IH in H as [body [H1 H2 H3 H4 H5 H6]]; [|rewrite length_drop; cbn; lia|done|done].
    exists body. unfold blen in *. rewrite length_drop in *. split; try done; try lia.
    + rewrite H1. do 3 f_equal. lia.
    + eapply Forall_impl; [exact H5|]. cbn. lia.
  - destruct (Z.leb_spec maxTokens n); [done|].
    inv_bind H. destruct a as [t u]. apply lex_item_read in E as [Hu Hd Hb Ho Hk Hok]; [|done|done|done].
    inv_bind H. injection H as <-.
    apply IH in E as [body [H1 H2 H3 H4 H5 H6]]; [|rewrite length_drop; cbn [length] in *; lia|done|lia].
    exists (t :: body). unfold blen in *. rewrite length_drop in *. split.
    + rewrite H1. cbn [app]. do 4 f_equal. lia.
    + by constructor.
    + unfold blen. cbn [length]. lia.
    + cbn [text_bytes foldr]. unfold text_bytes, blen in *. lia.
    + constructor; [cbn [length] in *; lia|]. eapply Forall_impl; [exact H5|]. cbn. lia.
    + constructor; [done|]. eapply Forall_impl; [exact H5|]. cbn. lia.
Qed.

Lemma lex_sound (input : gostring) (ts : list token) :
  lex input = Ok ts -> blen input <= maxInputBytes /\ exists body, lexed (blen input) 0 0 ts body.
Proof.
  unfold lex. rewrite !if_Err_Ok, Z.ltb_ge, negb_false_iff. intros (Hl & Hv & H).
  split; [done|]. by eapply lex_loop_sound.
Qed.

(** On success the scanner yields at most 8192 tokens followed by the end
    token at the input's length, at strictly increasing offsets inside the
    input; every name can be referenced as a property, every literal is valid
    UTF-8 within its limit, every operator is one of the seven spellings, and
    the texts together are no longer than the input. *)
Lemma lex_wellformed (input : gostring) (ts : list token) :
  lex input = Ok ts ->
  exists body, ts = body ++ [mkToken tokenEnd [] (blen input)] /\ blen body <= maxTokens
    /\ Forall (fun t => tk_kind t <> tokenEnd /\ token_ok t /\ 0 <= tk_offset t < blen input) body
    /\ StronglySorted (fun t u => tk_offset t < tk_offset u) body
    /\ text_bytes body <= blen input <= maxInputBytes.
Proof.
  intros [Hl [body [H1 H2 H3 H4 H5 H6]]]%lex_sound. exists body. split_and!; try done; try lia.
  rewrite Forall_forall in *. intros t Ht. destruct (H2 t Ht), (H5 t Ht). split_and!; done || lia.
Qed.

