(* ===== verification/Cql2Parser.v ===== *)
(** * ogc/cql2/parser.go: the CQL2 text parser

    The parser state is the tokens from the current one on and the number of
    nodes made; the methods of the code return it.  expression, term, factor and
    their loops call one another: [fuel] bounds the calls and [PFuel] would be a
    parse that did not finish, which Parse_total excludes. *)

From S2P Require Import Prelude GoText Temporal Filter Cql2Lexer.

#[local] Open Scope Z_scope.

Definition maxASTDepth : Z := 32.
Definition maxASTNodes : Z := 4096.

Inductive perror :=
| PFail (e : QueryError)
| PFuel.

Record parsedNode := mkParsed { pn_node : FilterNode; pn_depth : Z }.

Record parser := mkParser { p_tokens : list token; p_nodes : Z }.

Definition fail {A : Type} (e : QueryError) : result perror A := Err (PFail e).

Definition lift {A : Type} (r : result QueryError A) : result perror A :=
  match r with Ok a => Ok a | Err e => fail e end.

(** [p.tokens[p.index]]; the tokens end with the end token, which [take] never
    passes, so there is always a current one. *)
Definition current (p : parser) : token :=
  match p_tokens p with t :: _ => t | [] => mkToken tokenEnd [] 0 end.

Definition advance (p : parser) : parser :=
  match p_tokens p with
  | t :: ts => if bool_decide (tk_kind t = tokenEnd) then p else mkParser ts (p_nodes p)
  | [] => p
  end.

Definition is_kind (p : parser) (k : tokenKind) : bool := bool_decide (tk_kind (current p) = k).

Definition asciiUpper (value : gostring) : gostring :=
  map (fun b => if is_lower b then byte_of (code b - 32) else b) value.

Definition asciiEqual (left right : gostring) : bool := beq (asciiUpper left) (asciiUpper right).

Definition asciiBoolean (value : gostring) : gostring :=
  if asciiEqual value (B "TRUE") then B "true" else B "false".

Definition keyword (p : parser) (word : string) : bool :=
  is_kind p tokenName && asciiEqual (tk_text (current p)) (B word).

(** [p.accept(word)]: the state after the keyword when it is there. *)
Definition accept (p : parser) (word : string) : option parser :=
  if keyword p word then Some (advance p) else None.

Definition reserved_words : list gostring := map B
  ["AND"; "OR"; "NOT"; "IS"; "NULL"; "TRUE"; "FALSE"; "DATE"; "TIMESTAMP"; "LIKE"; "IN"; "BETWEEN";
   "CASEI"; "ACCENTI"; "DIV"; "BBOX"; "INTERVAL"; "POINT"; "LINESTRING"; "POLYGON"; "MULTIPOINT";
   "MULTILINESTRING"; "MULTIPOLYGON"; "GEOMETRYCOLLECTION";
   "S_INTERSECTS"; "S_EQUALS"; "S_DISJOINT"; "S_TOUCHES"; "S_WITHIN"; "S_OVERLAPS"; "S_CROSSES";
   "S_CONTAINS";
   "T_AFTER"; "T_BEFORE"; "T_CONTAINS"; "T_DISJOINT"; "T_DURING"; "T_EQUALS"; "T_FINISHEDBY";
   "T_FINISHES"; "T_INTERSECTS"; "T_MEETS"; "T_METBY"; "T_OVERLAPPEDBY"; "T_OVERLAPS";
   "T_STARTEDBY"; "T_STARTS";
   "A_EQUALS"; "A_CONTAINS"; "A_CONTAINEDBY"; "A_OVERLAPS"].

Definition reserved (value : gostring) : bool := bool_decide (asciiUpper value ∈ reserved_words).

Definition advancedToken (t : token) : bool :=
  match tk_kind t with
  | tokenNumber =>
      match tk_text t with c :: _ => Ascii.eqb c "+" || Ascii.eqb c "-" | [] => false end
  | tokenUnsupported => true
  | tokenName =>
      bool_decide (asciiUpper (tk_text t) ∈ map B ["LIKE"; "IN"; "BETWEEN"; "CASEI"; "ACCENTI"; "DIV"; "INTERVAL"])
  | _ => false
  end.

Definition makeNode (p : parser) (node : FilterNode) (depth : Z)
    : result perror (parsedNode * parser) :=
  let p := mkParser (p_tokens p) (p_nodes p + 1) in
  if (maxASTNodes <? p_nodes p) || (maxASTDepth <? depth) then
    fail (invalid (tk_offset (current p)) "expression exceeds structural limit")
  else Ok (mkParsed node depth, p).

Definition logical_node (kind : FilterKind) (children : list FilterNode) : FilterNode :=
  mkNode kind FilterComparisonInvalid [] zeroLiteral false children.

(** The temporal literal after DATE or TIMESTAMP: a string in parentheses. *)
Definition temporal_literal (kind : FilterScalarType) (p : parser)
    : result perror (FilterLiteral * parser) :=
  if negb (is_kind p tokenOpen) then
    fail (invalid (tk_offset (current p)) "expected temporal literal parentheses")
  else
    let p := advance p in
    let value := current p in
    if negb (is_kind p tokenString) then
      fail (invalid (tk_offset value) "expected temporal literal string")
    else
      let p := advance p in
      if negb (is_kind p tokenClose) then
        fail (invalid (tk_offset (current p)) "expected temporal literal closing parenthesis")
      else
        let p := advance p in
        let? l := lift (NewFilterLiteral kind (tk_text value)) in Ok (l, p).

Definition literal (p : parser) : result perror (FilterLiteral * parser) :=
  let t := current p in
  match tk_kind t with
  | tokenString => let? l := lift (NewFilterLiteral FilterString (tk_text t)) in Ok (l, advance p)
  | tokenNumber => let? l := lift (NewFilterLiteral FilterNumber (tk_text t)) in Ok (l, advance p)
  | tokenName =>
      if keyword p "NULL" then fail (invalid (tk_offset t) "null requires is null")
      else if keyword p "TRUE" || keyword p "FALSE" then
        let? l := lift (NewFilterLiteral FilterBoolean (asciiBoolean (tk_text t))) in
        Ok (l, advance p)
      else if keyword p "DATE" || keyword p "TIMESTAMP" then
        temporal_literal
          (if asciiEqual (tk_text t) (B "TIMESTAMP") then FilterTimestamp else FilterDate)
          (advance p)
      else fail (unsupported (tk_offset t))
  | tokenQuotedName | tokenUnsupported | tokenOpen => fail (unsupported (tk_offset t))
  | tokenEnd | tokenOperator | tokenClose => fail (invalid (tk_offset t) "expected scalar literal")
  end.

Definition compare_operator (text : gostring) : option FilterCompareOperator :=
  if beq text (B "=") then Some FilterEqual
  else if beq text (B "<>") then Some FilterNotEqual
  else if beq text (B "<") then Some FilterLess
  else if beq text (B "<=") then Some FilterLessEqual
  else if beq text (B ">") then Some FilterGreater
  else if beq text (B ">=") then Some FilterGreaterEqual
  else None.

(** What follows a property name: a null test or a comparison. *)
Definition property_test (p : parser) (property : gostring) : result perror (parsedNode * parser) :=
  match accept p "IS" with
  | Some p =>
      let '(kind, p) := match accept p "NOT" with
                        | Some p' => (FilterIsNotNull, p')
                        | None => (FilterIsNull, p)
                        end in
      match accept p "NULL" with
      | Some p => makeNode p (mkNode kind FilterComparisonInvalid property zeroLiteral false []) 1
      | None => fail (invalid (tk_offset (current p)) "expected null test")
      end
  | None =>
      let opToken := current p in
      if negb (is_kind p tokenOperator) then
        if advancedToken opToken || keyword p "NOT" || is_kind p tokenNumber then
          fail (unsupported (tk_offset opToken))
        else fail (invalid (tk_offset opToken) "expected comparison")
      else
        let p := advance p in
        match compare_operator (tk_text opToken) with
        | None => fail (invalid (tk_offset opToken) "invalid comparison operator")
        | Some operator =>
            let? (l, p) := literal p in
            makeNode p (mkNode FilterCompare operator property l false []) 1
        end
  end.

(** The part of factor after the negation and the parenthesis. *)
Definition predicate (p : parser) : result perror (parsedNode * parser) :=
  let t := current p in
  if keyword p "TRUE" || keyword p "FALSE" then
    let p := advance p in
    if is_kind p tokenOperator then fail (unsupported (tk_offset t))
    else makeNode p (mkNode FilterBooleanConstant FilterComparisonInvalid [] zeroLiteral
                       (asciiEqual (tk_text t) (B "TRUE")) []) 1
  else if negb (is_kind p tokenName) && negb (is_kind p tokenQuotedName) then
    if is_kind p tokenNumber || is_kind p tokenString || advancedToken t then
      fail (unsupported (tk_offset t))
    else fail (invalid (tk_offset t) "expected predicate")
  else if is_kind p tokenName && reserved (tk_text t) then fail (unsupported (tk_offset t))
  else
    let p := advance p in
    if is_kind p tokenOpen then fail (unsupported (tk_offset t))
    else property_test p (tk_text t).

Fixpoint expression (fuel : nat) (groupDepth : Z) (p : parser)
    : result perror (parsedNode * parser) :=
  match fuel with
  | O => Err PFuel
  | S fuel => let? (node1, p) := term fuel groupDepth p in or_loop fuel groupDepth node1 p
  end

with or_loop (fuel : nat) (groupDepth : Z) (node1 : parsedNode) (p : parser)
    : result perror (parsedNode * parser) :=
  match fuel with
  | O => Err PFuel
  | S fuel =>
      match accept p "OR" with
      | None => Ok (node1, p)
      | Some p =>
          let? (node2, p) := term fuel groupDepth p in
          let? (node, p) := makeNode p (logical_node FilterOr [pn_node node1; pn_node node2])
                              (Z.max (pn_depth node1) (pn_depth node2) + 1) in
          or_loop fuel groupDepth node p
      end
  end

with term (fuel : nat) (groupDepth : Z) (p : parser) : result perror (parsedNode * parser) :=
  match fuel with
  | O => Err PFuel
  | S fuel => let? (node1, p) := factor fuel groupDepth p in and_loop fuel groupDepth node1 p
  end

with and_loop (fuel : nat) (groupDepth : Z) (node1 : parsedNode) (p : parser)
    : result perror (parsedNode * parser) :=
  match fuel with
  | O => Err PFuel
  | S fuel =>
      match accept p "AND" with
      | None => Ok (node1, p)
      | Some p =>
          let? (node2, p) := factor fuel groupDepth p in
          let? (node, p) := makeNode p (logical_node FilterAnd [pn_node node1; pn_node node2])
                              (Z.max (pn_depth node1) (pn_depth node2) + 1) in
          and_loop fuel groupDepth node p
      end
  end

with factor (fuel : nat) (groupDepth : Z) (p : parser) : result perror (parsedNode * parser) :=
  match fuel with
  | O => Err PFuel
  | S fuel =>
      if maxASTDepth <=? groupDepth then
        fail (invalid (tk_offset (current p)) "expression exceeds nesting limit")
      else
        match accept p "NOT" with
        | Some p =>
            let? (child, p) := factor fuel (groupDepth + 1) p in
            makeNode p (logical_node FilterNot [pn_node child]) (pn_depth child + 1)
        | None =>
            if is_kind p tokenOpen then
              let? (node, p) := expression fuel (groupDepth + 1) (advance p) in
              if negb (is_kind p tokenClose) then
                fail (invalid (tk_offset (current p)) "missing closing parenthesis")
              else Ok (node, advance p)
            else predicate p
        end
  end.

(** The parse after scanning; fuel of three calls per token is enough. *)
Definition parse_tokens (tokens : list token) : result perror FilterExpression :=
  let? (root, p) := expression (3 * length tokens + 3) 0 (mkParser tokens 0) in
  if negb (is_kind p tokenEnd) then
    if advancedToken (current p) then fail (unsupported (tk_offset (current p)))
    else fail (invalid (tk_offset (current p)) "unexpected trailing input")
  else lift (NewFilterExpression (pn_node root)).

Definition Parse (text : gostring) : result perror FilterExpression :=
  let? tokens := lift (lex text) in parse_tokens tokens.

(** ** The shape of a parsed tree

    A node as the parser makes it: binary conjunctions and disjunctions, names
    that the scanner admits, literals that NewFilterLiteral returned. *)

Definition canonical_node (n : FilterNode) : Prop :=
  let 'mkNode k o p l b cs := n in
  match k with
  | FilterBooleanConstant => o = FilterComparisonInvalid /\ p = [] /\ l = zeroLiteral /\ cs = []
  | FilterCompare =>
      CanReferenceProperty p = true /\ o <> FilterComparisonInvalid
      /\ NewFilterLiteral (fl_kind l) (fl_text l) = Ok l /\ b = false /\ cs = []
  | FilterIsNull | FilterIsNotNull =>
      CanReferenceProperty p = true /\ o = FilterComparisonInvalid /\ l = zeroLiteral
      /\ b = false /\ cs = []
  | FilterAnd | FilterOr =>
      o = FilterComparisonInvalid /\ p = [] /\ l = zeroLiteral /\ b = false /\ length cs = 2%nat
  | FilterNot =>
      o = FilterComparisonInvalid /\ p = [] /\ l = zeroLiteral /\ b = false /\ length cs = 1%nat
  | _ => False
  end.

Abbreviation canonical := (every_node canonical_node).

Lemma NewFilterLiteral_fields (k : FilterScalarType) (text : gostring) (l : FilterLiteral) :
  NewFilterLiteral k text = Ok l -> fl_kind l = k /\ fl_text l = text.
Proof.
  unfold NewFilterLiteral. intros H. apply if_Err_Ok in H as [_ H].
  destruct k; repeat (apply if_Err_Ok in H as [_ H]); try discriminate; try (by injection H as <-).
  - destruct (parse_date text); [|done]. apply if_Err_Ok in H as [_ H]. by injection H as <-.
  - inv_bind H. by injection H as <-.
Qed.

Lemma asciiUpper_length (s : gostring) : length (asciiUpper s) = length s.
Proof. apply length_map. Qed.

Lemma asciiEqual_length (s t : gostring) : asciiEqual s t = true -> blen s = blen t.
Proof.
  intros H%beq_true. unfold blen. by rewrite <- (asciiUpper_length s), H, asciiUpper_length.
Qed.

Lemma asciiBoolean_length (s : gostring) :
  asciiEqual s (B "TRUE") || asciiEqual s (B "FALSE") = true -> blen (asciiBoolean s) = blen s.
Proof.
  unfold asciiBoolean. destruct (asciiEqual s (B "TRUE")) eqn:E.
  - intros _. by rewrite (asciiEqual_length _ _ E).
  - intros H. cbn in H. by rewrite (asciiEqual_length _ _ H).
Qed.

(** ** Outcomes of the parsing functions *)

(** The outcome of a call with [fuel] for which [bound] is enough: a result that
    satisfies [Q], an error, or too little fuel. *)
Definition outcome {A : Type} (bound fuel : nat) (Q : A -> Prop) (r : result perror A) : Prop :=
  match r with
  | Ok a => Q a
  | Err (PFail _) => True
  | Err PFuel => (fuel < bound)%nat
  end.

Lemma outcome_bind {A C : Type} (b f b' f' : nat) (Q : A -> Prop) (Q' : C -> Prop)
    (r : result perror A) (k : A -> result perror C) :
  outcome b f Q r -> (f < b -> f' < b')%nat -> (forall a, Q a -> outcome b' f' Q' (k a)) ->
  outcome b' f' Q' (rbind r k).
Proof. intros Hr Hf Hk. destruct r as [a|[e|]]; cbn in *; auto. Qed.

Lemma outcome_weaken {A : Type} (b f b' f' : nat) (Q Q' : A -> Prop) (r : result perror A) :
  outcome b f Q r -> (f < b -> f' < b')%nat -> (forall a, Q a -> Q' a) -> outcome b' f' Q' r.
Proof. intros Hr Hf Hk. destruct r as [a|[e|]]; cbn in *; auto. Qed.

(** The state [p'] follows [p] after the tokens [used]. *)
Definition follows (p p' : parser) (used : list token) : Prop :=
  p_tokens p = used ++ p_tokens p' /\ p_nodes p' = p_nodes p.

Definition tokens_ok (p : parser) : Prop := Forall token_ok (p_tokens p).

Lemma advance_follows (p : parser) :
  tk_kind (current p) <> tokenEnd -> follows p (advance p) [current p].
Proof.
  unfold current, advance, follows. destruct p as [[|t ts] n]; cbn; [done|].
  intros Hk. by rewrite bool_decide_false.
Qed.

Lemma follows_trans (p q r : parser) (u v : list token) :
  follows p q u -> follows q r v -> follows p r (u ++ v).
Proof. intros [H1 H2] [H3 H4]. split; [by rewrite H1, H3, app_assoc|congruence]. Qed.

Lemma follows_ok (p q : parser) (u : list token) : follows p q u -> tokens_ok p -> tokens_ok q.
Proof. intros [H _]. unfold tokens_ok. rewrite H, Forall_app. tauto. Qed.

Lemma current_ok (p : parser) : tokens_ok p -> token_ok (current p).
Proof. unfold tokens_ok, current. destruct p as [[|t ts] n]; [done|]. by intros [H _]%Forall_cons. Qed.

Lemma is_kind_true (p : parser) (k : tokenKind) : is_kind p k = true -> tk_kind (current p) = k.
Proof. apply bool_decide_eq_true. Qed.

Lemma keyword_name (p : parser) (w : string) :
  keyword p w = true -> tk_kind (current p) = tokenName /\ asciiEqual (tk_text (current p)) (B w) = true.
Proof. unfold keyword. intros [H1%is_kind_true H2]%andb_true_iff. done. Qed.

Lemma accept_Some (p p' : parser) (w : string) :
  accept p w = Some p' -> follows p p' [current p] /\ keyword p w = true.
Proof.
  unfold accept. destruct (keyword p w) eqn:E; [|done]. intros [= <-].
  split; [|done]. apply advance_follows. by destruct (keyword_name p w E) as [-> _].
Qed.

(** A step past a token of a known kind. *)
Lemma advance_kind (p : parser) (k : tokenKind) :
  is_kind p k = true -> k <> tokenEnd -> follows p (advance p) [current p].
Proof. intros H%is_kind_true Hk. apply advance_follows. congruence. Qed.

Lemma text_bytes_app (u v : list token) : text_bytes (u ++ v) = text_bytes u + text_bytes v.
Proof. induction u as [|t u IH]; cbn [text_bytes foldr app]; [done|]. unfold text_bytes in *. lia. Qed.

Lemma text_bytes_nonneg (u : list token) : 0 <= text_bytes u.
Proof.
  induction u as [|t u IH]; cbn [text_bytes foldr]; [done|]. pose proof (blen_nonneg (tk_text t)).
  unfold text_bytes in *. lia.
Qed.

(** A tree made from the tokens between two states, given [count] nodes and
    [bytes] bytes of it that were made before. *)
Record parsed (count bytes : Z) (p : parser) (np : parsedNode * parser) : Prop := {
  ps_tokens : exists used, p_tokens p = used ++ p_tokens (snd np)
                           /\ node_bytes (pn_node (fst np)) <= bytes + text_bytes used;
  ps_canonical : canonical (pn_node (fst np));
  ps_depth : pn_depth (fst np) = node_depth (pn_node (fst np)) /\ pn_depth (fst np) <= maxASTDepth;
  ps_count : p_nodes (snd np) = p_nodes p + node_count (pn_node (fst np)) - count;
  ps_limit : p_nodes (snd np) <= maxASTNodes
}.

(** A new tree takes at least one token. *)
Definition parsed_new (p : parser) (np : parsedNode * parser) : Prop :=
  parsed 0 0 p np /\ (length (p_tokens (snd np)) < length (p_tokens p))%nat.

Lemma makeNode_ok (p p' : parser) (node : FilterNode) (depth : Z) (n : parsedNode) :
  makeNode p node depth = Ok (n, p') ->
  n = mkParsed node depth /\ p' = mkParser (p_tokens p) (p_nodes p + 1)
  /\ p_nodes p + 1 <= maxASTNodes /\ depth <= maxASTDepth.
Proof.
  unfold makeNode, fail. intros H. apply if_Err_Ok in H as [H [= <- <-]]. cbn in H. bool_props.
  done.
Qed.

Lemma makeNode_outcome (b f : nat) (p : parser) (node : FilterNode) (depth : Z)
    (Q : parsedNode * parser -> Prop) :
  (p_nodes p + 1 <= maxASTNodes -> depth <= maxASTDepth ->
   Q (mkParsed node depth, mkParser (p_tokens p) (p_nodes p + 1))) ->
  outcome b f Q (makeNode p node depth).
Proof.
  intros HQ. destruct (makeNode p node depth) as [[n p']|e] eqn:E.
  - apply makeNode_ok in E as (-> & -> & ? & ?). cbn. auto.
  - unfold makeNode, fail in E. destruct (_ || _); [|done]. by injection E as <-.
Qed.

(** A leaf made after the tokens [used]. *)
Lemma leaf_outcome (b f : nat) (p q : parser) (used : list token) (node : FilterNode) :
  follows p q used -> used <> [] -> canonical_node node -> n_children node = [] ->
  node_bytes node <= text_bytes used ->
  outcome b f (parsed_new p) (makeNode q node 1).
Proof.
  intros [Hu Hn] Hne Hc Hch Hb. apply makeNode_outcome. intros Hlim _.
  destruct node as [k o pr l bo cs]. cbn [n_children] in Hch. subst cs.
  split; [split; cbn|]; cbn [fst snd p_tokens p_nodes pn_node pn_depth].
  - exists used. cbn in Hb. split; [done|lia].
  - done.
  - by unfold maxASTDepth.
  - lia.
  - lia.
  - rewrite Hu, length_app. destruct used; [done|cbn; lia].
Qed.

Lemma lift_outcome {A : Type} (b f : nat) (r : result QueryError A) :
  outcome b f (fun a => r = Ok a) (lift r).
Proof. by destruct r. Qed.

Lemma outcome_fail {A : Type} (b f : nat) (Q : A -> Prop) (e : QueryError) :
  outcome b f Q (fail e).
Proof. done. Qed.

(** A literal that was read from the tokens [used]. *)
Definition literal_from (p : parser) (lp : FilterLiteral * parser) : Prop :=
  NewFilterLiteral (fl_kind (fst lp)) (fl_text (fst lp)) = Ok (fst lp)
  /\ exists used, follows p (snd lp) used /\ blen (fl_text (fst lp)) <= text_bytes used.

Lemma literal_new (b f : nat) (p q : parser) (k : FilterScalarType) (text : gostring)
    (used : list token) :
  follows p q used -> blen text <= text_bytes used ->
  outcome b f (literal_from p) (let? l := lift (NewFilterLiteral k text) in Ok (l, q)).
Proof.
  intros Hf Hb. eapply (outcome_bind b f); [apply lift_outcome|done|]. cbn. intros l Hl.
  destruct (NewFilterLiteral_fields _ _ _ Hl) as [Hk Ht]. unfold literal_from. cbn.
  rewrite Hk, Ht. eauto.
Qed.

Ltac pass_guard := match goal with |- outcome _ _ _ (if ?b then fail _ else _) =>
  destruct b eqn:?; [apply outcome_fail|] end.

Lemma temporal_literal_outcome (b f : nat) (k : FilterScalarType) (p : parser) :
  outcome b f (literal_from p) (temporal_literal k p).
Proof.
  unfold temporal_literal. repeat (pass_guard; cbv zeta).
  apply negb_false_iff in Heqb0, Heqb1, Heqb2.
  pose proof (advance_kind _ _ Heqb0 ltac:(done)) as F1.
  pose proof (advance_kind _ _ Heqb1 ltac:(done)) as F2.
  pose proof (advance_kind _ _ Heqb2 ltac:(done)) as F3.
  eapply literal_new; [exact (follows_trans _ _ _ _ _ F1 (follows_trans _ _ _ _ _ F2 F3))|].
  cbn [app text_bytes foldr]. pose proof (blen_nonneg (tk_text (current p))).
  pose proof (blen_nonneg (tk_text (current (advance (advance p))))). lia.
Qed.

Lemma literal_outcome (b f : nat) (p : parser) : outcome b f (literal_from p) (literal p).
Proof.
  unfold literal. pose proof (advance_follows p) as Hadv.
  destruct (tk_kind (current p)) eqn:Ek; try apply outcome_fail.
  - assert (follows p (advance p) [current p]) as F by by apply Hadv.
    pass_guard. destruct (keyword p "TRUE" || keyword p "FALSE") eqn:Eb.
    + eapply literal_new; [exact F|]. cbn [text_bytes foldr]. rewrite asciiBoolean_length; [lia|].
      apply orb_true_iff in Eb. apply orb_true_iff. destruct Eb as [E|E]; apply keyword_name in E; tauto.
    + case_match; [|apply outcome_fail].
      eapply outcome_weaken; [apply (temporal_literal_outcome b f)|done|].
      intros [l q] [Hl (used & Hu & Hb)]. split; [done|]. exists (current p :: used).
      split; [exact (follows_trans _ _ _ _ _ F Hu)|]. cbn [snd text_bytes foldr].
      pose proof (blen_nonneg (tk_text (current p))). unfold text_bytes in Hb. lia.
  - eapply literal_new; [by apply Hadv|]. cbn [text_bytes foldr]. lia.
  - eapply literal_new; [by apply Hadv|]. cbn [text_bytes foldr]. lia.
Qed.

Lemma property_test_outcome (b f : nat) (p q : parser) (t : token) (used : list token) :
  follows p q used -> used <> [] -> CanReferenceProperty (tk_text t) = true ->
  blen (tk_text t) <= text_bytes used ->
  outcome b f (parsed_new p) (property_test q (tk_text t)).
Proof.
  intros Hf Hne Hname Hb. unfold property_test.
  destruct (accept q "IS") as [q1|] eqn:E1.
  - apply accept_Some in E1 as [F1 _]. pose proof (follows_trans _ _ _ _ _ Hf F1) as F.
    destruct (accept q1 "NOT") as [q2|] eqn:E2.
    + apply accept_Some in E2 as [F2 _]. pose proof (follows_trans _ _ _ _ _ F F2) as F'.
      destruct (accept q2 "NULL") as [q3|] eqn:E3; [|apply outcome_fail].
      apply accept_Some in E3 as [F3 _]. eapply leaf_outcome; [exact (follows_trans _ _ _ _ _ F' F3)|..].
      1: by destruct used. 1, 2: done.
      rewrite !text_bytes_app. cbn. pose proof (text_bytes_nonneg [current q]).
      pose proof (text_bytes_nonneg [current q1]). pose proof (text_bytes_nonneg [current q2]).
      cbn in *. rewrite blen_nil. lia.
    + destruct (accept q1 "NULL") as [q3|] eqn:E3; [|apply outcome_fail].
      apply accept_Some in E3 as [F3 _]. eapply leaf_outcome; [exact (follows_trans _ _ _ _ _ F F3)|..].
      1: by destruct used. 1, 2: done.
      rewrite !text_bytes_app. cbn. pose proof (text_bytes_nonneg [current q]).
      pose proof (text_bytes_nonneg [current q1]). cbn in *. rewrite blen_nil. lia.
  - destruct (negb (is_kind q tokenOperator)) eqn:Eo; [case_match; apply outcome_fail|].
    apply negb_false_iff in Eo.
    pose proof (follows_trans _ _ _ _ _ Hf (advance_kind _ _ Eo ltac:(done))) as F.
    destruct (compare_operator (tk_text (current q))) as [op|] eqn:Ec; [|apply outcome_fail].
    eapply (outcome_bind b f); [apply literal_outcome|done|].
    intros [l q3] [Hl (used' & F' & Hb')]. cbn [fst snd] in *.
    eapply leaf_outcome; [exact (follows_trans _ _ _ _ _ F F')|by destruct used| |done|].
    + split_and!; try done. unfold compare_operator in Ec. repeat case_match; naive_solver.
    + rewrite !text_bytes_app. cbn [node_bytes foldr]. pose proof (text_bytes_nonneg [current q]). lia.
Qed.

Lemma predicate_outcome (b f : nat) (p : parser) :
  tokens_ok p -> outcome b f (parsed_new p) (predicate p).
Proof.
  intros Hok. unfold predicate. destruct (keyword p "TRUE" || keyword p "FALSE") eqn:Eb.
  - assert (tk_kind (current p) = tokenName) as Hk.
    { apply orb_true_iff in Eb as [E|E]; by apply keyword_name in E as [? _]. }
    assert (follows p (advance p) [current p]) as F by (apply advance_follows; congruence).
    pass_guard. eapply leaf_outcome; [exact F|done|done|done|].
    cbn [node_bytes]. pose proof (text_bytes_nonneg [current p]). cbn in *.
    rewrite !(@blen_nil ascii). lia.
  - destruct (negb (is_kind p tokenName) && negb (is_kind p tokenQuotedName)) eqn:Ek.
    { case_match; apply outcome_fail. }
    pass_guard.
    assert (tk_kind (current p) = tokenName \/ tk_kind (current p) = tokenQuotedName) as Hk.
    { apply andb_false_iff in Ek. rewrite !negb_false_iff in Ek.
      destruct Ek as [E|E]; apply is_kind_true in E; auto. }
    assert (CanReferenceProperty (tk_text (current p)) = true) as Hname.
    { pose proof (current_ok p Hok) as Ht. unfold token_ok in Ht. by destruct Hk as [E|E]; rewrite E in Ht. }
    assert (follows p (advance p) [current p]) as F.
    { apply advance_follows. by destruct Hk as [->| ->]. }
    pass_guard. eapply property_test_outcome; [exact F|done|done|].
    cbn [text_bytes foldr]. lia.
Qed.

Lemma parsed_grow (c0 b0 c1 b1 : Z) (p q : parser) (np : parsedNode * parser) (used : list token) :
  p_tokens p = used ++ p_tokens q -> p_nodes q - c1 = p_nodes p - c0 -> b1 <= b0 + text_bytes used ->
  parsed c1 b1 q np -> parsed c0 b0 p np.
Proof.
  intros Hu Hc Hb [(u & H1 & H1b) H2 H3 H4 H5]. split; try done; try lia.
  exists (used ++ u). rewrite Hu, H1, app_assoc, text_bytes_app. split; [done|lia].
Qed.

(** Joining two trees under a conjunction or a disjunction. *)
Lemma join_outcome (b f : nat) (c0 b0 : Z) (p q : parser) (k : FilterKind) (l r : parsedNode) (p' : parser) :
  k = FilterAnd \/ k = FilterOr ->
  canonical (pn_node l) -> pn_depth l = node_depth (pn_node l) ->
  c0 = node_count (pn_node l) -> b0 = node_bytes (pn_node l) ->
  parsed_new q (r, p') -> follows p q [current p] ->
  outcome b f (fun np => parsed c0 b0 p np /\ (length (p_tokens (snd np)) < length (p_tokens p))%nat)
    (makeNode p' (logical_node k [pn_node l; pn_node r]) (Z.max (pn_depth l) (pn_depth r) + 1)).
Proof.
  intros Hk Hcl Hdl -> -> [[(u & Hu & Hub) Hc [Hd Hdm] Hn Hl] Hlt] [Fp Fn].
  cbn [fst snd] in *. apply makeNode_outcome. intros Hlim Hdep.
  split; [split|]; cbn [fst snd pn_node pn_depth p_tokens p_nodes].
  - exists ([current p] ++ u). rewrite Fp, Hu, app_assoc, text_bytes_app. split; [done|].
    pose proof (text_bytes_nonneg [current p]).
    cbn [logical_node node_bytes foldr fl_text zeroLiteral]. rewrite !(@blen_nil ascii). lia.
  - cbn. split_and!; try done. by destruct Hk as [->| ->].
  - cbn [logical_node node_depth foldr]. rewrite <- Hdl, <- Hd.
    pose proof (children_nonneg [pn_node r]) as (_ & _ & H). cbn [foldr] in H. rewrite <- Hd in H.
    split; [|done]. destruct (pn_node l), (pn_node r); cbn [node_depth] in *.
    pose proof (children_nonneg children) as (_ & _ & H').
    pose proof (children_nonneg children0) as (_ & _ & H''). lia.
  - cbn [logical_node node_count foldr]. lia.
  - lia.
  - rewrite Fp. cbn. lia.
Qed.

(** ** All parsing functions, by induction on the fuel *)

(** The tokens left in a state. *)
Definition left_tokens (p : parser) : nat := length (p_tokens p).

Definition parsed_more (l : parsedNode) (p : parser) (np : parsedNode * parser) : Prop :=
  parsed (node_count (pn_node l)) (node_bytes (pn_node l)) p np
  /\ (left_tokens (snd np) <= left_tokens p)%nat.

Definition is_tree (l : parsedNode) : Prop :=
  canonical (pn_node l) /\ pn_depth l = node_depth (pn_node l) /\ pn_depth l <= maxASTDepth.

Record sound_at (fuel : nat) : Prop := {
  sd_expression : forall g p, tokens_ok p ->
    outcome (3 * left_tokens p + 3) fuel (parsed_new p) (expression fuel g p);
  sd_or : forall g l p, tokens_ok p -> is_tree l -> p_nodes p <= maxASTNodes ->
    outcome (3 * left_tokens p + 1) fuel (parsed_more l p) (or_loop fuel g l p);
  sd_term : forall g p, tokens_ok p ->
    outcome (3 * left_tokens p + 2) fuel (parsed_new p) (term fuel g p);
  sd_and : forall g l p, tokens_ok p -> is_tree l -> p_nodes p <= maxASTNodes ->
    outcome (3 * left_tokens p + 1) fuel (parsed_more l p) (and_loop fuel g l p);
  sd_factor : forall g p, tokens_ok p ->
    outcome (3 * left_tokens p + 1) fuel (parsed_new p) (factor fuel g p)
}.

Lemma parsed_tokens_ok (c b : Z) (p : parser) (np : parsedNode * parser) :
  parsed c b p np -> tokens_ok p -> tokens_ok (snd np).
Proof. intros [(u & H & _) _ _ _ _]. unfold tokens_ok. rewrite H, Forall_app. tauto. Qed.

Lemma parsed_tree (c b : Z) (p : parser) (np : parsedNode * parser) : parsed c b p np -> is_tree (fst np).
Proof. intros [_ ? [? ?] _ _]. done. Qed.

Lemma parsed_done (l : parsedNode) (p : parser) :
  is_tree l -> p_nodes p <= maxASTNodes -> parsed_more l p (l, p).
Proof.
  intros (? & ? & ?) ?. split; [|cbn; lia]. split; cbn [fst snd]; try done; try lia.
  exists []. cbn. split; [done|lia].
Qed.

(** A tree followed by a loop that extends it. *)
Lemma extend_outcome (b f : nat) (p q : parser) (l : parsedNode) (r : result perror (parsedNode * parser)) :
  parsed_new p (l, q) -> outcome b f (parsed_more l q) r -> outcome b f (parsed_new p) r.
Proof.
  intros [[(u & Hu & Hub) _ _ Hn Hl] Hlt] Hr. cbn [fst snd] in *.
  eapply outcome_weaken; [exact Hr|done|]. intros [n p'] [Hp Hle]. cbn [fst snd] in *.
  split; [|unfold left_tokens in *; cbn in *; lia].
  eapply parsed_grow; [exact Hu| | |exact Hp]; lia.
Qed.

(** One round of a loop: the keyword, the right operand, the joined node. *)
Lemma loop_round (fuel : nat) (g : Z) (k : FilterKind) (w : string) (l : parsedNode) (p q : parser)
    (operand : result perror (parsedNode * parser))
    (loop : parsedNode -> parser -> result perror (parsedNode * parser)) :
  k = FilterAnd \/ k = FilterOr -> accept p w = Some q -> tokens_ok p -> is_tree l ->
  outcome (3 * left_tokens q + 2) fuel (parsed_new q) operand ->
  (forall n p', tokens_ok p' -> is_tree n -> p_nodes p' <= maxASTNodes ->
     outcome (3 * left_tokens p' + 1) fuel (parsed_more n p') (loop n p')) ->
  outcome (3 * left_tokens p + 1) (S fuel) (parsed_more l p)
    (let? (node2, p) := operand in
     let? (node, p) := makeNode p (logical_node k [pn_node l; pn_node node2])
                         (Z.max (pn_depth l) (pn_depth node2) + 1) in
     loop node p).
Proof.
  intros Hk Ha Hok (Hcl & Hdl & _) Hop Hloop. apply accept_Some in Ha as [F _].
  assert (left_tokens p = S (left_tokens q)) as Hlen.
  { unfold left_tokens. by rewrite (proj1 F). }
  eapply outcome_bind; [exact Hop|lia|]. intros [r p'] Hr.
  eapply (outcome_bind 0 0); [|lia|].
  { eapply (join_outcome 0 0 _ _ p q k l r p'); done. }
  intros [n p''] [Hn Hlt]. cbn [fst snd] in Hlt.
  eapply outcome_weaken.
  - apply Hloop; [by eapply parsed_tokens_ok in Hn|by apply parsed_tree in Hn|apply Hn].
  - unfold left_tokens in *. lia.
  - intros [n' p3] [Hp Hle]. split; [|unfold left_tokens in *; cbn in *; lia].
    destruct Hn as [(u & Hu & Hub) _ _ Hc _]. cbn [fst snd] in *.
    eapply parsed_grow; [exact Hu| | |exact Hp]; lia.
Qed.

Lemma factor_outcome (fuel : nat) (g : Z) (p : parser) :
  sound_at fuel -> tokens_ok p ->
  outcome (3 * left_tokens p + 1) (S fuel) (parsed_new p) (factor (S fuel) g p).
Proof.
  intros [IHe _ _ _ IHf] Hok. cbn [factor]. pass_guard.
  destruct (accept p "NOT") as [q|] eqn:Ea.
  - apply accept_Some in Ea as [F _]. pose proof (follows_ok _ _ _ F Hok) as Hq. destruct F as [Fp Fn].
    eapply outcome_bind; [by apply (IHf (g + 1) q)| |].
    { unfold left_tokens. rewrite Fp. cbn. lia. }
    intros [c p'] [[(u & Hu & Hub) Hc [Hd Hdm] Hn Hl] Hlt]. cbn [fst snd] in *.
    apply makeNode_outcome. intros Hlim Hdep.
    split; [split|]; cbn [fst snd pn_node pn_depth p_tokens p_nodes].
    + exists ([current p] ++ u). rewrite Fp, Hu, app_assoc, text_bytes_app. split; [done|].
      pose proof (text_bytes_nonneg [current p]).
      cbn [logical_node node_bytes foldr fl_text zeroLiteral]. rewrite !(@blen_nil ascii). lia.
    + cbn. split_and!; done.
    + cbn [logical_node node_depth foldr]. rewrite <- Hd. split; [|done].
      destruct (pn_node c). cbn [node_depth] in Hd.
      pose proof (children_nonneg children) as (_ & _ & ?). lia.
    + cbn [logical_node node_count foldr]. lia.
    + lia.
    + rewrite Fp. cbn. lia.
  - destruct (is_kind p tokenOpen) eqn:Eo; [|by apply predicate_outcome].
    pose proof (advance_kind _ _ Eo ltac:(done)) as F.
    pose proof (follows_ok _ _ _ F Hok) as Hq. destruct F as [Fp Fn].
    eapply outcome_bind; [by apply (IHe (g + 1) (advance p))| |].
    { unfold left_tokens. rewrite Fp. cbn. lia. }
    intros [n p'] [Hn Hlt]. cbn [snd] in Hlt. pass_guard. apply negb_false_iff in Heqb0.
    destruct (advance_kind _ _ Heqb0 ltac:(done)) as [Gp Gn]. cbn [outcome].
    split; [|cbn [snd]; rewrite Fp; rewrite Gp in Hlt; cbn in *; lia].
    destruct Hn as [(u & Hu & Hub) H2 H3 H4 H5]. cbn [fst snd] in *.
    split; cbn [fst snd]; try done; try lia.
    exists ([current p] ++ u ++ [current p']). rewrite Fp, Hu, Gp, <- !app_assoc.
    split; [done|]. rewrite !text_bytes_app. pose proof (text_bytes_nonneg [current p]).
    pose proof (text_bytes_nonneg [current p']). lia.
Qed.

Lemma parsing_sound (fuel : nat) : sound_at fuel.
Proof.
  induction fuel as [|fuel IH]; [by split; intros; cbn; lia|].
  pose proof IH as [IHe IHo IHt IHa IHf]. split.
  - intros g p Hok. cbn [expression].
    eapply outcome_bind; [by apply IHt|lia|]. intros [l q] Hl.
    pose proof Hl as [Hp Hlt]. cbn [snd] in Hlt. eapply extend_outcome; [exact Hl|].
    eapply outcome_weaken; [apply IHo|unfold left_tokens in *; lia|done];
      [by eapply parsed_tokens_ok in Hp|by apply parsed_tree in Hp|apply Hp].
  - intros g l p Hok Hl Hn. cbn [or_loop].
    destruct (accept p "OR") as [q|] eqn:Ea; [|by apply parsed_done].
    eapply (loop_round fuel g FilterOr "OR"); [by right|exact Ea|done|done| |].
    + apply IHt. apply accept_Some in Ea as [F _]. by eapply follows_ok.
    + intros n p' ? ? ?. by apply IHo.
  - intros g p Hok. cbn [term].
    eapply outcome_bind; [by apply IHf|lia|]. intros [l q] Hl.
    pose proof Hl as [Hp Hlt]. cbn [snd] in Hlt. eapply extend_outcome; [exact Hl|].
    eapply outcome_weaken; [apply IHa|unfold left_tokens in *; lia|done];
      [by eapply parsed_tokens_ok in Hp|by apply parsed_tree in Hp|apply Hp].
  - intros g l p Hok Hl Hn. cbn [and_loop].
    destruct (accept p "AND") as [q|] eqn:Ea; [|by apply parsed_done].
    eapply (loop_round fuel g FilterAnd "AND"); [by left|exact Ea|done|done| |].
    + eapply outcome_weaken; [apply IHf|lia|done].
      apply accept_Some in Ea as [F _]. by eapply follows_ok.
    + intros n p' ? ? ?. by apply IHa.
  - intros g p Hok. by apply factor_outcome.
Qed.

(** ** From the grammar to a valid expression *)

Lemma every_node_impl (P Q : FilterNode -> Prop) (n : FilterNode) :
  (forall m, P m -> Q m) -> every_node P n -> every_node Q n.
Proof.
  intros HPQ. induction n as [k o p l b cs IH] using FilterNode_ind'. cbn [every_node].
  rewrite !every_node_children. intros [H1 H2]. split; [auto|].
  rewrite Forall_forall in *. auto.
Qed.

Lemma every_node_and (P Q : FilterNode -> Prop) (n : FilterNode) :
  every_node P n -> every_node Q n -> every_node (fun m => P m /\ Q m) n.
Proof.
  induction n as [k o p l b cs IH] using FilterNode_ind'. cbn [every_node].
  rewrite !every_node_children. intros [H1 H2] [H3 H4]. split; [auto|].
  rewrite Forall_forall in *. auto.
Qed.

(** A property name with a character that is not white space. *)
Definition nonblank (n : FilterNode) : Prop := n_property n = [] \/ is_blank (n_property n) = false.

(** Evaluate the tests on the parts of a node that are known. *)
Ltac decide_all :=
  repeat first [rewrite beq_refl | rewrite bool_decide_true by done
               | rewrite bool_decide_false by done];
  cbn [negb orb andb Nat.eqb Nat.ltb Nat.leb length].

Lemma canonical_ok (n : FilterNode) : canonical_node n -> node_ok n <-> nonblank n.
Proof.
  unfold node_ok, nonblank, node_shape, canonical_node, validFilterProperty.
  destruct n as [k o p l b cs]. cbn [n_property]. intros Hc.
  assert (forall p, CanReferenceProperty p = true ->
            ValidString p = true /\ p <> [] /\ blen p <= MaxFilterPropertyBytes) as Hname.
  { clear. intros p Hp. unfold CanReferenceProperty in Hp. destruct (_ || _) eqn:E; [done|].
    rewrite !orb_false_iff in E. destruct E as [[E1%beq_false E2%Z.ltb_ge] E3%negb_false_iff].
    done. }
  destruct k; try contradiction.
  - destruct Hc as (-> & -> & -> & ->). decide_all. split; [by left|done].
  - destruct Hc as (Hp & Ho & Hl & -> & ->). destruct (Hname _ Hp) as (Hv & Hne & Hlen).
    rewrite Hl, Hv. decide_all. destruct (is_blank p); cbn; naive_solver.
  - destruct Hc as (Hp & -> & -> & -> & ->). destruct (Hname _ Hp) as (Hv & Hne & Hlen).
    rewrite Hv. decide_all. destruct (is_blank p); cbn; naive_solver.
  - destruct Hc as (Hp & -> & -> & -> & ->). destruct (Hname _ Hp) as (Hv & Hne & Hlen).
    rewrite Hv. decide_all. destruct (is_blank p); cbn; naive_solver.
  - destruct Hc as (-> & -> & -> & -> & Hl). rewrite Hl. decide_all. split; [by left|done].
  - destruct Hc as (-> & -> & -> & -> & Hl). rewrite Hl. decide_all. split; [by left|done].
  - destruct Hc as (-> & -> & -> & -> & Hl). rewrite Hl. decide_all. split; [by left|done].
Qed.

Lemma lexed_tokens_ok (text : gostring) (ts : list token) (n : Z) :
  lex text = Ok ts -> tokens_ok (mkParser ts n) /\ text_bytes ts <= blen text <= maxInputBytes.
Proof.
  intros [Hl [body [-> H2 _ H4 _ _]]]%lex_sound. split.
  - unfold tokens_ok. cbn [p_tokens]. rewrite Forall_app. split; [|by repeat constructor].
    eapply Forall_impl; [exact H2|]. by intros t [].
  - rewrite text_bytes_app. cbn. rewrite (@blen_nil ascii). lia.
Qed.

(** The tree the grammar yields for a text. *)
Lemma expression_parsed (text : gostring) (ts : list token) (root : parsedNode) (p : parser) :
  lex text = Ok ts -> expression (3 * length ts + 3) 0 (mkParser ts 0) = Ok (root, p) ->
  canonical (pn_node root) /\ node_depth (pn_node root) <= MaxFilterDepth
  /\ node_count (pn_node root) <= MaxFilterNodes /\ node_bytes (pn_node root) <= blen text.
Proof.
  intros Hlex He. destruct (lexed_tokens_ok text ts 0 Hlex) as [Hok Hb].
  pose proof (sd_expression _ (parsing_sound (3 * length ts + 3)) 0 _ Hok) as Ho.
  rewrite He in Ho. destruct Ho as [[(u & Hu & Hub) Hc [Hd Hdm] Hn Hl] _]. cbn [fst snd p_nodes p_tokens] in *.
  subst ts. rewrite text_bytes_app in Hb. pose proof (text_bytes_nonneg (p_tokens p)).
  unfold maxASTDepth, MaxFilterDepth, maxASTNodes, MaxFilterNodes in *. split_and!; [done|lia..].
Qed.

Lemma tree_admissible (text : gostring) (n : FilterNode) :
  canonical n -> node_depth n <= MaxFilterDepth -> node_count n <= MaxFilterNodes ->
  node_bytes n <= blen text -> blen text <= maxInputBytes ->
  admissible n <-> every_node nonblank n.
Proof.
  intros Hc Hd Hn Hb Hl. split.
  - intros [Hok _ _ _]. pose proof (every_node_and _ _ _ Hc Hok) as H.
    eapply every_node_impl; [|exact H]. intros m [H1 H2]. by apply canonical_ok.
  - intros Hnb. unfold maxInputBytes, MaxFilterBytes in *. split; try done; try (unfold MaxFilterBytes; lia).
    pose proof (every_node_and _ _ _ Hc Hnb) as H.
    eapply every_node_impl; [|exact H]. intros m [H1 H2]. by apply canonical_ok.
Qed.

(** A parsed expression is valid. *)
Lemma Parse_valid (text : gostring) (e : FilterExpression) :
  Parse text = Ok e -> Expression_Validate e = Ok tt /\ canonical (fe_root e) /\ node_bytes (fe_root e) <= blen text.
Proof.
  unfold Parse. destruct (lex text) as [ts|err] eqn:Hlex; cbn [lift rbind]; [|done]. unfold parse_tokens.
  destruct (expression _ 0 _) as [[root p]|[err|]] eqn:He; cbn [rbind]; [|done..].
  destruct (expression_parsed text ts root p Hlex He) as (Hc & Hd & Hn & Hbytes).
  destruct (negb (is_kind p tokenEnd)); [by case_match|]. unfold NewFilterExpression.
  destruct (validateFilterNode (pn_node root) 1 (mkBudget 0 0)) as [b|] eqn:Ev; cbn [rbind lift]; [|done].
  intros [= <-]. rewrite Expression_Validate_ok. cbn [fe_valid fe_root]. rewrite cloneFilterNode_id, <- validateFilterNode_admissible. eauto.
Qed.

(** C34. Parsing always finishes, and what it returns is a valid expression in the
    parser's canonical form: binary conjunctions and disjunctions, referenceable
    names, validated literals, and no more name and literal bytes than the text
    has. *)
Theorem Parse_sound (text : gostring) :
  Parse text <> Err PFuel
  /\ (forall e, Parse text = Ok e ->
        Expression_Validate e = Ok tt /\ canonical (fe_root e) /\ node_bytes (fe_root e) <= blen text).
Proof.
  split; [|intros e; apply Parse_valid]. unfold Parse. destruct (lex text) as [ts|err] eqn:Hlex; cbn [lift rbind]; [|done].
  unfold parse_tokens. destruct (lexed_tokens_ok text ts 0 Hlex) as [Hok _].
  pose proof (sd_expression _ (parsing_sound (3 * length ts + 3)) 0 _ Hok) as Ho.
  destruct (expression _ 0 _) as [[root p]|[err|]] eqn:He; cbn [rbind]; [|done|cbn in Ho; unfold left_tokens in Ho; cbn in Ho; lia].
  destruct (negb (is_kind p tokenEnd)); [by case_match|]. unfold NewFilterExpression. by destruct (validateFilterNode (pn_node root) 1 (mkBudget 0 0)).
Qed.

(** A text that the grammar accepts to its end is rejected by the final
    validation exactly when some property name is all white space: the depth,
    node and byte budgets never reject a tree the parser has built. *)
Lemma Parse_rejects_only_blank_names (text : gostring) (ts : list token) (root : parsedNode)
    (p : parser) :
  lex text = Ok ts -> expression (3 * length ts + 3) 0 (mkParser ts 0) = Ok (root, p) ->
  is_kind p tokenEnd = true ->
  Parse text = Ok (mkExpression (pn_node root) true) <-> every_node nonblank (pn_node root).
Proof.
  intros Hlex He Hend. destruct (expression_parsed text ts root p Hlex He) as (Hc & Hd & Hn & Hb).
  destruct (lexed_tokens_ok text ts 0 Hlex) as [_ Hl].
  rewrite <- (tree_admissible text), <- validateFilterNode_admissible by (done || lia).
  unfold Parse. rewrite Hlex. cbn [lift rbind]. unfold parse_tokens. rewrite He. cbn [rbind].
  rewrite Hend. cbn [negb]. unfold NewFilterExpression. rewrite cloneFilterNode_id.
  destruct (validateFilterNode (pn_node root) 1 (mkBudget 0 0)); cbn; naive_solver.
Qed.

(** A name made only of U+1680 can be referenced according to
    CanReferenceProperty, yet no expression over it is accepted: the character is
    a name character for the scanner and white space for the filter validation. *)
Lemma blank_name_not_parsed :
  let name := EncodeRunes [0x1680] in
  CanReferenceProperty name = true
  /\ is_ok (Parse ("034"%char :: name ++ "034"%char :: B " IS NULL")) = false.
Proof. split; vm_compute; reflexivity. Qed.
