(* ===== verification/Cql2Print.v ===== *)
(** * CQL2 text from a filter tree, and back

    A printer for canonical filter trees and the round trip through the scanner
    and the parser of ogc/cql2: every canonical tree within the limits is the
    parse of its own text. *)

From S2P Require Import Prelude GoText Temporal Filter Cql2Lexer Cql2Parser.

#[local] Open Scope Z_scope.

(** ** Printing *)

(** A token without its offset. *)
Abbreviation shape := (tokenKind * gostring)%type.

Definition shape_of (t : token) : shape := (tk_kind t, tk_text t).

Definition escape_byte (c : ascii) : gostring :=
  if Ascii.eqb c "'" then ["'"%char; "'"%char] else if Ascii.eqb c "\" then ["\"%char; "\"%char] else [c].

Definition escape (v : gostring) : gostring := concat (map escape_byte v).

Definition print_shape (t : shape) : gostring :=
  match fst t with
  | tokenQuotedName => "034"%char :: snd t ++ ["034"%char]
  | tokenString => "'"%char :: escape (snd t) ++ ["'"%char]
  | tokenOpen => B "("
  | tokenClose => B ")"
  | _ => snd t
  end.

Definition print_shapes (ts : list shape) : gostring :=
  concat (map (fun t => print_shape t ++ [" "%char]) ts).

Definition operator_text (o : FilterCompareOperator) : gostring :=
  match o with
  | FilterEqual => B "="
  | FilterNotEqual => B "<>"
  | FilterLess => B "<"
  | FilterLessEqual => B "<="
  | FilterGreater => B ">"
  | FilterGreaterEqual => B ">="
  | FilterComparisonInvalid => []
  end.

Definition name (w : string) : shape := (tokenName, B w).

Definition literal_shapes (l : FilterLiteral) : list shape :=
  match fl_kind l with
  | FilterString => [(tokenString, fl_text l)]
  | FilterNumber => [(tokenNumber, fl_text l)]
  | FilterBoolean => [(tokenName, fl_text l)]
  | FilterDate => [name "DATE"; (tokenOpen, []); (tokenString, fl_text l); (tokenClose, [])]
  | FilterTimestamp => [name "TIMESTAMP"; (tokenOpen, []); (tokenString, fl_text l); (tokenClose, [])]
  | FilterScalarInvalid => []
  end.

Fixpoint node_shapes (n : FilterNode) : list shape :=
  let 'mkNode k o p l b cs := n in
  match k with
  | FilterBooleanConstant => [if b then name "TRUE" else name "FALSE"]
  | FilterCompare => (tokenQuotedName, p) :: (tokenOperator, operator_text o) :: literal_shapes l
  | FilterIsNull => [(tokenQuotedName, p); name "IS"; name "NULL"]
  | FilterIsNotNull => [(tokenQuotedName, p); name "IS"; name "NOT"; name "NULL"]
  | FilterNot => name "NOT" :: concat (map node_shapes cs)
  | FilterAnd | FilterOr =>
      let w := match k with FilterAnd => name "AND" | _ => name "OR" end in
      match map node_shapes cs with
      | [a; c] => (tokenOpen, []) :: a ++ w :: c ++ [(tokenClose, [])]
      | _ => []
      end
  | _ => []
  end.

Definition print_node (n : FilterNode) : gostring := print_shapes (node_shapes n).

(** ** Scanning what was printed *)

(** Text that a string literal can hold: none of the characters the scanner
    refuses, and the printer does not escape. *)
Definition printable_text (v : gostring) : Prop :=
  exists rs, valid_runes rs /\ v = EncodeRunes rs /\ Forall (fun r => bad_string_rune r = false) rs.

Definition keywords : list gostring :=
  map B ["TRUE"; "FALSE"; "true"; "false"; "IS"; "NOT"; "NULL"; "AND"; "OR"; "DATE"; "TIMESTAMP"].

Definition printable_shape (t : shape) : Prop :=
  match fst t with
  | tokenName => snd t ∈ keywords
  | tokenQuotedName => CanReferenceProperty (snd t) = true
  | tokenString => printable_text (snd t) /\ blen (snd t) <= maxLiteralBytes
  | tokenNumber => filterNumberPattern (snd t) <> None /\ blen (snd t) <= maxLiteralBytes
  | tokenOperator => snd t ∈ [B "="; B "<"; B ">"; B "<="; B ">="; B "<>"]
  | tokenOpen | tokenClose => snd t = []
  | tokenEnd | tokenUnsupported => False
  end.

(** The token read from the head of the input, the rest following a space. *)
Definition scans (t : shape) : Prop :=
  forall rest i, exists r w,
    DecodeRune (print_shape t ++ " "%char :: rest) = (r, w) /\ space r = false
    /\ lex_item (print_shape t ++ " "%char :: rest) i r w
       = Ok (mkToken (fst t) (snd t) i, length (print_shape t)).

(** *** String literals *)

Lemma escape_app (u v : gostring) : escape (u ++ v) = escape u ++ escape v.
Proof. unfold escape. by rewrite map_app, concat_app. Qed.

Lemma escape_high (u : gostring) : Forall (fun c => 128 <= code c) u -> escape u = u.
Proof.
  induction 1 as [|c u Hc _ IH]; [done|]. change (escape (c :: u)) with (escape_byte c ++ escape u).
  rewrite IH. unfold escape_byte.
  destruct (Ascii.eqb_spec c "'") as [->|]; [by vm_compute in Hc|].
  destruct (Ascii.eqb_spec c "\") as [->|]; [by vm_compute in Hc|]. done.
Qed.

(** A rune beyond ASCII has no byte that is escaped. *)
Lemma EncodeRune_high (r : Z) :
  valid_rune r = true -> 128 <= r -> Forall (fun c => 128 <= code c) (EncodeRune r).
Proof.
  intros Hv Hr. pose proof (proj1 (valid_rune_iff r) Hv) as [Hb _]. unfold EncodeRune. rewrite Hv.
  pose proof (Z.mod_pos_bound r 64 ltac:(lia)). pose proof (Z.mod_pos_bound (r / 64) 64 ltac:(lia)).
  pose proof (Z.mod_pos_bound (r / 4096) 64 ltac:(lia)).
  pose proof (Z.div_pos r 64 ltac:(lia) ltac:(lia)). pose proof (Z.div_pos r 4096 ltac:(lia) ltac:(lia)).
  pose proof (Z.div_pos r 262144 ltac:(lia) ltac:(lia)).
  destruct (Z.ltb_spec r 128); [lia|].
  destruct (Z.ltb_spec r 0x800).
  { assert (r / 64 < 32) by (apply Z.div_lt_upper_bound; lia).
    repeat constructor; rewrite code_byte_of; lia. }
  destruct (Z.ltb_spec r 0x10000).
  { assert (r / 4096 < 16) by (apply Z.div_lt_upper_bound; lia).
    repeat constructor; rewrite code_byte_of; lia. }
  assert (r / 262144 < 8) by (apply Z.div_lt_upper_bound; lia).
  repeat constructor; rewrite code_byte_of; lia.
Qed.

(** One rune of a literal is read back from its escaped form. *)
Lemma quoted_step_rune (start i : Z) (r : Z) (s value : gostring) :
  valid_rune r = true -> bad_string_rune r = false ->
  escape (EncodeRune r) ++ s <> []
  /\ quoted_step start i (escape (EncodeRune r) ++ s) value
     = Ok (false, value ++ EncodeRune r, length (escape (EncodeRune r))).
Proof.
  intros Hv Hbad. destruct (Z.lt_ge_cases r 128) as [Hr|Hr].
  - pose proof (proj1 (valid_rune_iff r) Hv) as [Hb _].
    rewrite EncodeRune_ascii by lia. unfold escape. cbn [map concat]. unfold escape_byte.
    destruct (Ascii.eqb_spec (byte_of r) "'") as [E|E1].
    { rewrite E. split; [done|]. reflexivity. }
    destruct (Ascii.eqb_spec (byte_of r) "\") as [E|E2].
    { rewrite E. split; [done|]. reflexivity. }
    cbn [app]. split; [done|]. unfold quoted_step.
    rewrite DecodeRune_ascii by (rewrite code_byte_of by lia; lia). rewrite code_byte_of by lia.
    destruct (Z.eqb_spec r 39) as [->|_]; [done|]. destruct (Z.eqb_spec r 92) as [->|_]; [done|].
    rewrite Hbad, EncodeRune_ascii by lia. done.
  - rewrite escape_high by by apply EncodeRune_high.
    pose proof (EncodeRune_nonempty r). split; [by destruct (EncodeRune r)|].
    unfold quoted_step. rewrite DecodeRune_EncodeRune by done.
    destruct (Z.eqb_spec r 39) as [->|_]; [lia|]. destruct (Z.eqb_spec r 92) as [->|_]; [lia|].
    by rewrite Hbad.
Qed.

Lemma quoted_loop_print (rs : list Z) (rest value : gostring) (fuel : nat) (start i : Z) :
  valid_runes rs -> Forall (fun r => bad_string_rune r = false) rs ->
  blen (value ++ EncodeRunes rs) <= maxLiteralBytes ->
  (length (escape (EncodeRunes rs)) < fuel)%nat ->
  quoted_loop fuel start i (escape (EncodeRunes rs) ++ "'"%char :: " "%char :: rest) value
  = Ok (value ++ EncodeRunes rs, S (length (escape (EncodeRunes rs)))).
Proof.
  intros Hv. revert fuel i value. induction Hv as [|r rs Hr Hv IH]; intros fuel i value Hbad Hl Hf.
  - destruct fuel as [|fuel]; [cbn in Hf; lia|]. cbn. by rewrite app_nil_r.
  - apply Forall_cons in Hbad as [Hb Hbad].
    rewrite EncodeRunes_cons, escape_app, <- app_assoc in *. rewrite length_app in Hf.
    destruct (quoted_step_rune start i r (escape (EncodeRunes rs) ++ "'"%char :: " "%char :: rest)
                value Hr Hb) as [Hne Hstep].
    rewrite app_assoc in Hl. rewrite blen_app in Hl. pose proof (blen_nonneg (EncodeRunes rs)).
    destruct fuel as [|fuel]; [lia|].
    destruct (escape (EncodeRune r) ++ escape (EncodeRunes rs) ++ "'"%char :: " "%char :: rest)
      as [|c s] eqn:Es; [done|]. cbn [quoted_loop]. rewrite Hstep. cbn [rbind].
    rewrite (proj2 (Z.ltb_ge _ _)) by lia. rewrite <- Es, drop_app_length, IH; [|done|rewrite blen_app; lia|].
    + cbn [rbind]. rewrite <- app_assoc, length_app. f_equal. f_equal. lia.
    + assert (1 <= length (escape (EncodeRune r)))%nat; [|lia].
      pose proof (EncodeRune_nonempty r). destruct (EncodeRune r) as [|c0 u]; [done|].
      change (escape (c0 :: u)) with (escape_byte c0 ++ escape u). rewrite length_app.
      unfold escape_byte. repeat case_match; cbn; lia.
Qed.

(** *** Numbers *)

Lemma byte_at_drop (s t : gostring) (i : nat) (c : ascii) :
  drop i s = t -> byte_at s i c = match t with d :: _ => Ascii.eqb d c | [] => false end.
Proof.
  intros <-. unfold byte_at. replace (s !! i) with (drop i s !! 0%nat)
    by (by rewrite lookup_drop, Nat.add_0_r).
  destruct (drop i s) as [|d u]; [done|]. cbn.
  destruct (Ascii.eqb_spec d c) as [->|]; [by apply bool_decide_eq_true|].
  apply bool_decide_eq_false. naive_solver.
Qed.

Lemma digit_run_stop (s : gostring) (c : ascii) (t : gostring) :
  is_digit c = false ->
  digit_run (s ++ c :: t) = (fst (digit_run s), snd (digit_run s) ++ c :: t).
Proof.
  intros Hc. induction s as [|d s IH]; cbn; [by rewrite Hc|].
  destruct (is_digit d); [|done]. rewrite IH. by destruct (digit_run s).
Qed.

Lemma drop_sign_split (s t : gostring) (c : ascii) :
  skip_sign [c] = 0%nat -> exists sg, s = sg ++ drop_sign s /\ skip_sign (s ++ c :: t) = length sg.
Proof.
  intros Hc. destruct s as [|d s]; [by exists []|]. cbn.
  destruct (Ascii.eqb d "+" || Ascii.eqb d "-"); [by exists [d]|by exists []].
Qed.

(** Skip a sign and digits: the position after them and what follows. *)
Lemma skip_number (x pre s rest : gostring) (i : nat) :
  x = pre ++ s ++ " "%char :: rest -> i = length pre ->
  let '(d, r) := digit_run s in
  (i + skip_digits (drop i x) = length (pre ++ d))%nat /\ x = (pre ++ d) ++ r ++ " "%char :: rest.
Proof.
  intros -> ->. unfold skip_digits. rewrite drop_app_length.
  rewrite digit_run_stop by done. cbn [fst].
  pose proof (digit_run_app s) as Hs. destruct (digit_run s) as [d r]. cbn [fst snd] in *.
  rewrite length_app. split; [done|]. rewrite Hs. by rewrite <- !app_assoc.
Qed.

Lemma drop_pre (pre s : gostring) (i : nat) : i = length pre -> drop i (pre ++ s) = s.
Proof. intros ->. apply drop_app_length. Qed.

(** The fraction and the exponent phase of numberEnd. *)
Lemma skip_fraction (x pre r rest : gostring) (i : nat) :
  x = pre ++ r ++ " "%char :: rest -> i = length pre ->
  exists d, (if byte_at x i "." then i + 1 + skip_digits (drop (i + 1) x) else i)%nat = length (pre ++ d)
            /\ x = (pre ++ d) ++ snd (fraction_part r) ++ " "%char :: rest
            /\ r = d ++ snd (fraction_part r).
Proof.
  intros Hx ->. rewrite (byte_at_drop x (r ++ " "%char :: rest)) by (rewrite Hx; by apply drop_pre).
  destruct r as [|c r]; cbn [app fraction_part]; [by exists []; rewrite app_nil_r|].
  destruct (Ascii.eqb_spec c ".") as [->|_]; [|by exists []; rewrite app_nil_r].
  assert (x = (pre ++ ["."%char]) ++ r ++ " "%char :: rest) as Hx' by (by rewrite Hx, <- app_assoc).
  pose proof (skip_number x (pre ++ ["."%char]) r rest (length pre + 1) Hx'
                ltac:(by rewrite length_app)) as H.
  pose proof (digit_run_app r) as Hr. destruct (digit_run r) as [d r']. cbn [fst snd] in *.
  exists ("."%char :: d). destruct H as [Hi Hx2]. rewrite <- app_assoc in Hi.
  split_and!; [exact Hi| |by rewrite Hr]. rewrite Hx2. by rewrite <- !app_assoc.
Qed.

Lemma skip_exponent (x pre r rest : gostring) (i : nat) :
  x = pre ++ r ++ " "%char :: rest -> i = length pre -> exponent_part r <> None ->
  (if byte_at x i "e" || byte_at x i "E" then
     let i := (i + 1)%nat in
     let i := (i + skip_sign (drop i x))%nat in
     (i + skip_digits (drop i x))%nat
   else i) = length (pre ++ r).
Proof.
  intros Hx -> He. rewrite !(byte_at_drop x (r ++ " "%char :: rest)) by (rewrite Hx; by apply drop_pre).
  destruct r as [|c r]; cbn [app]; [by rewrite app_nil_r|].
  cbn [exponent_part] in He. fold (is_e c). destruct (is_e c) eqn:Ec; [|done]. cbv zeta.
  assert (x = (pre ++ [c]) ++ r ++ " "%char :: rest) as Hx1 by (by rewrite Hx, <- app_assoc).
  destruct (drop_sign_split r rest " " ltac:(done)) as (sg & Hr & Hsg).
  replace (drop (length pre + 1) x) with (r ++ " "%char :: rest)
    by (rewrite Hx1; symmetry; apply drop_pre; by rewrite length_app).
  rewrite Hsg.
  assert (x = (pre ++ c :: sg) ++ drop_sign r ++ " "%char :: rest) as Hx2.
  { rewrite Hx, Hr at 1. rewrite <- app_assoc. cbn [app]. by rewrite <- !app_assoc. }
  pose proof (skip_number x (pre ++ c :: sg) (drop_sign r) rest (length pre + 1 + length sg) Hx2
                ltac:(rewrite length_app; cbn; lia)) as H.
  pose proof (digit_run_app (drop_sign r)) as Hd.
  destruct (digit_run (drop_sign r)) as [d r']. cbn [fst snd] in Hd. destruct H as [-> _].
  destruct (negb (beq d []) && beq r' []) eqn:E; [|done].
  apply andb_true_iff in E as [_ E%beq_true]. subst r'. rewrite app_nil_r in Hd.
  rewrite Hr, Hd, <- app_assoc. done.
Qed.

Lemma numberEnd_print (s rest : gostring) :
  filterNumberPattern s <> None -> numberEnd (s ++ " "%char :: rest) = length s.
Proof.
  intros Hp. unfold numberEnd. set (x := s ++ " "%char :: rest).
  destruct (drop_sign_split s rest " " ltac:(done)) as (sg & Hs & Hsg). fold x in Hsg. rewrite Hsg.
  unfold filterNumberPattern in Hp.
  assert (x = sg ++ drop_sign s ++ " "%char :: rest) as Hx
    by (unfold x; rewrite Hs at 1; by rewrite <- app_assoc).
  pose proof (skip_number x sg (drop_sign s) rest _ Hx eq_refl) as H1.
  pose proof (digit_run_app (drop_sign s)) as A1.
  destruct (digit_run (drop_sign s)) as [int r1]. destruct H1 as [-> Hx1]. cbn [fst snd] in A1.
  destruct (skip_fraction x (sg ++ int) r1 rest _ Hx1 eq_refl) as (d & -> & Hx2 & Hr1).
  destruct (fraction_part r1) as [frac r2]. cbn [snd] in *.
  destruct (beq int [] && beq frac []); [done|].
  pose proof (skip_exponent x ((sg ++ int) ++ d) r2 rest _ Hx2 eq_refl) as H3. cbv zeta in H3.
  rewrite H3 by (by destruct (exponent_part r2)).
  f_equal. rewrite Hs, A1, Hr1. by rewrite <- !app_assoc.
Qed.

(** *** Every printed token scans *)

Lemma scans_name (r : Z) (ps : list Z) :
  valid_runes (r :: ps) -> name_runes (r :: ps) -> space r = false ->
  blen (EncodeRunes (r :: ps)) <= maxPropertyBytes ->
  scans (tokenName, EncodeRunes (r :: ps)).
Proof.
  intros Hv [Hs Hp] Hsp Hlen rest i. apply Forall_cons in Hv as [Hr Hv].
  exists r, (length (EncodeRune r)). unfold print_shape. cbn [fst snd].
  rewrite EncodeRunes_cons, <- app_assoc. rewrite DecodeRune_EncodeRune by done.
  split_and!; [done|done|]. unfold lex_item.
  destruct (Z.eqb_spec r 39) as [->|_]; [done|]. destruct (Z.eqb_spec r 34) as [->|_]; [done|].
  rewrite Hs, drop_app_length, name_run_app; [|done|done|by vm_compute|rewrite !length_app; lia].
  rewrite EncodeRunes_cons, blen_app in Hlen. unfold blen in Hlen.
  rewrite (proj2 (Z.ltb_ge _ _)) by lia.
  rewrite (app_assoc (EncodeRune r)), <- length_app, take_app_length. done.
Qed.

Definition keyword_ok (w : gostring) : bool :=
  match map code w with
  | r :: ps =>
      forallb valid_rune (r :: ps) && beq (EncodeRunes (r :: ps)) w && nameStart r
      && forallb namePart ps && negb (space r) && (blen w <=? maxPropertyBytes)
  | [] => false
  end.

Lemma scans_keyword (w : gostring) : w ∈ keywords -> scans (tokenName, w).
Proof.
  intros Hw. assert (keyword_ok w = true) as Hok.
  { revert w Hw. apply Forall_forall, forallb_Forall_true. vm_compute. reflexivity. }
  unfold keyword_ok in Hok. destruct (map code w) as [|r ps]; [done|].
  rewrite !andb_true_iff, negb_true_iff, Z.leb_le, beq_true in Hok.
  destruct Hok as [[[[[Hv <-] Hs] Hp] Hsp] Hl].
  apply scans_name; [by apply forallb_Forall_true|split; [done|by apply forallb_Forall_true]|done|done].
Qed.

Lemma scans_quoted_name (w : gostring) : CanReferenceProperty w = true -> scans (tokenQuotedName, w).
Proof.
  intros (rs & Hv & -> & Hn & Hl)%CanReferenceProperty_runes rest i. exists 34, 1%nat.
  unfold print_shape. cbn [fst snd app]. split_and!; [done|done|]. unfold lex_item.
  change (34 =? 39) with false. change (34 =? 34) with true. cbv iota.
  cbn [drop]. rewrite drop_0, <- app_assoc. cbn [app].
  rewrite (quotedName_loop_app rs (" "%char :: rest)); [|done|by right|done|].
  2: { cbn [length]. rewrite !length_app. cbn [length]. lia. }
  cbn [rbind Nat.add]. assert (length (EncodeRunes rs) <> 0)%nat as Hne.
  { destruct rs as [|r rs]; [done|]. rewrite EncodeRunes_cons, length_app.
    pose proof (EncodeRune_nonempty r). destruct (EncodeRune r); [done|cbn; lia]. }
  rewrite (proj2 (Nat.eqb_neq _ _) Hne). unfold slice. cbn [drop].
  rewrite drop_0, Nat.sub_succ, Nat.sub_0_r, take_app_length. cbn [length]. rewrite length_app.
  do 2 f_equal.
Qed.

Lemma scans_string (v : gostring) :
  printable_text v -> blen v <= maxLiteralBytes -> scans (tokenString, v).
Proof.
  intros (rs & Hv & -> & Hb) Hl rest i. exists 39, 1%nat.
  unfold print_shape. cbn [fst snd app]. split_and!; [done|done|]. unfold lex_item.
  change (39 =? 39) with true. cbv iota. unfold quotedString. cbn [drop].
  rewrite drop_0, <- app_assoc. cbn [app].
  rewrite quoted_loop_print; [|done|done|done|].
  - cbn [rbind app length Nat.add]. rewrite length_app. cbn [length]. do 2 f_equal. lia.
  - cbn [length]. rewrite !length_app. cbn [length]. lia.
Qed.

(** The first byte of a number, and the byte after a leading minus. *)
Lemma number_head (s : gostring) :
  filterNumberPattern s <> None ->
  exists c s', s = c :: s' /\ (is_digit c || Ascii.eqb c "." || Ascii.eqb c "+" || Ascii.eqb c "-") = true
    /\ (forall rest, byte_at (c :: s' ++ " "%char :: rest) 1 "-" = false).
Proof.
  intros Hp. unfold filterNumberPattern in Hp.
  assert (forall c t, drop_sign s = c :: t -> is_digit c || Ascii.eqb c "." = true) as Hd.
  { intros c t Ht. rewrite Ht in Hp. cbn [digit_run] in Hp.
    destruct (is_digit c) eqn:Ed; [done|]. cbn [fraction_part] in Hp.
    destruct (Ascii.eqb c ".") eqn:Ep; [done|]. by cbn in Hp. }
  destruct s as [|c s]; [done|]. exists c, s. split; [done|]. cbn [drop_sign] in Hd, Hp.
  destruct (Ascii.eqb c "+" || Ascii.eqb c "-") eqn:Es.
  - split; [by rewrite <- orb_assoc, Es, orb_true_r|]. intros rest.
    rewrite (byte_at_drop _ (s ++ " "%char :: rest)) by done.
    destruct s as [|d s]; [done|]. cbn [app].
    destruct (Ascii.eqb_spec d "-") as [->|]; [|done]. by specialize (Hd _ _ eq_refl).
  - split; [by rewrite (Hd _ _ eq_refl)|]. intros rest.
    rewrite (byte_at_drop _ (s ++ " "%char :: rest)) by done.
    destruct s as [|d s]; [done|]. cbn [app]. destruct (Ascii.eqb_spec d "-") as [->|]; [|done].
    exfalso. apply Hp. cbn [digit_run]. specialize (Hd _ _ eq_refl).
    destruct (is_digit c) eqn:Ed; cbn; [done|]. cbn [orb] in Hd. by rewrite Hd.
Qed.

Lemma scans_number (s : gostring) :
  filterNumberPattern s <> None -> blen s <= maxLiteralBytes -> scans (tokenNumber, s).
Proof.
  intros Hp Hl rest i. destruct (number_head s Hp) as (c & s' & -> & Hc & Hnext).
  assert (code c = 45 \/ code c = 43 \/ code c = 46 \/ 48 <= code c <= 57) as Hcode.
  { rewrite !orb_true_iff, !Ascii.eqb_eq in Hc. unfold is_digit in Hc. rewrite in_range_iff in Hc.
    destruct Hc as [[[?| ->]| ->]| ->]; [auto|by right; right; left|by right; left|by left]. }
  exists (code c), 1%nat. unfold print_shape. cbn [fst snd app].
  rewrite DecodeRune_ascii by lia. split_and!; [done| |].
  - unfold space, between. rewrite bool_decide_false; [cbn [orb]; decide_ltb; done|].
    rewrite !elem_of_cons, elem_of_nil. lia.
  - unfold lex_item. rewrite (proj2 (Z.eqb_neq (code c) 39)), (proj2 (Z.eqb_neq (code c) 34)) by lia.
    assert (nameStart (code c) = false) as ->.
    { unfold nameStart, between. rewrite (proj2 (Z.eqb_neq (code c) 58)), (proj2 (Z.eqb_neq (code c) 95)) by lia.
      decide_ltb. by destruct (65 <=? code c), (97 <=? code c). }
    assert (between 48 57 (code c) || (code c =? 46) || (code c =? 43) || (code c =? 45) = true) as ->.
    { unfold between. bool_props. lia. }
    rewrite Hnext, andb_false_r.
    change (c :: s' ++ " "%char :: rest) with ((c :: s') ++ " "%char :: rest).
    rewrite numberEnd_print, take_app_length by done. by rewrite (proj2 (Z.ltb_ge _ _)).
Qed.

Lemma scans_printable (t : shape) : printable_shape t -> scans t.
Proof.
  destruct t as [k text]. unfold printable_shape. cbn [fst snd]. destruct k; try done.
  - apply scans_keyword.
  - apply scans_quoted_name.
  - intros [? ?]. by apply scans_string.
  - intros [? ?]. by apply scans_number.
  - intros Hop rest i. rewrite !elem_of_cons, elem_of_nil in Hop.
    destruct Hop as [->|[->|[->|[->|[->|[->|[]]]]]]]; do 2 eexists; split_and!; try reflexivity.
  - intros -> rest i. do 2 eexists. split_and!; reflexivity.
  - intros -> rest i. do 2 eexists. split_and!; reflexivity.
Qed.

(** *** The text is valid, and its tokens are read back *)

Lemma ValidString_ascii_all (s : gostring) :
  Forall (fun c => code c < 128) s -> ValidString s = true.
Proof. induction 1 as [|c s Hc _ IH]; [done|]. by rewrite ValidString_ascii. Qed.

Lemma ValidString_app_true (s t : gostring) :
  ValidString s = true -> ValidString t = true -> ValidString (s ++ t) = true.
Proof. intros Hs Ht. by rewrite ValidString_app. Qed.

Lemma ValidString_escape (rs : list Z) : valid_runes rs -> ValidString (escape (EncodeRunes rs)) = true.
Proof.
  induction 1 as [|r rs Hr _ IH]; [done|]. rewrite EncodeRunes_cons, escape_app.
  apply ValidString_app_true; [|done]. destruct (Z.lt_ge_cases r 128) as [Hr'|Hr'].
  - pose proof (proj1 (valid_rune_iff r) Hr) as [Hb _]. rewrite EncodeRune_ascii by lia.
    apply ValidString_ascii_all. unfold escape. cbn [map concat]. unfold escape_byte.
    destruct (Ascii.eqb _ _); [by repeat constructor|].
    destruct (Ascii.eqb _ _); [by repeat constructor|].
    repeat constructor. rewrite code_byte_of; lia.
  - rewrite escape_high by by apply EncodeRune_high.
    rewrite <- (app_nil_r (EncodeRune r)). by rewrite ValidString_EncodeRune.
Qed.

Lemma ValidString_shape (t : shape) : printable_shape t -> ValidString (print_shape t) = true.
Proof.
  destruct t as [k text]. unfold printable_shape, print_shape. cbn [fst snd]. destruct k; try done.
  - revert text. apply Forall_forall, forallb_Forall_true. vm_compute. reflexivity.
  - intros (rs & Hv & -> & _)%CanReferenceProperty_runes. rewrite ValidString_ascii by done.
    apply ValidString_app_true; [apply ValidString_runes; eauto|done].
  - intros [(rs & Hv & -> & _) _]. rewrite ValidString_ascii by done.
    apply ValidString_app_true; [by apply ValidString_escape|done].
  - intros [Hp _]. apply ValidString_ascii_all.
    pose proof (numberEnd_prefix (text ++ [" "%char])) as [_ H].
    by rewrite numberEnd_print, take_app_length in H.
  - revert text. apply Forall_forall, forallb_Forall_true. vm_compute. reflexivity.
Qed.

Lemma print_shapes_cons (t : shape) (ts : list shape) :
  print_shapes (t :: ts) = print_shape t ++ " "%char :: print_shapes ts.
Proof. unfold print_shapes. cbn [map concat]. by rewrite <- app_assoc. Qed.

Lemma ValidString_print (ts : list shape) :
  Forall printable_shape ts -> ValidString (print_shapes ts) = true.
Proof.
  induction 1 as [|t ts Ht _ IH]; [done|]. rewrite print_shapes_cons.
  apply ValidString_app_true; [by apply ValidString_shape|]. by rewrite ValidString_ascii.
Qed.

Lemma lex_loop_print (ts : list shape) (fuel : nat) (i n : Z) :
  Forall printable_shape ts -> n + blen ts <= maxTokens -> (length (print_shapes ts) <= fuel)%nat ->
  exists toks off, lex_loop fuel (print_shapes ts) i n = Ok (toks ++ [mkToken tokenEnd [] off])
                   /\ map shape_of toks = ts.
Proof.
  intros Hp. revert fuel i n. induction Hp as [|t ts Ht _ IH]; intros fuel i n Hn Hf.
  - exists [], i. by destruct fuel.
  - rewrite print_shapes_cons in *. rewrite length_app in Hf. cbn [length] in Hf.
    unfold blen in Hn. cbn [length] in Hn.
    destruct (scans_printable t Ht (print_shapes ts) i) as (r & w & Hd & Hsp & Hlex).
    assert (print_shape t <> []) as Hne.
    { intros E. rewrite E in *. cbn [app] in Hd. rewrite DecodeRune_ascii in Hd by done.
      injection Hd as <- _. done. }
    destruct (print_shape t ++ " "%char :: print_shapes ts) as [|c s] eqn:Es.
    { by destruct (print_shape t). }
    destruct fuel as [|fuel]; [destruct (print_shape t); cbn in *; [done|lia]|].
    cbn [lex_loop]. rewrite Hd, Hsp, (proj2 (Z.leb_gt _ _)) by lia. rewrite Hlex. cbn [rbind].
    rewrite <- Es, drop_app_length.
    destruct fuel as [|fuel]; [destruct (print_shape t); cbn in *; [done|lia]|].
    cbn [lex_loop]. rewrite DecodeRune_ascii by done. change (space (code " ")) with true. cbv iota.
    cbn [drop]. rewrite drop_0.
    destruct (IH fuel (i + Z.of_nat (length (print_shape t)) + Z.of_nat 1) (n + 1)) as (toks & off & -> & Hts).
    + unfold blen. lia.
    + destruct (print_shape t); cbn in *; [done|lia].
    + cbn [rbind]. exists (mkToken (fst t) (snd t) i :: toks), off. cbn [map app].
      split; [done|]. rewrite Hts. by destruct t.
Qed.

Lemma lex_print (ts : list shape) :
  Forall printable_shape ts -> blen ts <= maxTokens -> blen (print_shapes ts) <= maxInputBytes ->
  exists toks off, lex (print_shapes ts) = Ok (toks ++ [mkToken tokenEnd [] off])
                   /\ map shape_of toks = ts.
Proof.
  intros Hp Hn Hl. unfold lex. rewrite (proj2 (Z.ltb_ge _ _)), ValidString_print by done. cbn [negb].
  by apply lex_loop_print.
Qed.

(** ** Parsing what was printed *)

Lemma accept_name (w v : string) (o n : Z) (ts : list token) :
  accept (mkParser (mkToken tokenName (B v) o :: ts) n) w
  = if asciiEqual (B v) (B w) then Some (mkParser ts n) else None.
Proof. reflexivity. Qed.

Lemma accept_other (k : tokenKind) (x : gostring) (w : string) (o n : Z) (ts : list token) :
  k <> tokenName -> accept (mkParser (mkToken k x o :: ts) n) w = None.
Proof.
  intros Hk. unfold accept, keyword, is_kind. cbn [current p_tokens tk_kind].
  by rewrite bool_decide_false.
Qed.

Lemma advance_cons (k : tokenKind) (x : gostring) (o n : Z) (ts : list token) :
  k <> tokenEnd -> advance (mkParser (mkToken k x o :: ts) n) = mkParser ts n.
Proof. intros Hk. unfold advance. cbn [p_tokens tk_kind p_nodes]. by rewrite bool_decide_false. Qed.

Lemma is_kind_cons (k j : tokenKind) (x : gostring) (o n : Z) (ts : list token) :
  is_kind (mkParser (mkToken k x o :: ts) n) j = bool_decide (k = j).
Proof. done. Qed.

(** Take the first token of a sequence whose shapes are known. *)
Ltac next_token :=
  match goal with
  | H : map shape_of ?ts = _ :: _ |- _ =>
      let k := fresh "k" in let x := fresh "x" in let o := fresh "o" in let ts' := fresh "ts" in
      destruct ts as [|[k x o] ts']; [discriminate H|];
      cbn [map] in H; unfold shape_of in H at 1; cbn [tk_kind tk_text] in H;
      injection H; clear H; intros H ? ?; subst k x; cbn [app]
  | H : map shape_of ?ts = [] |- _ => apply map_eq_nil in H; subst ts; cbn [app]
  end.

Lemma literal_print (l : FilterLiteral) (toks rest : list token) (n : Z) :
  NewFilterLiteral (fl_kind l) (fl_text l) = Ok l -> map shape_of toks = literal_shapes l ->
  literal (mkParser (toks ++ rest) n) = Ok (l, mkParser rest n).
Proof.
  intros Hl Ht. unfold literal_shapes in Ht.
  destruct (fl_kind l) eqn:Ek.
  - unfold NewFilterLiteral in Hl. by case_match.
  - repeat next_token. unfold literal. cbn [current p_tokens tk_kind tk_text].
    rewrite Hl. cbn [lift rbind]. by rewrite advance_cons.
  - repeat next_token. unfold literal. cbn [current p_tokens tk_kind tk_text].
    rewrite Hl. cbn [lift rbind]. by rewrite advance_cons.
  - repeat next_token. unfold literal. cbn [current p_tokens tk_kind tk_text].
    assert (fl_text l = B "true" \/ fl_text l = B "false") as Hb.
    { unfold NewFilterLiteral in Hl. apply if_Err_Ok in Hl as [_ Hl]. apply if_Err_Ok in Hl as [Hl _].
      apply andb_false_iff in Hl. rewrite !negb_false_iff, !beq_true in Hl. tauto. }
    destruct Hb as [Hb|Hb]; rewrite Hb in *; unfold keyword; cbn [current p_tokens tk_text];
      rewrite !is_kind_cons, advance_cons by done;
      [change (asciiBoolean (B "true")) with (B "true")|change (asciiBoolean (B "false")) with (B "false")];
      rewrite Hl; reflexivity.
  - repeat next_token.
    transitivity (let? l' := lift (NewFilterLiteral FilterDate (fl_text l)) in
                  Ok (E := perror) (l', mkParser rest n)); [reflexivity|]. by rewrite Hl.
  - repeat next_token.
    transitivity (let? l' := lift (NewFilterLiteral FilterTimestamp (fl_text l)) in
                  Ok (E := perror) (l', mkParser rest n)); [reflexivity|]. by rewrite Hl.
Qed.

Lemma makeNode_fits (p : parser) (node : FilterNode) (depth : Z) :
  p_nodes p + 1 <= maxASTNodes -> depth <= maxASTDepth ->
  makeNode p node depth = Ok (mkParsed node depth, mkParser (p_tokens p) (p_nodes p + 1)).
Proof.
  intros H1 H2. unfold makeNode. cbn [p_nodes].
  by rewrite (proj2 (Z.ltb_ge _ _) H1), (proj2 (Z.ltb_ge _ _) H2).
Qed.

(** A leaf that starts with its property name. *)
Definition is_property_leaf (k : FilterKind) : bool :=
  match k with FilterCompare | FilterIsNull | FilterIsNotNull => true | _ => false end.

Lemma predicate_property (n : FilterNode) (toks rest : list token) (cnt : Z) :
  canonical_node n -> is_property_leaf (n_kind n) = true -> cnt + 1 <= maxASTNodes ->
  map shape_of toks = node_shapes n ->
  predicate (mkParser (toks ++ rest) cnt) = Ok (mkParsed n 1, mkParser rest (cnt + 1)).
Proof.
  destruct n as [k o p l b cs]. cbn [n_kind]. intros Hc Hk Hn Ht. destruct k; try done.
  - destruct Hc as (Hp & Ho & Hl & -> & ->). cbn [node_shapes] in Ht. do 2 next_token.
    unfold predicate. cbn [current p_tokens tk_text]. unfold keyword. rewrite !is_kind_cons, advance_cons by done.
    cbn [bool_decide decide negb andb orb]. rewrite is_kind_cons.
    transitivity (property_test (mkParser (mkToken tokenOperator (operator_text o) o1 :: ts0 ++ rest) cnt) p);
      [reflexivity|].
    unfold property_test. rewrite accept_other, is_kind_cons, advance_cons by done. cbn [current p_tokens tk_text].
    assert (compare_operator (operator_text o) = Some o) as -> by (by destruct o).
    transitivity (let? (l0, p0) := literal (mkParser (ts0 ++ rest) cnt) in
                  makeNode p0 (mkNode FilterCompare o p l0 false []) 1); [reflexivity|].
    rewrite (literal_print l) by done. cbn [rbind]. by rewrite makeNode_fits by (done || cbn; lia).
  - destruct Hc as (Hp & -> & -> & -> & ->). cbn [node_shapes] in Ht. unfold name in Ht. repeat next_token.
    transitivity (makeNode (mkParser rest cnt) (mkNode FilterIsNull FilterComparisonInvalid p zeroLiteral false []) 1);
      [reflexivity|]. by rewrite makeNode_fits.
  - destruct Hc as (Hp & -> & -> & -> & ->). cbn [node_shapes] in Ht. unfold name in Ht. repeat next_token.
    transitivity (makeNode (mkParser rest cnt) (mkNode FilterIsNotNull FilterComparisonInvalid p zeroLiteral false []) 1);
      [reflexivity|]. by rewrite makeNode_fits.
Qed.

(** What may follow a factor: neither an operator, nor a further operand. *)
Definition closes (rest : list token) : Prop :=
  match rest with
  | t :: _ => tk_kind t = tokenEnd \/ tk_kind t = tokenClose
              \/ shape_of t = name "AND" \/ shape_of t = name "OR"
  | [] => False
  end.

Lemma closes_not_operator (rest : list token) (n : Z) :
  closes rest -> is_kind (mkParser rest n) tokenOperator = false.
Proof.
  destruct rest as [|[k x o] rest]; [done|]. rewrite is_kind_cons. cbn.
  intros H. apply bool_decide_eq_false. destruct H as [->|[->|[[= -> _]|[= -> _]]]]; done.
Qed.

(** A loop ends before a token that is not its keyword. *)
Lemma accept_closed (rest : list token) (w : string) (n : Z) :
  match rest with t :: _ => tk_kind t = tokenEnd \/ tk_kind t = tokenClose | [] => False end ->
  accept (mkParser rest n) w = None.
Proof.
  destruct rest as [|[k x o] rest]; [done|]. cbn. intros H. apply accept_other. by destruct H as [->| ->].
Qed.

(** The parse of a printed tree by factor, with enough fuel. *)
Definition factor_reads (n : FilterNode) : Prop :=
  forall fuel g toks rest cnt,
    map shape_of toks = node_shapes n -> closes rest -> (3 * length toks <= fuel)%nat ->
    0 <= g -> g + node_depth n <= maxASTDepth -> cnt + node_count n <= maxASTNodes ->
    factor fuel g (mkParser (toks ++ rest) cnt)
    = Ok (mkParsed n (node_depth n), mkParser rest (cnt + node_count n)).

Lemma node_depth_pos (n : FilterNode) : 1 <= node_depth n.
Proof. destruct n as [k o p l b cs]. cbn [node_depth]. pose proof (children_nonneg cs). lia. Qed.

Lemma factor_leaf (fuel : nat) (g : Z) (p : parser) :
  g + 1 <= maxASTDepth -> accept p "NOT" = None -> is_kind p tokenOpen = false ->
  factor (S fuel) g p = predicate p.
Proof. intros Hg Ha Ho. cbn [factor]. by rewrite (proj2 (Z.leb_gt _ _)), Ha, Ho by lia. Qed.

Lemma factor_reads_leaf (n : FilterNode) :
  canonical_node n -> is_logical (n_kind n) = false -> factor_reads n.
Proof.
  intros Hc Hk fuel g toks rest cnt Ht Hrest Hf Hg Hd Hn.
  assert (n_children n = []) as Hch.
  { destruct n as [k o p l b cs]. destruct k; cbn in Hc, Hk |- *; try done; naive_solver. }
  assert (node_depth n = 1 /\ node_count n = 1) as [Hd1 Hn1].
  { destruct n as [k o p l b cs]. cbn in Hch. by subst cs. }
  rewrite Hd1, Hn1 in *. destruct n as [k o p l b cs]. cbn [n_kind n_children] in Hk, Hch.
  destruct (is_property_leaf k) eqn:Ep.
  - destruct toks as [|[k0 x0 o0] toks']; [destruct k; discriminate|].
    assert (k0 = tokenQuotedName) as -> by (destruct k; try discriminate; by injection Ht).
    destruct fuel as [|fuel]; [cbn in Hf; lia|]. cbn [app].
    rewrite factor_leaf; [|lia|by apply accept_other|done].
    by apply (predicate_property _ (mkToken tokenQuotedName x0 o0 :: toks')).
  - destruct k; try done. destruct Hc as (-> & -> & -> & ->). cbn [node_shapes] in Ht.
    pose proof (closes_not_operator rest cnt Hrest) as Hop. unfold name in Ht.
    destruct b; repeat next_token; (destruct fuel as [|fuel]; [cbn in Hf; lia|]);
      (rewrite factor_leaf by (lia || reflexivity)); unfold predicate; cbn [current p_tokens tk_text];
      unfold keyword; rewrite !is_kind_cons, advance_cons by done; rewrite Hop; cbn [current p_tokens tk_text];
      exact (makeNode_fits (mkParser rest cnt) _ 1 Hn ltac:(done)).
Qed.

Lemma map_shape_app (toks : list token) (a b : list shape) :
  map shape_of toks = a ++ b ->
  exists ta tb, toks = ta ++ tb /\ map shape_of ta = a /\ map shape_of tb = b.
Proof. intros (ta & tb & -> & <- & <-)%map_eq_app. eauto. Qed.

(** A parenthesised pair: the two operands and the keyword between them. *)
Lemma factor_reads_pair (k : FilterKind) (w : string) (a c : FilterNode) :
  k = FilterAnd /\ w = "AND"%string \/ k = FilterOr /\ w = "OR"%string ->
  factor_reads a -> factor_reads c -> factor_reads (logical_node k [a; c]).
Proof.
  intros Hk Ha Hc fuel g toks rest cnt Ht Hrest Hf Hg Hd Hn.
  pose proof (node_depth_pos a). pose proof (node_depth_pos c).
  pose proof (node_count_pos a). pose proof (node_count_pos c).
  assert (node_depth (logical_node k [a; c]) = Z.max (node_depth a) (node_depth c) + 1) as Ed
    by (cbn [logical_node node_depth foldr]; lia).
  assert (node_count (logical_node k [a; c]) = node_count a + node_count c + 1) as En
    by (cbn [logical_node node_count foldr]; lia).
  rewrite Ed, En in *.
  assert (node_shapes (logical_node k [a; c])
          = (tokenOpen, []) :: node_shapes a ++ name w :: node_shapes c ++ [(tokenClose, [])]) as Es
    by (by destruct Hk as [[-> ->]|[-> ->]]).
  rewrite Es in Ht. next_token. apply map_shape_app in Ht as (ta & t2 & -> & Hta & Ht2).
  unfold name in Ht2. next_token. apply map_shape_app in Ht2 as (tc & t3 & -> & Htc & Ht3).
  repeat next_token. cbn [length] in Hf. rewrite !length_app in Hf. cbn [length] in Hf.
  rewrite length_app in Hf. cbn [length] in Hf.
  do 5 (destruct fuel as [|fuel]; [lia|]). rewrite <- !app_assoc. cbn [app]. rewrite <- app_assoc. cbn [app].
  cbn [factor]. rewrite (proj2 (Z.leb_gt _ _)), accept_other, is_kind_cons, advance_cons by (done || lia).
  rewrite bool_decide_true by done.
  set (close := mkToken tokenClose [] o1). set (kw := mkToken tokenName (B w) o0).
  assert (closes (kw :: tc ++ close :: rest)) as Hkw by (cbn; destruct Hk as [[_ ->]|[_ ->]]; tauto).
  assert (closes (close :: rest)) as Hcl by (cbn; tauto).
  destruct Hk as [[-> ->]|[-> ->]].
  - cbn [expression term]. rewrite Ha by (done || lia). cbn [rbind and_loop].
    subst kw. rewrite accept_name. change (asciiEqual (B "AND") (B "AND")) with true. cbv iota.
    rewrite Hc by (done || lia). cbn [rbind pn_node pn_depth].
    rewrite makeNode_fits by (cbn [p_nodes]; lia). cbn [rbind and_loop p_tokens p_nodes].
    rewrite accept_closed by (cbn; tauto). cbn [rbind or_loop]. rewrite accept_closed by (cbn; tauto).
    cbn [rbind]. subst close. rewrite is_kind_cons, advance_cons by done. cbn. do 3 f_equal. lia.
  - cbn [expression term]. rewrite Ha by (done || lia). cbn [rbind and_loop].
    subst kw. rewrite accept_name. change (asciiEqual (B "OR") (B "AND")) with false. cbv iota.
    cbn [rbind or_loop]. rewrite accept_name. change (asciiEqual (B "OR") (B "OR")) with true. cbv iota.
    cbn [term]. rewrite Hc by (done || lia). cbn [rbind and_loop].
    rewrite accept_closed by (cbn; tauto). cbn [rbind pn_node pn_depth].
    rewrite makeNode_fits by (cbn [p_nodes]; lia). cbn [rbind or_loop p_tokens p_nodes].
    rewrite accept_closed by (cbn; tauto).
    cbn [rbind]. subst close. rewrite is_kind_cons, advance_cons by done. cbn. do 3 f_equal. lia.
Qed.

Lemma factor_reads_not (a : FilterNode) : factor_reads a -> factor_reads (logical_node FilterNot [a]).
Proof.
  intros Ha fuel g toks rest cnt Ht Hrest Hf Hg Hd Hn.
  pose proof (node_depth_pos a). pose proof (node_count_pos a).
  assert (node_depth (logical_node FilterNot [a]) = node_depth a + 1) as Ed
    by (cbn [logical_node node_depth foldr]; lia).
  assert (node_count (logical_node FilterNot [a]) = node_count a + 1) as En
    by (cbn [logical_node node_count foldr]; lia).
  rewrite Ed, En in *. cbn [logical_node node_shapes map concat] in Ht. rewrite app_nil_r in Ht.
  unfold name in Ht. next_token. cbn [length] in Hf. destruct fuel as [|fuel]; [lia|].
  cbn [factor]. rewrite (proj2 (Z.leb_gt _ _)) by lia. rewrite (accept_name "NOT" "NOT").
  change (asciiEqual (B "NOT") (B "NOT")) with true. cbv iota.
  rewrite Ha by (done || lia). cbn [rbind pn_node pn_depth].
  rewrite makeNode_fits by (cbn [p_nodes]; lia). cbn. do 3 f_equal. lia.
Qed.

Lemma canonical_reads (n : FilterNode) : canonical n -> factor_reads n.
Proof.
  induction n as [k o p l b cs IH] using FilterNode_ind'. cbn [every_node].
  rewrite every_node_children. intros [Hc Hcs].
  destruct (is_logical k) eqn:Ek; [|by apply factor_reads_leaf].
  assert (Forall factor_reads cs) as Hr.
  { rewrite Forall_forall in *. auto. }
  clear IH Hcs. destruct k; try done; destruct Hc as (-> & -> & -> & -> & Hlen).
  - destruct cs as [|a [|c []]]; try done. apply Forall_cons in Hr as [Ha Hr]. apply Forall_cons in Hr as [Hc _].
    eapply factor_reads_pair; eauto.
  - destruct cs as [|a [|c []]]; try done. apply Forall_cons in Hr as [Ha Hr]. apply Forall_cons in Hr as [Hc _].
    eapply factor_reads_pair; eauto.
  - destruct cs as [|a []]; try done. apply Forall_cons in Hr as [Ha _]. by apply factor_reads_not.
Qed.

(** ** The round trip *)

(** A comparison whose literal text the syntax can spell. *)
Definition printable_literal (n : FilterNode) : Prop :=
  n_kind n = FilterCompare -> printable_text (fl_text (n_literal n)).

Lemma literal_shapes_printable (l : FilterLiteral) :
  NewFilterLiteral (fl_kind l) (fl_text l) = Ok l -> printable_text (fl_text l) ->
  Forall printable_shape (literal_shapes l).
Proof.
  intros Hl Hp. unfold NewFilterLiteral in Hl. apply if_Err_Ok in Hl as [Hb Hl].
  apply orb_false_iff in Hb as [Hb%Z.ltb_ge _].
  assert (blen (fl_text l) <= maxLiteralBytes) as Hb' by exact Hb.
  unfold literal_shapes. destruct (fl_kind l).
  - done.
  - by repeat constructor.
  - apply if_Err_Ok in Hl as [Hn _]. apply bool_decide_eq_false in Hn. by repeat constructor.
  - apply if_Err_Ok in Hl as [Hl _]. apply andb_false_iff in Hl.
    rewrite !negb_false_iff, !beq_true in Hl. constructor; [|done]. cbn.
    destruct Hl as [->| ->]; by_decide.
  - repeat (constructor; [first [by_decide|done]|]). done.
  - repeat (constructor; [first [by_decide|done]|]). done.
Qed.

Lemma node_shapes_printable (n : FilterNode) :
  canonical n -> every_node printable_literal n -> Forall printable_shape (node_shapes n).
Proof.
  induction n as [k o p l b cs IH] using FilterNode_ind'. cbn [every_node].
  rewrite !every_node_children. intros [Hc Hcs] [Hl Hls].
  assert (Forall (fun c => Forall printable_shape (node_shapes c)) cs) as Hch.
  { rewrite Forall_forall in *. auto. }
  clear IH Hcs Hls. cbn [node_shapes]. destruct k; try done.
  - destruct b; (constructor; [by_decide|done]).
  - destruct Hc as (Hp & Ho & Hlit & _). constructor; [done|]. constructor.
    + cbn. destruct o; [done|..]; by_decide.
    + apply literal_shapes_printable; [done|by apply Hl].
  - destruct Hc as (Hp & _). repeat (constructor; [first [by_decide|done]|]). done.
  - destruct Hc as (Hp & _). repeat (constructor; [first [by_decide|done]|]). done.
  - destruct Hc as (_ & _ & _ & _ & Hlen). destruct cs as [|a [|c []]]; try done. cbn [map].
    apply Forall_cons in Hch as [Ha Hch]. apply Forall_cons in Hch as [Hc _].
    constructor; [done|]. apply Forall_app. split; [done|]. constructor; [by_decide|].
    apply Forall_app. split; [done|]. by repeat constructor.
  - destruct Hc as (_ & _ & _ & _ & Hlen). destruct cs as [|a [|c []]]; try done. cbn [map].
    apply Forall_cons in Hch as [Ha Hch]. apply Forall_cons in Hch as [Hc _].
    constructor; [done|]. apply Forall_app. split; [done|]. constructor; [by_decide|].
    apply Forall_app. split; [done|]. by repeat constructor.
  - constructor; [by_decide|]. clear -Hch. induction Hch as [|c cs H _ IHc]; [constructor|]. cbn.
    by apply Forall_app.
Qed.

(** C33. Every canonical tree within the limits, whose literals the syntax can
    spell, is the parse of its printed text: scanning and parsing lose nothing,
    and the printed form nests exactly as deep as the parser allows. *)
Theorem Parse_print (n : FilterNode) :
  canonical n -> admissible n -> every_node printable_literal n ->
  blen (node_shapes n) <= maxTokens -> blen (print_node n) <= maxInputBytes ->
  Parse (print_node n) = Ok (mkExpression n true).
Proof.
  intros Hc Hadm Hpl Ht Hb. pose proof (node_shapes_printable n Hc Hpl) as Hp.
  destruct (lex_print (node_shapes n) Hp Ht Hb) as (toks & off & Hlex & Hsh).
  unfold Parse, print_node. rewrite Hlex. cbn [lift rbind]. unfold parse_tokens.
  rewrite length_app. cbn [length].
  replace (3 * (length toks + 1) + 3)%nat with (S (S (S (3 * length toks + 3)))) by lia.
  destruct Hadm as [Hok Hd Hn Hby] eqn:Eadm. clear Eadm.
  assert (closes [mkToken tokenEnd [] off]) as Hcl by (by left).
  cbn [expression term]. rewrite (canonical_reads n Hc) by (done || lia). cbn [rbind and_loop].
  rewrite accept_closed by (by left). cbn [rbind or_loop]. rewrite accept_closed by (by left).
  cbn [rbind pn_node]. rewrite is_kind_cons. cbn [bool_decide decide negb].
  destruct (proj2 (validateFilterNode_admissible n) Hadm) as [bud Hv].
  unfold NewFilterExpression. rewrite Hv. cbn. by rewrite cloneFilterNode_id.
Qed.

Lemma Parse_print_witness :
  exists n, node_count n = 3 /\ Parse (print_node n) = Ok (mkExpression n true).
Proof.
  pose (l := mkLiteral FilterString (B "it's") zeroTime zeroInstant).
  pose (a := mkNode FilterCompare FilterLessEqual (B "a") l false []).
  pose (c := mkNode FilterIsNotNull FilterComparisonInvalid (B "b.c") zeroLiteral false []).
  exists (logical_node FilterOr [a; c]). split; [reflexivity|].
  apply Parse_print.
  - by vm_compute.
  - apply validateFilterNode_admissible. eexists. vm_compute. reflexivity.
  - split; [done|]. split; [|by split; [split|]]. split; [|done]. intros _. cbn.
    exists (map code (B "it's")). split; [|split; [reflexivity|]]; by repeat constructor.
  - by vm_compute.
  - by vm_compute.
Defined.
