(* ===== verification/JsonPatch.v ===== *)
(** * server/jsonpatch.go: RFC 6902 JSON Patch

    Documents are JSON values with numbers kept as their text (json.Number).
    The code works on a private deep copy and inserts deep copies only, so no
    two places of a document share storage and the in-place updates are modelled
    by functions that return the new document. *)

From Stdlib Require Import QArith.
From S2P Require Import Prelude GoText Temporal Filter.

#[local] Open Scope Z_scope.

#[warnings="-register-all"]
Inductive json :=
| JNull
| JBool (b : bool)
| JNum (text : gostring)
| JStr (s : gostring)
| JArr (l : list json)
| JObj (m : gmap gostring json).

(** The errors, with the wrapping of [fmt.Errorf("...: %w")]. *)
Inductive patch_error :=
| EPointerStart | EPointerEscape
| EPathMissing (key : gostring) | EIndex (key : gostring) | ENonContainer
| ERemoveRoot | ERootNotObject | EAddRoot | EReplaceRoot | EMoveArgs | ECopyArgs
| ETestFailed | EUnsupported (op : gostring)
| ERequires (member : gostring) | EType (member : gostring)
| EFrom (e : patch_error) | EMoveSource (e : patch_error) | EMoveTarget (e : patch_error)
| EReplace (e : patch_error) | ETest (e : patch_error)
| EOp (op path : gostring) (e : patch_error).

Abbreviation presult := (result patch_error).

Definition wrap {A : Type} (f : patch_error -> patch_error) (r : presult A) : presult A :=
  match r with Ok a => Ok a | Err e => Err (f e) end.

Record JSONPatchOp := mkOp {
  op_op : gostring; op_path : gostring; op_from : gostring; op_value : json
}.

(** ** Decoding an operation *)

Definition asciiLower (s : gostring) : gostring :=
  map (fun b => if is_upper b then byte_of (code b + 32) else b) s.

(** The member that [members[name]] finds: the last of that name. *)
Definition member (members : list (gostring * json)) (name : gostring) : option json :=
  foldl (fun found kv => if beq (fst kv) name then Some (snd kv) else found) None members.

(** The struct decoder sets a string field from every key that names it up to
    ASCII case, in document order; null leaves it as it is. *)
Definition string_field (members : list (gostring * json)) (name : gostring) : presult gostring :=
  foldl (fun r kv =>
    match r with
    | Err e => Err e
    | Ok s => if beq (asciiLower (fst kv)) name then
                match snd kv with
                | JStr t => Ok t
                | JNull => Ok s
                | _ => Err (EType name)
                end
              else Ok s
    end) (Ok []) members.

Definition value_field (members : list (gostring * json)) : json :=
  foldl (fun v kv => if beq (asciiLower (fst kv)) (B "value") then snd kv else v) JNull members.

Definition absent_or_null (v : option json) : bool :=
  match v with None | Some JNull => true | _ => false end.

(** UnmarshalJSON on the members of the object in document order. *)
Definition UnmarshalJSON (members : list (gostring * json)) : presult JSONPatchOp :=
  if absent_or_null (member members (B "op")) then Err (ERequires (B "op"))
  else if absent_or_null (member members (B "path")) then Err (ERequires (B "path"))
  else
    let? op := string_field members (B "op") in
    let? path := string_field members (B "path") in
    let? from := string_field members (B "from") in
    let decoded := mkOp op path from (value_field members) in
    if beq op (B "add") || beq op (B "replace") || beq op (B "test") then
      match member members (B "value") with
      | None => Err (ERequires (B "value"))
      | Some _ => Ok decoded
      end
    else if beq op (B "copy") || beq op (B "move") then
      if absent_or_null (member members (B "from")) then Err (ERequires (B "from"))
      else Ok decoded
    else if beq op (B "remove") then Ok decoded
    else Err (EUnsupported op).

(** ** Pointers *)

Definition patchArrayIndex (value : gostring) : option Z :=
  match value with
  | [] => None
  | c :: rest =>
      if negb (beq rest []) && Ascii.eqb c "0" then None
      else if negb (forallb is_digit value) then None
      else Atoi value
  end.

Fixpoint escapes_ok (p : gostring) : bool :=
  match p with
  | [] => true
  | c :: p' =>
      if Ascii.eqb c "~" then
        match p' with
        | d :: p'' => (Ascii.eqb d "0" || Ascii.eqb d "1") && escapes_ok p''
        | [] => false
        end
      else escapes_ok p'
  end.

Definition unescape (p : gostring) : gostring :=
  ReplaceAll2 "~" "0" (B "~") (ReplaceAll2 "~" "1" (B "/") p).

Definition parseJSONPointer (ptr : gostring) : presult (list gostring) :=
  match ptr with
  | [] => Ok []
  | c :: rest =>
      if negb (Ascii.eqb c "/") then Err EPointerStart
      else
        let parts := SplitByte "/" rest in
        if forallb escapes_ok parts then Ok (map unescape parts) else Err EPointerEscape
  end.

(** ** Navigation and update *)

Fixpoint deepCopyValue (v : json) : json :=
  match v with
  | JObj m => JObj (fmap deepCopyValue m)
  | JArr l => JArr (map deepCopyValue l)
  | _ => v
  end.

(** An index of the array [n] within [0 <= idx < limit]. *)
Definition array_index (key : gostring) (limit : Z) : presult nat :=
  match patchArrayIndex key with
  | Some idx => if (0 <=? idx) && (idx <? limit) then Ok (Z.to_nat idx) else Err (EIndex key)
  | None => Err (EIndex key)
  end.

(** The element of an array at an index that array_index returned. *)
Definition element (l : list json) (i : nat) : json := default JNull (l !! i).

Fixpoint getAtPath (node : json) (parts : list gostring) : presult json :=
  match parts with
  | [] => Ok node
  | p :: rest =>
      match node with
      | JObj m =>
          match m !! p with
          | Some v => getAtPath v rest
          | None => Err (EPathMissing p)
          end
      | JArr l => let? idx := array_index p (blen l) in getAtPath (element l idx) rest
      | _ => Err ENonContainer
      end
  end.

Fixpoint setAtPath (node : json) (parts : list gostring) (value : json) : presult json :=
  match parts with
  | [] => Ok (deepCopyValue value)
  | key :: rest =>
      match node with
      | JObj m =>
          match rest with
          | [] => Ok (JObj (<[key := deepCopyValue value]> m))
          | _ =>
              match m !! key with
              | None => Err (EPathMissing key)
              | Some child =>
                  let? updated := setAtPath child rest value in Ok (JObj (<[key := updated]> m))
              end
          end
      | JArr l =>
          let? idx := array_index key (blen l) in
          match rest with
          | [] => Ok (JArr (<[idx := deepCopyValue value]> l))
          | _ =>
              let? updated := setAtPath (element l idx) rest value in Ok (JArr (<[idx := updated]> l))
          end
      | _ => Err ENonContainer
      end
  end.

Fixpoint addAtPath (node : json) (parts : list gostring) (value : json) : presult json :=
  match parts with
  | [] => Ok (deepCopyValue value)
  | key :: rest =>
      match node with
      | JObj m =>
          match rest with
          | [] => Ok (JObj (<[key := deepCopyValue value]> m))
          | _ =>
              match m !! key with
              | None => Err (EPathMissing key)
              | Some child =>
                  let? updated := addAtPath child rest value in Ok (JObj (<[key := updated]> m))
              end
          end
      | JArr l =>
          match rest with
          | [] =>
              if beq key (B "-") then Ok (JArr (l ++ [deepCopyValue value]))
              else
                let? idx := array_index key (blen l + 1) in
                Ok (JArr (take idx l ++ deepCopyValue value :: drop idx l))
          | _ =>
              let? idx := array_index key (blen l) in
              let? updated := addAtPath (element l idx) rest value in Ok (JArr (<[idx := updated]> l))
          end
      | _ => Err ENonContainer
      end
  end.

Fixpoint removeAtPath (node : json) (parts : list gostring) : presult json :=
  match parts with
  | [] => Err ERemoveRoot
  | key :: rest =>
      match node with
      | JObj m =>
          match m !! key with
          | None => Err (EPathMissing key)
          | Some child =>
              match rest with
              | [] => Ok (JObj (delete key m))
              | _ =>
                  let? updated := removeAtPath child rest in Ok (JObj (<[key := updated]> m))
              end
          end
      | JArr l =>
          let? idx := array_index key (blen l) in
          match rest with
          | [] => Ok (JArr (take idx l ++ drop (S idx) l))
          | _ =>
              let? updated := removeAtPath (element l idx) rest in Ok (JArr (<[idx := updated]> l))
          end
      | _ => Err ENonContainer
      end
  end.

(** ** Equality of the test operation *)

(** patchNumber: numbers over 1024 bytes or with a large exponent have none. *)
Definition patchNumber (text : gostring) : option Q :=
  if 1024 <? blen text then None
  else if match after_e text with
          | Some e => match Atoi e with
                      | Some exponent => (exponent <? -4096) || (4096 <? exponent)
                      | None => true
                      end
          | None => false
          end then None
  else Rat_SetString text.

(** [v] with the members of [m] compared in any order: the loop stops at the
    first difference, so only the conjunction matters. *)
Fixpoint patchDecodedEqual (a b : json) {struct a} : bool :=
  match a with
  | JNum x =>
      match b with
      | JNum y =>
          match patchNumber x, patchNumber y with
          | Some p, Some q => Qeq_bool p q
          | _, _ => false
          end
      | _ => false
      end
  | JObj m =>
      match b with
      | JObj n =>
          (size m =? size n)%nat
          && map_fold (fun key eqv acc => match n !! key with Some other => eqv other | None => false end && acc)
               true (fmap patchDecodedEqual m)
      | _ => false
      end
  | JArr l =>
      match b with
      | JArr k =>
          (length l =? length k)%nat
          && (fix go (l k : list json) : bool :=
                match l, k with
                | x :: l', y :: k' => patchDecodedEqual x y && go l' k'
                | _, _ => true
                end) l k
      | _ => false
      end
  | JStr s => match b with JStr t => beq s t | _ => false end
  | JBool x => match b with JBool y => Bool.eqb x y | _ => false end
  | JNull => match b with JNull => true | _ => false end
  end.

(** *** What json.Marshal followed by a decoder with UseNumber makes of a value *)

(** encoding/json's isValidNumber: an optional minus, an integer without leading
    zeros, an optional fraction and an optional exponent. *)
Definition isValidNumber (s : gostring) : bool :=
  let s1 := match s with c :: r => if Ascii.eqb c "-" then r else s | [] => s end in
  let '(int, r1) := digit_run s1 in
  let int_ok := match int with
                | [] => false
                | c :: rest => negb (Ascii.eqb c "0") || beq rest []
                end in
  let '(frac_ok, r2) := match r1 with
                        | c :: r => if Ascii.eqb c "." then
                                      let '(f, r') := digit_run r in (negb (beq f []), r')
                                    else (true, r1)
                        | [] => (true, [])
                        end in
  int_ok && frac_ok && match exponent_part r2 with Some _ => true | None => false end.

(** Invalid UTF-8 is replaced by U+FFFD, byte by byte. *)
Definition to_valid (s : gostring) : gostring := EncodeRunes (map snd (range_string s)).

Definition key_le (a b : gostring * option json) : Prop := string_le (fst a) (fst b).

#[export] Instance key_le_dec (a b : gostring * option json) : Decision (key_le a b).
Proof. unfold key_le. apply _. Defined.

(** The members in the order of their keys; of two keys that become equal the
    later one stays. *)
Definition recode_members (m : gmap gostring (option json)) : option (gmap gostring json) :=
  foldl (fun acc kv =>
           match acc, snd kv with
           | Some n, Some v => Some (<[to_valid (fst kv) := v]> n)
           | _, _ => None
           end) (Some ∅) (merge_sort key_le (map_to_list m)).

Fixpoint recode (v : json) : option json :=
  match v with
  | JNum t => if beq t [] then Some (JNum (B "0")) else if isValidNumber t then Some v else None
  | JStr s => Some (JStr (to_valid s))
  | JArr l =>
      (fix go (l : list json) (acc : list json) : option json :=
         match l with
         | [] => Some (JArr (rev acc))
         | x :: l' => match recode x with Some y => go l' (y :: acc) | None => None end
         end) l []
  | JObj m => JObj <$> recode_members (fmap recode m)
  | _ => Some v
  end.

Definition patchValuesEqual (a b : json) : bool :=
  match recode a with
  | None => false
  | Some a' => match recode b with None => false | Some b' => patchDecodedEqual a' b' end
  end.

(** ** The operations on a document *)

Abbreviation document := (gmap gostring json).

Definition as_object (v : json) : presult document :=
  match v with JObj m => Ok m | _ => Err ERootNotObject end.

Definition deepCopyMap (m : document) : document := fmap deepCopyValue m.

Definition patchAddRoot (root : document) (path : gostring) (value : json) : presult document :=
  if beq path [] then
    match value with JObj m => Ok (deepCopyMap m) | _ => Err EAddRoot end
  else
    let? parts := parseJSONPointer path in
    let? updated := addAtPath (JObj root) parts value in
    as_object updated.

Definition patchRemoveRoot (root : document) (path : gostring) : presult document :=
  let? parts := parseJSONPointer path in
  match parts with
  | [] => Err ERemoveRoot
  | _ => let? updated := removeAtPath (JObj root) parts in as_object updated
  end.

Definition patchReplaceRoot (root : document) (path : gostring) (value : json) : presult document :=
  if beq path [] then
    match value with JObj m => Ok (deepCopyMap m) | _ => Err EReplaceRoot end
  else
    let? parts := parseJSONPointer path in
    let? _ := wrap EReplace (getAtPath (JObj root) parts) in
    let? updated := setAtPath (JObj root) parts value in
    as_object updated.

Definition patchMoveRoot (root : document) (from path : gostring) : presult document :=
  if beq from [] || beq path [] then Err EMoveArgs
  else
    let? fromParts := wrap EFrom (parseJSONPointer from) in
    let? val := wrap EFrom (getAtPath (JObj root) fromParts) in
    let val := deepCopyValue val in
    let? updated := wrap EMoveSource (removeAtPath (JObj root) fromParts) in
    let? toParts := parseJSONPointer path in
    let? updated := wrap EMoveTarget (addAtPath updated toParts val) in
    as_object updated.

Definition patchCopyRoot (root : document) (from path : gostring) : presult document :=
  if beq from [] || beq path [] then Err ECopyArgs
  else
    let? fromParts := wrap EFrom (parseJSONPointer from) in
    let? val := wrap EFrom (getAtPath (JObj root) fromParts) in
    let? toParts := parseJSONPointer path in
    let? updated := addAtPath (JObj root) toParts (deepCopyValue val) in
    as_object updated.

Definition patchTestRoot (root : document) (path : gostring) (value : json) : presult unit :=
  let? target := if beq path [] then Ok (JObj root)
                 else let? parts := parseJSONPointer path in
                      wrap ETest (getAtPath (JObj root) parts) in
  if negb (patchValuesEqual target value) then Err ETestFailed else Ok tt.

Definition apply_op (work : document) (op : JSONPatchOp) : presult document :=
  if beq (op_op op) (B "add") then patchAddRoot work (op_path op) (op_value op)
  else if beq (op_op op) (B "remove") then patchRemoveRoot work (op_path op)
  else if beq (op_op op) (B "replace") then patchReplaceRoot work (op_path op) (op_value op)
  else if beq (op_op op) (B "move") then patchMoveRoot work (op_from op) (op_path op)
  else if beq (op_op op) (B "copy") then patchCopyRoot work (op_from op) (op_path op)
  else if beq (op_op op) (B "test") then
    check? patchTestRoot work (op_path op) (op_value op) in Ok work
  else Err (EUnsupported (op_op op)).

Definition applyJSONPatch (doc : document) (ops : list JSONPatchOp) : presult document :=
  rfold (fun op work => wrap (EOp (op_op op) (op_path op)) (apply_op work op)) ops (deepCopyMap doc).

(** ** Induction over documents *)

Section Json_ind.
Context (P : json -> Prop).
Context (Hnull : P JNull) (Hbool : forall b, P (JBool b)) (Hnum : forall t, P (JNum t)).
Context (Hstr : forall s, P (JStr s)).
Context (Harr : forall l, Forall P l -> P (JArr l)).
Context (Hobj : forall m, map_Forall (fun _ v => P v) m -> P (JObj m)).

(** The number of nodes, for induction. *)
Fixpoint json_size (v : json) : nat :=
  match v with
  | JArr l => S (foldr (fun x a => json_size x + a) 0 l)%nat
  | JObj m => S (map_fold (fun _ n a => n + a)%nat 0%nat (fmap json_size m))
  | _ => 1%nat
  end.

Lemma elem_size (l : list json) (x : json) : x ∈ l -> (json_size x < json_size (JArr l))%nat.
Proof using.
  cbn. induction 1; cbn; lia.
Qed.

Lemma member_size (m : gmap gostring json) (k : gostring) (v : json) :
  m !! k = Some v -> (json_size v < json_size (JObj m))%nat.
Proof using.
  intros Hk. cbn.
  assert (fmap json_size m !! k = Some (json_size v)) as Hk' by (by rewrite lookup_fmap, Hk).
  revert Hk'. generalize (fmap json_size m). generalize (json_size v). clear. intros n m Hk.
  revert n Hk. apply (map_fold_weak_ind (fun r m => forall n, m !! k = Some n -> (n < S r)%nat)).
  - intros n Hn. by rewrite lookup_empty in Hn.
  - intros j x m' r Hj IH n Hn. apply lookup_insert_Some in Hn as [[-> ->]|[? Hn]]; [lia|].
    apply IH in Hn. lia.
Qed.

Lemma json_ind' (v : json) : P v.
Proof using Hnull Hbool Hnum Hstr Harr Hobj.
  induction v as [v IH] using (induction_ltof1 _ json_size). unfold ltof in IH.
  destruct v as [| | | |l|m]; auto.
  - apply Harr, Forall_forall. intros x Hx. apply IH. by apply elem_size.
  - apply Hobj. intros k x Hx. apply IH. by eapply member_size.
Qed.

End Json_ind.

Lemma deepCopyValue_id (v : json) : deepCopyValue v = v.
Proof.
  induction v as [| | | |l IH|m IH] using json_ind'; cbn; try done; f_equal.
  - induction IH; cbn; congruence.
  - apply map_eq. intros k. rewrite lookup_fmap. destruct (m !! k) as [x|] eqn:E; [|done]. cbn.
    by rewrite (IH k x E).
Qed.

(** ** Pointers: printing and parsing *)

Definition escape_char (c : ascii) : gostring :=
  if Ascii.eqb c "~" then B "~0" else if Ascii.eqb c "/" then B "~1" else [c].

Definition escape_part (p : gostring) : gostring := concat (map escape_char p).

Definition printPointer (parts : list gostring) : gostring :=
  concat (map (fun p => "/"%char :: escape_part p) parts).

Lemma escape_part_cons (c : ascii) (p : gostring) :
  escape_part (c :: p) = escape_char c ++ escape_part p.
Proof. done. Qed.

(** The replacements on a part, read from the left. *)
Lemma unescape_cons (c : ascii) (p : gostring) :
  c <> "~"%char -> unescape (c :: p) = c :: unescape p.
Proof.
  intros Hc. unfold unescape.
  assert (forall b new s, ReplaceAll2 "~" b new (c :: s) = c :: ReplaceAll2 "~" b new s) as H.
  { intros b new s. destruct s; [done|]. cbn [ReplaceAll2].
    by rewrite (proj2 (Ascii.eqb_neq c "~")). }
  by rewrite !H.
Qed.

Lemma unescape_tilde (p : gostring) : unescape ("~"%char :: "0"%char :: p) = "~"%char :: unescape p.
Proof.
  unfold unescape. cbn [ReplaceAll2]. change (Ascii.eqb "0" "1") with false. cbn [andb].
  change (Ascii.eqb "~" "~") with true. cbn [andb].
  destruct p as [|d p]; [done|]. change (Ascii.eqb "0" "~") with false. cbn [andb]. done.
Qed.

Lemma unescape_slash (p : gostring) : unescape ("~"%char :: "1"%char :: p) = "/"%char :: unescape p.
Proof.
  unfold unescape. cbn [ReplaceAll2]. change (Ascii.eqb "~" "~") with true.
  change (Ascii.eqb "1" "1") with true. cbn [andb]. cbn [B String.list_ascii_of_string app].
  destruct (ReplaceAll2 "~" "1" _ p); [done|]. cbn [ReplaceAll2].
  change (Ascii.eqb "/" "~") with false. done.
Qed.

Lemma escape_part_spec (p : gostring) :
  escapes_ok (escape_part p) = true /\ unescape (escape_part p) = p /\ "/"%char ∉ escape_part p.
Proof.
  induction p as [|c p (H1 & H2 & H3)]; [by split_and!; [..|apply not_elem_of_nil]|].
  rewrite escape_part_cons. unfold escape_char.
  destruct (Ascii.eqb_spec c "~") as [->|Hc]; [|destruct (Ascii.eqb_spec c "/") as [->|Hs]];
    cbn [B String.list_ascii_of_string app].
  - rewrite unescape_tilde, H2. by rewrite !not_elem_of_cons.
  - rewrite unescape_slash, H2. by rewrite !not_elem_of_cons.
  - cbn [escapes_ok]. rewrite unescape_cons, H2, (proj2 (Ascii.eqb_neq c "~")) by done.
    rewrite not_elem_of_cons. split_and!; done.
Qed.

Lemma unescape_escape (p : gostring) :
  escapes_ok p = true -> "/"%char ∉ p -> escape_part (unescape p) = p.
Proof.
  induction p as [p IH] using (induction_ltof1 _ (@length ascii)). unfold ltof in IH.
  destruct p as [|c p]; [done|]. cbn [escapes_ok]. rewrite not_elem_of_cons. intros H [Hs Hns].
  destruct (Ascii.eqb_spec c "~") as [->|Hc].
  - destruct p as [|d p]; [done|]. apply andb_true_iff in H as [Hd H].
    apply not_elem_of_cons in Hns as [_ Hns]. apply orb_true_iff in Hd. rewrite !Ascii.eqb_eq in Hd.
    destruct Hd as [->| ->].
    + rewrite unescape_tilde, escape_part_cons, IH; [done|cbn; lia|done|done].
    + rewrite unescape_slash, escape_part_cons, IH; [done|cbn; lia|done|done].
  - rewrite unescape_cons, escape_part_cons, IH; [|cbn; lia|done|done|done].
    unfold escape_char. rewrite (proj2 (Ascii.eqb_neq c "~")), (proj2 (Ascii.eqb_neq c "/")) by congruence.
    done.
Qed.

Lemma printPointer_join (p : gostring) (parts : list gostring) :
  printPointer (p :: parts) = "/"%char :: JoinByte "/" (map escape_part (p :: parts)).
Proof.
  revert p. induction parts as [|q parts IH]; intros p.
  - cbn. by rewrite app_nil_r.
  - change (printPointer (p :: q :: parts)) with ("/"%char :: escape_part p ++ printPointer (q :: parts)).
    by rewrite IH.
Qed.

Lemma pointer_print (parts : list gostring) : parseJSONPointer (printPointer parts) = Ok parts.
Proof.
  destruct parts as [|p parts]; [done|]. rewrite printPointer_join. unfold parseJSONPointer.
  change (negb (Ascii.eqb "/" "/")) with false. cbv iota.
  rewrite SplitByte_JoinByte; [|done|].
  - assert (forallb escapes_ok (map escape_part (p :: parts)) = true) as ->.
    { apply forallb_Forall_true, Forall_map, Forall_forall. intros q _. apply escape_part_spec. }
    f_equal. rewrite map_map. rewrite <- (map_id (p :: parts)) at 2. apply map_ext.
    intros q. apply escape_part_spec.
  - apply Forall_map, Forall_forall. intros q _. apply escape_part_spec.
Qed.

(** Pointers and their reference tokens determine each other: parsing a
    printed pointer gives back the tokens, and a pointer that parses is the
    printed form of what it parses to. *)
Lemma parseJSONPointer_roundtrip :
  (forall parts, parseJSONPointer (printPointer parts) = Ok parts)
  /\ (forall ptr parts, parseJSONPointer ptr = Ok parts -> printPointer parts = ptr).
Proof.
  split.
  - apply pointer_print.
  - intros [|c rest] parts; cbn [parseJSONPointer]; [by intros [= <-]|].
    destruct (Ascii.eqb_spec c "/") as [->|]; [|done]. cbn [negb].
    destruct (forallb escapes_ok (SplitByte "/" rest)) eqn:E; [|done]. intros [= <-].
    pose proof (SplitByte_no_sep "/" rest) as Hns. apply forallb_Forall_true in E.
    assert (map escape_part (map unescape (SplitByte "/" rest)) = SplitByte "/" rest) as Hmap.
    { rewrite map_map. clear -E Hns. induction E as [|p ps Hp _ IH]; [done|].
      apply Forall_cons in Hns as [Hn Hns]. cbn. by rewrite unescape_escape, IH. }
    pose proof (SplitByte_nonempty "/" rest) as Hne. revert Hmap.
    destruct (map unescape (SplitByte "/" rest)) as [|q qs] eqn:Em.
    { by apply map_eq_nil in Em. }
    intros Hmap. rewrite printPointer_join, Hmap. f_equal. apply JoinByte_SplitByte.
Qed.

(** ** Array indices are canonical decimals *)

Lemma parse_digits_snoc (s : gostring) (c : ascii) (a : Z) :
  parse_digits (s ++ [c]) a
  = match parse_digits s a with
    | Some n => if is_digit c then Some (n * 10 + (code c - 48)) else None
    | None => None
    end.
Proof.
  revert a. induction s as [|d s IH]; intros a; cbn; [done|].
  destruct (is_digit d); [apply IH|done].
Qed.

Lemma parse_digits_ge (s : gostring) (a n : Z) : 0 <= a -> parse_digits s a = Some n -> a <= n.
Proof.
  revert a. induction s as [|c s IH]; intros a Ha; cbn; [intros [= <-]; lia|].
  destruct (is_digit c) eqn:E; [|done]. apply in_range_iff in E. intros H.
  apply IH in H; lia.
Qed.

(** A digit string without a superfluous leading zero. *)
Definition canonical_digits (s : gostring) : Prop :=
  match s with
  | [] => False
  | c :: rest => (rest <> [] -> c <> "0"%char) /\ Forall (fun d => is_digit d = true) s
  end.

Lemma canonical_positive (s : gostring) (c : ascii) (n : Z) :
  s <> [] -> canonical_digits (s ++ [c]) -> parse_digits s 0 = Some n -> 0 < n.
Proof.
  destruct s as [|d s]; [done|]. intros _ [Hz Hd] H. cbn [app] in *. cbn [parse_digits] in H.
  destruct (is_digit d) eqn:E; [|done]. apply parse_digits_ge in H; [|apply in_range_iff in E; lia].
  apply in_range_iff in E. assert (code d <> 48) as Hne.
  { intros Hc. apply Hz; [by destruct s|]. by apply code_inj. }
  lia.
Qed.

Lemma canonical_prefix (s : gostring) (c : ascii) :
  s <> [] -> canonical_digits (s ++ [c]) -> canonical_digits s /\ is_digit c = true.
Proof.
  destruct s as [|d s]; [done|]. intros _ [Hz Hd]. cbn [app] in *.
  apply Forall_cons in Hd as [Hd Hs]. apply Forall_app in Hs as [Hs Hc].
  apply Forall_cons in Hc as [Hc _]. split; [|done]. split; [|by constructor].
  intros _. apply Hz. by destruct s.
Qed.

Lemma canonical_digits_inj (s t : gostring) (n : Z) :
  canonical_digits s -> canonical_digits t ->
  parse_digits s 0 = Some n -> parse_digits t 0 = Some n -> s = t.
Proof.
  revert t n. induction s as [|c s IH] using rev_ind; [done|]. intros t n Hs Ht Ps Pt.
  destruct t as [|d t _] using rev_ind; [done|].
  rewrite parse_digits_snoc in Ps, Pt.
  destruct (parse_digits s 0) as [m|] eqn:Em; [|done]. destruct (parse_digits t 0) as [k|] eqn:Ek; [|done].
  destruct (is_digit c) eqn:Ec; [|done]. destruct (is_digit d) eqn:Ed; [|done].
  injection Ps as Ps. injection Pt as Pt.
  apply in_range_iff in Ec as Ec', Ed as Ed'.
  assert (m = k /\ code c = code d) as [-> Hcd] by lia. apply code_inj in Hcd as ->.
  destruct (decide (s = [])) as [->|Hsne], (decide (t = [])) as [->|Htne].
  - done.
  - cbn in Em. injection Em as <-. pose proof (canonical_positive t d 0 Htne Ht Ek). lia.
  - cbn in Ek. injection Ek as <-. pose proof (canonical_positive s d 0 Hsne Hs Em). lia.
  - f_equal. apply canonical_prefix in Hs as [Hs _], Ht as [Ht _]; [|done|done]. by eapply IH.
Qed.

Lemma patchArrayIndex_digits (k : gostring) (n : Z) :
  patchArrayIndex k = Some n -> canonical_digits k /\ parse_digits k 0 = Some n.
Proof.
  unfold patchArrayIndex. destruct k as [|c rest]; [done|].
  destruct (negb (beq rest []) && Ascii.eqb c "0") eqn:Ez; [done|].
  destruct (forallb is_digit (c :: rest)) eqn:Ed; [|done]. cbn [negb]. intros H.
  assert (is_digit c = true) as Hc by (cbn in Ed; by apply andb_true_iff in Ed as [? _]).
  split; [split|].
  - intros Hne. apply andb_false_iff in Ez. rewrite negb_false_iff, beq_true, Ascii.eqb_neq in Ez. tauto.
  - by apply forallb_Forall_true.
  - unfold Atoi, ParseInt in H.
    assert (Ascii.eqb c "-" = false /\ Ascii.eqb c "+" = false) as [Hm Hp].
    { split; apply Ascii.eqb_neq; intros ->; done. }
    rewrite Hm, Hp in H. cbn [orb] in H.
    destruct (parse_digits (c :: rest) 0) as [m|] eqn:E; [|done].
    by destruct (m <? 2 ^ (64 - 1)); [injection H as <-|].
Qed.

Lemma array_index_inj (k k' : gostring) (a b : Z) (i : nat) :
  array_index k a = Ok i -> array_index k' b = Ok i -> k = k'.
Proof.
  unfold array_index. destruct (patchArrayIndex k) as [n|] eqn:E; [|done].
  destruct (patchArrayIndex k') as [n'|] eqn:E'; [|done].
  destruct ((0 <=? n) && _) eqn:R; [|done]. destruct ((0 <=? n') && _) eqn:R'; [|done].
  intros [= Hi] [= Hi']. bool_props. assert (n = n') as -> by lia.
  apply patchArrayIndex_digits in E as [? ?], E' as [? ?]. by eapply canonical_digits_inj.
Qed.

Lemma array_index_bound (k : gostring) (n : Z) (i : nat) :
  array_index k n = Ok i -> Z.of_nat i < n.
Proof.
  unfold array_index. destruct (patchArrayIndex k) as [z|]; [|done].
  destruct (_ && _) eqn:R; [|done]. intros [= <-]. bool_props. lia.
Qed.

(** The index does not depend on the limit it is within. *)
Lemma array_index_limit (k : gostring) (n m : Z) (i : nat) :
  array_index k n = Ok i -> Z.of_nat i < m -> array_index k m = Ok i.
Proof.
  unfold array_index. destruct (patchArrayIndex k) as [z|]; [|done].
  destruct (_ && _) eqn:R; [|done]. intros [= <-] Hm. bool_props.
  rewrite (proj2 (Z.leb_le _ _)), (proj2 (Z.ltb_lt _ _)) by lia. done.
Qed.

(** ** Reading back what was written *)

(** Two paths that separate at some reference token. *)
Fixpoint diverge (p q : list gostring) : bool :=
  match p, q with
  | a :: p', b :: q' => if bool_decide (a = b) then diverge p' q' else true
  | _, _ => false
  end.

Lemma element_insert (l : list json) (i : nat) (v : json) :
  Z.of_nat i < blen l -> element (<[i := v]> l) i = v.
Proof.
  intros H. unfold element, blen in *. rewrite list_lookup_insert_eq by lia. done.
Qed.

Lemma element_insert_ne (l : list json) (i j : nat) (v : json) :
  i <> j -> element (<[i := v]> l) j = element l j.
Proof. intros H. unfold element. by rewrite list_lookup_insert_ne. Qed.

Lemma blen_insert (l : list json) (i : nat) (v : json) : blen (<[i := v]> l) = blen l.
Proof. unfold blen. by rewrite length_insert. Qed.

(** An update that writes below one child: what it does to a reading that
    follows the same key and to one that follows another. *)
Lemma get_array_child (l : list json) (key : gostring) (i : nat) (v : json) (rest : list gostring) :
  array_index key (blen l) = Ok i ->
  getAtPath (JArr (<[i := v]> l)) (key :: rest) = getAtPath v rest.
Proof.
  intros Hi. cbn [getAtPath]. rewrite blen_insert, Hi. cbn [rbind].
  rewrite element_insert; [done|by eapply array_index_bound].
Qed.

Lemma get_array_other (l : list json) (key k : gostring) (i : nat) (v : json) (rest : list gostring) :
  array_index key (blen l) = Ok i -> key <> k ->
  getAtPath (JArr (<[i := v]> l)) (k :: rest) = getAtPath (JArr l) (k :: rest).
Proof.
  intros Hi Hk. cbn [getAtPath]. rewrite blen_insert.
  destruct (array_index k (blen l)) as [j|] eqn:Ej; [|done]. cbn [rbind].
  rewrite element_insert_ne; [done|]. intros ->. apply Hk. by eapply array_index_inj.
Qed.

Lemma get_object_other (m : gmap gostring json) (key k : gostring) (v : json) (rest : list gostring) :
  key <> k -> getAtPath (JObj (<[key := v]> m)) (k :: rest) = getAtPath (JObj m) (k :: rest).
Proof. intros Hk. cbn [getAtPath]. by rewrite lookup_insert_ne. Qed.

(** setAtPath descends to the child and writes it back. *)
Lemma setAtPath_child (node node' v : json) (key : gostring) (rest : list gostring) :
  setAtPath node (key :: rest) v = Ok node' ->
  exists child',
    (rest = [] /\ child' = v \/ exists child, getAtPath node [key] = Ok child /\ setAtPath child rest v = Ok child')
    /\ ((exists m, node = JObj m /\ node' = JObj (<[key := child']> m))
        \/ (exists l i, node = JArr l /\ array_index key (blen l) = Ok i /\ node' = JArr (<[i := child']> l))).
Proof.
  cbn [setAtPath]. rewrite deepCopyValue_id. destruct node as [| | | |l|m]; try done; intros H.
  - inv_bind H. destruct rest as [|r rest].
    + injection H as <-. exists v. eauto 10.
    + inv_bind H. injection H as <-. exists a0. split; [right|eauto 10].
      exists (element l a). cbn [getAtPath]. by rewrite E.
  - destruct rest as [|r rest]; [injection H as <-; exists v; eauto 10|].
    destruct (m !! key) as [child|] eqn:Ek; [|done]. inv_bind H. injection H as <-.
    exists a. split; [right|eauto 10]. exists child. cbn [getAtPath]. by rewrite Ek.
Qed.

Lemma setAtPath_get (parts : list gostring) (node node' v : json) :
  setAtPath node parts v = Ok node' -> getAtPath node' parts = Ok v.
Proof.
  revert node node'. induction parts as [|key rest IH]; intros node node' H.
  - cbn in *. by rewrite deepCopyValue_id in H.
  - apply setAtPath_child in H as (child' & Hc & Hn).
    assert (getAtPath child' rest = Ok v) as Hr.
    { destruct Hc as [[-> ->]|(child & _ & Hs)]; [done|by eapply IH]. }
    destruct Hn as [(m & -> & ->)|(l & i & -> & Hi & ->)].
    + cbn [getAtPath]. by rewrite lookup_insert_eq.
    + by rewrite get_array_child.
Qed.

Lemma setAtPath_frame (parts q : list gostring) (node node' v : json) :
  diverge parts q = true -> setAtPath node parts v = Ok node' ->
  getAtPath node' q = getAtPath node q.
Proof.
  revert q node node'. induction parts as [|key rest IH]; intros q node node' Hd H; [done|].
  destruct q as [|k q]; [done|]. cbn [diverge] in Hd.
  apply setAtPath_child in H as (child' & Hc & Hn). case_bool_decide as Hk.
  - subst k. destruct Hc as [[-> ->]|(child & Hg & Hs)]; [by destruct q|].
    specialize (IH q child child' Hd Hs).
    destruct Hn as [(m & -> & ->)|(l & i & -> & Hi & ->)]; cbn [getAtPath] in Hg.
    + cbn [getAtPath]. rewrite lookup_insert_eq. destruct (m !! key) as [c|]; [|done].
      by injection Hg as ->.
    + rewrite get_array_child by done. cbn [getAtPath]. rewrite Hi in Hg |- *. cbn [rbind] in *.
      by injection Hg as ->.
  - destruct Hn as [(m & -> & ->)|(l & i & -> & Hi & ->)].
    + by apply get_object_other.
    + by apply (get_array_other l key).
Qed.

(** A path that can be read can be written; an object stays one. *)
Lemma setAtPath_ok (parts : list gostring) (node v w : json) :
  getAtPath node parts = Ok w -> parts <> [] ->
  exists node', setAtPath node parts v = Ok node' /\ (is_ok (as_object node') = is_ok (as_object node)).
Proof.
  revert node. induction parts as [|key rest IH]; intros node H Hne; [done|]. cbn [setAtPath].
  assert (forall child, getAtPath child rest = Ok w -> rest <> [] ->
            exists node', setAtPath child rest v = Ok node') as IH'.
  { intros child Hc Hr. destruct (IH child Hc Hr) as (n' & ? & _). eauto. }
  destruct node as [| | | |l|m]; cbn [getAtPath] in H; try done.
  - inv_bind H. cbn [rbind]. destruct rest as [|r rest]; [eauto|].
    destruct (IH' _ H ltac:(done)) as [n' ->]. cbn [rbind]. eauto.
  - destruct (m !! key) as [c|] eqn:Ek; [|done]. destruct rest as [|r rest]; [eauto|].
    destruct (IH' _ H ltac:(done)) as [n' ->]. cbn [rbind]. eauto.
Qed.

Lemma printPointer_nonempty (parts : list gostring) : parts <> [] -> beq (printPointer parts) [] = false.
Proof. by destruct parts. Qed.



(** ** Adding and removing *)

Lemma format_loop_head (fuel : nat) (n : Z) (acc : gostring) :
  0 < n < 2 ^ Z.of_nat fuel -> exists c rest, format_loop fuel n acc = c :: rest /\ c <> "0"%char.
Proof.
  revert n acc. induction fuel as [|fuel IH]; intros n acc Hn.
  - cbn in Hn. lia.
  - rewrite Nat2Z.inj_succ, Z.pow_succ_r in Hn by lia. cbn [format_loop].
    destruct (Z.ltb_spec n 10) as [Hs|Hs].
    + exists (digit_char n), acc. split; [done|]. intros E.
      pose proof (code_digit_char n ltac:(lia)) as Hc. rewrite E in Hc. change (code "0") with 48 in Hc. lia.
    + apply IH. assert (1 <= n / 10) by (apply Z.div_le_lower_bound; lia).
      assert (n / 10 < n) by (apply Z.div_lt; lia).
      split; [lia|]. apply Z.div_lt_upper_bound; lia.
Qed.

Lemma patchArrayIndex_FormatUint (n : Z) : 0 <= n < 2 ^ 63 -> patchArrayIndex (FormatUint n) = Some n.
Proof.
  intros Hn. destruct (decide (n = 0)) as [->|Hz]; [done|].
  pose proof (parse_FormatUint n ltac:(lia)) as Hp. pose proof (FormatUint_digits n ltac:(lia)) as Hd.
  pose proof (log2_bound n ltac:(lia)) as Hl.
  destruct (format_loop_head (S (Z.to_nat (Z.log2 n))) n [] ltac:(lia)) as (c & rest & Hf & Hc).
  change (format_loop (S (Z.to_nat (Z.log2 n))) n []) with (FormatUint n) in Hf.
  rewrite Hf in *. unfold patchArrayIndex. rewrite (proj2 (Ascii.eqb_neq c "0")), andb_false_r, Hd by done.
  cbn [negb]. unfold Atoi, ParseInt.
  assert (is_digit c = true) as Hdc by (cbn in Hd; by apply andb_true_iff in Hd as [? _]).
  assert (Ascii.eqb c "-" = false /\ Ascii.eqb c "+" = false) as [-> ->].
  { split; apply Ascii.eqb_neq; intros ->; done. }
  cbn [orb]. rewrite Hp. by rewrite (proj2 (Z.ltb_lt _ _)) by lia.
Qed.

Definition child_of (node : json) (key : gostring) : json :=
  match getAtPath node [key] with Ok c => c | Err _ => JNull end.

(** The path at which an added value ends up: an append lands at the length. *)
Fixpoint landing (node : json) (parts : list gostring) : list gostring :=
  match parts with
  | [] => []
  | key :: rest =>
      match rest with
      | [] =>
          match node with
          | JArr l => if beq key (B "-") then [FormatUint (blen l)] else [key]
          | _ => [key]
          end
      | _ => key :: landing (child_of node key) rest
      end
  end.

(** An add that creates a location, rather than overwriting an object member. *)
Fixpoint inserts (node : json) (parts : list gostring) : bool :=
  match parts with
  | [] => false
  | key :: rest =>
      match rest with
      | [] => match node with JObj m => bool_decide (m !! key = None) | _ => true end
      | _ => inserts (child_of node key) rest
      end
  end.

(** Writing an updated child back where it was read. *)
Inductive child_write (key : gostring) (child child' : json) : json -> json -> Prop :=
| write_member m : m !! key = Some child ->
    child_write key child child' (JObj m) (JObj (<[key := child']> m))
| write_element l i : array_index key (blen l) = Ok i -> element l i = child ->
    child_write key child child' (JArr l) (JArr (<[i := child']> l)).

Lemma child_write_get (key : gostring) (c c' n n' : json) (rest : list gostring) :
  child_write key c c' n n' ->
  getAtPath n [key] = Ok c /\ getAtPath n' (key :: rest) = getAtPath c' rest.
Proof.
  destruct 1 as [m Hm|l i Hi He].
  - cbn [getAtPath]. by rewrite Hm, lookup_insert_eq.
  - rewrite get_array_child by done. cbn [getAtPath]. by rewrite Hi, <- He.
Qed.

Lemma addAtPath_child (node node' v : json) (key r : gostring) (rest : list gostring) :
  addAtPath node (key :: r :: rest) v = Ok node' ->
  exists c c', addAtPath c (r :: rest) v = Ok c' /\ child_write key c c' node node'.
Proof.
  remember (r :: rest) as parts eqn:Ep. cbn [addAtPath]. destruct node as [| | | |l|m]; try done;
    rewrite Ep; cbv iota; rewrite <- Ep; intros H.
  - inv_bind H. inv_bind H. injection H as <-. do 2 eexists. split; [exact E0|]. by constructor.
  - destruct (m !! key) as [c|] eqn:Ek; [|done]. inv_bind H. injection H as <-.
    do 2 eexists. split; [exact E|]. by constructor.
Qed.

Lemma removeAtPath_child (node node' c c' : json) (key r : gostring) (rest : list gostring) :
  child_write key c c' node node' -> removeAtPath c' (r :: rest) = Ok c ->
  removeAtPath node' (key :: r :: rest) = Ok node.
Proof.
  remember (r :: rest) as parts eqn:Ep. intros Hw Hr.
  destruct Hw as [m Hm|l i Hi He]; cbn [removeAtPath].
  - rewrite lookup_insert_eq. rewrite Ep. cbv iota. rewrite <- Ep, Hr. cbn [rbind].
    by rewrite insert_insert_eq, insert_id.
  - rewrite blen_insert, Hi. cbn [rbind]. rewrite Ep. cbv iota. rewrite <- Ep.
    pose proof (array_index_bound _ _ _ Hi) as Hb.
    rewrite element_insert, Hr by done. cbn [rbind]. rewrite list_insert_insert_eq.
    rewrite list_insert_id; [done|]. unfold element in He. unfold blen in Hb.
    destruct (lookup_lt_is_Some_2 l i ltac:(lia)) as [x Hx]. rewrite Hx in *. cbn in He. by subst c.
Qed.

Lemma landing_cons (node : json) (parts : list gostring) :
  parts <> [] -> exists k rest, landing node parts = k :: rest.
Proof.
  destruct parts as [|k [|r rest]]; [done|..]; intros _; cbn [landing]; [|eauto].
  destruct node; eauto. case_match; eauto.
Qed.

Lemma array_append_index (l : list json) :
  blen l < 2 ^ 63 -> array_index (FormatUint (blen l)) (blen l + 1) = Ok (length l).
Proof.
  intros H. unfold array_index. pose proof (blen_nonneg l). rewrite patchArrayIndex_FormatUint by lia.
  rewrite (proj2 (Z.leb_le _ _)), (proj2 (Z.ltb_lt _ _)) by lia. cbn [andb]. f_equal. unfold blen. lia.
Qed.

(** Inserting at an index: the element is there, and removing it gives the list back. *)
Lemma array_insert_at (l : list json) (k : gostring) (i : nat) (v : json) :
  array_index k (blen l + 1) = Ok i ->
  getAtPath (JArr (take i l ++ v :: drop i l)) [k] = Ok v
  /\ removeAtPath (JArr (take i l ++ v :: drop i l)) [k] = Ok (JArr l).
Proof.
  intros Hi. pose proof (array_index_bound _ _ _ Hi) as Hb.
  assert (blen (take i l ++ v :: drop i l) = blen l + 1) as Hl.
  { unfold blen in *. rewrite length_app, length_take. cbn [length]. rewrite length_drop. lia. }
  assert (length (take i l) = i) as Ht by (rewrite length_take; unfold blen in Hb; lia).
  cbn [getAtPath removeAtPath]. rewrite Hl, Hi. cbn [rbind]. split.
  - unfold element. by rewrite list_lookup_middle.
  - rewrite take_app_le, take_take, Nat.min_id by lia.
    replace (S i) with (length (take i l) + 1)%nat at 1 by lia.
    rewrite drop_app_add. cbn [drop]. rewrite drop_0. by rewrite take_drop.
Qed.

(** An add that succeeds leaves the value where it lands, and an add that
    created the location is undone by removing that location. *)
Lemma addAtPath_remove (parts : list gostring) (node node' v : json) :
  parts <> [] -> Z.of_nat (json_size node) < 2 ^ 63 -> addAtPath node parts v = Ok node' ->
  getAtPath node' (landing node parts) = Ok v
  /\ (inserts node parts = true -> removeAtPath node' (landing node parts) = Ok node).
Proof.
  revert node node'. induction parts as [|key [|r rest] IH]; intros node node' Hne Hsz H; [done|..].
  - cbn [addAtPath] in H. rewrite deepCopyValue_id in H. cbn [landing inserts].
    destruct node as [| | | |l|m]; try done.
    + assert (Z.of_nat (length l) < 2 ^ 63) as Hl.
      { cbn [json_size] in Hsz. enough (length l <= foldr (fun x a => json_size x + a) 0 l)%nat by lia.
        clear. induction l as [|x l IH]; cbn; [lia|]. destruct x; cbn; lia. }
      destruct (beq key (B "-")).
      * injection H as <-. pose proof (array_append_index l Hl) as Hi.
        destruct (array_insert_at l _ _ v Hi) as [H1 H2].
        rewrite firstn_all, drop_all in H1, H2. done.
      * inv_bind H. injection H as <-. destruct (array_insert_at l key a v E) as [H1 H2]. done.
    + injection H as <-. cbn [getAtPath removeAtPath]. rewrite lookup_insert_eq. split; [done|].
      intros Hm%bool_decide_eq_true. by rewrite delete_insert_id.
  - apply addAtPath_child in H as (c & c' & Ha & Hw).
    assert (child_of node key = c) as Hc.
    { unfold child_of. by destruct (child_write_get key c c' node node' [] Hw) as [-> _]. }
    assert (Z.of_nat (json_size c) < 2 ^ 63) as Hsc.
    { enough (json_size c <= json_size node)%nat by lia. destruct Hw as [m Hm|l i Hi He].
      - apply member_size in Hm. lia.
      - subst c. unfold element. destruct (l !! i) as [x|] eqn:Ex; cbn [default].
        + apply list_elem_of_lookup_2, elem_size in Ex. cbn in *. lia.
        + cbn. lia. }
    destruct (IH c c' ltac:(done) Hsc Ha) as [H1 H2].
    change (landing node (key :: r :: rest)) with (key :: landing (child_of node key) (r :: rest)).
    change (inserts node (key :: r :: rest)) with (inserts (child_of node key) (r :: rest)).
    rewrite Hc. split.
    + by rewrite (proj2 (child_write_get key c c' node node' _ Hw)).
    + intros Hi. specialize (H2 Hi). destruct (landing_cons c (r :: rest) ltac:(done)) as (k & ks & E).
      rewrite E in *. by eapply removeAtPath_child.
Qed.

(** ** The test operation decides equality of JSON values *)

(** RFC 6902 section 4.6: numbers by value, arrays elementwise, objects by
    member; a number outside the supported range equals nothing. *)
#[warnings="-register-all"]
Inductive json_eq : json -> json -> Prop :=
| json_eq_null : json_eq JNull JNull
| json_eq_bool b : json_eq (JBool b) (JBool b)
| json_eq_str s : json_eq (JStr s) (JStr s)
| json_eq_num x y p q :
    patchNumber x = Some p -> patchNumber y = Some q -> (p == q)%Q -> json_eq (JNum x) (JNum y)
| json_eq_arr l k :
    length l = length k -> (forall i x y, l !! i = Some x -> k !! i = Some y -> json_eq x y) ->
    json_eq (JArr l) (JArr k)
| json_eq_obj m n :
    (forall key, m !! key = None <-> n !! key = None) ->
    (forall key x y, m !! key = Some x -> n !! key = Some y -> json_eq x y) ->
    json_eq (JObj m) (JObj n).

Lemma map_fold_all {A : Type} (test : gostring -> A -> bool) (m : gmap gostring A) :
  map_fold (fun k a acc => test k a && acc) true m = true
  <-> forall k a, m !! k = Some a -> test k a = true.
Proof.
  apply (map_fold_weak_ind (fun r m => r = true <-> forall k a, m !! k = Some a -> test k a = true)).
  - split; [|done]. intros _ k a H. by rewrite lookup_empty in H.
  - intros k a m' r Hk IH. rewrite andb_true_iff, IH. split.
    + intros [H1 H2] j b Hj. apply lookup_insert_Some in Hj as [[<- <-]|[_ Hj]]; [done|by apply H2].
    + intros H. split; [apply H, lookup_insert_eq|]. intros j b Hj. apply H.
      rewrite lookup_insert_ne; [done|]. intros <-. by rewrite Hk in Hj.
Qed.

Lemma same_domain {A C : Type} (m : gmap gostring A) (n : gmap gostring C) :
  size m = size n -> (forall k, is_Some (m !! k) -> is_Some (n !! k)) ->
  forall k, m !! k = None <-> n !! k = None.
Proof.
  intros Hs Hsub.
  assert (dom m = dom n) as Hd.
  { apply set_subseteq_size_eq.
    - intros k. rewrite !elem_of_dom. apply Hsub.
    - by rewrite !size_dom, Hs. }
  intros k. rewrite <- !not_elem_of_dom. by rewrite Hd.
Qed.

Lemma same_domain_size {A C : Type} (m : gmap gostring A) (n : gmap gostring C) :
  (forall k, m !! k = None <-> n !! k = None) -> size m = size n.
Proof.
  intros H. rewrite <- !size_dom. f_equal. apply leibniz_equiv. intros k.
  rewrite !elem_of_dom, <- !not_eq_None_Some, H. done.
Qed.

Lemma array_equal_loop (l k : list json) :
  Forall (fun x => forall y, patchDecodedEqual x y = true <-> json_eq x y) l -> length l = length k ->
  (fix go (l k : list json) : bool :=
     match l, k with x :: l', y :: k' => patchDecodedEqual x y && go l' k' | _, _ => true end) l k = true
  <-> (forall i x y, l !! i = Some x -> k !! i = Some y -> json_eq x y).
Proof.
  intros Hl. revert k. induction Hl as [|x l Hx _ IH]; intros [|y k] Hlen; try done.
  cbn [length] in Hlen. rewrite andb_true_iff, Hx, IH by lia. split.
  - intros [H1 H2] [|i] a b Ha Hb; [by injection Ha as <-; injection Hb as <-|by eapply (H2 i)].
  - intros H. split; [by apply (H 0%nat)|]. intros i a b Ha Hb. by apply (H (S i)).
Qed.

Lemma patchDecodedEqual_spec (a : json) : forall b, patchDecodedEqual a b = true <-> json_eq a b.
Proof.
  induction a as [|x|x|x|l IH|m IH] using json_ind'; intros [|y|y|y|k|n];
    try (split; [done|]; by inversion 1).
  - split; [constructor|done].
  - cbn. rewrite eqb_true_iff. split; [intros ->; constructor|by inversion 1].
  - cbn. split.
    + destruct (patchNumber x) eqn:Ex, (patchNumber y) eqn:Ey; try done.
      intros H%Qeq_bool_iff. by econstructor.
    + inversion 1 as [| | |? ? p q Hp Hq Hpq| |]; subst. rewrite Hp, Hq. by apply Qeq_bool_iff.
  - cbn. rewrite beq_true. split; [intros ->; constructor|by inversion 1].
  - cbn [patchDecodedEqual]. rewrite andb_true_iff, Nat.eqb_eq. split.
    + intros [Hlen H]. constructor; [done|]. by apply array_equal_loop.
    + inversion 1 as [| | | |? ? Hlen Hall|]; subst. split; [done|]. by apply array_equal_loop.
  - cbn [patchDecodedEqual]. rewrite andb_true_iff, Nat.eqb_eq, map_fold_all. split.
    + intros [Hs H].
      assert (forall key x, m !! key = Some x -> exists y, n !! key = Some y /\ json_eq x y) as Hm.
      { intros key x Hx. specialize (H key (patchDecodedEqual x)). rewrite lookup_fmap, Hx in H.
        specialize (H eq_refl). destruct (n !! key) as [y|] eqn:Ey; [|done]. exists y.
        split; [done|]. by apply (IH key x Hx). }
      constructor.
      * apply same_domain; [done|]. intros key [x Hx]. destruct (Hm key x Hx) as (y & -> & _). by eexists.
      * intros key x y Hx Hy. destruct (Hm key x Hx) as (y' & Hy' & He). congruence.
    + inversion 1 as [| | | | |? ? Hdom Hall]; subst. split; [by apply same_domain_size|].
      intros key f Hf. rewrite lookup_fmap in Hf. destruct (m !! key) as [x|] eqn:Ex; [|done].
      injection Hf as <-. destruct (n !! key) as [y|] eqn:Ey; [|by apply Hdom in Ey; rewrite Ex in Ey].
      apply (IH key x Ex). by eapply Hall.
Qed.

(** A value as a decoder produces it. *)
#[warnings="-register-all"]
Inductive decoded : json -> Prop :=
| decoded_null : decoded JNull
| decoded_bool b : decoded (JBool b)
| decoded_str s : ValidString s = true -> decoded (JStr s)
| decoded_num t : isValidNumber t = true -> decoded (JNum t)
| decoded_arr l : (forall x, x ∈ l -> decoded x) -> decoded (JArr l)
| decoded_obj m :
    (forall k x, m !! k = Some x -> ValidString k = true /\ decoded x) -> decoded (JObj m).

Lemma to_valid_id (s : gostring) : ValidString s = true -> to_valid s = s.
Proof. intros (rs & Hv & ->)%ValidString_runes. unfold to_valid. by rewrite range_string_runes. Qed.

Lemma recode_fold (m : gmap gostring json) (l : list (gostring * option json)) :
  (forall k x, m !! k = Some x -> ValidString k = true) ->
  (forall k ov, (k, ov) ∈ l -> exists v, ov = Some v /\ m !! k = Some v) ->
  forall acc : gmap gostring json, exists r : gmap gostring json,
    foldl (fun acc kv => match acc, snd kv with
                         | Some n, Some v => Some (<[to_valid (fst kv) := v]> n)
                         | _, _ => None
                         end) (Some acc) l = Some r
    /\ forall k, r !! k = if bool_decide (k ∈ l.*1) then m !! k else acc !! k.
Proof.
  intros Hk. induction l as [|[k0 ov] l IH]; intros Hl acc; cbn [foldl fst snd].
  - by exists acc.
  - destruct (Hl k0 ov ltac:(left)) as (v & -> & Hv). rewrite to_valid_id by (by eapply Hk).
    destruct (IH ltac:(intros k ov Hin; apply Hl; by right) (<[k0 := v]> acc)) as (r & -> & Hr).
    exists r. split; [done|]. intros k. rewrite Hr. cbn [fmap list_fmap fst].
    destruct (decide (k = k0)) as [->|Hne].
    + rewrite (bool_decide_true (k0 ∈ k0 :: _)) by left. rewrite lookup_insert_eq, Hv.
      by case_bool_decide.
    + rewrite lookup_insert_ne by done.
      rewrite (bool_decide_ext (k ∈ k0 :: l.*1) (k ∈ l.*1)) by (rewrite elem_of_cons; naive_solver). done.
Qed.

Lemma recode_members_id (m : gmap gostring json) :
  (forall k x, m !! k = Some x -> ValidString k = true) -> recode_members (fmap Some m) = Some m.
Proof.
  intros Hk. unfold recode_members.
  assert (forall k ov, (k, ov) ∈ merge_sort key_le (map_to_list (Some <$> m))
                       <-> exists v, ov = Some v /\ m !! k = Some v) as Hl.
  { intros k ov. rewrite merge_sort_Permutation, elem_of_map_to_list, lookup_fmap.
    destruct (m !! k) as [v|]; cbn; naive_solver. }
  destruct (recode_fold m _ Hk (fun k ov H => proj1 (Hl k ov) H) ∅) as (r & -> & Hr).
  f_equal. apply map_eq. intros k. rewrite Hr. case_bool_decide as Hin; [done|].
  rewrite lookup_empty. destruct (m !! k) as [v|] eqn:Ev; [|done]. exfalso. apply Hin.
  apply list_elem_of_fmap. exists (k, Some v). split; [done|]. apply Hl. eauto.
Qed.

Lemma recode_decoded (v : json) : decoded v -> recode v = Some v.
Proof.
  induction v as [|x|x|x|l IH|m IH] using json_ind'; inversion 1; subst; cbn [recode]; try done.
  - assert (x <> []) as Hne by (intros ->; done). rewrite (proj2 (beq_false x []) Hne).
    by match goal with H : isValidNumber x = true |- _ => rewrite H end.
  - by rewrite to_valid_id.
  - match goal with H : forall x, x ∈ l -> _ |- _ => rename H into Hl end.
    assert (forall acc, (fix go (l acc : list json) : option json :=
              match l with
              | [] => Some (JArr (rev acc))
              | x :: l' => match recode x with Some y => go l' (y :: acc) | None => None end
              end) l acc = Some (JArr (rev acc ++ l))) as Hgo; [|by rewrite Hgo].
    induction IH as [|x l Hx _ IHl]; intros acc; [by rewrite app_nil_r|].
    rewrite Hx by (apply Hl; left). rewrite IHl; [|constructor; intros; apply Hl; by right|by intros; apply Hl; right].
    cbn [rev]. by rewrite <- app_assoc.
  - match goal with H : forall k x, m !! k = Some x -> _ |- _ => rename H into Hm end.
    assert (fmap recode m = fmap Some m) as ->.
    { apply map_eq. intros k. rewrite !lookup_fmap. destruct (m !! k) as [x|] eqn:Ex; [|done]. cbn.
      f_equal. apply (IH k x Ex). by apply (Hm k x Ex). }
    rewrite recode_members_id; [done|]. intros k x Hx. by apply (Hm k x Hx).
Qed.

(** On values that came from a decoder the test operation succeeds exactly on
    values that are equal in the sense of RFC 6902: numbers by mathematical
    value, arrays by position, objects by member, whatever their spelling. *)
Lemma patchTestRoot_exact (root : document) (parts : list gostring) (target v : json) :
  getAtPath (JObj root) parts = Ok target -> decoded target -> decoded v ->
  patchTestRoot root (printPointer parts) v = Ok tt <-> json_eq target v.
Proof.
  intros Hg Ht Hv. rewrite <- patchDecodedEqual_spec. unfold patchTestRoot.
  assert ((if beq (printPointer parts) [] then Ok (JObj root)
           else let? parts := parseJSONPointer (printPointer parts) in
                wrap ETest (getAtPath (JObj root) parts)) = Ok target) as ->.
  { rewrite pointer_print. cbn [rbind]. rewrite Hg. destruct parts; [|done].
    by injection Hg as <-. }
  cbn [rbind]. unfold patchValuesEqual. rewrite !recode_decoded by done.
  destruct (patchDecodedEqual target v); cbn; naive_solver.
Qed.

(** RFC 6902 section 4.4 forbids a [from] that is a proper prefix of [path].  The
    code removes the source first and resolves the target afterwards, so inside
    an array the element that follows the source receives it. *)
Lemma move_into_own_child :
  let elem n := JObj (<[B "k" := JNum n]> ∅) in
  let doc := <[B "a" := JArr [elem (B "1"); elem (B "2")]]> (∅ : document) in
  patchMoveRoot doc (B "/a/0") (B "/a/0/x")
  = Ok (<[B "a" := JArr [JObj (<[B "x" := elem (B "1")]> (<[B "k" := JNum (B "2")]> ∅))]]> ∅).
Proof. vm_compute. reflexivity. Qed.
