(* ===== verification/LinkedList.v ===== *)
(** * container/list: doubly-linked lists

    The lists of container/list/list.go, with the nodes and lists of a Go heap, the
    pointers between them and the nil dereferences that panic.  The lists refine
    sequences of nodes: every operation does to the sequence what its name says, and
    leaves the other lists alone. *)

From S2P Require Import Prelude.

#[local] Open Scope Z_scope.

(** ** The heap *)

Abbreviation loc := positive.

(** [Sentinel], which every element embeds; a nil pointer is [None]. *)
Record Sentinel := mkSentinel { sn_next : option loc; sn_prev : option loc; sn_list : option loc }.

Record List := mkList { li_root : option loc; li_len : Z }.

Record heap := mkHeap { h_nodes : gmap loc Sentinel; h_lists : gmap loc List }.

(** A computation on the heap; [None] is a panic. *)
Definition M (A : Type) : Type := heap -> option (A * heap).

Definition ret {A : Type} (a : A) : M A := fun h => Some (a, h).
Definition bind {A C : Type} (m : M A) (k : A -> M C) : M C := fun h => match m h with Some (a, h) => k a h | None => None end.

Notation "'let!' x ':=' m 'in' k" := (bind m (fun x => k))
  (at level 10, x pattern, m at level 100, k at level 200, format "'[v' 'let!'  x  ':='  m  'in' '/' k ']'") : go_scope.

Definition node (e : option loc) : M Sentinel := fun h =>
  match e with Some e => match h_nodes h !! e with Some n => Some (n, h) | None => None end | None => None end.

Definition list_at (l : option loc) : M List := fun h =>
  match l with Some l => match h_lists h !! l with Some li => Some (li, h) | None => None end | None => None end.

Definition set_node (e : option loc) (n : Sentinel) : M unit := fun h =>
  match e with Some e => Some (tt, mkHeap (<[e := n]> (h_nodes h)) (h_lists h)) | None => None end.

Definition set_list (l : loc) (li : List) : M unit := fun h => Some (tt, mkHeap (h_nodes h) (<[l := li]> (h_lists h))).

Definition eq_loc (a b : option loc) : bool := bool_decide (a = b).

(** ** Sentinel *)

Definition SetNext (s : option loc) (e : option loc) : M (option loc) :=
  let! n := node s in
  let! _ := set_node s (mkSentinel e (sn_prev n) (sn_list n)) in
  ret (sn_next n).

Definition SetPrev (s : option loc) (e : option loc) : M (option loc) :=
  let! n := node s in
  let! _ := set_node s (mkSentinel (sn_next n) e (sn_list n)) in
  ret (sn_prev n).

Definition SetList (s : option loc) (l : option loc) : M (option loc) :=
  let! n := node s in
  let! _ := set_node s (mkSentinel (sn_next n) (sn_prev n) l) in
  ret (sn_list n).

(** A neighbour, unless it is the root of the list the node belongs to. *)
Definition neighbour (n : Sentinel) (p : option loc) : M (option loc) :=
  match sn_list n with
  | None => ret None
  | Some l => let! li := list_at (Some l) in ret (if eq_loc p (li_root li) then None else p)
  end.

Definition Next (s : option loc) : M (option loc) := let! n := node s in neighbour n (sn_next n).
Definition Prev (s : option loc) : M (option loc) := let! n := node s in neighbour n (sn_prev n).
Definition list_of (s : option loc) : M (option loc) := let! n := node s in ret (sn_list n).

(** ** List *)

Definition alloc_node : M (option loc) := fun h =>
  let e := fresh (dom (h_nodes h)) in
  Some (Some e, mkHeap (<[e := mkSentinel None None None]> (h_nodes h)) (h_lists h)).

Definition Init (l : loc) : M unit :=
  let! s := alloc_node in
  let! _ := SetList s (Some l) in
  set_list l (mkList s 0).

Definition lazyInit (l : loc) : M unit :=
  let! li := list_at (Some l) in
  match li_root li with None => Init l | Some _ => ret tt end.

Definition New : M loc := fun h =>
  let l := fresh (dom (h_lists h)) in
  (let! _ := set_list l (mkList None 0) in let! _ := Init l in ret l) h.

Definition root (l : loc) : M (option loc) := let! li := list_at (Some l) in ret (li_root li).
Definition Len (l : loc) : M Z := let! li := list_at (Some l) in ret (li_len li).

Definition Front (l : loc) : M (option loc) :=
  let! li := list_at (Some l) in
  if li_len li =? 0 then ret None else Next (li_root li).

Definition Back (l : loc) : M (option loc) :=
  let! li := list_at (Some l) in
  if li_len li =? 0 then ret None else Prev (li_root li).

(** The neighbour, or the root at the end of the chain. *)
Definition or_root (l : loc) (p : option loc) : M (option loc) := match p with Some _ => ret p | None => root l end.

Definition insert (l : loc) (e at_ : option loc) : M (option loc) :=
  match e with
  | None => ret e
  | Some _ =>
      let! r := root l in
      let! n := Next at_ in
      let n := match n with None => r | Some _ => n end in
      let! _ := SetNext at_ e in
      let! _ := SetPrev e at_ in
      let! _ := SetNext e n in
      let! _ := SetPrev n e in
      let! _ := SetList e (Some l) in
      let! li := list_at (Some l) in
      let! _ := set_list l (mkList (li_root li) (li_len li + 1)) in
      ret e
  end.

Definition remove (l : loc) (e : option loc) : M (option loc) :=
  let! p := Prev e in
  let! p := match p with
            | Some _ => ret p
            | None => let! r := root l in let! f := Next r in ret (if eq_loc f e then r else p)
            end in
  let! n := Next e in
  let! n := match n with
            | Some _ => ret n
            | None => let! r := root l in let! b := Prev r in ret (if eq_loc b e then r else n)
            end in
  let! _ := match p with Some _ => SetNext p n | None => ret None end in
  let! _ := match n with Some _ => SetPrev n p | None => ret None end in
  let! _ := SetNext e None in
  let! _ := SetPrev e None in
  let! _ := SetList e None in
  let! li := list_at (Some l) in
  let! _ := set_list l (mkList (li_root li) (li_len li - 1)) in
  ret e.

Definition Remove (l : loc) (e : option loc) : M (option loc) :=
  let! o := list_of e in
  let! _ := (if eq_loc o (Some l) then remove l e else ret None) in
  ret e.

Definition PushFront (l : loc) (e : option loc) : M (option loc) :=
  let! _ := lazyInit l in
  let! r := root l in
  insert l e r.

Definition PushBack (l : loc) (e : option loc) : M (option loc) :=
  let! _ := lazyInit l in
  let! r := root l in
  let! p := Prev r in
  let! p := or_root l p in
  insert l e p.

Definition InsertBefore (l : loc) (e mark : option loc) : M (option loc) :=
  let! o := list_of mark in
  if negb (eq_loc o (Some l)) then ret None
  else
    let! p := Prev mark in
    let! p := or_root l p in
    insert l e p.

Definition InsertAfter (l : loc) (e mark : option loc) : M (option loc) :=
  let! o := list_of mark in
  if negb (eq_loc o (Some l)) then ret None else insert l e mark.

Definition MoveToFront (l : loc) (e : option loc) : M unit :=
  let! o := list_of e in
  if negb (eq_loc o (Some l)) then ret tt
  else
    let! r := root l in
    let! f := Next r in
    if eq_loc f e then ret tt
    else let! x := remove l e in let! r := root l in let! _ := insert l x r in ret tt.

Definition MoveToBack (l : loc) (e : option loc) : M unit :=
  let! o := list_of e in
  if negb (eq_loc o (Some l)) then ret tt
  else
    let! r := root l in
    let! b := Prev r in
    if eq_loc b e then ret tt
    else
      let! p := Prev r in
      let! p := or_root l p in
      let! x := remove l e in let! _ := insert l x p in ret tt.

(** The guard of both moves relative to a mark, evaluated from left to right. *)
Definition movable (l : loc) (e mark : option loc) : M bool :=
  let! o := list_of e in
  if negb (eq_loc o (Some l)) || eq_loc e mark then ret false
  else let! o := list_of mark in ret (eq_loc o (Some l)).

Definition MoveBefore (l : loc) (e mark : option loc) : M unit :=
  let! ok := movable l e mark in
  if negb ok then ret tt
  else
    let! p := Prev mark in
    let! p := or_root l p in
    if eq_loc p e then ret tt
    else let! x := remove l e in let! _ := insert l x p in ret tt.

Definition MoveAfter (l : loc) (e mark : option loc) : M unit :=
  let! ok := movable l e mark in
  if negb ok then ret tt
  else let! x := remove l e in let! _ := insert l x mark in ret tt.

Definition Replace (l : loc) (e mark : option loc) : M (option loc) :=
  let! o := list_of mark in
  if negb (eq_loc o (Some l)) then ret None
  else
    let! n := Next mark in
    let! _ := Remove l mark in
    let! _ := InsertBefore l e n in
    ret mark.

Definition IsSentinel (l : loc) (e : option loc) : M bool :=
  let! o := list_of e in
  if eq_loc o (Some l) then let! r := root l in ret (eq_loc e r) else ret false.

(** ** Searching *)

(** The loop of [FindElementForward], with the element and whether the end was passed:
    at the end it goes back to the front once. *)
Fixpoint find_forward (fuel : nat) (l : loc) (last : option loc) (finder : option loc -> bool) (sawNil : bool) (e : option loc)
    : M (option (option loc)) :=
  match fuel with
  | O => ret None
  | S fuel =>
      if eq_loc e None && sawNil then ret (Some None)
      else
        let! e' := match e with None => Front l | Some _ => ret e end in
        if finder e' then ret (Some e')
        else if eq_loc e' last then ret (Some None)
        else let! next := Next e' in find_forward fuel l last finder (eq_loc e None || sawNil) next
  end.

(** The result, with [None] when the fuel is exhausted. *)
Definition FindElementForward (fuel : nat) (l : loc) (start last : option loc) (finder : option loc -> bool) : M (option (option loc)) :=
  let! n := Len l in
  if n =? 0 then ret (Some None)
  else
    let! start := match start with None => Front l | Some _ => ret start end in
    let! last := match last with None => Back l | Some _ => ret last end in
    let! o := list_of start in
    let! o' := list_of last in
    if negb (eq_loc o (Some l)) || negb (eq_loc o' (Some l)) then ret (Some None)
    else find_forward fuel l last finder false start.

(** The loop of [FindElementBackward]. *)
Fixpoint find_backward (fuel : nat) (last : option loc) (finder : option loc -> bool) (e : option loc) : M (option (option loc)) :=
  match fuel with
  | O => ret None
  | S fuel =>
      let! p := Prev last in
      if eq_loc e p then ret (Some None)
      else if finder e then ret (Some e)
      else let! e := Prev e in find_backward fuel last finder e
  end.

Definition FindElementBackward (fuel : nat) (l : loc) (start last : option loc) (finder : option loc -> bool) : M (option (option loc)) :=
  let! n := Len l in
  if n =? 0 then ret (Some None)
  else
    let! start := match start with None => Back l | Some _ => ret start end in
    let! last := match last with None => Front l | Some _ => ret last end in
    let! o := list_of start in
    let! o' := list_of last in
    if negb (eq_loc o (Some l)) || negb (eq_loc o' (Some l)) then ret (Some None)
    else find_backward fuel last finder start.

(** ** The fields of the heap *)

Definition nxt (h : heap) (x : loc) : option loc := h_nodes h !! x ≫= sn_next.
Definition prv (h : heap) (x : loc) : option loc := h_nodes h !! x ≫= sn_prev.
Definition own (h : heap) (x : loc) : option loc := h_nodes h !! x ≫= sn_list.
Definition exists_node (h : heap) (x : loc) : Prop := is_Some (h_nodes h !! x).

Lemma own_exists (h : heap) (x l : loc) : own h x = Some l -> exists_node h x.
Proof. unfold own, exists_node. destruct (h_nodes h !! x); [by eauto|done]. Qed.

(** What a write leaves: one field of one node changes. *)
Record writes (h h' : heap) (fn fp fo : loc -> option loc) : Prop := {
  wr_next : forall y, nxt h' y = fn y;
  wr_prev : forall y, prv h' y = fp y;
  wr_own : forall y, own h' y = fo y;
  wr_lists : h_lists h' = h_lists h;
  wr_nodes : forall y, exists_node h' y <-> exists_node h y
}.

Definition upd (f : loc -> option loc) (x : loc) (v : option loc) : loc -> option loc := fun y => if decide (y = x) then v else f y.

Lemma set_fields (h : heap) (x : loc) (n n' : Sentinel) (h' : heap) :
  h_nodes h !! x = Some n -> h' = mkHeap (<[x := n']> (h_nodes h)) (h_lists h) ->
  writes h h' (upd (nxt h) x (sn_next n')) (upd (prv h) x (sn_prev n')) (upd (own h) x (sn_list n')).
Proof.
  intros Hx ->. unfold upd.
  split; [intros y; unfold nxt, prv, own; cbn [h_nodes]; destruct (decide (y = x)) as [->|Hn];
    [by rewrite lookup_insert_eq|by rewrite lookup_insert_ne by done]..|done|].
  intros y. unfold exists_node. cbn [h_nodes]. rewrite lookup_insert_is_Some. split; [intros [<-|[_ ?]]; [by eauto|done]|].
  intros Hy. destruct (decide (x = y)); auto.
Qed.

Lemma upd_same (f : loc -> option loc) (x y : loc) (v : option loc) : f x = v -> upd f x v y = f y.
Proof. unfold upd. by destruct (decide (y = x)) as [->|]. Qed.

Lemma SetNext_run (h : heap) (x : loc) (v : option loc) :
  exists_node h x -> exists h', SetNext (Some x) v h = Some (nxt h x, h') /\ writes h h' (upd (nxt h) x v) (prv h) (own h).
Proof.
  intros [n Hn]. unfold SetNext, bind, node. rewrite Hn. eexists. split; [by unfold nxt; rewrite Hn|].
  destruct (set_fields h x n (mkSentinel v (sn_prev n) (sn_list n)) _ Hn eq_refl) as [H1 H2 H3 H4 H5].
  split; try done; intros y; [rewrite H2|rewrite H3]; apply upd_same; [unfold prv|unfold own]; by rewrite Hn.
Qed.

Lemma SetPrev_run (h : heap) (x : loc) (v : option loc) :
  exists_node h x -> exists h', SetPrev (Some x) v h = Some (prv h x, h') /\ writes h h' (nxt h) (upd (prv h) x v) (own h).
Proof.
  intros [n Hn]. unfold SetPrev, bind, node. rewrite Hn. eexists. split; [by unfold prv; rewrite Hn|].
  destruct (set_fields h x n (mkSentinel (sn_next n) v (sn_list n)) _ Hn eq_refl) as [H1 H2 H3 H4 H5].
  split; try done; intros y; [rewrite H1|rewrite H3]; apply upd_same; [unfold nxt|unfold own]; by rewrite Hn.
Qed.

Lemma SetList_run (h : heap) (x : loc) (v : option loc) :
  exists_node h x -> exists h', SetList (Some x) v h = Some (own h x, h') /\ writes h h' (nxt h) (prv h) (upd (own h) x v).
Proof.
  intros [n Hn]. unfold SetList, bind, node. rewrite Hn. eexists. split; [by unfold own; rewrite Hn|].
  destruct (set_fields h x n (mkSentinel (sn_next n) (sn_prev n) v) _ Hn eq_refl) as [H1 H2 H3 H4 H5].
  split; try done; intros y; [rewrite H1|rewrite H2]; apply upd_same; [unfold nxt|unfold prv]; by rewrite Hn.
Qed.

Lemma bind_Some {A C : Type} (m : M A) (k : A -> M C) (h h' : heap) (a : A) : m h = Some (a, h') -> bind m k h = k a h'.
Proof. unfold bind. by intros ->. Qed.

Definition unless_root (li : List) (p : option loc) : option loc := if eq_loc p (li_root li) then None else p.

Lemma Next_run (h : heap) (x l : loc) (li : List) :
  own h x = Some l -> h_lists h !! l = Some li -> Next (Some x) h = Some (unless_root li (nxt h x), h).
Proof.
  unfold own, nxt, Next, bind, node. destruct (h_nodes h !! x) as [n|]; [|done]. cbn. intros Ho Hl.
  unfold neighbour, bind, list_at. rewrite Ho, Hl. done.
Qed.

Lemma Prev_run (h : heap) (x l : loc) (li : List) :
  own h x = Some l -> h_lists h !! l = Some li -> Prev (Some x) h = Some (unless_root li (prv h x), h).
Proof.
  unfold own, prv, Prev, bind, node. destruct (h_nodes h !! x) as [n|]; [|done]. cbn. intros Ho Hl.
  unfold neighbour, bind, list_at. rewrite Ho, Hl. done.
Qed.

Lemma list_of_run (h : heap) (x : loc) : exists_node h x -> list_of (Some x) h = Some (own h x, h).
Proof. intros [n Hn]. unfold list_of, bind, node, own. by rewrite Hn. Qed.

Lemma root_run (h : heap) (l : loc) (li : List) : h_lists h !! l = Some li -> root l h = Some (li_root li, h).
Proof. intros H. unfold root, bind, list_at. by rewrite H. Qed.

(** Run the next write of a sequence: its node exists, and the fields are known after. *)
Ltac write_step L :=
  match goal with
  | |- exists h', bind (_ (Some ?x) ?v) _ ?h = _ /\ _ =>
      let h1 := fresh "h1" in let E := fresh "E" in let W := fresh "W" in
      destruct (L h x v) as (h1 & E & W); [|rewrite (bind_Some _ _ _ _ _ E)]
  end.

(** Follow a field through the writes. *)
Ltac solve_fields :=
  repeat match goal with W : writes _ _ _ _ _ |- _ => destruct W end; unfold upd in *; try (intros y);
  repeat match goal with
  | |- context [nxt (mkHeap (h_nodes ?h) ?ls) ?y] => change (nxt (mkHeap (h_nodes h) ls) y) with (nxt h y)
  | |- context [prv (mkHeap (h_nodes ?h) ?ls) ?y] => change (prv (mkHeap (h_nodes h) ls) y) with (prv h y)
  | |- context [own (mkHeap (h_nodes ?h) ?ls) ?y] => change (own (mkHeap (h_nodes h) ls) y) with (own h y)
  | |- context [exists_node (mkHeap (h_nodes ?h) ?ls) ?y] => change (exists_node (mkHeap (h_nodes h) ls) y) with (exists_node h y)
  | H : forall y, _ ?h y = _ |- context [_ ?h _] => rewrite H
  | H : forall y, exists_node ?h y <-> _ |- context [exists_node ?h _] => rewrite H
  | H : h_lists ?h = _ |- context [h_lists ?h] => rewrite H
  end; done.

(** The heap after an operation on the list [l], by its fields and its length. *)
Record becomes (h h' : heap) (l : loc) (li : List) (fn fp fo : loc -> option loc) : Prop := {
  bc_next : forall y, nxt h' y = fn y;
  bc_prev : forall y, prv h' y = fp y;
  bc_own : forall y, own h' y = fo y;
  bc_lists : h_lists h' = <[l := li]> (h_lists h);
  bc_nodes : forall y, exists_node h' y <-> exists_node h y
}.

Lemma insert_run (h : heap) (l r a e n : loc) (k : Z) (nx : option loc) :
  h_lists h !! l = Some (mkList (Some r) k) -> exists_node h a -> exists_node h e -> exists_node h n ->
  Next (Some a) h = Some (nx, h) -> match nx with None => Some r | Some _ => nx end = Some n ->
  exists h', insert l (Some e) (Some a) h = Some (Some e, h') /\
    becomes h h' l (mkList (Some r) (k + 1))
      (upd (upd (nxt h) a (Some e)) e (Some n)) (upd (upd (prv h) e (Some a)) n (Some e)) (upd (own h) e (Some l)).
Proof.
  intros Hl Ha He Hn Hx Enx. unfold insert. rewrite (bind_Some _ _ _ _ _ (root_run _ _ _ Hl)), (bind_Some _ _ _ _ _ Hx). cbn [li_root]. rewrite Enx.
  write_step SetNext_run; [done|]. write_step SetPrev_run; [by apply W|]. write_step SetNext_run; [by apply W0, W|].
  write_step SetPrev_run; [by apply W1, W0, W|]. write_step SetList_run; [by apply W2, W1, W0, W|].
  eexists. split; [unfold bind at 1, list_at; by rewrite (wr_lists _ _ _ _ _ W3), (wr_lists _ _ _ _ _ W2), (wr_lists _ _ _ _ _ W1), (wr_lists _ _ _ _ _ W0), (wr_lists _ _ _ _ _ W), Hl|].
  split; [solve_fields..|cbn [h_lists]; solve_fields|solve_fields].
Qed.

Lemma remove_run (h : heap) (l r p e n : loc) (k : Z) :
  h_lists h !! l = Some (mkList (Some r) k) -> own h e = Some l -> own h r = Some l -> exists_node h p -> exists_node h n -> e <> r ->
  prv h e = Some p -> nxt h e = Some n -> (p = r -> nxt h r = Some e) -> (n = r -> prv h r = Some e) -> p <> e -> n <> e ->
  exists h', remove l (Some e) h = Some (Some e, h') /\
    becomes h h' l (mkList (Some r) (k - 1))
      (upd (upd (nxt h) p (Some n)) e None) (upd (upd (prv h) n (Some p)) e None) (upd (own h) e None).
Proof.
  intros Hl Ho Hr Hp Hn Her Ep En Hpr Hnr Hpe Hne. pose proof (own_exists _ _ _ Ho) as Hx. unfold remove.
  rewrite (bind_Some _ _ _ _ _ (Prev_run _ _ _ _ Ho Hl)).
  match goal with |- context [bind ?m _ h] => assert (m h = Some (Some p, h)) as E end.
  { unfold unless_root, eq_loc. rewrite Ep. cbn [li_root]. case_bool_decide as Hd; [|done]. injection Hd as ->.
    rewrite (bind_Some _ _ _ _ _ (root_run _ _ _ Hl)), (bind_Some _ _ _ _ _ (Next_run _ _ _ _ Hr Hl)). unfold unless_root, eq_loc. cbn [li_root].
    rewrite (Hpr eq_refl). rewrite (bool_decide_eq_false_2 (Some e = Some r)) by congruence. by rewrite bool_decide_eq_true_2. }
  rewrite (bind_Some _ _ _ _ _ E), (bind_Some _ _ _ _ _ (Next_run _ _ _ _ Ho Hl)). clear E.
  match goal with |- context [bind ?m _ h] => assert (m h = Some (Some n, h)) as E end.
  { unfold unless_root, eq_loc. rewrite En. cbn [li_root]. case_bool_decide as Hd; [|done]. injection Hd as ->.
    rewrite (bind_Some _ _ _ _ _ (root_run _ _ _ Hl)), (bind_Some _ _ _ _ _ (Prev_run _ _ _ _ Hr Hl)). unfold unless_root, eq_loc. cbn [li_root].
    rewrite (Hnr eq_refl). rewrite (bool_decide_eq_false_2 (Some e = Some r)) by congruence. by rewrite bool_decide_eq_true_2. }
  rewrite (bind_Some _ _ _ _ _ E). clear E.
  write_step SetNext_run; [done|]. write_step SetPrev_run; [by apply W|]. write_step SetNext_run; [by apply W0, W|].
  write_step SetPrev_run; [by apply W1, W0, W|]. write_step SetList_run; [by apply W2, W1, W0, W|].
  eexists. split; [unfold bind at 1, list_at; by rewrite (wr_lists _ _ _ _ _ W3), (wr_lists _ _ _ _ _ W2), (wr_lists _ _ _ _ _ W1), (wr_lists _ _ _ _ _ W0), (wr_lists _ _ _ _ _ W), Hl|].
  split; [solve_fields..|cbn [h_lists]; solve_fields|solve_fields].
Qed.

(** ** Rings of nodes *)

(** The links of a chain that ends at [z]: each node with the next. *)
Fixpoint links (z : loc) (ys : list loc) : list (loc * loc) :=
  match ys with
  | [] => []
  | x :: ys => (x, hd z ys) :: links z ys
  end.

Lemma links_app (z c : loc) (a b : list loc) : links z (a ++ c :: b) = links c a ++ links z (c :: b).
Proof. induction a as [|x a IH]; [done|]. cbn [app links]. rewrite IH. by destruct a. Qed.

Lemma links_fst (z : loc) (ys : list loc) : map fst (links z ys) = ys.
Proof. induction ys as [|x ys IH]; cbn; [done|]. by rewrite IH. Qed.

Lemma links_snd (z : loc) (ys : list loc) : map snd (links z ys) = match ys with [] => [] | _ => tail ys ++ [z] end.
Proof. induction ys as [|x ys IH]; cbn; [done|]. rewrite IH. by destruct ys. Qed.

Definition linked (h : heap) (xy : loc * loc) : Prop := nxt h (fst xy) = Some (snd xy) /\ prv h (snd xy) = Some (fst xy).

(** The ring of the root [r] and the nodes [xs] of a list; alone, the root has no
    neighbours or is its own. *)
Definition ring (h : heap) (r : loc) (xs : list loc) : Prop :=
  match xs with
  | [] => (nxt h r = None \/ nxt h r = Some r) /\ (prv h r = None \/ prv h r = Some r)
  | _ => Forall (linked h) (links r (r :: xs))
  end.

Record rep (h : heap) (l r : loc) (xs : list loc) : Prop := {
  rp_list : h_lists h !! l = Some (mkList (Some r) (blen xs));
  rp_nodup : NoDup (r :: xs);
  rp_owner : forall x, own h x = Some l <-> x ∈ r :: xs;
  rp_ring : ring h r xs
}.

(** A link of the ring and the others. *)
Lemma ring_split (r a : loc) (before after : list loc) :
  links r (before ++ a :: after) = links a before ++ (a, hd r after) :: links r after.
Proof. by rewrite links_app. Qed.

Lemma ring_others (r a : loc) (before after xs : list loc) :
  r :: xs = before ++ a :: after -> NoDup (r :: xs) ->
  Forall (fun xy => fst xy <> a /\ snd xy <> hd r after /\ fst xy ∈ r :: xs /\ snd xy ∈ r :: xs) (links a before ++ links r after).
Proof.
  intros E Hn. pose proof (links_fst r (r :: xs)) as H1. pose proof (links_snd r (r :: xs)) as H2. cbn [tail] in H2.
  assert (NoDup (map snd (links r (r :: xs)))) as N2. { rewrite H2. by rewrite <- Permutation_cons_append. }
  assert (NoDup (map fst (links r (r :: xs)))) as N1 by (by rewrite H1).
  assert (forall xy, xy ∈ links r (r :: xs) -> fst xy ∈ r :: xs /\ snd xy ∈ r :: xs) as Hin.
  { intros xy Hxy. split; [rewrite <- H1 at 1; by apply list_elem_of_fmap_2|].
    assert (snd xy ∈ xs ++ [r]) as Hs by (rewrite <- H2; by apply list_elem_of_fmap_2). set_solver. }
  rewrite E, ring_split in *. rewrite map_app in N1, N2. cbn in N1, N2. apply Forall_forall. intros xy Hxy.
  assert (xy ∈ links a before ++ (a, hd r after) :: links r after) as Hm by set_solver.
  destruct (Hin _ Hm) as [Ha Hb]. apply elem_of_app in Hxy.
  assert (fst xy ∈ map fst (links a before) \/ fst xy ∈ map fst (links r after)) as H3 by (destruct Hxy; [left|right]; by apply list_elem_of_fmap_2).
  assert (snd xy ∈ map snd (links a before) \/ snd xy ∈ map snd (links r after)) as H4 by (destruct Hxy; [left|right]; by apply list_elem_of_fmap_2).
  apply NoDup_app in N1 as (_ & N1 & N1'), N2 as (_ & N2 & N2'). apply NoDup_cons in N1' as [N1' _], N2' as [N2' _].
  split_and!; try done; intros Heq; [rewrite Heq in H3; destruct H3 as [H3|H3]; [by apply (N1 a H3); left|done]|].
  rewrite Heq in H4. destruct H4 as [H4|H4]; [by apply (N2 _ H4); left|done].
Qed.

(** What an operation on the list [l] leaves alone: the other lists and their nodes. *)
Record confined (l : loc) (h h' : heap) : Prop := {
  cf_lists : forall l', l' <> l -> h_lists h' !! l' = h_lists h !! l';
  cf_fields : forall x l', l' <> l -> own h x = Some l' \/ own h' x = Some l' -> nxt h' x = nxt h x /\ prv h' x = prv h x /\ own h' x = own h x;
  cf_nodes : forall x, exists_node h x -> exists_node h' x
}.

Lemma confined_refl (l : loc) (h : heap) : confined l h h.
Proof. by split. Qed.

Lemma confined_trans (l : loc) (h h' h'' : heap) : confined l h h' -> confined l h' h'' -> confined l h h''.
Proof.
  intros [L1 F1 N1] [L2 F2 N2]. split; [intros l' Hl; by rewrite L2, L1| |auto].
  intros x l' Hl [Ho|Ho].
  - destruct (F1 x l' Hl (or_introl Ho)) as (A1 & A2 & A3). rewrite <- A3 in Ho. destruct (F2 x l' Hl (or_introl Ho)) as (B1 & B2 & B3). split_and!; congruence.
  - destruct (F2 x l' Hl (or_intror Ho)) as (B1 & B2 & B3). rewrite B3 in Ho. destruct (F1 x l' Hl (or_intror Ho)) as (A1 & A2 & A3). split_and!; congruence.
Qed.

Lemma confined_ring (h h' : heap) (r : loc) (xs : list loc) :
  (forall x, x ∈ r :: xs -> nxt h' x = nxt h x /\ prv h' x = prv h x) -> ring h r xs -> ring h' r xs.
Proof.
  intros H. destruct xs as [|x xs]; unfold ring; [destruct (H r) as [-> ->]; [left|done]|].
  rewrite !Forall_forall. intros Hf [y z] Hyz. destruct (Hf _ Hyz) as [H1 H2]. cbn in *.
  assert (y ∈ r :: x :: xs) as Hy by (rewrite <- (links_fst r (r :: x :: xs)); by apply (list_elem_of_fmap_2 fst) in Hyz).
  assert (z ∈ (x :: xs) ++ [r]) as Hz by (change ((x :: xs) ++ [r]) with (tail (r :: x :: xs) ++ [r]); rewrite <- (links_snd r (r :: x :: xs)); by apply (list_elem_of_fmap_2 snd) in Hyz).
  unfold linked. cbn. rewrite (proj1 (H y Hy)), (proj2 (H z ltac:(set_solver))). done.
Qed.

Lemma confined_rep (l l' r : loc) (h h' : heap) (xs : list loc) : confined l h h' -> l' <> l -> rep h l' r xs -> rep h' l' r xs.
Proof.
  intros [L F N] Hl [R1 R2 R3 R4].
  assert (forall x, x ∈ r :: xs -> nxt h' x = nxt h x /\ prv h' x = prv h x /\ own h' x = own h x) as Hx
    by (intros x Hx; apply (F x l' Hl); left; by apply R3).
  split; [by rewrite L|done| |eapply confined_ring; [|done]; intros x Hx'; destruct (Hx x Hx') as (? & ? & _); done].
  intros x. rewrite <- R3. split; intros Ho.
  - destruct (F x l' Hl (or_intror Ho)) as (_ & _ & E). congruence.
  - destruct (F x l' Hl (or_introl Ho)) as (_ & _ & E). congruence.
Qed.

Lemma upd_eq (f : loc -> option loc) (x : loc) (v : option loc) : upd f x v x = v.
Proof. unfold upd. by rewrite decide_True. Qed.

Lemma upd_ne (f : loc -> option loc) (x y : loc) (v : option loc) : y <> x -> upd f x v y = f y.
Proof. unfold upd. intros H. by rewrite decide_False. Qed.

(** *** Insertion *)

(** A neighbour as [Next] and [Prev] return it: nil for the root. *)
Definition hide (r p : loc) : option loc := if decide (p = r) then None else Some p.

Lemma or_root_hide (h : heap) (l r p : loc) (k : Z) : h_lists h !! l = Some (mkList (Some r) k) -> or_root l (hide r p) h = Some (Some p, h).
Proof. intros Hl. unfold or_root, hide. destruct (decide (p = r)) as [->|]; [|done]. by rewrite (root_run _ _ _ Hl). Qed.

Lemma unless_root_hide (r p : loc) (k : Z) : unless_root (mkList (Some r) k) (Some p) = hide r p.
Proof. unfold unless_root, eq_loc, hide. cbn [li_root]. destruct (decide (p = r)) as [->|]; case_bool_decide; congruence. Qed.

Lemma next_after (h : heap) (l r a : loc) (before after xs : list loc) :
  rep h l r xs -> r :: xs = before ++ a :: after -> Next (Some a) h = Some (hide r (hd r after), h).
Proof.
  intros [R1 R2 R3 R4] E. assert (own h a = Some l) as Ho by (apply R3; rewrite E; set_solver).
  rewrite (Next_run _ _ _ _ Ho R1), <- (unless_root_hide r (hd r after) (blen xs)). do 2 f_equal. destruct xs as [|x xs].
  - destruct before as [|y [|]]; injection E as <- E; [subst after|done..]. cbn [hd].
    destruct R4 as [[->| ->] _]; [|done]. unfold unless_root, eq_loc. cbn [li_root]. by rewrite (bool_decide_eq_true_2 (Some r = Some r)).
  - unfold ring in R4. rewrite E, ring_split in R4. apply Forall_app in R4 as [_ [[Hn _] _]%Forall_cons]. cbn in Hn. by rewrite Hn.
Qed.

Lemma prev_before (h : heap) (l r p m : loc) (before after xs : list loc) :
  rep h l r xs -> r :: xs = before ++ p :: m :: after -> Prev (Some m) h = Some (hide r p, h).
Proof.
  intros [R1 R2 R3 R4] E. assert (own h m = Some l) as Ho by (apply R3; rewrite E; set_solver).
  rewrite (Prev_run _ _ _ _ Ho R1), <- (unless_root_hide r p (blen xs)). do 2 f_equal. destruct xs as [|x xs]; [by destruct before as [|? []]|].
  unfold ring in R4. rewrite E, ring_split in R4. apply Forall_app in R4 as [_ [[_ Hn] _]%Forall_cons]. cbn in Hn. by rewrite Hn.
Qed.

(** The root's own neighbour backwards is the last node. *)
Lemma prev_root (h : heap) (l r p : loc) (before xs : list loc) :
  rep h l r xs -> r :: xs = before ++ [p] -> Prev (Some r) h = Some (hide r p, h).
Proof.
  intros [R1 R2 R3 R4] E. assert (own h r = Some l) as Ho by (apply R3; left).
  rewrite (Prev_run _ _ _ _ Ho R1), <- (unless_root_hide r p (blen xs)). do 2 f_equal. destruct xs as [|x xs].
  - assert (p = r) as -> by (by destruct before as [|y [|]]; injection E as <-).
    destruct R4 as [_ [->| ->]]; [|done]. unfold unless_root, eq_loc. cbn [li_root]. by rewrite (bool_decide_eq_true_2 (Some r = Some r)).
  - unfold ring in R4. rewrite E, ring_split in R4. apply Forall_app in R4 as [_ [[_ Hn] _]%Forall_cons]. cbn in Hn. by rewrite Hn.
Qed.

Lemma hd_in (r : loc) (before after xs : list loc) (a : loc) : r :: xs = before ++ a :: after -> hd r after ∈ r :: xs.
Proof. intros E. destruct after as [|n after]; [left|]. rewrite E. cbn. set_solver. Qed.

Lemma nodup_insert (a e : loc) (before after : list loc) :
  NoDup (before ++ a :: after) -> e ∉ before ++ a :: after -> NoDup (before ++ a :: e :: after).
Proof.
  intros Hn He. assert (before ++ a :: e :: after ≡ₚ e :: before ++ a :: after) as -> by solve_Permutation. by constructor.
Qed.

(** The links of a ring but one stay when the nodes that make them keep their fields. *)
Lemma links_keep (h h' : heap) (r a : loc) (before after xs : list loc) :
  NoDup (r :: xs) -> r :: xs = before ++ a :: after -> Forall (linked h) (links a before ++ links r after) ->
  (forall x, x ∈ r :: xs -> x <> a -> nxt h' x = nxt h x) -> (forall x, x ∈ r :: xs -> x <> hd r after -> prv h' x = prv h x) ->
  Forall (linked h') (links a before ++ links r after).
Proof.
  intros Hn E Hl HN HP. pose proof (ring_others _ _ _ _ _ E Hn) as Ho.
  rewrite Forall_forall in Ho, Hl |- *. intros xy Hxy. destruct (Ho xy Hxy) as (N1 & N2 & I1 & I2), (Hl xy Hxy) as [L1 L2].
  split; [by rewrite HN|by rewrite HP].
Qed.

Lemma ring_rest (h : heap) (r a : loc) (before after xs : list loc) :
  r :: xs = before ++ a :: after -> ring h r xs -> Forall (linked h) (links a before ++ links r after).
Proof.
  intros E HR. destruct xs as [|x xs].
  - destruct before as [|y [|]]; injection E as <- E; try done. by subst.
  - unfold ring in HR. rewrite E, ring_split in HR. apply Forall_app in HR as [H1 [_ H2]%Forall_cons]. by apply Forall_app.
Qed.

Lemma ring_join (h : heap) (r a : loc) (before after xs : list loc) :
  r :: xs = before ++ a :: after -> Forall (linked h) (links a before ++ links r after) -> linked h (a, hd r after) -> ring h r xs.
Proof.
  intros E [H1 H2]%Forall_app H. destruct xs as [|x xs].
  - destruct before as [|y [|]]; injection E as <- E; try done. subst. destruct H as [? ?]. split; by right.
  - unfold ring. rewrite E, ring_split. apply Forall_app. split; [done|]. by constructor.
Qed.

Lemma rep_insert (h : heap) (l r a e : loc) (before after xs ys : list loc) :
  rep h l r xs -> r :: xs = before ++ a :: after -> r :: ys = before ++ a :: e :: after -> exists_node h e -> own h e = None ->
  exists h', insert l (Some e) (Some a) h = Some (Some e, h') /\ rep h' l r ys /\ confined l h h'.
Proof.
  intros HR E E' Hex Hfree. pose proof (next_after _ _ _ _ _ _ _ HR E) as Hnx. pose proof HR as [R1 R2 R3 R4].
  set (n := hd r after) in *. assert (own h a = Some l) as Ha by (apply R3; rewrite E; set_solver).
  assert (own h n = Some l) as Hn by (by apply R3, (hd_in r before after xs a)).
  assert (e ∉ r :: xs) as He by (intros H%R3; congruence).
  destruct (insert_run h l r a e n (blen xs) _ R1 (own_exists _ _ _ Ha) Hex (own_exists _ _ _ Hn) Hnx) as (h' & Hrun & [N P O L X]);
    [unfold hide; by destruct (decide (n = r)) as [E0|]; [rewrite E0|]|].
  exists h'. split; [done|].
  assert (forall x, x ∈ r :: ys <-> x = e \/ x ∈ r :: xs) as Hys by (intros x; rewrite E', E; set_solver).
  split; [split|split].
  - rewrite L, lookup_insert_eq. do 2 f_equal. apply (f_equal length) in E. apply (f_equal length) in E'. rewrite length_app in *. unfold blen. cbn in *. lia.
  - rewrite E'. apply nodup_insert; by rewrite <- E.
  - intros x. rewrite O, Hys. unfold upd. destruct (decide (x = e)) as [->|]; [by split; [left|]|]. rewrite R3. set_solver.
  - assert (Forall (linked h') (links a before ++ links r after)) as [Hk1 Hk2]%Forall_app.
    { apply (links_keep h h' r a before after xs); [done|done|by eapply ring_rest| |];
      intros x Hx Hne; [rewrite N|rewrite P]; (rewrite !upd_ne; [done|by intros ->..]). }
    apply (ring_join h' r a before (e :: after) ys E').
    + apply Forall_app. split; [done|]. constructor; [|done].
      split; cbn [fst snd]; [by rewrite N, upd_eq|by rewrite P, upd_eq].
    + split; cbn [fst snd hd]; [rewrite N|rewrite P]; (rewrite upd_ne, upd_eq; [done|congruence]).
  - intros l' Hl. by rewrite L, lookup_insert_ne.
  - intros x l' Hl. rewrite N, P, O. destruct (decide (x = e)) as [->|Hxe]; [rewrite Hfree, upd_eq; intros [?|?]; congruence|].
    rewrite (upd_ne (own h)) by done. intros [Ho|Ho]; (rewrite (upd_ne _ e), upd_ne, (upd_ne _ n), upd_ne by congruence; done).
  - intros x Hx. by apply X.
Qed.

(** *** Removal *)

Lemma rep_remove (h : heap) (l r p e : loc) (before after xs ys : list loc) :
  rep h l r xs -> r :: xs = before ++ p :: e :: after -> r :: ys = before ++ p :: after ->
  exists h', remove l (Some e) h = Some (Some e, h') /\ rep h' l r ys /\ confined l h h'.
Proof.
  intros HR E E'. pose proof HR as [R1 R2 R3 R4]. set (n := hd r after).
  assert (forall x, x ∈ r :: xs <-> x = e \/ x ∈ r :: ys) as Hxs by (intros x; rewrite E', E; set_solver).
  assert (NoDup (e :: r :: ys)) as [He Hys]%NoDup_cons.
  { assert (e :: r :: ys ≡ₚ r :: xs) as -> by (rewrite E, E'; solve_Permutation). done. }
  assert (p ∈ r :: ys) as Hp by (rewrite E'; set_solver).
  assert (n ∈ r :: ys) as Hn by (by apply (hd_in r before after ys p)).
  assert (r ∈ r :: ys) as Hr by left.
  assert (p <> e /\ n <> e) as [Hpe Hen] by (by split; intros Heq; [rewrite Heq in Hp|rewrite Heq in Hn]).
  assert (ring_rest_xs : Forall (linked h) (links e (before ++ [p]) ++ links r after))
    by (apply (ring_rest h r e (before ++ [p]) after xs); [by rewrite <- app_assoc|done]).
  assert (nxt h p = Some e /\ prv h e = Some p /\ nxt h e = Some n /\ prv h n = Some e) as (Lp & Le & Ln & Lnp).
  { destruct xs as [|x xs]; [by destruct before as [|? []]|]. unfold ring in R4. rewrite E, ring_split in R4.
    apply Forall_app in R4 as [_ [[? ?] [[? ?] _]%Forall_cons]%Forall_cons]. done. }
  assert (forall x, x ∈ r :: ys -> own h x = Some l) as Ho by (intros x Hx; apply R3, Hxs; by right).
  destruct (remove_run h l r p e n (blen xs) R1) as (h' & Hrun & [N P O L X]); try done;
    [by apply R3, Hxs; left|by apply Ho|by eapply own_exists, Ho|by eapply own_exists, Ho|congruence..|].
  exists h'. split; [done|]. split; [split|split].
  - rewrite L, lookup_insert_eq. do 2 f_equal. apply (f_equal length) in E. apply (f_equal length) in E'. rewrite length_app in *. unfold blen. cbn in *. lia.
  - done.
  - intros x. rewrite O. unfold upd. destruct (decide (x = e)) as [->|]; [by split|]. rewrite R3, Hxs. set_solver.
  - apply (ring_join h' r p before after ys E').
    + apply (links_keep h h' r p before after ys); [done|done| |intros x Hx Hne; rewrite N|intros x Hx Hne; rewrite P]; [|rewrite !upd_ne; [done|by intros ->..]..].
      rewrite links_app in ring_rest_xs. apply Forall_app in ring_rest_xs as [[H1 _]%Forall_app H2]. by apply Forall_app.
    + split; cbn [fst snd]; [rewrite N|rewrite P]; (fold n; rewrite upd_ne, upd_eq by done; done).
  - intros l' Hl. by rewrite L, lookup_insert_ne.
  - intros x l' Hl. rewrite N, P, O. destruct (decide (x = e)) as [->|Hxe]; [rewrite upd_eq, (proj2 (R3 e)); [intros [?|?]; congruence|by apply Hxs; left]|].
    rewrite (upd_ne (own h)) by done. intros Hox. assert (x ∉ r :: ys) as Hx by (intros Hx; apply Ho in Hx; destruct Hox; congruence).
    rewrite !upd_ne; [done|by intros ->..].
  - intros x Hx. by apply X.
Qed.

(** ** The operations on sequences *)

(** What a list is at an address: not used yet, or a root and its ring. *)
Definition represents (h : heap) (l : loc) (xs : list loc) : Prop :=
  (exists r, rep h l r xs) \/ (h_lists h !! l = Some (mkList None 0) /\ (forall x, own h x <> Some l) /\ xs = []).

Definition not_root (h : heap) (l m : loc) : Prop := forall li, h_lists h !! l = Some li -> li_root li <> Some m.

Lemma cons_snoc (r : loc) (a : list loc) : exists before p, r :: a = before ++ [p].
Proof. destruct (exists_last (l := r :: a)) as (before & p & E); [done|]. by exists before, p. Qed.

Definition without (e : loc) (xs : list loc) : list loc := filter (fun x => x <> e) xs.

Lemma without_notin (e : loc) (xs : list loc) : e ∉ xs -> without e xs = xs.
Proof.
  unfold without. induction xs as [|x xs IH]; [done|]. intros He. rewrite filter_cons_True by (intros ->; set_solver).
  f_equal. apply IH. set_solver.
Qed.

Lemma without_split (e : loc) (a b : list loc) : NoDup (a ++ e :: b) -> without e (a ++ e :: b) = a ++ b.
Proof.
  intros (_ & H1 & [H2 _]%NoDup_cons)%NoDup_app. unfold without. rewrite filter_app, filter_cons_False by (intros H; by apply H).
  f_equal; apply without_notin; [|done]. intros He. apply (H1 e He). left.
Qed.

Lemma left_free (l x : loc) (h h' : heap) : confined l h h' -> own h x = None \/ own h x = Some l -> own h' x <> Some l -> own h' x = None.
Proof.
  intros [_ F _] Hx Hn. destruct (own h' x) as [l'|] eqn:E; [|done]. destruct (decide (l' = l)) as [->|Hl]; [done|].
  destruct (F x l' Hl (or_intror E)) as (_ & _ & E'). destruct Hx; congruence.
Qed.

Lemma rep_member (h : heap) (l r m : loc) (xs : list loc) :
  rep h l r xs -> m ∈ xs -> exists a b before p, xs = a ++ m :: b /\ r :: a = before ++ [p] /\ (m ∉ a) /\ (m ∉ b) /\ m <> r.
Proof.
  intros [_ [Hr Hn]%NoDup_cons _ _] Hm. pose proof Hm as (a & b & ->)%list_elem_of_split. destruct (cons_snoc r a) as (before & p & E).
  apply NoDup_app in Hn as (_ & H1 & [H2 _]%NoDup_cons). exists a, b, before, p. split_and!; try done; [intros Ha; apply (H1 m Ha); left|by intros ->].
Qed.

Lemma remove_member (h : heap) (l r e : loc) (xs : list loc) :
  rep h l r xs -> e ∈ xs ->
  exists h', remove l (Some e) h = Some (Some e, h') /\ rep h' l r (without e xs) /\ confined l h h' /\ own h' e = None.
Proof.
  intros HR He. destruct (rep_member _ _ _ _ _ HR He) as (a & b & before & p & -> & E & Ha & Hb & Her).
  pose proof (rp_nodup _ _ _ _ HR) as [_ Hn]%NoDup_cons. rewrite without_split by done.
  destruct (rep_remove h l r p e before b (a ++ e :: b) (a ++ b) HR) as (h' & Hrun & HR' & HC);
    [by rewrite app_comm_cons, E, <- app_assoc|by rewrite app_comm_cons, E, <- app_assoc|].
  exists h'. split_and!; try done. apply (left_free l e h h' HC); [right; by apply (rp_owner _ _ _ _ HR); right|].
  intros Ho. apply (rp_owner _ _ _ _ HR') in Ho. set_solver.
Qed.

Lemma insert_after_node (h : heap) (l r p e : loc) (before a b : list loc) :
  rep h l r (a ++ b) -> r :: a = before ++ [p] -> exists_node h e -> own h e = None ->
  exists h', insert l (Some e) (Some p) h = Some (Some e, h') /\ rep h' l r (a ++ e :: b) /\ confined l h h'.
Proof. intros HR E He Hf. apply (rep_insert h l r p e before b (a ++ b)); [done|by rewrite app_comm_cons, E, <- app_assoc..|done|done]. Qed.

Lemma InsertBefore_run (h : heap) (l r m e : loc) (a b : list loc) :
  rep h l r (a ++ m :: b) -> exists_node h e -> own h e = None ->
  exists h', InsertBefore l (Some e) (Some m) h = Some (Some e, h') /\ rep h' l r (a ++ e :: m :: b) /\ confined l h h'.
Proof.
  intros HR He Hf. destruct (cons_snoc r a) as (before & p & E). unfold InsertBefore.
  assert (own h m = Some l) as Hm by (apply (rp_owner _ _ _ _ HR); set_solver).
  rewrite (bind_Some _ _ _ _ _ (list_of_run h m (own_exists _ _ _ Hm))), Hm. unfold eq_loc at 1. rewrite bool_decide_eq_true_2 by done. cbn [negb].
  rewrite (bind_Some _ _ _ _ _ (prev_before h l r p m before b _ HR ltac:(by rewrite app_comm_cons, E, <- app_assoc))).
  rewrite (bind_Some _ _ _ _ _ (or_root_hide h l r p _ (rp_list _ _ _ _ HR))). by eapply insert_after_node.
Qed.

Lemma owner_test (h : heap) (l m : loc) (xs : list loc) :
  represents h l xs -> not_root h l m -> eq_loc (own h m) (Some l) = bool_decide (m ∈ xs).
Proof.
  intros HR Hr. unfold eq_loc. apply bool_decide_ext. destruct HR as [[r HR]|(_ & H & ->)]; [|split; [by intros ?%H|set_solver]].
  rewrite (rp_owner _ _ _ _ HR). pose proof (Hr _ (rp_list _ _ _ _ HR)) as Hm. cbn in Hm. set_solver.
Qed.

Lemma lazyInit_run (h : heap) (l : loc) (xs : list loc) :
  represents h l xs ->
  exists h' r, lazyInit l h = Some (tt, h') /\ rep h' l r xs /\ confined l h h' /\ (forall x, exists_node h x -> own h' x = own h x).
Proof.
  intros [[r HR]|(Hl & Ho & ->)].
  - exists h, r. split_and!; try done. unfold lazyInit, bind, list_at. by rewrite (rp_list _ _ _ _ HR).
  - set (r := fresh (dom (h_nodes h))).
    assert (h_nodes h !! r = None) as Hr by (apply not_elem_of_dom, is_fresh).
    set (n := mkSentinel None None (Some l)).
    assert (forall x, x <> r -> <[r := n]> (<[r := mkSentinel None None None]> (h_nodes h)) !! x = h_nodes h !! x) as Hx
      by (intros x Hx; by rewrite !lookup_insert_ne).
    exists (mkHeap (<[r := n]> (<[r := mkSentinel None None None]> (h_nodes h))) (<[l := mkList (Some r) 0]> (h_lists h))), r.
    split_and!; [|split|split|].
    + unfold lazyInit, bind, list_at. rewrite Hl. cbn [li_root]. unfold Init, bind, alloc_node, SetList, bind, node. cbn [h_nodes]. fold r.
      by rewrite lookup_insert_eq.
    + by cbn [h_lists]; rewrite lookup_insert_eq.
    + apply NoDup_singleton.
    + intros x. unfold own. cbn [h_nodes]. destruct (decide (x = r)) as [->|Hn]; [rewrite lookup_insert_eq; cbn; set_solver|].
      rewrite Hx by done. split; [by intros ?%Ho|set_solver].
    + unfold ring, nxt, prv. cbn [h_nodes]. rewrite lookup_insert_eq. by split; left.
    + intros l' Hn. cbn [h_lists]. by rewrite lookup_insert_ne.
    + intros x l' Hn. unfold own, nxt, prv. cbn [h_nodes]. destruct (decide (x = r)) as [->|Hne]; [|by rewrite Hx].
      rewrite lookup_insert_eq, Hr. cbn. intros [?|?]; congruence.
    + intros x [m Hm]. unfold exists_node. cbn [h_nodes]. rewrite Hx; [by eauto|congruence].
    + intros x [m Hm]. unfold own. cbn [h_nodes]. rewrite Hx; [done|congruence].
Qed.

Inductive op :=
| OPushFront (e : loc) | OPushBack (e : loc) | OInsertBefore (e mark : loc) | OInsertAfter (e mark : loc) | ORemove (e : loc)
| OMoveToFront (e : loc) | OMoveToBack (e : loc) | OMoveBefore (e mark : loc) | OMoveAfter (e mark : loc) | OReplace (e mark : loc).

Definition no_result (m : M unit) : M (option loc) := let! _ := m in ret None.

Definition run (o : op) (l : loc) : M (option loc) :=
  match o with
  | OPushFront e => PushFront l (Some e)
  | OPushBack e => PushBack l (Some e)
  | OInsertBefore e m => InsertBefore l (Some e) (Some m)
  | OInsertAfter e m => InsertAfter l (Some e) (Some m)
  | ORemove e => Remove l (Some e)
  | OMoveToFront e => no_result (MoveToFront l (Some e))
  | OMoveToBack e => no_result (MoveToBack l (Some e))
  | OMoveBefore e m => no_result (MoveBefore l (Some e) (Some m))
  | OMoveAfter e m => no_result (MoveAfter l (Some e) (Some m))
  | OReplace e m => Replace l (Some e) (Some m)
  end.

(** The sequence with [e] before, after or in place of [m]. *)
Definition put_before (e m : loc) (xs : list loc) : list loc := xs ≫= fun x => if decide (x = m) then [e; x] else [x].
Definition put_after (e m : loc) (xs : list loc) : list loc := xs ≫= fun x => if decide (x = m) then [x; e] else [x].
Definition put_for (e m : loc) (xs : list loc) : list loc := xs ≫= fun x => if decide (x = m) then [e] else [x].

(** What an operation returns and makes of the sequence of elements; [None] is a panic. *)
Definition effect (o : op) (xs : list loc) : option (option loc * list loc) :=
  match o with
  | OPushFront e => Some (Some e, e :: xs)
  | OPushBack e => Some (Some e, xs ++ [e])
  | OInsertBefore e m => Some (if decide (m ∈ xs) then (Some e, put_before e m xs) else (None, xs))
  | OInsertAfter e m => Some (if decide (m ∈ xs) then (Some e, put_after e m xs) else (None, xs))
  | ORemove e => Some (Some e, without e xs)
  | OMoveToFront e => Some (None, if decide (e ∈ xs) then e :: without e xs else xs)
  | OMoveToBack e => Some (None, if decide (e ∈ xs) then without e xs ++ [e] else xs)
  | OMoveBefore e m => Some (None, if decide (e ∈ xs /\ e <> m /\ m ∈ xs) then put_before e m (without e xs) else xs)
  | OMoveAfter e m => Some (None, if decide (e ∈ xs /\ e <> m /\ m ∈ xs) then put_after e m (without e xs) else xs)
  | OReplace e m => if decide (m ∈ xs) then if decide (last xs = Some m) then None else Some (Some m, put_for e m xs) else Some (None, xs)
  end.

(** When an operation may be called: its nodes exist, those it adds are in no list, and
    those it refers to are not the root, which the package keeps to itself. *)
Definition free_node (h : heap) (e : loc) : Prop := exists_node h e /\ own h e = None.
Definition known (h : heap) (l m : loc) : Prop := exists_node h m /\ not_root h l m.

Definition applicable (h : heap) (l : loc) (o : op) : Prop :=
  match o with
  | OPushFront e | OPushBack e => free_node h e
  | OInsertBefore e m | OInsertAfter e m | OReplace e m => free_node h e /\ known h l m
  | ORemove e | OMoveToFront e | OMoveToBack e => known h l e
  | OMoveBefore e m | OMoveAfter e m => known h l e /\ known h l m
  end.

Lemma put_skip (m : loc) (f : loc -> list loc) (xs : list loc) : m ∉ xs -> (xs ≫= fun x => if decide (x = m) then f x else [x]) = xs.
Proof. induction xs as [|x xs IH]; [done|]. intros H. cbn. rewrite decide_False by set_solver. cbn. f_equal. apply IH. set_solver. Qed.

Lemma put_at (m : loc) (f : loc -> list loc) (a b : list loc) :
  m ∉ a -> m ∉ b -> ((a ++ m :: b) ≫= fun x => if decide (x = m) then f x else [x]) = a ++ f m ++ b.
Proof. intros Ha Hb. rewrite bind_app. cbn. rewrite decide_True by done. by rewrite !put_skip. Qed.

(** ** Refinement *)

(** An operation that returns [v] and leaves the sequence [ys]; what leaves the list is
    in no list. *)
Definition leaves (h : heap) (l : loc) (xs : list loc) (m : M (option loc)) (v : option loc) (ys : list loc) : Prop :=
  exists h', m h = Some (v, h') /\ represents h' l ys /\ confined l h h' /\ (forall x, x ∈ xs -> x ∉ ys -> own h' x = None).

Lemma represents_root (h : heap) (l m : loc) (xs : list loc) : represents h l xs -> m ∈ xs -> exists r, rep h l r xs.
Proof. intros [?|(_ & _ & ->)]; [done|]. set_solver. Qed.

Lemma leaves_rep (h h' : heap) (l r : loc) (xs ys : list loc) (m : M (option loc)) (v : option loc) :
  represents h l xs -> r ∉ xs -> m h = Some (v, h') -> rep h' l r ys -> confined l h h' -> leaves h l xs m v ys.
Proof.
  intros HR Hr Hm HR' HC. exists h'. split_and!; [done|by left; exists r|done|]. intros x Hx Hn. destruct (represents_root _ _ _ _ HR Hx) as [r0 HR0].
  apply (left_free l x h h' HC); [right; by apply (rp_owner _ _ _ _ HR0); right|]. rewrite (rp_owner _ _ _ _ HR'). set_solver.
Qed.

Lemma leaves_same (h : heap) (l : loc) (xs : list loc) (m : M (option loc)) (v : option loc) :
  represents h l xs -> m h = Some (v, h) -> leaves h l xs m v xs.
Proof. intros HR Hm. exists h. split_and!; [done|done|apply confined_refl|done]. Qed.

Lemma rep_root_notin (h : heap) (l r : loc) (xs : list loc) : rep h l r xs -> r ∉ xs.
Proof. intros HR. by pose proof (rp_nodup _ _ _ _ HR) as [? _]%NoDup_cons. Qed.

(** One step of an operation whose first computation is known. *)
Ltac step H := rewrite (bind_Some _ _ _ _ _ H).

Section Operations.
Context (h : heap) (l : loc) (xs : list loc) (HR : represents h l xs).

Lemma PushFront_leaves (e : loc) : free_node h e -> leaves h l xs (PushFront l (Some e)) (Some e) (e :: xs).
Proof.
  intros [He Hf]. destruct (lazyInit_run h l xs HR) as (h1 & r & Hi & HR1 & HC & Ho).
  destruct (insert_after_node h1 l r r e [] [] xs HR1) as (h2 & Hrun & HR2 & HC2); [done|by apply HC|by rewrite Ho|].
  apply (leaves_rep h h2 l r); [done|by eapply rep_root_notin| |done|by eapply confined_trans].
  unfold PushFront. step Hi. step (root_run _ _ _ (rp_list _ _ _ _ HR1)). done.
Qed.

Lemma PushBack_leaves (e : loc) : free_node h e -> leaves h l xs (PushBack l (Some e)) (Some e) (xs ++ [e]).
Proof.
  intros [He Hf]. destruct (lazyInit_run h l xs HR) as (h1 & r & Hi & HR1 & HC & Ho). destruct (cons_snoc r xs) as (before & p & E).
  destruct (insert_after_node h1 l r p e before xs []) as (h2 & Hrun & HR2 & HC2); [by rewrite app_nil_r|done|by apply HC|by rewrite Ho|].
  apply (leaves_rep h h2 l r); [done|by eapply rep_root_notin| |done|by eapply confined_trans].
  unfold PushBack. step Hi. step (root_run _ _ _ (rp_list _ _ _ _ HR1)). cbn [li_root]. step (prev_root _ _ _ _ _ _ HR1 E).
  by step (or_root_hide h1 l r p _ (rp_list _ _ _ _ HR1)).
Qed.

(** The guards: whether a node belongs to the list. *)
Lemma guard_in (m : loc) : known h l m -> m ∈ xs -> list_of (Some m) h = Some (own h m, h) /\ eq_loc (own h m) (Some l) = true.
Proof using HR. intros [He Hr] Hm. split; [by apply list_of_run|]. rewrite (owner_test _ _ _ _ HR Hr). by apply bool_decide_eq_true_2. Qed.

Lemma guard_out (m : loc) : known h l m -> m ∉ xs -> list_of (Some m) h = Some (own h m, h) /\ eq_loc (own h m) (Some l) = false.
Proof using HR. intros [He Hr] Hm. split; [by apply list_of_run|]. rewrite (owner_test _ _ _ _ HR Hr). by apply bool_decide_eq_false_2. Qed.

Lemma InsertBefore_leaves (e m : loc) :
  free_node h e -> known h l m ->
  leaves h l xs (InsertBefore l (Some e) (Some m)) (if decide (m ∈ xs) then Some e else None) (if decide (m ∈ xs) then put_before e m xs else xs).
Proof.
  intros [He Hf] Hm. destruct (decide (m ∈ xs)) as [Hin|Hout].
  - destruct (represents_root _ _ _ _ HR Hin) as [r HR0]. destruct (rep_member _ _ _ _ _ HR0 Hin) as (a & b & before & p & -> & E & Ha & Hb & _).
    unfold put_before. rewrite (put_at m (fun x => [e; x])) by done. destruct (InsertBefore_run _ _ _ _ _ _ _ HR0 He Hf) as (h' & Hrun & HR' & HC).
    by eapply leaves_rep; [|eapply rep_root_notin| | |].
  - destruct (guard_out m Hm Hout) as [G1 G2]. apply leaves_same; [done|]. unfold InsertBefore. step G1. by rewrite G2.
Qed.

Lemma InsertAfter_leaves (e m : loc) :
  free_node h e -> known h l m ->
  leaves h l xs (InsertAfter l (Some e) (Some m)) (if decide (m ∈ xs) then Some e else None) (if decide (m ∈ xs) then put_after e m xs else xs).
Proof.
  intros [He Hf] Hm. destruct (decide (m ∈ xs)) as [Hin|Hout].
  - destruct (guard_in m Hm Hin) as [G1 G2].
    destruct (represents_root _ _ _ _ HR Hin) as [r HR0]. destruct (rep_member _ _ _ _ _ HR0 Hin) as (a & b & before & p & -> & E & Ha & Hb & _).
    unfold put_after. rewrite (put_at m (fun x => [x; e])) by done.
    destruct (rep_insert h l r m e (r :: a) b (a ++ m :: b) (a ++ m :: e :: b) HR0) as (h' & Hrun & HR' & HC); [done..|].
    eapply leaves_rep; [done|by eapply rep_root_notin| |done|done]. unfold InsertAfter. step G1. by rewrite G2.
  - destruct (guard_out m Hm Hout) as [G1 G2]. apply leaves_same; [done|]. unfold InsertAfter. step G1. by rewrite G2.
Qed.

Lemma Remove_leaves (e : loc) : known h l e -> leaves h l xs (Remove l (Some e)) (Some e) (without e xs).
Proof.
  intros Hm. destruct (decide (e ∈ xs)) as [Hin|Hout].
  - destruct (guard_in e Hm Hin) as [G1 G2]. destruct (represents_root _ _ _ _ HR Hin) as [r HR0].
    destruct (remove_member _ _ _ _ _ HR0 Hin) as (h' & Hrun & HR' & HC & _).
    eapply leaves_rep; [done|by eapply rep_root_notin| |done|done]. unfold Remove. step G1. rewrite G2. by step Hrun.
  - destruct (guard_out e Hm Hout) as [G1 G2]. rewrite without_notin by done. apply leaves_same; [done|]. unfold Remove. step G1. by rewrite G2.
Qed.

(** The moves take the node out and put it back after another. *)
Lemma move_after (r p e : loc) (before a b : list loc) :
  rep h l r xs -> e ∈ xs -> without e xs = a ++ b -> r :: a = before ++ [p] ->
  exists h1 h2, remove l (Some e) h = Some (Some e, h1) /\ rep h1 l r (without e xs) /\ insert l (Some e) (Some p) h1 = Some (Some e, h2) /\
    rep h2 l r (a ++ e :: b) /\ confined l h h2.
Proof using.
  intros HR0 Hin E E'. destruct (remove_member _ _ _ _ _ HR0 Hin) as (h1 & Hrun & HR1 & HC & Hf).
  assert (exists_node h e) as He by (eapply own_exists, (rp_owner _ _ _ _ HR0); by right).
  destruct (insert_after_node h1 l r p e before a b) as (h2 & Hrun2 & HR2 & HC2); [by rewrite <- E|done|by apply HC|done|].
  exists h1, h2. split_and!; [done..|by eapply confined_trans].
Qed.

Lemma hide_eq (r p e : loc) : e <> r -> eq_loc (hide r p) (Some e) = bool_decide (p = e).
Proof using. intros H. unfold eq_loc, hide. apply bool_decide_ext. case_decide; split; congruence. Qed.

Lemma MoveToFront_leaves (e : loc) :
  known h l e -> leaves h l xs (no_result (MoveToFront l (Some e))) None (if decide (e ∈ xs) then e :: without e xs else xs).
Proof.
  intros Hm. unfold no_result. destruct (decide (e ∈ xs)) as [Hin|Hout].
  - destruct (guard_in e Hm Hin) as [G1 G2]. destruct (represents_root _ _ _ _ HR Hin) as [r HR0].
    pose proof (root_run _ _ _ (rp_list _ _ _ _ HR0)) as Hroot. pose proof (next_after h l r r [] xs xs HR0 eq_refl) as Hnext.
    destruct (move_after r r e [] [] (without e xs) HR0 Hin eq_refl eq_refl) as (h1 & h2 & H1 & HR1 & H2 & HR2 & HC).
    unfold MoveToFront. pose proof (hide_eq r (hd r xs) e ltac:(intros ->; by apply (rep_root_notin _ _ _ _ HR0))) as He.
    destruct (decide (hd r xs = e)) as [Hhd|Hhd].
    + assert (e :: without e xs = xs) as ->.
      { destruct xs as [|x ys]; [set_solver|]. cbn in Hhd. subst x. pose proof (rp_nodup _ _ _ _ HR0) as [_ Hn]%NoDup_cons.
        by rewrite (without_split e [] ys Hn : without e (e :: ys) = ys). }
      apply leaves_same; [done|]. unfold bind at 1. step G1. rewrite G2. cbn [negb]. step Hroot. step Hnext. by rewrite He, bool_decide_eq_true_2.
    + eapply leaves_rep; [done|by eapply rep_root_notin| |exact HR2|done]. unfold bind at 1. step G1. rewrite G2. cbn [negb]. step Hroot. step Hnext.
      rewrite He, bool_decide_eq_false_2 by done. step H1. step (root_run _ _ _ (rp_list _ _ _ _ HR1)). by step H2.
  - destruct (guard_out e Hm Hout) as [G1 G2]. apply leaves_same; [done|]. unfold MoveToFront, bind at 1. step G1. by rewrite G2.
Qed.

Lemma MoveToBack_leaves (e : loc) :
  known h l e -> leaves h l xs (no_result (MoveToBack l (Some e))) None (if decide (e ∈ xs) then without e xs ++ [e] else xs).
Proof.
  intros Hm. unfold no_result. destruct (decide (e ∈ xs)) as [Hin|Hout].
  - destruct (guard_in e Hm Hin) as [G1 G2]. destruct (represents_root _ _ _ _ HR Hin) as [r HR0]. destruct (cons_snoc r xs) as (before & p & E).
    pose proof (root_run _ _ _ (rp_list _ _ _ _ HR0)) as Hroot. pose proof (prev_root _ _ _ _ _ _ HR0 E) as Hprev.
    pose proof (or_root_hide h l r p _ (rp_list _ _ _ _ HR0)) as Hor. pose proof (rp_nodup _ _ _ _ HR0) as Hn.
    assert (e <> r) as Her by (intros ->; by apply (rep_root_notin _ _ _ _ HR0)).
    unfold MoveToBack. pose proof (hide_eq r p e Her) as He. destruct (decide (p = e)) as [->|Hp].
    + assert (without e xs ++ [e] = xs) as ->.
      { destruct before as [|y before]; injection E as -> ->; [done|]. apply NoDup_cons in Hn as [_ Hn]. by rewrite without_split, app_nil_r. }
      apply leaves_same; [done|]. unfold bind at 1. step G1. rewrite G2. cbn [negb]. step Hroot. step Hprev. by rewrite He, bool_decide_eq_true_2.
    + destruct (move_after r p e (without e before) (without e xs) [] HR0 Hin) as (h1 & h2 & H1 & HR1 & H2 & HR2 & HC); [by rewrite app_nil_r| |].
      { unfold without. rewrite <- (filter_cons_True _ r xs) by done. rewrite E, filter_app, (filter_cons_True _ p []) by done. done. }
      eapply leaves_rep; [done|by eapply rep_root_notin| |exact HR2|done]. unfold bind at 1. step G1. rewrite G2. cbn [negb]. step Hroot. cbn [li_root]. step Hprev.
      rewrite He, bool_decide_eq_false_2 by done. step Hprev. step Hor. step H1. by step H2.
  - destruct (guard_out e Hm Hout) as [G1 G2]. apply leaves_same; [done|]. unfold MoveToBack, bind at 1. step G1. by rewrite G2.
Qed.

Lemma movable_run (e m : loc) : known h l e -> known h l m -> movable l (Some e) (Some m) h = Some (bool_decide (e ∈ xs /\ e <> m /\ m ∈ xs), h).
Proof.
  intros [He He'] [Hm Hm']. unfold movable. step (list_of_run h e He). rewrite (owner_test _ _ _ _ HR He').
  destruct (decide (e ∈ xs)) as [Hin|Hin]; [|rewrite !(bool_decide_eq_false_2 (e ∈ xs)), (bool_decide_eq_false_2 (_ /\ _)) by tauto; done].
  rewrite (bool_decide_eq_true_2 (e ∈ xs)) by done. cbn [negb orb]. unfold eq_loc at 1.
  destruct (decide (e = m)) as [->|Hn]; [rewrite bool_decide_eq_true_2, bool_decide_eq_false_2 by tauto; done|].
  rewrite bool_decide_eq_false_2 by congruence. step (list_of_run h m Hm). rewrite (owner_test _ _ _ _ HR Hm'). unfold ret. do 2 f_equal. apply bool_decide_ext. tauto.
Qed.

Lemma without_around (e m : loc) (a b : list loc) : e <> m -> without e (a ++ m :: b) = without e a ++ m :: without e b.
Proof using. intros H. unfold without. by rewrite filter_app, filter_cons_True. Qed.

Lemma without_in (e m : loc) (a : list loc) : m ∉ a -> m ∉ without e a.
Proof using. unfold without. rewrite list_elem_of_filter. tauto. Qed.

Lemma MoveAfter_leaves (e m : loc) :
  known h l e -> known h l m ->
  leaves h l xs (no_result (MoveAfter l (Some e) (Some m))) None (if decide (e ∈ xs /\ e <> m /\ m ∈ xs) then put_after e m (without e xs) else xs).
Proof.
  intros He Hm. unfold no_result, MoveAfter. pose proof (movable_run e m He Hm) as HG. destruct (decide (e ∈ xs /\ e <> m /\ m ∈ xs)) as [Hg|Hg]; [rewrite (bool_decide_eq_true_2 _ Hg) in HG|rewrite (bool_decide_eq_false_2 _ Hg) in HG].
  - destruct Hg as (Hin & Hne & Hmi). destruct (represents_root _ _ _ _ HR Hin) as [r HR0].
    destruct (rep_member _ _ _ _ _ HR0 Hmi) as (a & b & before & p & Exs & E & Ha & Hb & _). rewrite Exs, without_around by done.
    unfold put_after. rewrite (put_at m (fun x => [x; e])) by (by apply without_in).
    destruct (move_after r m e (r :: without e a) (without e a ++ [m]) (without e b) HR0 Hin) as (h1 & h2 & H1 & HR1 & H2 & HR2 & HC);
      [by rewrite Exs, without_around, <- app_assoc|done|]. rewrite <- app_assoc in HR2. rewrite <- Exs.
    eapply leaves_rep; [done|by eapply rep_root_notin| |exact HR2|done]. unfold bind at 1. step HG. cbn [negb]. step H1. by step H2.
  - apply leaves_same; [done|]. unfold bind at 1. by step HG.
Qed.

Lemma MoveBefore_leaves (e m : loc) :
  known h l e -> known h l m ->
  leaves h l xs (no_result (MoveBefore l (Some e) (Some m))) None (if decide (e ∈ xs /\ e <> m /\ m ∈ xs) then put_before e m (without e xs) else xs).
Proof.
  intros He Hm. unfold no_result, MoveBefore. pose proof (movable_run e m He Hm) as HG. destruct (decide (e ∈ xs /\ e <> m /\ m ∈ xs)) as [Hg|Hg]; [rewrite (bool_decide_eq_true_2 _ Hg) in HG|rewrite (bool_decide_eq_false_2 _ Hg) in HG].
  - destruct Hg as (Hin & Hne & Hmi). destruct (represents_root _ _ _ _ HR Hin) as [r HR0]. pose proof (rp_nodup _ _ _ _ HR0) as [_ Hn]%NoDup_cons.
    destruct (rep_member _ _ _ _ _ HR0 Hmi) as (a & b & before & p & Exs & E & Ha & Hb & _).
    assert (e <> r) as Her by (intros ->; by apply (rep_root_notin _ _ _ _ HR0)).
    pose proof (prev_before h l r p m before b xs HR0 ltac:(by rewrite Exs, app_comm_cons, E, <- app_assoc)) as Hprev.
    pose proof (or_root_hide h l r p _ (rp_list _ _ _ _ HR0)) as Hor.
    assert (put_before e m (without e xs) = without e a ++ e :: m :: without e b) as ->
      by (rewrite Exs, without_around by done; by apply (put_at m (fun x => [e; x])); apply without_in).
    destruct (decide (p = e)) as [->|Hp].
    + destruct before as [|y before]; injection E as -> ->; [done|].
      assert (without e (before ++ [e]) ++ e :: m :: without e b = xs) as ->.
      { rewrite Exs in Hn |- *. pose proof Hn as (Hn1 & _)%NoDup_app. rewrite <- app_assoc in Hn |- *. cbn [app] in Hn |- *. rewrite without_split; [rewrite app_nil_r|].
        - do 4 f_equal. apply without_notin. apply NoDup_app in Hn as (_ & _ & [Hn _]%NoDup_cons). set_solver.
        - done. }
      apply leaves_same; [done|]. unfold bind at 1. step HG. cbn [negb]. step Hprev. step Hor. unfold eq_loc. by rewrite bool_decide_eq_true_2.
    + destruct (move_after r p e (without e before) (without e a) (m :: without e b) HR0 Hin) as (h1 & h2 & H1 & HR1 & H2 & HR2 & HC);
        [by rewrite Exs, without_around| |].
      { unfold without. rewrite <- (filter_cons_True _ r a) by done. rewrite E, filter_app, (filter_cons_True _ p []) by done. done. }
      eapply leaves_rep; [done|by eapply rep_root_notin| |exact HR2|done]. unfold bind at 1. step HG. cbn [negb]. step Hprev. step Hor.
      unfold eq_loc. rewrite bool_decide_eq_false_2 by congruence. step H1. by step H2.
  - apply leaves_same; [done|]. unfold bind at 1. by step HG.
Qed.

Lemma Replace_leaves (e m : loc) :
  free_node h e -> known h l m ->
  match effect (OReplace e m) xs with
  | Some (v, ys) => leaves h l xs (Replace l (Some e) (Some m)) v ys
  | None => Replace l (Some e) (Some m) h = None
  end.
Proof.
  intros [He Hf] Hm. cbn [effect]. destruct (decide (m ∈ xs)) as [Hin|Hout].
  - destruct (guard_in m Hm Hin) as [G1 G2]. destruct (represents_root _ _ _ _ HR Hin) as [r HR0].
    destruct (rep_member _ _ _ _ _ HR0 Hin) as (a & b & before & p & Exs & E & Ha & Hb & Hmr). pose proof (rp_nodup _ _ _ _ HR0) as [_ Hn]%NoDup_cons.
    destruct (remove_member _ _ _ _ _ HR0 Hin) as (h1 & Hrun & HR1 & HC & Hfm).
    pose proof (next_after h l r m (r :: a) b xs HR0 ltac:(by rewrite Exs)) as Hnext.
    assert (Remove l (Some m) h = Some (Some m, h1)) as Hrem by (unfold Remove; step G1; rewrite G2; by step Hrun).
    unfold Replace. destruct b as [|x b].
    + rewrite decide_True by (by rewrite Exs, last_snoc). step G1. rewrite G2. cbn [negb]. step Hnext. unfold hide. cbn [hd]. rewrite decide_True by done. by step Hrem.
    + rewrite decide_False.
      2:{ rewrite Exs, last_app, last_cons_cons. destruct (last (x :: b)) as [z|] eqn:Ez; [|by apply last_None in Ez].
          intros [= ->]. by apply last_Some_elem_of in Ez. }
      rewrite Exs in HR1, Hn. rewrite without_split in HR1 by done.
      assert (own h1 e = None) as Hf1.
      { apply (left_free l e h h1 HC); [by left|]. rewrite (rp_owner _ _ _ _ HR1). intros Hx.
        assert (own h e = Some l); [|congruence]. apply (rp_owner _ _ _ _ HR0). rewrite Exs. set_solver. }
      destruct (InsertBefore_run _ _ _ _ e _ _ HR1) as (h2 & Hins & HR2 & HC2); [by apply HC|done|].
      unfold put_for. rewrite Exs, (put_at m (fun _ => [e])) by done. rewrite <- Exs.
      eapply leaves_rep; [done|by eapply rep_root_notin| |exact HR2|by eapply confined_trans]. step G1. rewrite G2. cbn [negb]. step Hnext. unfold hide. cbn [hd].
      rewrite decide_False; [step Hrem; by step Hins|]. intros ->. apply (rep_root_notin _ _ _ _ HR0). rewrite Exs. set_solver.
  - destruct (guard_out m Hm Hout) as [G1 G2]. apply leaves_same; [done|]. unfold Replace. step G1. by rewrite G2.
Qed.

End Operations.

(** C32. The lists of container/list refine sequences.  An operation whose elements
    exist, whose new element is in no list and whose marks are not the hidden root
    returns what the abstract operation returns and leaves the list representing the
    sequence it makes: forward and backward links agree, the length is the number of
    elements, exactly the elements and the root are owned by the list.  No other list
    or element of another list changes, and an element that leaves the list is in none.
    The one panic is [Replace] of the last element. *)
Theorem list_refines (h : heap) (l : loc) (xs : list loc) (o : op) :
  represents h l xs -> applicable h l o ->
  match effect o xs with
  | Some (v, ys) => leaves h l xs (run o l) v ys
  | None => run o l h = None
  end.
Proof.
  intros HR Ha. destruct o as [e|e|e m|e m|e|e|e|e m|e m|e m]; cbn [applicable] in Ha; cbn [effect run].
  - by apply PushFront_leaves.
  - by apply PushBack_leaves.
  - pose proof (InsertBefore_leaves h l xs HR e m (proj1 Ha) (proj2 Ha)) as H. by destruct (decide (m ∈ xs)).
  - pose proof (InsertAfter_leaves h l xs HR e m (proj1 Ha) (proj2 Ha)) as H. by destruct (decide (m ∈ xs)).
  - by apply Remove_leaves.
  - by apply MoveToFront_leaves.
  - by apply MoveToBack_leaves.
  - apply MoveBefore_leaves; [done|apply Ha..].
  - apply MoveAfter_leaves; [done|apply Ha..].
  - apply Replace_leaves; [done|apply Ha..].
Qed.

(** A list at 1 with the root 1 and the elements 2, 3 and 4, and an element 5 in no list. *)
Definition sample : heap :=
  mkHeap (list_to_map [(1%positive, mkSentinel (Some 2%positive) (Some 4%positive) (Some 1%positive));
                       (2%positive, mkSentinel (Some 3%positive) (Some 1%positive) (Some 1%positive));
                       (3%positive, mkSentinel (Some 4%positive) (Some 2%positive) (Some 1%positive));
                       (4%positive, mkSentinel (Some 1%positive) (Some 3%positive) (Some 1%positive));
                       (5%positive, mkSentinel None None None)])
    {[1%positive := mkList (Some 1%positive) 3]}.

Lemma sample_represents : represents sample 1 [2; 3; 4]%positive.
Proof.
  left. exists 1%positive. split; [done|repeat constructor; set_solver| |by repeat constructor].
  intros x. unfold own. cbn [sample h_nodes list_to_map foldr]. split.
  - intros Hx. destruct (decide (x ∈ [1; 2; 3; 4; 5]%positive)) as [Hin|Hout].
    + rewrite !elem_of_cons in Hin. destruct Hin as [->|[->|[->|[->|[->|[]%elem_of_nil]]]]]; [set_solver..|done].
    + cbn in Hx. by rewrite !lookup_insert_ne, lookup_empty in Hx by set_solver.
  - rewrite !elem_of_cons. intros [->|[->|[->|[->|[]%elem_of_nil]]]]; done.
Qed.

Lemma list_refines_witness :
  leaves sample 1 [2; 3; 4]%positive (run (OMoveToFront 3) 1) None [3; 2; 4]%positive /\
  leaves sample 1 [2; 3; 4]%positive (run (OReplace 5 2) 1) (Some 2%positive) [5; 3; 4]%positive /\ run (OReplace 5 4) 1 sample = None.
Proof.
  assert (forall m, m ∈ [2; 3; 4]%positive -> known sample 1 m) as Hk.
  { intros m. rewrite !elem_of_cons. intros [->|[->|[->|[]%elem_of_nil]]]; (split; [by eexists|]); intros li; cbn; by intros [= <-]. }
  assert (free_node sample 5) as Hf by (split; [by eexists|done]).
  split_and!.
  - exact (list_refines sample 1 [2; 3; 4]%positive (OMoveToFront 3) sample_represents (Hk 3%positive ltac:(set_solver))).
  - exact (list_refines sample 1 [2; 3; 4]%positive (OReplace 5 2) sample_represents (conj Hf (Hk 2%positive ltac:(set_solver)))).
  - exact (list_refines sample 1 [2; 3; 4]%positive (OReplace 5 4) sample_represents (conj Hf (Hk 4%positive ltac:(set_solver)))).
Defined.

(** ** Searching *)

(** The elements from [s] on, and those up to and including [t]. *)
Fixpoint from (s : loc) (xs : list loc) : list loc :=
  match xs with
  | [] => []
  | x :: ys => if decide (x = s) then xs else from s ys
  end.

Fixpoint upto (t : loc) (xs : list loc) : list loc :=
  match xs with
  | [] => []
  | x :: ys => x :: if decide (x = t) then [] else upto t ys
  end.

Lemma from_split (s : loc) (xs : list loc) : s ∈ xs -> exists a b, xs = a ++ s :: b /\ from s xs = s :: b.
Proof.
  induction xs as [|x xs IH]; [set_solver|]. intros Hs. cbn. destruct (decide (x = s)) as [->|]; [by exists [], xs|].
  destruct IH as (a & b & -> & E); [set_solver|]. by exists (x :: a), b.
Qed.

Section Find.
Context (h : heap) (l r t : loc) (xs : list loc) (HR : rep h l r xs) (Ht : t ∈ xs) (finder : option loc -> bool).

(** What a pass over [ys] finds: an element, nothing up to [t], or that [t] is not among them. *)
Fixpoint scan (ys : list loc) : option (option loc) :=
  match ys with
  | [] => None
  | x :: ys => if finder (Some x) then Some (Some x) else if decide (x = t) then Some None else scan ys
  end.

Lemma scan_find (ys : list loc) : t ∈ ys -> scan ys = Some (List.find (fun x => finder (Some x)) (upto t ys)).
Proof using.
  induction ys as [|x ys IH]; [by intros ?%elem_of_nil|]. intros Hy. cbn. destruct (finder (Some x)) eqn:E; [done|].
  destruct (decide (x = t)) as [->|Hn]; [done|]. apply elem_of_cons in Hy as [<-|Hy]; [done|by apply IH].
Qed.

Lemma scan_app (ys zs : list loc) : scan (ys ++ zs) = match scan ys with Some v => Some v | None => scan zs end.
Proof using. induction ys as [|x ys IH]; [done|]. cbn. destruct (finder (Some x)); [done|]. by destruct (decide (x = t)). Qed.

Lemma forward_pass (a b : list loc) (saw : bool) (fuel : nat) :
  xs = a ++ b ->
  find_forward (length b + fuel) l (Some t) finder saw (head b) h =
  match scan b with Some v => Some (Some v, h) | None => find_forward fuel l (Some t) finder saw None h end.
Proof using HR.
  revert a. induction b as [|x b IH]; intros a E; [done|]. cbn [length Nat.add find_forward head scan].
  change (eq_loc (Some x) None) with false. cbn [andb orb]. rewrite (bind_Some (ret (Some x)) _ h h _ eq_refl). destruct (finder (Some x)) eqn:Ef; [done|].
  unfold eq_loc at 1. destruct (decide (x = t)) as [->|Hn]; [by rewrite bool_decide_eq_true_2|].
  rewrite bool_decide_eq_false_2 by congruence. rewrite (bind_Some _ _ _ _ _ (next_after h l r x (r :: a) b xs HR ltac:(by rewrite E))).
  rewrite <- (IH (a ++ [x])) by (by rewrite <- app_assoc). f_equal. destruct b as [|y b]; cbn; unfold hide; [by rewrite decide_True|].
  rewrite decide_False; [done|]. intros ->. apply (rep_root_notin _ _ _ _ HR). rewrite E. apply elem_of_app. right. apply elem_of_cons. right. left.
Qed.

Lemma front_run : Front l h = Some (head xs, h).
Proof using HR Ht.
  unfold Front, bind, list_at. rewrite (rp_list _ _ _ _ HR). cbn [li_len li_root]. destruct xs as [|x ys] eqn:E; [set_solver|].
  rewrite (proj2 (Z.eqb_neq _ _)) by (unfold blen; cbn; lia). rewrite (next_after h l r r [] (x :: ys) (x :: ys) HR eq_refl). cbn [hd head]. unfold hide.
  rewrite decide_False; [done|]. intros ->. apply (rep_root_notin _ _ _ _ HR). left.
Qed.

Lemma back_run : Back l h = Some (last xs, h).
Proof using HR Ht.
  unfold Back, bind, list_at. rewrite (rp_list _ _ _ _ HR). cbn [li_len li_root]. destruct (cons_snoc r xs) as (before & p & E).
  destruct before as [|y before]; injection E as -> E; [rewrite E in Ht; set_solver|].
  rewrite (proj2 (Z.eqb_neq _ _)) by (unfold blen; rewrite E, length_app; cbn; lia).
  rewrite (prev_root h l y p (y :: before) xs HR ltac:(by rewrite E)), E, last_snoc. unfold hide.
  rewrite decide_False; [done|]. intros ->. apply (rep_root_notin _ _ _ _ HR). rewrite E. set_solver.
Qed.

(** At the end of the list the search goes on at its front. *)
Lemma forward_wraps (fuel : nat) : find_forward (S fuel) l (Some t) finder false None h = find_forward (S fuel) l (Some t) finder true (head xs) h.
Proof using HR Ht.
  cbn [find_forward]. change (eq_loc None None) with true. cbn [andb orb]. step front_run. assert (exists x, head xs = Some x) as [x ->].
  { destruct xs as [|x ys]; [set_solver|by exists x]. }
  done.
Qed.

Lemma find_forward_run (s : loc) (fuel : nat) :
  s ∈ xs -> (2 * length xs < fuel)%nat ->
  find_forward fuel l (Some t) finder false (Some s) h = Some (Some (List.find (fun x => finder (Some x)) (upto t (from s xs ++ xs))), h).
Proof using HR Ht.
  intros Hs Hf. destruct (from_split s xs Hs) as (a & b & E & Eb). rewrite Eb.
  assert (length xs = length a + length (s :: b))%nat as El by (by rewrite E, length_app).
  replace fuel with (length (s :: b) + (fuel - length (s :: b)))%nat by lia. change (Some s) with (head (s :: b)).
  rewrite (forward_pass a (s :: b) false _ E). pose proof (scan_find ((s :: b) ++ xs) ltac:(set_solver)) as Hscan. rewrite scan_app in Hscan.
  destruct (scan (s :: b)) as [v|]; [by injection Hscan as ->|].
  destruct (fuel - length (s :: b))%nat as [|n] eqn:En; [lia|]. rewrite forward_wraps.
  replace (S n) with (length xs + (S n - length xs))%nat by lia. rewrite (forward_pass [] xs true _ eq_refl). by rewrite Hscan.
Qed.

(** Backwards the list is its reverse. *)
Lemma prev_rev (x : loc) (zs ys : list loc) : rev xs = zs ++ x :: ys -> Prev (Some x) h = Some (head ys, h).
Proof using HR.
  intros E. apply (f_equal (@rev loc)) in E. rewrite rev_involutive, rev_app_distr in E. cbn [rev] in E. rewrite <- app_assoc in E. cbn [app] in E.
  destruct ys as [|y ys].
  - rewrite (prev_before h l r r x [] (rev zs) xs HR) by (by rewrite E). unfold hide. by rewrite decide_True.
  - cbn [rev] in E. rewrite (prev_before h l r y x (r :: rev ys) (rev zs) xs HR) by (rewrite E, <- app_assoc; done).
    unfold hide. rewrite decide_False; [done|]. intros ->. apply (rep_root_notin _ _ _ _ HR). rewrite E. apply elem_of_app. left. apply elem_of_app. right. left.
Qed.

Lemma backward_pass (u d zs : list loc) (fuel : nat) :
  rev xs = zs ++ u ++ t :: d ->
  exists v, scan (u ++ t :: d) = Some v /\ find_backward (length u + S (S fuel)) (Some t) finder (head (u ++ t :: d)) h = Some (Some v, h).
Proof using HR Ht.
  intros E. assert (NoDup (u ++ t :: d)) as Hn.
  { pose proof (rp_nodup _ _ _ _ HR) as [_ Hn]%NoDup_cons. assert (NoDup (rev xs)) as Hr by (by rewrite <- Permutation_rev).
    rewrite E in Hr. by apply NoDup_app in Hr as (_ & _ & ?). }
  assert (Prev (Some t) h = Some (head d, h)) as Hp by (apply (prev_rev t (zs ++ u)); by rewrite <- app_assoc).
  revert zs E. induction u as [|x u IH]; intros zs E.
  - cbn [app length Nat.add head scan find_backward]. step Hp. unfold eq_loc at 1.
    assert (Some t <> head d) as Hd by (intros Hd; destruct d as [|y d]; [done|]; injection Hd as ->; apply NoDup_cons in Hn as [Hn _]; apply Hn; left).
    rewrite bool_decide_eq_false_2 by done. destruct (finder (Some t)); [by eexists|]. rewrite decide_True by done. exists None. split; [done|].
    step Hp. step Hp. unfold eq_loc. by rewrite bool_decide_eq_true_2.
  - cbn [app length Nat.add head scan find_backward]. step Hp. unfold eq_loc at 1. apply NoDup_cons in Hn as [Hx Hn].
    assert (x <> t) as Hxt by (intros ->; apply Hx, elem_of_app; right; left).
    rewrite bool_decide_eq_false_2.
    2:{ intros Hd. destruct d as [|y d]; [done|]. injection Hd as ->. apply Hx, elem_of_app. right. right. left. }
    destruct (finder (Some x)); [by eexists|]. rewrite decide_False by done.
    step (prev_rev x zs (u ++ t :: d) E). apply (IH Hn (zs ++ [x])). by rewrite E, <- app_assoc.
Qed.

Lemma find_backward_run (s : loc) (fuel : nat) :
  s ∈ xs -> t ∈ from s (rev xs) -> (length xs < fuel)%nat ->
  find_backward fuel (Some t) finder (Some s) h = Some (Some (List.find (fun x => finder (Some x)) (upto t (from s (rev xs)))), h).
Proof using HR Ht.
  intros Hs Hin Hf. destruct (from_split s (rev xs)) as (a & b & E & Eb); [by rewrite <- Permutation_rev|].
  pose proof (scan_find _ Hin) as Hscan. rewrite Eb in Hin, Hscan |- *. pose proof Hin as (u & d & Ed)%list_elem_of_split. rewrite Ed in E, Hscan.
  assert (length xs = length a + (length u + S (length d)))%nat as El by (rewrite <- length_rev, E, !length_app; cbn; lia).
  destruct (backward_pass u d a (fuel - length u - 2) E) as (v & Hv & Hrun). rewrite Hscan in Hv. injection Hv as <-. rewrite <- Ed in Hrun.
  cbn [head] in Hrun. rewrite <- Hrun. f_equal. lia.
Qed.

End Find.

Definition or_default (e : option loc) (d : option loc) : option loc := match e with Some _ => e | None => d end.

(** The searches of a list that is not empty end, with enough fuel, and find what
    the comments promise.  A forward search visits the elements from [start] on and,
    past the end of the list, those from its front, up to and including [end]; it
    returns the first that the finder accepts, or nil.  A backward search visits the
    elements from [start] down to [end] when [end] is not after [start].  A nil start or
    end stands for the first or last element in the order of the search. *)
Lemma FindElement_finds (h : heap) (l : loc) (xs : list loc) (s t : loc) (start last : option loc) (finder : option loc -> bool) (fuel : nat) :
  represents h l xs -> s ∈ xs -> t ∈ xs -> (2 * length xs < fuel)%nat ->
  (or_default start (head xs) = Some s -> or_default last (list.last xs) = Some t ->
   FindElementForward fuel l start last finder h = Some (Some (List.find (fun x => finder (Some x)) (upto t (from s xs ++ xs))), h)) /\
  (or_default start (list.last xs) = Some s -> or_default last (head xs) = Some t -> t ∈ from s (rev xs) ->
   FindElementBackward fuel l start last finder h = Some (Some (List.find (fun x => finder (Some x)) (upto t (from s (rev xs)))), h)).
Proof.
  intros HR Hs Ht Hf. destruct (represents_root _ _ _ _ HR Hs) as [r HR0].
  assert (forall x, x ∈ xs -> own h x = Some l) as Ho by (intros x Hx; apply (rp_owner _ _ _ _ HR0); by right).
  assert (forall x, x ∈ xs -> list_of (Some x) h = Some (Some l, h)) as Hl by (intros x Hx; rewrite list_of_run; [by rewrite Ho|by eapply own_exists, Ho]).
  assert (Len l h = Some (blen xs, h)) as Hlen by (unfold Len, bind, list_at; by rewrite (rp_list _ _ _ _ HR0)).
  assert ((blen xs =? 0) = false) as Hz by (destruct xs; [set_solver|]; apply Z.eqb_neq; unfold blen; cbn; lia).
  assert (eq_loc (Some l) (Some l) = true) as He by (unfold eq_loc; by rewrite bool_decide_eq_true_2).
  pose proof (front_run _ _ _ _ _ HR0 Ht) as HF. pose proof (back_run _ _ _ _ _ HR0 Ht) as HB.
  assert (forall e (m : M (option loc)) d, m h = Some (d, h) -> match e with Some _ => ret e | None => m end h = Some (or_default e d, h)) as Hd
    by (intros [e|] m d Hm; done).
  split; [intros E1 E2|intros E1 E2 Hin].
  - unfold FindElementForward. step Hlen. rewrite Hz. step (Hd start _ _ HF). step (Hd last _ _ HB). rewrite E1, E2. step (Hl s Hs). step (Hl t Ht).
    rewrite He. cbn [negb orb]. by eapply find_forward_run.
  - unfold FindElementBackward. step Hlen. rewrite Hz. step (Hd start _ _ HB). step (Hd last _ _ HF). rewrite E1, E2. step (Hl s Hs). step (Hl t Ht).
    rewrite He. cbn [negb orb]. eapply find_backward_run; [done..|lia].
Qed.

