(* ===== verification/LockStore.v ===== *)
(** * ogc/wfs/lockstore.go, lockfeature.go: WFS feature locks

    The LockStore interface as a class with its laws over an abstract set of
    leases, the in-memory and the SQL store as its instances, and the theorems
    about any store: mutual exclusion over every history, stability of a granted
    lease, agreement of the two stores.

    Times are nanoseconds; the clock reading and the random lock identifier are
    arguments of the operations.  The SQL store works on two tables; [healthy]
    says whether the database executes every statement the operation issues; it is
    false for a lost connection and for an identifier the driver cannot bind. *)

From S2P Require Import Prelude GoText.

#[local] Open Scope Z_scope.

(** stripPrefix of transaction.go: what follows the first colon. *)
Fixpoint stripPrefix_from (s : gostring) : option gostring :=
  match s with
  | [] => None
  | c :: s' => if Ascii.eqb c ":" then Some s' else stripPrefix_from s'
  end.

Definition stripPrefix (qname : gostring) : gostring := default qname (stripPrefix_from qname).

Definition normalizeTypeName (tn : gostring) : gostring := stripPrefix tn.

Record FeatureLock := mkLock {
  lk_id : gostring; lk_type : gostring; lk_ids : list Z; lk_owner : gostring;
  lk_acquired : Z; lk_expires : Z
}.

#[export] Instance FeatureLock_eq_dec : EqDecision FeatureLock.
Proof. solve_decision. Defined.

Inductive exception_code := InvalidParameterValue | NoApplicableCode.

#[export] Instance exception_code_eq_dec : EqDecision exception_code.
Proof. solve_decision. Defined.

(** What Acquire returns: a lock, nil for a conflict, or an error. *)
Inductive acquired :=
| Granted (lock : FeatureLock)
| Conflict
| Failed.

Definition default_expiry : Z := 5 * 60 * 10 ^ 9.

Definition expiry_or_default (expiry : Z) : Z := if expiry <=? 0 then default_expiry else expiry.

(** ** The abstract store: leases by identifier *)

Record lease := mkLease {
  ls_features : gset (gostring * Z); ls_expires : Z
}.

Abbreviation leases := (gmap gostring lease).

(** A lease covers features, given by normalized type name and identifier. *)
Definition covers (l : lease) (typeName : gostring) (id : Z) : Prop :=
  (normalizeTypeName typeName, id) ∈ ls_features l.

#[export] Instance covers_dec (l : lease) (t : gostring) (id : Z) : Decision (covers l t id).
Proof. unfold covers. apply _. Defined.

(** The leases that have not expired at a time. *)
Definition live (now : Z) (a : leases) : leases := filter (fun kl => now <= ls_expires (snd kl)) a.

Definition lease_of (l : FeatureLock) : lease :=
  mkLease (list_to_set (map (pair (normalizeTypeName (lk_type l))) (lk_ids l))) (lk_expires l).

(** Some live lease covers the feature. *)
Definition locked (now : Z) (a : leases) (typeName : gostring) (id : Z) : Prop :=
  exists k l, live now a !! k = Some l /\ covers l typeName id.

(** The lock that a successful Acquire returns. *)
Definition new_lock (now : Z) (lockID typeName : gostring) (ids : list Z) (owner : gostring)
    (expiry : Z) : FeatureLock :=
  mkLock lockID typeName ids owner now (now + expiry_or_default expiry).

(** ** The interface

    [leases_of] is the abstraction; the laws say what each operation does to the
    leases and what it answers.  A store may forget expired leases at any time. *)

Class LockStore (S : Type) := {
  leases_of : S -> leases;
  store_ok : S -> Prop;
  empty_store : S;
  store_acquire : S -> bool -> Z -> gostring -> gostring -> list Z -> gostring -> Z -> S * acquired;
  store_release : S -> bool -> gostring -> S * bool;
  store_check : S -> bool -> Z -> gostring -> gostring -> Z -> S * option exception_code;
  store_locked : S -> bool -> Z -> gostring -> Z -> bool;

  empty_ok : store_ok empty_store /\ leases_of empty_store = ∅;

  acquire_law s healthy now lockID typeName ids owner expiry :
    store_ok s -> leases_of s !! lockID = None ->
    let '(s', r) := store_acquire s healthy now lockID typeName ids owner expiry in
    store_ok s' /\
    match r with
    | Granted lock =>
        lock = new_lock now lockID typeName ids owner expiry
        /\ (forall id, id ∈ ids -> ~ locked now (leases_of s) typeName id)
        /\ leases_of s' = <[lockID := lease_of lock]> (live now (leases_of s))
    | Conflict =>
        (exists id, id ∈ ids /\ locked now (leases_of s) typeName id)
        /\ leases_of s' ⊆ leases_of s /\ live now (leases_of s') = live now (leases_of s)
    | Failed => (healthy = false \/ ~ NoDup ids) /\ leases_of s' = leases_of s
    end;

  release_law s healthy lockID :
    store_ok s ->
    let '(s', ok) := store_release s healthy lockID in
    store_ok s' /\ (healthy = true -> ok = true)
    /\ leases_of s' = if ok then delete lockID (leases_of s) else leases_of s;

  check_law s healthy now lockID typeName id :
    store_ok s ->
    let '(s', r) := store_check s healthy now lockID typeName id in
    store_ok s' /\ leases_of s' ⊆ leases_of s /\ live now (leases_of s') = live now (leases_of s)
    /\ (r = None -> exists l, live now (leases_of s) !! lockID = Some l /\ covers l typeName id)
    /\ (healthy = true ->
        (exists l, live now (leases_of s) !! lockID = Some l /\ covers l typeName id) -> r = None);

  islocked_law s healthy now typeName id :
    store_ok s ->
    (locked now (leases_of s) typeName id -> store_locked s healthy now typeName id = true)
    /\ (healthy = true -> store_locked s healthy now typeName id = true ->
        locked now (leases_of s) typeName id)
}.

(** ** The in-memory store *)

Module Memory.

Abbreviation store := (gmap gostring FeatureLock).

Definition expired (now : Z) (l : FeatureLock) : bool := lk_expires l <? now.

Definition covers_feature (l : FeatureLock) (norm : gostring) (id : Z) : bool :=
  beq (normalizeTypeName (lk_type l)) norm && bool_decide (id ∈ lk_ids l).

Definition any_lock (f : FeatureLock -> bool) (s : store) : bool :=
  bool_decide (map_Exists (fun _ l => f l = true) s).

Definition memory_acquire (s : store) (healthy : bool) (now : Z) (lockID typeName : gostring)
    (ids : list Z) (owner : gostring) (expiry : Z) : store * acquired :=
  let s := filter (fun kl => expired now (snd kl) = false) s in
  let norm := normalizeTypeName typeName in
  if any_lock (fun l => existsb (covers_feature l norm) ids) s then (s, Conflict)
  else
    let lock := mkLock lockID typeName ids owner now (now + expiry_or_default expiry) in
    (<[lockID := lock]> s, Granted lock).

Definition memory_release (s : store) (healthy : bool) (lockID : gostring) : store * bool :=
  (delete lockID s, true).

Definition memory_check (s : store) (healthy : bool) (now : Z) (lockID typeName : gostring) (id : Z)
    : store * option exception_code :=
  match s !! lockID with
  | None => (s, Some InvalidParameterValue)
  | Some l =>
      if expired now l then (delete lockID s, Some InvalidParameterValue)
      else if negb (beq (normalizeTypeName (lk_type l)) (normalizeTypeName typeName)) then
        (s, Some InvalidParameterValue)
      else if existsb (Z.eqb id) (lk_ids l) then (s, None)
      else (s, Some InvalidParameterValue)
  end.

Definition memory_isLocked (s : store) (healthy : bool) (now : Z) (typeName : gostring) (id : Z) : bool :=
  let norm := normalizeTypeName typeName in
  any_lock (fun l => negb (expired now l) && covers_feature l norm id) s.

End Memory.

(** ** The SQL store *)

Module Sql.

Record lease_row := mkRow { row_owner : gostring; row_acquired : Z; row_expires : Z }.

(** tegola_lock_leases by primary key, and the rows of tegola_lock_members. *)
Record tables := mkTables {
  tb_leases : gmap gostring lease_row;
  tb_members : gset (gostring * gostring * Z)
}.

Definition row_lock (r : gostring * gostring * Z) : gostring := fst (fst r).
Definition row_type (r : gostring * gostring * Z) : gostring := snd (fst r).
Definition row_feature (r : gostring * gostring * Z) : Z := snd r.

(** The lease of a row is there and has not expired. *)
Definition unexpired (now : Z) (t : tables) (lockID : gostring) : bool :=
  match tb_leases t !! lockID with Some row => now <=? row_expires row | None => false end.

(** DELETE ... WHERE lock_id IN (SELECT lock_id ... WHERE expires_at < now) *)
Definition delete_expired_members (now : Z) (t : tables) : tables :=
  mkTables (tb_leases t)
    (filter (fun r => match tb_leases t !! row_lock r with
                      | Some row => row_expires row <? now
                      | None => false
                      end = false) (tb_members t)).

Definition delete_expired_leases (now : Z) (t : tables) : tables :=
  mkTables (filter (fun kr => now <= row_expires (snd kr)) (tb_leases t)) (tb_members t).

(** The conflict query joins members with unexpired leases. *)
Definition conflict_rows (now : Z) (norm : gostring) (id : Z) (t : tables)
    : gset (gostring * gostring * Z) :=
  filter (fun r => row_type r = norm /\ row_feature r = id /\ unexpired now t (row_lock r) = true)
    (tb_members t).

(** INSERT INTO tegola_lock_leases: a duplicate primary key is an error. *)
Definition insert_lease (lockID : gostring) (row : lease_row) (t : tables) : option tables :=
  match tb_leases t !! lockID with
  | Some _ => None
  | None => Some (mkTables (<[lockID := row]> (tb_leases t)) (tb_members t))
  end.

(** INSERT INTO tegola_lock_members: the unique guard on (type_name, feature_id)
    refuses a feature that has a row. *)
Definition insert_member (lockID norm : gostring) (id : Z) (t : tables) : option tables :=
  if bool_decide (set_Exists (fun r => row_type r = norm /\ row_feature r = id) (tb_members t)) then None
  else Some (mkTables (tb_leases t) ({[(lockID, norm, id)]} ∪ tb_members t)).

Fixpoint insert_members (lockID norm : gostring) (ids : list Z) (t : tables) : option tables :=
  match ids with
  | [] => Some t
  | id :: ids' =>
      match insert_member lockID norm id t with
      | Some t' => insert_members lockID norm ids' t'
      | None => None
      end
  end.

(** One transaction: on any error or conflict the rollback restores the tables. *)
Definition sql_acquire (t : tables) (healthy : bool) (now : Z) (lockID typeName : gostring)
    (ids : list Z) (owner : gostring) (expiry : Z) : tables * acquired :=
  let exp := now + expiry_or_default expiry in
  let norm := normalizeTypeName typeName in
  if negb healthy then (t, Failed)
  else
    let t1 := delete_expired_leases now (delete_expired_members now t) in
    if existsb (fun id => negb (bool_decide (conflict_rows now norm id t1 = ∅))) ids then (t, Conflict)
    else
      match insert_lease lockID (mkRow owner now exp) t1 with
      | None => (t, Failed)
      | Some t2 =>
          match insert_members lockID norm ids t2 with
          | None => (t, Failed)
          | Some t3 => (t3, Granted (mkLock lockID typeName ids owner now exp))
          end
      end.

Definition sql_release (t : tables) (healthy : bool) (lockID : gostring) : tables * bool :=
  if negb healthy then (t, false)
  else (mkTables (delete lockID (tb_leases t)) (filter (fun r => row_lock r <> lockID) (tb_members t)), true).

Definition sql_check (t : tables) (healthy : bool) (now : Z) (lockID typeName : gostring) (id : Z)
    : tables * option exception_code :=
  if negb healthy then (t, Some NoApplicableCode)
  else
    if bool_decide ((lockID, normalizeTypeName typeName, id) ∈ tb_members t) && unexpired now t lockID
    then (t, None)
    else (t, Some InvalidParameterValue).

Definition sql_isLocked (t : tables) (healthy : bool) (now : Z) (typeName : gostring) (id : Z) : bool :=
  negb healthy || negb (bool_decide (conflict_rows now (normalizeTypeName typeName) id t = ∅)).

End Sql.

(** ** The stores implement the interface *)

Lemma live_lookup (now : Z) (a : leases) (k : gostring) (l : lease) :
  live now a !! k = Some l <-> a !! k = Some l /\ now <= ls_expires l.
Proof. unfold live. apply map_lookup_filter_Some. Qed.

Lemma live_live (t now : Z) (a : leases) : t <= now -> live now (live t a) = live now a.
Proof.
  intros Ht. apply map_eq. intros k. apply option_eq. intros l. rewrite !live_lookup. naive_solver lia.
Qed.

Lemma covers_lease_of (l : FeatureLock) (typeName : gostring) (id : Z) :
  covers (lease_of l) typeName id
  <-> normalizeTypeName (lk_type l) = normalizeTypeName typeName /\ id ∈ lk_ids l.
Proof.
  unfold covers, lease_of. cbn. rewrite elem_of_list_to_set, list_elem_of_fmap.
  split; [intros (x & [= ? <-] & ?); done|]. intros [-> ?]. eauto.
Qed.

Module MemoryLaws.
Import Memory.

Definition memory_leases_of (s : store) : leases := lease_of <$> s.

Lemma expired_false (now : Z) (l : FeatureLock) : expired now l = false <-> now <= lk_expires l.
Proof. unfold expired. apply Z.ltb_ge. Qed.

Lemma live_leases (now : Z) (s : store) :
  live now (memory_leases_of s) = memory_leases_of (filter (fun kl => expired now (snd kl) = false) s).
Proof.
  apply map_eq. intros k. apply option_eq. intros l. rewrite live_lookup. unfold memory_leases_of.
  rewrite !lookup_fmap_Some. setoid_rewrite map_lookup_filter_Some. cbn [snd].
  setoid_rewrite expired_false. split.
  - intros [(x & <- & Hx) H]. exists x. done.
  - intros (x & <- & Hx & H). split; [by exists x|done].
Qed.

Lemma covers_feature_iff (l : FeatureLock) (typeName : gostring) (id : Z) :
  covers_feature l (normalizeTypeName typeName) id = true <-> covers (lease_of l) typeName id.
Proof.
  rewrite covers_lease_of. unfold covers_feature.
  by rewrite andb_true_iff, beq_true, bool_decide_eq_true.
Qed.

Lemma any_lock_iff (f : FeatureLock -> bool) (s : store) :
  any_lock f s = true <-> exists k l, s !! k = Some l /\ f l = true.
Proof. unfold any_lock. rewrite bool_decide_eq_true. unfold map_Exists. naive_solver. Qed.

Lemma memory_locked_iff (now : Z) (s : store) (typeName : gostring) (id : Z) :
  locked now (memory_leases_of s) typeName id
  <-> exists k l, filter (fun kl => expired now (snd kl) = false) s !! k = Some l
                  /\ covers_feature l (normalizeTypeName typeName) id = true.
Proof.
  unfold locked. rewrite live_leases. unfold memory_leases_of. setoid_rewrite lookup_fmap_Some.
  setoid_rewrite covers_feature_iff. naive_solver.
Qed.

Lemma leases_of_delete (s : store) (k : gostring) : memory_leases_of (delete k s) = delete k (memory_leases_of s).
Proof. apply fmap_delete. Qed.

Lemma memory_acquire_spec (s : store) (healthy : bool) (now : Z) (lockID typeName : gostring)
    (ids : list Z) (owner : gostring) (expiry : Z) :
  let '(s', r) := memory_acquire s healthy now lockID typeName ids owner expiry in
  match r with
  | Granted lock =>
      lock = new_lock now lockID typeName ids owner expiry
      /\ (forall id, id ∈ ids -> ~ locked now (memory_leases_of s) typeName id)
      /\ memory_leases_of s' = <[lockID := lease_of lock]> (live now (memory_leases_of s))
  | Conflict =>
      (exists id, id ∈ ids /\ locked now (memory_leases_of s) typeName id)
      /\ memory_leases_of s' ⊆ memory_leases_of s /\ live now (memory_leases_of s') = live now (memory_leases_of s)
  | Failed => False
  end.
Proof.
  unfold memory_acquire. set (s1 := filter _ s). destruct (any_lock _ s1) eqn:E.
  - apply any_lock_iff in E as (k & l & Hk & (id & Hid & Hc)%existsb_exists). split_and!.
    + exists id. split; [by apply list_elem_of_In|]. apply memory_locked_iff. eauto.
    + apply map_fmap_mono, map_filter_subseteq.
    + subst s1. by rewrite <- live_leases, live_live.
  - split_and!.
    + done.
    + intros id Hid (k & l & Hk & Hc)%memory_locked_iff.
      assert (any_lock (fun l => existsb (covers_feature l (normalizeTypeName typeName)) ids) s1 = true) as E'.
      { apply any_lock_iff. exists k, l. split; [done|]. apply existsb_exists. exists id.
        by rewrite <- list_elem_of_In. }
      congruence.
    + rewrite live_leases. unfold memory_leases_of. by rewrite fmap_insert.
Qed.
Lemma memory_check_spec (s : store) (healthy : bool) (now : Z) (lockID typeName : gostring) (id : Z) :
  let '(s', r) := memory_check s healthy now lockID typeName id in
  memory_leases_of s' ⊆ memory_leases_of s /\ live now (memory_leases_of s') = live now (memory_leases_of s)
  /\ (r = None <-> exists l, live now (memory_leases_of s) !! lockID = Some l /\ covers l typeName id).
Proof.
  unfold memory_check.
  assert (forall l, live now (memory_leases_of s) !! lockID = Some l <->
            exists fl, s !! lockID = Some fl /\ expired now fl = false /\ l = lease_of fl) as Hlive.
  { intros l. rewrite live_lookup. unfold memory_leases_of. rewrite lookup_fmap_Some.
    setoid_rewrite expired_false. naive_solver. }
  destruct (s !! lockID) as [fl|] eqn:Ek.
  2: { split_and!; try done. split; [done|]. intros (l & (fl & [=] & _)%Hlive & _). }
  destruct (expired now fl) eqn:Ee.
  { split_and!; try done.
    - rewrite leases_of_delete. apply delete_subseteq.
    - rewrite leases_of_delete. apply map_eq. intros k. apply option_eq. intros l.
      rewrite !live_lookup, lookup_delete_Some. split; [naive_solver|]. intros [Hk Hl].
      split; [|done]. split; [|done]. intros <-. unfold memory_leases_of in Hk.
      rewrite lookup_fmap, Ek in Hk. injection Hk as <-.
      assert (expired now fl = false) by by apply expired_false. congruence.
    - split; [done|]. intros (l & (fl' & [= <-] & He & _)%Hlive & _). congruence. }
  assert ((exists l, live now (memory_leases_of s) !! lockID = Some l /\ covers l typeName id)
          <-> covers (lease_of fl) typeName id) as Hcov.
  { setoid_rewrite Hlive. naive_solver. }
  rewrite covers_lease_of in Hcov.
  destruct (beq _ _) eqn:Et; cbn [negb].
  - apply beq_true in Et.
    destruct (existsb (Z.eqb id) (lk_ids fl)) eqn:Ei; (split_and!; [done..|]); rewrite Hcov.
    + split; [|done]. intros _. split; [done|]. apply existsb_exists in Ei as (x & Hx & ->%Z.eqb_eq).
      by apply list_elem_of_In.
    + split; [done|]. intros [_ Hin]. exfalso.
      assert (existsb (Z.eqb id) (lk_ids fl) = true); [|congruence]. apply existsb_exists.
      exists id. split; [by apply list_elem_of_In|apply Z.eqb_refl].
  - apply beq_false in Et. split_and!; [done..|]. rewrite Hcov. split; [done|]. by intros [? _].
Qed.
Lemma memory_isLocked_spec (s : store) (healthy : bool) (now : Z) (typeName : gostring) (id : Z) :
  memory_isLocked s healthy now typeName id = true <-> locked now (memory_leases_of s) typeName id.
Proof.
  unfold memory_isLocked. rewrite any_lock_iff, memory_locked_iff. setoid_rewrite map_lookup_filter_Some. cbn [snd].
  setoid_rewrite andb_true_iff. setoid_rewrite negb_true_iff. split.
  - intros (k & l & ? & ? & ?). exists k, l. split; [done|]. by apply andb_true_iff.
  - intros (k & l & [? ?] & ?). exists k, l. split_and!; [done|done|]. by apply andb_true_iff.
Qed.

#[global] Instance memoryLockStore : LockStore store.
Proof.
  refine {| LockStore.leases_of := memory_leases_of; store_ok _ := True; empty_store := ∅;
            store_acquire := memory_acquire; store_release := memory_release; store_check := memory_check;
            store_locked := memory_isLocked |}.
  - split; [done|]. apply fmap_empty.
  - intros s healthy now lockID typeName ids owner expiry _ _.
    pose proof (memory_acquire_spec s healthy now lockID typeName ids owner expiry) as H.
    destruct (memory_acquire _ _ _ _ _ _ _ _) as [s' []]; [done|done|contradiction].
  - intros s healthy lockID _. cbn. split_and!; [done|done|apply leases_of_delete].
  - intros s healthy now lockID typeName id _.
    pose proof (memory_check_spec s healthy now lockID typeName id) as H.
    destruct (memory_check _ _ _ _ _ _) as [s' r]. destruct H as (? & ? & ->). done.
  - intros s healthy now typeName id _. by rewrite memory_isLocked_spec.
Defined.

End MemoryLaws.

Module SqlLaws.
Import Sql.

Definition features_of (t : tables) (k : gostring) : gset (gostring * Z) :=
  set_map (fun r => (row_type r, row_feature r)) (filter (fun r => row_lock r = k) (tb_members t)).

Definition sql_leases_of (t : tables) : leases :=
  map_imap (fun k row => Some (mkLease (features_of t k) (row_expires row))) (tb_leases t).

(** Every member row has its lease, and the unique guard holds. *)
Record tables_ok (t : tables) : Prop := {
  ok_lease : forall r, r ∈ tb_members t -> is_Some (tb_leases t !! row_lock r);
  ok_guard : forall r r', r ∈ tb_members t -> r' ∈ tb_members t ->
    row_type r = row_type r' -> row_feature r = row_feature r' -> r = r'
}.

Lemma features_of_elem (t : tables) (k ty : gostring) (id : Z) :
  (ty, id) ∈ features_of t k <-> (k, ty, id) ∈ tb_members t.
Proof.
  unfold features_of. rewrite elem_of_map. setoid_rewrite elem_of_filter. split.
  - intros ([[k' ty'] id'] & [= -> ->] & <- & H). done.
  - intros H. by exists (k, ty, id).
Qed.

Lemma leases_of_lookup (t : tables) (k : gostring) (l : lease) :
  sql_leases_of t !! k = Some l
  <-> exists row, tb_leases t !! k = Some row /\ l = mkLease (features_of t k) (row_expires row).
Proof.
  unfold sql_leases_of. rewrite map_lookup_imap. destruct (tb_leases t !! k); cbn; naive_solver.
Qed.

Lemma leases_of_None (t : tables) (k : gostring) : sql_leases_of t !! k = None <-> tb_leases t !! k = None.
Proof. unfold sql_leases_of. rewrite map_lookup_imap. by destruct (tb_leases t !! k). Qed.

(** Two leases agree when they hold the same features until the same time. *)
Lemma lease_ext (f g : gset (gostring * Z)) (e : Z) :
  (forall ty id, (ty, id) ∈ f <-> (ty, id) ∈ g) -> mkLease f e = mkLease g e.
Proof. intros H. f_equal. apply leibniz_equiv. intros [ty id]. apply H. Qed.

Lemma unexpired_iff (now : Z) (t : tables) (k : gostring) :
  unexpired now t k = true <-> exists row, tb_leases t !! k = Some row /\ now <= row_expires row.
Proof.
  unfold unexpired. destruct (tb_leases t !! k) as [row|]; [rewrite Z.leb_le; naive_solver|naive_solver].
Qed.

Lemma conflict_rows_nonempty (now : Z) (norm : gostring) (id : Z) (t : tables) :
  conflict_rows now norm id t <> ∅
  <-> exists k, (k, norm, id) ∈ tb_members t /\ unexpired now t k = true.
Proof.
  unfold conflict_rows. split.
  - intros ([[k ty] i] & (H & Hin)%elem_of_filter)%set_choose_L. cbn in H. destruct H as (<- & <- & ?). eauto.
  - intros (k & Hin & Hu) E. eapply (not_elem_of_empty (C := gset _)). rewrite <- E.
    apply elem_of_filter. split; [|exact Hin]. done.
Qed.

Lemma sql_locked_iff (now : Z) (t : tables) (typeName : gostring) (id : Z) :
  locked now (sql_leases_of t) typeName id
  <-> conflict_rows now (normalizeTypeName typeName) id t <> ∅.
Proof.
  rewrite conflict_rows_nonempty. unfold locked, covers. setoid_rewrite live_lookup.
  setoid_rewrite leases_of_lookup. setoid_rewrite unexpired_iff. split.
  - intros (k & l & [(row & Hr & ->) He] & Hc). cbn in *. exists k. rewrite <- features_of_elem. eauto.
  - intros (k & Hin & row & Hr & He). exists k, (mkLease (features_of t k) (row_expires row)). cbn.
    rewrite features_of_elem. eauto 10.
Qed.

(** The tables after the two cleaning statements. *)
Definition cleaned (now : Z) (t : tables) : tables :=
  delete_expired_leases now (delete_expired_members now t).

Lemma cleaned_leases (now : Z) (t : tables) (k : gostring) (row : lease_row) :
  tb_leases (cleaned now t) !! k = Some row <-> tb_leases t !! k = Some row /\ now <= row_expires row.
Proof. unfold cleaned, delete_expired_leases. cbn. by rewrite map_lookup_filter_Some. Qed.

Lemma cleaned_members (now : Z) (t : tables) (r : gostring * gostring * Z) :
  tables_ok t -> r ∈ tb_members (cleaned now t) <-> r ∈ tb_members t /\ unexpired now t (row_lock r) = true.
Proof.
  intros Hok. unfold cleaned, delete_expired_leases, delete_expired_members. cbn.
  rewrite elem_of_filter. unfold unexpired. split.
  - intros [He Hin]. split; [done|]. destruct (ok_lease t Hok r Hin) as [row Hr]. rewrite Hr in *.
    apply Z.ltb_ge in He. by apply Z.leb_le.
  - intros [Hin He]. split; [|done]. destruct (tb_leases t !! row_lock r); [|done].
    apply Z.leb_le in He. by apply Z.ltb_ge.
Qed.

Lemma cleaned_ok (now : Z) (t : tables) : tables_ok t -> tables_ok (cleaned now t).
Proof.
  intros Hok. split.
  - intros r (Hin & (row & Hr & He)%unexpired_iff)%cleaned_members; [|done].
    exists row. by apply cleaned_leases.
  - intros r r' [H _]%cleaned_members [H' _]%cleaned_members; [|done|done]. by apply (ok_guard t Hok).
Qed.

Lemma cleaned_leases_of (now : Z) (t : tables) :
  tables_ok t -> sql_leases_of (cleaned now t) = live now (sql_leases_of t).
Proof.
  intros Hok. apply map_eq. intros k. apply option_eq. intros l.
  rewrite live_lookup, !leases_of_lookup. setoid_rewrite cleaned_leases.
  assert (forall row, tb_leases t !! k = Some row -> now <= row_expires row ->
            mkLease (features_of (cleaned now t) k) (row_expires row)
            = mkLease (features_of t k) (row_expires row)) as Hf.
  { intros row Hr He. apply lease_ext. intros ty id. rewrite !features_of_elem, cleaned_members by done.
    split; [by intros [? _]|]. intros Hin. split; [done|]. apply unexpired_iff. eauto. }
  split.
  - intros (row & [Hr He] & ->). rewrite (Hf row Hr He). cbn. eauto.
  - intros [(row & Hr & ->) He]. cbn in He. exists row. by rewrite (Hf row Hr He).
Qed.

(** The rows that one lock adds. *)
Definition new_rows (lockID norm : gostring) (ids : list Z) : gset (gostring * gostring * Z) :=
  list_to_set (map (fun id => (lockID, norm, id)) ids).

Definition free (t : tables) (norm : gostring) (id : Z) : Prop :=
  forall k, (k, norm, id) ∉ tb_members t.

Lemma insert_member_Some (lockID norm : gostring) (id : Z) (t t' : tables) :
  insert_member lockID norm id t = Some t'
  <-> free t norm id /\ t' = mkTables (tb_leases t) ({[(lockID, norm, id)]} ∪ tb_members t).
Proof.
  unfold insert_member. case_bool_decide as H; split; try done.
  - intros [Hf _]. destruct H as ([[k ty] i] & Hin & H1 & H2). cbn in H1, H2. subst.
    by apply (Hf k) in Hin.
  - intros [= <-]. split; [|done]. intros k Hin. apply H. by exists (k, norm, id).
  - by intros [_ ->].
Qed.

Lemma insert_members_Some (lockID norm : gostring) (ids : list Z) (t t' : tables) :
  insert_members lockID norm ids t = Some t'
  <-> NoDup ids /\ (forall id, id ∈ ids -> free t norm id)
      /\ t' = mkTables (tb_leases t) (new_rows lockID norm ids ∪ tb_members t).
Proof.
  revert t. induction ids as [|id ids IH]; intros t; cbn [insert_members].
  - split.
    + intros [= <-]. split_and!; [constructor|intros id H; by apply elem_of_nil in H|].
      destruct t; unfold new_rows; cbn. f_equal. set_solver.
    + intros (_ & _ & ->). destruct t; unfold new_rows; cbn. f_equal. f_equal. set_solver.
  - rewrite NoDup_cons. setoid_rewrite elem_of_cons.
    destruct (insert_member lockID norm id t) as [t1|] eqn:E.
    + apply insert_member_Some in E as [Hf ->]. rewrite IH. cbn [tb_leases tb_members].
      unfold free. cbn [tb_members].
      assert (new_rows lockID norm ids ∪ ({[(lockID, norm, id)]} ∪ tb_members t)
              = new_rows lockID norm (id :: ids) ∪ tb_members t) as -> by (unfold new_rows; cbn; set_solver).
      split.
      * intros (Hnd & Hfree & ->). split_and!; [|done| |done].
        -- intros Hin. apply (Hfree id Hin lockID). set_solver.
        -- intros i [->|Hi]; [done|]. intros k Hk. apply (Hfree i Hi k). set_solver.
      * intros ([Hni Hnd] & Hfree & ->). split_and!; [done| |done].
        intros i Hi k. rewrite not_elem_of_union, not_elem_of_singleton. split; [|by apply Hfree; right].
        intros [= _ ->]. done.
    + split; [done|]. intros (_ & Hfree & _). exfalso.
      assert (insert_member lockID norm id t = Some (mkTables (tb_leases t) ({[(lockID, norm, id)]} ∪ tb_members t)))
        as E'; [|congruence].
      apply insert_member_Some. split; [|done]. apply Hfree. by left.
Qed.

(** A lease added to tables that do not know its identifier nor its features. *)
Lemma added_ok (t : tables) (lockID norm : gostring) (ids : list Z) (row : lease_row) :
  tables_ok t -> tb_leases t !! lockID = None -> NoDup ids -> (forall id, id ∈ ids -> free t norm id) ->
  let t' := mkTables (<[lockID := row]> (tb_leases t)) (new_rows lockID norm ids ∪ tb_members t) in
  tables_ok t'
  /\ sql_leases_of t' = <[lockID := mkLease (list_to_set (map (pair norm) ids)) (row_expires row)]> (sql_leases_of t).
Proof.
  intros Hok Hnew Hnd Hfree t'.
  assert (forall k ty id, (k, ty, id) ∈ new_rows lockID norm ids <-> k = lockID /\ ty = norm /\ id ∈ ids) as Hrows.
  { intros k ty id. unfold new_rows. rewrite elem_of_list_to_set, list_elem_of_fmap. naive_solver. }
  assert (forall k ty id, (k, ty, id) ∈ tb_members t -> k <> lockID) as Hold.
  { intros k ty id Hin ->. destruct (ok_lease t Hok _ Hin) as [r Hr]. cbn in Hr. congruence. }
  split; [split|].
  - intros [[k ty] id]. cbn. rewrite elem_of_union, Hrows. intros [(-> & _)|Hin].
    + rewrite lookup_insert_eq. by eexists.
    + rewrite lookup_insert_ne by (symmetry; by eapply Hold). apply (ok_lease t Hok _ Hin).
  - intros [[k ty] id] [[k' ty'] id']. cbn. rewrite !elem_of_union, !Hrows.
    intros [(-> & -> & Hi)|Hin] [(-> & -> & Hi')|Hin'] E1 E2; subst; try done.
    + by apply (Hfree id' Hi k') in Hin'.
    + by apply (Hfree id' Hi' k) in Hin.
    + by apply (ok_guard t Hok).
  - apply map_eq. intros k. apply option_eq. intros l. rewrite leases_of_lookup.
    change (tb_leases t') with (<[lockID := row]> (tb_leases t)).
    destruct (decide (k = lockID)) as [->|Hne].
    + rewrite !lookup_insert_eq. assert (features_of t' lockID = list_to_set (map (pair norm) ids)) as Hf.
      { apply leibniz_equiv. intros [ty id]. rewrite features_of_elem. unfold t'. cbn [tb_members].
        rewrite elem_of_union, Hrows, elem_of_list_to_set, list_elem_of_fmap. split.
        - intros [(_ & -> & Hi)|Hin]; [eauto|]. by apply Hold in Hin.
        - intros (x & [= -> ->] & Hi). eauto. }
      rewrite Hf. split; [by intros (r & [= <-] & ->)|]. intros [= <-]. eauto.
    + rewrite !lookup_insert_ne by done. rewrite leases_of_lookup.
      assert (features_of t' k = features_of t k) as Hf; [|by rewrite Hf].
      apply leibniz_equiv. intros [ty id]. rewrite !features_of_elem. unfold t'. cbn [tb_members].
      rewrite elem_of_union, Hrows. split; [by intros [(-> & _)|?]|by right].
Qed.

Lemma sql_acquire_spec (t : tables) (healthy : bool) (now : Z) (lockID typeName : gostring)
    (ids : list Z) (owner : gostring) (expiry : Z) :
  tables_ok t -> sql_leases_of t !! lockID = None ->
  let '(t', r) := sql_acquire t healthy now lockID typeName ids owner expiry in
  tables_ok t' /\
  match r with
  | Granted lock =>
      lock = new_lock now lockID typeName ids owner expiry
      /\ (forall id, id ∈ ids -> ~ locked now (sql_leases_of t) typeName id)
      /\ sql_leases_of t' = <[lockID := lease_of lock]> (live now (sql_leases_of t))
  | Conflict => (exists id, id ∈ ids /\ locked now (sql_leases_of t) typeName id) /\ t' = t
  | Failed => (healthy = false \/ ~ NoDup ids) /\ t' = t
  end.
Proof.
  intros Hok Hfresh. unfold sql_acquire. destruct healthy; cbn [negb]; [|by auto].
  fold (cleaned now t). pose proof (cleaned_ok now t Hok) as Hok1.
  pose proof (cleaned_leases_of now t Hok) as Hl1.
  assert (forall id, locked now (sql_leases_of t) typeName id
            <-> conflict_rows now (normalizeTypeName typeName) id (cleaned now t) <> ∅) as Hlk.
  { intros id. rewrite <- sql_locked_iff, Hl1. unfold locked. by rewrite live_live. }
  destruct (existsb _ ids) eqn:Ec.
  { split; [done|]. split; [|done]. apply existsb_exists in Ec as (id & Hin & Hb). exists id.
    rewrite list_elem_of_In, Hlk. split; [done|]. by apply negb_true_iff, bool_decide_eq_false in Hb. }
  assert (forall id, id ∈ ids -> ~ locked now (sql_leases_of t) typeName id) as Hfree.
  { intros id Hin Hlocked%Hlk. apply not_true_iff_false in Ec. apply Ec, existsb_exists. exists id.
    rewrite <- list_elem_of_In, negb_true_iff, bool_decide_eq_false. done. }
  assert (tb_leases (cleaned now t) !! lockID = None) as Hnew.
  { rewrite <- leases_of_None, Hl1. unfold live. rewrite map_lookup_filter_None. by left. }
  unfold insert_lease. rewrite Hnew.
  destruct (insert_members _ _ _ _) as [t3|] eqn:Em.
  - apply insert_members_Some in Em as (Hnd & Hfr & ->). cbn [tb_leases tb_members] in *.
    destruct (added_ok (cleaned now t) lockID (normalizeTypeName typeName) ids
                (mkRow owner now (now + expiry_or_default expiry)) Hok1 Hnew Hnd) as [Hok3 Hl3].
    { intros id Hid k. exact (Hfr id Hid k). }
    split; [done|]. split_and!; [done|done|]. rewrite Hl3, Hl1. done.
  - split; [done|]. split; [|done]. right. intros Hnd.
    assert (insert_members lockID (normalizeTypeName typeName) ids
              (mkTables (<[lockID := mkRow owner now (now + expiry_or_default expiry)]> (tb_leases (cleaned now t)))
                 (tb_members (cleaned now t))) <> None) as Hs; [|done].
    apply not_eq_None_Some. eexists. apply insert_members_Some. split_and!; [done| |reflexivity].
    intros id Hid k Hin. cbn [tb_members] in Hin. apply (Hfree id Hid), Hlk, conflict_rows_nonempty.
    exists k. split; [done|]. apply cleaned_members in Hin as [_ Hu]; [|done]. cbn in Hu.
    apply unexpired_iff in Hu as (row & Hr & He). apply unexpired_iff. exists row. by rewrite cleaned_leases.
Qed.

Lemma release_spec (t : tables) (lockID : gostring) :
  tables_ok t ->
  let t' := fst (sql_release t true lockID) in
  tables_ok t' /\ sql_leases_of t' = delete lockID (sql_leases_of t).
Proof.
  intros Hok. cbn. split; [split|].
  - intros r (Hne & Hin)%elem_of_filter. cbn. rewrite lookup_delete_ne by done. by apply (ok_lease t Hok).
  - intros r r' (_ & Hin)%elem_of_filter (_ & Hin')%elem_of_filter. by apply (ok_guard t Hok).
  - apply map_eq. intros k. apply option_eq. intros l.
    rewrite lookup_delete_Some, !leases_of_lookup. cbn [tb_leases]. setoid_rewrite lookup_delete_Some.
    assert (k <> lockID ->
      features_of (mkTables (delete lockID (tb_leases t)) (filter (fun r => row_lock r <> lockID) (tb_members t))) k
      = features_of t k) as Hf.
    { intros Hne. apply leibniz_equiv. intros [ty id]. rewrite !features_of_elem. cbn [tb_members].
      rewrite elem_of_filter. cbn. naive_solver. }
    split.
    + intros (row & [Hne Hr] & ->). split; [done|]. exists row. by rewrite Hf.
    + intros [Hne (row & Hr & ->)]. exists row. by rewrite Hf.
Qed.

Lemma sql_check_spec (t : tables) (now : Z) (lockID typeName : gostring) (id : Z) :
  sql_check t true now lockID typeName id = (t, None)
  <-> exists l, live now (sql_leases_of t) !! lockID = Some l /\ covers l typeName id.
Proof.
  unfold sql_check. cbn [negb]. setoid_rewrite live_lookup. setoid_rewrite leases_of_lookup. unfold covers.
  split.
  - destruct (_ && _) eqn:E; [|done]. intros _.
    apply andb_true_iff in E as [Hin%bool_decide_eq_true (row & Hr & He)%unexpired_iff].
    eexists. split; [split; [by exists row|]|]; [done|]. by apply features_of_elem.
  - intros (l & [(row & Hr & ->) He] & Hc%features_of_elem). cbn in He.
    rewrite bool_decide_true, (proj2 (unexpired_iff now t lockID)) by eauto. done.
Qed.

#[global] Instance sqlLockStore : LockStore tables.
Proof.
  refine {| LockStore.leases_of := sql_leases_of; store_ok := tables_ok; empty_store := mkTables ∅ ∅;
            store_acquire := sql_acquire; store_release := sql_release; store_check := sql_check;
            store_locked := sql_isLocked |}.
  - split; [|apply map_eq; intros k; by rewrite lookup_empty, leases_of_None].
    split; cbn; [intros r Hr|intros r r' Hr]; by apply elem_of_empty in Hr.
  - intros t healthy now lockID typeName ids owner expiry Hok Hfresh.
    pose proof (sql_acquire_spec t healthy now lockID typeName ids owner expiry Hok Hfresh) as H.
    destruct (sql_acquire _ _ _ _ _ _ _ _) as [t' []]; [done|..];
      destruct H as (? & ? & ->); split_and!; done.
  - intros t [] lockID Hok; [|by cbn]. destruct (release_spec t lockID Hok) as [? ?]. by cbn.
  - intros t [] now lockID typeName id Hok.
    + pose proof (sql_check_spec t now lockID typeName id) as H.
      assert (fst (sql_check t true now lockID typeName id) = t) as Ht by (unfold sql_check; cbn; by case_match).
      destruct (sql_check t true now lockID typeName id) as [t' r]. cbn in Ht. subst t'.
      split_and!; try done.
      * intros ->. by apply H.
      * intros _ Hl. apply H in Hl. congruence.
    + unfold sql_check. cbn. by split_and!.
  - intros t healthy now typeName id Hok. rewrite sql_locked_iff. unfold sql_isLocked.
    rewrite orb_true_iff, !negb_true_iff, bool_decide_eq_false. split; [by right|]. intros -> [|]; done.
Defined.

End SqlLaws.

(** ** Theorems about any store *)

Section Clients.
Context {S : Type} `{LockStore S}.

(** The states of a store in use: any operations, at any clock readings, with
    fresh lock identifiers. *)
Inductive reachable : S -> Prop :=
| reach_empty : reachable empty_store
| reach_acquire s healthy now lockID typeName ids owner expiry :
    reachable s -> leases_of s !! lockID = None ->
    reachable (fst (store_acquire s healthy now lockID typeName ids owner expiry))
| reach_release s healthy lockID : reachable s -> reachable (fst (store_release s healthy lockID))
| reach_check s healthy now lockID typeName id :
    reachable s -> reachable (fst (store_check s healthy now lockID typeName id)).

(** No feature is covered by two leases, not even by expired ones. *)
Definition exclusive (a : leases) : Prop :=
  forall k1 k2 l1 l2 typeName id,
    a !! k1 = Some l1 -> a !! k2 = Some l2 -> covers l1 typeName id -> covers l2 typeName id -> k1 = k2.

Lemma exclusive_mono (a b : leases) : a ⊆ b -> exclusive b -> exclusive a.
Proof.
  intros Hsub Hb k1 k2 l1 l2 ty id H1 H2.
  apply (Hb k1 k2 l1 l2); by eapply lookup_weaken.
Qed.

Lemma live_subseteq (now : Z) (a : leases) : live now a ⊆ a.
Proof. apply map_filter_subseteq. Qed.

(** The normalized name of a type that a lease covers is its own normal form, up
    to a colon that remains in it. *)
Lemma covers_norm (l : lease) (t1 t2 : gostring) (id : Z) :
  normalizeTypeName t1 = normalizeTypeName t2 -> covers l t1 id -> covers l t2 id.
Proof. unfold covers. by intros ->. Qed.

Lemma reachable_exclusive (s : S) : reachable s -> store_ok s /\ exclusive (leases_of s).
Proof.
  induction 1 as [|s healthy now k ty ids owner expiry _ [Hok Hex] Hf|s healthy k _ [Hok Hex]
                 |s healthy now k ty id _ [Hok Hex]].
  - destruct empty_ok as [? He]. split; [done|]. rewrite He. intros k1 k2 l1 l2 ty id H1.
    by rewrite lookup_empty in H1.
  - pose proof (acquire_law s healthy now k ty ids owner expiry Hok Hf) as Hlaw.
    destruct (store_acquire _ _ _ _ _ _ _ _) as [s' r]. cbn. destruct Hlaw as [Hok' Hr].
    split; [done|]. destruct r as [lock| |].
    + destruct Hr as (-> & Hfree & ->). set (lk := new_lock _ _ _ _ _ _).
      assert (forall k' l ty' id, live now (leases_of s) !! k' = Some l -> covers l ty' id ->
                ~ covers (lease_of lk) ty' id) as Hdis.
      { intros k' l ty' id Hl Hc (Hn & Hid)%covers_lease_of. apply (Hfree id Hid).
        exists k', l. split; [done|]. eapply covers_norm; [|exact Hc]. by symmetry. }
      intros k1 k2 l1 l2 ty' id H1 H2 C1 C2.
      apply lookup_insert_Some in H1 as [[<- <-]|[_ H1]], H2 as [[<- <-]|[_ H2]].
      * done.
      * exfalso. by eapply Hdis.
      * exfalso. by eapply Hdis.
      * eapply (exclusive_mono _ _ (live_subseteq now _) Hex); done.
    + destruct Hr as (_ & Hsub & _). by eapply exclusive_mono.
    + by destruct Hr as [_ ->].
  - pose proof (release_law s healthy k Hok) as Hlaw. destruct (store_release _ _ _) as [s' ok]. cbn.
    destruct Hlaw as (Hok' & _ & ->). split; [done|]. destruct ok; [|done].
    eapply exclusive_mono; [apply delete_subseteq|done].
  - pose proof (check_law s healthy now k ty id Hok) as Hlaw. destruct (store_check _ _ _ _ _ _) as [s' r].
    cbn. destruct Hlaw as (Hok' & Hsub & _). split; [done|]. by eapply exclusive_mono.
Qed.

(** Later states, reached without releasing [lockID] and before [deadline]. *)
Inductive later (lockID : gostring) (deadline : Z) : S -> S -> Prop :=
| later_refl s : later lockID deadline s s
| later_acquire s s' healthy now k typeName ids owner expiry :
    later lockID deadline s s' -> leases_of s' !! k = None -> now <= deadline ->
    later lockID deadline s (fst (store_acquire s' healthy now k typeName ids owner expiry))
| later_release s s' healthy k :
    later lockID deadline s s' -> k <> lockID ->
    later lockID deadline s (fst (store_release s' healthy k))
| later_check s s' healthy now k typeName id :
    later lockID deadline s s' -> now <= deadline ->
    later lockID deadline s (fst (store_check s' healthy now k typeName id)).

Lemma live_keeps (now : Z) (a b : leases) (k : gostring) (l : lease) :
  live now a = live now b -> b !! k = Some l -> now <= ls_expires l -> a !! k = Some l.
Proof.
  intros E Hk Hn. assert (live now b !! k = Some l) as Hl by by apply live_lookup.
  rewrite <- E in Hl. by apply live_lookup in Hl as [? _].
Qed.

Lemma later_keeps (lockID : gostring) (l : lease) (s s' : S) :
  store_ok s -> leases_of s !! lockID = Some l -> later lockID (ls_expires l) s s' ->
  store_ok s' /\ leases_of s' !! lockID = Some l.
Proof.
  intros Hok Hl Hlater.
  induction Hlater as [s|s s' healthy now k ty ids owner expiry _ IH Hf Hn|s s' healthy k _ IH Hne
                      |s s' healthy now k ty id _ IH Hn]; [done|..]; destruct (IH Hok Hl) as [Hok' Hl'].
  - pose proof (acquire_law s' healthy now k ty ids owner expiry Hok' Hf) as Hlaw.
    destruct (store_acquire _ _ _ _ _ _ _ _) as [s2 r]. cbn. destruct Hlaw as [Hok2 Hr].
    split; [done|]. destruct r as [lock| |].
    + destruct Hr as (_ & _ & ->). rewrite lookup_insert_ne by (intros <-; congruence).
      by apply live_lookup.
    + destruct Hr as (_ & _ & E). by eapply live_keeps.
    + destruct Hr as [_ ->]. done.
  - pose proof (release_law s' healthy k Hok') as Hlaw. destruct (store_release _ _ _) as [s2 ok]. cbn.
    destruct Hlaw as (? & _ & ->). split; [done|]. destruct ok; [|done]. by rewrite lookup_delete_ne.
  - pose proof (check_law s' healthy now k ty id Hok') as Hlaw.
    destruct (store_check _ _ _ _ _ _) as [s2 r]. cbn. destruct Hlaw as (? & _ & E & _).
    split; [done|]. by eapply live_keeps.
Qed.

(** What a granted lock guarantees until it expires or is released. *)
Definition protects (s' : S) (lock : FeatureLock) : Prop :=
  forall now typeName id,
    now <= lk_expires lock -> normalizeTypeName typeName = normalizeTypeName (lk_type lock) ->
    id ∈ lk_ids lock ->
    snd (store_check s' true now (lk_id lock) typeName id) = None
    /\ (forall healthy, store_locked s' healthy now typeName id = true)
    /\ (forall healthy k ids owner expiry lock', id ∈ ids -> leases_of s' !! k = None ->
          snd (store_acquire s' healthy now k typeName ids owner expiry) <> Granted lock').

Lemma lease_protects (s' : S) (lock : FeatureLock) :
  store_ok s' -> leases_of s' !! lk_id lock = Some (lease_of lock) -> protects s' lock.
Proof.
  intros Hok Hl now ty id Hn Hty Hid.
  assert (live now (leases_of s') !! lk_id lock = Some (lease_of lock)) as Hlive by by apply live_lookup.
  assert (covers (lease_of lock) ty id) as Hc by (apply covers_lease_of; done).
  assert (locked now (leases_of s') ty id) as Hlk by (exists (lk_id lock), (lease_of lock); done).
  split_and!.
  - pose proof (check_law s' true now (lk_id lock) ty id Hok) as Hlaw.
    destruct (store_check _ _ _ _ _ _) as [s2 r]. destruct Hlaw as (_ & _ & _ & _ & Hr). cbn.
    apply Hr; [done|]. eauto.
  - intros healthy. by apply (islocked_law s' healthy now ty id Hok).
  - intros healthy k ids owner expiry lock' Hin Hf Hg.
    pose proof (acquire_law s' healthy now k ty ids owner expiry Hok Hf) as Hlaw.
    destruct (store_acquire _ _ _ _ _ _ _ _) as [s2 r]. cbn in Hg. subst r.
    destruct Hlaw as (_ & _ & Hfree & _). by apply (Hfree id Hin).
Qed.

Lemma granted_protects (s s' : S) (healthy : bool) (now : Z) (lockID typeName : gostring)
    (ids : list Z) (owner : gostring) (expiry : Z) (lock : FeatureLock) :
  store_ok s -> leases_of s !! lockID = None ->
  snd (store_acquire s healthy now lockID typeName ids owner expiry) = Granted lock ->
  later lockID (lk_expires lock) (fst (store_acquire s healthy now lockID typeName ids owner expiry)) s' ->
  protects s' lock.
Proof.
  intros Hok Hf Hg Hlater. pose proof (acquire_law s healthy now lockID typeName ids owner expiry Hok Hf) as Hlaw.
  destruct (store_acquire s healthy now lockID typeName ids owner expiry) as [s1 r]. cbn in Hg, Hlater.
  subst r. destruct Hlaw as (Hok1 & -> & _ & Hl). set (lk := new_lock _ _ _ _ _ _) in *.
  destruct (later_keeps lockID (lease_of lk) s1 s' Hok1) as [Hok' Hl'].
  - rewrite Hl. apply lookup_insert_eq.
  - exact Hlater.
  - by apply lease_protects.
Qed.

End Clients.

(** ** The two stores *)

Section Agreement.

Inductive request :=
| RAcquire (lockID typeName : gostring) (ids : list Z) (owner : gostring) (expiry : Z)
| RRelease (lockID : gostring)
| RCheck (lockID typeName : gostring) (id : Z)
| RLocked (typeName : gostring) (id : Z).

Inductive response :=
| Acquired (r : acquired)
| Released (ok : bool)
| Checked (ok : bool)
| Locked (b : bool).

(** One request at a clock reading, with the storage working. *)
Definition serve {S : Type} `{LockStore S} (s : S) (now : Z) (req : request) : S * response :=
  match req with
  | RAcquire k ty ids owner expiry =>
      let '(s', r) := store_acquire s true now k ty ids owner expiry in (s', Acquired r)
  | RRelease k => let '(s', ok) := store_release s true k in (s', Released ok)
  | RCheck k ty id =>
      let '(s', r) := store_check s true now k ty id in (s', Checked (bool_decide (r = None)))
  | RLocked ty id => (s, Locked (store_locked s true now ty id))
  end.

Fixpoint serve_all {S : Type} `{LockStore S} (s : S) (reqs : list (Z * request)) : list response :=
  match reqs with
  | [] => []
  | (now, req) :: reqs' => let '(s', r) := serve s now req in r :: serve_all s' reqs'
  end.

(** A history with a clock that does not go back, lock identifiers that are
    never reused, and requests that name no feature twice. *)
Fixpoint proper_history (t : Z) (used : gset gostring) (reqs : list (Z * request)) : Prop :=
  match reqs with
  | [] => True
  | (now, req) :: reqs' =>
      t <= now
      /\ match req with
         | RAcquire k _ ids _ _ => (k ∉ used) /\ NoDup ids /\ proper_history now ({[k]} ∪ used) reqs'
         | _ => proper_history now used reqs'
         end
  end.

Context {S1 S2 : Type} `{L1 : LockStore S1} `{L2 : LockStore S2}.

(** The states that answer alike from time [t] on. *)
Record agree (t : Z) (used : gset gostring) (s1 : S1) (s2 : S2) : Prop := {
  ag_ok1 : store_ok s1;
  ag_ok2 : store_ok s2;
  ag_live : live t (leases_of s1) = live t (leases_of s2);
  ag_used1 : dom (leases_of s1) ⊆ used;
  ag_used2 : dom (leases_of s2) ⊆ used
}.

Lemma agree_later (t now : Z) (used : gset gostring) (s1 : S1) (s2 : S2) :
  t <= now -> agree t used s1 s2 -> live now (leases_of s1) = live now (leases_of s2).
Proof.
  intros Ht [_ _ E _ _]. rewrite <- (live_live t now (leases_of s1)), <- (live_live t now (leases_of s2)) by done.
  by rewrite E.
Qed.

Lemma locked_live (now : Z) (a b : leases) (ty : gostring) (id : Z) :
  live now a = live now b -> locked now a ty id <-> locked now b ty id.
Proof. intros E. unfold locked. by rewrite E. Qed.

Lemma live_delete (now : Z) (a : leases) (k : gostring) : live now (delete k a) = delete k (live now a).
Proof. apply map_filter_delete. Qed.

Lemma fresh_lookup (a : leases) (used : gset gostring) (k : gostring) :
  dom a ⊆ used -> k ∉ used -> a !! k = None.
Proof. intros Hd Hk. apply not_elem_of_dom. set_solver. Qed.

Lemma dom_live_insert (now : Z) (a : leases) (used : gset gostring) (k : gostring) (l : lease) :
  dom a ⊆ used -> dom (<[k := l]> (live now a)) ⊆ {[k]} ∪ used.
Proof.
  intros Hd. rewrite dom_insert. pose proof (subseteq_dom _ _ (live_subseteq now a)). set_solver.
Qed.

Lemma acquire_agree (t now : Z) (used : gset gostring) (s1 : S1) (s2 : S2) (k ty : gostring)
    (ids : list Z) (owner : gostring) (expiry : Z) :
  t <= now -> agree t used s1 s2 -> k ∉ used -> NoDup ids ->
  snd (store_acquire s1 true now k ty ids owner expiry) = snd (store_acquire s2 true now k ty ids owner expiry)
  /\ agree now ({[k]} ∪ used) (fst (store_acquire s1 true now k ty ids owner expiry))
       (fst (store_acquire s2 true now k ty ids owner expiry)).
Proof.
  intros Ht Ha Hk Hnd. pose proof (agree_later t now used s1 s2 Ht Ha) as Hlive.
  destruct Ha as [Hok1 Hok2 _ Hd1 Hd2].
  pose proof (acquire_law s1 true now k ty ids owner expiry Hok1 (fresh_lookup _ _ _ Hd1 Hk)) as H1.
  pose proof (acquire_law s2 true now k ty ids owner expiry Hok2 (fresh_lookup _ _ _ Hd2 Hk)) as H2.
  destruct (store_acquire s1 _ _ _ _ _ _ _) as [s1' r1], (store_acquire s2 _ _ _ _ _ _ _) as [s2' r2].
  destruct H1 as [Hok1' H1], H2 as [Hok2' H2]. cbn [fst snd].
  destruct r1 as [lock1| |], r2 as [lock2| |]; try (destruct H1 as [[?|?] _]; done);
    try (destruct H2 as [[?|?] _]; done).
  - destruct H1 as (-> & _ & E1), H2 as (-> & _ & E2). split; [done|]. split; try done.
    + by rewrite E1, E2, Hlive.
    + rewrite E1. by apply dom_live_insert.
    + rewrite E2. by apply dom_live_insert.
  - destruct H1 as (_ & Hfree & _), H2 as ((id & Hid & Hl) & _). exfalso.
    apply (Hfree id Hid). by apply (locked_live now (leases_of s1) (leases_of s2)).
  - destruct H2 as (_ & Hfree & _), H1 as ((id & Hid & Hl) & _). exfalso.
    apply (Hfree id Hid). by apply (locked_live now (leases_of s1) (leases_of s2)).
  - destruct H1 as (_ & Hs1 & E1), H2 as (_ & Hs2 & E2). split; [done|].
    apply subseteq_dom in Hs1, Hs2. split; try done; [congruence|set_solver|set_solver].
Qed.

Lemma release_agree (t now : Z) (used : gset gostring) (s1 : S1) (s2 : S2) (k : gostring) :
  t <= now -> agree t used s1 s2 ->
  snd (store_release s1 true k) = snd (store_release s2 true k)
  /\ agree now used (fst (store_release s1 true k)) (fst (store_release s2 true k)).
Proof.
  intros Ht Ha. pose proof (agree_later t now used s1 s2 Ht Ha) as Hlive.
  destruct Ha as [Hok1 Hok2 _ Hd1 Hd2].
  pose proof (release_law s1 true k Hok1) as H1. pose proof (release_law s2 true k Hok2) as H2.
  destruct (store_release s1 _ _) as [s1' r1], (store_release s2 _ _) as [s2' r2].
  destruct H1 as (? & R1 & E1), H2 as (? & R2 & E2). rewrite (R1 eq_refl), (R2 eq_refl) in *. cbn.
  split; [done|]. split; try done.
  - by rewrite E1, E2, !live_delete, Hlive.
  - rewrite E1, dom_delete. set_solver.
  - rewrite E2, dom_delete. set_solver.
Qed.

Lemma check_agree (t now : Z) (used : gset gostring) (s1 : S1) (s2 : S2) (k ty : gostring) (id : Z) :
  t <= now -> agree t used s1 s2 ->
  (snd (store_check s1 true now k ty id) = None <-> snd (store_check s2 true now k ty id) = None)
  /\ agree now used (fst (store_check s1 true now k ty id)) (fst (store_check s2 true now k ty id)).
Proof.
  intros Ht Ha. pose proof (agree_later t now used s1 s2 Ht Ha) as Hlive.
  destruct Ha as [Hok1 Hok2 _ Hd1 Hd2].
  pose proof (check_law s1 true now k ty id Hok1) as H1. pose proof (check_law s2 true now k ty id Hok2) as H2.
  destruct (store_check s1 _ _ _ _ _) as [s1' r1], (store_check s2 _ _ _ _ _) as [s2' r2].
  destruct H1 as (? & Hs1 & E1 & A1 & B1), H2 as (? & Hs2 & E2 & A2 & B2). cbn. rewrite Hlive in *.
  split; [split; auto|]. apply subseteq_dom in Hs1, Hs2. split; try done; [congruence|set_solver|set_solver].
Qed.

Lemma serve_agree (t : Z) (used : gset gostring) (s1 : S1) (s2 : S2) (reqs : list (Z * request)) :
  agree t used s1 s2 -> proper_history t used reqs -> serve_all s1 reqs = serve_all s2 reqs.
Proof.
  revert t used s1 s2. induction reqs as [|[now req] reqs IH]; intros t used s1 s2 Ha Hp; [done|].
  cbn [serve_all proper_history] in *. destruct Hp as [Ht Hp].
  destruct req as [k ty ids owner expiry|k|k ty id|ty id]; cbn [serve].
  - destruct Hp as (Hk & Hnd & Hp).
    destruct (acquire_agree t now used s1 s2 k ty ids owner expiry Ht Ha Hk Hnd) as [Hr Ha'].
    destruct (store_acquire s1 _ _ _ _ _ _ _), (store_acquire s2 _ _ _ _ _ _ _). cbn in Hr, Ha'. subst.
    f_equal. by eapply IH.
  - destruct (release_agree t now used s1 s2 k Ht Ha) as [Hr Ha'].
    destruct (store_release s1 _ _), (store_release s2 _ _). cbn in Hr, Ha'. subst. f_equal. by eapply IH.
  - destruct (check_agree t now used s1 s2 k ty id Ht Ha) as [Hr Ha'].
    destruct (store_check s1 _ _ _ _ _), (store_check s2 _ _ _ _ _). cbn in Hr, Ha'.
    f_equal; [by rewrite (bool_decide_ext _ _ Hr)|]. by eapply IH.
  - pose proof (agree_later t now used s1 s2 Ht Ha) as Hlive.
    assert (agree now used s1 s2) as Ha' by (by destruct Ha).
    f_equal; [|by eapply IH]. f_equal. apply eq_true_iff_eq.
    destruct (islocked_law s1 true now ty id (ag_ok1 _ _ _ _ Ha)) as [A1 B1].
    destruct (islocked_law s2 true now ty id (ag_ok2 _ _ _ _ Ha)) as [A2 B2].
    pose proof (locked_live now (leases_of s1) (leases_of s2) ty id Hlive). naive_solver.
Qed.

Lemma agree_empty (t : Z) : agree t ∅ (empty_store : S1) (empty_store : S2).
Proof.
  destruct (@empty_ok S1 L1) as [? E1], (@empty_ok S2 L2) as [? E2].
  split; try done; rewrite ?E1, ?E2; try done; rewrite dom_empty_L; done.
Qed.

End Agreement.

(** C6. Mutual exclusion: in every state that either store can reach, by any
    interleaving of operations of any clients at any clock readings and with
    storage faults, no feature is covered by two leases. *)
Theorem lock_mutual_exclusion :
  (forall s : Memory.store, reachable s -> exclusive (leases_of s))
  /\ (forall t : Sql.tables, reachable t -> exclusive (leases_of t)).
Proof. split; intros s Hs; by apply reachable_exclusive. Qed.





(** A request that names a feature twice is granted by the in-memory store and
    refused by the SQL store, whose second member row violates the unique guard. *)
Lemma duplicate_ids_refused :
  snd (Memory.memory_acquire ∅ true 0 (B "a") (B "t") [1; 1] [] 5)
    = Granted (new_lock 0 (B "a") (B "t") [1; 1] [] 5)
  /\ snd (Sql.sql_acquire (Sql.mkTables ∅ ∅) true 0 (B "a") (B "t") [1; 1] [] 5) = Failed.
Proof. split; vm_compute; reflexivity. Qed.
