(* ===== verification/Identity.v ===== *)
(** * feature/identity.go: WFS feature identifiers

    A feature identifier is the collection name, escaped to an XML NCName, a dot
    and the decimal number. *)

From S2P Require Import Prelude GoText.

#[local] Open Scope Z_scope.

(** ** Physical keys *)

Record PhysicalFeatureKey := mkKey {
  pk_domain : gostring; pk_relation : gostring; pk_pk : gostring;
  pk_source : gostring; pk_entity : Z
}.

Definition Key_String (k : PhysicalFeatureKey) : gostring :=
  let base := pk_domain k ++ B "." ++ pk_relation k ++ B "." ++ pk_pk k in
  if negb (beq (pk_source k) []) || negb (pk_entity k =? 0) then
    base ++ B "#s" ++ pk_source k ++ B "#e" ++ FormatUint (pk_entity k)
  else base.

(** ** Escaping *)

(** A hexadecimal digit of [%02X]. *)
Definition hex_digit (d : Z) : ascii := if d <? 10 then byte_of (48 + d) else byte_of (55 + d).

(** [fmt.Fprintf(&b, "_x%02X_", c)] *)
Definition hex_escape (c : ascii) : gostring :=
  B "_x" ++ [hex_digit (code c / 16); hex_digit (code c mod 16)] ++ B "_".

Definition hex_escapes (s : gostring) : gostring := concat (map hex_escape s).

(** One iteration of the loop of encodeNCName: the rune [r] at byte [i]. *)
Definition encode_rune (i : nat) (r : Z) : gostring :=
  if ((97 <=? r) && (r <=? 122)) || ((65 <=? r) && (r <=? 90)) then EncodeRune r
  else if r =? 95 then hex_escape "_"
  else if (((48 <=? r) && (r <=? 57)) || (r =? 46) || (r =? 45)) && negb (i =? 0)%nat then EncodeRune r
  else hex_escapes (EncodeRune r).

Definition starts_badly (out : gostring) : bool :=
  match out with
  | c :: _ => is_digit c || Ascii.eqb c "." || Ascii.eqb c "-"
  | [] => false
  end.

Definition encodeNCName (s : gostring) : gostring :=
  let out := concat (map (fun ir => encode_rune (fst ir) (snd ir)) (range_string s)) in
  if starts_badly out then "_"%char :: out else out.

Definition sanitizeNCName (s : gostring) : gostring := encodeNCName s.

Definition EncodeWFSFID (collection : gostring) (id : Z) : result string gostring :=
  if beq collection [] then Err "empty collection for FID encoding"
  else
    let safe := encodeNCName collection in
    if beq safe [] then Err "collection has no NCName-safe characters"
    else Ok (safe ++ B "." ++ FormatUint id).

(** ** Unescaping *)

Definition hex_value (c : ascii) : option Z :=
  if is_digit c then Some (code c - 48)
  else if in_range 65 70 c then Some (code c - 55)
  else if in_range 97 102 c then Some (code c - 87)
  else None.

(** White space that Sscanf skips before a number: a line break is an error. *)
Definition scan_space (c : ascii) : bool :=
  Ascii.eqb c " " || Ascii.eqb c "009" || Ascii.eqb c "011" || Ascii.eqb c "012" || Ascii.eqb c "013".

(** [fmt.Sscanf("_xAB_", "_x%02X_", &v)] for the bytes [a] and [b]: leading
    space is skipped, at most two hexadecimal digits are read, an underscore must
    follow, and what is left after it is not looked at. *)
Definition scan_hex (a b : ascii) : option Z :=
  match hex_value a with
  | Some x =>
      match hex_value b with
      | Some y => Some (x * 16 + y)
      | None => if Ascii.eqb b "_" then Some x else None
      end
  | None => if scan_space a then hex_value b else None
  end.

Fixpoint decodeNCName (s : gostring) : result string gostring :=
  match s with
  | [] => Ok []
  | c0 :: s1 =>
      match s1 with
      | c1 :: c2 :: c3 :: c4 :: s5 =>
          if Ascii.eqb c0 "_" && Ascii.eqb c1 "x" && Ascii.eqb c4 "_" then
            match scan_hex c2 c3 with
            | Some v => let? rest := decodeNCName s5 in Ok (byte_of v :: rest)
            | None => Err "invalid _xHH_ escape"
            end
          else let? rest := decodeNCName s1 in Ok (c0 :: rest)
      | _ => let? rest := decodeNCName s1 in Ok (c0 :: rest)
      end
  end.

Definition DecodeWFSFID (fid : gostring) : result string (gostring * Z) :=
  match LastIndexByte fid "." with
  | None => Err "malformed feature ID"
  | Some idx =>
      if (idx =? 0)%nat || (S idx =? length fid)%nat then Err "malformed feature ID"
      else
        let? collection := decodeNCName (take idx fid) in
        match ParseUint (drop (S idx) fid) 64 with
        | Some n => Ok (collection, n)
        | None => Err "malformed feature ID"
        end
  end.

(** ** The escapes are undone *)

Lemma hex_digit_value (d : Z) : 0 <= d < 16 -> hex_value (hex_digit d) = Some d.
Proof.
  intros Hd. assert (Forall (fun d => hex_value (hex_digit d) = Some d) (seqZ 0 16)) as H.
  { repeat (constructor; [vm_compute; reflexivity|]). constructor. }
  rewrite Forall_forall in H. apply H, elem_of_seqZ. lia.
Qed.

Lemma decode_hex_escape (c : ascii) (s : gostring) :
  decodeNCName (hex_escape c ++ s) = let? rest := decodeNCName s in Ok (c :: rest).
Proof.
  unfold hex_escape. pose proof (code_range c).
  assert (0 <= code c / 16 < 16) by (split; [apply Z.div_pos; lia|apply Z.div_lt_upper_bound; lia]).
  pose proof (Z.mod_pos_bound (code c) 16 ltac:(lia)).
  cbn [B String.list_ascii_of_string app decodeNCName].
  change (Ascii.eqb "_" "_" && Ascii.eqb "x" "x" && Ascii.eqb "_" "_") with true. cbv iota.
  unfold scan_hex. rewrite !hex_digit_value by done.
  rewrite Z.mul_comm, <- Z.div_mod by lia. by rewrite byte_of_code.
Qed.

Lemma decode_hex_escapes (u s : gostring) :
  decodeNCName (hex_escapes u ++ s) = let? rest := decodeNCName s in Ok (u ++ rest).
Proof.
  induction u as [|c u IH]; cbn [app].
  - unfold hex_escapes. cbn. by destruct (decodeNCName s).
  - change (hex_escapes (c :: u)) with (hex_escape c ++ hex_escapes u).
    rewrite <- app_assoc, decode_hex_escape, IH. by destruct (decodeNCName s).
Qed.

Lemma decode_plain (c : ascii) (s : gostring) :
  c <> "_"%char -> decodeNCName (c :: s) = let? rest := decodeNCName s in Ok (c :: rest).
Proof.
  intros Hc. cbn [decodeNCName]. rewrite (proj2 (Ascii.eqb_neq c "_")) by done. cbn [andb].
  by destruct s as [|c1 [|c2 [|c3 [|c4 s]]]].
Qed.

Lemma decode_rune (i : nat) (r : Z) (s : gostring) :
  valid_rune r = true ->
  decodeNCName (encode_rune i r ++ s) = let? rest := decodeNCName s in Ok (EncodeRune r ++ rest).
Proof.
  intros Hv. pose proof (proj1 (valid_rune_iff r) Hv) as [Hr _]. unfold encode_rune.
  assert (forall r, 0 <= r < 128 -> r <> 95 ->
    decodeNCName (EncodeRune r ++ s) = let? rest := decodeNCName s in Ok (EncodeRune r ++ rest)) as Hplain.
  { intros x Hx Hne. rewrite EncodeRune_ascii by done. cbn [app]. apply decode_plain.
    intros E. apply Hne. rewrite <- (code_byte_of x) by lia. by rewrite E. }
  destruct (_ || _) eqn:E1; [apply Hplain; bool_props; lia|].
  destruct (Z.eqb_spec r 95) as [->|H95]; [apply decode_hex_escape|].
  destruct (_ && negb _) eqn:E2; [apply Hplain; bool_props; lia|]. apply decode_hex_escapes.
Qed.

Lemma decode_runes (rs : list (nat * Z)) :
  valid_runes (map snd rs) ->
  decodeNCName (concat (map (fun ir => encode_rune (fst ir) (snd ir)) rs)) = Ok (EncodeRunes (map snd rs)).
Proof.
  induction rs as [|[i r] rs IH]; intros Hv; [done|]. apply Forall_cons in Hv as [Hr Hv].
  cbn [map concat fst snd]. by rewrite decode_rune, IH by done.
Qed.

(** ** The result is an NCName *)

Definition name_byte (c : ascii) : bool :=
  is_letter c || is_digit c || Ascii.eqb c "." || Ascii.eqb c "-" || Ascii.eqb c "_".

(** An ASCII NCName: letters, digits, dots, hyphens and underscores, starting
    with a letter or an underscore. *)
Definition is_ncname (s : gostring) : bool :=
  match s with
  | c :: _ => (is_letter c || Ascii.eqb c "_") && forallb name_byte s
  | [] => false
  end.

Lemma hex_digit_name (d : Z) : 0 <= d < 16 -> name_byte (hex_digit d) = true.
Proof.
  intros Hd. assert (Forall (fun d => name_byte (hex_digit d) = true) (seqZ 0 16)) as H.
  { repeat (constructor; [vm_compute; reflexivity|]). constructor. }
  rewrite Forall_forall in H. apply H, elem_of_seqZ. lia.
Qed.

Lemma hex_escape_name (c : ascii) : forallb name_byte (hex_escape c) = true.
Proof.
  pose proof (code_range c).
  assert (0 <= code c / 16 < 16) by (split; [apply Z.div_pos; lia|apply Z.div_lt_upper_bound; lia]).
  pose proof (Z.mod_pos_bound (code c) 16 ltac:(lia)).
  unfold hex_escape. cbn. by rewrite !hex_digit_name.
Qed.

Lemma hex_escapes_name (u : gostring) :
  forallb name_byte (hex_escapes u) = true /\ (u <> [] -> exists t, hex_escapes u = "_"%char :: t).
Proof.
  induction u as [|c u [IH _]]; [done|].
  change (hex_escapes (c :: u)) with (hex_escape c ++ hex_escapes u).
  rewrite forallb_app, hex_escape_name, IH. split; [done|]. intros _. eexists. reflexivity.
Qed.

(** The output for a rune: name bytes only, and a name start at the beginning. *)
Lemma encode_rune_name (i : nat) (r : Z) :
  valid_rune r = true ->
  forallb name_byte (encode_rune i r) = true
  /\ exists c t, encode_rune i r = c :: t /\ (i = 0%nat -> is_letter c || Ascii.eqb c "_" = true).
Proof.
  intros Hv. unfold encode_rune. pose proof (EncodeRune_nonempty r) as Hne.
  destruct (_ || _) eqn:E1.
  { rewrite EncodeRune_ascii by (bool_props; lia).
    assert (is_letter (byte_of r) = true) as Hl.
    { unfold is_letter, is_lower, is_upper. rewrite orb_true_iff, !in_range_iff, code_byte_of by (bool_props; lia).
      bool_props. lia. }
    cbn. unfold name_byte. rewrite Hl. split; [done|]. eexists _, _. split; [done|]. by rewrite Hl. }
  destruct (Z.eqb_spec r 95) as [->|H95].
  { split; [apply hex_escape_name|]. do 2 eexists. split; [reflexivity|done]. }
  destruct (_ && negb _) eqn:E2.
  { apply andb_true_iff in E2 as [E2 Hi]. rewrite EncodeRune_ascii by (bool_props; lia).
    assert (name_byte (byte_of r) = true) as Hn.
    { unfold name_byte, is_digit. rewrite !orb_true_iff in *. rewrite !andb_true_iff, !Z.leb_le, !Z.eqb_eq in E2.
      destruct E2 as [[?| ->]| ->]; [|by auto|by auto].
      do 3 left. right. apply in_range_iff. rewrite code_byte_of; lia. }
    cbn. rewrite Hn. split; [done|]. do 2 eexists. split; [done|]. intros ->. done. }
  destruct (hex_escapes_name (EncodeRune r)) as [H1 H2]. split; [done|].
  destruct (H2 Hne) as [t ->]. do 2 eexists. split; [done|]. done.
Qed.

Lemma encoded_name (rs : list (nat * Z)) :
  valid_runes (map snd rs) ->
  forallb name_byte (concat (map (fun ir => encode_rune (fst ir) (snd ir)) rs)) = true.
Proof.
  induction rs as [|[i r] rs IH]; intros Hv; [done|]. apply Forall_cons in Hv as [Hr Hv].
  cbn [map concat fst snd]. rewrite forallb_app, IH by done. by rewrite (proj1 (encode_rune_name i r Hr)).
Qed.

(** The runes of a string are always valid, and the first is at offset 0. *)
Lemma range_string_valid (s : gostring) :
  valid_runes (map snd (range_string s))
  /\ (s <> [] -> exists r rest, range_string s = (0%nat, r) :: rest).
Proof.
  split.
  - unfold range_string. generalize (length s) at 1. generalize 0%nat. intros i n. revert s i.
    induction n as [|n IH]; intros s i; cbn [range_loop]; [constructor|].
    destruct s as [|c s]; [constructor|]. destruct (DecodeRune (c :: s)) as [r w] eqn:E.
    constructor; [|apply IH]. cbn [snd].
    destruct (decide (r = RuneError)) as [->|Hne]; [done|].
    apply (EncodeRune_DecodeRune (c :: s) r w E); [done|]. naive_solver.
  - intros Hs. destruct s as [|c s]; [done|]. unfold range_string. cbn [length range_loop].
    destruct (DecodeRune (c :: s)) as [r w]. eauto.
Qed.

Lemma encodeNCName_spec (s : gostring) :
  s <> [] ->
  is_ncname (encodeNCName s) = true
  /\ encodeNCName s = concat (map (fun ir => encode_rune (fst ir) (snd ir)) (range_string s)).
Proof.
  intros Hs. destruct (range_string_valid s) as [Hv Hhead]. destruct (Hhead Hs) as (r & rest & Hr).
  pose proof (encoded_name _ Hv) as Hn. unfold encodeNCName. rewrite Hr in *.
  apply Forall_cons in Hv as [Hrv _]. cbn [map concat fst snd] in *.
  destruct (encode_rune_name 0 r Hrv) as (_ & c & t & E & Hc). rewrite E in *. cbn [app] in *.
  specialize (Hc eq_refl).
  assert (starts_badly (c :: t ++ concat (map (fun ir => encode_rune (fst ir) (snd ir)) rest)) = false) as Hb.
  { cbn. unfold is_letter, is_lower, is_upper, is_digit in *. rewrite !orb_false_iff, !Ascii.eqb_neq.
    rewrite !orb_true_iff, !in_range_iff, Ascii.eqb_eq in Hc. split_and!.
    - apply not_true_iff_false. rewrite in_range_iff. destruct Hc as [?| ->]; [lia|].
      change (code "_") with 95. lia.
    - intros ->. destruct Hc as [?|?]; [|done]. change (code ".") with 46 in *. lia.
    - intros ->. destruct Hc as [?|?]; [|done]. change (code "-") with 45 in *. lia. }
  rewrite Hb. split; [|done]. unfold is_ncname. by rewrite Hc, Hn.
Qed.

(** Feature identifiers round-trip: for every valid UTF-8 collection name and
    every 64-bit number, the encoded identifier is an XML NCName and decodes to
    exactly that name and number. *)
Lemma WFSFID_roundtrip (collection : gostring) (id : Z) :
  collection <> [] -> ValidString collection = true -> 0 <= id < 2 ^ 64 ->
  exists fid, EncodeWFSFID collection id = Ok fid
    /\ DecodeWFSFID fid = Ok (collection, id) /\ is_ncname fid = true.
Proof.
  intros Hne Hv Hid. destruct (encodeNCName_spec collection Hne) as [Hn He].
  apply ValidString_runes in Hv as (rs & Hrv & Hc).
  assert (decodeNCName (encodeNCName collection) = Ok collection) as Hd.
  { rewrite He, decode_runes; subst collection; by rewrite range_string_runes. }
  set (safe := encodeNCName collection) in *.
  pose proof (FormatUint_digits id ltac:(lia)) as Hdig. pose proof (FormatUint_nonempty id) as Hfn.
  assert (beq safe [] = false) as Hsafe by (apply beq_false; by intros ->).
  exists (safe ++ B "." ++ FormatUint id). unfold EncodeWFSFID. fold safe.
  rewrite (proj2 (beq_false _ _) Hne), Hsafe. split_and!; [done| |].
  - unfold DecodeWFSFID. cbn [B String.list_ascii_of_string app]. rewrite LastIndexByte_app.
    + assert (length safe <> 0)%nat as Hl by (destruct safe; [done|cbn; lia]).
      rewrite (proj2 (Nat.eqb_neq _ _) Hl), length_app. cbn [length].
      assert (length (FormatUint id) <> 0)%nat by (destruct (FormatUint id); [done|cbn; lia]).
      rewrite (proj2 (Nat.eqb_neq (S (length safe)) _)) by lia. cbn [orb].
      rewrite take_app_length, Hd. cbn [rbind].
      replace (S (length safe)) with (length safe + 1)%nat by lia.
      rewrite drop_app_add. cbn [drop]. rewrite drop_0. by rewrite ParseUint_FormatUint.
    + intros Hin. apply forallb_Forall_true in Hdig. rewrite Forall_forall in Hdig. by apply Hdig in Hin.
  - unfold is_ncname in *. destruct safe as [|c t]; [done|]. cbn [app].
    apply andb_true_iff in Hn as [-> Hn]. cbn [andb].
    change (c :: t ++ B "." ++ FormatUint id) with ((c :: t) ++ B "." ++ FormatUint id).
    rewrite forallb_app, Hn. cbn [andb B String.list_ascii_of_string app forallb].
    change (name_byte ".") with true. cbn [andb]. apply forallb_Forall_true in Hdig.
    apply forallb_Forall_true. eapply Forall_impl; [exact Hdig|]. intros x Hx.
    unfold name_byte. by rewrite Hx, orb_true_r.
Qed.

(** Two distinct collection names with the same identifier: bytes that are not
    UTF-8 are all encoded as U+FFFD. *)
Lemma encodeNCName_not_injective :
  encodeNCName ["255"%char] = encodeNCName ["254"%char].
Proof. vm_compute. reflexivity. Qed.

(** The decoder accepts escapes that the encoder never writes: one digit, or a
    blank before it, give the same name as the two-digit escape. *)
Lemma decodeNCName_lenient :
  decodeNCName (B "_xA__") = decodeNCName (B "_x0A_") /\ decodeNCName (B "_x A_") = decodeNCName (B "_x0A_").
Proof. split; vm_compute; reflexivity. Qed.
