(* ===== verification/Schema.v ===== *)
(** * feature/schema.go, provider/mutation.go and the input checks of
    feature/mutation.go

    The write contract of a collection (property and geometry descriptors), the
    neutral mutation commands, and what validateMutationInput accepts. *)

From S2P Require Import Prelude GoText Temporal Filter.

#[local] Open Scope Z_scope.

(** ** Descriptors and values *)

Inductive ValueState := ValueAbsent | ValueNull | ValueEmpty | ValuePresent.

#[export] Instance ValueState_eq_dec : EqDecision ValueState.
Proof. solve_decision. Defined.

Inductive LogicalType :=
| TypeInteger | TypeDecimal | TypeString | TypeBoolean | TypeDateTime | TypeGeometry.

#[export] Instance LogicalType_eq_dec : EqDecision LogicalType.
Proof. solve_decision. Defined.

Record TypedValue := mkTyped {
  tv_type : LogicalType; tv_state : ValueState; tv_integer : Z;
  tv_decimal : gostring; tv_string : gostring; tv_boolean : bool
}.

Record PropertyDescriptor := mkProperty {
  pd_name : gostring; pd_column : gostring; pd_type : LogicalType;
  pd_nullable : bool; pd_required : bool; pd_readonly : bool; pd_writeonly : bool;
  pd_has_default : bool; pd_max_length : Z; pd_allowed : list gostring
}.

(** The coordinate dimension is one of the strings XY, XYZ, XYM and XYZM. *)
Record GeometryDescriptor := mkGeometry {
  gd_nullable : bool; gd_name : gostring; gd_column : gostring; gd_type : gostring;
  gd_dimension : gostring; gd_srid : Z
}.

Record SchemaDescriptor := mkSchema {
  sd_collection : gostring; sd_id_column : gostring; sd_properties : list PropertyDescriptor;
  sd_geometry : GeometryDescriptor; sd_revision_column : gostring; sd_version : gostring
}.

(** ** Mutation commands *)

(** [MutationOp] is an int: [MutationOpOther] is a value outside the four
    constants. *)
Inductive MutationOp :=
| MutationInsert | MutationReplace | MutationUpdate | MutationDelete | MutationOpOther (n : Z).

#[export] Instance MutationOp_eq_dec : EqDecision MutationOp.
Proof. solve_decision. Defined.

Definition Op_String (op : MutationOp) : gostring :=
  match op with
  | MutationInsert => B "insert"
  | MutationReplace => B "replace"
  | MutationUpdate => B "update"
  | MutationDelete => B "delete"
  | MutationOpOther _ => B "unknown"
  end.

Inductive MutationValueKind :=
| MutationValueUnset | MutationValueInteger | MutationValueDecimal
| MutationValueString | MutationValueBoolean.

Record MutationValue := mkValue {
  mv_null : bool; mv_empty : bool; mv_integer : Z; mv_decimal : gostring;
  mv_string : gostring; mv_boolean : bool; mv_kind : MutationValueKind
}.

(** [m_wkb] is [None] for the nil slice. *)
Record Mutation := mkMutation {
  m_op : MutationOp; m_collection : gostring; m_feature : Z;
  m_properties : gmap gostring MutationValue;
  m_wkb : option gostring; m_absent : bool; m_srid : Z; m_unchanged : bool;
  m_if_revision : gostring
}.

Inductive MutationErrorKind :=
| MutationErrMalformedInput | MutationErrSchemaViolation | MutationErrDenied
| MutationErrNotFound | MutationErrPreconditionFailed | MutationErrLockConflict
| MutationErrUnsupportedCapability | MutationErrQuotaExceeded | MutationErrDomainMismatch
| MutationErrCommitUnknown | MutationErrExecutionFailed.

(** The errors of the schema checks, in place of their texts. *)
Inductive schema_error :=
| UnknownProperty (name : gostring)
| ReadOnlyProperty (name : gostring)
| NullNotAccepted (name : gostring)
| TypeMismatch (name : gostring) (expected got : LogicalType)
| ExceedsMaxLength (name : gostring) (max : Z)
| NotInAllowedSet (name : gostring)
| NotTimestamp (name : gostring)
| NotDecimal (name : gostring)
| RequiredEmpty (name : gostring)
| RequiredMissing (name : gostring)
| RequiredNull (name : gostring).

(** ** The scalar formats *)

(** The loop of isCanonicalDecimal from the first digit on: [dot] and [digits]
    are its variables. *)
Fixpoint decimal_loop (s : gostring) (dot : bool) (digits : Z) : bool :=
  match s with
  | [] => 0 <? digits
  | c :: s' =>
      if Ascii.eqb c "." then (if dot then false else decimal_loop s' true digits)
      else if (code c <? 48) || (57 <? code c) then false
      else decimal_loop s' dot (digits + 1)
  end.

Definition isCanonicalDecimal (s : gostring) : bool :=
  match TrimSpace s with
  | [] => false
  | c :: s' =>
      if Ascii.eqb c "+" || Ascii.eqb c "-" then decimal_loop s' false 0
      else decimal_loop (c :: s') false 0
  end.

(** The zone of rfc3339Input: [[Zz]] or a numeric offset, in minutes. *)
Definition zone_offset (s : gostring) : option Z :=
  match s with
  | [c] => if Ascii.eqb c "Z" || Ascii.eqb c "z" then Some 0 else None
  | [sg; h1; h2; c; m1; m2] =>
      if (Ascii.eqb sg "+" || Ascii.eqb sg "-")
         && (((Ascii.eqb h1 "0" || Ascii.eqb h1 "1") && is_digit h2)
             || (Ascii.eqb h1 "2" && in_range 48 51 h2))
         && Ascii.eqb c ":" && in_range 48 53 m1 && is_digit m2
      then
        let off := ((code h1 - 48) * 10 + (code h2 - 48)) * 60 + (code m1 - 48) * 10 + (code m2 - 48) in
        Some (if Ascii.eqb sg "-" then - off else off)
      else None
  | _ => None
  end.

(** [rfc3339Input]: the zone offset of a text that matches. *)
Definition rfc3339Input (s : gostring) : option Z :=
  let digits_at i n := forallb is_digit (slice s i (i + n)) in
  if (20 <=? length s)%nat
     && digits_at 0%nat 4%nat && byte_at s 4 "-" && digits_at 5%nat 2%nat && byte_at s 7 "-"
     && digits_at 8%nat 2%nat && (byte_at s 10 "T" || byte_at s 10 "t")
     && digits_at 11%nat 2%nat && byte_at s 13 ":"
     && digits_at 14%nat 2%nat && byte_at s 16 ":" && digits_at 17%nat 2%nat
  then
    match drop 19 s with
    | c :: r =>
        if Ascii.eqb c "." then
          let '(f, r') := digit_run r in
          if beq f [] then None else zone_offset r'
        else zone_offset (c :: r)
    | [] => None
    end
  else None.

(** [time.Parse(time.RFC3339Nano, ...)] on a text of the pattern, with second
    60 already replaced by 59: the local civil time, to the second. *)
Definition parse_clock (s : gostring) (leap : bool) : option Time :=
  match parse_date (take 10 s), parse_fixed s 11 2, parse_fixed s 14 2, parse_fixed s 17 2 with
  | Some d, Some hh, Some mm, Some ss =>
      let ss := if leap then 59 else ss in
      if (hh <=? 23) && (mm <=? 59) && (ss <=? 59) then
        Some (mkTime (t_year d) (t_month d) (t_day d) hh mm ss 0)
      else None
  | _, _, _, _ => None
  end.

(** IsPositiveLeapSecondPredecessor of an instant given by its Unix time, as the
    UTC conversion in that function has it. *)
Definition leap_predecessor_at (unix : Z) : bool :=
  existsb (fun '(y, m, d) => unix =? Unix (mkTime y m d 23 59 59 0)) leap_second_dates.

Definition validRFC3339 (value : gostring) : bool :=
  match rfc3339Input value with
  | None => false
  | Some offset =>
      let leap := beq (slice value 17 19) (B "60") in
      match parse_clock value leap with
      | None => false
      | Some parsed => negb leap || leap_predecessor_at (Unix parsed - offset * 60)
      end
  end.

(** ** SchemaDescriptor *)

Fixpoint find_property (ps : list PropertyDescriptor) (name : gostring) : option PropertyDescriptor :=
  match ps with
  | [] => None
  | p :: ps' => if beq (pd_name p) name then Some p else find_property ps' name
  end.

Definition Property (s : SchemaDescriptor) (name : gostring) : option PropertyDescriptor :=
  find_property (sd_properties s) name.

(** The switch on the type of the property. *)
Definition check_format (p : PropertyDescriptor) (name : gostring) (v : TypedValue)
    : result schema_error unit :=
  match pd_type p with
  | TypeString =>
      if (0 <? pd_max_length p) && (pd_max_length p <? blen (tv_string v)) then
        Err (ExceedsMaxLength name (pd_max_length p))
      else if (0 <? blen (pd_allowed p)) && negb (existsb (fun a => beq a (tv_string v)) (pd_allowed p)) then
        Err (NotInAllowedSet name)
      else Ok tt
  | TypeDateTime => if negb (validRFC3339 (tv_string v)) then Err (NotTimestamp name) else Ok tt
  | TypeDecimal => if negb (isCanonicalDecimal (tv_decimal v)) then Err (NotDecimal name) else Ok tt
  | _ => Ok tt
  end.

Definition ValidateInputValue (s : SchemaDescriptor) (name : gostring) (v : TypedValue)
    : result schema_error unit :=
  match Property s name with
  | None => Err (UnknownProperty name)
  | Some p =>
      if pd_readonly p then Err (ReadOnlyProperty name)
      else if bool_decide (tv_state v = ValueAbsent) || bool_decide (tv_state v = ValueNull) then
        if bool_decide (tv_state v = ValueNull) && negb (pd_nullable p) then Err (NullNotAccepted name)
        else Ok tt
      else if negb (bool_decide (tv_type v = pd_type p)) then
        Err (TypeMismatch name (pd_type p) (tv_type v))
      else
        check? check_format p name v in
        if bool_decide (tv_state v = ValueEmpty) && pd_required p && negb (pd_nullable p) then
          Err (RequiredEmpty name)
        else Ok tt
  end.

(** One iteration of ValidateRequired. *)
Definition check_required (present : gmap gostring TypedValue) (p : PropertyDescriptor)
    : result schema_error unit :=
  if negb (pd_required p) || pd_readonly p then Ok tt
  else
    match present !! pd_name p with
    | None => if pd_has_default p then Ok tt else Err (RequiredMissing (pd_name p))
    | Some v =>
        if bool_decide (tv_state v = ValueAbsent) then
          (if pd_has_default p then Ok tt else Err (RequiredMissing (pd_name p)))
        else if bool_decide (tv_state v = ValueNull) && negb (pd_nullable p) then
          Err (RequiredNull (pd_name p))
        else Ok tt
    end.

Definition ValidateRequired (s : SchemaDescriptor) (present : gmap gostring TypedValue)
    : result schema_error unit :=
  rfold (fun p _ => check_required present p) (sd_properties s) tt.

(** ** The input checks of the coordinator *)

Definition mutationValueToTyped (s : SchemaDescriptor) (name : gostring) (mv : MutationValue)
    : TypedValue :=
  let state := if mv_empty mv then ValueEmpty else if mv_null mv then ValueNull else ValuePresent in
  let ty := match Property s name with Some p => pd_type p | None => TypeInteger end in
  match mv_kind mv with
  | MutationValueInteger => mkTyped ty state (mv_integer mv) [] [] false
  | MutationValueDecimal => mkTyped ty state 0 (mv_decimal mv) [] false
  | MutationValueString => mkTyped ty state 0 [] (mv_string mv) false
  | MutationValueBoolean => mkTyped ty state 0 [] [] (mv_boolean mv)
  | MutationValueUnset => mkTyped ty state 0 [] [] false
  end.

(** The errors of validateMutationInput: malformed commands and schema
    violations. *)
Inductive input_error :=
| Malformed (reason : gostring)
| GeometryRequired
| SchemaViolation (e : schema_error).

Definition input_error_kind (e : input_error) : MutationErrorKind :=
  match e with
  | Malformed _ => MutationErrMalformedInput
  | GeometryRequired | SchemaViolation _ => MutationErrSchemaViolation
  end.

Definition schema_check (r : result schema_error unit) : result input_error unit :=
  match r with Ok u => Ok u | Err e => Err (SchemaViolation e) end.

(** The loop over the properties.  The map is walked in the order of
    [map_to_list]; the order of the program is unspecified and only decides which
    of several violations is reported. *)
Definition check_properties (s : SchemaDescriptor) (m : Mutation) : result input_error unit :=
  rfold (fun nv _ =>
           schema_check (ValidateInputValue s (fst nv) (mutationValueToTyped s (fst nv) (snd nv))))
    (map_to_list (m_properties m)) tt.

Definition validateMutationInput (s : SchemaDescriptor) (m : Mutation) : result input_error unit :=
  let op_is op := bool_decide (m_op m = op) in
  let no_wkb := bool_decide (m_wkb m = None) in
  if m_unchanged m && (negb (op_is MutationReplace) || beq (m_if_revision m) [] || negb no_wkb || m_absent m) then
    Err (Malformed (B "unchanged geometry requires a revision-bound replacement without a geometry payload"))
  else if op_is MutationDelete then
    if m_feature m =? 0 then Err (Malformed (B "delete requires a feature ID")) else Ok tt
  else
    let missingCompleteGeometry :=
      (op_is MutationInsert || op_is MutationReplace) && no_wkb && negb (m_unchanged m) in
    if negb (gd_nullable (sd_geometry s)) && (m_absent m || missingCompleteGeometry) then
      Err GeometryRequired
    else if op_is MutationInsert && negb (m_feature m =? 0) then
      Err (Malformed (B "insert must not carry a feature ID"))
    else if (op_is MutationReplace || op_is MutationUpdate) && (m_feature m =? 0) then
      Err (Malformed (Op_String (m_op m) ++ B " requires a feature ID"))
    else
      check? check_properties s m in
      if op_is MutationInsert || op_is MutationReplace then
        schema_check
          (ValidateRequired s (map_imap (fun name mv => Some (mutationValueToTyped s name mv)) (m_properties m)))
      else Ok tt.

(** ** Decimals *)

(** An optional sign, digits, and at most one point among them. *)
Definition decimal_text (d : gostring) : Prop :=
  exists sign int point frac,
    d = sign ++ int ++ point ++ frac
    /\ (sign = [] \/ sign = ["+"%char] \/ sign = ["-"%char])
    /\ forallb is_digit int = true /\ forallb is_digit frac = true /\ int ++ frac <> []
    /\ (point = ["."%char] \/ point = [] /\ frac = []).

Lemma is_digit_code (c : ascii) : is_digit c = negb ((code c <? 48) || (57 <? code c)).
Proof.
  unfold is_digit, in_range. rewrite negb_orb. by rewrite <- !Z.leb_antisym.
Qed.

(** After the point only digits may follow. *)
Lemma decimal_loop_tail (s : gostring) (digits : Z) :
  decimal_loop s true digits = forallb is_digit s && (0 <? digits + blen s).
Proof.
  revert digits. induction s as [|c s IH]; intros digits; cbn [decimal_loop forallb].
  { by rewrite andb_true_l, (@blen_nil ascii), Z.add_0_r. }
  rewrite is_digit_code. destruct (Ascii.eqb_spec c ".") as [->|]; [done|].
  destruct ((code c <? 48) || (57 <? code c)); cbn [negb andb]; [done|].
  rewrite IH. unfold blen. cbn [length]. do 2 f_equal. lia.
Qed.

Lemma decimal_loop_spec (s : gostring) (digits : Z) :
  0 <= digits ->
  decimal_loop s false digits = true
  <-> exists int point frac,
        s = int ++ point ++ frac /\ forallb is_digit int = true /\ forallb is_digit frac = true
        /\ 0 < digits + blen int + blen frac /\ (point = ["."%char] \/ point = [] /\ frac = []).
Proof.
  revert digits. induction s as [|c s IH]; intros digits Hd; cbn [decimal_loop].
  - rewrite Z.ltb_lt. split.
    + intros ?. exists [], [], []. rewrite !(@blen_nil ascii). split_and!; try done; [lia|by right].
    + intros (int & point & frac & E & _ & _ & H & _).
      symmetry in E. apply app_nil in E as [-> [-> ->]%app_nil]. revert H. rewrite !(@blen_nil ascii). lia.
  - destruct (Ascii.eqb_spec c ".") as [->|Hc].
    + rewrite decimal_loop_tail, andb_true_iff, Z.ltb_lt. split.
      * intros [Hs Hn]. exists [], ["."%char], s. rewrite !(@blen_nil ascii). split_and!; try done; [lia|by left].
      * intros ([|x int] & point & frac & E & Hi & Hf & H & Hp).
        { destruct Hp as [->|[-> ->]]; [|done]. injection E as ->. rewrite !(@blen_nil ascii) in H. split; [done|lia]. }
        injection E as <- _. done.
    + pose proof (is_digit_code c) as Hdc. destruct ((code c <? 48) || (57 <? code c)); cbn [negb] in Hdc.
      * split; [done|]. intros ([|x int] & point & frac & E & Hi & Hf & H & Hp).
        { destruct Hp as [->|[-> ->]]; [|done]. by injection E as ? _. }
        injection E as <- _. cbn [forallb] in Hi. by rewrite Hdc in Hi.
      * rewrite IH by lia. split.
        -- intros (int & point & frac & -> & Hi & Hf & H & Hp). exists (c :: int), point, frac.
           cbn [forallb]. rewrite Hdc, Hi. split_and!; try done. unfold blen in *. cbn [length]. lia.
        -- intros ([|x int] & point & frac & E & Hi & Hf & H & Hp).
           { destruct Hp as [->|[-> ->]]; [|done]. injection E as ? _. done. }
           injection E as <- ->. cbn [forallb] in Hi. rewrite Hdc in Hi. exists int, point, frac.
           split_and!; try done. unfold blen in *. cbn [length] in H. lia.
Qed.

Lemma decimal_text_visible (d : gostring) :
  decimal_text d -> d <> [] /\ forallb (fun c => (code c <? 128) && negb (IsSpace (code c))) d = true.
Proof.
  intros (sign & int & point & frac & -> & Hs & Hi & Hf & Hne & Hp).
  assert (forall t, forallb is_digit t = true ->
            forallb (fun c => (code c <? 128) && negb (IsSpace (code c))) t = true) as Hdig.
  { intros t. rewrite !forallb_forall. intros H c Hc%H. rewrite is_digit_code in Hc.
    apply negb_true_iff, orb_false_iff in Hc as [H1%Z.ltb_ge H2%Z.ltb_ge].
    unfold IsSpace. rewrite andb_true_iff, negb_true_iff, !orb_false_iff, !andb_false_iff.
    rewrite Z.ltb_lt, !Z.leb_gt, !Z.eqb_neq. lia. }
  split.
  - intros [_ [-> [-> ->]%app_nil]%app_nil]%app_nil. done.
  - rewrite !forallb_app, (Hdig int Hi), (Hdig frac Hf).
    destruct Hs as [->|[->| ->]], Hp as [->|[-> _]]; by vm_compute.
Qed.

Lemma isCanonicalDecimal_trimmed (s : gostring) :
  isCanonicalDecimal s = true <-> decimal_text (TrimSpace s).
Proof.
  unfold isCanonicalDecimal. destruct (TrimSpace s) as [|c t].
  { split; [done|]. intros [Hne _]%decimal_text_visible. done. }
  destruct (Ascii.eqb c "+" || Ascii.eqb c "-") eqn:Es; rewrite decimal_loop_spec by lia; split.
  - intros (int & point & frac & -> & Hi & Hf & H & Hp). exists [c], int, point, frac. split_and!; try done.
    + apply orb_true_iff in Es as [->%Ascii.eqb_eq| ->%Ascii.eqb_eq]; auto.
    + intros [-> ->]%app_nil. rewrite !(@blen_nil ascii) in H. lia.
  - intros (sign & int & point & frac & E & Hs & Hi & Hf & Hne & Hp). exists int, point, frac.
    assert (sign = [c] /\ t = int ++ point ++ frac) as [-> ->].
    { destruct Hs as [->|[->| ->]]; [|by injection E as -> ->..]. exfalso. cbn [app] in E.
      destruct int as [|x int]; [destruct Hp as [->|[-> ->]]; [|done]; by injection E as -> _|].
      injection E as <- _. cbn [forallb] in Hi. apply andb_true_iff in Hi as [Hi _].
      by apply orb_true_iff in Es as [->%Ascii.eqb_eq| ->%Ascii.eqb_eq]. }
    split_and!; try done. destruct int, frac; try done; unfold blen; cbn [length]; lia.
  - intros (int & point & frac & -> & Hi & Hf & H & Hp). exists [], int, point, frac. split_and!; try done.
    + by left.
    + intros [-> ->]%app_nil. rewrite !(@blen_nil ascii) in H. lia.
  - intros (sign & int & point & frac & E & Hs & Hi & Hf & Hne & Hp). exists int, point, frac.
    assert (sign = []) as ->. { by destruct Hs as [->|[->| ->]]; [|injection E as -> _..]. }
    split_and!; try done. destruct int, frac; try done; unfold blen; cbn [length]; lia.
Qed.

(** A decimal input is accepted exactly when it is, between white space, an
    optional sign and digits with at most one decimal point among them. *)
Lemma isCanonicalDecimal_exact (s : gostring) :
  isCanonicalDecimal s = true
  <-> exists l d r, s = l ++ d ++ r /\ white l /\ white r /\ decimal_text d.
Proof.
  rewrite isCanonicalDecimal_trimmed. split.
  - intros H. destruct (TrimSpace_split s) as (l & r & Hl & Hr & E). by exists l, (TrimSpace s), r.
  - intros (l & d & r & -> & Hl & Hr & Hd). destruct (decimal_text_visible d Hd).
    by rewrite TrimSpace_ascii.
Qed.

(** ** What the input checks accept *)

(** The text and the decimal that a value carries: those of its kind. *)
Definition value_text (mv : MutationValue) : gostring :=
  match mv_kind mv with MutationValueString => mv_string mv | _ => [] end.

Definition value_decimal (mv : MutationValue) : gostring :=
  match mv_kind mv with MutationValueDecimal => mv_decimal mv | _ => [] end.

Definition format_ok (p : PropertyDescriptor) (mv : MutationValue) : Prop :=
  match pd_type p with
  | TypeString =>
      (pd_max_length p <= 0 \/ blen (value_text mv) <= pd_max_length p)
      /\ (pd_allowed p = [] \/ value_text mv ∈ pd_allowed p)
  | TypeDateTime => validRFC3339 (value_text mv) = true
  | TypeDecimal => isCanonicalDecimal (value_decimal mv) = true
  | _ => True
  end.

(** A value of a writable property: null where null is allowed, or a value of the
    format that is not empty where one is needed. *)
Definition value_admitted (s : SchemaDescriptor) (name : gostring) (mv : MutationValue) : Prop :=
  exists p, Property s name = Some p /\ pd_readonly p = false
    /\ if mv_null mv && negb (mv_empty mv) then pd_nullable p = true
       else format_ok p mv /\ (mv_empty mv = true -> pd_required p = true -> pd_nullable p = true).

Definition properties_admitted (s : SchemaDescriptor) (m : Mutation) : Prop :=
  forall name mv, m_properties m !! name = Some mv -> value_admitted s name mv.

(** Every required property is given or has a default. *)
Definition complete (s : SchemaDescriptor) (m : Mutation) : Prop :=
  forall p, p ∈ sd_properties s -> pd_required p = true -> pd_readonly p = false ->
  match m_properties m !! pd_name p with
  | None => pd_has_default p = true
  | Some mv => mv_null mv && negb (mv_empty mv) = true -> pd_nullable p = true
  end.

Definition admitted (s : SchemaDescriptor) (m : Mutation) : Prop :=
  let nullable := gd_nullable (sd_geometry s) = true in
  match m_op m with
  | MutationDelete => m_feature m <> 0 /\ m_unchanged m = false
  | MutationInsert =>
      m_feature m = 0 /\ m_unchanged m = false
      /\ (nullable \/ m_wkb m <> None /\ m_absent m = false)
      /\ properties_admitted s m /\ complete s m
  | MutationReplace =>
      m_feature m <> 0
      /\ (m_unchanged m = true -> m_if_revision m <> [] /\ m_wkb m = None /\ m_absent m = false)
      /\ (nullable \/ m_absent m = false /\ (m_wkb m <> None \/ m_unchanged m = true))
      /\ properties_admitted s m /\ complete s m
  | MutationUpdate =>
      m_feature m <> 0 /\ m_unchanged m = false /\ (nullable \/ m_absent m = false)
      /\ properties_admitted s m
  | MutationOpOther _ =>
      m_unchanged m = false /\ (nullable \/ m_absent m = false) /\ properties_admitted s m
  end.

Lemma typed_state (s : SchemaDescriptor) (name : gostring) (mv : MutationValue) :
  tv_state (mutationValueToTyped s name mv)
  = if mv_empty mv then ValueEmpty else if mv_null mv then ValueNull else ValuePresent.
Proof. unfold mutationValueToTyped. by destruct (mv_kind mv). Qed.

Lemma typed_string (s : SchemaDescriptor) (name : gostring) (mv : MutationValue) :
  tv_string (mutationValueToTyped s name mv) = value_text mv.
Proof. unfold mutationValueToTyped, value_text. by destruct (mv_kind mv). Qed.

Lemma typed_decimal (s : SchemaDescriptor) (name : gostring) (mv : MutationValue) :
  tv_decimal (mutationValueToTyped s name mv) = value_decimal mv.
Proof. unfold mutationValueToTyped, value_decimal. by destruct (mv_kind mv). Qed.

(** The type of the typed value is the declared one, whatever the kind of the
    value. *)
Lemma typed_type (s : SchemaDescriptor) (name : gostring) (mv : MutationValue) (p : PropertyDescriptor) :
  Property s name = Some p -> tv_type (mutationValueToTyped s name mv) = pd_type p.
Proof. unfold mutationValueToTyped. intros ->. by destruct (mv_kind mv). Qed.

Lemma check_format_ok (s : SchemaDescriptor) (p : PropertyDescriptor) (name : gostring) (mv : MutationValue) :
  check_format p name (mutationValueToTyped s name mv) = Ok tt <-> format_ok p mv.
Proof.
  unfold check_format, format_ok. rewrite typed_string, typed_decimal. destruct (pd_type p); try naive_solver.
  - rewrite if_Err_Ok, negb_false_iff. naive_solver.
  - rewrite !if_Err_Ok, !andb_false_iff, negb_false_iff, !Z.ltb_ge, existsb_exists.
    setoid_rewrite <- list_elem_of_In. setoid_rewrite beq_true. split.
    + intros (? & H & _). split; [done|]. destruct H as [H|(x & Hx & <-)]; [left|by right].
      destruct (pd_allowed p); [done|]. unfold blen in H. cbn [length] in H. lia.
    + intros [? H]. split_and!; [done| |done]. destruct H as [->|H]; [by left|right; eauto].
  - rewrite if_Err_Ok, negb_false_iff. naive_solver.
Qed.

Lemma ValidateInputValue_ok (s : SchemaDescriptor) (name : gostring) (mv : MutationValue) :
  ValidateInputValue s name (mutationValueToTyped s name mv) = Ok tt <-> value_admitted s name mv.
Proof.
  unfold ValidateInputValue, value_admitted.
  destruct (Property s name) as [p|] eqn:Ep; [|split; [done|by intros (? & [=] & _)]].
  rewrite typed_state, (typed_type s name mv p Ep), (bool_decide_eq_true_2 (pd_type p = pd_type p)) by done. cbn [negb].
  transitivity (pd_readonly p = false /\
    if mv_null mv && negb (mv_empty mv) then pd_nullable p = true
    else format_ok p mv /\ (mv_empty mv = true -> pd_required p = true -> pd_nullable p = true)).
  2: { split; [intros H; by exists p|]. by intros (? & [= <-] & ?). }
  rewrite if_Err_Ok. pose proof (check_format_ok s p name mv) as Hf.
  apply and_iff_compat_l.
  destruct (mv_empty mv), (mv_null mv), (pd_nullable p), (pd_required p); closed_decide;
    rewrite ?rbind_unit, ?Hf; intuition congruence.
Qed.

Lemma check_properties_ok (s : SchemaDescriptor) (m : Mutation) :
  check_properties s m = Ok tt <-> properties_admitted s m.
Proof.
  unfold check_properties, properties_admitted. rewrite rfold_check, Forall_forall.
  assert (forall r, schema_check r = Ok tt <-> r = Ok tt) as Hs by (intros [[]|]; naive_solver).
  setoid_rewrite Hs. setoid_rewrite ValidateInputValue_ok. split.
  - intros H name mv Hm. by apply (H (name, mv)), elem_of_map_to_list.
  - intros H [name mv] Hm%elem_of_map_to_list. by apply H.
Qed.

Lemma ValidateRequired_ok (s : SchemaDescriptor) (m : Mutation) :
  schema_check (ValidateRequired s
    (map_imap (fun name mv => Some (mutationValueToTyped s name mv)) (m_properties m))) = Ok tt
  <-> complete s m.
Proof.
  assert (forall r, schema_check r = Ok tt <-> r = Ok tt) as -> by (intros [[]|]; naive_solver).
  unfold ValidateRequired, complete. rewrite rfold_check, Forall_forall.
  apply forall_proper. intros p. apply imp_iff_compat_l. unfold check_required.
  rewrite map_lookup_imap. destruct (m_properties m !! pd_name p) as [mv|]; cbn [mbind option_bind].
  - rewrite typed_state. destruct (pd_required p), (pd_readonly p), (mv_empty mv), (mv_null mv), (pd_nullable p);
      closed_decide; intuition congruence.
  - destruct (pd_required p), (pd_readonly p), (pd_has_default p); cbn; intuition congruence.
Qed.

Lemma validateMutationInput_ok (s : SchemaDescriptor) (m : Mutation) :
  validateMutationInput s m = Ok tt <-> admitted s m.
Proof.
  unfold validateMutationInput, admitted.
  pose proof (ValidateRequired_ok s m) as HR. pose proof (check_properties_ok s m) as HP.
  assert (bool_decide (m_wkb m = None) = true <-> m_wkb m = None) as HW by apply bool_decide_eq_true.
  destruct (Z.eqb_spec (m_feature m) 0) as [Hid|Hid].
  all: destruct (bool_decide (m_wkb m = None)), (m_unchanged m), (m_absent m), (gd_nullable (sd_geometry s)),
         (beq (m_if_revision m) []) eqn:Hrev.
  all: destruct (m_op m); closed_decide; rewrite ?rbind_unit, ?HR, ?HP.
  all: first [rewrite beq_true in Hrev|rewrite beq_false in Hrev]; intuition congruence.
Qed.


(** A value of another kind than the declared type passes: a text for an integer
    property. *)
Definition count_schema : SchemaDescriptor :=
  mkSchema (B "roads") (B "fid")
    [mkProperty (B "lanes") (B "lanes") TypeInteger false true false false false 0 []]
    (mkGeometry true (B "geometry") (B "geom") (B "point") (B "XY") 4326) [] (B "1").

Lemma kind_not_checked :
  validateMutationInput count_schema
    (mkMutation MutationInsert (B "roads") 0
       {[B "lanes" := mkValue false false 0 [] (B "two") false MutationValueString]}
       None false 0 false []) = Ok tt.
Proof. by vm_compute. Qed.
