(* ===== verification/Coordinator.v ===== *)
(** * feature/policy.go, feature/mutation.go: the mutation coordinator

    One request is a list of mutations run in one provider transaction.  The
    coordinator resolves and checks every mutation, opens the transaction, applies
    the mutations in order under the row policy and the lock guard, commits, and
    notifies.  Policies, schemas, providers, callbacks and the lock guard are the
    fields of the coordinator; the calls it makes are recorded in a trace. *)

From S2P Require Import Prelude GoText Identity Schema.

#[local] Open Scope Z_scope.

(** ** Policies *)

Record Principal := mkPrincipal { pr_id : gostring; pr_anonymous : bool }.

Inductive PolicyAction :=
| ActionRead | ActionInsert | ActionReplace | ActionUpdate | ActionDelete | ActionLock.

#[export] Instance PolicyAction_eq_dec : EqDecision PolicyAction.
Proof. solve_decision. Defined.

Record PolicyDecision := mkDecision { dec_allow : bool; dec_reason : gostring }.

(** The Policy interface; [CollectionOnly] is [None] for a policy that does not
    implement CollectionOnlyPolicy. *)
Record Policy := mkPolicy {
  CheckCollection : Principal -> PolicyAction -> gostring -> PolicyDecision;
  CheckRow : Principal -> PolicyAction -> PhysicalFeatureKey -> PolicyDecision;
  CheckPostImage : Principal -> PhysicalFeatureKey -> option (gmap gostring TypedValue) -> PolicyDecision;
  CollectionOnly : option bool
}.

Definition deny_unless_read (action : PolicyAction) : PolicyDecision :=
  if bool_decide (action = ActionRead) then mkDecision true []
  else mkDecision false (B "no write policy configured").

Definition DenyAllPolicy : Policy :=
  mkPolicy (fun _ action _ => deny_unless_read action) (fun _ action _ => deny_unless_read action)
    (fun _ _ _ => mkDecision false (B "no write policy configured")) None.

Definition AllowAllPolicy : Policy :=
  mkPolicy (fun _ _ _ => mkDecision true []) (fun _ _ _ => mkDecision true [])
    (fun _ _ _ => mkDecision true []) (Some true).

Definition policyActionFor (opName : gostring) : result gostring PolicyAction :=
  if beq opName (B "insert") then Ok ActionInsert
  else if beq opName (B "replace") then Ok ActionReplace
  else if beq opName (B "update") then Ok ActionUpdate
  else if beq opName (B "delete") then Ok ActionDelete
  else Err (B "unknown mutation op " ++ opName).

(** ** Transactions *)

Record MutationOutcome := mkOutcome {
  o_feature : Z; o_revision : gostring; o_revision_before : gostring; o_affected : Z
}.

Inductive CommitStatus := CommitUnknown | CommitCommitted | CommitNotCommitted.

#[export] Instance CommitStatus_eq_dec : EqDecision CommitStatus.
Proof. solve_decision. Defined.

Record CommitReceipt := mkReceipt {
  r_status : CommitStatus; r_transaction : gostring; r_timestamp : gostring;
  r_actor : gostring; r_collections : list gostring
}.

(** [CommitReceipt{Status: CommitNotCommitted}]. *)
Definition notCommitted : CommitReceipt := mkReceipt CommitNotCommitted [] [] [] [].

Record TxOptions := mkTxOptions { tx_readonly : bool; tx_actor : gostring; tx_request : gostring }.

(** The errors a request ends with: a [*MutationError] of the coordinator, one of
    the input checks, an error of a schema source or provider, the failure of a
    callback. *)
Inductive merror (E : Type) :=
| MutationErr (kind : MutationErrorKind) (reason : gostring)
| InvalidInput (e : input_error)
| External (e : E)
| CallbackFailed (failure : gostring).

Arguments MutationErr {E} kind reason.
Arguments InvalidInput {E} e.
Arguments External {E} e.
Arguments CallbackFailed {E} failure.

(** The MutationProvider and FeatureTx interfaces: [handle] identifies a provider
    instance, [tx] is the state of an open transaction.  A layer is described by
    its transaction domain. *)
Record Provider (E handle tx : Type) := mkProvider {
  DescribeWritable : handle -> gostring -> result E gostring;
  BeginFeatureTx : handle -> TxOptions -> result E tx;
  Apply : tx -> Mutation -> tx * result E MutationOutcome;
  Commit : tx -> CommitReceipt * option E
}.

Arguments DescribeWritable {E handle tx} _ _ _.
Arguments BeginFeatureTx {E handle tx} _ _ _.
Arguments Apply {E handle tx} _ _ _.
Arguments Commit {E handle tx} _ _.

(** The coordinator.  A callback answers with the failure it panics with, if any;
    the lock guard also takes the position of its call, because locks change
    between two calls. *)
Record MutationCoordinator (E handle : Type) := mkCoordinator {
  PolicyFor : gostring -> option Policy;
  SchemaFor : gostring -> result E SchemaDescriptor;
  SchemaForContext : option (gostring -> result E SchemaDescriptor);
  ProviderFor : gostring -> result E (handle * gostring);
  OnCommit : option (list gostring -> option gostring);
  OnInvalidate : option (list gostring -> option gostring);
  LockCheck : option (nat -> gostring -> PhysicalFeatureKey -> option gostring)
}.

Arguments PolicyFor {E handle} _ _.
Arguments SchemaFor {E handle} _ _.
Arguments SchemaForContext {E handle} _.
Arguments ProviderFor {E handle} _ _.
Arguments OnCommit {E handle} _.
Arguments OnInvalidate {E handle} _.
Arguments LockCheck {E handle} _.

(** The calls that change something. *)
Inductive call (handle : Type) :=
| CBegin (h : handle) (options : TxOptions)
| CApply (m : Mutation)
| CCommit
| CRollback
| CInvalidate (collections : list gostring)
| CNotify (collections : list gostring).

Arguments CBegin {handle} h options.
Arguments CApply {handle} m.
Arguments CCommit {handle}.
Arguments CRollback {handle}.
Arguments CInvalidate {handle} collections.
Arguments CNotify {handle} collections.

Record bound (handle : Type) := mkBound {
  b_mp : handle; b_layer : gostring; b_collection : gostring; b_policy : Policy
}.

Arguments mkBound {handle} _ _ _ _.
Arguments b_mp {handle} _.
Arguments b_layer {handle} _.
Arguments b_collection {handle} _.
Arguments b_policy {handle} _.

(** What ExecuteAll returns, with the calls it made. *)
Record execution (E handle : Type) := mkExecution {
  x_outcomes : list MutationOutcome; x_receipt : CommitReceipt; x_errors : list (merror E);
  x_trace : list (call handle)
}.

Arguments mkExecution {E handle} _ _ _ _.
Arguments x_outcomes {E handle} _.
Arguments x_receipt {E handle} _.
Arguments x_errors {E handle} _.
Arguments x_trace {E handle} _.

(** [m.Collection = layer] *)
Definition rebind (m : Mutation) (layer : gostring) : Mutation :=
  mkMutation (m_op m) layer (m_feature m) (m_properties m) (m_wkb m) (m_absent m) (m_srid m)
    (m_unchanged m) (m_if_revision m).

Definition formatPK (id : Z) : gostring := FormatUint id.

(** The [seen] loop: the distinct collections in the order of their first use. *)
Fixpoint distinct (seen : gset gostring) (cs : list gostring) : list gostring :=
  match cs with
  | [] => []
  | c :: cs' => if bool_decide (c ∈ seen) then distinct seen cs' else c :: distinct ({[c]} ∪ seen) cs'
  end.

Section Coordinator.
Context {E handle tx : Type} `{!EqDecision handle}.
Context (P : Provider E handle tx) (C : MutationCoordinator E handle) (principal : Principal).

(** *** Resolution and checks before the transaction *)

Definition resolve_schema (collection : gostring) : result E SchemaDescriptor :=
  match SchemaForContext C with
  | Some f => f collection
  | None => SchemaFor C collection
  end.

Definition external {A : Type} (r : result E A) : result (merror E) A :=
  match r with Ok a => Ok a | Err e => Err (External e) end.

Definition require (b : bool) (kind : MutationErrorKind) (reason : gostring) : result (merror E) unit :=
  if b then Ok tt else Err (MutationErr kind reason).

Definition sameProvider (a b : handle) : bool := bool_decide (a = b).

(** One iteration: [first] is the provider of the first mutation, when there is
    one already, and [domain] the transaction domain so far. *)
Definition bind_one (first : option handle) (domain : gostring) (m : Mutation)
    : result (merror E) (Mutation * bound handle * gostring) :=
  let origCollection := m_collection m in
  match policyActionFor (Op_String (m_op m)) with
  | Err reason => Err (MutationErr MutationErrMalformedInput reason)
  | Ok action =>
      let policy := default DenyAllPolicy (PolicyFor C origCollection) in
      let d := CheckCollection policy principal action origCollection in
      check? require (dec_allow d) MutationErrDenied (B "collection policy denied: " ++ dec_reason d) in
      check? require (default false (CollectionOnly policy)) MutationErrUnsupportedCapability
               (B "row-dependent authorization requires transactional pre-image and post-image support") in
      let? schema := external (resolve_schema origCollection) in
      check? match validateMutationInput schema m with Ok u => Ok u | Err e => Err (InvalidInput e) end in
      let? (mp, layer) := external (ProviderFor C origCollection) in
      let? wd_domain := external (DescribeWritable P mp layer) in
      let? domain' :=
        if beq domain [] then Ok wd_domain
        else if negb (beq wd_domain domain) then
          Err (MutationErr MutationErrDomainMismatch (B "transaction spans multiple domains"))
        else Ok domain in
      check? require (match first with Some f => sameProvider f mp | None => true end)
               MutationErrDomainMismatch (B "transaction spans multiple provider instances") in
      Ok (rebind m layer, mkBound mp layer origCollection policy, domain')
  end.

Fixpoint bind_all (first : option handle) (domain : gostring) (ms : list Mutation)
    : result (merror E) (list (Mutation * bound handle) * gostring) :=
  match ms with
  | [] => Ok ([], domain)
  | m :: ms' =>
      let? (mb, domain') := bind_one first domain m in
      let? (rest, d) := bind_all (Some (default (b_mp (snd mb)) first)) domain' ms' in
      Ok (mb :: rest, d)
  end.

(** *** Inside the transaction *)

Definition row_key (domain : gostring) (mb : Mutation * bound handle) : PhysicalFeatureKey :=
  mkKey domain (b_layer (snd mb)) (formatPK (m_feature (fst mb))) [] 0.

Definition row_action (m : Mutation) : PolicyAction :=
  match policyActionFor (Op_String (m_op m)) with Ok a => a | Err _ => ActionRead end.

(** The checks between the row policy and Apply, for the mutation at [i]. *)
Definition guard_row (domain : gostring) (i : nat) (mb : Mutation * bound handle) : result (merror E) unit :=
  let key := row_key domain mb in
  let d := CheckRow (b_policy (snd mb)) principal (row_action (fst mb)) key in
  check? require (dec_allow d) MutationErrDenied (B "row policy denied: " ++ dec_reason d) in
  match LockCheck C with
  | None => Ok tt
  | Some f =>
      match f i (b_collection (snd mb)) key with
      | Some reason => Err (MutationErr MutationErrLockConflict reason)
      | None => Ok tt
      end
  end.

Definition check_post (domain : gostring) (mb : Mutation * bound handle) : result (merror E) unit :=
  let d := CheckPostImage (b_policy (snd mb)) principal (row_key domain mb) None in
  require (dec_allow d) MutationErrDenied (B "post-image policy denied: " ++ dec_reason d).

(** The loop over the mutations: the calls made, and the transaction with the
    outcomes or the error that ends it. *)
Fixpoint apply_loop (domain : gostring) (i : nat) (mbs : list (Mutation * bound handle)) (t : tx)
    : list (call handle) * result (merror E) (tx * list MutationOutcome) :=
  match mbs with
  | [] => ([], Ok (t, []))
  | mb :: mbs' =>
      match guard_row domain i mb with
      | Err e => ([], Err e)
      | Ok _ =>
          let '(t', r) := Apply P t (fst mb) in
          match r with
          | Err e => ([CApply (fst mb)], Err (External e))
          | Ok outcome =>
              match check_post domain mb with
              | Err e => ([CApply (fst mb)], Err e)
              | Ok _ =>
                  let '(calls, r') := apply_loop domain (S i) mbs' t' in
                  (CApply (fst mb) :: calls,
                   let? (t'', outcomes) := r' in Ok (t'', outcome :: outcomes))
              end
          end
      end
  end.

(** notifyMutationCommit: the failure of the callback as an error. *)
Definition notifyMutationCommit (callback : list gostring -> option gostring) (cols : list gostring)
    : list (merror E) :=
  match callback cols with Some failure => [CallbackFailed failure] | None => [] end.

Definition rejected (e : merror E) (trace : list (call handle)) : execution E handle :=
  mkExecution [] notCommitted [e] trace.

(** From Commit on; [opened] are the calls so far, [now] the commit time. *)
Definition finish (cols : list gostring) (now : gostring) (opened : list (call handle)) (t : tx)
    (outcomes : list MutationOutcome) : execution E handle :=
  let '(receipt, cerr) := Commit P t in
  let committed := bool_decide (r_status receipt = CommitCommitted) in
  let errs := match cerr with Some e => [External e] | None => [] end in
  let '(errs, calls) :=
    match OnInvalidate C with
    | Some f =>
        if committed || bool_decide (r_status receipt = CommitUnknown)
        then (errs ++ notifyMutationCommit f cols, opened ++ [CCommit; CInvalidate cols])
        else (errs, opened ++ [CCommit])
    | None => (errs, opened ++ [CCommit])
    end in
  if negb committed then
    let errs :=
      match errs with
      | [] =>
          if bool_decide (r_status receipt = CommitNotCommitted)
          then [MutationErr MutationErrExecutionFailed (B "transaction was not committed")]
          else [MutationErr MutationErrCommitUnknown (B "commit outcome unknown")]
      | _ => errs
      end in
    mkExecution [] receipt errs (calls ++ [CRollback])
  else
    let receipt := mkReceipt (r_status receipt) (r_transaction receipt) now (pr_id principal) cols in
    match OnCommit C with
    | Some f => mkExecution outcomes receipt (errs ++ notifyMutationCommit f cols) (calls ++ [CNotify cols])
    | None => mkExecution outcomes receipt errs calls
    end.

(** [cancelled] says whether the request context is cancelled after Begin. *)
Definition ExecuteAll (requestID now : gostring) (cancelled : bool) (mutations : list Mutation)
    : execution E handle :=
  let no_mutations := rejected (MutationErr MutationErrMalformedInput (B "no mutations")) [] in
  match mutations with
  | [] => no_mutations
  | _ =>
      match bind_all None [] mutations with
      | Err e => rejected e []
      | Ok ([], _) => no_mutations
      | Ok ((mb0 :: _) as mbs, domain) =>
          let mp := b_mp (snd mb0) in
          let options := mkTxOptions false (pr_id principal) requestID in
          match BeginFeatureTx P mp options with
          | Err e => rejected (External e) [CBegin mp options]
          | Ok t =>
              if cancelled then
                rejected (MutationErr MutationErrMalformedInput (B "context cancelled before begin"))
                  [CBegin mp options; CRollback]
              else
                match apply_loop domain 0 mbs t with
                | (calls, Err e) => rejected e (CBegin mp options :: calls ++ [CRollback])
                | (calls, Ok (t', outcomes)) =>
                    finish (distinct ∅ (map (fun mb => b_collection (snd mb)) mbs)) now
                      (CBegin mp options :: calls) t' outcomes
                end
          end
      end
  end.

(** One mutation as its own transaction. *)
Definition Execute (requestID now : gostring) (cancelled : bool) (m : Mutation)
    : MutationOutcome * CommitReceipt * list (merror E) :=
  let x := ExecuteAll requestID now cancelled [m] in
  match x_outcomes x with
  | [] => (mkOutcome 0 [] [] 0, x_receipt x, x_errors x)
  | o :: _ => (o, x_receipt x, x_errors x)
  end.

(** ** What the checks before the transaction establish *)

(** What a mutation resolves to. *)
Record resolution := mkResolution {
  re_policy : Policy; re_mp : handle; re_layer : gostring; re_domain : gostring
}.

(** Every check before Begin passes for the mutation on its own: a configured
    policy allows the action on the collection and needs no row, the schema admits
    the input, and the collection is bound to a writable layer. *)
Definition cleared (m : Mutation) (r : resolution) : Prop :=
  let collection := m_collection m in
  exists action schema,
    policyActionFor (Op_String (m_op m)) = Ok action
    /\ PolicyFor C collection = Some (re_policy r)
    /\ dec_allow (CheckCollection (re_policy r) principal action collection) = true
    /\ CollectionOnly (re_policy r) = Some true
    /\ resolve_schema collection = Ok schema /\ admitted schema m
    /\ ProviderFor C collection = Ok (re_mp r, re_layer r)
    /\ DescribeWritable P (re_mp r) (re_layer r) = Ok (re_domain r).

Definition binding (m : Mutation) (r : resolution) : Mutation * bound handle :=
  (rebind m (re_layer r), mkBound (re_mp r) (re_layer r) (m_collection m) (re_policy r)).

(** The domain after one more mutation. *)
Definition join_domain (domain next : gostring) : option gostring :=
  if beq domain [] then Some next else if beq next domain then Some domain else None.

Definition same_first (first : option handle) (h : handle) : Prop :=
  match first with Some f => f = h | None => True end.

Lemma require_ok (b : bool) (kind : MutationErrorKind) (reason : gostring) :
  require b kind reason = Ok tt <-> b = true.
Proof. unfold require. destruct b; naive_solver. Qed.

Lemma external_ok {A : Type} (r : result E A) (a : A) : external r = Ok a <-> r = Ok a.
Proof. destruct r; naive_solver. Qed.

Lemma rbind_ok {E' A B' : Type} (r : result E' A) (k : A -> result E' B') (b : B') :
  rbind r k = Ok b <-> exists a, r = Ok a /\ k a = Ok b.
Proof. destruct r; cbn; naive_solver. Qed.

Lemma bind_one_ok (first : option handle) (domain domain' : gostring) (m : Mutation)
    (mb : Mutation * bound handle) :
  bind_one first domain m = Ok (mb, domain')
  <-> exists r, cleared m r /\ join_domain domain (re_domain r) = Some domain'
                /\ same_first first (re_mp r) /\ mb = binding m r.
Proof.
  unfold bind_one, cleared, join_domain, binding. split.
  - destruct (policyActionFor (Op_String (m_op m))) as [action|reason] eqn:Ea; [|done].
    intros [Hallow [Honly H]%rbind_unit]%rbind_unit. apply require_ok in Hallow, Honly.
    apply rbind_ok in H as (schema & Hs%external_ok & [Hv H]%rbind_unit).
    apply rbind_ok in H as ([mp layer] & Hp%external_ok & H).
    apply rbind_ok in H as (dom & Hd%external_ok & H).
    apply rbind_ok in H as (domain0 & Hj & [Hf H]%rbind_unit). apply require_ok in Hf.
    injection H as <- <-.
    destruct (PolicyFor C (m_collection m)) as [policy|] eqn:Ep; cbn [default from_option id] in *; [|done].
    exists (mkResolution policy mp layer dom). split_and!; cbn [re_policy re_mp re_layer re_domain].
    + exists action, schema. split_and!; try done.
      * destruct (CollectionOnly policy) as [[]|]; done.
      * apply validateMutationInput_ok. by destruct (validateMutationInput schema m) as [[]|].
    + destruct (beq domain []); [by simplify_eq|]. destruct (beq dom domain); cbn in Hj; by simplify_eq.
    + destruct first as [f|]; [|done]. by apply bool_decide_eq_true in Hf.
    + done.
  - intros ([policy mp layer dom] & (action & schema & Ea & Ep & Hallow & Honly & Hs & Hv & Hp & Hd) & Hj & Hf & ->).
    cbn [re_policy re_mp re_layer re_domain] in *. apply validateMutationInput_ok in Hv.
    rewrite Ea, Ep. cbn [default from_option id]. rewrite Hallow, Honly. cbn [require rbind default from_option id].
    rewrite Hs. cbn [external rbind]. rewrite Hv. cbn [rbind]. rewrite Hp. cbn [external rbind].
    rewrite Hd. cbn [external rbind].
    assert ((match first with Some f => sameProvider f mp | None => true end) = true) as ->.
    { destruct first as [f|]; [|done]. by apply bool_decide_eq_true. }
    destruct (beq domain []); [by simplify_eq|].
    destruct (beq dom domain); cbn [negb rbind]; by simplify_eq.
Qed.

(** The domain after a list of layers, when they can share a transaction. *)
Fixpoint join_domains (domain : gostring) (ds : list gostring) : option gostring :=
  match ds with
  | [] => Some domain
  | d :: ds' => match join_domain domain d with Some domain' => join_domains domain' ds' | None => None end
  end.

(** All resolutions name the provider of the first one. *)
Fixpoint one_provider (first : option handle) (rs : list resolution) : Prop :=
  match rs with
  | [] => True
  | r :: rs' => same_first first (re_mp r) /\ one_provider (Some (default (re_mp r) first)) rs'
  end.

Lemma bind_all_ok (first : option handle) (domain d : gostring) (ms : list Mutation)
    (mbs : list (Mutation * bound handle)) :
  bind_all first domain ms = Ok (mbs, d)
  <-> exists rs, Forall2 cleared ms rs /\ join_domains domain (map re_domain rs) = Some d
                 /\ one_provider first rs /\ mbs = zip_with binding ms rs.
Proof.
  revert first domain d mbs. induction ms as [|m ms IH]; intros first domain d mbs; cbn [bind_all].
  - split.
    + intros [= <- <-]. exists []. split_and!; [constructor|done..].
    + intros (rs & ->%Forall2_nil_inv_l & [= ->] & _ & ->). done.
  - rewrite rbind_ok. split.
    + intros ([mb domain'] & (r & Hc & Hj & Hs & ->)%bind_one_ok & H).
      apply rbind_ok in H as ([rest d'] & (rs & Hrs & Hd & Ho & ->)%IH & [= <- <-]).
      exists (r :: rs). cbn [map join_domains one_provider zip_with]. rewrite Hj.
      split_and!; try done. by constructor.
    + intros (rs0 & (r & rs & Hc & Hrs & ->)%Forall2_cons_inv_l & Hd & [Hs Ho] & ->).
      cbn [map join_domains] in Hd. destruct (join_domain domain (re_domain r)) as [domain'|] eqn:Hj; [|done].
      exists (binding m r, domain'). split; [apply bind_one_ok; by exists r|]. apply rbind_ok.
      exists (zip_with binding ms rs, d). split; [apply IH; by exists rs|done].
Qed.

(** With non-empty domains all layers have the same one. *)
Lemma join_domains_replicate (domain d : gostring) (ds : list gostring) :
  domain <> [] -> join_domains domain ds = Some d <-> d = domain /\ ds = replicate (length ds) domain.
Proof.
  intros Hne. induction ds as [|x ds IH]; cbn; [naive_solver|]. unfold join_domain.
  rewrite (proj2 (beq_false domain [])) by done. destruct (beq x domain) eqn:Ex.
  - apply beq_true in Ex as ->. rewrite IH. split; intros [-> H]; split; congruence.
  - apply beq_false in Ex. split; [done|]. intros [_ [= ? _]]. done.
Qed.

Lemma join_domains_spec (ds : list gostring) :
  (exists d, join_domains [] ds = Some d) <-> exists a b d, ds = replicate a [] ++ replicate b d.
Proof.
  induction ds as [|x ds IH].
  { split; [intros _; by exists 0%nat, 0%nat, []|by eexists]. }
  change (join_domains [] (x :: ds)) with (join_domains x ds).
  destruct (decide (x = [])) as [->|Hx].
  - rewrite IH. split.
    + intros (a & b & d & ->). by exists (S a), b, d.
    + intros ([|a] & b & d & E0); cbn in E0.
      * destruct b as [|b]; [done|]. injection E0 as <- ->. exists b, 0%nat, []. by rewrite app_nil_r.
      * injection E0 as ->. eauto.
  - split.
    + intros (d & [_ ->]%join_domains_replicate); [|done]. by exists 0%nat, (S (length ds)), x.
    + intros ([|a] & b & d & E0); cbn in E0; [|congruence]. destruct b as [|b]; [done|].
      injection E0 as <- ->. exists x. apply join_domains_replicate; [done|]. by rewrite length_replicate.
Qed.

Lemma one_provider_spec (r : resolution) (rs : list resolution) :
  one_provider None (r :: rs) <-> Forall (fun x => re_mp x = re_mp r) rs.
Proof.
  cbn. generalize (re_mp r) as f. intros f. induction rs as [|x rs IH]; cbn; [by split; [constructor|]|].
  rewrite Forall_cons. naive_solver.
Qed.

(** ** What the transaction applies *)

(** Applying mutations one after the other, with their outcomes. *)
Inductive applies : tx -> list Mutation -> tx -> list MutationOutcome -> Prop :=
| applies_nil t : applies t [] t []
| applies_cons t m t1 o ms t2 os :
    Apply P t m = (t1, Ok o) -> applies t1 ms t2 os -> applies t (m :: ms) t2 (o :: os).

(** The row policy allows the mutation at position [i] on its key and no lock
    held by others covers it. *)
Definition row_allowed (domain : gostring) (i : nat) (mb : Mutation * bound handle) : Prop :=
  dec_allow (CheckRow (b_policy (snd mb)) principal (row_action (fst mb)) (row_key domain mb)) = true
  /\ forall f, LockCheck C = Some f -> f i (b_collection (snd mb)) (row_key domain mb) = None.

(** The policy allows the row that the mutation leaves. *)
Definition post_allowed (domain : gostring) (mb : Mutation * bound handle) : Prop :=
  dec_allow (CheckPostImage (b_policy (snd mb)) principal (row_key domain mb) None) = true.

Lemma guard_row_ok (domain : gostring) (i : nat) (mb : Mutation * bound handle) :
  guard_row domain i mb = Ok tt <-> row_allowed domain i mb.
Proof.
  unfold guard_row, row_allowed. rewrite rbind_unit, require_ok. apply and_iff_compat_l.
  destruct (LockCheck C) as [f|]; [|naive_solver].
  destruct (f i _ _) eqn:Ef; [|naive_solver]. split; [done|]. intros H. by rewrite (H f) in Ef.
Qed.

Lemma check_post_ok (domain : gostring) (mb : Mutation * bound handle) :
  check_post domain mb = Ok tt <-> post_allowed domain mb.
Proof. unfold check_post, post_allowed. apply require_ok. Qed.

(** Every mutation passes the row policy and the lock guard before it is applied,
    the first one at position [i]. *)
Definition guarded (domain : gostring) (i : nat) (mbs : list (Mutation * bound handle)) : Prop :=
  forall j mb, mbs !! j = Some mb -> row_allowed domain (i + j) mb.

Lemma guarded_cons (domain : gostring) (i : nat) (mb : Mutation * bound handle) (mbs : list (Mutation * bound handle)) :
  guarded domain i (mb :: mbs) <-> row_allowed domain i mb /\ guarded domain (S i) mbs.
Proof.
  unfold guarded. split.
  - intros H. split; [pose proof (H 0%nat mb eq_refl) as H0; by rewrite Nat.add_0_r in H0|].
    intros j mb' Hj. rewrite Nat.add_succ_comm. by apply H.
  - intros [H0 H] [|j] mb' Hj; cbn in Hj; [injection Hj as <-; by rewrite Nat.add_0_r|].
    rewrite <- Nat.add_succ_comm. by apply H.
Qed.

Lemma guarded_nil (domain : gostring) (i : nat) : guarded domain i [].
Proof. intros j mb. by rewrite lookup_nil. Qed.

(** The calls are those of a prefix that passed its guards, and all of them when
    the loop succeeds. *)
Lemma apply_loop_calls (domain : gostring) (i : nat) (mbs : list (Mutation * bound handle)) (t : tx) :
  exists n, fst (apply_loop domain i mbs t) = map (fun mb => CApply (fst mb)) (take n mbs)
            /\ guarded domain i (take n mbs)
            /\ (is_ok (snd (apply_loop domain i mbs t)) = true -> take n mbs = mbs).
Proof.
  revert i t. induction mbs as [|mb mbs IH]; intros i t; cbn [apply_loop].
  { exists 0%nat. split_and!; [done|apply guarded_nil|done]. }
  pose proof (guard_row_ok domain i mb) as Hok.
  destruct (guard_row domain i mb) as [[]|e].
  2: { exists 0%nat. rewrite take_0. split_and!; [done|apply guarded_nil|done]. }
  destruct (Apply P t (fst mb)) as [t1 [o|e]] eqn:Ea; cbn [fst snd].
  2: { exists 1%nat. cbn [take map]. rewrite guarded_cons. split_and!; [done|by apply Hok|apply guarded_nil|done]. }
  destruct (check_post domain mb) as [[]|e]; cbn [fst snd].
  2: { exists 1%nat. cbn [take map]. rewrite guarded_cons. split_and!; [done|by apply Hok|apply guarded_nil|done]. }
  destruct (IH (S i) t1) as (n & Hc & Hg & Hk).
  destruct (apply_loop domain (S i) mbs t1) as [calls r]. cbn [fst snd] in *. exists (S n).
  cbn [take map]. rewrite guarded_cons, Hc. split_and!; [done|by apply Hok|done|].
  intros Hr. rewrite Hk; [done|]. by destruct r.
Qed.

Lemma apply_loop_ok (domain : gostring) (i : nat) (mbs : list (Mutation * bound handle)) (t t' : tx)
    (os : list MutationOutcome) :
  snd (apply_loop domain i mbs t) = Ok (t', os)
  <-> guarded domain i mbs /\ applies t (map fst mbs) t' os
      /\ Forall (post_allowed domain) mbs.
Proof.
  revert i t os. induction mbs as [|mb mbs IH]; intros i t os; cbn [apply_loop map].
  { split; [intros [= <- <-]; split_and!; [apply guarded_nil|constructor|constructor]|].
    intros (_ & H & _). by inversion H. }
  rewrite guarded_cons, Forall_cons, <- guard_row_ok, <- check_post_ok.
  destruct (guard_row domain i mb) as [[]|e]; [|naive_solver].
  destruct (Apply P t (fst mb)) as [t1 [o|e]] eqn:Ea.
  2: { split; [done|]. intros (_ & H & _). inversion H. congruence. }
  destruct (check_post domain mb) as [[]|e]; [|naive_solver].
  specialize (IH (S i) t1). destruct (apply_loop domain (S i) mbs t1) as [calls r].
  cbn [snd] in *. rewrite rbind_ok. split.
  - intros ([t2 os'] & -> & [= -> <-]). destruct (IH os') as [H _]. destruct H as (? & ? & ?); [done|].
    split_and!; try done. by econstructor.
  - intros ([_ Hg] & Ha & _ & Hp). inversion Ha; subst.
    match goal with H : Apply P t _ = _ |- _ => rewrite Ea in H; injection H as -> -> end.
    eexists (_, _). split; [by apply IH|done].
Qed.

(** ** Requests *)

Definition applied (mbs : list (Mutation * bound handle)) : list (call handle) :=
  map (fun mb => CApply (fst mb)) mbs.

(** All guards before and after the mutations passed. *)
Definition guards_passed (d : gostring) (mbs : list (Mutation * bound handle)) : Prop :=
  guarded d 0 mbs /\ Forall (post_allowed d) mbs.

(** The callbacks after Commit. *)
Definition invalidation (cols : list gostring) : list (call handle) :=
  match OnInvalidate C with Some _ => [CInvalidate cols] | None => [] end.

Definition notification (cols : list gostring) : list (call handle) :=
  match OnCommit C with Some _ => [CNotify cols] | None => [] end.

(** All mutations resolve, to one provider and one domain. *)
Definition all_cleared (ms : list Mutation) (rs : list resolution) (d : gostring) : Prop :=
  Forall2 cleared ms rs /\ join_domains [] (map re_domain rs) = Some d /\ one_provider None rs.

(** The provider that a request opens its transaction with. *)
Definition opens (rs : list resolution) : option handle := re_mp <$> head rs.

(** What a request does to the provider and the caches, by the commit status it
    reports. *)
Inductive history (ms : list Mutation) : CommitStatus -> list (call handle) -> Prop :=
| history_rejected : history ms CommitNotCommitted []
| history_not_begun h o e :
    BeginFeatureTx P h o = Err e -> history ms CommitNotCommitted [CBegin h o]
| history_aborted h o rs d n :
    all_cleared ms rs d -> opens rs = Some h -> guarded d 0 (take n (zip_with binding ms rs)) ->
    history ms CommitNotCommitted
      (CBegin h o :: applied (take n (zip_with binding ms rs)) ++ [CRollback])
| history_not_committed h o rs d :
    all_cleared ms rs d -> opens rs = Some h -> guards_passed d (zip_with binding ms rs) ->
    history ms CommitNotCommitted
      (CBegin h o :: applied (zip_with binding ms rs) ++ [CCommit; CRollback])
| history_unknown h o rs d :
    all_cleared ms rs d -> opens rs = Some h -> guards_passed d (zip_with binding ms rs) ->
    history ms CommitUnknown
      (CBegin h o :: applied (zip_with binding ms rs)
         ++ CCommit :: invalidation (distinct ∅ (map m_collection ms)) ++ [CRollback])
| history_committed h o rs d :
    all_cleared ms rs d -> opens rs = Some h -> guards_passed d (zip_with binding ms rs) ->
    history ms CommitCommitted
      (CBegin h o :: applied (zip_with binding ms rs)
         ++ CCommit :: invalidation (distinct ∅ (map m_collection ms))
         ++ notification (distinct ∅ (map m_collection ms))).

Lemma binding_collections (ms : list Mutation) (rs : list resolution) :
  Forall2 cleared ms rs -> map (fun mb => b_collection (snd mb)) (zip_with binding ms rs) = map m_collection ms.
Proof. induction 1; cbn; [done|]. by f_equal. Qed.

(** The three ways Commit ends. *)
Lemma finish_history (ms : list Mutation) (rs : list resolution) (d : gostring) (h : handle) (o : TxOptions)
    (now : gostring) (t : tx) (outcomes : list MutationOutcome) :
  all_cleared ms rs d -> opens rs = Some h -> guards_passed d (zip_with binding ms rs) ->
  let x := finish (distinct ∅ (map m_collection ms)) now
             (CBegin h o :: applied (zip_with binding ms rs)) t outcomes in
  history ms (r_status (x_receipt x)) (x_trace x).
Proof.
  intros Hrs Hh Hg. unfold finish.
  pose proof (history_not_committed ms h o rs d Hrs Hh Hg) as H1.
  pose proof (history_unknown ms h o rs d Hrs Hh Hg) as H2.
  pose proof (history_committed ms h o rs d Hrs Hh Hg) as H3.
  unfold invalidation, notification in *. destruct (Commit P t) as [[status tid ts actor cs] cerr].
  cbn [r_status r_transaction]. set (cols := distinct ∅ (map m_collection ms)) in *.
  destruct status; closed_decide; destruct (OnInvalidate C); cbn [x_receipt x_trace r_status];
    try destruct (OnCommit C); cbn [x_receipt x_trace r_status];
    rewrite ?app_comm_cons, <- ?app_assoc; cbn [app] in *; rewrite ?app_nil_r in *; assumption.
Qed.

Lemma finish_result (cols : list gostring) (now : gostring) (opened : list (call handle)) (t : tx)
    (os : list MutationOutcome) :
  let x := finish cols now opened t os in
  r_status (x_receipt x) = r_status (fst (Commit P t))
  /\ x_outcomes x = (if bool_decide (r_status (fst (Commit P t)) = CommitCommitted) then os else [])
  /\ (x_errors x = [] -> r_status (x_receipt x) = CommitCommitted)
  /\ (exists c rest, x_trace x = opened ++ c :: rest).
Proof.
  unfold finish. destruct (Commit P t) as [[status tid ts actor cs] cerr]. cbn [fst r_status r_transaction].
  destruct status; closed_decide; destruct (OnInvalidate C); cbn [x_receipt x_trace x_errors r_status];
    try destruct (OnCommit C); cbn [x_receipt x_trace x_errors x_outcomes r_status];
    rewrite <- ?app_assoc; cbn [app]; split_and!; eauto; try (by case_match).
Qed.

Lemma all_cleared_bind (ms : list Mutation) (rs : list resolution) (d : gostring) :
  all_cleared ms rs d -> bind_all None [] ms = Ok (zip_with binding ms rs, d).
Proof. intros (? & ? & ?). apply bind_all_ok. by exists rs. Qed.

Lemma ExecuteAll_rejected (requestID now : gostring) (cancelled : bool) (ms : list Mutation) :
  (ms = [] \/ forall rs d, ~ all_cleared ms rs d) ->
  exists e, ExecuteAll requestID now cancelled ms = rejected e [].
Proof.
  intros Hno. unfold ExecuteAll. destruct ms as [|m ms]; [eauto|]. destruct Hno as [|Hno]; [done|].
  destruct (bind_all None [] (m :: ms)) as [[mbs d]|e] eqn:Eb; [|eauto].
  apply bind_all_ok in Eb as (rs & ? & ? & ? & ->). by destruct (Hno rs d).
Qed.

Lemma resolved_or_rejected (requestID now : gostring) (cancelled : bool) (ms : list Mutation) :
  (exists e, ExecuteAll requestID now cancelled ms = rejected e [])
  \/ ms <> [] /\ exists rs d, all_cleared ms rs d.
Proof.
  destruct (decide (ms = [])) as [->|Hne]; [left; by apply ExecuteAll_rejected; left|].
  destruct (bind_all None [] ms) as [[mbs d]|e] eqn:Eb.
  - apply bind_all_ok in Eb as (rs & ? & ? & ? & ->). right. split; [done|]. by exists rs, d.
  - left. apply ExecuteAll_rejected. right. intros rs d H%all_cleared_bind. congruence.
Qed.

Lemma ExecuteAll_opened (requestID now : gostring) (cancelled : bool) (ms : list Mutation)
    (rs : list resolution) (d : gostring) :
  ms <> [] -> all_cleared ms rs d ->
  exists h, opens rs = Some h
  /\ ExecuteAll requestID now cancelled ms
     = let mbs := zip_with binding ms rs in
       let options := mkTxOptions false (pr_id principal) requestID in
       match BeginFeatureTx P h options with
       | Err e => rejected (External e) [CBegin h options]
       | Ok t =>
           if cancelled then
             rejected (MutationErr MutationErrMalformedInput (B "context cancelled before begin"))
               [CBegin h options; CRollback]
           else
             match apply_loop d 0 mbs t with
             | (calls, Err e) => rejected e (CBegin h options :: calls ++ [CRollback])
             | (calls, Ok (t', outcomes)) =>
                 finish (distinct ∅ (map m_collection ms)) now (CBegin h options :: calls) t' outcomes
             end
       end.
Proof.
  intros Hne Hc. unfold ExecuteAll, opens. rewrite (all_cleared_bind ms rs d Hc).
  destruct Hc as [Hrs _]. rewrite <- (binding_collections ms rs Hrs). destruct Hrs as [|m r ms rs Hr Hrs]; [done|].
  exists (re_mp r). done.
Qed.

Lemma applies_length (t t' : tx) (ms : list Mutation) (os : list MutationOutcome) :
  applies t ms t' os -> length os = length ms.
Proof. induction 1; cbn; congruence. Qed.

(** A request without an error is committed, and only a committed one returns
    outcomes. *)
Definition reported (n : nat) (x : execution E handle) : Prop :=
  length (x_outcomes x) = (if bool_decide (r_status (x_receipt x) = CommitCommitted) then n else 0%nat)
  /\ (x_errors x = [] -> r_status (x_receipt x) = CommitCommitted).

Lemma rejected_reported (n : nat) (e : merror E) (trace : list (call handle)) :
  reported n (rejected e trace).
Proof. by split. Qed.

Lemma apply_loop_history (ms : list Mutation) (rs : list resolution) (d : gostring) (h : handle)
    (o : TxOptions) (now : gostring) (t : tx) :
  all_cleared ms rs d -> opens rs = Some h ->
  let x :=
    match apply_loop d 0 (zip_with binding ms rs) t with
    | (calls, Err e) => rejected e (CBegin h o :: calls ++ [CRollback])
    | (calls, Ok (t', outcomes)) =>
        finish (distinct ∅ (map m_collection ms)) now (CBegin h o :: calls) t' outcomes
    end in
  history ms (r_status (x_receipt x)) (x_trace x) /\ reported (length ms) x.
Proof.
  intros Hc Hh. destruct (apply_loop_calls d 0 (zip_with binding ms rs) t) as (n & Hcalls & Hg & Hall).
  pose proof (apply_loop_ok d 0 (zip_with binding ms rs) t) as Hok.
  destruct (apply_loop d 0 (zip_with binding ms rs) t) as [calls r]. cbn [fst snd] in *. subst calls.
  destruct r as [[t' os]|e]; [|split; [by eapply history_aborted|apply rejected_reported]].
  rewrite (Hall eq_refl). destruct (proj1 (Hok t' os) eq_refl) as (Hguard & Happ & Hpost).
  split; [by apply (finish_history ms rs d h o now t' os)|].
  destruct (finish_result (distinct ∅ (map m_collection ms)) now
              (CBegin h o :: applied (zip_with binding ms rs)) t' os) as (E1 & E2 & E3 & _).
  unfold reported, applied in *. rewrite E2, E1 in *. split; [|exact E3]. case_bool_decide; [|done].
  rewrite (applies_length _ _ _ _ Happ), length_map, length_zip_with.
  destruct Hc as [?%Forall2_length _]. lia.
Qed.

(** C1. Every request runs one of six histories: nothing at all, a transaction
    that did not begin, one rolled back after some of the mutations, one whose
    commit failed or is unknown and is rolled back, or one committed.  Mutations are
    applied in order and only once all of them were cleared, each after its own row
    policy and lock guard; Commit is called only after all post-image checks; cached
    reads are invalidated exactly after a committed or unknown outcome and the commit
    is announced exactly after a committed one.  Outcomes are returned exactly by
    committed requests, and a request without an error is committed. *)
Theorem ExecuteAll_history (requestID now : gostring) (cancelled : bool) (ms : list Mutation) :
  let x := ExecuteAll requestID now cancelled ms in
  history ms (r_status (x_receipt x)) (x_trace x)
  /\ length (x_outcomes x)
     = (if bool_decide (r_status (x_receipt x) = CommitCommitted) then length ms else 0%nat)
  /\ (x_errors x = [] -> r_status (x_receipt x) = CommitCommitted).
Proof.
  destruct (resolved_or_rejected requestID now cancelled ms) as [(e & ->)|(Hne & rs & d & Hc)].
  { split; [constructor|apply rejected_reported]. }
  destruct (ExecuteAll_opened requestID now cancelled ms rs d Hne Hc) as (h & Hh & ->).
  cbn zeta. destruct (BeginFeatureTx P h _) as [t|e] eqn:Et.
  2: { split; [by econstructor|apply rejected_reported]. }
  destruct cancelled; [|by apply apply_loop_history].
  split; [|apply rejected_reported].
  refine (history_aborted ms h _ rs d 0 Hc Hh _). apply guarded_nil.
Qed.

Lemma all_cleared_iff (ms : list Mutation) :
  ms <> [] ->
  (exists rs d, all_cleared ms rs d)
  <-> exists h rs, Forall2 cleared ms rs /\ Forall (fun r => re_mp r = h) rs
        /\ exists a b d, map re_domain rs = replicate a [] ++ replicate b d.
Proof.
  intros Hne. unfold all_cleared. split.
  - intros (rs & d & Hrs & Hd & Ho). destruct rs as [|r rs]; [by inversion Hrs; subst|].
    exists (re_mp r), (r :: rs). split_and!; [done| |apply join_domains_spec; eauto].
    constructor; [done|]. by apply one_provider_spec.
  - intros (h & rs & Hrs & Ho & [d Hd]%join_domains_spec). exists rs, d. split_and!; [done..|].
    destruct rs as [|r rs]; [done|]. apply one_provider_spec. apply Forall_cons in Ho as [<- Ho]. done.
Qed.

Lemma opened_begins (requestID now : gostring) (cancelled : bool) (ms : list Mutation)
    (rs : list resolution) (d : gostring) :
  ms <> [] -> all_cleared ms rs d ->
  exists h o rest, x_trace (ExecuteAll requestID now cancelled ms) = CBegin h o :: rest.
Proof.
  intros Hne Hc. destruct (ExecuteAll_opened requestID now cancelled ms rs d Hne Hc) as (h & _ & ->).
  cbn zeta. destruct (BeginFeatureTx P h _) as [t|e]; [|by repeat eexists].
  destruct cancelled; [by repeat eexists|].
  destruct (apply_loop _ _ _ _) as [calls [[t' os]|e]]; [|by repeat eexists].
  destruct (finish_result (distinct ∅ (map m_collection ms)) now
    (CBegin h (mkTxOptions false (pr_id principal) requestID) :: calls) t' os) as (_ & _ & _ & c & rest & ->).
  by repeat eexists.
Qed.

(** C3. A transaction is opened exactly for a non-empty request in which a
    configured policy allows every mutation, every schema admits its input, and all
    layers are writable ones of one provider and one transaction domain (a layer may
    have an empty domain only before the others).  Any other request makes no call
    at all and reports an error and no commit. *)
Theorem ExecuteAll_begins_iff (requestID now : gostring) (cancelled : bool) (ms : list Mutation) :
  let x := ExecuteAll requestID now cancelled ms in
  ((exists h o, CBegin h o ∈ x_trace x)
   <-> ms <> [] /\ exists h rs, Forall2 cleared ms rs /\ Forall (fun r => re_mp r = h) rs
         /\ exists a b d, map re_domain rs = replicate a [] ++ replicate b d)
  /\ ((exists h o, CBegin h o ∈ x_trace x) \/ exists e, x = rejected e []).
Proof.
  cbn zeta. destruct (decide (ms = [])) as [->|Hne].
  { split; [|right; by eexists]. split; [|naive_solver]. by intros (h & o & H%elem_of_nil). }
  rewrite <- (all_cleared_iff ms Hne).
  destruct (bind_all None [] ms) as [[mbs d]|e] eqn:Eb.
  - apply bind_all_ok in Eb as (rs & Hc).
    destruct (opened_begins requestID now cancelled ms rs d Hne) as (h & o & rest & ->); [by destruct Hc as (? & ? & ? & _)|].
    assert (exists h' o', CBegin h' o' ∈ CBegin h o :: rest) by (exists h, o; by left).
    split; [|by left]. split; [|done]. intros _. split; [done|]. exists rs, d. by destruct Hc as (? & ? & ? & _).
  - assert (forall rs d, ~ all_cleared ms rs d) as Hno by (intros rs d H%all_cleared_bind; congruence).
    destruct (ExecuteAll_rejected requestID now cancelled ms (or_intror Hno)) as [e' ->].
    split; [|right; by eexists]. split; [by intros (h & o & H%elem_of_nil)|].
    by intros (_ & rs & d & ?%Hno).
Qed.

Lemma binding_mutations (ms : list Mutation) (rs : list resolution) :
  map fst (zip_with binding ms rs) = zip_with (fun m r => rebind m (re_layer r)) ms rs.
Proof. revert rs. induction ms as [|m ms IH]; intros [|r rs]; cbn; [done..|]. by rewrite IH. Qed.

(** C2. A request is reported as committed, with its outcomes, exactly when it is
    cleared, its transaction begins and is not cancelled, every mutation passes its
    row policy, lock guard and post-image check, the provider applies them one after
    the other with these outcomes, and the commit of the resulting transaction
    succeeds. *)
Theorem ExecuteAll_committed_iff (requestID now : gostring) (cancelled : bool) (ms : list Mutation)
    (os : list MutationOutcome) :
  let x := ExecuteAll requestID now cancelled ms in
  (r_status (x_receipt x) = CommitCommitted /\ x_outcomes x = os)
  <-> ms <> [] /\ cancelled = false /\ exists rs d h t t',
        all_cleared ms rs d /\ opens rs = Some h
        /\ BeginFeatureTx P h (mkTxOptions false (pr_id principal) requestID) = Ok t
        /\ guards_passed d (zip_with binding ms rs)
        /\ applies t (zip_with (fun m r => rebind m (re_layer r)) ms rs) t' os
        /\ r_status (fst (Commit P t')) = CommitCommitted.
Proof.
  cbn zeta. split.
  - intros [Hst Hos]. destruct (resolved_or_rejected requestID now cancelled ms) as [(e & Hx)|(Hne & rs & d & Hc)].
    { by rewrite Hx in Hst. }
    destruct (ExecuteAll_opened requestID now cancelled ms rs d Hne Hc) as (h & Hh & Hx).
    rewrite Hx in Hst, Hos. cbn zeta in Hst, Hos. split; [done|].
    destruct (BeginFeatureTx P h _) as [t|e] eqn:Et; [|done]. destruct cancelled; [done|].
    pose proof (apply_loop_ok d 0 (zip_with binding ms rs) t) as Hok.
    destruct (apply_loop d 0 (zip_with binding ms rs) t) as [calls [[t' os']|e]]; [|done]. cbn [snd] in Hok.
    destruct (finish_result (distinct ∅ (map m_collection ms)) now
      (CBegin h (mkTxOptions false (pr_id principal) requestID) :: calls) t' os') as (E1 & E2 & _).
    rewrite E2 in Hos. rewrite E1 in Hst. rewrite bool_decide_eq_true_2 in Hos by done. subst os'.
    destruct (proj1 (Hok t' os) eq_refl) as (Hg & Ha & Hp). rewrite binding_mutations in Ha. 
    split; [done|]. by exists rs, d, h, t, t'.
  - intros (Hne & -> & rs & d & h & t & t' & Hc & Hh & Et & [Hg Hp] & Ha & Hst).
    destruct (ExecuteAll_opened requestID now false ms rs d Hne Hc) as (h' & Hh' & ->).
    cbn zeta. assert (h' = h) as -> by congruence. rewrite Et.
    pose proof (proj2 (apply_loop_ok d 0 (zip_with binding ms rs) t t' os)) as Hok.
    rewrite binding_mutations in Hok. specialize (Hok (conj Hg (conj Ha Hp))).
    destruct (apply_loop d 0 (zip_with binding ms rs) t) as [calls r]. cbn [snd] in Hok. subst r.
    destruct (finish_result (distinct ∅ (map m_collection ms)) now
      (CBegin h (mkTxOptions false (pr_id principal) requestID) :: calls) t' os) as (-> & -> & _).
    by rewrite bool_decide_eq_true_2.
Qed.

End Coordinator.
