(* ===== verification/Cache.v ===== *)
(** * cache, cache/memory, cache/file, cache/multilevel: tile caches

    Cache keys and their texts, the memory and the file cache, and the two-level cache
    over any two backends.  What a backend promises is the class [Coherent]: a hit is
    a value that may be current.  The memory and file caches satisfy it, and the
    two-level cache of two backends that do satisfies it too. *)

From S2P Require Import Prelude GoText.

#[local] Open Scope Z_scope.

(** ** Keys *)

Record Key := mkKey { MapName : gostring; LayerName : gostring; KZ : Z; KX : Z; KY : Z }.

Definition MaxZ : Z := 22.

(** [path.Clean] of the elements of a path, with the kept elements in reverse. *)
Definition clean_step (rooted : bool) (kept : list gostring) (e : gostring) : list gostring :=
  if beq e [] || beq e (B ".") then kept
  else if beq e (B "..") then
    match kept with
    | top :: rest => if beq top (B "..") then e :: kept else rest
    | [] => if rooted then [] else [e]
    end
  else e :: kept.

Definition Clean (p : gostring) : gostring :=
  if beq p [] then B "."
  else
    let rooted := HasPrefix p (B "/") in
    let out := JoinByte "/" (rev (foldl (clean_step rooted) [] (SplitByte "/" p))) in
    if rooted then B "/" ++ out else if beq out [] then B "." else out.

Fixpoint drop_empty (elems : list gostring) : list gostring :=
  match elems with
  | [] => []
  | e :: elems' => if beq e [] then drop_empty elems' else elems
  end.

(** [path.Join] *)
Definition path_join (elems : list gostring) : gostring :=
  match drop_empty elems with
  | [] => []
  | elems => Clean (JoinByte "/" elems)
  end.

Definition Key_text (k : Key) : gostring :=
  path_join [MapName k; LayerName k; FormatUint (KZ k); FormatUint (KX k); FormatUint (KY k)].

Inductive key_error :=
| ErrInvalidFileKeyParts (path : gostring) (count : Z)
| ErrInvalidFileKey (path : gostring) (key : string) (val : gostring)
| ErrInvalidKeyName (path : gostring) (key : string) (val : gostring).

Definition validateKeyName (path : gostring) (kind : string) (val : gostring) : result key_error unit :=
  if beq val [] || beq val (B ".") || beq val (B "..") then Err (ErrInvalidKeyName path kind val) else Ok tt.

(** [strings.TrimLeft(s, "/")] *)
Fixpoint trim_slashes (s : gostring) : gostring :=
  match s with
  | c :: s' => if Ascii.eqb c "/" then trim_slashes s' else s
  | [] => []
  end.

(** [ParseUint] with a largest value. *)
Definition parse_bounded (s : gostring) (bits maximum : Z) : option Z :=
  match ParseUint s bits with
  | Some n => if maximum <? n then None else Some n
  | None => None
  end.

Definition parse_zxy (path map layer z x y : gostring) : result key_error Key :=
  match parse_bounded z 32 MaxZ with
  | None => Err (ErrInvalidFileKey path "Z" z)
  | Some kz =>
      let maxXYatZ := 2 ^ kz - 1 in
      match parse_bounded x 32 maxXYatZ with
      | None => Err (ErrInvalidFileKey path "X" x)
      | Some kx =>
          match parse_bounded (default [] (head (SplitByte "." y))) 64 maxXYatZ with
          | None => Err (ErrInvalidFileKey path "Y" y)
          | Some ky => Ok (mkKey map layer kz kx ky)
          end
      end
  end.

(** On a system whose separator is the slash. *)
Definition ParseKey (str : gostring) : result key_error Key :=
  let keyParts := SplitByte "/" (trim_slashes str) in
  match keyParts with
  | [map; layer; z; x; y] =>
      check? validateKeyName str "map" map in
      check? validateKeyName str "layer" layer in
      parse_zxy str map layer z x y
  | [map; z; x; y] =>
      check? validateKeyName str "map" map in
      parse_zxy str map [] z x y
  | [z; x; y] => parse_zxy str [] [] z x y
  | _ => Err (ErrInvalidFileKeyParts str (blen keyParts))
  end.

(** *** Round trip *)

(** An element that a path keeps as it is. *)
Definition plain (e : gostring) : Prop := e <> [] /\ e <> B "." /\ e <> B ".." /\ "/"%char ∉ e.

Record valid_key (k : Key) : Prop := {
  vk_z : 0 <= KZ k <= MaxZ;
  vk_x : 0 <= KX k < 2 ^ KZ k;
  vk_y : 0 <= KY k < 2 ^ KZ k;
  vk_map : MapName k = [] \/ plain (MapName k);
  vk_layer : LayerName k = [] \/ (plain (LayerName k) /\ plain (MapName k))
}.

Definition nonempty (e : gostring) : bool := negb (beq e []).

(** Cleaning drops empty elements. *)
Lemma clean_plain (rooted : bool) (es kept : list gostring) :
  Forall (fun e => e = [] \/ plain e) es -> foldl (clean_step rooted) kept es = rev (List.filter nonempty es) ++ kept.
Proof.
  intros H. revert kept. induction H as [|e es [->|(H1 & H2 & H3 & _)] _ IH]; intros kept; [done|apply IH|].
  cbn [foldl List.filter]. rewrite IH. unfold clean_step, nonempty.
  rewrite (proj2 (beq_false _ _) H1), (proj2 (beq_false _ _) H2), (proj2 (beq_false _ _) H3). cbn [orb negb rev].
  by rewrite <- app_assoc.
Qed.

Lemma JoinByte_head (sep : ascii) (e : gostring) (es : list gostring) :
  e <> [] -> exists c t r, e = c :: t /\ JoinByte sep (e :: es) = c :: r.
Proof. intros He. destruct e as [|c t]; [done|]. exists c, t. destruct es; cbn; eauto. Qed.

(** Plain elements are joined unchanged, without the empty ones, and split again. *)
Lemma path_join_plain (e : gostring) (es : list gostring) :
  plain e -> Forall (fun e => e = [] \/ plain e) es ->
  let kept := e :: List.filter nonempty es in
  path_join (e :: es) = JoinByte "/" kept /\ SplitByte "/" (JoinByte "/" kept) = kept
  /\ trim_slashes (JoinByte "/" kept) = JoinByte "/" kept.
Proof.
  intros He Hes kept.
  assert (forall l, Forall (fun e => e = [] \/ plain e) l -> SplitByte "/" (JoinByte "/" (e :: l)) = e :: l) as Hsplit.
  { intros l Hl. apply SplitByte_JoinByte; [done|]. constructor; [apply He|].
    eapply Forall_impl; [exact Hl|]. intros x [->|Hx]; [apply not_elem_of_nil|apply Hx]. }
  assert (Forall (fun e => e = [] \/ plain e) (List.filter nonempty es)) as Hk.
  { rewrite Forall_forall in *. intros x Hx. apply list_elem_of_In, filter_In in Hx as [Hx _].
    apply Hes. by apply list_elem_of_In. }
  assert (forall l r, JoinByte "/" (e :: l) = r -> exists c t, r = c :: t /\ Ascii.eqb c "/" = false) as Hhead.
  { intros l r <-. destruct (JoinByte_head "/" e l (proj1 He)) as (c & t & r & -> & ->). exists c, r. split; [done|].
    apply Ascii.eqb_neq. intros ->. apply He. left. }
  split_and!; [|by apply Hsplit|].
  - unfold path_join. cbn [drop_empty]. rewrite (proj2 (beq_false e []) (proj1 He)). unfold Clean.
    rewrite Hsplit by done. rewrite clean_plain by (constructor; auto). rewrite app_nil_r, rev_involutive.
    assert (List.filter nonempty (e :: es) = kept) as ->.
    { cbn [List.filter]. unfold nonempty at 1. by rewrite (proj2 (beq_false e []) (proj1 He)). }
    destruct (Hhead es _ eq_refl) as (c & t & -> & Hc). destruct (Hhead (List.filter nonempty es) _ eq_refl) as (c' & t' & E & _).
    fold kept in E. rewrite (proj2 (beq_false (c :: t) []) ltac:(done)).
    change (HasPrefix (c :: t) (B "/")) with (Ascii.eqb "/" c && HasPrefix t []). rewrite Ascii.eqb_sym, Hc. cbn [andb].
    rewrite E. by rewrite (proj2 (beq_false (c' :: t') []) ltac:(done)).
  - destruct (Hhead (List.filter nonempty es) _ eq_refl) as (c & t & E & Hc). fold kept in E. rewrite E.
    cbn [trim_slashes]. by rewrite Hc.
Qed.

Lemma FormatUint_plain (n : Z) : 0 <= n -> plain (FormatUint n).
Proof.
  intros Hn. pose proof (FormatUint_nonempty n) as Hne. pose proof (FormatUint_digits n Hn) as Hd.
  apply forallb_Forall_true in Hd. rewrite Forall_forall in Hd.
  assert (forall c, is_digit c = false -> c ∉ FormatUint n) as Hno by (intros c Hc Hin; apply Hd in Hin; congruence).
  split_and!; [done| | |by apply Hno].
  - intros E. eapply (Hno "."%char); [done|]. rewrite E. left.
  - intros E. eapply (Hno "."%char); [done|]. rewrite E. left.
Qed.

Lemma parse_bounded_format (n bits maximum : Z) :
  0 <= n <= maximum -> maximum < 2 ^ bits -> parse_bounded (FormatUint n) bits maximum = Some n.
Proof. intros H1 H2. unfold parse_bounded. rewrite ParseUint_FormatUint by lia. by decide_ltb. Qed.

Lemma parse_zxy_format (path map layer : gostring) (z x y : Z) :
  0 <= z <= MaxZ -> 0 <= x < 2 ^ z -> 0 <= y < 2 ^ z ->
  parse_zxy path map layer (FormatUint z) (FormatUint x) (FormatUint y) = Ok (mkKey map layer z x y).
Proof.
  intros Hz Hx Hy. assert (2 ^ z <= 2 ^ MaxZ) as Hm by (apply Z.pow_le_mono_r; lia).
  assert (2 ^ MaxZ < 2 ^ 32 /\ 2 ^ 32 < 2 ^ 64) as [? ?] by done.
  unfold parse_zxy. rewrite (parse_bounded_format z) by (unfold MaxZ in *; lia).
  rewrite (parse_bounded_format x) by lia. rewrite SplitByte_single.
  - cbn [head default]. by rewrite (parse_bounded_format y) by lia.
  - pose proof (FormatUint_digits y ltac:(lia)) as Hd%forallb_Forall_true. rewrite Forall_forall in Hd.
    intros Hin%Hd. done.
Qed.

Lemma parse_zxy_valid (path map layer z x y : gostring) (k : Key) :
  parse_zxy path map layer z x y = Ok k ->
  MapName k = map /\ LayerName k = layer /\ 0 <= KZ k <= MaxZ /\ 0 <= KX k < 2 ^ KZ k /\ 0 <= KY k < 2 ^ KZ k.
Proof.
  assert (forall s bits m n, parse_bounded s bits m = Some n -> 0 <= n <= m) as Hb.
  { intros s bits m n. unfold parse_bounded. destruct (ParseUint s bits) as [v|] eqn:E; [|done].
    apply ParseUint_range in E. destruct (Z.ltb_spec m v); intros [= <-]; lia. }
  unfold parse_zxy. destruct (parse_bounded z 32 MaxZ) as [kz|] eqn:Ez; [|done].
  destruct (parse_bounded x 32 _) as [kx|] eqn:Ex; [|done].
  destruct (parse_bounded _ 64 _) as [ky|] eqn:Ey; [|done]. intros [= <-]. cbn.
  apply Hb in Ez, Ex, Ey. split_and!; try done; lia.
Qed.

Lemma validateKeyName_ok (path : gostring) (kind : string) (val : gostring) :
  validateKeyName path kind val = Ok tt <-> val <> [] /\ val <> B "." /\ val <> B "..".
Proof.
  unfold validateKeyName. rewrite if_Err_Ok, !orb_false_iff, !beq_false. naive_solver.
Qed.

Lemma plain_validates (path : gostring) (kind : string) (val : gostring) :
  plain val -> validateKeyName path kind val = Ok tt.
Proof. intros (H1 & H2 & H3 & _). by apply validateKeyName_ok. Qed.

Lemma plain_nonempty (e : gostring) : plain e -> nonempty e = true.
Proof. intros [H _]. unfold nonempty. by rewrite (proj2 (beq_false e []) H). Qed.

Lemma valid_key_parses (k : Key) : valid_key k -> ParseKey (Key_text k) = Ok k.
Proof.
  intros [Hz Hx Hy Hm Hl]. destruct k as [map layer z x y]. cbn [MapName LayerName KZ KX KY] in *. unfold Key_text.
  cbn [MapName LayerName KZ KX KY].
  pose proof (FormatUint_plain z ltac:(lia)) as Pz. pose proof (FormatUint_plain x ltac:(lia)) as Px.
  pose proof (FormatUint_plain y ltac:(lia)) as Py. pose proof (plain_nonempty _ Pz) as Nz.
  pose proof (plain_nonempty _ Px) as Nx. pose proof (plain_nonempty _ Py) as Ny.
  assert (forall path m l, parse_zxy path m l (FormatUint z) (FormatUint x) (FormatUint y) = Ok (mkKey m l z x y)) as Hp
    by (intros; by apply parse_zxy_format).
  destruct Hl as [->|[Hl Hm']]; [destruct Hm as [->|Hm]|].
  - change (path_join [[]; []; ?a; ?b; ?c]) with (path_join [a; b; c]).
    destruct (path_join_plain (FormatUint z) [FormatUint x; FormatUint y] Pz) as (-> & E1 & E2); [rewrite !Forall_cons, Forall_nil; tauto|].
    unfold ParseKey. rewrite E2, E1. cbn [List.filter]. rewrite Nx, Ny. apply Hp.
  - destruct (path_join_plain map [[]; FormatUint z; FormatUint x; FormatUint y] Hm) as (-> & E1 & E2); [rewrite !Forall_cons, Forall_nil; tauto|].
    unfold ParseKey. rewrite E2, E1. cbn [List.filter]. rewrite Nz, Nx, Ny. change (nonempty []) with false. cbn iota.
    rewrite plain_validates by done. apply Hp.
  - destruct (path_join_plain map [layer; FormatUint z; FormatUint x; FormatUint y] Hm') as (-> & E1 & E2); [rewrite !Forall_cons, Forall_nil; tauto|].
    unfold ParseKey. rewrite E2, E1. cbn [List.filter]. rewrite (plain_nonempty _ Hl), Nz, Nx, Ny.
    rewrite !plain_validates by done. apply Hp.
Qed.

Lemma ParseKey_valid (s : gostring) (k : Key) : ParseKey s = Ok k -> valid_key k.
Proof.
  unfold ParseKey. pose proof (SplitByte_no_sep "/" (trim_slashes s)) as Hs.
  assert (forall kind v, validateKeyName s kind v = Ok tt -> "/"%char ∉ v -> plain v) as Hv
    by (intros kind v H%validateKeyName_ok Hn; unfold plain; tauto).
  destruct (SplitByte "/" (trim_slashes s)) as [|p1 [|p2 [|p3 [|p4 [|p5 [|]]]]]]; try done.
  - intros (E1 & E2 & Hz & Hx & Hy)%parse_zxy_valid. split; auto.
  - rewrite rbind_unit. intros [Hm (E1 & E2 & Hz & Hx & Hy)%parse_zxy_valid]. rewrite Forall_cons in Hs. destruct Hs as [Hs _].
    split; try done; rewrite ?E1, ?E2; [right|left]; eauto.
  - rewrite !rbind_unit. intros (Hm & Hl & (E1 & E2 & Hz & Hx & Hy)%parse_zxy_valid). rewrite !Forall_cons in Hs.
    destruct Hs as (Hs1 & Hs2 & _). split; try done; rewrite ?E1, ?E2; right; [|split]; eauto.
Qed.

(** C21. A text is accepted as a cache key only with a zoom up to 22, a column and row
    inside the grid of the zoom, and names that cannot leave the directory of the
    cache; the keys so limited are exactly those that are read back from their text. *)
Theorem ParseKey_exact :
  (forall s k, ParseKey s = Ok k -> valid_key k) /\ (forall k, valid_key k <-> ParseKey (Key_text k) = Ok k).
Proof.
  split; [apply ParseKey_valid|]. intros k. split; [apply valid_key_parses|apply ParseKey_valid].
Qed.

(** ** Backends *)

(** The calls of the file cache on the operating system; each may fail with a text,
    other than that a file does not exist. *)
Inductive os_call :=
| OsOpen | OsStat | OsClose | OsRead | OsMkdirAll | OsCreateTemp | OsWrite | OsCloseTemp | OsRename (attempt : nat)
| OsStatPath | OsRemove (attempt : nat) | OsStatLast.

(** What a cache meets during a call: the error of its context, the time in
    nanoseconds, and the failures of the operating system. *)
Record call_env := mkCallEnv { ce_ctx : option gostring; ce_now : Z; ce_os : os_call -> option gostring }.

(** The moments of a call, and those of the calls it makes in turn. *)
Abbreviation moments := (nat -> call_env).

Definition part (i : nat) (w : moments) : moments := fun n => w (4 * n + i)%nat.

(** cache.Interface; a read gives a hit, a miss or an error. *)
Class Backend (S : Type) := {
  cache_get : moments -> S -> Key -> S * result gostring (option gostring);
  cache_set : moments -> S -> Key -> gostring -> S * option gostring;
  cache_purge : moments -> S -> Key -> S * option gostring
}.

(** *** The memory cache *)

Record memoryEntry := mkMemoryEntry { me_value : gostring; me_expiresAt : Z }.

Record MemoryCache := mkMemory { mc_keyVals : gmap gostring memoryEntry; mc_MaxZoom : Z; mc_Expiration : Z }.

Definition memory_with (mc : MemoryCache) (m : gmap gostring memoryEntry) : MemoryCache :=
  mkMemory m (mc_MaxZoom mc) (mc_Expiration mc).

Definition memory_get (w : moments) (mc : MemoryCache) (key : Key) : MemoryCache * result gostring (option gostring) :=
  match ce_ctx (w 0%nat) with
  | Some err => (mc, Err err)
  | None =>
      match mc_keyVals mc !! Key_text key with
      | None => (mc, Ok None)
      | Some entry =>
          if (0 <? mc_Expiration mc) && (me_expiresAt entry <? ce_now (w 0%nat)) then
            (memory_with mc (delete (Key_text key) (mc_keyVals mc)), Ok None)
          else (mc, Ok (Some (me_value entry)))
      end
  end.

Definition memory_set (w : moments) (mc : MemoryCache) (key : Key) (val : gostring) : MemoryCache * option gostring :=
  if mc_MaxZoom mc <? KZ key then (mc, None)
  else
    match ce_ctx (w 0%nat) with
    | Some err => (mc, Some err)
    | None =>
        let entry := mkMemoryEntry val (if 0 <? mc_Expiration mc then ce_now (w 0%nat) + mc_Expiration mc else 0) in
        (memory_with mc (<[Key_text key := entry]> (mc_keyVals mc)), None)
    end.

Definition memory_purge (w : moments) (mc : MemoryCache) (key : Key) : MemoryCache * option gostring :=
  match ce_ctx (w 0%nat) with
  | Some err => (mc, Some err)
  | None => (memory_with mc (delete (Key_text key) (mc_keyVals mc)), None)
  end.

#[export] Instance memory_backend : Backend MemoryCache :=
  {| cache_get := memory_get; cache_set := memory_set; cache_purge := memory_purge |}.

(** *** The file cache *)

(** The files below the base path, by the text of their key, with the time of their
    last modification. *)
Record FileCache := mkFile { fc_files : gmap gostring (gostring * Z); fc_MaxZoom : Z; fc_Expiration : Z }.

Definition file_with (fc : FileCache) (m : gmap gostring (gostring * Z)) : FileCache :=
  mkFile m (fc_MaxZoom fc) (fc_Expiration fc).

Definition isExpired (mtime ttl now : Z) : bool := mtime + ttl <? now.

(** Ten attempts. *)
Definition attempts : list nat := seq 0 10.

Definition last_error (f : nat -> option gostring) : gostring := default [] (f 9%nat).

Definition succeeds (f : nat -> option gostring) : bool := existsb (fun i => bool_decide (f i = None)) attempts.

(** [removeIfPresent]: the files and the error. A removal that does not fail leaves no
    file; after ten failures the call still succeeds if the file is found to be gone. *)
Definition removeIfPresent (e : call_env) (files : gmap gostring (gostring * Z)) (path : gostring)
    : gmap gostring (gostring * Z) * option gostring :=
  let f i := ce_os e (OsRemove i) in
  if succeeds f then (delete path files, None)
  else
    match files !! path, ce_os e OsStatLast with
    | None, None => (files, None)
    | _, _ => (files, Some (last_error f))
    end.

(** Only the answer that the file does not exist ends the call early; another failure of
    the first look at the file is ignored. *)
Definition file_purge (w : moments) (fc : FileCache) (key : Key) : FileCache * option gostring :=
  let e := w 0%nat in
  match fc_files fc !! Key_text key, ce_os e OsStatPath with
  | None, None => (fc, None)
  | _, _ =>
      match ce_ctx e with
      | Some err => (fc, Some err)
      | None =>
          let '(files, err) := removeIfPresent e (fc_files fc) (Key_text key) in
          (file_with fc files, err)
      end
  end.

Definition file_get (w : moments) (fc : FileCache) (key : Key) : FileCache * result gostring (option gostring) :=
  let e := w 0%nat in
  let os c k := match ce_os e c with Some err => (fc, Err err) | None => k end in
  match fc_files fc !! Key_text key with
  | None => (fc, match ce_os e OsOpen with Some err => Err err | None => Ok None end)
  | Some (val, mtime) =>
      let read :=
        match ce_ctx e with
        | Some err => (fc, Err err)
        | None => os OsRead (fc, Ok (Some val))
        end in
      os OsOpen
        (if 0 <? fc_Expiration fc then
           os OsStat
             (if isExpired mtime (fc_Expiration fc) (ce_now e) then
                os OsClose
                  (match file_purge (part 1 w) fc key with
                   | (fc', Some err) => (fc', Err err)
                   | (fc', None) => (fc', Ok None)
                   end)
              else read)
         else read)
  end.

(** [renameWithRetry] *)
Definition renameWithRetry (e : call_env) : option gostring :=
  let f i := ce_os e (OsRename i) in
  if succeeds f then None else Some (last_error f).

(** The file is written aside and renamed at the end, so a failure leaves the old
    one. *)
Definition file_set (w : moments) (fc : FileCache) (key : Key) (val : gostring) : FileCache * option gostring :=
  let e := w 0%nat in
  let os c k := match ce_os e c with Some err => (fc, Some err) | None => k end in
  if fc_MaxZoom fc <? KZ key then (fc, None)
  else
    match ce_ctx e with
    | Some err => (fc, Some err)
    | None =>
        os OsMkdirAll (os OsCreateTemp (os OsWrite (os OsCloseTemp
          (match renameWithRetry e with
           | Some err => (fc, Some err)
           | None => (file_with fc (<[Key_text key := (val, ce_now e)]> (fc_files fc)), None)
           end))))
    end.

#[export] Instance file_backend : Backend FileCache :=
  {| cache_get := file_get; cache_set := file_set; cache_purge := file_purge |}.

(** *** The two-level cache *)

Section Multilevel.
Context {M F : Type} `{Backend M} `{Backend F}.

Record Multilevel := mkMultilevel { ml_memory : M; ml_file : F }.

Definition multi_error (level : string) (err : gostring) : gostring := B "multilevel cache: " ++ B level ++ B " get: " ++ err.

Definition multilevel_get (w : moments) (c : Multilevel) (key : Key) : Multilevel * result gostring (option gostring) :=
  let '(m, r) := cache_get (part 0 w) (ml_memory c) key in
  let from_file (err : option gostring) :=
    match cache_get (part 1 w) (ml_file c) key with
    | (f, Err ferr) =>
        (mkMultilevel m f,
         Err (match err with
              | Some err => multi_error "memory" err ++ [byte_of 10] ++ multi_error "file" ferr
              | None => multi_error "file" ferr
              end))
    | (f, Ok None) => (mkMultilevel m f, Ok None)
    | (f, Ok (Some value)) =>
        let '(m', _) := cache_set (part 2 w) m key value in
        (mkMultilevel m' f, Ok (Some value))
    end in
  match r with
  | Err err =>
      match ce_ctx (w 3%nat) with
      | Some _ => (mkMultilevel m (ml_file c), Err (multi_error "memory" err))
      | None => from_file (Some err)
      end
  | Ok (Some value) => (mkMultilevel m (ml_file c), Ok (Some value))
  | Ok None => from_file None
  end.

(** [errors.Join] of the failures of both levels. *)
Definition join_errors (op : string) (e1 e2 : option gostring) : option gostring :=
  let text level err := B level ++ B " " ++ B op ++ B ": " ++ err in
  match e1, e2 with
  | None, None => None
  | Some e1, None => Some (text "memory"%string e1)
  | None, Some e2 => Some (text "file"%string e2)
  | Some e1, Some e2 => Some (text "memory"%string e1 ++ [byte_of 10] ++ text "file"%string e2)
  end.

Definition multilevel_set (w : moments) (c : Multilevel) (key : Key) (value : gostring) : Multilevel * option gostring :=
  let '(m, e1) := cache_set (part 0 w) (ml_memory c) key value in
  let '(f, e2) := cache_set (part 1 w) (ml_file c) key value in
  (mkMultilevel m f, join_errors "set" e1 e2).

Definition multilevel_purge (w : moments) (c : Multilevel) (key : Key) : Multilevel * option gostring :=
  let '(m, e1) := cache_purge (part 0 w) (ml_memory c) key in
  let '(f, e2) := cache_purge (part 1 w) (ml_file c) key in
  (mkMultilevel m f, join_errors "purge" e1 e2).

#[export] Instance multilevel_backend : Backend Multilevel :=
  {| cache_get := multilevel_get; cache_set := multilevel_set; cache_purge := multilevel_purge |}.

End Multilevel.

Arguments Multilevel : clear implicits.
Arguments mkMultilevel {M F} _ _.

(** ** What a cache promises *)

(** The values a key may have: those of which a caller cannot say that they were
    replaced or removed. *)
Abbreviation possible := (Key -> gostring -> Prop).

(** A write that succeeds leaves one value; one that fails may have happened or not. *)
Definition after_set (P : possible) (key : Key) (val : gostring) (err : option gostring) : possible :=
  fun k v => (k = key /\ v = val) \/ (P k v /\ (k = key -> err <> None)).

(** A removal that succeeds leaves no value. *)
Definition after_purge (P : possible) (key : Key) (err : option gostring) : possible :=
  fun k v => P k v /\ (k = key -> err <> None).

Definition narrower (P Q : possible) : Prop := forall k v, P k v -> Q k v.

(** A cache holds possible values only, and keeps to that. *)
Class Coherent (S : Type) `{Backend S} := {
  holds : possible -> S -> Prop;
  holds_wider (P Q : possible) (s : S) : narrower P Q -> holds P s -> holds Q s;
  get_holds (P : possible) (w : moments) (s : S) (key : Key) :
    valid_key key -> holds P s -> holds P (cache_get w s key).1;
  get_possible (P : possible) (w : moments) (s : S) (key : Key) (v : gostring) :
    valid_key key -> holds P s -> (cache_get w s key).2 = Ok (Some v) -> P key v;
  set_holds (P : possible) (w : moments) (s : S) (key : Key) (v : gostring) :
    valid_key key -> holds P s -> holds (after_set P key v (cache_set w s key v).2) (cache_set w s key v).1;
  purge_holds (P : possible) (w : moments) (s : S) (key : Key) :
    valid_key key -> holds P s -> holds (after_purge P key (cache_purge w s key).2) (cache_purge w s key).1
}.

Lemma Key_text_inj (k1 k2 : Key) : valid_key k1 -> valid_key k2 -> Key_text k1 = Key_text k2 -> k1 = k2.
Proof. intros H1%valid_key_parses H2%valid_key_parses E. rewrite E in H1. congruence. Qed.

(** *** Tables by the text of the key *)

(** Both stores are such tables: each entry belongs to a valid key of a stored zoom. *)
Section Table.
Context {V : Type} (value_of : V -> gostring).

Definition table_holds (P : possible) (max : Z) (m : gmap gostring V) : Prop :=
  forall text e, m !! text = Some e ->
    exists k, valid_key k /\ text = Key_text k /\ KZ k <= max /\ P k (value_of e).

Lemma table_wider (P Q : possible) (max : Z) (m : gmap gostring V) :
  narrower P Q -> table_holds P max m -> table_holds Q max m.
Proof. intros HPQ H text e E. destruct (H text e E) as (k & ? & ? & ? & ?). eauto 6. Qed.

Lemma table_lookup (P : possible) (max : Z) (m : gmap gostring V) (key : Key) (e : V) :
  valid_key key -> table_holds P max m -> m !! Key_text key = Some e -> KZ key <= max /\ P key (value_of e).
Proof.
  intros Hk H E. destruct (H _ _ E) as (k & Hk' & Et & ? & ?). by rewrite (Key_text_inj key k Hk Hk' Et).
Qed.

(** A key of a zoom that is not stored has no entry, so leaving it alone is enough. *)
Lemma table_skipped (P : possible) (max : Z) (m : gmap gostring V) (key : Key) (v : gostring) (err : option gostring) :
  valid_key key -> max < KZ key -> table_holds P max m -> table_holds (after_set P key v err) max m.
Proof.
  intros Hk Hz H text e E. destruct (H _ _ E) as (k & Hk' & Et & Hz' & Hp). exists k. refine (conj Hk' (conj Et (conj Hz' _))).
  right. split; [done|]. intros ->. lia.
Qed.

Lemma table_insert (P : possible) (max : Z) (m : gmap gostring V) (key : Key) (e : V) :
  valid_key key -> KZ key <= max -> table_holds P max m ->
  table_holds (after_set P key (value_of e) None) max (<[Key_text key := e]> m).
Proof.
  intros Hk Hz H text e'. rewrite lookup_insert_Some. intros [[<- <-]|[Hne E]].
  - exists key. refine (conj Hk (conj eq_refl (conj Hz _))). by left.
  - destruct (H _ _ E) as (k & Hk' & Et & Hz' & Hp). exists k. refine (conj Hk' (conj Et (conj Hz' _))).
    right. split; [done|]. intros ->. congruence.
Qed.

Lemma table_delete (P : possible) (max : Z) (m : gmap gostring V) (key : Key) :
  table_holds P max m -> table_holds (after_purge P key None) max (delete (Key_text key) m).
Proof.
  intros H text e [Hne E]%lookup_delete_Some. destruct (H _ _ E) as (k & Hk' & Et & Hz' & Hp).
  exists k. refine (conj Hk' (conj Et (conj Hz' _))). split; [done|]. intros ->. congruence.
Qed.

Lemma table_absent (P : possible) (max : Z) (m : gmap gostring V) (key : Key) (err : option gostring) :
  valid_key key -> m !! Key_text key = None -> table_holds P max m -> table_holds (after_purge P key err) max m.
Proof.
  intros Hk Hn H text e E. destruct (H _ _ E) as (k & Hk' & Et & Hz' & Hp). exists k. refine (conj Hk' (conj Et (conj Hz' _))). split; [done|].
  intros ->. congruence.
Qed.
End Table.

(** A failure leaves every value possible. *)
Lemma after_set_failed (P : possible) (key : Key) (v err : gostring) : narrower P (after_set P key v (Some err)).
Proof. intros k u H. right. by split. Qed.

Lemma after_purge_failed (P : possible) (key : Key) (err : gostring) : narrower P (after_purge P key (Some err)).
Proof. intros k u H. by split. Qed.

Lemma after_purge_narrower (P : possible) (key : Key) (err : option gostring) : narrower (after_purge P key err) P.
Proof. by intros k v [? _]. Qed.

Lemma after_set_promoted (P : possible) (key : Key) (v : gostring) (err : option gostring) :
  P key v -> narrower (after_set P key v err) P.
Proof. intros H k u [[-> ->]|[? _]]; done. Qed.

Lemma after_set_weaker (P : possible) (key : Key) (v : gostring) (e1 e2 : option gostring) :
  (e2 = None -> e1 = None) -> narrower (after_set P key v e1) (after_set P key v e2).
Proof. intros He k u [?|[? Hn]]; [by left|]. right. split; [done|]. intros Hk E. by apply (Hn Hk), He. Qed.

Lemma after_purge_weaker (P : possible) (key : Key) (e1 e2 : option gostring) :
  (e2 = None -> e1 = None) -> narrower (after_purge P key e1) (after_purge P key e2).
Proof. intros He k u [? Hn]. split; [done|]. intros Hk E. by apply (Hn Hk), He. Qed.

Create HintDb cache.
(** An entry that was not touched stays possible. *)
Ltac unchanged := cbn [fst snd]; eapply table_wider; [|eassumption]; solve [auto with cache].
#[export] Hint Resolve after_set_failed after_purge_failed after_purge_narrower after_set_promoted table_wider
  table_skipped table_insert table_delete table_absent : cache.

(** *** The three caches keep the promise *)

Definition memory_holds (P : possible) (mc : MemoryCache) : Prop := table_holds me_value P (mc_MaxZoom mc) (mc_keyVals mc).

Definition file_holds (P : possible) (fc : FileCache) : Prop := table_holds fst P (fc_MaxZoom fc) (fc_files fc).

Lemma memory_set_holds (P : possible) (w : moments) (mc : MemoryCache) (key : Key) (v : gostring) :
  valid_key key -> memory_holds P mc -> memory_holds (after_set P key v (memory_set w mc key v).2) (memory_set w mc key v).1.
Proof.
  intros Hk H. unfold memory_set. destruct (Z.ltb_spec (mc_MaxZoom mc) (KZ key)); [by apply table_skipped|].
  destruct (ce_ctx _); [unchanged|].
  unfold memory_holds. cbn. set (e := mkMemoryEntry v _). by apply (table_insert me_value _ _ _ _ e).
Qed.

Lemma memory_get_holds (P : possible) (w : moments) (mc : MemoryCache) (key : Key) :
  memory_holds P mc -> memory_holds P (memory_get w mc key).1.
Proof.
  intros H. unfold memory_get. destruct (ce_ctx _); [done|]. destruct (_ !! _); [|done].
  destruct (_ && _); [|done]. by apply (table_wider _ _ _ _ _ (after_purge_narrower P key None)), table_delete.
Qed.

Lemma memory_get_possible (P : possible) (w : moments) (mc : MemoryCache) (key : Key) (v : gostring) :
  valid_key key -> memory_holds P mc -> (memory_get w mc key).2 = Ok (Some v) -> P key v.
Proof.
  intros Hk H. unfold memory_get. destruct (ce_ctx _); [done|].
  destruct (_ !! _) as [e|] eqn:E; [|done]. destruct (_ && _); [done|]. intros [= <-]. by eapply table_lookup in E as [_ ?].
Qed.

Lemma memory_purge_holds (P : possible) (w : moments) (mc : MemoryCache) (key : Key) :
  memory_holds P mc -> memory_holds (after_purge P key (memory_purge w mc key).2) (memory_purge w mc key).1.
Proof.
  intros H. unfold memory_purge. destruct (ce_ctx _); [unchanged|]. by apply table_delete.
Qed.

#[export] Instance memory_coherent : Coherent MemoryCache := {|
  holds := memory_holds;
  holds_wider P Q s := table_wider me_value P Q _ _;
  get_holds P w s key _ := memory_get_holds P w s key;
  get_possible := memory_get_possible;
  set_holds := memory_set_holds;
  purge_holds P w s key _ := memory_purge_holds P w s key
|}.

Lemma removeIfPresent_holds (P : possible) (e : call_env) (max : Z) (files : gmap gostring (gostring * Z)) (key : Key) :
  valid_key key -> table_holds fst P max files ->
  table_holds fst (after_purge P key (removeIfPresent e files (Key_text key)).2) max (removeIfPresent e files (Key_text key)).1.
Proof.
  intros Hk H. unfold removeIfPresent. destruct (succeeds _); [by apply table_delete|].
  destruct (files !! _) eqn:E; [|destruct (ce_os _ _)]; cbn;
    first [by apply table_absent|unchanged].
Qed.

Lemma file_purge_holds (P : possible) (w : moments) (fc : FileCache) (key : Key) :
  valid_key key -> file_holds P fc -> file_holds (after_purge P key (file_purge w fc key).2) (file_purge w fc key).1.
Proof.
  intros Hk H. unfold file_purge. pose proof (removeIfPresent_holds P (w 0%nat) _ _ key Hk H) as Hr.
  destruct (removeIfPresent _ _ _) as [files err].
  destruct (fc_files fc !! _) eqn:E, (ce_os (w 0%nat) OsStatPath);
    first [by apply table_absent|destruct (ce_ctx _); [unchanged|exact Hr]].
Qed.

Lemma file_get_holds (P : possible) (w : moments) (fc : FileCache) (key : Key) :
  valid_key key -> file_holds P fc -> file_holds P (file_get w fc key).1.
Proof.
  intros Hk H. pose proof (file_purge_holds P (part 1 w) fc key Hk H) as Hp.
  apply (table_wider fst _ P) in Hp; [|apply after_purge_narrower].
  unfold file_get. destruct (file_purge _ _ _) as [fc' [?|]]; repeat case_match; simplify_eq/=; done.
Qed.

Lemma file_get_possible (P : possible) (w : moments) (fc : FileCache) (key : Key) (v : gostring) :
  valid_key key -> file_holds P fc -> (file_get w fc key).2 = Ok (Some v) -> P key v.
Proof.
  intros Hk H. unfold file_get. destruct (_ !! _) as [[u t]|] eqn:E; [|by destruct (ce_os _ _)].
  eapply table_lookup in E as [_ E]; [|done|exact H]. intros Hr.
  enough (v = u) as -> by done. repeat case_match; simplify_eq/=; done.
Qed.

Lemma file_set_holds (P : possible) (w : moments) (fc : FileCache) (key : Key) (v : gostring) :
  valid_key key -> file_holds P fc -> file_holds (after_set P key v (file_set w fc key v).2) (file_set w fc key v).1.
Proof.
  intros Hk H. unfold file_set. destruct (Z.ltb_spec (fc_MaxZoom fc) (KZ key)); [by apply table_skipped|].
  destruct (ce_ctx _); [unchanged|].
  repeat (destruct (ce_os _ _); [unchanged|]).
  destruct (renameWithRetry _); [unchanged|].
  by apply (table_insert fst _ _ _ _ (v, _)).
Qed.

#[export] Instance file_coherent : Coherent FileCache := {|
  holds := file_holds;
  holds_wider P Q s := table_wider fst P Q _ _;
  get_holds := file_get_holds;
  get_possible := file_get_possible;
  set_holds := file_set_holds;
  purge_holds := file_purge_holds
|}.

(** Two coherent levels make a coherent cache, whatever they are. *)
Section MultilevelCoherent.
Context {M F : Type} `{Coherent M} `{Coherent F}.

Definition multilevel_holds (P : possible) (c : Multilevel M F) : Prop := holds P (ml_memory c) /\ holds P (ml_file c).

Lemma join_errors_None (op : string) (e1 e2 : option gostring) : join_errors op e1 e2 = None -> e1 = None /\ e2 = None.
Proof. by destruct e1, e2. Qed.

Lemma multilevel_get_spec (P : possible) (w : moments) (c : Multilevel M F) (key : Key) :
  valid_key key -> multilevel_holds P c ->
  multilevel_holds P (multilevel_get w c key).1 /\
  (forall v, (multilevel_get w c key).2 = Ok (Some v) -> P key v).
Proof.
  intros Hk [Hm Hf]. unfold multilevel_get.
  pose proof (get_holds P (part 0 w) _ key Hk Hm) as Hm1. pose proof (fun v => get_possible P (part 0 w) _ key v Hk Hm) as Hm2.
  pose proof (get_holds P (part 1 w) _ key Hk Hf) as Hf1. pose proof (fun v => get_possible P (part 1 w) _ key v Hk Hf) as Hf2.
  destruct (cache_get (part 0 w) _ key) as [m r]. destruct (cache_get (part 1 w) _ key) as [f rf]. cbn in *.
  assert (forall u, rf = Ok (Some u) -> holds P (cache_set (part 2 w) m key u).1) as Hp.
  { intros u E. eapply holds_wider; [|by apply set_holds]. apply after_set_promoted. by apply Hf2. }
  destruct r as [[u|]|err]; [by split; [split|intros v [= <-]; apply Hm2]| |destruct (ce_ctx _); [by split; [split|]|]];
    (destruct rf as [[u|]|ferr]; [|by split; [split|]|by split; [split|]]);
    specialize (Hp u eq_refl); destruct (cache_set (part 2 w) m key u); (split; [by split|]);
    intros v [= <-]; by apply Hf2.
Qed.

Lemma multilevel_set_holds (P : possible) (w : moments) (c : Multilevel M F) (key : Key) (v : gostring) :
  valid_key key -> multilevel_holds P c ->
  multilevel_holds (after_set P key v (multilevel_set w c key v).2) (multilevel_set w c key v).1.
Proof.
  intros Hk [Hm Hf]. unfold multilevel_set.
  pose proof (set_holds P (part 0 w) _ key v Hk Hm) as Hm1. pose proof (set_holds P (part 1 w) _ key v Hk Hf) as Hf1.
  destruct (cache_set (part 0 w) _ key v), (cache_set (part 1 w) _ key v).
  split; (eapply holds_wider; [|eassumption]); apply after_set_weaker; intros []%join_errors_None; done.
Qed.

Lemma multilevel_purge_holds (P : possible) (w : moments) (c : Multilevel M F) (key : Key) :
  valid_key key -> multilevel_holds P c ->
  multilevel_holds (after_purge P key (multilevel_purge w c key).2) (multilevel_purge w c key).1.
Proof.
  intros Hk [Hm Hf]. unfold multilevel_purge.
  pose proof (purge_holds P (part 0 w) _ key Hk Hm) as Hm1. pose proof (purge_holds P (part 1 w) _ key Hk Hf) as Hf1.
  destruct (cache_purge (part 0 w) _ key), (cache_purge (part 1 w) _ key).
  split; (eapply holds_wider; [|eassumption]); apply after_purge_weaker; intros []%join_errors_None; done.
Qed.

Lemma multilevel_wider (P Q : possible) (c : Multilevel M F) : narrower P Q -> multilevel_holds P c -> multilevel_holds Q c.
Proof. intros HPQ [Hm Hf]. split; by eapply holds_wider. Qed.

#[export] Instance multilevel_coherent : Coherent (Multilevel M F) := {|
  holds := multilevel_holds;
  holds_wider := multilevel_wider;
  get_holds P w c key Hk H := proj1 (multilevel_get_spec P w c key Hk H);
  get_possible P w c key v Hk H := proj2 (multilevel_get_spec P w c key Hk H) v;
  set_holds := multilevel_set_holds;
  purge_holds := multilevel_purge_holds
|}.
End MultilevelCoherent.

(** ** Runs *)

Inductive cache_call :=
| CGet (key : Key)
| CSet (key : Key) (value : gostring)
| CPurge (key : Key).

Definition call_key (c : cache_call) : Key := match c with CGet k | CSet k _ | CPurge k => k end.

(** Every hit of a run is a value its key may have at that point. *)
Fixpoint truthful {S : Type} `{Backend S} (P : possible) (s : S) (calls : list (moments * cache_call)) : Prop :=
  match calls with
  | [] => True
  | (w, CGet key) :: rest =>
      (forall v, (cache_get w s key).2 = Ok (Some v) -> P key v) /\ truthful P (cache_get w s key).1 rest
  | (w, CSet key v) :: rest => truthful (after_set P key v (cache_set w s key v).2) (cache_set w s key v).1 rest
  | (w, CPurge key) :: rest => truthful (after_purge P key (cache_purge w s key).2) (cache_purge w s key).1 rest
  end.

Lemma coherent_truthful {S : Type} `{Coherent S} (calls : list (moments * cache_call)) (P : possible) (s : S) :
  Forall (fun c => valid_key (call_key c.2)) calls -> holds P s -> truthful P s calls.
Proof.
  intros Hv. revert P s. induction Hv as [|[w [k|k v|k]] calls Hk _ IH]; intros P s Hs; [done|..]; cbn in Hk |- *.
  - split; [intros v; by apply get_possible|]. by apply IH, get_holds.
  - by apply IH, set_holds.
  - by apply IH, purge_holds.
Qed.

(** [New] of the two stores, from the configured zoom and time to live in seconds: the
    memory starts empty, the files are those the directory has. *)
Definition int64 (n : Z) : Z := (n + 2 ^ 63) mod 2 ^ 64 - 2 ^ 63.

Definition memory_New (maxZoom ttl : Z) : MemoryCache := mkMemory ∅ maxZoom (int64 (ttl * 10 ^ 9)).

Definition file_New (files : gmap gostring (gostring * Z)) (maxZoom ttl : Z) : FileCache :=
  mkFile files maxZoom (int64 (ttl * 10 ^ 9)).

Lemma memory_New_holds (P : possible) (maxZoom ttl : Z) : memory_holds P (memory_New maxZoom ttl).
Proof. intros text e. cbn. by rewrite lookup_empty. Qed.


(** ** A stored tile is found *)

Definition quiet (w : moments) : Prop := forall n, ce_ctx (w n) = None /\ forall c, ce_os (w n) c = None.

(** A store that takes the zoom, and in which what was written then is not expired
    now. *)
Definition keeps (max ttl : Z) (key : Key) (written now : Z) : Prop := KZ key <= max /\ (0 < ttl -> now <= written + ttl).

Lemma quiet_part (i : nat) (w : moments) : quiet w -> quiet (part i w).
Proof. intros H n. apply H. Qed.

Lemma memory_keeps (w w' : moments) (mc mc' : MemoryCache) (key : Key) (v : gostring) :
  memory_set w mc key v = (mc', None) -> ce_ctx (w' 0%nat) = None ->
  keeps (mc_MaxZoom mc) (mc_Expiration mc) key (ce_now (w 0%nat)) (ce_now (w' 0%nat)) ->
  (memory_get w' mc' key).2 = Ok (Some v).
Proof.
  unfold memory_set, memory_get. intros Es -> [Hz Ht]. rewrite (proj2 (Z.ltb_ge _ _) Hz) in Es.
  destruct (ce_ctx (w 0%nat)); [done|]. injection Es as <-. cbn. rewrite lookup_insert_eq. cbn.
  destruct (Z.ltb_spec 0 (mc_Expiration mc)); [|done]. cbn.
  by rewrite (proj2 (Z.ltb_ge _ _) (Ht ltac:(done))).
Qed.

Lemma file_keeps (w w' : moments) (fc fc' : FileCache) (key : Key) (v : gostring) :
  file_set w fc key v = (fc', None) -> quiet w' ->
  keeps (fc_MaxZoom fc) (fc_Expiration fc) key (ce_now (w 0%nat)) (ce_now (w' 0%nat)) ->
  (file_get w' fc' key).2 = Ok (Some v).
Proof.
  unfold file_set, file_get. intros Es Hq [Hz Ht]. rewrite (proj2 (Z.ltb_ge _ _) Hz) in Es.
  destruct (Hq 0%nat) as [-> Hos]. rewrite !Hos. repeat case_match; simplify_eq/=; try done;
    rewrite lookup_insert_eq in *; simplify_eq/=; try done.
  - unfold isExpired in *. bool_props. lia.
  - unfold isExpired in *. bool_props. lia.
Qed.

Lemma memory_get_quiet (w : moments) (mc : MemoryCache) (key : Key) :
  ce_ctx (w 0%nat) = None -> exists r, (memory_get w mc key).2 = Ok r.
Proof. unfold memory_get. intros ->. repeat case_match; eauto. Qed.

(** C20. A tile that was stored is found: after a write that reported no failure, a read
    that meets none returns that very tile, as long as one of the two levels takes the
    zoom and has not let it expire. *)
Theorem multilevel_stored_found (P : possible) (w w' : moments) (c c' : Multilevel MemoryCache FileCache)
    (key : Key) (v : gostring) :
  valid_key key -> multilevel_holds P c -> multilevel_set w c key v = (c', None) -> quiet w' ->
  keeps (mc_MaxZoom (ml_memory c)) (mc_Expiration (ml_memory c)) key (ce_now (w 0%nat)) (ce_now (w' 0%nat)) \/
  keeps (fc_MaxZoom (ml_file c)) (fc_Expiration (ml_file c)) key (ce_now (w 1%nat)) (ce_now (w' 1%nat)) ->
  (multilevel_get w' c' key).2 = Ok (Some v).
Proof.
  intros Hk Hc Es Hq Hkeep. pose proof (multilevel_set_holds P w c key v Hk Hc) as Hc'. rewrite Es in Hc'. cbn in Hc'.
  enough (exists u, (multilevel_get w' c' key).2 = Ok (Some u)) as [u Hu].
  { rewrite Hu. destruct (proj2 (multilevel_get_spec _ w' c' key Hk Hc') u Hu) as [[_ ->]|[_ Hn]]; [done|by destruct Hn]. }
  clear Hc Hc'. unfold multilevel_set in Es.
  destruct (cache_set (part 0 w) _ key v) as [m e1] eqn:Em, (cache_set (part 1 w) _ key v) as [f e2] eqn:Ef.
  injection Es as <- [-> ->]%join_errors_None. unfold multilevel_get. cbn in Em, Ef |- *.
  destruct (memory_get_quiet (part 0 w') m key) as [r Hr]; [apply Hq|].
  pose proof (memory_keeps _ (part 0 w') _ _ _ _ Em (proj1 (Hq _))) as Hm.
  pose proof (file_keeps _ (part 1 w') _ _ _ _ Ef (quiet_part 1 w' Hq)) as Hf.
  destruct (memory_get (part 0 w') m key) as [m' r']. cbn in Hr, Hm. subst r'.
  destruct r as [u|]; [by exists u|]. destruct Hkeep as [Hkeep|Hkeep]; [by specialize (Hm Hkeep)|].
  specialize (Hf Hkeep). destruct (file_get (part 1 w') f key) as [f' rf]. cbn in Hf |- *. subst rf.
  destruct (memory_set _ m' key v). by exists v.
Qed.

(** ** Concrete runs *)

Definition demo_key : Key := mkKey (B "osm") (B "roads") 3 2 1.

(** A call at a time, with the files failing to be renamed three times. *)
Definition demo_moment (now : Z) : moments :=
  fun _ => mkCallEnv None now (fun c => match c with OsRename i => if (i <? 3)%nat then Some (B "busy") else None | _ => None end).

Definition calm_moment (now : Z) : moments := fun _ => mkCallEnv None now (fun _ => None).

(** Only the files take the zoom of the key. *)
Definition demo_cache : Multilevel MemoryCache FileCache := mkMultilevel (memory_New 2 60) (file_New ∅ 22 0).

Lemma demo_key_valid : valid_key demo_key.
Proof. by apply (ParseKey_valid (B "/osm/roads/3/2/1")). Qed.

Lemma no_file_holds (P : possible) (max ttl : Z) : file_holds P (file_New ∅ max ttl).
Proof. intros text e. cbn. by rewrite lookup_empty. Qed.


Lemma multilevel_stored_found_witness :
  (multilevel_get (calm_moment 2) (multilevel_set (demo_moment 1) demo_cache demo_key (B "tile")).1 demo_key).2 =
  Ok (Some (B "tile")).
Proof.
  apply (multilevel_stored_found (fun _ _ => False) (demo_moment 1) (calm_moment 2) demo_cache).
  - apply demo_key_valid.
  - split; [apply memory_New_holds|apply no_file_holds].
  - vm_compute. reflexivity.
  - by intros n.
  - right. by split.
Defined.
