(* ===== verification/RawGeom.v ===== *)
(** * provider/geometrycodec: geometries of raw features

    The geometries the strict WKB and WKT decoders build, float64 values as their 64
    bits, and the helpers both decoders share (raw_dimensional_wkb.go). *)

From S2P Require Import Prelude GoText.

#[local] Open Scope Z_scope.

(** ** float64 *)

(** The bits of a float64: sign, eleven bits of exponent, 52 of mantissa. *)
Abbreviation f64 := Z (only parsing).

Definition exponent_bits (b : f64) : Z := (b / 2 ^ 52) mod 2 ^ 11.
Definition mantissa_bits (b : f64) : Z := b mod 2 ^ 52.

Definition IsNaN (b : f64) : bool := (exponent_bits b =? 2047) && negb (mantissa_bits b =? 0).
Definition IsInf (b : f64) : bool := (exponent_bits b =? 2047) && (mantissa_bits b =? 0).
Definition nonfinite (b : f64) : bool := IsNaN b || IsInf b.

(** The comparison [==]: the two zeros are equal, and a NaN equals nothing. *)
Definition float_eq (a b : f64) : bool :=
  negb (IsNaN a) && negb (IsNaN b) && ((a =? b) || ((a mod 2 ^ 63 =? 0) && (b mod 2 ^ 63 =? 0))).

(** The order of the values of two float64 that are not NaN. *)
Definition float_rank (b : f64) : Z := if b <? 2 ^ 63 then b else 2 ^ 63 - b.
Definition float_lt (a b : f64) : bool := negb (IsNaN a) && negb (IsNaN b) && (float_rank a <? float_rank b).

Abbreviation pos2 := (f64 * f64)%type.
Abbreviation pos3 := (f64 * f64 * f64)%type.

Definition pos_eq (p q : pos3) : bool :=
  let '(x1, y1, z1) := p in
  let '(x2, y2, z2) := q in
  float_eq x1 x2 && float_eq y1 y2 && float_eq z1 z2.

(** ** Geometries *)

(** The types of package geom the decoders use; nil, the empty point, is [None]. *)
#[local] Unset Elimination Schemes.
Inductive geometry :=
| Point (p : pos2)
| PointZ (p : pos3)
| LineString (ps : list pos2)
| LineStringZ (ps : list pos3)
| Polygon (rs : list (list pos2))
| PolygonZ (rs : list (list pos3))
| MultiPoint (ps : list pos2)
| MultiPointZ (ps : list pos3)
| MultiLineString (ls : list (list pos2))
| MultiLineStringZ (ls : list (list pos3))
| MultiPolygon (gs : list (list (list pos2)))
| MultiPolygonZ (gs : list (list (list pos3)))
| Collection (gs : list (option geometry)).
#[local] Set Elimination Schemes.

(** Induction: a property of the members of a collection carries to the collection. *)
Definition on_some {A : Type} (P : A -> Prop) (o : option A) : Prop := match o with Some a => P a | None => True end.

Section GeometryInd.
Variable P : geometry -> Prop.
Hypothesis HSimple : forall g, (forall gs, g <> Collection gs) -> P g.
Hypothesis HCollection : forall gs, Forall (on_some P) gs -> P (Collection gs).

Fixpoint geometry_ind (g : geometry) : P g.
Proof.
  destruct g as [| | | | | | | | | | | |gs]; try (apply HSimple; discriminate).
  apply HCollection. induction gs as [|[c|] gs IH]; constructor; cbn; auto.
Defined.
End GeometryInd.

(** The value a driver delivers. *)
Inductive raw_value :=
| VNil
| VBytes (data : gostring)
| VString (text : gostring)
| VOther (type_name : gostring).

(** An error, one that wraps ErrUnsupportedRawGeometry, and a failed type assertion. *)
Inductive raw_error :=
| RawErr (text : gostring)
| RawUnsupported (text : gostring)
| RawPanic.

Definition wrap_error (prefix : gostring) (e : raw_error) : raw_error :=
  match e with
  | RawErr t => RawErr (prefix ++ t)
  | RawUnsupported t => RawUnsupported (prefix ++ t)
  | RawPanic => RawPanic
  end.

Definition unsupported_text (t : gostring) : raw_error := RawUnsupported (B "unsupported raw geometry profile: " ++ t).

Definition rawMaxDepth : nat := 32.
Definition rawMaxElements : Z := 2 ^ 20.
Definition rawMaxInputBytes : Z := 64 * 2 ^ 20.

Record rawDecoded := mkDecoded { rd_geometry : option geometry; rd_kind : Z; rd_z : bool }.

(** ** Building geometries *)

Definition xy (p : pos3) : pos2 := let '(x, y, _) := p in (x, y).

Definition rawPoint (p : pos3) (z : bool) : geometry := if z then PointZ p else Point (xy p).

Definition rawLine (points : list pos3) (z : bool) : geometry :=
  if z then LineStringZ points else LineString (map xy points).

Definition rawPolygon (rings : list (list pos3)) (z : bool) : geometry :=
  if z then PolygonZ rings else Polygon (map (map xy) rings).

(** The loops of [rawMulti]: a type assertion on each member, with what a nil member
    does. *)
Fixpoint assert_all {A : Type} (on_nil : raw_error) (f : geometry -> option A) (children : list rawDecoded)
    : result raw_error (list A) :=
  match children with
  | [] => Ok []
  | child :: rest =>
      match rd_geometry child with
      | None => Err on_nil
      | Some g =>
          match f g with
          | None => Err RawPanic
          | Some a => let? l := assert_all on_nil f rest in Ok (a :: l)
          end
      end
  end.

Definition empty_member : raw_error := unsupported_text (B "empty point member of MultiPoint").

Definition rawMulti (kind : Z) (z : bool) (children : list rawDecoded) : result raw_error geometry :=
  if kind =? 4 then
    if z then let? l := assert_all empty_member (fun g => match g with PointZ p => Some p | _ => None end) children in Ok (MultiPointZ l)
    else let? l := assert_all empty_member (fun g => match g with Point p => Some p | _ => None end) children in Ok (MultiPoint l)
  else if kind =? 5 then
    if z then let? l := assert_all RawPanic (fun g => match g with LineStringZ p => Some p | _ => None end) children in Ok (MultiLineStringZ l)
    else let? l := assert_all RawPanic (fun g => match g with LineString p => Some p | _ => None end) children in Ok (MultiLineString l)
  else if kind =? 6 then
    if z then let? l := assert_all RawPanic (fun g => match g with PolygonZ p => Some p | _ => None end) children in Ok (MultiPolygonZ l)
    else let? l := assert_all RawPanic (fun g => match g with Polygon p => Some p | _ => None end) children in Ok (MultiPolygon l)
  else if kind =? 7 then Ok (Collection (map rd_geometry children))
  else Err (unsupported_text (B "multi-geometry")).

(** A ring as it is written: closed, with at least four positions. *)
Definition ring_ok (ring : list pos3) : bool :=
  match ring, last ring with
  | first :: _, Some final => (4 <=? blen ring) && pos_eq first final
  | _, _ => false
  end.

Definition ring_error : raw_error := RawErr (B "polygon wire ring requires at least four positions and exact closure").

Lemma assert_all_Ok {A : Type} (on_nil : raw_error) (f : geometry -> option A) (children : list rawDecoded) (l : list A) :
  assert_all on_nil f children = Ok l <-> Forall2 (fun c a => exists g, rd_geometry c = Some g /\ f g = Some a) children l.
Proof.
  revert l. induction children as [|c children IH]; intros l; cbn.
  - split; [intros [= <-]; constructor|]. by inversion 1.
  - destruct (rd_geometry c) as [g|] eqn:Eg; [|split; [done|]; inversion 1 as [|? ? ? ? (g & Hg & _)]; congruence].
    destruct (f g) as [a|] eqn:Ef.
    + rewrite rbind_Ok. split.
      * intros (l' & H%IH & [= <-]). constructor; eauto.
      * inversion 1 as [|? a' ? l' (g' & Hg & Hf) Hr]; subst. exists l'. split; [by apply IH|]. congruence.
    + split; [done|]. inversion 1 as [|? a' ? l' (g' & Hg & Hf) Hr]; congruence.
Qed.
