(* ===== verification/RawWkb.v ===== *)
(** * provider/geometrycodec/raw_dimensional_wkb.go: the strict WKB decoder

    The decoder of XY and ISO Z well-known binary with its limits on size, nesting and
    elements.  A [wire] tree spells a geometry in bytes, byte order by byte order; the
    decoder accepts exactly the bytes of the valid trees within the limits. *)

From S2P Require Import Prelude GoText Bytes RawGeom.

#[local] Open Scope Z_scope.

(** ** Decoder *)

(** The bytes from the offset on, and the elements counted so far. *)
Record rawWKBDecoder := mkDecoder { d_rest : gostring; d_elements : Z }.

Definition reader (A : Type) : Type := rawWKBDecoder -> result raw_error (A * rawWKBDecoder).

Definition take_bytes (n : nat) : reader gostring := fun d =>
  if (length (d_rest d) <? n)%nat then Err (RawErr (B "truncated input"))
  else Ok (take n (d_rest d), mkDecoder (drop n (d_rest d)) (d_elements d)).

Definition count (order : byte_order) (minBytes : Z) : reader nat := fun d =>
  let? (bytes, d) := take_bytes 4 d in
  let count := Uint order bytes in
  if (rawMaxElements - d_elements d <? count) || (blen (d_rest d) <? count * minBytes) then
    Err (RawErr (B "element count exceeds input or budget"))
  else Ok (Z.to_nat count, mkDecoder (d_rest d) (d_elements d + count)).

Definition dimensions (z : bool) : nat := if z then 3 else 2.

(** The coordinates of a position that are read. *)
Definition axes (z : bool) (p : pos3) : list f64 :=
  let '(x, y, h) := p in
  if z then [x; y; h] else [x; y].

Definition position (order : byte_order) (z emptyPoint : bool) : reader (pos3 * bool) := fun d =>
  let? (bytes, d) := take_bytes (dimensions z * 8) d in
  let axis i := Uint order (slice bytes (i * 8) (i * 8 + 8)) in
  let position := (axis 0%nat, axis 1%nat, if z then axis 2%nat else 0) in
  if emptyPoint && forallb IsNaN (axes z position) then Ok ((position, true), d)
  else if existsb nonfinite (axes z position) then Err (RawErr (B "nonfinite position"))
  else Ok ((position, false), d).

(** The loop that fills a slice of the given length. *)
Fixpoint repeat_read {A : Type} (n : nat) (f : reader A) : reader (list A) := fun d =>
  match n with
  | O => Ok ([], d)
  | S n' =>
      let? (a, d) := f d in
      let? (l, d) := repeat_read n' f d in
      Ok (a :: l, d)
  end.

(** A count and that many elements. *)
Definition counted {A : Type} (order : byte_order) (minBytes : Z) (f : reader A) : reader (list A) := fun d =>
  let? (n, d) := count order minBytes d in
  repeat_read n f d.

(** A reader and a test of what it read. *)
Definition tested {A C : Type} (f : reader A) (k : A -> result raw_error C) : reader C := fun d =>
  let? (a, d) := f d in
  let? c := k a in
  Ok (c, d).

Definition positions (order : byte_order) (z : bool) : reader (list pos3) :=
  counted order (Z.of_nat (dimensions z) * 8) (tested (position order z false) (fun pe => Ok (fst pe))).

Definition ring (order : byte_order) (z : bool) : reader (list pos3) :=
  tested (positions order z) (fun r => if ring_ok r then Ok r else Err ring_error).

Definition order_of (b : ascii) : option byte_order :=
  if code b =? 0 then Some BigEndian else if code b =? 1 then Some LittleEndian else None.

(** The kind and the dimension of a type code. *)
Definition type_code (c : Z) : Z * bool :=
  let z := (1001 <=? c) && (c <=? 1007) in
  (if z then c - 1000 else c, z).

Definition member_ok (kind : Z) (z : bool) (child : rawDecoded) : result raw_error rawDecoded :=
  if negb (kind =? 7) && (negb (rd_kind child =? kind - 3) || negb (eqb (rd_z child) z)) then
    Err (RawErr (B "multi-geometry member type or dimension mismatch"))
  else Ok child.

(** What follows the header of a geometry; [child] reads a member. *)
Definition body (child : reader rawDecoded) (order : byte_order) (kind : Z) (z : bool) : reader rawDecoded :=
  if kind =? 1 then
    tested (position order z true)
      (fun pe => Ok (mkDecoded (if snd pe then None else Some (rawPoint (fst pe) z)) kind z))
  else if kind =? 2 then
    tested (positions order z)
      (fun points =>
         if blen points =? 1 then Err (RawErr (B "line requires zero or at least two positions"))
         else Ok (mkDecoded (Some (rawLine points z)) kind z))
  else if kind =? 3 then
    tested (counted order 4 (ring order z)) (fun rings => Ok (mkDecoded (Some (rawPolygon rings z)) kind z))
  else
    tested (counted order 5 (tested child (member_ok kind z)))
      (fun children => let? g := rawMulti kind z children in Ok (mkDecoded (Some g) kind z)).

(** [geometry] at the depth that leaves so many levels. *)
Fixpoint geometry_at (levels : nat) : reader rawDecoded := fun d =>
  match levels with
  | O => Err (RawErr (B "maximum nesting depth exceeded"))
  | S levels' =>
      let? (header, d) := take_bytes 5 d in
      match order_of (default (byte_of 0) (head header)) with
      | None => Err (RawErr (B "invalid byte order"))
      | Some order =>
          let code := Uint order (tail header) in
          let '(kind, z) := type_code code in
          if (kind <? 1) || (7 <? kind) then
            Err (unsupported_text (B "geometry type " ++ FormatUint code ++ B " (M/ZM/EWKB excluded)"))
          else body (geometry_at levels') order kind z d
      end
  end.

Definition DecodeRawWKB (v : raw_value) : result raw_error (option geometry) :=
  match v with
  | VNil => Ok None
  | VBytes data =>
      if rawMaxInputBytes <? blen data then Err (RawErr (B "raw WKB input exceeds byte limit"))
      else
        match geometry_at (S rawMaxDepth) (mkDecoder data 0) with
        | Err e => Err (wrap_error (B "raw WKB: ") e)
        | Ok (decoded, d) =>
            if beq (d_rest d) [] then Ok (rd_geometry decoded) else Err (RawErr (B "raw WKB trailing data"))
        end
  | VString _ => Err (RawErr (B "raw WKB requires bytes, got string"))
  | VOther t => Err (RawErr (B "raw WKB requires bytes, got " ++ t))
  end.

(** ** The wire format *)

(** A geometry as it is spelled: each node has a byte order and a dimension. *)
#[local] Unset Elimination Schemes.
Inductive wire :=
| WPoint (order : byte_order) (z : bool) (p : pos3)
| WLine (order : byte_order) (z : bool) (points : list pos3)
| WPolygon (order : byte_order) (z : bool) (rings : list (list pos3))
| WMulti (order : byte_order) (z : bool) (kind : Z) (members : list wire).
#[local] Set Elimination Schemes.

Section WireInd.
Variable P : wire -> Prop.
Hypothesis HPoint : forall o z p, P (WPoint o z p).
Hypothesis HLine : forall o z ps, P (WLine o z ps).
Hypothesis HPolygon : forall o z rs, P (WPolygon o z rs).
Hypothesis HMulti : forall o z k ms, Forall P ms -> P (WMulti o z k ms).

Fixpoint wire_ind (w : wire) : P w :=
  match w with
  | WPoint o z p => HPoint o z p
  | WLine o z ps => HLine o z ps
  | WPolygon o z rs => HPolygon o z rs
  | WMulti o z k ms =>
      HMulti o z k ms
        ((fix go l := match l return Forall P l with [] => Forall_nil_2 P | w' :: l' => Forall_cons_2 P w' l' (wire_ind w') (go l') end) ms)
  end.
End WireInd.

Definition wire_kind (w : wire) : Z :=
  match w with WPoint _ _ _ => 1 | WLine _ _ _ => 2 | WPolygon _ _ _ => 3 | WMulti _ _ k _ => k end.

Definition wire_z (w : wire) : bool := match w with WPoint _ z _ | WLine _ z _ | WPolygon _ z _ | WMulti _ z _ _ => z end.

Definition wire_order (w : wire) : byte_order :=
  match w with WPoint o _ _ | WLine o _ _ | WPolygon o _ _ | WMulti o _ _ _ => o end.

Definition header_bytes (o : byte_order) (kind : Z) (z : bool) : gostring :=
  byte_of (match o with BigEndian => 0 | LittleEndian => 1 end) :: PutUint o 4 (if z then kind + 1000 else kind).

Definition pos_bytes (o : byte_order) (z : bool) (p : pos3) : gostring := concat (map (PutUint o 8) (axes z p)).

(** A count and the elements. *)
Definition list_bytes {W : Type} (o : byte_order) (f : W -> gostring) (l : list W) : gostring :=
  PutUint o 4 (blen l) ++ concat (map f l).

Fixpoint wire_bytes (w : wire) : gostring :=
  header_bytes (wire_order w) (wire_kind w) (wire_z w) ++
  match w with
  | WPoint o z p => pos_bytes o z p
  | WLine o z ps => list_bytes o (pos_bytes o z) ps
  | WPolygon o z rs => list_bytes o (list_bytes o (pos_bytes o z)) rs
  | WMulti o _ _ ms => list_bytes o wire_bytes ms
  end.

Definition total {W : Type} (f : W -> Z) (l : list W) : Z := foldr (fun w n => f w + n) 0 l.

(** The positions, rings and members below a node. *)
Fixpoint wire_elements (w : wire) : Z :=
  match w with
  | WPoint _ _ _ => 0
  | WLine _ _ ps => blen ps
  | WPolygon _ _ rs => blen rs + total blen rs
  | WMulti _ _ _ ms => blen ms + total wire_elements ms
  end.

Fixpoint wire_depth (w : wire) : nat :=
  match w with WMulti _ _ _ ms => S (list_max (map wire_depth ms)) | _ => 1 end.

(** A position is spelled by its bits; one without height has height zero. *)
Definition pos_spelled (z : bool) (p : pos3) : Prop :=
  Forall (fun b => 0 <= b < 2 ^ 64) (axes z p) /\ (z = false -> snd p = 0).

Definition pos_finite (z : bool) (p : pos3) : Prop := pos_spelled z p /\ existsb nonfinite (axes z p) = false.

Definition all_nan (z : bool) (p : pos3) : bool := forallb IsNaN (axes z p).

Definition ring_spelled (z : bool) (r : list pos3) : Prop := Forall (pos_finite z) r /\ ring_ok r = true.

Definition point_empty (w : wire) : bool := match w with WPoint _ z p => all_nan z p | _ => false end.

Definition member_of (kind : Z) (z : bool) (w : wire) : Prop :=
  kind <> 7 -> wire_kind w = kind - 3 /\ wire_z w = z /\ (kind = 4 -> point_empty w = false).

(** The trees that are geometries: finite coordinates, except for the point that is
    empty; no line of one position; closed rings; members of the right kind. *)
Fixpoint wire_ok (w : wire) : Prop :=
  match w with
  | WPoint _ z p => pos_spelled z p /\ (all_nan z p = true \/ existsb nonfinite (axes z p) = false)
  | WLine _ z ps => Forall (pos_finite z) ps /\ blen ps <> 1
  | WPolygon _ z rs => Forall (ring_spelled z) rs
  | WMulti _ z k ms => 4 <= k <= 7 /\ Forall (member_of k z) ms /\ (fix all l := match l with [] => True | m :: l' => wire_ok m /\ all l' end) ms
  end.

Definition wire_position (w : wire) : pos3 := match w with WPoint _ _ p => p | _ => (0, 0, 0) end.
Definition wire_points (w : wire) : list pos3 := match w with WLine _ _ ps => ps | _ => [] end.
Definition wire_rings (w : wire) : list (list pos3) := match w with WPolygon _ _ rs => rs | _ => [] end.

Fixpoint wire_geometry (w : wire) : option geometry :=
  match w with
  | WPoint _ z p => if all_nan z p then None else Some (if z then PointZ p else Point (xy p))
  | WLine _ z ps => Some (if z then LineStringZ ps else LineString (map xy ps))
  | WPolygon _ z rs => Some (if z then PolygonZ rs else Polygon (map (map xy) rs))
  | WMulti _ z k ms =>
      Some (if k =? 4 then if z then MultiPointZ (map wire_position ms) else MultiPoint (map (fun m => xy (wire_position m)) ms)
            else if k =? 5 then if z then MultiLineStringZ (map wire_points ms) else MultiLineString (map (fun m => map xy (wire_points m)) ms)
            else if k =? 6 then if z then MultiPolygonZ (map wire_rings ms) else MultiPolygon (map (fun m => map (map xy) (wire_rings m)) ms)
            else Collection (map wire_geometry ms))
  end.

Lemma wire_ok_multi (o : byte_order) (z : bool) (k : Z) (ms : list wire) :
  wire_ok (WMulti o z k ms) <-> 4 <= k <= 7 /\ Forall (member_of k z) ms /\ Forall wire_ok ms.
Proof.
  cbn. enough (forall l, (fix all l := match l with [] => True | m :: l' => wire_ok m /\ all l' end) l <-> Forall wire_ok l) as ->
    by done.
  induction l as [|m l IH]; [by rewrite Forall_nil|]. by rewrite Forall_cons, <- IH.
Qed.

(** ** Readers and what they read *)

(** [f] reads exactly the bytes of the [ok] items, counts their cost and returns their
    value, within the budget. *)
Definition reads {A W : Type} (f : reader A) (ok : W -> Prop) (bytes : W -> gostring) (cost : W -> Z) (val : W -> A) : Prop :=
  (forall w, ok w -> 0 <= cost w) /\
  forall d a d', 0 <= d_elements d <= rawMaxElements ->
    f d = Ok (a, d') <->
    exists w, ok w /\ d_rest d = bytes w ++ d_rest d' /\ d_elements d' = d_elements d + cost w /\
      d_elements d' <= rawMaxElements /\ a = val w.

Lemma take_bytes_Ok (n : nat) (d d' : rawWKBDecoder) (bs : gostring) :
  take_bytes n d = Ok (bs, d') <-> length bs = n /\ d_rest d = bs ++ d_rest d' /\ d_elements d' = d_elements d.
Proof.
  unfold take_bytes. destruct (Nat.ltb_spec (length (d_rest d)) n) as [Hn|Hn].
  - split; [done|]. intros (<- & E & _). rewrite E, length_app in Hn. lia.
  - split.
    + intros [= <- <-]. cbn. rewrite length_take_le by lia. split; [done|]. split; [|done]. by rewrite take_drop.
    + intros (<- & E & Ee). rewrite E, take_app_length, drop_app_length. destruct d'. cbn in *. by subst.
Qed.

Lemma reads_tested {A C W : Type} (f : reader A) (k : A -> result raw_error C) (ok ok' : W -> Prop) (bytes : W -> gostring)
    (cost : W -> Z) (val : W -> A) (val' : W -> C) :
  reads f ok bytes cost val -> (forall w, ok' w -> ok w) ->
  (forall w c, ok w -> k (val w) = Ok c <-> ok' w /\ c = val' w) -> reads (tested f k) ok' bytes cost val'.
Proof.
  intros [Hc Hf] Hw Hk. split; [by auto|]. intros d c d' Hd. unfold tested. rewrite rbind_Ok. split.
  - intros ([a d1] & H1 & (c' & Hk1 & [= -> ->])%rbind_Ok). apply Hf in H1 as (w & Ho & Hr & He & Hm & ->); [|done].
    apply Hk in Hk1 as [? ->]; [|done]. by exists w.
  - intros (w & Ho & Hr & He & Hm & ->). exists (val w, d'). split; [apply Hf; [done|]; exists w; by auto|].
    rewrite (proj2 (Hk w (val' w) (Hw w Ho))); done.
Qed.

Lemma reads_as {A W V : Type} (c : W -> V) (f : reader A) (ok : W -> Prop) (bytes : W -> gostring) (cost : W -> Z) (val : W -> A)
    (ok' : V -> Prop) (bytes' : V -> gostring) (cost' : V -> Z) (val' : V -> A) :
  reads f ok bytes cost val -> (forall v, ok' v <-> exists w, ok w /\ v = c w) ->
  (forall w, ok w -> bytes' (c w) = bytes w /\ cost' (c w) = cost w /\ val' (c w) = val w) ->
  reads f ok' bytes' cost' val'.
Proof.
  intros [Hc Hf] Ho He. split.
  - intros v (w & Hw & ->)%Ho. destruct (He w Hw) as (_ & -> & _). by apply Hc.
  - intros d a d' Hd. rewrite Hf by done. split.
    + intros (w & Hw & H). exists (c w). destruct (He w Hw) as (-> & -> & ->). split; [apply Ho; eauto|done].
    + intros (v & (w & Hw & ->)%Ho & H). exists w. destruct (He w Hw) as (<- & <- & <-). done.
Qed.

Lemma total_cons {W : Type} (f : W -> Z) (w : W) (l : list W) : total f (w :: l) = f w + total f l.
Proof. done. Qed.

Lemma total_nil {W : Type} (f : W -> Z) : total f [] = 0.
Proof. done. Qed.

Arguments total : simpl never.

Lemma total_nonneg {W : Type} (f : W -> Z) (P : W -> Prop) (l : list W) :
  (forall w, P w -> 0 <= f w) -> Forall P l -> 0 <= total f l.
Proof. intros Hf. induction 1 as [|w l Hw _ IH]; [done|]. specialize (Hf w Hw). rewrite total_cons. lia. Qed.

Lemma reads_repeat {A W : Type} (f : reader A) (ok : W -> Prop) (bytes : W -> gostring) (cost : W -> Z) (val : W -> A) (n : nat) :
  reads f ok bytes cost val ->
  reads (repeat_read n f) (fun ws => length ws = n /\ Forall ok ws) (fun ws => concat (map bytes ws)) (total cost) (map val).
Proof.
  intros Hr. pose proof Hr as [Hc Hf]. split; [intros ws [_ H]; by eapply total_nonneg|].
  induction n as [|n IH]; intros d l d' Hd; cbn [repeat_read].
  - split.
    + intros [= <- <-]. exists []. cbn. rewrite total_nil. repeat split; done || lia.
    + intros (ws & [->%nil_length_inv _] & E & Ee & _ & ->). rewrite total_nil in Ee. cbn in *. destruct d, d'. cbn in *. subst. by rewrite Z.add_0_r.
  - rewrite rbind_Ok. split.
    + intros ([a d1] & (w & Hw & E1 & Ee1 & Hm1 & ->)%Hf & ([l' d2] & H2 & [= <- <-])%rbind_Ok); [|done].
      specialize (Hc w Hw). apply IH in H2 as (ws & [Hn Hws] & E2 & Ee2 & Hm2 & ->); [|lia].
      exists (w :: ws). cbn. rewrite total_cons, E1, E2, app_assoc. repeat split; try done; [by rewrite Hn|by constructor|lia].
    + intros (ws & [Hn Hws] & E & Ee & Hm & ->). destruct ws as [|w ws]; [done|]. rewrite total_cons in Ee. cbn in *.
      apply Forall_cons in Hws as [Hw Hws]. pose proof (Hc w Hw). pose proof (total_nonneg cost ok ws Hc Hws).
      exists (val w, mkDecoder (concat (map bytes ws) ++ d_rest d') (d_elements d + cost w)).
      split; [apply Hf; [done|]; exists w; cbn; rewrite app_assoc; repeat split; try done; lia|].
      set (d1 := mkDecoder _ _). assert (repeat_read n f d1 = Ok (map val ws, d')) as ->; [|done].
      apply IH; [cbn; lia|]. exists ws. cbn. repeat split; try done; lia.
Qed.

Lemma length_concat_ge {W : Type} (bytes : W -> gostring) (n : Z) (ws : list W) :
  Forall (fun w => n <= blen (bytes w)) ws -> blen ws * n <= blen (concat (map bytes ws)).
Proof.
  induction 1 as [|w ws Hw _ IH]; cbn [map concat]; [done|]. rewrite blen_app. unfold blen in *. cbn [length]. lia.
Qed.

(** The early test of a count against the bytes that are left refuses nothing: the
    elements need them. *)
Lemma reads_counted {A W : Type} (order : byte_order) (minBytes : Z) (f : reader A) (ok : W -> Prop) (bytes : W -> gostring)
    (cost : W -> Z) (val : W -> A) :
  reads f ok bytes cost val -> (forall w, ok w -> minBytes <= blen (bytes w)) ->
  reads (counted order minBytes f) (Forall ok) (list_bytes order bytes) (fun ws => blen ws + total cost ws) (map val).
Proof.
  intros Hr Hmin. pose proof Hr as [Hc _].
  assert (forall ws, Forall ok ws -> 0 <= total cost ws) as Ht by (intros ws H; by eapply total_nonneg).
  split; [intros ws H%Ht; pose proof (blen_nonneg ws); lia|].
  intros d l d' Hd. unfold counted, count, list_bytes. rewrite rbind_Ok. split.
  - intros ([n d2] & ([bs d1] & (Hl & E1 & Ee1)%take_bytes_Ok & H)%rbind_Ok & Hn).
    apply if_Err_Ok in H as [[Hb Hrem]%orb_false_iff [= <- <-]]. bool_props.
    apply (reads_repeat _ _ _ _ _ (Z.to_nat (Uint order bs)) Hr) in Hn as (ws & [Hn Hws] & E2 & Ee2 & Hm & ->).
    2: { pose proof (Uint_range order bs). cbn. lia. }
    cbn in *. pose proof (Uint_range order bs).
    assert (Uint order bs = blen ws) as Hu by (unfold blen; lia).
    exists ws. split; [done|]. rewrite <- Hu, <- Hl, PutUint_Uint, E1, E2, app_assoc. split; [done|]. lia || (repeat split; lia).
  - intros (ws & Hws & E & Ee & Hm & ->). pose proof (blen_nonneg ws). specialize (Ht ws Hws).
    assert (0 <= blen ws < 256 ^ Z.of_nat 4) as Hb by (unfold rawMaxElements in *; lia).
    set (d1 := mkDecoder (concat (map bytes ws) ++ d_rest d') (d_elements d)).
    exists (length ws, mkDecoder (d_rest d1) (d_elements d + blen ws)). split.
    + rewrite (proj2 (take_bytes_Ok 4 d d1 (PutUint order 4 (blen ws)))) by (rewrite length_PutUint, E, <- app_assoc; done).
      cbn [rbind]. rewrite Uint_PutUint by done. cbn [d_elements d_rest d1].
      pose proof (length_concat_ge bytes minBytes ws (Forall_impl _ _ _ Hws Hmin)).
      rewrite blen_app. pose proof (blen_nonneg (d_rest d')). decide_ltb. cbn [orb]. unfold blen at 1. by rewrite Nat2Z.id.
    + apply (reads_repeat _ _ _ _ _ _ Hr); [cbn; lia|]. exists ws. cbn. repeat split; try done; lia.
Qed.

(** *** Positions *)

Lemma pos_bytes_length (o : byte_order) (z : bool) (p : pos3) : length (pos_bytes o z p) = (dimensions z * 8)%nat.
Proof. destruct p as [[x y] h], z; cbn -[PutUint]; rewrite ?length_app, !length_PutUint; done. Qed.

(** The bytes of a position, cut into its coordinates. *)
Lemma pos_bytes_axes (o : byte_order) (z : bool) (bs : gostring) :
  length bs = (dimensions z * 8)%nat ->
  let axis i := Uint o (slice bs (i * 8) (i * 8 + 8)) in
  let p := (axis 0%nat, axis 1%nat, if z then axis 2%nat else 0) in
  pos_spelled z p /\ pos_bytes o z p = bs.
Proof.
  intros Hl axis p.
  assert (forall i, (i < dimensions z)%nat -> PutUint o 8 (axis i) = slice bs (i * 8) (i * 8 + 8) /\ 0 <= axis i < 2 ^ 64) as Ha.
  { intros i Hi. assert (length (slice bs (i * 8) (i * 8 + 8)) = 8%nat) as Hs by (rewrite length_slice by lia; lia).
    split; [by apply PutUint_Uint_length|]. pose proof (Uint_range o (slice bs (i * 8) (i * 8 + 8))) as Hu. by rewrite Hs in Hu. }
  destruct (Ha 0%nat) as [E0 R0]; [destruct z; cbn; lia|]. destruct (Ha 1%nat) as [E1 R1]; [destruct z; cbn; lia|].
  unfold pos_spelled, pos_bytes, p. destruct z; cbn [axes map concat snd] in *.
  - destruct (Ha 2%nat) as [E2 R2]; [cbn; lia|]. split; [by rewrite !Forall_cons, Forall_nil|].
    rewrite E0, E1, E2, app_nil_r. cbn [Nat.mul Nat.add]. rewrite !slice_split by lia. pose proof (slice_all bs) as H. by rewrite Hl in H.
  - split; [by rewrite !Forall_cons, Forall_nil|].
    rewrite E0, E1, app_nil_r. cbn [Nat.mul Nat.add]. rewrite !slice_split by lia. pose proof (slice_all bs) as H. by rewrite Hl in H.
Qed.

Lemma axes_pos_bytes (o : byte_order) (z : bool) (p : pos3) :
  pos_spelled z p ->
  let axis i := Uint o (slice (pos_bytes o z p) (i * 8) (i * 8 + 8)) in
  (axis 0%nat, axis 1%nat, if z then axis 2%nat else 0) = p.
Proof.
  intros [Hr Hz] axis. destruct (pos_bytes_axes o z (pos_bytes o z p) (pos_bytes_length o z p)) as [[Hr' Hz'] E].
  fold (axis 0%nat) (axis 1%nat) (axis 2%nat) in *.
  assert (forall a b r s, 0 <= a < 2 ^ 64 -> 0 <= b < 2 ^ 64 -> PutUint o 8 a ++ r = PutUint o 8 b ++ s -> a = b /\ r = s) as Hinj.
  { intros a b r s Ha Hb H. apply app_cut in H as [H ->]; [|by rewrite !length_PutUint].
    split; [|done]. rewrite <- (Uint_PutUint o 8 a), <- (Uint_PutUint o 8 b) by done. by rewrite H. }
  destruct p as [[x y] h]. destruct z; cbn [axes] in *; unfold pos_bytes in E; cbn [axes map concat snd] in *;
    rewrite !Forall_cons in Hr, Hr'; destruct Hr as (? & ? & Hr), Hr' as (? & ? & Hr').
  - destruct Hr as [? _], Hr' as [? _].
    apply Hinj in E as [-> E]; [|done..]. apply Hinj in E as [-> E]; [|done..]. by apply Hinj in E as [-> E].
  - apply Hinj in E as [-> E]; [|done..]. apply Hinj in E as [-> E]; [|done..]. by rewrite Hz.
Qed.

Lemma reads_position (o : byte_order) (z e : bool) :
  reads (position o z e)
    (fun p => pos_spelled z p /\ (e && all_nan z p = true \/ existsb nonfinite (axes z p) = false))
    (pos_bytes o z) (fun _ => 0) (fun p => (p, e && all_nan z p)).
Proof.
  split; [done|]. intros d a d' Hd. unfold position. rewrite rbind_Ok. split.
  - intros ([bs d1] & (Hl & E & Ee)%take_bytes_Ok & H). destruct (pos_bytes_axes o z bs Hl) as [Hs Hb].
    set (p := (_, _, _)) in *. fold (all_nan z p) in H. exists p. rewrite Hb.
    destruct (e && all_nan z p) eqn:En.
    + injection H as <- <-. split; [by auto|]. rewrite Z.add_0_r, Ee. tauto.
    + apply if_Err_Ok in H as [Hf [= <- <-]]. split; [by auto|]. rewrite Z.add_0_r, Ee. tauto.
  - intros (p & [Hs Hc] & E & Ee & _ & ->). exists (pos_bytes o z p, d').
    split; [apply take_bytes_Ok; rewrite pos_bytes_length; repeat split; try done; lia|].
    pose proof (axes_pos_bytes o z p Hs) as Hp. cbn zeta in Hp |- *. rewrite Hp. fold (all_nan z p).
    destruct (e && all_nan z p); [done|]. by destruct Hc as [?| ->].
Qed.

Lemma total_0 {W : Type} (l : list W) : total (fun _ => 0) l = 0.
Proof. induction l as [|w l IH]; [done|]. by rewrite total_cons, IH. Qed.

Lemma reads_coordinates (o : byte_order) (z : bool) :
  reads (tested (position o z false) (fun pe => Ok (fst pe))) (pos_finite z) (pos_bytes o z) (fun _ => 0) id.
Proof.
  eapply reads_tested; [apply reads_position| |]; unfold pos_finite.
  - intros p [? ?]. auto.
  - cbn. intros p c [Hs [?|Hf]]; [done|]. split; [by intros [= <-]|by intros [_ ->]].
Qed.

Lemma reads_positions (o : byte_order) (z : bool) :
  reads (positions o z) (Forall (pos_finite z)) (list_bytes o (pos_bytes o z)) blen id.
Proof.
  assert (forall p, pos_finite z p -> Z.of_nat (dimensions z) * 8 <= blen (pos_bytes o z p)) as Hmin.
  { intros p _. unfold blen. rewrite pos_bytes_length. lia. }
  apply (reads_as id _ _ _ _ _ _ _ _ _ (reads_counted o _ _ _ _ _ _ (reads_coordinates o z) Hmin)).
  - intros v. split; [by exists v|by intros (w & ? & ->)].
  - intros ps _. cbn. by rewrite total_0, map_id, Z.add_0_r.
Qed.

Lemma list_bytes_min {W : Type} (o : byte_order) (f : W -> gostring) (l : list W) : 4 <= blen (list_bytes o f l).
Proof.
  unfold list_bytes. rewrite blen_app. pose proof (blen_nonneg (concat (map f l))). unfold blen at 1. rewrite length_PutUint. lia.
Qed.

Lemma reads_ring (o : byte_order) (z : bool) :
  reads (ring o z) (ring_spelled z) (list_bytes o (pos_bytes o z)) blen id.
Proof.
  eapply reads_tested; [apply reads_positions|by intros r []|].
  intros r c Hr. unfold ring_spelled, id. destruct (ring_ok r).
  - split; [by intros [= <-]|by intros [_ ->]].
  - split; [done|by intros [[_ ?] _]].
Qed.

(** *** Members *)

Definition decoded_of (w : wire) : rawDecoded := mkDecoded (wire_geometry w) (wire_kind w) (wire_z w).

Lemma assert_members {A : Type} (on_nil : raw_error) (f : geometry -> option A) (val : wire -> A) (good : wire -> Prop)
    (ms : list wire) (l : list A) :
  Forall (fun m => forall a, (exists g, wire_geometry m = Some g /\ f g = Some a) <-> good m /\ a = val m) ms ->
  assert_all on_nil f (map decoded_of ms) = Ok l <-> Forall good ms /\ l = map val ms.
Proof.
  intros Hm. rewrite assert_all_Ok, Forall2_fmap_l. revert l. induction Hm as [|m ms Hm _ IH]; intros l.
  - split; [by inversion 1|]. intros [_ ->]. constructor.
  - rewrite Forall_cons. split.
    + inversion 1 as [|? a ? l' Ha Hl]; subst. apply Hm in Ha as [? ->]. apply IH in Hl as [? ->]. done.
    + intros [[? ?] ->]. constructor; [by apply Hm|by apply IH].
Qed.

(** The members of a typed collection have the type it asserts. *)
Lemma wire_of_kind (w : wire) :
  wire_ok w ->
  match w with
  | WPoint _ _ _ => wire_kind w = 1
  | WLine _ _ _ => wire_kind w = 2
  | WPolygon _ _ _ => wire_kind w = 3
  | WMulti _ _ k _ => 4 <= wire_kind w <= 7
  end.
Proof. destruct w; [done..|]. by intros [? _]%wire_ok_multi. Qed.

Lemma rawMulti_typed {A : Type} (on_nil : raw_error) (f : geometry -> option A) (con : list A -> geometry) (val : wire -> A)
    (good : wire -> Prop) (ms : list wire) (g : geometry) :
  Forall (fun m => forall a, (exists g, wire_geometry m = Some g /\ f g = Some a) <-> good m /\ a = val m) ms ->
  rbind (assert_all on_nil f (map decoded_of ms)) (fun l => Ok (con l)) = Ok g <-> Forall good ms /\ Some g = Some (con (map val ms)).
Proof.
  intros Hm. rewrite rbind_Ok. split.
  - intros (l & [Hg ->]%(assert_members _ _ val good _ _ Hm) & [= <-]). done.
  - intros [Hg [= ->]]. exists (map val ms). split; [by apply (assert_members _ _ val good _ _ Hm)|done].
Qed.

(** A member that is there, with its part of the geometry. *)
Ltac member_case m :=
  destruct m; cbn in *; try lia; subst; cbn;
  try match goal with |- context [all_nan ?z ?p] => destruct (all_nan z p) end; cbn;
  (split; [intros (? & ? & ?); simplify_eq|intros [? ->]]); eauto; exfalso; intuition discriminate.

Lemma rawMulti_members (o : byte_order) (kind : Z) (z : bool) (ms : list wire) (g : geometry) :
  4 <= kind <= 7 -> Forall wire_ok ms -> Forall (fun m => kind <> 7 -> wire_kind m = kind - 3 /\ wire_z m = z) ms ->
  rawMulti kind z (map decoded_of ms) = Ok g <->
  Forall (fun m => kind = 4 -> point_empty m = false) ms /\ Some g = wire_geometry (WMulti o z kind ms).
Proof.
  intros Hk Hok Hms. unfold rawMulti. cbn [wire_geometry].
  assert (kind = 7 \/ kind <> 7 /\ Forall (fun m => wire_ok m /\ wire_kind m = kind - 3 /\ wire_z m = z) ms) as [->|[Hk7 Hall]].
  { destruct (decide (kind = 7)); [by left|right]. split; [done|]. rewrite Forall_forall in *. auto. }
  { cbn. rewrite map_map. split; [intros [= <-]; split; [by apply Forall_true|done]|by intros [_ [= ->]]]. }
  destruct (Z.eqb_spec kind 4) as [->|]; [|destruct (Z.eqb_spec kind 5) as [->|]; [|destruct (Z.eqb_spec kind 6) as [->|]; [|lia]]];
    destruct z; apply rawMulti_typed; (eapply Forall_impl; [exact Hall|]);
    intros m (Ho%wire_of_kind & Hm1 & Hm2) a; cbn in Ho; member_case m.
Qed.

(** *** Geometries *)

Definition body_bytes (w : wire) : gostring :=
  match w with
  | WPoint o z p => pos_bytes o z p
  | WLine o z ps => list_bytes o (pos_bytes o z) ps
  | WPolygon o z rs => list_bytes o (list_bytes o (pos_bytes o z)) rs
  | WMulti o _ _ ms => list_bytes o wire_bytes ms
  end.

Lemma wire_bytes_split (w : wire) : wire_bytes w = header_bytes (wire_order w) (wire_kind w) (wire_z w) ++ body_bytes w.
Proof. by destruct w. Qed.

Lemma header_length (o : byte_order) (k : Z) (z : bool) : length (header_bytes o k z) = 5%nat.
Proof. cbn. by rewrite length_PutUint. Qed.

Definition shaped (o : byte_order) (kind : Z) (z : bool) (w : wire) : Prop :=
  wire_order w = o /\ wire_kind w = kind /\ wire_z w = z.

Definition within (n : nat) (w : wire) : Prop := wire_ok w /\ (wire_depth w <= n)%nat.

Lemma shaped_case (o : byte_order) (kind : Z) (z : bool) (w : wire) :
  wire_ok w -> shaped o kind z w ->
  kind = 1 /\ (exists p, w = WPoint o z p) \/ kind = 2 /\ (exists ps, w = WLine o z ps) \/
  kind = 3 /\ (exists rs, w = WPolygon o z rs) \/ 4 <= kind <= 7 /\ (exists ms, w = WMulti o z kind ms).
Proof. intros Ho%wire_of_kind (<- & <- & <-). destruct w; cbn in *; eauto 10. Qed.

Section Body.
Context (n : nat) (child : reader rawDecoded) (o : byte_order) (kind : Z) (z : bool).
Hypothesis Hkind : 1 <= kind <= 7.

Abbreviation reads_body_of f :=
  (reads f (fun w => within (S n) w /\ shaped o kind z w) body_bytes wire_elements decoded_of).

Lemma reads_point : kind = 1 ->
  reads_body_of (tested (position o z true)
    (fun pe => Ok (mkDecoded (if snd pe then None else Some (rawPoint (fst pe) z)) kind z))).
Proof.
  intros ->. apply (reads_as (WPoint o z) _
    (fun p => pos_spelled z p /\ (all_nan z p = true \/ existsb nonfinite (axes z p) = false))
    (pos_bytes o z) (fun _ => 0) (fun p => decoded_of (WPoint o z p))).
  - eapply reads_tested; [apply reads_position|by cbn|]. intros p c H. cbn in *.
    split; [by intros [= <-]|by intros [_ ->]].
  - intros w. split.
    + intros [[Ho _] Hs]. pose proof (shaped_case _ _ _ w Ho Hs) as [[_ [p ->]]|H]; [by exists p|lia].
    + intros (p & Hp & ->). split; [|done]. split; [done|]. cbn. lia.
  - done.
Qed.

Lemma reads_line : kind = 2 ->
  reads_body_of (tested (positions o z)
    (fun points =>
       if blen points =? 1 then Err (RawErr (B "line requires zero or at least two positions"))
       else Ok (mkDecoded (Some (rawLine points z)) kind z))).
Proof.
  intros ->. apply (reads_as (WLine o z) _ (fun ps => Forall (pos_finite z) ps /\ blen ps <> 1)
    (list_bytes o (pos_bytes o z)) blen (fun ps => decoded_of (WLine o z ps))).
  - eapply reads_tested; [apply reads_positions|by intros ps []|]. intros ps c H. unfold id.
    destruct (Z.eqb_spec (blen ps) 1); [split; [done|by intros [[] _]]|]. split; [by intros [= <-]|by intros [_ ->]].
  - intros w. split.
    + intros [[Ho _] Hs]. pose proof (shaped_case _ _ _ w Ho Hs) as [?|[[_ [p ->]]|H]]; [lia|by exists p|lia].
    + intros (p & Hp & ->). split; [|done]. split; [done|]. cbn. lia.
  - done.
Qed.

Lemma reads_polygon : kind = 3 ->
  reads_body_of (tested (counted o 4 (ring o z)) (fun rings => Ok (mkDecoded (Some (rawPolygon rings z)) kind z))).
Proof.
  intros ->. apply (reads_as (WPolygon o z) _ (Forall (ring_spelled z))
    (list_bytes o (list_bytes o (pos_bytes o z))) (fun rs => blen rs + total blen rs) (fun rs => decoded_of (WPolygon o z rs))).
  - eapply reads_tested; [apply reads_counted; [apply reads_ring|intros; apply list_bytes_min]|done|].
    intros rs c H. cbn. rewrite map_id. split; [by intros [= <-]|by intros [_ ->]].
  - intros w. split.
    + intros [[Ho _] Hs]. pose proof (shaped_case _ _ _ w Ho Hs) as [?|[?|[[_ [p ->]]|H]]]; [lia..|by exists p|lia].
    + intros (p & Hp & ->). split; [|done]. split; [done|]. cbn. lia.
  - done.
Qed.

Hypothesis Hchild : reads child (within n) wire_bytes wire_elements decoded_of.

Lemma reads_member :
  reads (tested child (member_ok kind z)) (fun w => within n w /\ (kind <> 7 -> wire_kind w = kind - 3 /\ wire_z w = z))
    wire_bytes wire_elements decoded_of.
Proof.
  eapply reads_tested; [exact Hchild|by intros w []|]. intros w c Hw. unfold member_ok. cbn [decoded_of rd_kind rd_z].
  destruct (Z.eqb_spec kind 7); cbn [negb andb]; [split; [by intros [= <-]|by intros [_ ->]]|].
  destruct (Z.eqb_spec (wire_kind w) (kind - 3)), (eqb_spec (wire_z w) z); cbn [negb orb];
    (split; [intros [= <-]; auto|intros [[_ H] ->]; destruct (H n0); done]).
Qed.

Lemma reads_multi : 4 <= kind ->
  reads_body_of (tested (counted o 5 (tested child (member_ok kind z)))
    (fun children => let? g := rawMulti kind z children in Ok (mkDecoded (Some g) kind z))).
Proof.
  intros H4. apply (reads_as (WMulti o z kind) _ (fun ms => Forall (within n) ms /\ Forall (member_of kind z) ms)
    (list_bytes o wire_bytes) (fun ms => blen ms + total wire_elements ms) (fun ms => decoded_of (WMulti o z kind ms))).
  - eapply reads_tested; [apply reads_counted; [apply reads_member|]| |].
    + intros w _. rewrite wire_bytes_split, blen_app. unfold blen at 1. rewrite header_length. pose proof (blen_nonneg (body_bytes w)). lia.
    + intros ms [Hw Hm]. rewrite Forall_forall in *. intros w Hi. split; [auto|]. intros H7. destruct (Hm w Hi H7) as (? & ? & _). done.
    + intros ms c Hms. apply Forall_and in Hms as [Hw Hm]. rewrite rbind_Ok.
      assert (Forall wire_ok ms) as Ho by (eapply Forall_impl; [exact Hw|by intros ? []]).
      setoid_rewrite (rawMulti_members o kind z ms _ ltac:(lia) Ho Hm). split.
      * intros (g & [He Hg] & [= <-]). split; [|unfold decoded_of; by rewrite <- Hg]. split; [done|].
        rewrite Forall_forall in *. intros w Hi H7. destruct (Hm w Hi H7) as [? ?]. auto.
      * intros [[_ Hmem] ->]. eexists. split; [split; [|reflexivity]|done].
        rewrite Forall_forall in *. intros w Hi E. apply (Hmem w Hi); lia.
  - intros w. split.
    + intros [[Ho Hd] Hs]. pose proof (shaped_case _ _ _ w Ho Hs) as [?|[?|[?|[_ [ms ->]]]]]; [lia..|].
      exists ms. apply wire_ok_multi in Ho as (_ & Hm & Ho). cbn in Hd. apply le_S_n, list_max_le, Forall_fmap in Hd.
      split; [|done]. split; [by apply Forall_and|done].
    + intros (ms & [Hw Hm] & ->). apply Forall_and in Hw as [Ho Hd]. split; [|done].
      split; [apply wire_ok_multi; split; [lia|done]|]. cbn. apply le_n_S, list_max_le, Forall_fmap, Hd.
  - done.
Qed.

Lemma reads_body : reads_body_of (body child o kind z).
Proof.
  unfold body. destruct (Z.eqb_spec kind 1); [by apply reads_point|]. destruct (Z.eqb_spec kind 2); [by apply reads_line|].
  destruct (Z.eqb_spec kind 3); [by apply reads_polygon|]. apply reads_multi. lia.
Qed.
End Body.

Lemma order_of_byte (b : ascii) (o : byte_order) :
  order_of b = Some o <-> b = byte_of (match o with BigEndian => 0 | LittleEndian => 1 end).
Proof.
  unfold order_of. split.
  - intros H. apply code_inj. destruct (Z.eqb_spec (code b) 0) as [->|]; [by injection H as <-|].
    destruct (Z.eqb_spec (code b) 1) as [->|]; [by injection H as <-|done].
  - intros ->. by destruct o.
Qed.

Lemma type_code_of (c kind : Z) (z : bool) :
  1 <= kind <= 7 -> type_code c = (kind, z) <-> c = if z then kind + 1000 else kind.
Proof.
  intros Hk. unfold type_code. destruct (Z.leb_spec 1001 c), (Z.leb_spec c 1007); cbn; split; intros H1; destruct z; try lia;
    try (injection H1; intros; done || lia); f_equal; lia.
Qed.

Lemma reads_geometry (n : nat) : reads (geometry_at n) (within n) wire_bytes wire_elements decoded_of.
Proof.
  induction n as [|n IH].
  - assert (forall w, ~ within 0 w) as H0 by (intros w [_ Hw]; destruct w; cbn in Hw; lia).
    split; [by intros w []%H0|]. intros d a d' Hd. split; [done|]. by intros (w & []%H0 & _).
  - assert (forall o k z, 1 <= k <= 7 -> reads (body (geometry_at n) o k z) (fun w => within (S n) w /\ shaped o k z w) body_bytes wire_elements decoded_of) as Hb.
    { intros o k z Hk. by apply reads_body. }
    assert (forall w, wire_ok w -> 1 <= wire_kind w <= 7) as Hkinds by (intros w Hw%wire_of_kind; destruct w; lia).
    split.
    { intros w Hw. destruct (Hb (wire_order w) (wire_kind w) (wire_z w) (Hkinds w (proj1 Hw))) as [Hc _]. by apply Hc. }
    intros d a d' Hd. cbn [geometry_at]. rewrite rbind_Ok. split.
    + intros ([hd d1] & (Hl & E & Ee)%take_bytes_Ok & H). destruct hd as [|b hd]; [done|]. cbn [head tail default id] in H.
      destruct (order_of b) as [o|] eqn:Eo; [|done]. apply order_of_byte in Eo as ->.
      destruct (type_code (Uint o hd)) as [kind z] eqn:Et. apply if_Err_Ok in H as [Hr H]. bool_props.
      apply type_code_of in Et; [|lia]. apply (Hb o kind z ltac:(lia)) in H as (w & [Hw (<- & <- & <-)] & E2 & Ee2 & Hm & ->); [|lia].
      exists w. split; [done|]. split; [|lia || (repeat split; lia)].
      rewrite wire_bytes_split, E, E2, <- app_assoc. cbn [header_bytes app]. do 2 f_equal. rewrite <- Et. symmetry. apply PutUint_Uint_length. cbn in Hl. lia.
    + intros (w & Hw & E & Ee & Hm & ->). pose proof (Hkinds w (proj1 Hw)) as Hk.
      set (o := wire_order w). set (k := wire_kind w) in *. set (z := wire_z w).
      exists (header_bytes o k z, mkDecoder (body_bytes w ++ d_rest d') (d_elements d)). split.
      { apply take_bytes_Ok. rewrite header_length, E, wire_bytes_split, <- app_assoc. done. }
      cbn [header_bytes head tail default id]. rewrite (proj2 (order_of_byte _ o) eq_refl).
      rewrite Uint_PutUint by (destruct z; lia). rewrite (proj2 (type_code_of _ k z Hk) eq_refl). decide_ltb. cbn [orb].
      apply (Hb o k z Hk); [done|]. exists w. cbn. done.
Qed.

(** ** No type assertion fails *)

Definition no_panic {A : Type} (f : reader A) : Prop := forall d, 0 <= d_elements d <= rawMaxElements -> f d <> Err RawPanic.

Lemma rbind_no_panic {A C : Type} (r : result raw_error A) (k : A -> result raw_error C) :
  r <> Err RawPanic -> (forall a, r = Ok a -> k a <> Err RawPanic) -> rbind r k <> Err RawPanic.
Proof. destruct r as [a|e]; cbn; [by auto|]. congruence. Qed.

Lemma take_no_panic (n : nat) : no_panic (take_bytes n).
Proof. intros d _. unfold take_bytes. by destruct (_ <? _)%nat. Qed.

Lemma tested_no_panic {A C W : Type} (f : reader A) (k : A -> result raw_error C) (ok : W -> Prop) (bytes : W -> gostring) (cost : W -> Z) (val : W -> A) :
  reads f ok bytes cost val -> no_panic f -> (forall w, ok w -> k (val w) <> Err RawPanic) -> no_panic (tested f k).
Proof.
  intros [_ Hf] Hn Hk d Hd. apply rbind_no_panic; [by apply Hn|]. intros [a d'] (w & Hw & _ & _ & _ & ->)%Hf; [|done].
  apply rbind_no_panic; [by apply Hk|done].
Qed.

Lemma counted_no_panic {A W : Type} (order : byte_order) (m : Z) (f : reader A) (ok : W -> Prop) (bytes : W -> gostring) (cost : W -> Z) (val : W -> A) :
  reads f ok bytes cost val -> no_panic f -> no_panic (counted order m f).
Proof.
  intros [Hc Hf] Hn d Hd. unfold counted, count. apply rbind_no_panic.
  - apply rbind_no_panic; [by apply take_no_panic|]. intros [bs d'] _. by destruct (_ || _).
  - intros [n d1] ([bs d0] & (_ & _ & Ee)%take_bytes_Ok & [Hb [= <- <-]]%if_Err_Ok)%rbind_Ok. bool_props.
    pose proof (Uint_range order bs). enough (forall k d1, 0 <= d_elements d1 <= rawMaxElements -> repeat_read k f d1 <> Err RawPanic) as Hr
      by (apply Hr; cbn; lia).
    clear -Hc Hf Hn. induction k as [|k IH]; intros d1 Hd1; cbn; [done|]. apply rbind_no_panic; [by apply Hn|].
    intros [a d2] (w & Hw & _ & He & Hm & _)%Hf; [|done]. specialize (Hc w Hw). apply rbind_no_panic; [apply IH; lia|by intros []].
Qed.

Lemma position_no_panic (o : byte_order) (z e : bool) : no_panic (position o z e).
Proof.
  intros d Hd. apply rbind_no_panic; [by apply take_no_panic|]. intros [bs d'] _. cbv zeta. destruct (e && _); [done|]. by destruct (existsb _ _).
Qed.

Lemma positions_no_panic (o : byte_order) (z : bool) : no_panic (positions o z).
Proof.
  eapply counted_no_panic; [apply reads_coordinates|]. eapply tested_no_panic; [apply reads_position|apply position_no_panic|done].
Qed.

Lemma ring_no_panic (o : byte_order) (z : bool) : no_panic (ring o z).
Proof.
  eapply tested_no_panic; [apply reads_positions|apply positions_no_panic|]. intros r _. by destruct (ring_ok _).
Qed.

Lemma assert_no_panic {A : Type} (on_nil : raw_error) (f : geometry -> option A) (ms : list wire) :
  (on_nil = RawPanic -> Forall (fun m => wire_geometry m <> None) ms) ->
  Forall (fun m => forall g, wire_geometry m = Some g -> f g <> None) ms ->
  assert_all on_nil f (map decoded_of ms) <> Err RawPanic.
Proof.
  intros Hnil. induction 1 as [|m ms Hm _ IH]; cbn; [done|].
  destruct (wire_geometry m) as [g|] eqn:Eg.
  - specialize (Hm g eq_refl). destruct (f g); [|done]. apply rbind_no_panic; [|done].
    apply IH. intros H%Hnil. by apply Forall_cons in H as [_ H].
  - intros [= ->]. specialize (Hnil eq_refl). apply Forall_cons in Hnil as [Hg _]. done.
Qed.

Lemma rawMulti_no_panic (kind : Z) (z : bool) (ms : list wire) :
  Forall wire_ok ms -> Forall (fun m => kind <> 7 -> wire_kind m = kind - 3 /\ wire_z m = z) ms ->
  rawMulti kind z (map decoded_of ms) <> Err RawPanic.
Proof.
  intros Hok Hms. unfold rawMulti.
  destruct (Z.eqb_spec kind 7) as [->|Hk7]; [done|].
  assert (Forall (fun m => wire_ok m /\ wire_kind m = kind - 3 /\ wire_z m = z) ms) as Hall.
  { rewrite Forall_forall in *. auto. }
  destruct (Z.eqb_spec kind 4) as [->|]; [|destruct (Z.eqb_spec kind 5) as [->|]; [|destruct (Z.eqb_spec kind 6) as [->|]; [|done]]];
    destruct z; (apply rbind_no_panic; [|done]); apply assert_no_panic; try done; try intros _;
    (eapply Forall_impl; [exact Hall|]); intros m (Ho%wire_of_kind & Hm1 & Hm2); destruct m; cbn in *; try lia; subst; try done;
    try (intros g; destruct (all_nan _ _); [done|]); intros; simplify_eq; done.
Qed.

Lemma geometry_no_panic (n : nat) : no_panic (geometry_at n).
Proof.
  induction n as [|n IH]; intros d Hd; cbn [geometry_at]; [done|]. apply rbind_no_panic; [by apply take_no_panic|].
  intros [hd d1] (_ & _ & Ee)%take_bytes_Ok. destruct (order_of _) as [o|]; [|done]. destruct (type_code _) as [kind z].
  destruct (_ || _) eqn:Ek; [done|]. bool_props. enough (no_panic (body (geometry_at n) o kind z)) as Hb by (apply Hb; lia).
  clear d d1 Hd Ee hd. unfold body. destruct (Z.eqb_spec kind 1); [|destruct (Z.eqb_spec kind 2); [|destruct (Z.eqb_spec kind 3)]].
  - eapply tested_no_panic; [apply reads_position|apply position_no_panic|done].
  - eapply tested_no_panic; [apply reads_positions|apply positions_no_panic|]. intros ps _. by destruct (_ =? 1).
  - eapply tested_no_panic; [|eapply counted_no_panic; [apply reads_ring|apply ring_no_panic]|done].
    apply (reads_counted o 4 _ _ _ _ _ (reads_ring o z)). intros; apply list_bytes_min.
  - pose proof (reads_member n _ kind z (reads_geometry n)) as Hm.
    eapply tested_no_panic; [apply (reads_counted o 5 _ _ _ _ _ Hm)|eapply counted_no_panic; [exact Hm|]|].
    + intros w _. rewrite wire_bytes_split, blen_app. unfold blen at 1. rewrite header_length. pose proof (blen_nonneg (body_bytes w)). lia.
    + eapply tested_no_panic; [apply reads_geometry|exact IH|]. intros w _. unfold member_ok. by destruct (_ && _).
    + intros ms H. apply Forall_and in H as [Hw Hk]. apply rbind_no_panic; [|done].
      apply rawMulti_no_panic; [|done]. eapply Forall_impl; [exact Hw|by intros ? []].
Qed.

(** ** The decoder accepts the wire format *)

(** The spelled geometries within the limits of the decoder. *)
Definition wire_accepted (data : gostring) (w : wire) : Prop :=
  data = wire_bytes w /\ wire_ok w /\ (wire_depth w <= S rawMaxDepth)%nat /\ wire_elements w <= rawMaxElements.

Lemma DecodeRawWKB_Ok (v : raw_value) (g : option geometry) :
  DecodeRawWKB v = Ok g <->
  v = VNil /\ g = None \/
  exists data w, v = VBytes data /\ blen data <= rawMaxInputBytes /\ wire_accepted data w /\ g = wire_geometry w.
Proof.
  destruct v as [|data|t|t]; cbn [DecodeRawWKB].
  1, 3, 4: split; [by (intros [= <-]; left) || done|by intros [[? ->]|(? & ? & [=] & _)]].
  assert (0 <= 0 <= rawMaxElements) as H0 by done.
  pose proof (proj2 (reads_geometry (S rawMaxDepth)) (mkDecoder data 0)) as Hr. split.
  - intros [Hs H]%if_Err_Ok. bool_props. destruct (geometry_at _ _) as [[a d]|]; [|done].
    destruct (proj1 (Hr a d H0) eq_refl) as (w & [Hw Hd] & Ed & Ee & Hm & ->). destruct (beq (d_rest d) []) eqn:Ez; [|done].
    apply beq_true in Ez. rewrite Ez, app_nil_r in Ed. injection H as <-. right. exists data, w. cbn in *. unfold wire_accepted.
    repeat split; try done. lia.
  - intros [[[=] _]|(? & w & [= <-] & Hs & (Ed & Hw & Hd & He) & ->)]. decide_ltb.
    rewrite (proj2 (Hr (decoded_of w) (mkDecoder [] (wire_elements w)) H0)); [done|].
    exists w. cbn. rewrite app_nil_r. done.
Qed.

Lemma DecodeRawWKB_no_panic (v : raw_value) : DecodeRawWKB v <> Err RawPanic.
Proof.
  destruct v as [|data|t|t]; cbn [DecodeRawWKB]; try done. assert (0 <= 0 <= rawMaxElements) as H0 by done.
  pose proof (geometry_no_panic (S rawMaxDepth) (mkDecoder data 0) H0) as Hn.
  destruct (_ <? _); [done|]. destruct (geometry_at _ _) as [[a d]|e]; [by destruct (beq _ _)|]. by destruct e.
Qed.

(** C17. A value is decoded to a geometry exactly when it is nil, or the bytes of a
    valid tree of geometries, each in either byte order, of at most 64 MiB, 33 levels
    and 2^20 elements, and then the geometry is the one the tree spells; every other
    value is an error, and no type assertion of the decoder fails. *)
Theorem DecodeRawWKB_exact (v : raw_value) (g : option geometry) :
  (DecodeRawWKB v = Ok g <->
   v = VNil /\ g = None \/
   exists data w, v = VBytes data /\ blen data <= rawMaxInputBytes /\ wire_accepted data w /\ g = wire_geometry w) /\
  DecodeRawWKB v <> Err RawPanic.
Proof. split; [apply DecodeRawWKB_Ok|apply DecodeRawWKB_no_panic]. Qed.
