(* ===== verification/GpkgHeader.v ===== *)
(** * provider/gpkg/binary_header.go: the header of a GeoPackage geometry

    The header that precedes the well-known binary of a stored geometry: how
    NewBinaryHeader reads it and encodeGPKGGeometry (mutation_ops.go) writes it. *)

From S2P Require Import Prelude GoText Bytes RawGeom.

#[local] Open Scope Z_scope.

Inductive envelopeType :=
| EnvelopeTypeNone
| EnvelopeTypeXY
| EnvelopeTypeXYZ
| EnvelopeTypeXYM
| EnvelopeTypeXYZM
| EnvelopeTypeInvalid.

#[export] Instance envelopeType_eq_dec : EqDecision envelopeType.
Proof. solve_decision. Defined.

Definition NumberOfElements (et : envelopeType) : Z :=
  match et with
  | EnvelopeTypeNone => 0
  | EnvelopeTypeXY => 4
  | EnvelopeTypeXYZ => 6
  | EnvelopeTypeXYM => 6
  | EnvelopeTypeXYZM => 8
  | EnvelopeTypeInvalid => -1
  end.

(** The masks of the flags. *)
Definition maskByteOrder : Z := Z.shiftl 1 0.
Definition maskEnvelopeType : Z := Z.lor (Z.lor (Z.shiftl 1 3) (Z.shiftl 1 2)) (Z.shiftl 1 1).
Definition maskEmptyGeometry : Z := Z.shiftl 1 4.
Definition maskGeoPackageBinary : Z := Z.shiftl 1 5.
Definition maskReservedFlags : Z := Z.lor (Z.shiftl 1 7) (Z.shiftl 1 6).

(** The flags are a byte. *)
Definition Endian (hf : Z) : byte_order := if Z.land hf maskByteOrder =? 0 then BigEndian else LittleEndian.

Definition flags_Envelope (hf : Z) : envelopeType :=
  let et := Z.shiftr (Z.land hf maskEnvelopeType) 1 in
  if 5 <=? et then EnvelopeTypeInvalid
  else if et =? 0 then EnvelopeTypeNone
  else if et =? 1 then EnvelopeTypeXY
  else if et =? 2 then EnvelopeTypeXYZ
  else if et =? 3 then EnvelopeTypeXYM
  else EnvelopeTypeXYZM.

Definition flags_IsEmpty (hf : Z) : bool := Z.shiftr (Z.land hf maskEmptyGeometry) 4 =? 1.

Definition flags_IsStandard (hf : Z) : bool := Z.shiftr (Z.land hf maskGeoPackageBinary) 5 =? 0.

Record BinaryHeader := mkHeader { bh_version : Z; bh_flags : Z; bh_srsid : Z; bh_envelope : list f64 }.

Inductive header_error :=
| NotEnoughBytes
| InvalidMagic
| InvalidVersion (version : Z)
| ReservedFlags (flags : Z)
| InvalidEnvelope.

Definition byte_at (data : gostring) (i : nat) : Z := code (default (byte_of 0) (data !! i)).

(** The loop over the values of the envelope. *)
Definition read_envelope (en : byte_order) (num : Z) (bytes : gostring) : list f64 :=
  map (fun i => Uint en (slice bytes (i * 8) (i * 8 + 8))) (seq 0 (Z.to_nat num)).

Definition NewBinaryHeader (data : gostring) : result header_error BinaryHeader :=
  if blen data <? 8 then Err NotEnoughBytes
  else
    let flags := byte_at data 3 in
    if negb (byte_at data 0 =? 0x47) || negb (byte_at data 1 =? 0x50) then Err InvalidMagic
    else if negb (byte_at data 2 =? 0) then Err (InvalidVersion (byte_at data 2))
    else if negb (Z.land flags maskReservedFlags =? 0) then Err (ReservedFlags flags)
    else
      let en := Endian flags in
      let srsid := to_int32 (Uint en (slice data 4 8)) in
      let bytes := drop 8 data in
      match flags_Envelope flags with
      | EnvelopeTypeInvalid => Err InvalidEnvelope
      | EnvelopeTypeNone => Ok (mkHeader (byte_at data 2) flags srsid [])
      | et =>
          let num := NumberOfElements et in
          if blen bytes <? num * 8 then Err NotEnoughBytes
          else Ok (mkHeader (byte_at data 2) flags srsid (read_envelope en num bytes))
      end.

Definition EnvelopeType (h : BinaryHeader) : envelopeType := flags_Envelope (bh_flags h).
Definition IsGeometryEmpty (h : BinaryHeader) : bool := flags_IsEmpty (bh_flags h).
Definition IsStandardGeometry (h : BinaryHeader) : bool := flags_IsStandard (bh_flags h).

(** The size of the header in bytes. *)
Definition Size (h : BinaryHeader) : Z := blen (bh_envelope h) * 8 + 8.

(** [encodeGPKGGeometry]; no envelope is nil. *)
Definition encodeGPKGGeometry (rawWKB : gostring) (srsID : Z) (envelope : option (list f64)) : gostring :=
  let flags := Z.lor 1 (Z.shiftl 1 1) in
  let flags := match envelope with Some _ => flags | None => Z.ldiff flags 0x0E end in
  [byte_of 0x47; byte_of 0x50; byte_of 0; byte_of flags] ++
  PutUint LittleEndian 4 (to_uint32 srsID) ++
  concat (map (PutUint LittleEndian 8) (default [] envelope)) ++
  rawWKB.

(** ** Lemmas *)

Lemma length_envelope (vs : list f64) : length (concat (map (PutUint LittleEndian 8) vs)) = (8 * length vs)%nat.
Proof. induction vs as [|v vs IH]; cbn [map concat length]; [done|]. rewrite length_app, length_PutUint, IH. lia. Qed.

Lemma read_envelope_bytes (en : byte_order) (vs : list f64) (rest : gostring) :
  Forall (fun v => 0 <= v < 2 ^ 64) vs -> read_envelope en (blen vs) (concat (map (PutUint en 8) vs) ++ rest) = vs.
Proof.
  unfold read_envelope, blen. rewrite Nat2Z.id. intros H.
  enough (forall pre n, length pre = (n * 8)%nat ->
    map (fun i => Uint en (slice (pre ++ concat (map (PutUint en 8) vs) ++ rest) (i * 8) (i * 8 + 8))) (seq n (length vs)) = vs) as He
    by exact (He [] 0%nat eq_refl).
  induction H as [|v vs Hv Hvs IH]; intros pre n Hn; cbn [map concat length seq]; [done|]. f_equal.
  - rewrite slice_skip by lia. replace (n * 8 - length pre)%nat with 0%nat by lia.
    replace (n * 8 + 8 - length pre)%nat with 8%nat by lia.
    rewrite <- app_assoc, slice_prefix by apply length_PutUint. by apply Uint_PutUint.
  - rewrite <- (IH (pre ++ PutUint en 8 v) (S n)) at 2 by (rewrite length_app, length_PutUint; lia).
    apply map_ext. intros i. do 2 f_equal. by rewrite <- !app_assoc.
Qed.

Lemma NumberOfElements_even (et : envelopeType) :
  et <> EnvelopeTypeInvalid -> exists n, NumberOfElements et = 2 * n /\ 0 <= n <= 4.
Proof. destruct et; intros H; [exists 0|exists 2|exists 3|exists 3|exists 4|done]; cbn; lia. Qed.

(** What a header that was read says of the bytes. *)
Lemma NewBinaryHeader_size (data : gostring) (h : BinaryHeader) :
  NewBinaryHeader data = Ok h ->
  Size h = NumberOfElements (EnvelopeType h) * 8 + 8 /\ Size h <= blen data /\ EnvelopeType h <> EnvelopeTypeInvalid.
Proof.
  unfold NewBinaryHeader. intros [Hl H]%if_Err_Ok. bool_props.
  repeat (apply if_Err_Ok in H as [_ H]).
  assert (forall num, 0 <= num -> num * 8 <= blen (drop 8 data) -> blen (read_envelope (Endian (byte_at data 3)) num (drop 8 data)) * 8 + 8 = num * 8 + 8 /\ num * 8 + 8 <= blen data) as Hr.
  { intros num Hn Hb. unfold read_envelope, blen in *. rewrite length_map, length_seq. rewrite length_drop in Hb. lia. }
  unfold Size, EnvelopeType. destruct (flags_Envelope (byte_at data 3)) eqn:Ee; try done; [injection H as <-; cbn [bh_envelope bh_flags]; rewrite Ee; by repeat split|..];
    apply if_Err_Ok in H as [Hn [= <-]]; bool_props; cbn [bh_envelope bh_flags]; rewrite Ee;
    (destruct (fun H0 => Hr _ H0 Hn) as [E1 E2]; [done|]; split; [exact E1|split; [|done]]; etransitivity; [apply Z.eq_le_incl, E1|exact E2]).
Qed.

(** The header written before a geometry is read back with its reference system
    and envelope, marked as a standard, non-empty geometry, and leads to exactly the
    bytes of the geometry; and whatever bytes are read, the size of an accepted header
    is that of its envelope type and lies within them. *)
Lemma NewBinaryHeader_roundtrip :
  (forall rawWKB srsID envelope,
     -2 ^ 31 <= srsID < 2 ^ 31 ->
     Forall (fun v => 0 <= v < 2 ^ 64) (default [] envelope) ->
     (forall vs, envelope = Some vs -> length vs = 4%nat) ->
     exists h, NewBinaryHeader (encodeGPKGGeometry rawWKB srsID envelope) = Ok h /\
       bh_srsid h = srsID /\ bh_envelope h = default [] envelope /\ IsStandardGeometry h = true /\ IsGeometryEmpty h = false /\
       EnvelopeType h = (if envelope is Some _ then EnvelopeTypeXY else EnvelopeTypeNone) /\
       drop (Z.to_nat (Size h)) (encodeGPKGGeometry rawWKB srsID envelope) = rawWKB) /\
  (forall data h, NewBinaryHeader data = Ok h ->
     Size h = NumberOfElements (EnvelopeType h) * 8 + 8 /\ Size h <= blen data).
Proof.
  split; [|intros data h H%NewBinaryHeader_size; tauto].
  intros raw srs env Hs Hv Hl. set (flags := if env is Some _ then 3 else 1).
  exists (mkHeader 0 flags srs (default [] env)).
  assert (encodeGPKGGeometry raw srs env = [byte_of 0x47; byte_of 0x50; byte_of 0; byte_of flags] ++ PutUint LittleEndian 4 (to_uint32 srs) ++
    concat (map (PutUint LittleEndian 8) (default [] env)) ++ raw) as E by (by destruct env).
  rewrite E. set (data := _ ++ _). set (tl := concat _ ++ raw) in *.
  assert (drop 8 data = tl) as Ed.
  { unfold data. rewrite app_assoc, drop_app_length'; [done|]. rewrite length_app, length_PutUint. done. }
  assert (slice data 4 8 = PutUint LittleEndian 4 (to_uint32 srs)) as E4.
  { unfold data. rewrite slice_skip by (cbn; lia). cbn [length Nat.sub]. apply slice_prefix, length_PutUint. }
  assert (8 <= blen data) as Hd by (unfold data, blen; rewrite !length_app, length_PutUint; cbn; lia).
  assert (byte_at data 3 = flags) as Ef by (unfold byte_at, flags; by destruct env).
  split; [|split; [done|split; [done|split; [by destruct env|split; [by destruct env|split; [by destruct env|]]]]]].
  - unfold NewBinaryHeader. decide_ltb. rewrite Ef, E4, Ed.
    change (byte_at data 0) with 0x47. change (byte_at data 1) with 0x50. change (byte_at data 2) with 0.
    rewrite (Z.eqb_refl 0x47), (Z.eqb_refl 0x50), (Z.eqb_refl 0). cbn [negb orb].
    destruct env as [vs|]; cbn [default id] in *; unfold flags; clear Ef.
    + specialize (Hl vs eq_refl). change (Endian 3) with LittleEndian. change (flags_Envelope 3) with EnvelopeTypeXY.
      change (negb (Z.land 3 maskReservedFlags =? 0)) with false. cbn [NumberOfElements].
      assert (4 = blen vs) as H4 by (unfold blen; lia). rewrite H4.
      assert (blen vs * 8 <= blen tl) as Ht by (unfold tl, blen; rewrite length_app, length_envelope; lia).
      decide_ltb. unfold tl. rewrite read_envelope_bytes by done.
      rewrite Uint_PutUint by apply to_uint32_range. by rewrite to_int32_uint32.
    + change (Endian 1) with LittleEndian. change (flags_Envelope 1) with EnvelopeTypeNone.
      change (negb (Z.land 1 maskReservedFlags =? 0)) with false.
      rewrite Uint_PutUint by apply to_uint32_range. by rewrite to_int32_uint32.
  - unfold Size. cbn [bh_envelope]. replace (Z.to_nat (blen (default [] env) * 8 + 8)) with (8 + 8 * length (default [] env))%nat by (unfold blen; lia).
    rewrite <- drop_drop, Ed. unfold tl. apply drop_app_length'. by rewrite length_envelope.
Qed.
