(* ===== verification/FeatureExtent.v ===== *)
(** * provider/geometrycodec/feature_intersection.go: geometries and extents

    Whether a horizontal geometry meets a rectangle.  The orientation of three points
    is computed in floating point when an error bound allows it, and in exact rational
    arithmetic otherwise; it is shown to be the exact sign in both cases.  Segments,
    lines and points then meet a rectangle exactly when they share a point with it. *)

From Stdlib Require Import Qabs.
From S2P Require Import Prelude GoText Float64 FloatArith Plane RawGeom.

#[local] Open Scope Z_scope.

(** ** Coordinates *)

Definition of_bits (b : f64) : fnum :=
  if IsNaN b then FNaN else if IsInf b then FInf (2 ^ 63 <=? b) else FFin (float_rank b).

(** The exact value of a finite coordinate, [new(big.Rat).SetFloat64(x)]. *)
Definition coord (b : f64) : Q := float_value (float_rank b).

Definition featureFinite (b : f64) : bool := negb (IsNaN b) && negb (IsInf b).

(** [math.Min] and [math.Max] of numbers. *)
Definition fmin (a b : f64) : f64 := if float_lt b a then b else a.
Definition fmax (a b : f64) : f64 := if float_lt a b then b else a.

Definition float_le (a b : f64) : bool := negb (IsNaN a) && negb (IsNaN b) && (float_rank a <=? float_rank b).

(** ** Operations *)

Definition Qsgn (x : Q) : Z := Z.sgn (Qnum x).

Definition point (p : pos2) : Q * Q := (coord (fst p), coord (snd p)).

Definition smallestNormal : fnum := FFin (2 ^ 52).

(** The float64 nearest to 1e-14. *)
Definition tolerance : fnum := round64 (1 # 10 ^ 14).

Definition featureOrientation (a b c : pos2) : Z :=
  let sub x y := fsub (of_bits x) (of_bits y) in
  let left := fmul (sub (fst a) (fst c)) (sub (snd b) (snd c)) in
  let right := fmul (sub (snd a) (snd c)) (sub (fst b) (fst c)) in
  let determinant := fsub left right in
  let errorBound := fmul (fadd (fabs left) (fabs right)) tolerance in
  if ffinite determinant && fge errorBound smallestNormal && fgt (fabs determinant) errorBound then
    if fgt determinant (FFin 0) then 1 else -1
  else Qsgn (det (point a) (point b) (point c)).

Definition featurePointOnSegment (p a b : pos2) : bool :=
  float_le (fmin (fst a) (fst b)) (fst p) && float_le (fst p) (fmax (fst a) (fst b)) &&
  (float_le (fmin (snd a) (snd b)) (snd p) && float_le (snd p) (fmax (snd a) (snd b))).

Definition featureSegmentsIntersect (a b c d : pos2) : bool :=
  let o1 := featureOrientation a b c in
  let o2 := featureOrientation a b d in
  let o3 := featureOrientation c d a in
  let o4 := featureOrientation c d b in
  if (o1 =? 0) && featurePointOnSegment c a b || (o2 =? 0) && featurePointOnSegment d a b then true
  else if (o3 =? 0) && featurePointOnSegment a c d || (o4 =? 0) && featurePointOnSegment b c d then true
  else (o1 * o2 <? 0) && (o3 * o4 <? 0).

(** An extent: minimum x and y, maximum x and y. *)
Record Extent := mkExtent { e_minx : f64; e_miny : f64; e_maxx : f64; e_maxy : f64 }.

Definition ContainsPoint (e : Extent) (p : pos2) : bool :=
  float_le (e_minx e) (fst p) && float_le (fst p) (e_maxx e) && (float_le (e_miny e) (snd p) && float_le (snd p) (e_maxy e)).

Definition featureExtentCorners (e : Extent) : list pos2 :=
  [(e_minx e, e_miny e); (e_maxx e, e_miny e); (e_maxx e, e_maxy e); (e_minx e, e_maxy e)].

(** The pairs of a corner and the next one. *)
Definition extent_edges (e : Extent) : list (pos2 * pos2) :=
  combine (featureExtentCorners e) (tail (featureExtentCorners e) ++ take 1 (featureExtentCorners e)).

Definition edge_crossed (e : Extent) (previous p : pos2) : bool :=
  existsb (fun cd => featureSegmentsIntersect previous p (fst cd) (snd cd)) (extent_edges e).

(** The loop over the points; the first has a predecessor when the line is closed. *)
Fixpoint line_loop (e : Extent) (previous : option pos2) (points : list pos2) : bool :=
  match points with
  | [] => false
  | p :: rest =>
      ContainsPoint e p || (match previous with Some q => edge_crossed e q p | None => false end) ||
      line_loop e (Some p) rest
  end.

Definition featureLineIntersects (points : list pos2) (e : Extent) (closed : bool) : bool :=
  match points with
  | [] => true
  | _ => line_loop e (if closed then last points else None) points
  end.

(** The pairs of a point and the next one, around the ring. *)
Definition ring_edges {A : Type} (ring : list A) : list (A * A) := combine ring (tail ring ++ take 1 ring).

Fixpoint in_ring_loop (p : pos2) (edges : list (pos2 * pos2)) (inside : bool) : bool :=
  match edges with
  | [] => inside
  | (a, b) :: rest =>
      if (featureOrientation a b p =? 0) && featurePointOnSegment p a b then true
      else if eqb (float_lt (snd p) (snd a)) (float_lt (snd p) (snd b)) then in_ring_loop p rest inside
      else if eqb (0 <? featureOrientation a b p) (float_lt (snd a) (snd b)) then in_ring_loop p rest (negb inside)
      else in_ring_loop p rest inside
  end.

Definition featurePointInRing (p : pos2) (ring : list pos2) : bool := in_ring_loop p (ring_edges ring) false.

Definition featurePolygonIntersects (rings : list (list pos2)) (e : Extent) : bool :=
  match rings with
  | [] => true
  | outer :: holes =>
      existsb (fun ring => featureLineIntersects ring e true) rings ||
      existsb (fun corner => featurePointInRing corner outer && negb (existsb (featurePointInRing corner) holes))
        (featureExtentCorners e)
  end.

Definition is_nil {A : Type} (l : list A) : bool := match l with [] => true | _ => false end.

(** nil is the empty geometry; only horizontal types get here. *)
Fixpoint geometry_empty (g : geometry) : bool :=
  match g with
  | MultiPoint ps => is_nil ps
  | LineString ps => is_nil ps
  | Polygon rs => is_nil rs
  | MultiLineString ls => forallb is_nil ls
  | MultiPolygon gs => forallb is_nil gs
  | Collection gs => forallb (fun c => match c with Some c => geometry_empty c | None => true end) gs
  | _ => false
  end.

Definition featureGeometryEmpty (g : option geometry) : bool :=
  match g with Some g => geometry_empty g | None => true end.

(** Whether a geometry that is not empty meets the extent; empty parts do not count. *)
Fixpoint geometry_intersects (e : Extent) (g : geometry) : bool :=
  geometry_empty g ||
  match g with
  | Point p => ContainsPoint e p
  | MultiPoint ps => existsb (ContainsPoint e) ps
  | LineString ps => featureLineIntersects ps e false
  | MultiLineString ls => existsb (fun l => negb (is_nil l) && featureLineIntersects l e false) ls
  | Polygon rs => featurePolygonIntersects rs e
  | MultiPolygon gs => existsb (fun rs => negb (is_nil rs) && featurePolygonIntersects rs e) gs
  | Collection gs =>
      existsb (fun c => match c with Some c => negb (geometry_empty c) && geometry_intersects e c | None => false end) gs
  | _ => false
  end.

Definition featureIntersects (g : option geometry) (e : Extent) : bool :=
  match g with Some g => geometry_intersects e g | None => true end.

(** *** Validation *)

(** An error, one that wraps ErrUnsupportedFeatureSpatialGeometry, and one of the source
    data that a transformation reports (FeatureDataError). *)
Inductive spatial_error :=
| SpatialErr (text : gostring)
| SpatialUnsupported (text : gostring)
| SpatialData (text : gostring).

Definition spatial_check (ok : bool) (text : string) : result spatial_error unit :=
  if ok then Ok tt else Err (SpatialErr (B text)).

Definition validateFeaturePoints (points : list pos2) : result spatial_error unit :=
  spatial_check (forallb (fun p => featureFinite (fst p) && featureFinite (snd p)) points)
    "feature geometry contains nonfinite coordinates".

Definition validate_line (ps : list pos2) : result spatial_error unit :=
  check? spatial_check (negb (blen ps =? 1)) "feature line requires at least two coordinates" in
  validateFeaturePoints ps.

Definition validate_ring (ring : list pos2) : result spatial_error unit :=
  check? spatial_check (3 <=? blen ring) "feature polygon ring requires at least three coordinates" in
  validateFeaturePoints ring.

Definition validate_rings (rs : list (list pos2)) : result spatial_error unit := rfold (fun r _ => validate_ring r) rs tt.

Definition type_name (g : geometry) : gostring :=
  match g with
  | Point _ => B "geom.Point"
  | PointZ _ => B "geom.PointZ"
  | LineString _ => B "geom.LineString"
  | LineStringZ _ => B "geom.LineStringZ"
  | Polygon _ => B "geom.Polygon"
  | PolygonZ _ => B "geom.PolygonZ"
  | MultiPoint _ => B "geom.MultiPoint"
  | MultiPointZ _ => B "geom.MultiPointZ"
  | MultiLineString _ => B "geom.MultiLineString"
  | MultiLineStringZ _ => B "geom.MultiLineStringZ"
  | MultiPolygon _ => B "geom.MultiPolygon"
  | MultiPolygonZ _ => B "geometrycodec.MultiPolygonZ"
  | Collection _ => B "geom.Collection"
  end.

Fixpoint validate_geometry (g : geometry) : result spatial_error unit :=
  match g with
  | Point p => validateFeaturePoints [p]
  | MultiPoint ps => validateFeaturePoints ps
  | LineString ps => validate_line ps
  | MultiLineString ls => rfold (fun l _ => validate_line l) ls tt
  | Polygon rs => validate_rings rs
  | MultiPolygon gs => rfold (fun rs _ => validate_rings rs) gs tt
  | Collection gs => rfold (fun c _ => match c with Some c => validate_geometry c | None => Ok tt end) gs tt
  | PointZ _ | LineStringZ _ | PolygonZ _ | MultiPointZ _ | MultiLineStringZ _ | MultiPolygonZ _ =>
      Err (SpatialErr (B "unsupported horizontal feature geometry " ++ type_name g))
  end.

Definition validateFeatureGeometry (g : option geometry) : result spatial_error unit :=
  match g with Some g => validate_geometry g | None => Ok tt end.

Definition FeatureGeometryIntersectsExtent (g : option geometry) (e : option Extent) : result spatial_error bool :=
  check? match e with
         | Some e =>
             check? spatial_check (forallb featureFinite [e_minx e; e_miny e; e_maxx e; e_maxy e])
                      "feature bounds contain nonfinite coordinates" in
             spatial_check (negb (float_lt (e_maxx e) (e_minx e) || float_lt (e_maxy e) (e_miny e)))
               "feature bounds minimum exceeds maximum"
         | None => Ok tt
         end in
  check? validateFeatureGeometry g in
  match e with
  | None => Ok true
  | Some e => Ok (featureIntersects g e)
  end.

(** ** Orientation *)

(** A finite coordinate. *)
Definition finite (b : f64) : Prop := featureFinite b = true.

Lemma of_bits_finite (b : f64) : finite b -> of_bits b = FFin (float_rank b).
Proof. unfold finite, featureFinite, of_bits. by destruct (IsNaN b), (IsInf b). Qed.

Lemma Qabs_cases (x : Q) : (0 <= x /\ Qabs x == x \/ x <= 0 /\ Qabs x == - x)%Q.
Proof. apply (Qabs_case x (fun y => 0 <= x /\ y == x \/ x <= 0 /\ y == - x)%Q); intros; [left|right]; split; done || lra. Qed.

(** The absolute values of the goal and the hypotheses, by cases. *)
Ltac abs_cases :=
  repeat match goal with
  | H : context [Qabs ?x] |- _ => let E := fresh in destruct (Qabs_cases x) as [[? E]|[? E]]; rewrite E in *; clear E
  | |- context [Qabs ?x] => let E := fresh in destruct (Qabs_cases x) as [[? E]|[? E]]; rewrite E in *; clear E
  end.

Lemma Qabs_diff (a b : Q) : (Qabs a <= Qabs b + Qabs (a - b))%Q.
Proof. pose proof (Qabs_triangle b (a - b)) as H. assert (b + (a - b) == a)%Q as E by ring. by rewrite E in H. Qed.

Lemma Qabs_between (a b c : Q) : (Qabs (a - c) <= Qabs (a - b) + Qabs (b - c))%Q.
Proof. pose proof (Qabs_triangle (a - b) (b - c)) as H. assert (a - b + (b - c) == a - c)%Q as E by ring. by rewrite E in H. Qed.

Lemma close_abs (v x : Q) : close v x -> (Qabs (v - x) <= eps * Qabs x + eta)%Q.
Proof.
  pose proof (Qabs_nonneg x). assert (0 < eps)%Q by done. assert (0 < eta)%Q by apply pow2_pos.
  intros [He|[He _]]; nra.
Qed.

Lemma Qabs_product_error (d1 D1 d2 D2 : Q) :
  (Qabs (d1 - D1) <= eps * Qabs D1)%Q -> (Qabs (d2 - D2) <= eps * Qabs D2)%Q ->
  (Qabs (d1 * d2 - D1 * D2) <= (2 * eps + eps * eps) * Qabs (D1 * D2))%Q.
Proof.
  intros H1 H2. set (u := (d1 - D1)%Q) in *. set (v := (d2 - D2)%Q) in *.
  assert (d1 * d2 - D1 * D2 == u * v + u * D2 + D1 * v)%Q as -> by (unfold u, v; ring).
  pose proof (Qabs_triangle (u * v + u * D2) (D1 * v)) as T1. pose proof (Qabs_triangle (u * v) (u * D2)) as T2.
  rewrite !Qabs_Qmult in *. pose proof (Qabs_nonneg D1). pose proof (Qabs_nonneg D2).
  pose proof (Qabs_nonneg u). pose proof (Qabs_nonneg v).
  set (x := Qabs u) in *. set (y := Qabs v) in *. set (X := Qabs D1) in *. set (Y := Qabs D2) in *.
  assert (0 < eps)%Q by done. assert (x * y <= eps * X * (eps * Y))%Q by (apply Qmult_le_compat_nonneg; done).
  assert (x * Y <= eps * X * Y)%Q by nra. assert (X * y <= X * (eps * Y))%Q by nra. lra.
Qed.

(** The product of two rounded differences, rounded. *)
Lemma product_error (d1 D1 d2 D2 p : Q) :
  (Qabs (d1 - D1) <= eps * Qabs D1)%Q -> (Qabs (d2 - D2) <= eps * Qabs D2)%Q -> close p (d1 * d2) ->
  (Qabs (p - D1 * D2) <= 4 * eps * Qabs p + 4 * eta)%Q.
Proof.
  intros H1 H2 H3%close_abs. pose proof (Qabs_product_error _ _ _ _ H1 H2) as H4.
  set (m := (d1 * d2)%Q) in *. set (M := (D1 * D2)%Q) in *. assert (0 < eta)%Q by apply pow2_pos. 
  pose proof (Qabs_between p m M). pose proof (Qabs_diff M m) as H5. pose proof (Qabs_diff m p) as H6.
  rewrite (Qabs_Qminus M m) in H5. rewrite (Qabs_Qminus m p) in H6.
  pose proof (Qabs_nonneg p). unfold eps in *. lra.
Qed.

Lemma tolerance_value : exists k, tolerance = FFin k /\ 0 < k /\ (99 # 10000000000000000 <= float_value k)%Q.
Proof. eexists. split; [vm_compute; reflexivity|]. split; [done|]. by apply Qle_bool_iff; vm_compute. Qed.

Lemma pow2_normal : (float_value (2 ^ 52) == 9007199254740992 * eta)%Q.
Proof.
  unfold eta. rewrite float_value_nonneg by done. unfold magnitude. cbn [Z.div]. change (2 ^ 52 / 2 ^ 52 =? 0) with false. cbn iota.
  change (2 ^ 52 / 2 ^ 52 - 1075) with (1 + -1075). rewrite pow2_add. change (pow2 1) with 2%Q. change (inject_Z (2 ^ 52 + 2 ^ 52 mod 2 ^ 52)) with (4503599627370496%Q). ring.
Qed.

Lemma Qsgn_cases (x : Q) : ((0 < x)%Q /\ Qsgn x = 1) \/ ((x == 0)%Q /\ Qsgn x = 0) \/ ((x < 0)%Q /\ Qsgn x = -1).
Proof.
  destruct x as [n d]. unfold Qsgn, Qlt, Qeq. cbn. destruct (Z.sgn_spec n) as [[? E]|[[? E]|[? E]]]; rewrite E; lia.
Qed.

(** The arithmetic of the fast path: with the products [l] and [r] of the rounded
    differences, their rounded difference [d] and the error bound [e], the exact
    determinant has the sign of [l - r]. *)
Lemma fast_path_sign (A C l r d s e t : Q) :
  (Qabs (l - A) <= 4 * eps * Qabs l + 4 * eta)%Q -> (Qabs (r - C) <= 4 * eps * Qabs r + 4 * eta)%Q ->
  (Qabs (d - (l - r)) <= eps * Qabs (l - r))%Q ->
  (Qabs (s - (Qabs l + Qabs r)) <= eps * (Qabs l + Qabs r))%Q ->
  (99 # 10000000000000000 <= t)%Q -> close e (s * t) -> (9007199254740992 * eta <= e)%Q -> (e < Qabs d)%Q ->
  (0 < l - r -> 0 < A - C)%Q /\ (l - r < 0 -> A - C < 0)%Q.
Proof.
  intros Hl Hr Hd Hs Ht He%close_abs Hn Hgt. assert (0 < eta)%Q as Heta by apply pow2_pos.
  assert (Qabs (A - C - (l - r)) <= 4 * eps * (Qabs l + Qabs r) + 8 * eta)%Q as HE.
  { pose proof (Qabs_triangle (A - l) (- (C - r))) as H. rewrite Qabs_opp, (Qabs_Qminus A l), (Qabs_Qminus C r) in H.
    assert (A - l + - (C - r) == A - C - (l - r))%Q as E by ring. rewrite E in H. lra. }
  pose proof (Qabs_nonneg l) as Pl. pose proof (Qabs_nonneg r) as Pr. set (S := (Qabs l + Qabs r)%Q) in *.
  assert (0 <= S)%Q as PS by (unfold S; lra). clearbody S.
  assert ((99 # 100) * S <= s)%Q as Hs1.
  { pose proof (Qabs_Qle_condition (s - S) (eps * S)) as [H _]. destruct (H Hs). unfold eps in *. lra. }
  assert ((98 # 10000000000000000) * S <= s * t)%Q as Hst by nra.
  assert ((97 # 10000000000000000) * S <= e + eta)%Q as He1.
  { rewrite (Qabs_pos (s * t)) in He by lra. pose proof (Qabs_Qle_condition (e - s * t) (eps * (s * t) + eta)) as [H _]. destruct (H He). unfold eps in *. lra. }
  assert (e < (1 + eps) * Qabs (l - r))%Q as Hlr.
  { pose proof (Qabs_diff d (l - r)). lra. }
  pose proof (Qabs_Qle_condition (A - C - (l - r)) (4 * eps * S + 8 * eta)) as [H _]. destruct (H HE) as [B1 B2].
  split; intros Hs0; [rewrite (Qabs_pos (l - r)) in Hlr by lra|rewrite (Qabs_neg (l - r)) in Hlr by lra]; unfold eps in *; lra.
Qed.

Lemma fsub_finite (x y : fnum) (r : Z) : fsub x y = FFin r -> exists a b, x = FFin a /\ y = FFin b.
Proof. destruct x as [a|[]|], y as [b|[]|]; cbn; try done; eauto. Qed.

Lemma fmul_finite (x y : fnum) (r : Z) : fmul x y = FFin r -> exists a b, x = FFin a /\ y = FFin b.
Proof. destruct x as [a|s|], y as [b|t|]; cbn; try done; eauto; by destruct (_ =? 0). Qed.

Lemma fadd_finite (x y : fnum) (r : Z) : fadd x y = FFin r -> exists a b, x = FFin a /\ y = FFin b.
Proof. destruct x as [a|[]|], y as [b|[]|]; cbn; try done; eauto. Qed.

Lemma fge_finite (x : fnum) (k : Z) : fge x (FFin k) = true -> (exists r, x = FFin r /\ k <= r) \/ x = FInf false.
Proof.
  unfold fge. destruct x as [r|[]|]; cbn; [|done|by right|done]. rewrite orb_true_iff. intros H. left. exists r. split; [done|]. bool_props. lia.
Qed.

Lemma fgt_finite (a : Z) (x : fnum) : fgt (FFin a) x = true -> x <> FInf false -> x = FInf true \/ exists r, x = FFin r /\ r < a.
Proof. destruct x as [r|[]|]; cbn; intros H Hx; try done; [right; exists r; bool_props; done|by left]. Qed.

(** The orientation is the sign of the exact determinant. *)
Lemma featureOrientation_exact (a b c : pos2) :
  Forall finite [fst a; snd a; fst b; snd b; fst c; snd c] -> featureOrientation a b c = Qsgn (det (point a) (point b) (point c)).
Proof.
  rewrite !Forall_cons. intros (Ha0 & Ha1 & Hb0 & Hb1 & Hc0 & Hc1 & _). unfold featureOrientation.
  rewrite !of_bits_finite by done. destruct tolerance_value as (k & -> & Hk0 & Hk).
  destruct (_ && _ && _) eqn:Ef; [|done]. apply andb_true_iff in Ef as [[Ed Eb]%andb_true_iff Eg].
  destruct (fsub (fmul _ _) (fmul _ _)) as [d| |] eqn:Esub; try done. clear Ed.
  destruct (fsub_finite _ _ _ Esub) as (l & r & El & Er). rewrite El, Er in *.
  destruct (fmul_finite _ _ _ El) as (d1 & d2 & E1 & E2). destruct (fmul_finite _ _ _ Er) as (d3 & d4 & E3 & E4).
  rewrite E1, E2 in El. rewrite E3, E4 in Er. cbn [fabs] in *.
  apply fge_finite in Eb as [(e & Ee & He)|Ee]; rewrite Ee in Eg; [|done].
  destruct (fmul_finite _ _ _ Ee) as (s & k' & Es & [= <-]). rewrite Es in Ee. cbn [fgt] in Eg. apply Z.ltb_lt in Eg.
  apply fsub_error in E1, E2, E3, E4. apply fmul_error in El, Er, Ee. apply fadd_error in Es. rewrite !float_value_abs in Es.
  rewrite (Qabs_pos (Qabs _ + Qabs _)) in Es by (pose proof (Qabs_nonneg (float_value l)); pose proof (Qabs_nonneg (float_value r)); lra).
  pose proof (product_error _ _ _ _ _ E1 E2 El) as Hl. pose proof (product_error _ _ _ _ _ E3 E4 Er) as Hr.
  pose proof (fsub_error _ _ _ Esub) as Hd. pose proof (fsub_sign _ _ _ Esub) as [Hs1 Hs2].
  pose proof (float_value_le _ _ He) as Hn. rewrite pow2_normal in Hn.
  pose proof (float_value_lt _ _ Eg) as Hg. rewrite float_value_abs in Hg.
  destruct (fast_path_sign _ _ _ _ _ _ _ _ Hl Hr Hd Es Hk Ee Hn Hg) as [Hp Hm].
  assert (d <> 0) as Hd0 by lia.
  change (det (point a) (point b) (point c)) with
    ((coord (fst a) - coord (fst c)) * (coord (snd b) - coord (snd c)) - (coord (snd a) - coord (snd c)) * (coord (fst b) - coord (fst c)))%Q.
  unfold coord. set (x := (_ * _ - _ * _)%Q) in *. cbn [fgt].
  destruct (Z.ltb_spec 0 d) as [Hd1|Hd1]; destruct (Qsgn_cases x) as [[Hx ->]|[[Hx ->]|[Hx ->]]]; try done;
    [pose proof (float_value_lt _ _ (Hs1 ltac:(lia)))|pose proof (float_value_lt _ _ (Hs1 ltac:(lia)))|
     pose proof (float_value_lt _ _ (Hs2 ltac:(lia)))|pose proof (float_value_lt _ _ (Hs2 ltac:(lia)))];
    [specialize (Hp ltac:(lra))|specialize (Hp ltac:(lra))|specialize (Hm ltac:(lra))|specialize (Hm ltac:(lra))]; lra.
Qed.

(** ** Points, segments and lines *)

(** A finite position. *)
Definition finite2 (p : pos2) : Prop := finite (fst p) /\ finite (snd p).

Lemma finite_not_nan (b : f64) : finite b -> IsNaN b = false.
Proof. unfold finite, featureFinite. by destruct (IsNaN b). Qed.

Lemma float_le_coord (a b : f64) : finite a -> finite b -> float_le a b = true <-> (coord a <= coord b)%Q.
Proof.
  intros Ha%finite_not_nan Hb%finite_not_nan. unfold float_le, coord. rewrite Ha, Hb. cbn [negb andb].
  rewrite Z.leb_le. split; [apply float_value_le|]. intros H. destruct (Z.le_gt_cases (float_rank a) (float_rank b)) as [|Hlt]; [done|].
  apply float_value_lt in Hlt. lra.
Qed.

Lemma float_lt_coord (a b : f64) : finite a -> finite b -> float_lt a b = true <-> (coord a < coord b)%Q.
Proof.
  intros Ha%finite_not_nan Hb%finite_not_nan. unfold float_lt, coord. rewrite Ha, Hb. cbn [negb andb].
  rewrite Z.ltb_lt. split; [apply float_value_lt|]. intros H. destruct (Z.lt_ge_cases (float_rank a) (float_rank b)) as [|Hge]; [done|].
  apply float_value_le in Hge. lra.
Qed.

Lemma fmin_max_between (a b p : f64) :
  finite a -> finite b -> finite p ->
  float_le (fmin a b) p && float_le p (fmax a b) = true <-> between (coord a) (coord b) (coord p).
Proof.
  intros Ha Hb Hp. unfold fmin, fmax. rewrite andb_true_iff.
  pose proof (float_lt_coord a b Ha Hb) as H1. pose proof (float_lt_coord b a Hb Ha) as H2.
  destruct (float_lt a b), (float_lt b a); rewrite !float_le_coord by done; unfold between.
  - pose proof (proj1 H1 eq_refl). pose proof (proj1 H2 eq_refl). lra.
  - pose proof (proj1 H1 eq_refl). lra.
  - pose proof (proj1 H2 eq_refl). lra.
  - assert (~ (coord a < coord b)%Q) by (intros E%H1; done). assert (~ (coord b < coord a)%Q) by (intros E%H2; done). lra.
Qed.

Lemma featurePointOnSegment_box (p a b : pos2) :
  finite2 p -> finite2 a -> finite2 b -> featurePointOnSegment p a b = true <-> in_box (point a) (point b) (point p).
Proof.
  intros [] [] []. unfold featurePointOnSegment. rewrite andb_true_iff, !fmin_max_between by done. done.
Qed.

Lemma orientation_zero (a b p : pos2) :
  finite2 p -> finite2 a -> finite2 b ->
  (featureOrientation a b p =? 0) && featurePointOnSegment p a b = true <-> on_segment (point a) (point b) (point p).
Proof.
  intros Hp Ha Hb. rewrite andb_true_iff, featurePointOnSegment_box, Z.eqb_eq, <- on_segment_iff by done.
  destruct Hp, Ha, Hb. rewrite featureOrientation_exact by (by rewrite !Forall_cons, Forall_nil).
  destruct (Qsgn_cases (det (point a) (point b) (point p))) as [[Hs ->]|[[Hs ->]|[Hs ->]]]; split; intros [? ?]; split; done || lra.
Qed.

Lemma Qsgn_product (x y : Q) : Qsgn x * Qsgn y < 0 <-> (x * y < 0)%Q.
Proof.
  destruct (Qsgn_cases x) as [[H ->]|[[H ->]|[H ->]]], (Qsgn_cases y) as [[H' ->]|[[H' ->]|[H' ->]]]; split; intros; try lia; nra.
Qed.

(** Two segments are found to intersect exactly when they share a point. *)
Lemma featureSegmentsIntersect_exact (a b c d : pos2) :
  finite2 a -> finite2 b -> finite2 c -> finite2 d ->
  featureSegmentsIntersect a b c d = true <->
  exists q, on_segment (point a) (point b) q /\ on_segment (point c) (point d) q.
Proof.
  intros Ha Hb Hc Hd. rewrite <- segments_meet. unfold featureSegmentsIntersect.
  rewrite <- !orientation_zero by done.
  assert (forall o1 o2 o3 o4, o1 = Qsgn (det (point a) (point b) (point c)) -> o2 = Qsgn (det (point a) (point b) (point d)) ->
    o3 = Qsgn (det (point c) (point d) (point a)) -> o4 = Qsgn (det (point c) (point d) (point b)) ->
    (o1 * o2 <? 0) && (o3 * o4 <? 0) = true <-> (det (point a) (point b) (point c) * det (point a) (point b) (point d) < 0)%Q /\
      (det (point c) (point d) (point a) * det (point c) (point d) (point b) < 0)%Q) as Hcross.
  { intros ? ? ? ? -> -> -> ->. by rewrite andb_true_iff, !Z.ltb_lt, !Qsgn_product. }
  destruct Ha, Hb, Hc, Hd.
  rewrite <- (Hcross (featureOrientation a b c) (featureOrientation a b d) (featureOrientation c d a) (featureOrientation c d b))
    by (apply featureOrientation_exact; by rewrite !Forall_cons, Forall_nil).
  destruct ((featureOrientation a b c =? 0) && _), ((featureOrientation a b d =? 0) && _), ((featureOrientation c d a =? 0) && _),
    ((featureOrientation c d b =? 0) && _); cbn [orb]; intuition congruence.
Qed.

(** A valid extent. *)
Record valid_extent (e : Extent) : Prop := {
  ve_finite : Forall finite [e_minx e; e_miny e; e_maxx e; e_maxy e];
  ve_x : (coord (e_minx e) <= coord (e_maxx e))%Q;
  ve_y : (coord (e_miny e) <= coord (e_maxy e))%Q
}.

Definition in_extent (e : Extent) (q : Q * Q) : Prop :=
  in_rect (coord (e_minx e)) (coord (e_miny e)) (coord (e_maxx e)) (coord (e_maxy e)) q.

(** The edges of a line: each point with its predecessor, the first one too if the line
    is closed. *)
Definition edges (closed : bool) (points : list pos2) : list (pos2 * pos2) :=
  match points with
  | [] => []
  | p :: rest => (if closed then [(default p (last points), p)] else []) ++ combine points rest
  end.

Definition on_edge (q : Q * Q) (pr : pos2 * pos2) : Prop := on_segment (point (fst pr)) (point (snd pr)) q.

Lemma in_combine_second {A C : Type} (x : C) (l : list C) (m : list A) :
  In x l -> (length l <= length m)%nat -> exists y, In (y, x) (combine m l).
Proof.
  revert m. induction l as [|z l IH]; intros [|y m] Hx Hl; cbn in *; try done; try lia.
  destruct Hx as [->|Hx]; [exists y; by left|]. destruct (IH m Hx ltac:(lia)) as [w Hw]. exists w. by right.
Qed.

Section Extent.
Context (e : Extent) (He : valid_extent e).

Lemma ContainsPoint_exact (p : pos2) : finite2 p -> ContainsPoint e p = true <-> in_extent e (point p).
Proof.
  intros [Hx Hy]. pose proof (ve_finite e He) as Hf. rewrite !Forall_cons in Hf. destruct Hf as (? & ? & ? & ? & _).
  unfold ContainsPoint. rewrite !andb_true_iff, !float_le_coord by done. done.
Qed.

Lemma edge_crossed_exact (p r : pos2) :
  finite2 p -> finite2 r ->
  edge_crossed e p r = true <->
  Exists (fun ed => exists q, on_segment (point p) (point r) q /\ on_segment (fst ed) (snd ed) q)
    (rect_edges (coord (e_minx e)) (coord (e_miny e)) (coord (e_maxx e)) (coord (e_maxy e))).
Proof.
  intros Hp Hr. pose proof (ve_finite e He) as Hf. rewrite !Forall_cons in Hf. destruct Hf as (? & ? & ? & ? & _).
  unfold edge_crossed, rect_edges. cbn [extent_edges featureExtentCorners combine tail app take existsb fst snd].
  rewrite !orb_true_iff, !featureSegmentsIntersect_exact by (done || by split).
  rewrite !Exists_cons, Exists_nil. unfold point. cbn [fst snd]. intuition congruence.
Qed.

(** A segment meets the extent when an end is inside or it crosses an edge. *)
Lemma segment_extent (p r : pos2) :
  finite2 p -> finite2 r ->
  ContainsPoint e p = true \/ ContainsPoint e r = true \/ edge_crossed e p r = true <->
  exists q, on_edge q (p, r) /\ in_extent e q.
Proof.
  intros Hp Hr. rewrite !ContainsPoint_exact, edge_crossed_exact by done. unfold in_extent, on_edge. cbn [fst snd].
  symmetry. apply segment_rect; apply He.
Qed.

Lemma line_loop_spec (points : list pos2) (previous : option pos2) :
  line_loop e previous points =
  existsb (ContainsPoint e) points ||
  existsb (fun pr => edge_crossed e (fst pr) (snd pr))
    (match previous with Some q => combine (q :: points) points | None => combine points (tail points) end).
Proof.
  revert previous. induction points as [|p points IH]; intros [q|]; try done.
  - cbn [line_loop combine existsb fst snd]. rewrite IH. cbn [combine].
    destruct (ContainsPoint e p), (edge_crossed e q p), (existsb (ContainsPoint e) points); cbn; try done.
  - cbn [line_loop tail existsb fst snd]. rewrite IH. destruct points as [|r points]; [by destruct (ContainsPoint e p)|].
    destruct (ContainsPoint e p), (existsb (ContainsPoint e) (r :: points)); done.
Qed.

(** A line that is not a single point is found to meet the extent exactly when a point
    of one of its edges is in it. *)
Lemma featureLineIntersects_exact (points : list pos2) (closed : bool) :
  Forall finite2 points -> points <> [] -> (closed = false -> length points <> 1%nat) ->
  featureLineIntersects points e closed = true <-> exists q, Exists (on_edge q) (edges closed points) /\ in_extent e q.
Proof.
  intros Hf Hne Hone. destruct points as [|p rest]; [done|]. clear Hne. cbn [featureLineIntersects].
  assert (exists l, last (p :: rest) = Some l /\ finite2 l) as (l & El & Hl).
  { destruct (last (p :: rest)) as [l|] eqn:El; [|by apply last_None in El]. exists l. split; [done|].
    rewrite Forall_forall in Hf. apply Hf, last_Some_elem_of, El. }
  assert (edges closed (p :: rest) = match (if closed then last (p :: rest) else None) with
    | Some q => combine (q :: p :: rest) (p :: rest) | None => combine (p :: rest) rest end) as Ee.
  { unfold edges. rewrite El. by destruct closed. }
  rewrite line_loop_spec. cbn [tail]. rewrite <- Ee, orb_true_iff, !existsb_exists.
  assert (forall pr, In pr (edges closed (p :: rest)) -> In (fst pr) (p :: rest) /\ In (snd pr) (p :: rest)) as Hin.
  { intros [x y] Hi. rewrite Ee in Hi. destruct closed; [rewrite El in Hi|];
      pose proof (in_combine_l _ _ _ _ Hi) as Hx; pose proof (in_combine_r _ _ _ _ Hi) as Hy; cbn [fst snd].
    - split; [|done]. destruct Hx as [<-|Hx]; [|done]. by apply list_elem_of_In, last_Some_elem_of.
    - split; [done|by right]. }
  assert (forall x, In x (p :: rest) -> finite2 x) as Hfin by (intros x Hx; rewrite Forall_forall in Hf; by apply Hf, list_elem_of_In).
  assert (forall x, In x (p :: rest) -> exists pr, In pr (edges closed (p :: rest)) /\ (x = fst pr \/ x = snd pr)) as Hend.
  { intros x Hx. rewrite Ee. destruct closed.
    - rewrite El. destruct (in_combine_second x (p :: rest) (l :: p :: rest)) as [y Hy]; [done|cbn; lia|]. exists (y, x). auto.
    - destruct rest as [|r rest]; [by destruct (Hone eq_refl)|]. destruct Hx as [<-|Hx]; [exists (p, r); split; [by left|by left]|].
      destruct (in_combine_second x (r :: rest) (p :: r :: rest)) as [y Hy]; [done|cbn; lia|]. exists (y, x). auto. }
  split.
  - intros [(x & Hx & Hc)|(pr & Hpr & Hc)].
    + destruct (Hend x Hx) as ([y z] & Hpr & Hyz). destruct (Hin _ Hpr) as [H1%Hfin H2%Hfin].
      destruct (proj1 (segment_extent y z H1 H2)) as (q & Hq & Hr); [destruct Hyz as [->| ->]; auto|].
      exists q. split; [|done]. apply Exists_exists. exists (y, z). by rewrite list_elem_of_In.
    + destruct (Hin _ Hpr) as [H1%Hfin H2%Hfin]. destruct (proj1 (segment_extent _ _ H1 H2)) as (q & Hq & Hr); [by auto|].
      exists q. split; [|done]. apply Exists_exists. exists pr. rewrite list_elem_of_In. by destruct pr.
  - intros (q & (pr & Hpr & Hq)%Exists_exists & Hr). apply list_elem_of_In in Hpr. destruct (Hin _ Hpr) as [I1 I2].
    pose proof (proj2 (segment_extent (fst pr) (snd pr) (Hfin _ I1) (Hfin _ I2))) as [Hs|[Hs|Hs]]; [by exists q|eauto..].
Qed.
End Extent.

(** ** Rings *)

(** The edge crosses the height of the point, at a place to the right of it. *)
Definition crosses_right (p : Q * Q) (a b : Q * Q) : Prop :=
  ((snd p < snd a)%Q /\ ~ (snd p < snd b)%Q \/ ~ (snd p < snd a)%Q /\ (snd p < snd b)%Q) /\
  (fst p < fst a + (snd p - snd a) / (snd b - snd a) * (fst b - fst a))%Q.

#[export] Instance crosses_right_dec (p a b : Q * Q) : Decision (crosses_right p a b).
Proof.
  assert (forall x y : Q, Decision (x < y)%Q) as Hlt.
  { intros x y. destruct (Qlt_le_dec x y) as [H|H]; [by left|right; lra]. }
  apply _.
Defined.

(** A point is in a ring when it lies on an edge, or an odd number of edges crosses the
    ray to the right of it. *)
Definition odd_crossings (p : Q * Q) (es : list ((Q * Q) * (Q * Q))) : bool :=
  Nat.odd (length (filter (fun ab => crosses_right p (fst ab) (snd ab)) es)).

Definition in_ring (p : pos2) (ring : list pos2) : Prop :=
  Exists (on_edge (point p)) (ring_edges ring) \/
  odd_crossings (point p) (map (fun ab => (point (fst ab), point (snd ab))) (ring_edges ring)) = true.

(** Where an edge crosses the height of a point, the sign of the determinant tells on
    which side of the point. *)
Lemma det_side (a b p : Q * Q) :
  (snd p < snd a)%Q /\ ~ (snd p < snd b)%Q \/ ~ (snd p < snd a)%Q /\ (snd p < snd b)%Q ->
  ~ on_segment a b p ->
  let x := (fst a + (snd p - snd a) / (snd b - snd a) * (fst b - fst a))%Q in
  ~ (det a b p == 0)%Q /\ ((fst p < x)%Q <-> ((0 < det a b p)%Q <-> (snd a < snd b)%Q)).
Proof.
  intros Hs Hoff x. assert (~ snd b - snd a == 0)%Q as HD by lra.
  assert (det a b p == (x - fst p) * (snd b - snd a))%Q as Ed by (unfold det, x; field; done).
  assert (~ det a b p == 0)%Q as Hd0.
  { intros E. apply Hoff, on_segment_iff. split; [done|]. assert (between (snd a) (snd b) (snd p)) as Hy by (unfold between; lra). split; [|done].
    assert (fst p == x)%Q as Ex by (rewrite E in Ed; symmetry in Ed; apply Qmult_integral in Ed as [?|?]; [lra|done]).
    pose proof (param_between (fst a) (fst b) _ (between_param (snd a) (snd b) (snd p) ltac:(lra) Hy)) as Hx. fold x in Hx.
    unfold between in *. by rewrite Ex. }
  split; [done|]. set (D := (snd b - snd a)%Q) in *. destruct (Qlt_le_dec (snd a) (snd b)) as [L|L].
  - assert (0 < D)%Q as HD0 by (unfold D; lra). split; [intros; split; [done|intros; nra]|]. intros [_ Hp]. specialize (Hp L). nra.
  - assert (D < 0)%Q as HD0 by (unfold D in *; lra). split; [intros; split; [intros; nra|lra]|].
    intros [Hp _]. assert (~ (0 < det a b p)%Q) by (intros Hq%Hp; lra). nra.
Qed.

(** The test of the code for an edge that does not hold the point. *)
Lemma crossing_test (p a b : pos2) :
  finite2 p -> finite2 a -> finite2 b -> ~ on_segment (point a) (point b) (point p) ->
  negb (eqb (float_lt (snd p) (snd a)) (float_lt (snd p) (snd b))) &&
  eqb (0 <? featureOrientation a b p) (float_lt (snd a) (snd b)) = true <->
  crosses_right (point p) (point a) (point b).
Proof.
  intros [Px Py] [Ax Ay] [Bx By] Hoff. rewrite featureOrientation_exact by (by rewrite !Forall_cons, Forall_nil).
  pose proof (float_lt_coord _ _ Py Ay) as L1. pose proof (float_lt_coord _ _ Py By) as L2. pose proof (float_lt_coord _ _ Ay By) as L3.
  change (coord (snd p)) with (snd (point p)) in *. change (coord (snd a)) with (snd (point a)) in *. change (coord (snd b)) with (snd (point b)) in *.
  pose proof (det_side (point a) (point b) (point p)) as Hd. unfold crosses_right.
  set (d := det _ _ _) in *. set (x := (_ + _)%Q) in *.
  assert ((0 <? Qsgn d) = true <-> (0 < d)%Q) as Ls.
  { destruct (Qsgn_cases d) as [[H ->]|[[H ->]|[H ->]]]; split; intros; done || lra. }
  assert (eqb (0 <? Qsgn d) (float_lt (snd a) (snd b)) = true <-> ((0 < d)%Q <-> (snd (point a) < snd (point b))%Q)) as Le.
  { rewrite <- Ls, <- L3. destruct (0 <? Qsgn d), (float_lt (snd a) (snd b)); cbn; intuition congruence. }
  rewrite andb_true_iff, negb_true_iff, eqb_false_iff, Le, <- L1, <- L2. rewrite <- L1, <- L2 in Hd.
  set (s := _ \/ _) in *. assert (float_lt (snd p) (snd a) <> float_lt (snd p) (snd b) <-> s) as ->.
  { unfold s. destruct (float_lt (snd p) (snd a)), (float_lt (snd p) (snd b)); intuition congruence. }
  split; intros [Hs Hx]; destruct (Hd Hs Hoff) as [_ E]; (split; [done|by apply E]).
Qed.

Lemma odd_crossings_cons (p a b : Q * Q) (es : list ((Q * Q) * (Q * Q))) :
  odd_crossings p ((a, b) :: es) = if decide (crosses_right p a b) then negb (odd_crossings p es) else odd_crossings p es.
Proof.
  unfold odd_crossings. rewrite filter_cons. cbn [fst snd]. destruct (decide _); [|done].
  cbn [length]. by rewrite Nat.odd_succ, <- Nat.negb_odd.
Qed.

Lemma in_ring_loop_spec (p : pos2) (es : list (pos2 * pos2)) (inside : bool) :
  finite2 p -> Forall (fun ab => finite2 (fst ab) /\ finite2 (snd ab)) es ->
  in_ring_loop p es inside = true <->
  Exists (on_edge (point p)) es \/
  xorb inside (odd_crossings (point p) (map (fun ab => (point (fst ab), point (snd ab))) es)) = true.
Proof.
  intros Hp Hes. revert inside. induction Hes as [|[a b] es [Ha Hb] Hes IH]; intros inside.
  - cbn. rewrite Exists_nil, xorb_false_r. tauto.
  - cbn [in_ring_loop fst snd] in *. rewrite Exists_cons. unfold on_edge at 1. cbn [fst snd].
    pose proof (orientation_zero a b p Hp Ha Hb) as Ho. destruct (_ && _) eqn:E0; [tauto|].
    assert (~ on_segment (point a) (point b) (point p)) as Hoff by (intros H%Ho; done).
    pose proof (crossing_test p a b Hp Ha Hb Hoff) as Hc. cbn [map fst snd]. rewrite odd_crossings_cons.
    assert (forall b1 b2 (x y : bool), (if eqb b1 b2 then x else if eqb (0 <? featureOrientation a b p) (float_lt (snd a) (snd b)) then y else x) =
      if negb (eqb b1 b2) && eqb (0 <? featureOrientation a b p) (float_lt (snd a) (snd b)) then y else x) as Hif
      by (intros [] [] ? ?; cbn; done).
    rewrite Hif. destruct (negb _ && _).
    + rewrite decide_True, IH by (by apply Hc). destruct inside, (odd_crossings _ _); cbn; tauto.
    + rewrite decide_False, IH by (intros H%Hc; done). tauto.
Qed.

Lemma featurePointInRing_exact (p : pos2) (ring : list pos2) :
  finite2 p -> Forall finite2 ring -> featurePointInRing p ring = true <-> in_ring p ring.
Proof.
  intros Hp Hr. unfold featurePointInRing, in_ring. rewrite in_ring_loop_spec; [by rewrite xorb_false_l|done|].
  rewrite Forall_forall in Hr. apply Forall_forall. intros [a b] Hi%list_elem_of_In. unfold ring_edges in Hi.
  pose proof (in_combine_l _ _ _ _ Hi) as H1. pose proof (in_combine_r _ _ _ _ Hi) as H2. cbn [fst snd].
  split; apply Hr, list_elem_of_In; [done|]. destruct ring as [|x ring]; [done|]. cbn in H2.
  apply in_app_or in H2 as [H2|[<-|[]]]; [by right|by left].
Qed.

(** ** Geometries *)

Definition any {A : Type} (P : A -> Prop) (l : list A) : Prop := foldr (fun a acc => P a \/ acc) False l.

Lemma any_Exists {A : Type} (P : A -> Prop) (l : list A) : any P l <-> Exists P l.
Proof. induction l as [|a l IH]; cbn; [by rewrite Exists_nil|]. by rewrite Exists_cons, <- IH. Qed.

(** The points of a geometry: of a polygon, those of the edges of its rings. *)
Fixpoint covers (g : geometry) (q : Q * Q) : Prop :=
  match g with
  | Point p => same q (point p)
  | MultiPoint ps => Exists (fun p => same q (point p)) ps
  | LineString ps => Exists (on_edge q) (edges false ps)
  | MultiLineString ls => Exists (fun ps => Exists (on_edge q) (edges false ps)) ls
  | Polygon rs => Exists (fun ring => Exists (on_edge q) (edges true ring)) rs
  | MultiPolygon gs => Exists (Exists (fun ring => Exists (on_edge q) (edges true ring))) gs
  | Collection gs => any (fun c => match c with Some c => covers c q | None => False end) gs
  | _ => False
  end.

(** A corner of the extent lies in the outer ring and in no hole. *)
Definition rings_enclose (e : Extent) (rs : list (list pos2)) : Prop :=
  match rs with
  | [] => False
  | outer :: holes => Exists (fun c => in_ring c outer /\ ~ Exists (in_ring c) holes) (featureExtentCorners e)
  end.

Fixpoint encloses (e : Extent) (g : geometry) : Prop :=
  match g with
  | Polygon rs => rings_enclose e rs
  | MultiPolygon gs => Exists (rings_enclose e) gs
  | Collection gs => any (fun c => match c with Some c => encloses e c | None => False end) gs
  | _ => False
  end.

Definition meets (e : Extent) (g : geometry) : Prop := (exists q, covers g q /\ in_extent e q) \/ encloses e g.

Lemma spatial_check_Ok (b : bool) (t : string) : spatial_check b t = Ok tt <-> b = true.
Proof. unfold spatial_check. by destruct b. Qed.

Lemma validateFeaturePoints_Ok (ps : list pos2) : validateFeaturePoints ps = Ok tt <-> Forall finite2 ps.
Proof.
  unfold validateFeaturePoints. rewrite spatial_check_Ok, forallb_Forall_true. apply Forall_proper; [|done].
  intros p. by rewrite andb_true_iff.
Qed.

Lemma validate_line_Ok (ps : list pos2) : validate_line ps = Ok tt <-> blen ps <> 1 /\ Forall finite2 ps.
Proof.
  unfold validate_line. rewrite rbind_unit, spatial_check_Ok, validateFeaturePoints_Ok, negb_true_iff, Z.eqb_neq. done.
Qed.

Lemma validate_rings_Ok (rs : list (list pos2)) :
  validate_rings rs = Ok tt <-> Forall (fun r => 3 <= blen r /\ Forall finite2 r) rs.
Proof.
  unfold validate_rings. rewrite rfold_check. apply Forall_proper; [|done]. intros r.
  unfold validate_ring. by rewrite rbind_unit, spatial_check_Ok, validateFeaturePoints_Ok, Z.leb_le.
Qed.

Lemma existsb_Exists {A : Type} (f : A -> bool) (P : A -> Prop) (l : list A) :
  Forall (fun x => f x = true <-> P x) l -> existsb f l = true <-> Exists P l.
Proof.
  induction 1 as [|x l Hx _ IH]; cbn; [by rewrite Exists_nil|]. by rewrite orb_true_iff, Exists_cons, Hx, IH.
Qed.

Lemma Exists_point {A : Type} (R : A -> Q * Q -> Prop) (T : Q * Q -> Prop) (l : list A) :
  (exists q, Exists (fun x => R x q) l /\ T q) <-> Exists (fun x => exists q, R x q /\ T q) l.
Proof.
  rewrite Exists_exists. setoid_rewrite Exists_exists. firstorder.
Qed.

Lemma Exists_or {A : Type} (P R : A -> Prop) (l : list A) : Exists (fun x => P x \/ R x) l <-> Exists P l \/ Exists R l.
Proof. rewrite !Exists_exists. firstorder. Qed.

Section Meets.
Context (e : Extent) (He : valid_extent e).

Lemma corners_finite : Forall finite2 (featureExtentCorners e).
Proof.
  pose proof (ve_finite e He) as Hf. rewrite !Forall_cons in Hf. destruct Hf as (? & ? & ? & ? & _).
  unfold featureExtentCorners, finite2. rewrite !Forall_cons, Forall_nil. done.
Qed.

Lemma point_meets (p : pos2) :
  finite2 p -> ContainsPoint e p = true <-> (exists q, same q (point p) /\ in_extent e q) \/ False.
Proof.
  intros Hp. rewrite ContainsPoint_exact by done. split; [intros; left; exists (point p); by split|].
  intros [(q & [E1 E2] & Hq)|[]]. unfold in_extent, in_rect in *. by rewrite <- E1, <- E2.
Qed.

(** Parts that are all empty do not meet anything. *)
Lemma nonempty_parts {A : Type} (em f : A -> bool) (l : list A) :
  (forall a, f a = true -> em a = false) -> negb (forallb em l) && (forallb em l || existsb f l) = existsb f l.
Proof.
  intros Hf. induction l as [|a l IH]; cbn; [done|]. specialize (Hf a). rewrite <- IH.
  destruct (em a), (f a); cbn; try done; [by discriminate (Hf eq_refl)|by destruct (forallb em l)].
Qed.

Lemma line_meets (ps : list pos2) :
  blen ps <> 1 -> Forall finite2 ps ->
  negb (is_nil ps) && featureLineIntersects ps e false = true <-> exists q, Exists (on_edge q) (edges false ps) /\ in_extent e q.
Proof.
  intros H1 Hf. destruct ps as [|p ps]; [split; [done|]; intros (q & H & _); by apply Exists_nil in H|].
  cbn [is_nil negb andb]. apply featureLineIntersects_exact; try done. intros _ E. unfold blen in H1. rewrite E in H1. lia.
Qed.

Lemma polygon_meets (rs : list (list pos2)) :
  Forall (fun r => 3 <= blen r /\ Forall finite2 r) rs ->
  negb (is_nil rs) && featurePolygonIntersects rs e = true <->
  (exists q, Exists (fun ring => Exists (on_edge q) (edges true ring)) rs /\ in_extent e q) \/ rings_enclose e rs.
Proof.
  intros Hr. destruct rs as [|outer holes]; [split; [done|]; intros [(q & H & _)|[]]; by apply Exists_nil in H|].
  cbn [is_nil negb andb featurePolygonIntersects rings_enclose]. rewrite orb_true_iff, Exists_point.
  rewrite (existsb_Exists _ (fun ring => exists q, Exists (on_edge q) (edges true ring) /\ in_extent e q)).
  2: { eapply Forall_impl; [exact Hr|]. intros r [H3 Hf]. apply featureLineIntersects_exact; try done. intros ->. by rewrite blen_nil in H3. }
  rewrite (existsb_Exists _ (fun c => in_ring c outer /\ ~ Exists (in_ring c) holes)); [done|].
  eapply Forall_impl; [exact corners_finite|]. intros c Hc. apply Forall_cons in Hr as [[_ Ho] Hh].
  rewrite andb_true_iff, negb_true_iff, featurePointInRing_exact, <- not_true_iff_false by done.
  rewrite (existsb_Exists _ (in_ring c)); [done|]. eapply Forall_impl; [exact Hh|]. intros r [_ Hf]. by apply featurePointInRing_exact.
Qed.

(** A geometry that is not empty is found to meet the extent exactly when it does. *)
Lemma geometry_intersects_nonempty (g : geometry) :
  validate_geometry g = Ok tt -> negb (geometry_empty g) && geometry_intersects e g = true <-> meets e g.
Proof.
  unfold meets. induction g as [g Hg|gs IH] using geometry_ind; intros Hv.
  - destruct g; try (by destruct (Hg gs)); cbn [validate_geometry geometry_empty geometry_intersects covers encloses] in *; try done; clear Hg.
    + apply validateFeaturePoints_Ok, Forall_cons in Hv as [Hv _]. by apply point_meets.
    + apply validate_line_Ok in Hv as [? ?]. rewrite <- line_meets by done. destruct (is_nil ps); cbn; intuition congruence.
    + apply validate_rings_Ok in Hv. rewrite <- polygon_meets by done. destruct (is_nil rs); cbn; intuition congruence.
    + apply validateFeaturePoints_Ok in Hv. rewrite Exists_point, <- (existsb_Exists (ContainsPoint e)).
      * destruct ps; cbn; intuition congruence.
      * eapply Forall_impl; [exact Hv|]. intros p Hp. rewrite point_meets by done. tauto.
    + apply rfold_check in Hv. rewrite Exists_point, <- (existsb_Exists (fun l => negb (is_nil l) && featureLineIntersects l e false)).
      * rewrite nonempty_parts; [intuition congruence|by intros []].
      * eapply Forall_impl; [exact Hv|]. intros l [? ?]%validate_line_Ok. by apply line_meets.
    + apply rfold_check in Hv. rewrite Exists_point, <- Exists_or, <- (existsb_Exists (fun rs => negb (is_nil rs) && featurePolygonIntersects rs e)).
      * rewrite nonempty_parts; [done|by intros []].
      * eapply Forall_impl; [exact Hv|]. intros rs H%validate_rings_Ok. by apply polygon_meets.
  - cbn [validate_geometry geometry_empty geometry_intersects covers encloses] in *. apply rfold_check in Hv.
    rewrite nonempty_parts by (intros [c|]; [destruct (geometry_empty c)|]; done).
    setoid_rewrite any_Exists. rewrite Exists_point, <- Exists_or. apply existsb_Exists.
    rewrite Forall_forall in *. intros [c|] Hc; [|split; [done|]; by intros [(q & [] & _)|[]]].
    exact (IH (Some c) Hc (Hv (Some c) Hc)).
Qed.

Lemma geometry_intersects_exact (g : geometry) :
  validate_geometry g = Ok tt -> geometry_intersects e g = true <-> geometry_empty g = true \/ meets e g.
Proof.
  intros H%geometry_intersects_nonempty. destruct (geometry_empty g) eqn:E; [|cbn [negb andb] in H; rewrite H; intuition congruence].
  split; [by left|]. intros _. destruct g; cbn [geometry_intersects]; by rewrite E.
Qed.
End Meets.

(** The checks of the bounds. *)
Lemma extent_Ok (g : option geometry) (e : Extent) (b : bool) :
  FeatureGeometryIntersectsExtent g (Some e) = Ok b <->
  valid_extent e /\ validateFeatureGeometry g = Ok tt /\ b = featureIntersects g e.
Proof.
  unfold FeatureGeometryIntersectsExtent. rewrite !rbind_unit, !spatial_check_Ok, forallb_Forall_true, negb_true_iff, orb_false_iff.
  assert (Forall (fun x => featureFinite x = true) [e_minx e; e_miny e; e_maxx e; e_maxy e] /\
    float_lt (e_maxx e) (e_minx e) = false /\ float_lt (e_maxy e) (e_miny e) = false <-> valid_extent e) as ->.
  { split.
    - intros (Hf & Hx & Hy). pose proof Hf as Hf'. rewrite !Forall_cons in Hf'. destruct Hf' as (? & ? & ? & ? & _).
      split; [done|..]; apply Qnot_lt_le; intros Hlt%float_lt_coord; try done; congruence.
    - intros [Hf Hx Hy]. pose proof Hf as Hf'. rewrite !Forall_cons in Hf'. destruct Hf' as (? & ? & ? & ? & _).
      split; [done|]. split; apply not_true_iff_false; rewrite float_lt_coord by done; lra. }
  intuition congruence.
Qed.

(** C15. The test of a geometry against an extent gives an answer exactly when the bounds
    are finite and ordered and the geometry is valid.  Then a geometry that is empty
    matches, and any other does exactly when a point of it lies in the closed rectangle,
    exact in the given float64 coordinates, or the rectangle lies inside a polygon: a
    corner in the outer ring and in no hole. *)
Theorem FeatureGeometryIntersectsExtent_exact (g : geometry) (e : Extent) (b : bool) :
  FeatureGeometryIntersectsExtent (Some g) (Some e) = Ok b <->
  valid_extent e /\ validateFeatureGeometry (Some g) = Ok tt /\
  (b = true <-> geometry_empty g = true \/ meets e g).
Proof.
  rewrite extent_Ok. split; intros (He & Hv & Hb); (split; [done|split; [done|]]);
    pose proof (geometry_intersects_exact e He g Hv) as Hg; cbn [featureIntersects] in *; [by subst|].
  apply eq_true_iff_eq. by rewrite Hb.
Qed.
