(* ===== verification/FeatureSpatial.v ===== *)
(** * provider/geometrycodec/feature_intersection3d.go: geometries and boxes

    Validation of geometries with and without height, and whether one meets a box of
    space.  The code computes with exact rationals; the clipping of a segment against a
    box is shown to find exactly the segments with a point in the box. *)

From S2P Require Import Prelude GoText Float64 FloatArith Plane RawGeom FeatureExtent.

#[local] Open Scope Z_scope.

(** ** Vectors *)

Abbreviation vec := (Q * Q * Q)%type.

Definition spatialVectorOf (p : pos3) : vec := let '(x, y, z) := p in (coord x, coord y, coord z).

Definition comp (v : vec) (k : nat) : Q := let '(x, y, z) := v in match k with 0%nat => x | 1%nat => y | _ => z end.

Definition spatialDifference (a b : vec) : vec :=
  ((comp a 0 - comp b 0)%Q, (comp a 1 - comp b 1)%Q, (comp a 2 - comp b 2)%Q).

Definition spatialDot (a b : vec) : Q := (0 + comp a 0 * comp b 0 + comp a 1 * comp b 1 + comp a 2 * comp b 2)%Q.

Definition cross_product (d b : vec) : vec :=
  let c k := (comp d ((k + 1) mod 3) * comp b ((k + 2) mod 3) - comp d ((k + 2) mod 3) * comp b ((k + 1) mod 3))%Q in
  (c 0%nat, c 1%nat, c 2%nat).

Definition nonzero (v : vec) : bool :=
  negb (Qsgn (comp v 0) =? 0) || negb (Qsgn (comp v 1) =? 0) || negb (Qsgn (comp v 2) =? 0).

(** The bounds: minima and maxima of the three axes. *)
Record Box := mkBox { box_min : pos3; box_max : pos3 }.

Definition axis3 (p : pos3) (k : nat) : f64 := let '(x, y, z) := p in match k with 0%nat => x | 1%nat => y | _ => z end.

(** ** Segments *)

(** The loop over the axes: start, difference, minimum and maximum of each. *)
Fixpoint clip_loop (axes : list (Q * Q * (Q * Q))) (lo hi : Q) : bool :=
  match axes with
  | [] => true
  | (x, d, (min, max)) :: rest =>
      if Qsgn d =? 0 then
        if (Qsgn (x - min) <? 0) || (0 <? Qsgn (x - max)) then false else clip_loop rest lo hi
      else
        let u := ((min - x) / d)%Q in
        let v := ((max - x) / d)%Q in
        let '(u, v) := if 0 <? Qsgn (u - v) then (v, u) else (u, v) in
        let lo := if 0 <? Qsgn (u - lo) then u else lo in
        let hi := if Qsgn (v - hi) <? 0 then v else hi in
        if 0 <? Qsgn (lo - hi) then false else clip_loop rest lo hi
  end.

Definition spatialSegmentBox (a b : pos3) (box : Box) : bool :=
  clip_loop
    (map (fun k => (coord (axis3 a k), (coord (axis3 b k) - coord (axis3 a k))%Q, (coord (axis3 (box_min box) k), coord (axis3 (box_max box) k))))
       [0; 1; 2]%nat) 0 1.

(** ** Polygons *)

Record spatialPlane := mkPlane { pl_origin : vec; pl_normal : vec; pl_drop : nat }.

(** The first two directions from the origin that span a plane, and their normal. *)
Fixpoint find_normal (origin : vec) (direction : option vec) (points : list pos3) : option vec :=
  match points with
  | [] => None
  | p :: rest =>
      let b := spatialDifference (spatialVectorOf p) origin in
      match direction with
      | None => if nonzero b then find_normal origin (Some b) rest else find_normal origin None rest
      | Some d =>
          let normal := cross_product d b in
          if nonzero normal then Some normal else find_normal origin (Some d) rest
      end
  end.

Definition spatialPolygonPlane (p : list (list pos3)) : result spatial_error spatialPlane :=
  match p with
  | (first :: ring) :: _ =>
      let origin := spatialVectorOf first in
      match find_normal origin None ring with
      | None => Err (SpatialUnsupported (B "unsupported feature spatial geometry: degenerate XYZ polygon plane"))
      | Some normal =>
          let drop := if negb (Qsgn (comp normal 0) =? 0) then 0%nat else if negb (Qsgn (comp normal 1) =? 0) then 1%nat else 2%nat in
          if forallb (forallb (fun q => Qsgn (spatialDot normal (spatialDifference (spatialVectorOf q) origin)) =? 0)) p then
            Ok (mkPlane origin normal drop)
          else Err (SpatialUnsupported (B "unsupported feature spatial geometry: nonplanar XYZ polygon"))
      end
  | _ => Err (SpatialUnsupported (B "unsupported feature spatial geometry: degenerate XYZ polygon plane"))
  end.

(** The projection that drops one axis. *)
Definition project (drop : nat) (v : vec) : Q * Q := (comp v ((drop + 1) mod 3), comp v ((drop + 2) mod 3)).

Definition cmp_between (q u v : Q) : bool := Qsgn (q - u) * Qsgn (q - v) <=? 0.

(** The loop over the edges of a projected ring: whether the point is inside, and
    whether it is on an edge. *)
Fixpoint spatial_ring_loop (p : Q * Q) (es : list ((Q * Q) * (Q * Q))) (inside : bool) : bool * bool :=
  match es with
  | [] => (inside, false)
  | (a, b) :: rest =>
      let cross := ((fst b - fst a) * (snd p - snd a) - (snd b - snd a) * (fst p - fst a))%Q in
      if (Qsgn cross =? 0) && cmp_between (fst p) (fst a) (fst b) && cmp_between (snd p) (snd a) (snd b) then (false, true)
      else if negb (eqb (0 <? Qsgn (snd a - snd p)) (0 <? Qsgn (snd b - snd p))) then
        if 0 <? Qsgn cross * Qsgn (snd b - snd a) then spatial_ring_loop p rest (negb inside) else spatial_ring_loop p rest inside
      else spatial_ring_loop p rest inside
  end.

Definition projected_edges (drop : nat) (ring : list pos3) : list ((Q * Q) * (Q * Q)) :=
  map (fun ab => (project drop (spatialVectorOf (fst ab)), project drop (spatialVectorOf (snd ab)))) (ring_edges ring).

Definition spatialPointRing (point : vec) (ring : list pos3) (drop : nat) : bool * bool :=
  spatial_ring_loop (project drop point) (projected_edges drop ring) false.

Fixpoint holes_loop (point : vec) (holes : list (list pos3)) (drop : nat) : bool :=
  match holes with
  | [] => true
  | ring :: rest =>
      let '(inside, boundary) := spatialPointRing point ring drop in
      if boundary then true else if inside then false else holes_loop point rest drop
  end.

Definition spatialPointPolygon (point : vec) (p : list (list pos3)) (drop : nat) : bool :=
  match p with
  | [] => false
  | outer :: holes =>
      let '(inside, boundary) := spatialPointRing point outer drop in
      if boundary then true else if negb inside then false else holes_loop point holes drop
  end.

(** The corner of the box whose bits say for each axis whether it is the maximum. *)
Definition box_corner (box : Box) (mask : nat) : vec :=
  let c k := coord (if Nat.testbit mask k then axis3 (box_max box) k else axis3 (box_min box) k) in
  (c 0%nat, c 1%nat, c 2%nat).

(** The edges of the box, from each corner along the axes that are at their minimum. *)
Definition box_edges (box : Box) : list (vec * vec) :=
  flat_map (fun mask =>
    flat_map (fun k => if Nat.testbit mask k then [] else [(box_corner box mask, box_corner box (Nat.setbit mask k))]) [0; 1; 2]%nat)
    (seq 0 8).

Definition along3 (a b : vec) (t : Q) : vec :=
  let c k := (comp a k + t * (comp b k - comp a k))%Q in
  (c 0%nat, c 1%nat, c 2%nat).

Definition plane_value (plane : spatialPlane) (v : vec) : Q := spatialDot (pl_normal plane) (spatialDifference v (pl_origin plane)).

Definition edge_pierces (plane : spatialPlane) (p : list (list pos3)) (av bv : vec) : bool :=
  let fa := plane_value plane av in
  let fb := plane_value plane bv in
  if (Qsgn fa =? 0) && spatialPointPolygon av p (pl_drop plane) then true
  else if (Qsgn fb =? 0) && spatialPointPolygon bv p (pl_drop plane) then true
  else if 0 <=? Qsgn fa * Qsgn fb then false
  else spatialPointPolygon (along3 av bv (fa / (fa - fb))) p (pl_drop plane).

(** A polygon here was validated, so it has a plane. *)
Definition spatialPolygonBox (p : list (list pos3)) (box : Box) : bool :=
  existsb (fun ring => existsb (fun ab => spatialSegmentBox (fst ab) (snd ab) box) (ring_edges ring)) p ||
  match spatialPolygonPlane p with
  | Ok plane => existsb (fun e => edge_pierces plane p (fst e) (snd e)) (box_edges box)
  | Err _ => false
  end.

(** ** Geometries *)

Fixpoint spatial_empty (g : geometry) : bool :=
  match g with
  | MultiPointZ ps => is_nil ps
  | LineStringZ ps => is_nil ps
  | MultiLineStringZ ls => forallb is_nil ls
  | PolygonZ rs => is_nil rs
  | MultiPolygonZ gs => forallb is_nil gs
  | Collection gs => forallb (fun c => match c with Some c => spatial_empty c | None => true end) gs
  | PointZ _ => false
  | _ => geometry_empty g
  end.

Definition spatialEmpty (g : option geometry) : bool := match g with Some g => spatial_empty g | None => true end.

Definition validateSpatialPoints (ps : list pos3) : result spatial_error unit :=
  spatial_check (forallb (fun p => forallb featureFinite [axis3 p 0; axis3 p 1; axis3 p 2]) ps) "feature geometry contains nonfinite coordinates".

Definition validate_line3 (ps : list pos3) : result spatial_error unit :=
  check? spatial_check (negb (blen ps =? 1)) "feature line requires at least two coordinates" in
  validateSpatialPoints ps.

Definition validate_polygon3 (rs : list (list pos3)) : result spatial_error unit :=
  match rs with
  | [] => Ok tt
  | _ =>
      check? rfold (fun ring _ =>
               check? spatial_check (3 <=? blen ring) "feature polygon ring requires at least three coordinates" in
               validateSpatialPoints ring) rs tt in
      let? _ := spatialPolygonPlane rs in
      Ok tt
  end.

Fixpoint validate_spatial (g : geometry) : result spatial_error unit :=
  match g with
  | PointZ p => validateSpatialPoints [p]
  | MultiPointZ ps => validateSpatialPoints ps
  | LineStringZ ps => validate_line3 ps
  | MultiLineStringZ ls => rfold (fun l _ => validate_line3 l) ls tt
  | PolygonZ rs => validate_polygon3 rs
  | MultiPolygonZ gs => rfold (fun rs _ => validate_polygon3 rs) gs tt
  | Collection gs => rfold (fun c _ => match c with Some c => validate_spatial c | None => Ok tt end) gs tt
  | _ => validate_geometry g
  end.

Definition ValidateFeatureSpatialGeometry (g : option geometry) : result spatial_error unit :=
  match g with Some g => validate_spatial g | None => Ok tt end.

(** The horizontal bounds of a box. *)
Definition box_extent (box : Box) : Extent :=
  mkExtent (axis3 (box_min box) 0) (axis3 (box_min box) 1) (axis3 (box_max box) 0) (axis3 (box_max box) 1).

Definition line_box (ps : list pos3) (box : Box) : bool :=
  existsb (fun ab => spatialSegmentBox (fst ab) (snd ab) box) (combine ps (tail ps)).

Fixpoint spatial_intersects (box : Box) (g : geometry) : bool :=
  match g with
  | PointZ p => spatialSegmentBox p p box
  | MultiPointZ ps => existsb (fun p => spatialSegmentBox p p box) ps
  | LineStringZ ps => line_box ps box
  | MultiLineStringZ ls => existsb (fun l => negb (is_nil l) && line_box l box) ls
  | PolygonZ rs => spatialPolygonBox rs box
  | MultiPolygonZ gs => existsb (fun rs => negb (is_nil rs) && spatialPolygonBox rs box) gs
  | Collection gs =>
      existsb (fun c => match c with Some c => negb (spatial_empty c) && spatial_intersects box c | None => false end) gs
  | _ => featureIntersects (Some g) (box_extent box)
  end.

Definition FeatureGeometryIntersectsExtent3D (g : option geometry) (bounds : option Box) : result spatial_error bool :=
  check? match bounds with
         | Some box =>
             rfold (fun k _ =>
               check? spatial_check (featureFinite (axis3 (box_min box) k)) "feature bounds contain nonfinite coordinates" in
               spatial_check (negb (float_lt (axis3 (box_max box) k) (axis3 (box_min box) k))) "feature bounds minimum exceeds maximum")
               [0; 1; 2]%nat tt
         | None => Ok tt
         end in
  check? match bounds with
         | Some box =>
             rfold (fun k _ => spatial_check (featureFinite (axis3 (box_max box) k)) "feature bounds contain nonfinite coordinates") [0; 1; 2]%nat tt
         | None => Ok tt
         end in
  check? ValidateFeatureSpatialGeometry g in
  match bounds, g with
  | Some box, Some g => Ok (spatial_empty g || spatial_intersects box g)
  | _, _ => Ok true
  end.

(** ** Comparisons *)

Lemma Qsgn_neg (x : Q) : (Qsgn x <? 0) = true <-> (x < 0)%Q.
Proof. destruct (Qsgn_cases x) as [[H ->]|[[H ->]|[H ->]]]; cbn; split; intros; done || lra. Qed.

Lemma Qsgn_pos (x : Q) : (0 <? Qsgn x) = true <-> (0 < x)%Q.
Proof. destruct (Qsgn_cases x) as [[H ->]|[[H ->]|[H ->]]]; cbn; split; intros; done || lra. Qed.

Lemma Qsgn_zero (x : Q) : (Qsgn x =? 0) = true <-> (x == 0)%Q.
Proof. destruct (Qsgn_cases x) as [[H ->]|[[H ->]|[H ->]]]; cbn; split; intros; done || lra. Qed.

(** The test of a sign, as a comparison of rationals. *)
Ltac sign_case t :=
  let H := fresh "Hs" in
  destruct t eqn:H;
  [first [apply Qsgn_zero in H|apply Qsgn_neg in H|apply Qsgn_pos in H]
  |apply not_true_iff_false in H; first [rewrite Qsgn_zero in H|rewrite Qsgn_neg in H|rewrite Qsgn_pos in H]].

(** ** Clipping *)

Definition axis_within (t : Q) (a : Q * Q * (Q * Q)) : Prop :=
  let '(x, d, (min, max)) := a in (min <= x + t * d <= max)%Q.

(** On one axis the segment is within the bounds between two parameters. *)
Lemma slab (x d min max t : Q) :
  ~ (d == 0)%Q -> (min <= max)%Q ->
  let u := ((min - x) / d)%Q in
  let v := ((max - x) / d)%Q in
  (min <= x + t * d <= max)%Q <-> (u <= t <= v \/ v <= t <= u)%Q.
Proof.
  intros Hd Hm u v. assert (u * d == min - x)%Q as Eu by (unfold u; field; done). assert (v * d == max - x)%Q as Ev by (unfold v; field; done).
  clearbody u v. destruct (Qlt_le_dec 0 d) as [P|P]; [|assert (d < 0)%Q as N by lra]; split; intros Hr; [left|destruct Hr|right|destruct Hr]; split; nra.
Qed.

Lemma clip_loop_exact (axes : list (Q * Q * (Q * Q))) (lo hi : Q) :
  Forall (fun a => (fst (snd a) <= snd (snd a))%Q) axes -> (lo <= hi)%Q ->
  clip_loop axes lo hi = true <-> exists t, (lo <= t <= hi)%Q /\ Forall (axis_within t) axes.
Proof.
  intros Ha. revert lo hi. induction Ha as [|[[x d] [min max]] axes Hm _ IH]; intros lo hi Hlh.
  - split; [intros _; exists lo; split; [lra|constructor]|done].
  - cbn [clip_loop fst snd] in *. sign_case (Qsgn d =? 0).
    + assert (forall t, axis_within t (x, d, (min, max)) <-> (min <= x <= max)%Q) as Hw.
      { intros t. cbn. rewrite Hs. split; intros; lra. }
      assert ((Qsgn (x - min) <? 0) || (0 <? Qsgn (x - max)) = false <-> (min <= x <= max)%Q) as Hout.
      { rewrite orb_false_iff, <- !not_true_iff_false, Qsgn_neg, Qsgn_pos. lra. }
      destruct ((Qsgn (x - min) <? 0) || _).
      * split; [done|]. intros (t & _ & [Hx%Hw _]%Forall_cons). by apply Hout in Hx.
      * rewrite IH by done. setoid_rewrite Forall_cons. setoid_rewrite Hw. pose proof (proj1 Hout eq_refl). firstorder.
    + set (u := ((min - x) / d)%Q). set (v := ((max - x) / d)%Q).
      pose proof (fun t => slab x d min max t Hs Hm) as Hslab. fold u v in Hslab. cbn zeta in Hslab.
      assert (exists p q, (if 0 <? Qsgn (u - v) then (v, u) else (u, v)) = (p, q) /\ (p <= q)%Q /\
        forall t, axis_within t (x, d, (min, max)) <-> (p <= t <= q)%Q) as (p & q & -> & Hpq & Hw).
      { sign_case (0 <? Qsgn (u - v)); [exists v, u|exists u, v]; (split; [done|]; split; [lra|]); intros t; cbn; rewrite Hslab; lra. }
      set (lo' := if 0 <? Qsgn (p - lo) then p else lo). set (hi' := if Qsgn (q - hi) <? 0 then q else hi).
      assert (forall t, (lo' <= t <= hi')%Q <-> (lo <= t <= hi)%Q /\ (p <= t <= q)%Q) as Hb.
      { intros t. unfold lo', hi'. sign_case (0 <? Qsgn (p - lo)); sign_case (Qsgn (q - hi) <? 0); lra. }
      setoid_rewrite Forall_cons. setoid_rewrite Hw. sign_case (0 <? Qsgn (lo' - hi')).
      * split; [done|]. intros (t & H1 & H2 & _). pose proof (proj2 (Hb t) (conj H1 H2)). lra.
      * rewrite IH by lra. setoid_rewrite Hb. firstorder.
Qed.

(** ** Points and lines *)

Definition finite3 (p : pos3) : Prop := Forall finite [axis3 p 0; axis3 p 1; axis3 p 2].

Record valid_box (box : Box) : Prop := {
  vb_min : finite3 (box_min box);
  vb_max : finite3 (box_max box);
  vb_ordered : Forall (fun k => (coord (axis3 (box_min box) k) <= coord (axis3 (box_max box) k))%Q) [0; 1; 2]%nat
}.

Definition in_box3 (box : Box) (q : vec) : Prop :=
  Forall (fun k => (coord (axis3 (box_min box) k) <= comp q k <= coord (axis3 (box_max box) k))%Q) [0; 1; 2]%nat.

(** A point of the segment, coordinate by coordinate. *)
Definition on_segment3 (a b q : vec) : Prop :=
  exists t, unit_interval t /\ Forall (fun k => (comp q k == comp (along3 a b t) k)%Q) [0; 1; 2]%nat.

Definition on_edge3 (q : vec) (ab : pos3 * pos3) : Prop := on_segment3 (spatialVectorOf (fst ab)) (spatialVectorOf (snd ab)) q.

(** A segment is found to meet a box exactly when one of its points is in it. *)
Lemma spatialSegmentBox_exact (a b : pos3) (box : Box) :
  valid_box box -> spatialSegmentBox a b box = true <-> exists q, on_edge3 q (a, b) /\ in_box3 box q.
Proof.
  intros [_ _ Ho]. unfold spatialSegmentBox. rewrite clip_loop_exact; [|by apply Forall_fmap|done].
  unfold on_edge3, on_segment3, in_box3, unit_interval, axis_within. cbn [map fst snd].
  destruct a as [[ax ay] az], b as [[bx b_y] bz]. split.
  - intros (t & Ht & Hw). exists (along3 (spatialVectorOf (ax, ay, az)) (spatialVectorOf (bx, b_y, bz)) t).
    split; [exists t; split; [done|]|]; rewrite !Forall_cons, Forall_nil in *; cbn in *; split_and!; try done; apply Hw.
  - intros (q & (t & Ht & Hq) & Hb). exists t. split; [done|]. rewrite !Forall_cons, Forall_nil in *. cbn in *.
    destruct Hq as (E0 & E1 & E2 & _). rewrite E0, E1, E2 in Hb. tauto.
Qed.

Lemma spatialPointBox_exact (p : pos3) (box : Box) : valid_box box -> spatialSegmentBox p p box = true <-> in_box3 box (spatialVectorOf p).
Proof.
  intros Hb. rewrite spatialSegmentBox_exact by done. unfold on_edge3, on_segment3, in_box3. cbn [fst snd]. split.
  - intros (q & (t & _ & Hq) & Hin). rewrite !Forall_cons, Forall_nil in *. destruct Hq as (E0 & E1 & E2 & _). rewrite E0, E1, E2 in Hin.
    destruct p as [[x y] z]. cbn in *. assert (forall a, a + t * (a - a) == a)%Q as E by (intros; ring). rewrite !E in Hin. tauto.
  - intros Hin. exists (spatialVectorOf p). split; [|done]. exists 0%Q. split; [unfold unit_interval; lra|].
    destruct p as [[x y] z]. rewrite !Forall_cons, Forall_nil. cbn. split_and!; try done; ring.
Qed.

(** ** Rings *)

Lemma cmp_between_exact (q u v : Q) : cmp_between q u v = true <-> between u v q.
Proof.
  unfold cmp_between, between. rewrite Z.leb_le.
  destruct (Qsgn_cases (q - u)) as [[H ->]|[[H ->]|[H ->]]], (Qsgn_cases (q - v)) as [[H' ->]|[[H' ->]|[H' ->]]]; split; intros; try lia; lra.
Qed.

Lemma same_sign (d D : Q) : ~ (d == 0)%Q -> ~ (D == 0)%Q -> (0 < d * D)%Q <-> ((0 < d)%Q <-> (0 < D)%Q).
Proof.
  intros Hd HD. destruct (Qlt_le_dec 0 d) as [P|P], (Qlt_le_dec 0 D) as [P'|P'].
  - split; [tauto|intros; nra].
  - split; [intros; nra|]. intros [H _]. specialize (H P). lra.
  - split; [intros; nra|]. intros [_ H]. specialize (H P'). lra.
  - assert (d < 0)%Q by lra. assert (D < 0)%Q by lra. split; [intros; split; intros; lra|intros; nra].
Qed.

Lemma Qsgn_product_pos (x y : Q) : (0 <? Qsgn x * Qsgn y) = true <-> (0 < x * y)%Q.
Proof.
  rewrite Z.ltb_lt.
  destruct (Qsgn_cases x) as [[H ->]|[[H ->]|[H ->]]], (Qsgn_cases y) as [[H' ->]|[[H' ->]|[H' ->]]]; split; intros; try lia; nra.
Qed.

Definition on_ring (p : Q * Q) (es : list ((Q * Q) * (Q * Q))) : Prop := Exists (fun ab => on_segment (fst ab) (snd ab) p) es.

Lemma spatial_ring_loop_exact (p : Q * Q) (es : list ((Q * Q) * (Q * Q))) (inside : bool) :
  (on_ring p es /\ spatial_ring_loop p es inside = (false, true)) \/
  (~ on_ring p es /\ spatial_ring_loop p es inside = (xorb inside (odd_crossings p es), false)).
Proof.
  unfold on_ring. revert inside. induction es as [|[a b] es IH]; intros inside.
  - right. rewrite Exists_nil. cbn. rewrite xorb_false_r. tauto.
  - cbn [spatial_ring_loop fst snd]. rewrite Exists_cons. cbn [fst snd]. set (cross := (_ - _)%Q).
    assert (cross == det a b p)%Q as Ec by (unfold cross, det; ring).
    assert ((Qsgn cross =? 0) && cmp_between (fst p) (fst a) (fst b) && cmp_between (snd p) (snd a) (snd b) = true <-> on_segment a b p) as Ho.
    { rewrite !andb_true_iff, !cmp_between_exact, Qsgn_zero, Ec, <- on_segment_iff. unfold in_box. tauto. }
    destruct ((Qsgn cross =? 0) && _ && _); [left; split; [left; by apply Ho|done]|].
    assert (~ on_segment a b p) as Hoff by (intros H%Ho; done). rewrite odd_crossings_cons.
    assert (negb (eqb (0 <? Qsgn (snd a - snd p)) (0 <? Qsgn (snd b - snd p))) && (0 <? Qsgn cross * Qsgn (snd b - snd a)) = true <-> crosses_right p a b) as Hc.
    { pose proof (det_side a b p) as Hd. cbn zeta in Hd. unfold crosses_right.
      set (st := _ \/ _) in *.
      assert (eqb (0 <? Qsgn (snd a - snd p)) (0 <? Qsgn (snd b - snd p)) = false <-> st) as Est.
      { unfold st. assert (forall x y, (0 < x - y)%Q <-> (y < x)%Q) as Hlt by (intros; lra). rewrite <- (Hlt (snd a)), <- (Hlt (snd b)), <- !Qsgn_pos.
        destruct (0 <? Qsgn (snd a - snd p)), (0 <? Qsgn (snd b - snd p)); cbn; intuition congruence. }
      rewrite andb_true_iff, negb_true_iff, Est, Qsgn_product_pos, Ec.
      assert (forall x y, (0 < x - y)%Q <-> (y < x)%Q) as Hlt by (intros; lra).
      split; intros [Hst Hx]; destruct (Hd Hst Hoff) as [Hd0 E]; (split; [done|]); rewrite E, same_sign, Hlt in *; try done;
        unfold st in Hst; lra. }
    assert (forall (A : Type) (c d : bool) (x y : A), (if c then if d then x else y else y) = if c && d then x else y) as Hif
      by (by intros A [] [] x y).
    rewrite Hif. destruct (negb _ && _).
    + rewrite decide_True by (by apply Hc). destruct (IH (negb inside)) as [[? ->]|[? ->]]; [left; auto|right].
      split; [tauto|]. by destruct inside, (odd_crossings p es).
    + rewrite decide_False by (intros H%Hc; done). destruct (IH inside) as [[? ->]|[? ->]]; [left; auto|right]. split; [tauto|done].
Qed.

(** A point of the plane of a polygon is on its surface: on the outer ring, or inside it
    and, hole by hole, on the hole or outside of it. *)
Fixpoint outside_holes (drop : nat) (q : vec) (holes : list (list pos3)) : Prop :=
  match holes with
  | [] => True
  | ring :: rest =>
      let es := projected_edges drop ring in
      on_ring (project drop q) es \/ (odd_crossings (project drop q) es = false /\ outside_holes drop q rest)
  end.

Definition on_surface (drop : nat) (rs : list (list pos3)) (q : vec) : Prop :=
  match rs with
  | [] => False
  | outer :: holes =>
      let es := projected_edges drop outer in
      on_ring (project drop q) es \/ (odd_crossings (project drop q) es = true /\ outside_holes drop q holes)
  end.

Lemma spatialPointPolygon_exact (q : vec) (rs : list (list pos3)) (drop : nat) :
  spatialPointPolygon q rs drop = true <-> on_surface drop rs q.
Proof.
  assert (forall holes, holes_loop q holes drop = true <-> outside_holes drop q holes) as Hh.
  { induction holes as [|h holes IH]; [done|]. cbn [holes_loop outside_holes]. unfold spatialPointRing.
    destruct (spatial_ring_loop_exact (project drop q) (projected_edges drop h) false) as [[H ->]|[H ->]]; [tauto|].
    rewrite xorb_false_l. destruct (odd_crossings _ _); [intuition congruence|]. rewrite IH. tauto. }
  destruct rs as [|outer holes]; [done|]. cbn [spatialPointPolygon on_surface]. unfold spatialPointRing.
  destruct (spatial_ring_loop_exact (project drop q) (projected_edges drop outer) false) as [[H ->]|[H ->]]; [tauto|].
  rewrite xorb_false_l. destruct (odd_crossings _ _); cbn [negb]; [rewrite Hh; tauto|intuition congruence].
Qed.

(** ** Geometries *)

(** An edge of the box ends on the surface, or goes through it. *)
Definition pierces (plane : spatialPlane) (rs : list (list pos3)) (e : vec * vec) : Prop :=
  let fa := plane_value plane (fst e) in
  let fb := plane_value plane (snd e) in
  ((fa == 0)%Q /\ on_surface (pl_drop plane) rs (fst e)) \/ ((fb == 0)%Q /\ on_surface (pl_drop plane) rs (snd e)) \/
  ((fa * fb < 0)%Q /\ on_surface (pl_drop plane) rs (along3 (fst e) (snd e) (fa / (fa - fb)))).

Definition polygon_meets3 (box : Box) (rs : list (list pos3)) : Prop :=
  (exists q, Exists (fun ring => Exists (on_edge3 q) (ring_edges ring)) rs /\ in_box3 box q) \/
  exists plane, spatialPolygonPlane rs = Ok plane /\ Exists (pierces plane rs) (box_edges box).

Definition line_meets3 (box : Box) (ps : list pos3) : Prop := exists q, Exists (on_edge3 q) (combine ps (tail ps)) /\ in_box3 box q.

(** A point of the geometry is in the box; a horizontal geometry has any height. *)
Fixpoint meets3 (box : Box) (g : geometry) : Prop :=
  match g with
  | PointZ p => in_box3 box (spatialVectorOf p)
  | MultiPointZ ps => Exists (fun p => in_box3 box (spatialVectorOf p)) ps
  | LineStringZ ps => line_meets3 box ps
  | MultiLineStringZ ls => Exists (line_meets3 box) ls
  | PolygonZ rs => polygon_meets3 box rs
  | MultiPolygonZ gs => Exists (polygon_meets3 box) gs
  | Collection gs => any (fun c => match c with Some c => meets3 box c | None => False end) gs
  | _ => meets (box_extent box) g
  end.

Lemma Exists_vec {A : Type} (R : A -> vec -> Prop) (T : vec -> Prop) (l : list A) :
  (exists q, Exists (fun x => R x q) l /\ T q) <-> Exists (fun x => exists q, R x q /\ T q) l.
Proof. rewrite Exists_exists. setoid_rewrite Exists_exists. firstorder. Qed.

Lemma box_extent_valid (box : Box) : valid_box box -> valid_extent (box_extent box).
Proof.
  intros [H1 H2 H3]. unfold finite3 in *. rewrite !Forall_cons in *. split; cbn; [|tauto..]. rewrite !Forall_cons, Forall_nil. tauto.
Qed.

Lemma edge_pierces_exact (plane : spatialPlane) (rs : list (list pos3)) (e : vec * vec) :
  edge_pierces plane rs (fst e) (snd e) = true <-> pierces plane rs e.
Proof.
  unfold edge_pierces, pierces. set (fa := plane_value _ (fst e)). set (fb := plane_value _ (snd e)).
  rewrite <- !spatialPointPolygon_exact, <- Qsgn_product, <- !Qsgn_zero.
  destruct (Qsgn fa =? 0), (spatialPointPolygon (fst e) rs _); cbn [andb]; try tauto;
    (destruct (Qsgn fb =? 0), (spatialPointPolygon (snd e) rs _); cbn [andb]; try tauto);
    destruct (Z.leb_spec 0 (Qsgn fa * Qsgn fb)); intuition (lia || congruence).
Qed.

Section Meets3.
Context (box : Box) (Hb : valid_box box).

Lemma line_box_exact (ps : list pos3) : line_box ps box = true <-> line_meets3 box ps.
Proof.
  unfold line_box, line_meets3. rewrite Exists_vec. apply existsb_Exists, Forall_true. intros [a b].
  by apply spatialSegmentBox_exact.
Qed.

Lemma polygon_box_exact (rs : list (list pos3)) : spatialPolygonBox rs box = true <-> polygon_meets3 box rs.
Proof.
  unfold spatialPolygonBox, polygon_meets3. rewrite orb_true_iff, Exists_vec.
  rewrite (existsb_Exists _ (fun ring => exists q, Exists (on_edge3 q) (ring_edges ring) /\ in_box3 box q)).
  2: { apply Forall_true. intros ring. rewrite Exists_vec. apply existsb_Exists, Forall_true. intros [a b]. by apply spatialSegmentBox_exact. }
  destruct (spatialPolygonPlane rs) as [plane|].
  - rewrite (existsb_Exists _ (pierces plane rs)) by (apply Forall_true; intros; apply edge_pierces_exact).
    split; intros [?|H]; auto; right; [by exists plane|]. by destruct H as (pl & [= <-] & H).
  - split; intros [?|H]; auto; [done|]. by destruct H as (pl & [=] & _).
Qed.

(** Parts that are empty meet nothing. *)
Lemma empty_parts {A : Type} (f : list A -> bool) (P : list A -> Prop) (ls : list (list A)) :
  (forall l, f l = true <-> P l) -> ~ P [] -> existsb (fun l => negb (is_nil l) && f l) ls = true <-> Exists P ls.
Proof.
  intros Hf Hn. apply existsb_Exists, Forall_true. intros l. rewrite <- Hf. destruct l; cbn; [|done].
  split; [done|]. intros H%Hf. done.
Qed.

Lemma some_part {A : Type} (em f : A -> bool) (l : list A) :
  (forall a, f a = true -> em a = false) -> negb (forallb em l) && existsb f l = true <-> existsb f l = true.
Proof.
  intros Hf. assert (existsb f l = true -> forallb em l = false) as H; [|destruct (forallb em l), (existsb f l); intuition congruence].
  intros (a & Ha & Ht)%existsb_exists. apply not_true_iff_false. intros H. rewrite forallb_forall in H. specialize (H a Ha). by rewrite (Hf a Ht) in H.
Qed.

Lemma line_meets3_nil : ~ line_meets3 box [].
Proof. intros (q & H & _). by apply Exists_nil in H. Qed.

Lemma polygon_meets3_nil : ~ polygon_meets3 box [].
Proof. intros [(q & H & _)|(pl & [=] & _)]. by apply Exists_nil in H. Qed.

Lemma spatial_intersects_exact (g : geometry) :
  validate_spatial g = Ok tt -> negb (spatial_empty g) && spatial_intersects box g = true <-> meets3 box g.
Proof.
  induction g as [g Hg|gs IH] using geometry_ind; intros Hv.
  - destruct g; try (by destruct (Hg gs)); clear Hg; cbn [validate_spatial spatial_empty spatial_intersects meets3] in *;
      try (apply (geometry_intersects_nonempty _ (box_extent_valid _ Hb)); exact Hv).
    + by apply spatialPointBox_exact.
    + rewrite <- line_box_exact. by destruct ps.
    + rewrite <- polygon_box_exact. by destruct rs.
    + rewrite <- (existsb_Exists (fun p => spatialSegmentBox p p box)); [by destruct ps|].
      apply Forall_true. intros p. by apply spatialPointBox_exact.
    + rewrite <- (empty_parts (fun l => line_box l box) _ _ line_box_exact line_meets3_nil).
      apply some_part. by intros [].
    + rewrite <- (empty_parts (fun l => spatialPolygonBox l box) _ _ polygon_box_exact polygon_meets3_nil).
      apply some_part. by intros [].
  - cbn [validate_spatial spatial_empty spatial_intersects meets3] in *. apply rfold_check in Hv. rewrite any_Exists.
    rewrite some_part by (intros [c|]; [destruct (spatial_empty c)|]; done). apply existsb_Exists.
    rewrite Forall_forall in *. intros [c|] Hc; [|by split]. exact (IH (Some c) Hc (Hv (Some c) Hc)).
Qed.
End Meets3.

(** The checks of the bounds. *)
Lemma box_Ok (g : option geometry) (box : Box) (b : bool) :
  FeatureGeometryIntersectsExtent3D g (Some box) = Ok b <->
  valid_box box /\ ValidateFeatureSpatialGeometry g = Ok tt /\
  b = match g with Some g => spatial_empty g || spatial_intersects box g | None => true end.
Proof.
  unfold FeatureGeometryIntersectsExtent3D. rewrite !rbind_unit.
  set (checks := rfold _ _ _ = Ok tt). set (checks' := rfold _ _ _ = Ok tt).
  assert (checks /\ checks' <-> valid_box box) as Hv.
  { unfold checks, checks'. rewrite !rfold_check.
    assert (forall k, finite (axis3 (box_min box) k) -> finite (axis3 (box_max box) k) ->
      negb (float_lt (axis3 (box_max box) k) (axis3 (box_min box) k)) = true <-> (coord (axis3 (box_min box) k) <= coord (axis3 (box_max box) k))%Q) as Hle.
    { intros k H1 H2. rewrite negb_true_iff, <- not_true_iff_false, float_lt_coord by done. lra. }
    split.
    - intros [H1 H2]. rewrite !Forall_cons in H1, H2. rewrite !rbind_unit, !spatial_check_Ok in H1. rewrite !spatial_check_Ok in H2.
      destruct H1 as ((? & ?) & (? & ?) & (? & ?) & _), H2 as (? & ? & ? & _).
      split; unfold finite3; rewrite !Forall_cons, Forall_nil; split_and!; try done; by apply Hle.
    - intros [H1 H2 H3]. unfold finite3 in *. rewrite !Forall_cons in H1, H2. rewrite !Forall_cons in H3.
      destruct H1 as (? & ? & ? & _), H2 as (? & ? & ? & _), H3 as (? & ? & ? & _).
      split; rewrite !Forall_cons, Forall_nil, ?rbind_unit, !spatial_check_Ok; split_and!; try done; by apply Hle. }
  rewrite <- Hv. destruct g; intuition congruence.
Qed.

Lemma box_intersects_exact (g : geometry) (box : Box) :
  valid_box box -> validate_spatial g = Ok tt ->
  spatial_empty g || spatial_intersects box g = true <-> spatial_empty g = true \/ meets3 box g.
Proof.
  intros Hb Hv. rewrite <- (spatial_intersects_exact box Hb g Hv).
  destruct (spatial_empty g), (spatial_intersects box g); cbn; intuition congruence.
Qed.

