(* ===== verification/FeatureTransform.v ===== *)
(** * provider/geometrycodec: horizontal projection and transformation

    The horizontal copy of a geometry with heights (feature_intersection3d.go) and the
    transformation of its horizontal coordinates that keeps the heights
    (feature_transform.go). *)

From S2P Require Import Prelude GoText RawGeom FeatureExtent FeatureSpatial.

#[local] Open Scope Z_scope.

(** ** Horizontal projection *)

Fixpoint xy_copy (g : geometry) : geometry :=
  match g with
  | PointZ p => Point (xy p)
  | MultiPointZ ps => MultiPoint (map xy ps)
  | LineStringZ ps => LineString (map xy ps)
  | MultiLineStringZ ls => MultiLineString (map (map xy) ls)
  | PolygonZ rs => Polygon (map (map xy) rs)
  | MultiPolygonZ gs => MultiPolygon (map (map (map xy)) gs)
  | Collection gs => Collection (map (fun c => match c with Some c => Some (xy_copy c) | None => None end) gs)
  | _ => g
  end.

Definition spatialXYCopy (g : option geometry) : option geometry :=
  match g with Some g => Some (xy_copy g) | None => None end.

Definition FeatureGeometryXYProjection (g : option geometry) : result spatial_error (option geometry) :=
  check? ValidateFeatureSpatialGeometry g in
  Ok (spatialXYCopy g).

(** ** Transformation *)

(** A loop that builds a slice element by element. *)
Section Rmap.
Context {E A C : Type} (f : A -> result E C).

Fixpoint rmap (l : list A) : result E (list C) :=
  match l with
  | [] => Ok []
  | a :: l' => let? c := f a in let? l' := rmap l' in Ok (c :: l')
  end.
End Rmap.

Definition transformation : Type := pos2 -> result spatial_error pos2.

Definition wrap_spatial (prefix : gostring) (e : spatial_error) : spatial_error :=
  match e with
  | SpatialErr t => SpatialErr (prefix ++ t)
  | SpatialUnsupported t => SpatialUnsupported (prefix ++ t)
  | SpatialData t => SpatialData (prefix ++ t)
  end.

Section Transform.
Context (transform : transformation).

Definition transform_pair (p : pos2) : result spatial_error pos2 :=
  match transform p with
  | Ok q => Ok q
  | Err e => Err (wrap_spatial (B "feature coordinate transform: ") e)
  end.

(** The two instances of [transformSpatialPoints]; the height is copied. *)
Definition transform_points2 (ps : list pos2) : result spatial_error (list pos2) := rmap transform_pair ps.

Definition transform_point3 (p : pos3) : result spatial_error pos3 :=
  let '(x, y, z) := p in
  let? q := transform_pair (x, y) in
  Ok (q, z).

Definition transform_points3 (ps : list pos3) : result spatial_error (list pos3) := rmap transform_point3 ps.

Fixpoint transform_geometry (g : geometry) : result spatial_error geometry :=
  match g with
  | Point p => let? q := transform_pair p in Ok (Point q)
  | PointZ p => let? q := transform_point3 p in Ok (PointZ q)
  | MultiPoint ps => let? out := transform_points2 ps in Ok (MultiPoint out)
  | MultiPointZ ps => let? out := transform_points3 ps in Ok (MultiPointZ out)
  | LineString ps => let? out := transform_points2 ps in Ok (LineString out)
  | LineStringZ ps => let? out := transform_points3 ps in Ok (LineStringZ out)
  | MultiLineString ls => let? out := rmap transform_points2 ls in Ok (MultiLineString out)
  | MultiLineStringZ ls => let? out := rmap transform_points3 ls in Ok (MultiLineStringZ out)
  | Polygon rs => let? out := rmap transform_points2 rs in Ok (Polygon out)
  | PolygonZ rs => let? out := rmap transform_points3 rs in Ok (PolygonZ out)
  | MultiPolygon gs => let? out := rmap (rmap transform_points2) gs in Ok (MultiPolygon out)
  | MultiPolygonZ gs => let? out := rmap (rmap transform_points3) gs in Ok (MultiPolygonZ out)
  | Collection gs =>
      let? out := rmap (fun c => match c with Some c => let? c := transform_geometry c in Ok (Some c) | None => Ok None end) gs in
      Ok (Collection out)
  end.

Definition transformSpatialGeometry (g : option geometry) : result spatial_error (option geometry) :=
  match g with Some g => let? g := transform_geometry g in Ok (Some g) | None => Ok None end.
End Transform.

Definition TransformFeatureSpatialGeometry (g : option geometry) (transform : option transformation)
    : result spatial_error (option geometry) :=
  match transform with
  | None => Err (SpatialErr (B "feature spatial transform is nil"))
  | Some f =>
      check? ValidateFeatureSpatialGeometry g in
      let? out := transformSpatialGeometry f g in
      check? ValidateFeatureSpatialGeometry out in
      Ok out
  end.

(** ** Lemmas *)

(** The horizontal copy of a valid geometry is a valid horizontal geometry, empty when
    the geometry is. *)

Lemma xy_finite (p : pos3) : forallb featureFinite [axis3 p 0; axis3 p 1; axis3 p 2] = true -> finite2 (xy p).
Proof. destruct p as [[x y] z]. cbn. rewrite !andb_true_iff. intros (? & ? & _). by split. Qed.

Lemma xy_points (ps : list pos3) : validateSpatialPoints ps = Ok tt -> Forall finite2 (map xy ps).
Proof.
  unfold validateSpatialPoints. rewrite spatial_check_Ok, forallb_Forall_true, Forall_map. intros H. eapply Forall_impl; [exact H|]. intros p. apply xy_finite.
Qed.

Lemma xy_line (ps : list pos3) : validate_line3 ps = Ok tt -> validate_line (map xy ps) = Ok tt.
Proof.
  unfold validate_line3. rewrite validate_line_Ok, rbind_unit, spatial_check_Ok, negb_true_iff, Z.eqb_neq.
  unfold blen. rewrite length_map. intros [? ?%xy_points]. done.
Qed.

Lemma xy_rings (rs : list (list pos3)) : validate_polygon3 rs = Ok tt -> validate_rings (map (map xy) rs) = Ok tt.
Proof.
  destruct rs as [|r rs]; [done|]. unfold validate_polygon3. rewrite rbind_unit. intros [H _].
  apply rfold_check in H. unfold validate_rings. rewrite rfold_check, Forall_map. eapply Forall_impl; [exact H|]. cbn beta. intros ring [Hl Hp%xy_points]%rbind_unit.
  unfold validate_ring. rewrite rbind_unit. unfold blen in *. rewrite length_map. split; [done|].
  by apply validateFeaturePoints_Ok.
Qed.

Lemma xy_copy_valid (g : geometry) : validate_spatial g = Ok tt -> validate_geometry (xy_copy g) = Ok tt.
Proof.
  induction g as [g Hg|gs IH] using geometry_ind; intros Hv.
  - destruct g; try (by destruct (Hg gs)); clear Hg; cbn [validate_spatial validate_geometry xy_copy] in *; try done.
    + by apply validateFeaturePoints_Ok, (xy_points [p]).
    + by apply xy_line.
    + by apply xy_rings.
    + by apply validateFeaturePoints_Ok, xy_points.
    + apply rfold_check in Hv. rewrite rfold_check, Forall_map. eapply Forall_impl; [exact Hv|]. intros l. apply xy_line.
    + apply rfold_check in Hv. rewrite rfold_check, Forall_map. eapply Forall_impl; [exact Hv|]. intros l. apply xy_rings.
  - cbn [validate_spatial validate_geometry xy_copy] in *. apply rfold_check in Hv. rewrite rfold_check, Forall_map.
    rewrite Forall_forall in *. intros [c|] Hc; [|done]. exact (IH (Some c) Hc (Hv (Some c) Hc)).
Qed.

Lemma is_nil_map {A C : Type} (f : A -> C) (l : list A) : is_nil (map f l) = is_nil l.
Proof. by destruct l. Qed.

Lemma forallb_map_ext {A C : Type} (f : A -> C) (p : C -> bool) (q : A -> bool) (l : list A) :
  Forall (fun a => p (f a) = q a) l -> forallb p (map f l) = forallb q l.
Proof. induction 1 as [|a l H _ IH]; cbn; [done|]. by rewrite H, IH. Qed.

Lemma xy_copy_empty (g : geometry) : geometry_empty (xy_copy g) = spatial_empty g.
Proof.
  induction g as [g Hg|gs IH] using geometry_ind.
  - destruct g; try (by destruct (Hg gs)); cbn; try done; try apply is_nil_map; apply forallb_map_ext, Forall_true; intros; apply is_nil_map.
  - cbn. apply forallb_map_ext. eapply Forall_impl; [exact IH|]. by intros [c|].
Qed.

(** A transformation moves every position and keeps the shape and the heights. *)

Lemma rmap_Ok {E A C : Type} (f : A -> result E C) (l : list A) (l' : list C) :
  rmap f l = Ok l' <-> Forall2 (fun a c => f a = Ok c) l l'.
Proof.
  revert l'. induction l as [|a l IH]; intros l'; cbn.
  - split; [intros [= <-]; constructor|by inversion 1].
  - rewrite rbind_Ok. split.
    + intros (c & Hc & (l2 & H%IH & [= <-])%rbind_Ok). by constructor.
    + inversion 1 as [|? c ? l2 Hc H2]; subst. exists c. split; [done|]. apply rbind_Ok. exists l2. by rewrite IH.
Qed.

(** The heights of a geometry, in the order of its positions. *)
Definition height (p : pos3) : f64 := snd p.

Fixpoint heights (g : geometry) : list f64 :=
  match g with
  | PointZ p => [height p]
  | LineStringZ ps | MultiPointZ ps => map height ps
  | PolygonZ rs | MultiLineStringZ rs => concat (map (map height) rs)
  | MultiPolygonZ gs => concat (concat (map (map (map height)) gs))
  | Collection gs => concat (map (fun c => match c with Some c => heights c | None => [] end) gs)
  | _ => []
  end.

Lemma transform_point3_height (f : transformation) (p q : pos3) : transform_point3 f p = Ok q -> height q = height p.
Proof. destruct p as [[x y] z]. cbn. rewrite rbind_Ok. by intros (xy & _ & [= <-]). Qed.

Lemma map_Forall2 {A C D : Type} (f : A -> D) (g : C -> D) (l : list A) (l' : list C) :
  Forall2 (fun a c => g c = f a) l l' -> map g l' = map f l.
Proof. induction 1 as [|a c l l' H _ IH]; cbn; [done|]. by rewrite H, IH. Qed.

Lemma transform_points3_heights (f : transformation) (ps qs : list pos3) : transform_points3 f ps = Ok qs -> map height qs = map height ps.
Proof. intros H%rmap_Ok. apply map_Forall2. eapply Forall2_impl; [exact H|]. intros p q. apply transform_point3_height. Qed.

Lemma transform_rings3_heights (f : transformation) (ps qs : list (list pos3)) :
  rmap (transform_points3 f) ps = Ok qs -> map (map height) qs = map (map height) ps.
Proof. intros H%rmap_Ok. apply map_Forall2. eapply Forall2_impl; [exact H|]. intros p q. apply transform_points3_heights. Qed.

Lemma transform_geometry_heights (f : transformation) (g g' : geometry) : transform_geometry f g = Ok g' -> heights g' = heights g.
Proof.
  revert g'. induction g as [g Hg|gs IH] using geometry_ind; intros g'.
  - destruct g; try (by destruct (Hg gs)); clear Hg; cbn [transform_geometry]; rewrite rbind_Ok; intros (o & Ho & [= <-]); cbn; try done.
    + f_equal. by eapply transform_point3_height.
    + by eapply transform_points3_heights.
    + f_equal. by eapply transform_rings3_heights.
    + by eapply transform_points3_heights.
    + f_equal. by eapply transform_rings3_heights.
    + do 2 f_equal. apply rmap_Ok in Ho. apply map_Forall2. eapply Forall2_impl; [exact Ho|]. intros p q. apply transform_rings3_heights.
  - cbn [transform_geometry]. rewrite rbind_Ok. intros (o & Ho & [= <-]). cbn. f_equal. apply rmap_Ok in Ho. apply map_Forall2.
    revert IH. induction Ho as [|[c|] d l l' Hd _ IHo]; intros IH; constructor; inversion IH; subst; try (by apply IHo).
    + apply rbind_Ok in Hd as (c' & Hc & [= <-]). by eauto.
    + by injection Hd as <-.
Qed.
