(* ===== verification/GpkgGeometry.v ===== *)
(** * provider/gpkg: the geometry of a row

    The strict decoding of a geometry value for feature queries (query_spatial.go): the
    GeoPackage header, the WKB body, the declared dimension of the source and the
    validity of the geometry.  The decoders of WKT and MOS values are an argument. *)

From S2P Require Import Prelude GoText Bytes Temporal FilterGpkg RawGeom RawWkb GpkgHeader FeatureExtent FeatureSpatial.

#[local] Open Scope Z_scope.

Inductive CoordinateDimension := DimensionUnknown | DimensionXY | DimensionXYZ | DimensionMixedXYXYZ.

#[export] Instance CoordinateDimension_eq_dec : EqDecision CoordinateDimension.
Proof. solve_decision. Defined.

(** An error text, one that wraps ErrUnsupported, an invalid query, the errors of the
    codec, the join of ErrUnsupported with an error, and a failed index or slice. *)
Inductive geometry_error :=
| GErr (text : gostring)
| GUnsupported (text : gostring)
| GInvalid (e : QueryError)
| GHeader (e : header_error)
| GRaw (e : raw_error)
| GSpatial (e : spatial_error)
| GJoined (e : geometry_error)
| GPanic.

Definition lift {E A : Type} (f : E -> geometry_error) (r : result E A) : result geometry_error A :=
  match r with Ok a => Ok a | Err e => Err (f e) end.

(** A panic of the codec is one of the caller. *)
Definition raw_failure (e : raw_error) : geometry_error := match e with RawPanic => GPanic | _ => GRaw e end.

(** errors.Is for the two sentinels of the codec. *)
Fixpoint codec_unsupported (e : geometry_error) : bool :=
  match e with
  | GRaw (RawUnsupported _) | GSpatial (SpatialUnsupported _) => true
  | GJoined e => codec_unsupported e
  | _ => false
  end.

Definition wrapSpatialError (e : geometry_error) : geometry_error := if codec_unsupported e then GJoined e else e.

Fixpoint gpkg_empty (g : geometry) : bool :=
  match g with
  | MultiPoint ps => is_nil ps
  | MultiPointZ ps => is_nil ps
  | LineString ps => is_nil ps
  | LineStringZ ps => is_nil ps
  | Polygon rs => is_nil rs
  | PolygonZ rs => is_nil rs
  | MultiPolygon gs => forallb is_nil gs
  | MultiPolygonZ gs => forallb is_nil gs
  | MultiLineString ls => forallb is_nil ls
  | MultiLineStringZ ls => forallb is_nil ls
  | Collection gs => forallb (fun c => match c with Some c => gpkg_empty c | None => true end) gs
  | Point _ | PointZ _ => false
  end.

Definition spatialGeometryEmpty (g : option geometry) : bool := match g with Some g => gpkg_empty g | None => true end.

Definition has_z (g : geometry) : bool :=
  match g with
  | PointZ _ | MultiPointZ _ | LineStringZ _ | MultiLineStringZ _ | PolygonZ _ | MultiPolygonZ _ => true
  | _ => false
  end.

Fixpoint source_dimension (dimension : CoordinateDimension) (g : geometry) : result geometry_error unit :=
  if gpkg_empty g then Ok tt
  else
    match g with
    | Collection gs => rfold (fun c _ => match c with Some c => source_dimension dimension c | None => Ok tt end) gs tt
    | _ =>
        if bool_decide (dimension = DimensionXY) && has_z g || bool_decide (dimension = DimensionXYZ) && negb (has_z g) then
          Err (GInvalid (invalidQuery "spatial_dimension" "source body disagrees with declared dimension"))
        else lift GSpatial (ValidateFeatureSpatialGeometry (Some g))
    end.

Definition validateSourceDimension (g : option geometry) (dimension : CoordinateDimension) : result geometry_error unit :=
  match g with Some g => source_dimension dimension g | None => Ok tt end.

Record geometry_layer := mkGeometryLayer { gl_format : gostring; gl_dimension : CoordinateDimension }.

(** The loop over the envelope, from the value at [i] on. *)
Fixpoint check_envelope (envelope : list f64) (i : nat) (rest : list f64) : result geometry_error unit :=
  match rest with
  | [] => Ok tt
  | value :: rest =>
      if IsNaN value || IsInf value then Err (GInvalid (invalidQuery "geometry" "native envelope is nonfinite"))
      else
        check? (if Nat.even i then
                  match envelope !! S i with
                  | None => Err GPanic
                  | Some max =>
                      if float_lt max value then Err (GInvalid (invalidQuery "geometry" "native envelope minimum exceeds maximum")) else Ok tt
                  end
                else Ok tt) in
        check_envelope envelope (S i) rest
  end.

Definition decode_native (value : raw_value) : result geometry_error (option geometry) :=
  match value with
  | VBytes data =>
      let? header := lift GHeader (NewBinaryHeader data) in
      if negb (IsStandardGeometry header) then Err (GUnsupported (B "extended native geometry"))
      else
        check? check_envelope (bh_envelope header) 0 (bh_envelope header) in
        if blen data <? Size header then Err GPanic
        else
          let? geometry := lift raw_failure (DecodeRawWKB (VBytes (drop (Z.to_nat (Size header)) data))) in
          if negb (Bool.eqb (IsGeometryEmpty header) (spatialGeometryEmpty geometry)) then
            Err (GInvalid (invalidQuery "geometry" "native empty flag disagrees with body"))
          else if bool_decide (EnvelopeType header = EnvelopeTypeXYM) || bool_decide (EnvelopeType header = EnvelopeTypeXYZM) then
            Err (GUnsupported (B "native measure envelope"))
          else
            check? (if bool_decide (EnvelopeType header = EnvelopeTypeXYZ) && negb (spatialGeometryEmpty geometry)
                    then validateSourceDimension geometry DimensionXYZ else Ok tt) in
            Ok geometry
  | _ => Err (GErr (B "native raw geometry requires bytes"))
  end.

Section Decode.
(** The decoders of the textual and the MOS format. *)
Context (decodeRawWKT decodeMOS : raw_value -> result geometry_error (option geometry)).

Definition decodeRawGeometryValue (value : raw_value) (layer : geometry_layer) : result geometry_error (option geometry) :=
  let? geometry :=
    (if beq (gl_format layer) (B "wkb") then lift raw_failure (DecodeRawWKB value)
     else if beq (gl_format layer) (B "wkt") then decodeRawWKT value
     else if beq (gl_format layer) (B "mos") then decodeMOS value
     else decode_native value) in
  check? validateSourceDimension geometry (gl_dimension layer) in
  check? lift (fun e => wrapSpatialError (GSpatial e)) (ValidateFeatureSpatialGeometry geometry) in
  if spatialGeometryEmpty geometry then Ok None else Ok geometry.

(** ** Lemmas *)

Lemma lift_Ok {E A : Type} (f : E -> geometry_error) (r : result E A) (a : A) : lift f r = Ok a <-> r = Ok a.
Proof. destruct r; cbn; [|done]. intuition congruence. Qed.

(** Both packages agree on what is empty. *)
Lemma gpkg_empty_spatial (g : geometry) : gpkg_empty g = spatial_empty g.
Proof.
  induction g as [g Hg|gs IH] using geometry_ind; [destruct g; try done; by destruct (Hg gs)|].
  cbn. induction IH as [|[c|] gs H _ IH]; cbn in *; [done|by rewrite H, IH|done].
Qed.

(** A geometry of a dimension: each part that is not empty has heights, or has none. *)
Fixpoint of_dimension (dimension : CoordinateDimension) (g : geometry) : Prop :=
  gpkg_empty g = true \/
  match g with
  | Collection gs => foldr (fun c P => match c with Some c => of_dimension dimension c | None => True end /\ P) True gs
  | _ => match dimension with DimensionXY => has_z g = false | DimensionXYZ => has_z g = true | _ => True end
  end.

Lemma foldr_Forall {A : Type} (P : A -> Prop) (l : list A) : foldr (fun a Q => P a /\ Q) True l <-> Forall P l.
Proof. induction l as [|a l IH]; cbn; [by rewrite Forall_nil|]. by rewrite IH, Forall_cons. Qed.

Lemma source_dimension_Ok (dimension : CoordinateDimension) (g : geometry) :
  validate_spatial g = Ok tt -> source_dimension dimension g = Ok tt <-> of_dimension dimension g.
Proof.
  induction g as [g Hg|gs IH] using geometry_ind; intros Hv.
  - assert (source_dimension dimension g = Ok tt <-> gpkg_empty g = true \/
      (bool_decide (dimension = DimensionXY) && has_z g || bool_decide (dimension = DimensionXYZ) && negb (has_z g)) = false) as ->.
    { destruct g; try (by destruct (Hg gs)); cbn [source_dimension]; destruct (gpkg_empty _); try tauto;
        destruct (bool_decide _ && _ || _); cbn [ValidateFeatureSpatialGeometry]; rewrite ?Hv; cbn; intuition congruence. }
    destruct g; try (by destruct (Hg gs)); cbn [of_dimension has_z]; destruct dimension; closed_decide; intuition congruence.
  - cbn [source_dimension of_dimension]. destruct (gpkg_empty _); [tauto|].
    cbn [validate_spatial] in Hv. apply rfold_check in Hv. rewrite rfold_check, foldr_Forall, !Forall_forall in *.
    enough (forall c, c ∈ gs -> match c with Some c => source_dimension dimension c | None => Ok tt end = Ok tt <->
      match c with Some c => of_dimension dimension c | None => True end) as H.
    { split; [intros H'; right; intros c Hc; apply (proj1 (H c Hc)), H', Hc|intros [[=]|H'] c Hc; apply (proj2 (H c Hc)), H', Hc]. }
    intros [c|] Hc; [|done]. exact (IH (Some c) Hc (Hv (Some c) Hc)).
Qed.

Lemma of_dimension_checked (layer : geometry_layer) (g : option geometry) :
  ValidateFeatureSpatialGeometry g = Ok tt ->
  validateSourceDimension g (gl_dimension layer) = Ok tt <-> on_some (of_dimension (gl_dimension layer)) g.
Proof. destruct g as [g|]; cbn; [apply source_dimension_Ok|done]. Qed.

(** The loop stays within an envelope of pairs. *)
Lemma check_envelope_no_panic (rest pre : list f64) :
  Nat.even (length (pre ++ rest)) = true -> check_envelope (pre ++ rest) (length pre) rest <> Err GPanic.
Proof.
  revert pre. induction rest as [|v rest IH]; intros pre He; cbn [check_envelope]; [done|].
  destruct (IsNaN v || IsInf v); [done|].
  assert (forall k : result geometry_error unit, k = check_envelope (pre ++ v :: rest) (S (length pre)) rest -> k <> Err GPanic) as Hk.
  { intros k ->. specialize (IH (pre ++ [v])). rewrite last_length, <- app_assoc in IH. exact (IH He). }
  destruct (Nat.even (length pre)) eqn:Ep; [|by apply Hk].
  rewrite lookup_app_r by lia. replace (S (length pre) - length pre)%nat with 1%nat by lia. destruct rest as [|max rest].
  - rewrite length_app, Nat.even_add, Ep in He. done.
  - cbn [lookup list_lookup]. destruct (float_lt max v); [done|]. by apply Hk.
Qed.

Lemma rbind_no_gpanic {A C : Type} (r : result geometry_error A) (k : A -> result geometry_error C) :
  r <> Err GPanic -> (forall a, r = Ok a -> k a <> Err GPanic) -> rbind r k <> Err GPanic.
Proof. destruct r as [a|e]; cbn; [auto|congruence]. Qed.

Lemma lift_no_gpanic {E A : Type} (f : E -> geometry_error) (r : result E A) :
  (forall e, r = Err e -> f e <> GPanic) -> lift f r <> Err GPanic.
Proof. destruct r as [a|e]; cbn; [done|]. intros H [= Hf]. exact (H e eq_refl Hf). Qed.

Lemma rfold_no_gpanic {A : Type} (f : A -> result geometry_error unit) (l : list A) :
  Forall (fun a => f a <> Err GPanic) l -> rfold (fun a _ => f a) l tt <> Err GPanic.
Proof. induction 1 as [|a l H _ IH]; cbn; [done|]. apply rbind_no_gpanic; [done|]. by intros []. Qed.

Lemma dimension_no_gpanic (dimension : CoordinateDimension) (g : geometry) : source_dimension dimension g <> Err GPanic.
Proof.
  induction g as [g Hg|gs IH] using geometry_ind.
  - destruct g; try (by destruct (Hg gs)); cbn [source_dimension]; destruct (gpkg_empty _); try done;
      (destruct (_ || _); [done|by apply lift_no_gpanic]).
  - cbn [source_dimension]. destruct (gpkg_empty _); [done|]. apply rfold_no_gpanic. eapply Forall_impl; [exact IH|]. by intros [c|].
Qed.

Lemma decode_native_no_panic (value : raw_value) : decode_native value <> Err GPanic.
Proof.
  destruct value as [|data| |]; cbn [decode_native]; try done. apply rbind_no_gpanic; [by apply lift_no_gpanic|].
  intros h Hh%lift_Ok%NewBinaryHeader_size. destruct Hh as (Hs & Hl & Ht). destruct (NumberOfElements_even _ Ht) as (n & Hn & Hr).
  destruct (negb _); [done|]. apply rbind_no_gpanic.
  { apply (check_envelope_no_panic (bh_envelope h) []). unfold Size, blen in Hs.
    assert (length (bh_envelope h) = 2 * Z.to_nat n)%nat as E by lia. change ([] ++ bh_envelope h) with (bh_envelope h).
    rewrite E. by rewrite Nat.even_mul. }
  intros _ _. decide_ltb. apply rbind_no_gpanic.
  { apply lift_no_gpanic. intros e He. pose proof (DecodeRawWKB_no_panic (VBytes (drop (Z.to_nat (Size h)) data))) as Hw.
    rewrite He in Hw. by destruct e. }
  intros g _. destruct (negb _); [done|]. destruct (_ || _); [done|]. apply rbind_no_gpanic; [|done].
  destruct (_ && _); [|done]. destruct g as [g|]; [apply dimension_no_gpanic|done].
Qed.

(** An envelope as it is written: the minimum and the maximum of each axis, finite and
    ordered. *)
Definition envelope_ok (envelope : option (list f64)) : Prop :=
  match envelope with
  | None => True
  | Some vs => Forall (fun v => 0 <= v < 2 ^ 64 /\ finite v) vs /\
      exists a b c d, vs = [a; b; c; d] /\ float_lt b a = false /\ float_lt d c = false
  end.

Lemma finite_tests (v : f64) : finite v -> IsNaN v || IsInf v = false.
Proof. unfold finite, featureFinite. rewrite andb_true_iff, !negb_true_iff. by intros [-> ->]. Qed.

Lemma check_envelope_written (envelope : option (list f64)) :
  envelope_ok envelope -> check_envelope (default [] envelope) 0 (default [] envelope) = Ok tt.
Proof.
  destruct envelope as [vs|]; [|done]. intros (Hf & a & b & c & d & -> & H1 & H2). rewrite !Forall_cons in Hf.
  destruct Hf as ((_ & Ha%finite_tests) & (_ & Hb%finite_tests) & (_ & Hc%finite_tests) & (_ & Hd%finite_tests) & _).
  cbn [default id check_envelope Nat.even lookup list_lookup]. by rewrite Ha, H1, Hb, Hc, H2, Hd.
Qed.

Lemma decode_native_written (w : wire) (g : geometry) (srsID : Z) (envelope : option (list f64)) :
  -2 ^ 31 <= srsID < 2 ^ 31 -> envelope_ok envelope ->
  wire_accepted (wire_bytes w) w -> blen (wire_bytes w) <= rawMaxInputBytes -> wire_geometry w = Some g -> gpkg_empty g = false ->
  decode_native (VBytes (encodeGPKGGeometry (wire_bytes w) srsID envelope)) = Ok (Some g).
Proof.
  intros Hs He Hw Hl Hg Hne.
  destruct (proj1 NewBinaryHeader_roundtrip (wire_bytes w) srsID envelope Hs) as (h & Hh & _ & Ee & Est & Em & Et & Ed).
  { destruct envelope as [vs|]; [|constructor]. eapply Forall_impl; [exact (proj1 He)|]. tauto. }
  { intros vs ->. by destruct He as (_ & a & b & c & d & -> & _). }
  cbn [decode_native]. rewrite Hh. cbn [lift rbind]. rewrite Est, Ee, check_envelope_written by done. cbn [negb rbind].
  pose proof (NewBinaryHeader_size _ _ Hh) as (_ & Hsz & _). decide_ltb. rewrite Ed.
  assert (DecodeRawWKB (VBytes (wire_bytes w)) = Ok (Some g)) as -> by (apply DecodeRawWKB_Ok; right; by exists (wire_bytes w), w).
  cbn [lift rbind spatialGeometryEmpty]. rewrite Em, Hne, Et. by destruct envelope.
Qed.

End Decode.
