(* ===== verification/FeatureQuery.v ===== *)
(** * provider/query: feature queries

    The query of features that the services hand to a provider, its structural
    validation (query.go), and the result of a page. *)

From Stdlib Require Import QArith.
From S2P Require Import Prelude GoText Temporal Filter RawGeom FeatureExtent FeatureSpatial.

#[local] Open Scope Z_scope.

Record FeatureQuery := mkQuery {
  q_Bounds : list Extent;
  q_Bounds3D : list Box;
  q_BoundsVerticalCRS : gostring;
  q_BoundsSRID : Z;
  q_BoundsCRSDefinition : gostring;
  q_Temporal : option TemporalConstraint;
  q_Filter : option FilterExpression;
  q_IDs : list Z;
  q_Limit : Z;
  q_Offset : Z;
  q_Fields : list gostring
}.

Definition MaxFeatureCRSDefinitionBytes : Z := 65536.

Definition reject (bad : bool) (field reason : string) : result QueryError unit :=
  if bad then Err (InvalidFeatureQueryError field reason) else Ok tt.

Definition validate_bounds3d (b : Box) : result QueryError unit :=
  check? reject (existsb nonfinite (map (axis3 (box_min b)) [0; 1; 2]%nat ++ map (axis3 (box_max b)) [0; 1; 2]%nat))
           "bounds3d" "coordinates must be finite" in
  reject (existsb (fun axis => float_lt (axis3 (box_max b) axis) (axis3 (box_min b) axis)) [0; 1; 2]%nat) "bounds3d" "minimum exceeds maximum".

Definition validate_bounds (b : Extent) : result QueryError unit :=
  check? reject (existsb nonfinite [e_minx b; e_miny b; e_maxx b; e_maxy b]) "bounds" "coordinates must be finite" in
  reject (float_lt (e_maxx b) (e_minx b) || float_lt (e_maxy b) (e_miny b)) "bounds" "minimum exceeds maximum".

(** The loop over the fields, with the names seen so far. *)
Fixpoint validate_fields (seen fields : list gostring) : result QueryError unit :=
  match fields with
  | [] => Ok tt
  | field :: fields =>
      check? reject (beq (TrimSpace field) []) "fields" "contains an empty property name" in
      check? reject (existsb (beq field) seen) "fields" "contains a duplicate property name" in
      validate_fields (field :: seen) fields
  end.

Definition hasBounds (q : FeatureQuery) : bool := negb (is_nil (q_Bounds q)) || negb (is_nil (q_Bounds3D q)).

Definition Query_Validate (q : FeatureQuery) : result QueryError unit :=
  check? reject (q_Limit q =? 0) "limit" "must be positive" in
  check? reject (2 ^ 64 - 1 - q_Limit q <? q_Offset q) "offset" "offset and limit overflow" in
  check? reject (negb (is_nil (q_Bounds q)) && negb (is_nil (q_Bounds3D q)))
           "bounds" "horizontal and three-dimensional bounds are mutually exclusive" in
  let definition := q_BoundsCRSDefinition q in
  check? reject (negb (beq definition []) &&
                 (negb (hasBounds q) || beq (TrimSpace definition) [] || (MaxFeatureCRSDefinitionBytes <? blen definition)
                  || negb (ValidString definition) || existsb (fun c => code c =? 0) definition))
           "bounds_crs_definition" "requires bounds and a bounded nonblank definition" in
  check? reject (negb (hasBounds q) && negb (q_BoundsSRID q =? 0)) "bounds_srid" "requires bounds" in
  check? reject (hasBounds q && (q_BoundsSRID q =? 0)) "bounds_srid" "must be positive with bounds" in
  check? reject (is_nil (q_Bounds3D q) && negb (beq (q_BoundsVerticalCRS q) [])) "bounds_vertical_crs" "requires three-dimensional bounds" in
  check? reject (negb (is_nil (q_Bounds3D q)) && beq (TrimSpace (q_BoundsVerticalCRS q)) [])
           "bounds_vertical_crs" "required with three-dimensional bounds" in
  check? rfold (fun b _ => validate_bounds3d b) (q_Bounds3D q) tt in
  check? rfold (fun b _ => validate_bounds b) (q_Bounds q) tt in
  check? match q_Temporal q with Some t => TemporalConstraint_Validate t | None => Ok tt end in
  check? match q_Filter q with Some f => Expression_Validate f | None => Ok tt end in
  validate_fields [] (q_Fields q).

(** The result of a page; an unknown total is [None]. *)
Record FeatureQueryResult := mkQueryResult { r_NumberReturned : Z; r_NumberMatched : option Z; r_HasMore : bool }.

(** The widths of the fields: limit, offset and reference system are unsigned 64-bit. *)
Definition query_typed (q : FeatureQuery) : Prop :=
  0 <= q_Limit q < 2 ^ 64 /\ 0 <= q_Offset q < 2 ^ 64 /\ 0 <= q_BoundsSRID q < 2 ^ 64.

(** ** Lemmas *)

Lemma reject_Ok (b : bool) (field reason : string) : reject b field reason = Ok tt <-> b = false.
Proof. unfold reject. by destruct b. Qed.

Lemma finite_nonfinite (b : f64) : nonfinite b = false <-> finite b.
Proof. unfold nonfinite, finite, featureFinite. destruct (IsNaN b), (IsInf b); cbn; intuition congruence. Qed.

Lemma existsb_false {A : Type} (f : A -> bool) (l : list A) : existsb f l = false <-> Forall (fun a => f a = false) l.
Proof. induction l as [|a l IH]; cbn; [by rewrite Forall_nil|]. by rewrite orb_false_iff, Forall_cons, IH. Qed.

Lemma ordered_coord (a b : f64) : finite a -> finite b -> float_lt b a = false <-> (coord a <= coord b)%Q.
Proof.
  intros Ha Hb. rewrite <- not_true_iff_false, float_lt_coord by done. split; [apply Qnot_lt_le|apply Qle_not_lt].
Qed.

Lemma validate_bounds_Ok (b : Extent) : validate_bounds b = Ok tt <-> valid_extent b.
Proof.
  unfold validate_bounds. rewrite rbind_unit, !reject_Ok, existsb_false, orb_false_iff. split.
  - intros (Hf & Hx & Hy). rewrite !Forall_cons, !finite_nonfinite in Hf. destruct Hf as (? & ? & ? & ? & _).
    split; [by rewrite !Forall_cons|by apply ordered_coord..].
  - intros [Hf Hx Hy]. rewrite !Forall_cons in Hf. destruct Hf as (? & ? & ? & ? & _).
    split; [by rewrite !Forall_cons, !finite_nonfinite|]. by split; apply ordered_coord.
Qed.

Lemma validate_bounds3d_Ok (b : Box) : validate_bounds3d b = Ok tt <-> valid_box b.
Proof.
  unfold validate_bounds3d. rewrite rbind_unit, !reject_Ok, !existsb_false, Forall_app, !Forall_map. split.
  - intros [[H1 H2] H3]. rewrite !Forall_cons, ?finite_nonfinite in *. destruct H1 as (? & ? & ? & _), H2 as (? & ? & ? & _), H3 as (? & ? & ? & _).
    split; unfold finite3; rewrite !Forall_cons; split_and!; try done; by apply ordered_coord.
  - intros [H1 H2 H3]. unfold finite3 in *. rewrite !Forall_cons, ?finite_nonfinite in *.
    destruct H1 as (? & ? & ? & _), H2 as (? & ? & ? & _), H3 as (? & ? & ? & _). split_and!; try done; by apply ordered_coord.
Qed.

Lemma validate_fields_Ok (seen fields : list gostring) :
  validate_fields seen fields = Ok tt <-> Forall (fun f => TrimSpace f <> [] /\ f ∉ seen) fields /\ NoDup fields.
Proof.
  revert seen. induction fields as [|f fields IH]; intros seen; cbn [validate_fields].
  - rewrite Forall_nil. split; [split; [done|constructor]|done].
  - rewrite !rbind_unit, !reject_Ok, IH, Forall_cons, NoDup_cons, beq_false, existsb_false, !Forall_forall.
    setoid_rewrite not_elem_of_cons. setoid_rewrite beq_false.
    split.
    + intros (H1 & H2 & H3 & H4). split_and!; try done.
      * intros Hf. by eapply H2.
      * intros x Hx. by destruct (H3 x Hx) as (? & ? & ?).
      * intros Hf. by destruct (H3 f Hf) as (_ & ? & _).
    + intros (((H1 & H2) & H3) & H4 & H5). split_and!; try done; [by intros x Hx ->|].
      intros x Hx. destruct (H3 x Hx) as [? ?]. split_and!; try done. by intros ->.
Qed.

(** What a valid query promises the providers. *)
Record valid_query (q : FeatureQuery) : Prop := {
  vq_limit : 0 < q_Limit q;
  vq_window : q_Offset q + q_Limit q < 2 ^ 64;
  vq_exclusive : q_Bounds q = [] \/ q_Bounds3D q = [];
  vq_srid : q_BoundsSRID q <> 0 <-> q_Bounds q <> [] \/ q_Bounds3D q <> [];
  vq_bounds : Forall valid_extent (q_Bounds q);
  vq_bounds3d : Forall valid_box (q_Bounds3D q);
  vq_fields : NoDup (q_Fields q)
}.

Lemma Query_Validate_valid (q : FeatureQuery) : query_typed q -> Query_Validate q = Ok tt -> valid_query q.
Proof.
  intros (Hl & Ho & Hs). unfold Query_Validate. rewrite !rbind_unit, !reject_Ok, !rfold_check, validate_fields_Ok.
  intros (H1 & H2 & H3 & _ & H5 & H6 & _ & _ & H9 & H10 & _ & _ & _ & H11).
  apply Z.eqb_neq in H1. apply Z.ltb_ge in H2. unfold hasBounds in *. split; try lia; try done.
  - destruct (q_Bounds q), (q_Bounds3D q); cbn in H3; auto; done.
  - destruct (q_Bounds q), (q_Bounds3D q), (Z.eqb_spec (q_BoundsSRID q) 0); cbn in *; try done; intuition congruence.
  - eapply Forall_impl; [exact H10|]. intros b. apply validate_bounds_Ok.
  - eapply Forall_impl; [exact H9|]. intros b. apply validate_bounds3d_Ok.
Qed.
