(* ===== verification/GpkgSpatial.v ===== *)
(** * provider/gpkg: the exact spatial predicate of a query

    Whether the geometry of a row meets the bounds of a query (query_spatial.go): the
    choice of the projections, the transformation into the frame of the bounds and the
    tests there.  Projections are records of their two directions; the projection
    engine itself is an argument. *)

From S2P Require Import Prelude GoText Temporal RawGeom FeatureExtent FeatureSpatial FeatureTransform GpkgGeometry FeatureQuery.

#[local] Open Scope Z_scope.

(** ** Projections *)

(** A horizontal projection between its own coordinates and longitude and latitude;
    [pr_srid] is the identifier of its profile. *)
Record projection := mkProjection { pr_forward : transformation; pr_inverse : transformation; pr_srid : Z }.

(** A method of a projection that is nil is an error. *)
Definition Forward (p : option projection) : transformation :=
  match p with Some p => pr_forward p | None => fun _ => Err (SpatialErr (B "projection is nil")) end.

Definition Inverse (p : option projection) : transformation :=
  match p with Some p => pr_inverse p | None => fun _ => Err (SpatialErr (B "projection is nil")) end.

Definition CanonicalSRID (p : option projection) : Z := match p with Some p => pr_srid p | None => 0 end.

Definition float_neg (b : f64) : f64 := if b <? 2 ^ 63 then b + 2 ^ 63 else b - 2 ^ 63.

Definition CRS84h : gostring := B "http://www.opengis.net/def/crs/OGC/0/CRS84h".

Record spatialQuery := mkSpatialQuery {
  sq_source : option projection; sq_target : option projection;
  sq_pinnedSource : option projection; sq_pinnedTarget : option projection
}.

(** What the layer knows of its coordinates. *)
Record spatial_layer := mkSpatialLayer {
  sl_heightProjection : option projection; sl_featureCRSProjection : option projection; sl_featureCRSError : bool
}.

Section Setup.
(** The projections of the library, by identifier and by definition. *)
Context (NewHeightProjection : Z -> result gostring projection) (NewFeatureProjection : gostring -> result gostring projection).

Definition newSpatialQuery (layer : spatial_layer) (q : FeatureQuery) : result geometry_error spatialQuery :=
  let source := sl_heightProjection layer in
  if negb (is_nil (q_Bounds3D q)) && negb (beq (q_BoundsVerticalCRS q) CRS84h) then Err (GUnsupported (B "query height reference"))
  else if negb (beq (q_BoundsCRSDefinition q) []) then
    match sl_featureCRSProjection layer, sl_featureCRSError layer with
    | Some p, false =>
        match NewFeatureProjection (q_BoundsCRSDefinition q) with
        | Err _ => Err (GUnsupported (B "query CRS definition unsupported"))
        | Ok target => Ok (mkSpatialQuery source None (Some p) (Some target))
        end
    | _, _ => Err (GUnsupported (B "source CRS proof unavailable"))
    end
  else
    match source with
    | Some _ =>
        if hasBounds q then
          match NewHeightProjection (q_BoundsSRID q) with
          | Err e => Err (GUnsupported (B "query height projection: " ++ e))
          | Ok target => Ok (mkSpatialQuery source (Some target) None None)
          end
        else Ok (mkSpatialQuery source None None None)
    | None => Ok (mkSpatialQuery source None None None)
    end.

End Setup.

Section Matches.
(** The latitude whose Web Mercator image is the edge of the world, the equivalence of
    two projections, and the transformation of geometries through Web Mercator (package
    basic). *)
Context (mercatorLatitudeLimit : f64).
Context (Equivalent : projection -> option projection -> bool).
Context (through_mercator : Z -> Z -> geometry -> result geometry_error (option geometry)).

Definition ClampForwardDomain (srid : Z) (ll : pos2) : option pos2 :=
  if negb (srid =? 3857) then None
  else if float_lt mercatorLatitudeLimit (snd ll) then Some (fst ll, mercatorLatitudeLimit)
  else if float_lt (snd ll) (float_neg mercatorLatitudeLimit) then Some (fst ll, float_neg mercatorLatitudeLimit)
  else None.

Definition forwardWithDomainClamp (forward : transformation) (srid : Z) (ll : pos2) : result spatial_error pos2 :=
  match forward ll with
  | Ok xy => Ok xy
  | Err err =>
      match ClampForwardDomain srid ll with
      | None => Err err
      | Some clamped => match forward clamped with Ok xy => Ok xy | Err _ => Err err end
      end
  end.

Definition transformQueryGeometry (g : option geometry) (source target : Z) : result geometry_error (option geometry) :=
  match g with
  | None => Ok None
  | Some geo => if source =? target then Ok g else through_mercator source target geo
  end.

(** The transformation of a position by way of longitude and latitude. *)
Definition reproject (source target : option projection) (srid : Z) : transformation := fun p =>
  let? ll := Inverse source p in
  forwardWithDomainClamp (Forward target) srid ll.

(** The geometry in the frame of the bounds. *)
Definition query_frame (s : spatialQuery) (g : option geometry) (source : Z) (q : FeatureQuery) : result geometry_error (option geometry) :=
  let transform :=
    match sq_pinnedSource s with
    | Some p => negb (Equivalent p (sq_pinnedTarget s))
    | None => negb (source =? q_BoundsSRID q)
    end in
  if transform then
    match sq_pinnedSource s, sq_source s with
    | Some _, _ =>
        lift GSpatial (TransformFeatureSpatialGeometry g
          (Some (reproject (sq_pinnedSource s) (sq_pinnedTarget s) (CanonicalSRID (sq_pinnedTarget s)))))
    | None, Some _ =>
        lift GSpatial (TransformFeatureSpatialGeometry g (Some (reproject (sq_source s) (sq_target s) (q_BoundsSRID q))))
    | None, None => transformQueryGeometry g source (q_BoundsSRID q)
    end
  else Ok g.

Definition wrapped {A : Type} (r : result geometry_error A) : result geometry_error A :=
  match r with Ok a => Ok a | Err e => Err (wrapSpatialError e) end.

Definition matches (s : spatialQuery) (g : option geometry) (source : Z) (q : FeatureQuery) : result geometry_error bool :=
  if is_nil (q_Bounds q) && is_nil (q_Bounds3D q) then
    check? wrapped (lift GSpatial (ValidateFeatureSpatialGeometry g)) in
    Ok true
  else
    let? transformed := wrapped (query_frame s g source q) in
    let? matched := rfold (fun box matched =>
        let? ok := wrapped (lift GSpatial (FeatureGeometryIntersectsExtent3D transformed (Some box))) in
        Ok (matched || ok)) (q_Bounds3D q) false in
    match q_Bounds q with
    | [] => Ok matched
    | bounds =>
        let? xy := wrapped (lift GSpatial (FeatureGeometryXYProjection transformed)) in
        rfold (fun extent matched =>
          let? ok := lift GSpatial (FeatureGeometryIntersectsExtent xy (Some extent)) in
          Ok (matched || ok)) bounds matched
    end.

(** ** Lemmas *)

Lemma wrapped_Ok {A : Type} (r : result geometry_error A) (a : A) : wrapped r = Ok a <-> r = Ok a.
Proof. destruct r; cbn; [|done]. intuition congruence. Qed.

Lemma rfold_nil {E A S : Type} (f : A -> S -> result E S) (s : S) : rfold f [] s = Ok s.
Proof. done. Qed.

(** A loop that looks for a match in every element. *)
Lemma rfold_or {E A : Type} (f : A -> result E bool) (l : list A) (m b : bool) :
  rfold (fun a m => let? ok := f a in Ok (m || ok)) l m = Ok b <->
  exists bs, Forall2 (fun a ok => f a = Ok ok) l bs /\ b = m || existsb id bs.
Proof.
  revert m. induction l as [|a l IH]; intros m; cbn [rfold].
  - split; [intros [= <-]; exists []; split; [constructor|by rewrite orb_false_r]|].
    intros (bs & H & ->). inversion H. by rewrite orb_false_r.
  - rewrite !rbind_Ok. split.
    + intros (m' & (ok & Hok & [= <-])%rbind_Ok & (bs & H & ->)%IH). exists (ok :: bs). split; [by constructor|]. by rewrite <- orb_assoc.
    + intros (bs & H & ->). inversion H as [|? ok ? bs' Hok Hr]; subst. exists (m || ok). split; [apply rbind_Ok; by exists ok|].
      apply IH. exists bs'. split; [done|]. by rewrite <- orb_assoc.
Qed.

(** The same loop, when each test is decided by the element. *)
Lemma rfold_search {E A : Type} (f : A -> result E bool) (p : A -> bool) (ok : Prop) (l : list A) (m b : bool) :
  l <> [] -> (forall a r, a ∈ l -> f a = Ok r <-> ok /\ r = p a) ->
  rfold (fun a m => let? ok := f a in Ok (m || ok)) l m = Ok b <-> ok /\ b = m || existsb p l.
Proof.
  intros Hn Hf. rewrite rfold_or. split.
  - intros (bs & H & ->). split.
    + destruct H as [|a r l bs H _]; [done|]. apply (Hf a r); [left|done].
    + f_equal. clear Hn. induction H as [|a r l bs H _ IH]; [done|]. cbn. rewrite IH by (intros; apply Hf; by right).
      apply Hf in H as [_ ->]; [done|left].
  - intros [Hok ->]. exists (map p l). split; [|f_equal; clear; induction l as [|a l IH]; cbn; [done|by rewrite IH]].
    apply Forall2_fmap_r, Forall_Forall2_diag, Forall_forall. intros a Ha. by apply Hf.
Qed.

Lemma and_iff_compat_l' (A C D : Prop) : (A -> C <-> D) -> A /\ C <-> A /\ D.
Proof. tauto. Qed.

Lemma exists_iff {A : Type} (P R : A -> Prop) : (forall a, P a <-> R a) -> (exists a, P a) <-> exists a, R a.
Proof. intros H. split; intros (a & Ha); exists a; by apply H. Qed.

(** The bounds of a query meet a geometry: there are none, the geometry is empty, or it
    meets one of the boxes, or its horizontal copy one of the extents. *)
Definition in_query_bounds (q : FeatureQuery) (g : option geometry) : Prop :=
  q_Bounds q = [] /\ q_Bounds3D q = [] \/ spatialEmpty g = true \/
  exists geo, g = Some geo /\ (Exists (fun box => meets3 box geo) (q_Bounds3D q) \/ Exists (fun e => meets e (xy_copy geo)) (q_Bounds q)).

(** The geometry the bounds are tested on: the given one when there are none. *)
Definition tested_geometry (s : spatialQuery) (g : option geometry) (source : Z) (q : FeatureQuery) : result geometry_error (option geometry) :=
  if hasBounds q then query_frame s g source q else Ok g.

(** A search for a member that a geometry meets, when each test lets the empty
    geometry pass. *)
Lemma search_exact {A : Type} (l : list A) (g : option geometry) (em : geometry -> bool) (p : A -> geometry -> bool) (M : A -> geometry -> Prop) :
  l <> [] -> (forall a geo, a ∈ l -> g = Some geo -> p a geo = true <-> em geo = true \/ M a geo) ->
  existsb (fun a => match g with Some geo => p a geo | None => true end) l = true <->
  match g with Some geo => em geo | None => true end = true \/ exists geo, g = Some geo /\ Exists (fun a => M a geo) l.
Proof.
  intros Hn Hp. destruct g as [geo|]; [|split; [by left|intros _; by destruct l]].
  rewrite (existsb_Exists _ (fun a => em geo = true \/ M a geo)) by (apply Forall_forall; auto). rewrite Exists_or. split.
  - intros [H|H]; [left; by apply Exists_exists in H as (? & _ & ?)|right; by exists geo].
  - intros [H|(? & [= <-] & H)]; [left|by right]. destruct l; [done|]. by left.
Qed.

Lemma bool_as_iff (b c : bool) (P : Prop) : (c = true <-> P) -> b = c <-> (b = true <-> P).
Proof. intros H. rewrite <- H. destruct b, c; intuition congruence. Qed.

Lemma boxes_exact (boxes : list Box) (g : option geometry) (b : bool) :
  boxes <> [] -> Forall valid_box boxes ->
  rfold (fun box matched =>
    let? ok := wrapped (lift GSpatial (FeatureGeometryIntersectsExtent3D g (Some box))) in
    Ok (matched || ok)) boxes false = Ok b <->
  ValidateFeatureSpatialGeometry g = Ok tt /\
  (b = true <-> spatialEmpty g = true \/ exists geo, g = Some geo /\ Exists (fun box => meets3 box geo) boxes).
Proof.
  intros Hn Hv. rewrite Forall_forall in Hv.
  rewrite (rfold_search _ (fun box => match g with Some g => spatial_empty g || spatial_intersects box g | None => true end)
    (ValidateFeatureSpatialGeometry g = Ok tt) boxes false b Hn).
  2: { intros box r Hb%Hv. rewrite wrapped_Ok, lift_Ok, box_Ok. tauto. }
  apply and_iff_compat_l'. intros Hs. apply bool_as_iff, (search_exact _ _ spatial_empty (fun box g => spatial_empty g || spatial_intersects box g)); [done|].
  intros box geo Hb%Hv ->. by apply box_intersects_exact.
Qed.

Lemma extents_exact (extents : list Extent) (g : option geometry) (b : bool) :
  extents <> [] -> Forall valid_extent extents -> ValidateFeatureSpatialGeometry g = Ok tt ->
  rfold (fun extent matched =>
    let? ok := lift GSpatial (FeatureGeometryIntersectsExtent (spatialXYCopy g) (Some extent)) in
    Ok (matched || ok)) extents false = Ok b <->
  (b = true <-> spatialEmpty g = true \/ exists geo, g = Some geo /\ Exists (fun e => meets e (xy_copy geo)) extents).
Proof.
  intros Hn Hv Hs. rewrite Forall_forall in Hv.
  assert (validateFeatureGeometry (spatialXYCopy g) = Ok tt) as Hx by (destruct g; [by apply xy_copy_valid|done]).
  rewrite (rfold_search _ (fun e => match g with Some g => geometry_intersects e (xy_copy g) | None => true end) True extents false b Hn).
  2: { intros e r He%Hv. rewrite lift_Ok, extent_Ok. destruct g; cbn [spatialXYCopy featureIntersects]; tauto. }
  transitivity (b = false || existsb (fun e => match g with Some g => geometry_intersects e (xy_copy g) | None => true end) extents); [tauto|].
  apply bool_as_iff, (search_exact _ _ spatial_empty (fun e g => geometry_intersects e (xy_copy g))); [done|].
  intros e geo He%Hv ->. rewrite <- xy_copy_empty. by apply geometry_intersects_exact.
Qed.

Lemma bounds_boxes (q : FeatureQuery) (g : option geometry) :
  q_Bounds q = [] -> q_Bounds3D q <> [] ->
  in_query_bounds q g <-> spatialEmpty g = true \/ exists geo, g = Some geo /\ Exists (fun box => meets3 box geo) (q_Bounds3D q).
Proof.
  unfold in_query_bounds. intros -> Hn. split.
  - intros [[_ H]|[H|(geo & Hg & [H|H])]]; [done|by left|right; by exists geo|by apply Exists_nil in H].
  - intros [H|(geo & Hg & H)]; right; [by left|right; exists geo; auto].
Qed.

Lemma bounds_extents (q : FeatureQuery) (g : option geometry) :
  q_Bounds3D q = [] -> q_Bounds q <> [] ->
  in_query_bounds q g <-> spatialEmpty g = true \/ exists geo, g = Some geo /\ Exists (fun e => meets e (xy_copy geo)) (q_Bounds q).
Proof.
  unfold in_query_bounds. intros -> Hn. split.
  - intros [[H _]|[H|(geo & Hg & [H|H])]]; [done|by left|by apply Exists_nil in H|right; by exists geo].
  - intros [H|(geo & Hg & H)]; right; [by left|right; exists geo; auto].
Qed.

Lemma matches_Ok (s : spatialQuery) (g : option geometry) (source : Z) (q : FeatureQuery) (b : bool) :
  valid_query q ->
  matches s g source q = Ok b <->
  exists t, tested_geometry s g source q = Ok t /\ ValidateFeatureSpatialGeometry t = Ok tt /\ (b = true <-> in_query_bounds q t).
Proof.
  intros [_ _ Hex _ Hb2 Hb3 _].
  unfold matches, tested_geometry, hasBounds.
  destruct (q_Bounds q) as [|e es] eqn:E2, (q_Bounds3D q) as [|bx bxs] eqn:E3; cbn [is_nil andb negb orb]; [| | |by destruct Hex].
  - rewrite rbind_unit, wrapped_Ok, lift_Ok. split.
    + intros [Hv [= <-]]. exists g. split_and!; [done..|]. split; [|done]. by left.
    + intros (t & [= <-] & Hv & H). split; [done|]. f_equal. symmetry. apply H. by left.
  - rewrite rbind_Ok. apply exists_iff. intros t. rewrite wrapped_Ok. apply and_iff_compat_l'. intros _.
    rewrite bounds_boxes by congruence. rewrite E3. rewrite <- boxes_exact by done.
    rewrite rbind_Ok. split; [by intros (? & ? & [= <-])|by eauto].
  - rewrite rbind_Ok. apply exists_iff. intros t. rewrite wrapped_Ok. apply and_iff_compat_l'. intros _.
    rewrite bounds_extents by congruence. rewrite E2, rfold_nil. cbn [rbind]. unfold FeatureGeometryXYProjection.
    rewrite rbind_Ok. setoid_rewrite wrapped_Ok. setoid_rewrite lift_Ok. setoid_rewrite rbind_unit. split.
    + intros (xy & (Hv & Hx) & Hf). injection Hx as <-. split; [done|]. by apply extents_exact in Hf.
    + intros [Hv H]. exists (spatialXYCopy t). split; [done|]. by apply extents_exact.
Qed.
End Matches.

