(* ===== verification/GpkgQuery.v ===== *)
(** * provider/gpkg: a page of features

    QueryFeatures (query.go) with the decoding of rows (row_decode.go): the checks of
    the request, the scan of the candidate rows in chunks that continue after the last
    identity, the exact predicate on each row, and the window of offset and limit that
    is delivered.  SQLite is the rows the WHERE clause selects; cancellation, the
    callback and failures of the database are oracles. *)

From Stdlib Require Import QArith.
From S2P Require Import Prelude GoText Temporal Filter Float64 FilterDialect FilterGpkg RawGeom FeatureExtent FeatureSpatial.
From S2P Require Import GpkgGeometry FeatureQuery GpkgSpatial.

#[local] Open Scope Z_scope.

(** ** Rows *)

(** A value the driver scans; a time is given by its RFC 3339 text. *)
Inductive sql_value :=
| SqlNull
| SqlInt (i : Z)
| SqlReal (b : f64)
| SqlText (s : gostring)
| SqlBlob (s : gostring)
| SqlBool (b : bool)
| SqlTime (rfc3339 : gostring)
| SqlOther (type_name : gostring).

Abbreviation row := (list sql_value).

(** The value of a tag; nil is the null of a selected property. *)
Inductive tag := TagNil | TagText (s : gostring) | TagInt (i : Z) | TagReal (b : f64) | TagBool (b : bool).

Record Feature := mkFeature { f_ID : Z; f_Geometry : option geometry; f_SRID : Z; f_Tags : gmap gostring tag }.

Inductive query_error :=
| QInvalid (e : QueryError)
| QUnsupported (text : gostring)
| QLayerNotFound (name : gostring)
| QContext (e : gostring)
| QDatabase (what e : gostring)
| QIdentity (text : gostring)
| QGeometry (e : geometry_error)
| QCallback (e : gostring)
| QData (e : query_error)
| QWrap (prefix : gostring) (e : query_error)
| QJoin (e e' : query_error).

Definition lift_query {A : Type} (r : result QueryError A) : result query_error A :=
  match r with Ok a => Ok a | Err e => Err (QInvalid e) end.

Definition lift_geometry {A : Type} (r : result geometry_error A) : result query_error A :=
  match r with Ok a => Ok a | Err e => Err (QGeometry e) end.

(** errors.Is for the two errors of a context. *)
Fixpoint is_context (e : query_error) : bool :=
  match e with
  | QContext _ => true
  | QData e | QWrap _ e => is_context e
  | QJoin e e' => is_context e || is_context e'
  | _ => false
  end.

Definition featureSourceError (e : query_error) : query_error := if is_context e then e else QData e.

Definition wrap_decode (e : query_error) : query_error :=
  match e with QGeometry e => QGeometry (wrapSpatialError e) | e => e end.

(** ** Identities and tags *)

(** [ConvertFeatureID] on the values of a driver. *)
Definition ConvertFeatureID (v : sql_value) : result query_error Z :=
  match v with
  | SqlReal b =>
      if nonfinite b || negb (Qle_bool 0 (coord b)) || negb (Qeq_bool (coord b) (inject_Z (Qfloor (coord b)))) || negb (Qfloor (coord b) <? 2 ^ 64)
      then Err (QIdentity (B "value is not an integer in [0, 2^64)"))
      else Ok (Qfloor (coord b))
  | SqlInt i => if i <? 0 then Err (QIdentity (B "value is negative")) else Ok i
  | SqlText s | SqlBlob s => match ParseUint s 64 with Some n => Ok n | None => Err (QIdentity (B "invalid syntax")) end
  | _ => Err (QIdentity (B "unable to convert"))
  end.

(** base64.StdEncoding. *)
Definition base64_digit (n : Z) : ascii :=
  byte_of (if n <? 26 then 65 + n else if n <? 52 then 71 + n else if n <? 62 then n - 4 else if n =? 62 then 43 else 47).

Fixpoint EncodeToString (s : gostring) : gostring :=
  match s with
  | [] => []
  | [a] => let x := code a in [base64_digit (x / 4); base64_digit (x mod 4 * 16); byte_of 61; byte_of 61]
  | [a; b] =>
      let x := code a in let y := code b in
      [base64_digit (x / 4); base64_digit (x mod 4 * 16 + y / 16); base64_digit (y mod 16 * 4); byte_of 61]
  | a :: b :: c :: rest =>
      let x := code a in let y := code b in let z := code c in
      [base64_digit (x / 4); base64_digit (x mod 4 * 16 + y / 16); base64_digit (y mod 16 * 4 + z / 64); base64_digit (z mod 64)] ++ EncodeToString rest
  end.

(** The tag of a value that is not null; an unexpected type has none. *)
Definition tag_of (v : sql_value) : option tag :=
  match v with
  | SqlBlob s => Some (TagText (EncodeToString s))
  | SqlText s => Some (TagText s)
  | SqlInt i => Some (TagInt i)
  | SqlReal b => Some (TagReal b)
  | SqlBool b => Some (TagBool b)
  | SqlTime t => Some (TagText t)
  | SqlNull | SqlOther _ => None
  end.

Definition raw_of (v : sql_value) : raw_value :=
  match v with
  | SqlNull => VNil
  | SqlBlob s => VBytes s
  | SqlText s => RawGeom.VString s
  | SqlInt _ => VOther (B "int64")
  | SqlReal _ => VOther (B "float64")
  | SqlBool _ => VOther (B "bool")
  | SqlTime _ => VOther (B "time.Time")
  | SqlOther t => VOther t
  end.

(** ** The layer *)

Record Layer := mkLayer {
  l_name : gostring;
  l_idFieldname : gostring;
  l_geomFieldname : gostring;
  l_geometry : geometry_layer;
  l_srid : Z;
  l_bboxFields : gostring -> bool;
  l_tagFieldnames : list gostring;
  l_featureColumns : list gostring;
  l_temporalMapping : TemporalMapping;
  l_filter : filter_layer;
  l_spatial : spatial_layer;
  l_mapplSQLSample : bool
}.

Definition DefaultSRID : Z := 3857.

Definition resolvedLayerSRID (layer : Layer) : Z := if l_srid layer =? 0 then DefaultSRID else l_srid layer.

(** The kind of the filter column of a name; an absent column has none. *)
Definition boolean_column (layer : Layer) (column : gostring) : bool :=
  match ly_profile (l_filter layer) with
  | Some profile => match fp_columns profile !! column with Some c => bool_decide (fc_kind c = QueryableBoolean) | None => false end
  | None => false
  end.

Section Query.
(** strings.EqualFold and strings.ToLower; the decoders of the other formats and of the
    values of tiles; the test for the self-description of a MOS layer. *)
Context (EqualFold : gostring -> gostring -> bool) (ToLower : gostring -> gostring).
Context (decodeRawWKT decodeMOS decodeTile : raw_value -> result geometry_error (option geometry)) (IsSystemInfoValue : sql_value -> bool).

Definition containsFold (fields : list gostring) (field : gostring) : bool := existsb (fun candidate => EqualFold candidate field) fields.

Definition private_field (layer : Layer) (field : gostring) : bool :=
  EqualFold field (l_idFieldname layer) || EqualFold field (l_geomFieldname layer) || l_bboxFields layer field
  || EqualFold field (B "min_zoom") || EqualFold field (B "max_zoom").

(** The public fields: the loop keeps the first of the names that fold to the same. *)
Definition public_fields (layer : Layer) : list gostring :=
  let available := match l_tagFieldnames layer with [] => l_featureColumns layer | names => names end in
  foldl (fun public field => if private_field layer field || containsFold public field then public else public ++ [field]) [] available.

Fixpoint resolve_fields (public resolved requested : list gostring) : result QueryError (list gostring) :=
  match requested with
  | [] => Ok resolved
  | field :: requested =>
      match find (fun candidate => EqualFold field candidate) public with
      | Some found =>
          if beq found [] || containsFold resolved found then Err (invalidQuery "fields" "unknown or duplicate published property")
          else resolve_fields public (resolved ++ [found]) requested
      | None => Err (invalidQuery "fields" "unknown or duplicate published property")
      end
  end.

Definition resolveQueryFields (layer : Layer) (requested : list gostring) : result QueryError (list gostring) :=
  match requested with
  | [] => Ok (public_fields layer)
  | _ => resolve_fields (public_fields layer) [] requested
  end.

Definition queryColumns (layer : Layer) (fields : list gostring) : list gostring :=
  let m := l_temporalMapping layer in
  foldl (fun columns field => if beq field [] || containsFold columns field then columns else columns ++ [field])
    [l_idFieldname layer; l_geomFieldname layer] (fields ++ [InstantField m; StartField m; EndField m]).

(** ** Decoding a row *)

Record rowDecodePolicy := mkPolicy { tolerateAutoDetectedMOS : bool; dimensionalRaw : bool }.

Record row_state := mkRowState {
  rs_id : Z; rs_geometry : option geometry; rs_tags : gmap gostring tag; rs_skipRow : bool; rs_hadAbsentGeometry : bool
}.

Definition skip_row (st : row_state) : row_state := mkRowState (rs_id st) (rs_geometry st) (rs_tags st) true (rs_hadAbsentGeometry st).
Definition absent_geometry (st : row_state) : row_state := mkRowState (rs_id st) (rs_geometry st) (rs_tags st) (rs_skipRow st) true.

(** The body of the loop over the columns. *)
Definition decode_column (layer : Layer) (policy : rowDecodePolicy) (column : gostring) (value : sql_value) (st : row_state)
    : result query_error row_state :=
  match value with
  | SqlNull =>
      if EqualFold column (l_geomFieldname layer) then Ok (absent_geometry st)
      else if EqualFold column (l_idFieldname layer) then Ok (skip_row st)
      else Ok st
  | _ =>
      if EqualFold column (l_idFieldname layer) then
        let? id := ConvertFeatureID value in
        Ok (mkRowState id (rs_geometry st) (rs_tags st) (rs_skipRow st) (rs_hadAbsentGeometry st))
      else if EqualFold column (l_geomFieldname layer) then
        if beq (gl_format (l_geometry layer)) (B "mos") && IsSystemInfoValue value then Ok (skip_row st)
        else
          match (if dimensionalRaw policy then decodeRawGeometryValue decodeRawWKT decodeMOS (raw_of value) (l_geometry layer) else decodeTile (raw_of value)) with
          | Err e => if tolerateAutoDetectedMOS policy && l_mapplSQLSample layer then Ok (skip_row st) else Err (QGeometry e)
          | Ok None => Ok (absent_geometry st)
          | Ok (Some g) => Ok (mkRowState (rs_id st) (Some g) (rs_tags st) (rs_skipRow st) (rs_hadAbsentGeometry st))
          end
      else if l_bboxFields layer column then Ok st
      else if beq (ToLower column) (B "min_zoom") || beq (ToLower column) (B "max_zoom") then Ok st
      else
        match tag_of value with
        | Some t => Ok (mkRowState (rs_id st) (rs_geometry st) (<[column := t]> (rs_tags st)) (rs_skipRow st) (rs_hadAbsentGeometry st))
        | None => Ok st
        end
  end.

(** The loop; [polls] counts the questions to the context, [ctx] answers them. *)
Fixpoint decode_columns (ctx : nat -> option gostring) (polls : nat) (layer : Layer) (policy : rowDecodePolicy)
    (cells : list (gostring * sql_value)) (st : row_state) : result query_error row_state :=
  match cells with
  | [] => Ok st
  | (column, value) :: cells =>
      match ctx polls with
      | Some e => Err (QContext e)
      | None => let? st := decode_column layer policy column value st in decode_columns ctx (S polls) layer policy cells st
      end
  end.

Record decodedRow := mkDecodedRow { d_Feature : Feature; d_Representable : bool; d_HadAbsentGeometry : bool }.

Definition decodeRow (ctx : nat -> option gostring) (polls : nat) (layer : Layer) (columns : list gostring) (values : row)
    (policy : rowDecodePolicy) : result query_error decodedRow :=
  match ctx polls with
  | Some e => Err (QContext e)
  | None =>
      let? st := decode_columns ctx (S polls) layer policy (combine columns values) (mkRowState 0 None ∅ false false) in
      Ok (mkDecodedRow (mkFeature (rs_id st) (rs_geometry st) (resolvedLayerSRID layer) (rs_tags st)) (negb (rs_skipRow st)) (rs_hadAbsentGeometry st))
  end.

(** ** Temporal values *)

Fixpoint temporal_cells (m : TemporalMapping) (cells : list (gostring * sql_value)) (start last : option Z)
    : result QueryError (option Z * option Z) :=
  match cells with
  | [] => Ok (start, last)
  | (column, value) :: cells =>
      if negb (beq column (InstantField m)) && negb (beq column (StartField m)) && negb (beq column (EndField m))
      then temporal_cells m cells start last
      else
        match value with
        | SqlNull => temporal_cells m cells start last
        | SqlInt v =>
            temporal_cells m cells (if beq column (StartField m) then Some v else start) (if beq column (EndField m) then Some v else last)
        | _ => Err (invalidQuery "temporal" "source value is not an INTEGER")
        end
  end.

Definition validateTemporalRow (layer : Layer) (columns : list gostring) (values : row) : result QueryError unit :=
  let m := l_temporalMapping layer in
  if beq (InstantField m) [] && beq (StartField m) [] && beq (EndField m) [] then Ok tt
  else
    let? bounds := temporal_cells m (combine columns values) None None in
    match bounds with
    | (Some start, Some last) => if last <? start then Err (invalidQuery "temporal" "source interval is reversed") else Ok tt
    | _ => Ok tt
    end.

(** ** The scan *)

(** The context, the callback, and the failures of the database: of the snapshot, of the
    check of the filtered columns, of the statement, the rows, the end and the close of
    each chunk, and of the final rollback. *)
Record environment := mkEnvironment {
  env_ctx : nat -> option gostring;
  env_callback : nat -> Feature -> option gostring;
  env_begin : option gostring;
  env_verify : option query_error;
  env_query : nat -> option gostring;
  env_row : nat -> option gostring;
  env_iteration : nat -> option gostring;
  env_close : nat -> option gostring;
  env_rollback : option gostring
}.

(** The variables of the scan: the last identity, the counts, the features handed to the
    callback, and the numbers of questions to the context and of rows so far. *)
Record scan := mkScan {
  s_cursor : Z; s_started : bool; s_matched : Z; s_returned : Z; s_more : bool;
  s_delivered : list Feature; s_polls : nat; s_rows : nat
}.

Definition polled (n : nat) (st : scan) : scan :=
  mkScan (s_cursor st) (s_started st) (s_matched st) (s_returned st) (s_more st) (s_delivered st) (s_polls st + n) (s_rows st).
Definition at_identity (id : Z) (st : scan) : scan :=
  mkScan id true (s_matched st) (s_returned st) (s_more st) (s_delivered st) (s_polls st) (s_rows st).
Definition one_matched (st : scan) : scan :=
  mkScan (s_cursor st) (s_started st) ((s_matched st + 1) mod 2 ^ 64) (s_returned st) (s_more st) (s_delivered st) (s_polls st) (s_rows st).
Definition has_more (st : scan) : scan :=
  mkScan (s_cursor st) (s_started st) (s_matched st) (s_returned st) true (s_delivered st) (s_polls st) (s_rows st).
Definition handed (f : Feature) (st : scan) : scan :=
  mkScan (s_cursor st) (s_started st) (s_matched st) (s_returned st) (s_more st) (s_delivered st ++ [f]) (s_polls st) (s_rows st).
Definition one_returned (st : scan) : scan :=
  mkScan (s_cursor st) (s_started st) (s_matched st) ((s_returned st + 1) mod 2 ^ 64) (s_more st) (s_delivered st) (s_polls st) (s_rows st).
Definition one_row (st : scan) : scan :=
  mkScan (s_cursor st) (s_started st) (s_matched st) (s_returned st) (s_more st) (s_delivered st) (s_polls st) (S (s_rows st)).

(** The boolean columns of a filtered query, which are read as 0 and 1. *)
Fixpoint convert_booleans (layer : Layer) (cells : list (gostring * sql_value)) : result query_error row :=
  match cells with
  | [] => Ok []
  | (column, value) :: cells =>
      let? value :=
        match boolean_column layer column, value with
        | false, _ | _, SqlNull => Ok value
        | true, SqlInt i =>
            if (i =? 0) || (i =? 1) then Ok (SqlBool (i =? 1))
            else Err (featureSourceError (QInvalid (invalidQuery "source" "invalid boolean scalar")))
        | true, _ => Err (featureSourceError (QInvalid (invalidQuery "source" "invalid boolean scalar")))
        end in
      let? values := convert_booleans layer cells in
      Ok (value :: values)
  end.

(** The identity, the first column. *)
Definition row_identity (values : row) : result query_error (option Z) :=
  match values with
  | SqlNull :: _ => Ok None
  | SqlInt id :: _ =>
      if id <? 0 then Err (featureSourceError (QInvalid (invalidQuery "id" "source identity is not a nonnegative INTEGER"))) else Ok (Some id)
  | _ => Err (featureSourceError (QInvalid (invalidQuery "id" "source identity is not a nonnegative INTEGER")))
  end.

(** The tags that are delivered: the selected ones, and the nulls among them. *)
Definition selected_tags (fields : list gostring) (cells : list (gostring * sql_value)) (tags : gmap gostring tag) : gmap gostring tag :=
  foldl (fun tags cell => match cell with
                          | (column, SqlNull) => if containsFold fields column then <[column := TagNil]> tags else tags
                          | _ => tags
                          end)
    (filter (fun kv => containsFold fields (fst kv) = true) tags) cells.

Section Scan.
Context (mercatorLatitudeLimit : f64) (Equivalent : projection -> option projection -> bool).
Context (through_mercator : Z -> Z -> geometry -> result geometry_error (option geometry)).
Context (env : environment) (layer : Layer) (q : FeatureQuery) (spatial : spatialQuery) (fields columns : list gostring).

(** The function that handles a row; it says whether to stop. *)
Definition on_row (st : scan) (values : row) : scan * result query_error bool :=
  match (match q_Filter q with Some _ => convert_booleans layer (combine columns values) | None => Ok values end) with
  | Err e => (st, Err e)
  | Ok values =>
      match row_identity values with
      | Err e => (st, Err e)
      | Ok id =>
          let st := match id with Some id => at_identity id st | None => st end in
          match decodeRow (env_ctx env) (s_polls st) layer columns values (mkPolicy false true) with
          | Err e => (st, Err (QWrap (B "gpkg feature decode: ") (featureSourceError (wrap_decode e))))
          | Ok decoded =>
              let st := polled (S (length (combine columns values))) st in
              if negb (d_Representable decoded) then (st, Ok false)
              else
                match validateTemporalRow layer columns values with
                | Err e => (st, Err (featureSourceError (QInvalid e)))
                | Ok _ =>
                    let f := d_Feature decoded in
                    let geometry := if d_HadAbsentGeometry decoded then None else f_Geometry f in
                    match matches mercatorLatitudeLimit Equivalent through_mercator spatial geometry (f_SRID f) q with
                    | Err e => (st, Err (QGeometry e))
                    | Ok false => (st, Ok false)
                    | Ok true =>
                        let st := one_matched st in
                        if s_matched st <=? q_Offset q then (st, Ok false)
                        else if s_returned st =? q_Limit q then (has_more st, Ok true)
                        else
                          let feature := mkFeature (f_ID f) geometry (f_SRID f) (selected_tags fields (combine columns values) (f_Tags f)) in
                          let calls := length (s_delivered st) in
                          let st := handed feature st in
                          match env_callback env calls feature with
                          | Some e => (st, Err (QWrap (B "gpkg feature callback: ") (QCallback e)))
                          | None =>
                              let st := one_returned st in
                              match env_ctx env (s_polls st) with
                              | Some e => (st, Err (QContext e))
                              | None => (polled 1 st, Ok false)
                              end
                          end
                    end
                end
          end
      end
  end.

(** The loop of [scanFeatureCandidates] over the rows of a chunk. *)
Fixpoint scan_rows (chunk : nat) (st : scan) (read : nat) (rows : list row) : scan * nat * result query_error bool :=
  match rows with
  | [] =>
      match env_iteration env chunk with
      | Some e => (st, read, Err (QDatabase (B "gpkg feature candidate iteration") e))
      | None => (st, read, Ok false)
      end
  | values :: rows =>
      match env_ctx env (s_polls st) with
      | Some e => (st, read, Err (QContext e))
      | None =>
          match env_row env (s_rows st) with
          | Some e => (polled 1 st, read, Err (QDatabase (B "gpkg feature row scan") e))
          | None =>
              let '(st, out) := on_row (one_row (polled 1 st)) values in
              match out with
              | Ok false => scan_rows chunk st (S read) rows
              | _ => (st, S read, out)
              end
          end
      end
  end.

Definition scanFeatureCandidates (chunk : nat) (st : scan) (rows : list row) : scan * nat * result query_error bool :=
  match env_query env chunk with
  | Some e => (st, O, Err (QDatabase (B "gpkg feature candidate query") e))
  | None =>
      let '(st, read, out) := scan_rows chunk st 0 rows in
      match env_close env chunk with
      | None => (st, read, out)
      | Some e =>
          let close := QDatabase (B "gpkg feature candidate close") e in
          (st, read, Err (match out with Err e => QJoin e close | Ok _ => close end))
      end
  end.

(** Whether SQLite puts the identity of a row after an integer: numbers by value, then
    texts, then blobs; null is not comparable. *)
Definition above (cursor : Z) (values : row) : bool :=
  match values with
  | SqlInt id :: _ => cursor <? id
  | SqlReal b :: _ => negb (Qle_bool (coord b) (inject_Z cursor))
  | SqlText _ :: _ | SqlBlob _ :: _ => true
  | _ => false
  end.

Definition featureCandidateChunk : nat := 256.

(** The rows of the next statement: those of the candidates after the last identity. *)
Definition chunk_rows (candidates : list row) (st : scan) : list row :=
  take featureCandidateChunk (if s_started st then filter (fun r => above (s_cursor st) r = true) candidates else candidates).

(** The loop over the chunks: the state, the error and the number of matches if known. *)
Fixpoint scan_loop (fuel chunk : nat) (candidates : list row) (st : scan) : option (scan * option query_error * option Z) :=
  match fuel with
  | O => None
  | S fuel =>
      match env_ctx env (s_polls st) with
      | Some e => Some (st, Some (QContext e), None)
      | None =>
          let st := polled 1 st in
          let '(st, read, out) := scanFeatureCandidates chunk st (chunk_rows candidates st) in
          match out with
          | Err e => Some (st, Some e, None)
          | Ok true => Some (st, None, None)
          | Ok false =>
              if (read <? featureCandidateChunk)%nat || negb (s_started st) then Some (st, None, Some (s_matched st))
              else scan_loop fuel (S chunk) candidates st
          end
      end
  end.

(** *** The feature of a row *)

(** What a row is for the query when nothing interrupts: a feature that matches, or none. *)
Definition row_feature (values : row) : result query_error (option Feature) :=
  let? values := match q_Filter q with Some _ => convert_booleans layer (combine columns values) | None => Ok values end in
  let? _ := row_identity values in
  let? decoded := decodeRow (fun _ => None) 0 layer columns values (mkPolicy false true) in
  if negb (d_Representable decoded) then Ok None
  else
    check? lift_query (validateTemporalRow layer columns values) in
    let f := d_Feature decoded in
    let geometry := if d_HadAbsentGeometry decoded then None else f_Geometry f in
    let? matched := lift_geometry (matches mercatorLatitudeLimit Equivalent through_mercator spatial geometry (f_SRID f) q) in
    if matched then Ok (Some (mkFeature (f_ID f) geometry (f_SRID f) (selected_tags fields (combine columns values) (f_Tags f)))) else Ok None.

Lemma decode_columns_calm (ctx : nat -> option gostring) (polls n : nat) (policy : rowDecodePolicy) (cells : list (gostring * sql_value)) (st st' : row_state) :
  decode_columns ctx polls layer policy cells st = Ok st' -> decode_columns (fun _ => None) n layer policy cells st = Ok st'.
Proof.
  revert polls n st. induction cells as [|[c v] cells IH]; intros polls n st; cbn [decode_columns]; [done|].
  destruct (ctx polls); [done|]. rewrite !rbind_Ok. intros (st1 & H1 & H2). exists st1. split; [done|]. by eapply IH.
Qed.

Lemma decode_columns_polls (ctx : nat -> option gostring) (polls n : nat) (policy : rowDecodePolicy) (cells : list (gostring * sql_value)) (st : row_state) :
  (forall i, ctx i = None) -> decode_columns ctx polls layer policy cells st = decode_columns (fun _ => None) n layer policy cells st.
Proof.
  intros Hc. revert polls n st. induction cells as [|[c v] cells IH]; intros polls n st; cbn [decode_columns]; [done|].
  rewrite Hc. destruct (decode_column _ _ _ _ _); cbn [rbind]; [apply IH|done].
Qed.

Lemma decodeRow_calm (ctx : nat -> option gostring) (polls : nat) (values : row) (policy : rowDecodePolicy) (d : decodedRow) :
  decodeRow ctx polls layer columns values policy = Ok d -> decodeRow (fun _ => None) 0 layer columns values policy = Ok d.
Proof.
  unfold decodeRow. destruct (ctx polls); [done|]. rewrite !rbind_Ok. intros (st & H & Hd). exists st. split; [|done].
  by eapply decode_columns_calm.
Qed.

(** The counts and the features delivered so far. *)
Definition page (st : scan) : Z * Z * bool * list Feature := (s_matched st, s_returned st, s_more st, s_delivered st).

(** What a match does to them, and whether it ends the scan. *)
Definition page_next (pg : Z * Z * bool * list Feature) (f : Feature) : Z * Z * bool * list Feature * bool :=
  let '(m, r, more, d) := pg in
  let m := (m + 1) mod 2 ^ 64 in
  if m <=? q_Offset q then (m, r, more, d, false)
  else if r =? q_Limit q then (m, r, true, d, true)
  else (m, (r + 1) mod 2 ^ 64, more, d ++ [f], false).

(** The identity that continues the scan after a row. *)
Definition after_row (values : row) (st st' : scan) : Prop :=
  match values with
  | SqlInt id :: _ => 0 <= id /\ s_cursor st' = id /\ s_started st' = true
  | SqlNull :: _ => s_cursor st' = s_cursor st /\ s_started st' = s_started st
  | _ => False
  end.

(** The identity a row is read with is the one it was stored with. *)
Lemma identity_stored (values values' : row) :
  match q_Filter q with Some _ => convert_booleans layer (combine columns values) | None => Ok values end = Ok values' ->
  match values' with
  | SqlInt id :: _ => exists rest, values = SqlInt id :: rest
  | SqlNull :: _ => exists rest, values = SqlNull :: rest
  | _ => True
  end.
Proof.
  destruct (q_Filter q); [|intros [= <-]; destruct values as [|[] ?]; eauto].
  destruct columns as [|c cs], values as [|v vs]; cbn [combine convert_booleans]; try (by intros [= <-]).
  rewrite rbind_Ok. intros (v' & Hv & (vs' & _ & [= <-])%rbind_Ok).
  destruct (boolean_column layer c), v; try discriminate; try (injection Hv as <-; eauto).
  destruct (_ || _); [|discriminate]. injection Hv as <-. done.
Qed.

Lemma on_row_Ok (st st' : scan) (values : row) (stop : bool) :
  on_row st values = (st', Ok stop) ->
  exists o, row_feature values = Ok o /\ after_row values st st' /\
    (page st', stop) = match o with None => (page st, false) | Some f => page_next (page st) f end.
Proof.
  unfold on_row, row_feature. set (conv := match q_Filter q with Some _ => _ | None => _ end).
  destruct conv as [values'|] eqn:Ec; [|discriminate]. pose proof (identity_stored _ _ Ec) as Hid. cbn [rbind].
  destruct (row_identity values') as [id|] eqn:Ei; [|discriminate]. cbn [rbind]. set (st1 := match id with Some _ => _ | None => _ end).
  assert (after_row values st st1 /\ page st1 = page st) as [Ha Hp].
  { destruct values' as [|[] ?]; try discriminate; cbn in Ei; [injection Ei as <-|destruct (i <? 0) eqn:E0; [discriminate|]; injection Ei as <-];
      destruct Hid as (? & ->); cbn; bool_props; auto. }
  assert (forall st2, s_cursor st2 = s_cursor st1 -> s_started st2 = s_started st1 -> after_row values st st2) as Hn.
  { intros st2 E1 E2. destruct values as [|[] ?]; cbn in *; rewrite ?E1, ?E2; done. }
  destruct (decodeRow (env_ctx env) _ _ _ _ _) as [d|] eqn:Ed; [|discriminate]. rewrite (decodeRow_calm _ _ _ _ _ Ed). cbn [rbind].
  destruct (negb _); [intros [= <- <-]; exists None; split_and!; [done|by apply Hn|by rewrite <- Hp]|].
  destruct (validateTemporalRow _ _ _) as [[]|]; [|discriminate]. cbn [lift_query rbind].
  destruct (matches _ _ _ _ _ _ _) as [[]|]; [| |discriminate]; cbn [lift_geometry rbind].
  2: { intros [= <- <-]. exists None. split_and!; [done|by apply Hn|by rewrite <- Hp]. }
  set (f := mkFeature _ _ _ _). intros H. exists (Some f). split; [done|].
  rewrite <- Hp. unfold page_next, page. cbn [one_matched polled s_matched s_returned] in H.
  destruct (_ <=? q_Offset q); [injection H as <- <-; split; [by apply Hn|done]|].
  destruct (s_returned st1 =? q_Limit q); [injection H as <- <-; split; [by apply Hn|done]|].
  destruct (env_callback _ _ _); [discriminate|]. destruct (env_ctx env _); [discriminate|]. injection H as <- <-. split; [by apply Hn|done].
Qed.

(** A row that ends the scan with an error may have been handed to the callback. *)
Lemma on_row_Err (st st' : scan) (values : row) (e : query_error) :
  on_row st values = (st', Err e) ->
  s_delivered st' = s_delivered st \/
  exists f, row_feature values = Ok (Some f) /\ s_delivered st' = snd (fst (page_next (page st) f)).
Proof.
  unfold on_row, row_feature. set (conv := match q_Filter q with Some _ => _ | None => _ end).
  destruct conv as [values'|]; [|intros [= <- <-]; by left]. cbn [rbind].
  destruct (row_identity values') as [id|]; [|intros [= <- <-]; by left]. cbn [rbind]. set (st1 := match id with Some _ => _ | None => _ end).
  assert (page st1 = page st) as Hp by (by destruct id). assert (s_delivered st1 = s_delivered st) as Hd by (by destruct id).
  destruct (decodeRow (env_ctx env) _ _ _ _ _) as [d|] eqn:Ed; [|intros [= <- <-]; by left]. rewrite (decodeRow_calm _ _ _ _ _ Ed). cbn [rbind].
  destruct (negb _); [discriminate|]. destruct (validateTemporalRow _ _ _) as [[]|]; [|intros [= <- <-]; by left]. cbn [lift_query rbind].
  destruct (matches _ _ _ _ _ _ _) as [[]|]; [|discriminate|intros [= <- <-]; by left]. cbn [lift_geometry rbind].
  set (f := mkFeature _ _ _ _). intros H. cbn [one_matched polled s_matched s_returned] in H.
  destruct (_ <=? q_Offset q) eqn:E1; [discriminate|]. destruct (s_returned st1 =? q_Limit q) eqn:E2; [discriminate|].
  right. exists f. split; [done|]. rewrite <- Hp. unfold page_next, page. rewrite E1, E2.
  destruct (env_callback _ _ _); [by injection H as <- <-|]. destruct (env_ctx env _); [by injection H as <- <-|discriminate].
Qed.

(** Nothing interrupts the scan. *)
Record calm : Prop := {
  calm_ctx : forall n, env_ctx env n = None;
  calm_callback : forall n f, env_callback env n f = None;
  calm_query : forall n, env_query env n = None;
  calm_row : forall n, env_row env n = None;
  calm_iteration : forall n, env_iteration env n = None;
  calm_close : forall n, env_close env n = None
}.

Lemma on_row_calm (st : scan) (values : row) (o : option Feature) :
  calm -> row_feature values = Ok o -> exists st' stop, on_row st values = (st', Ok stop).
Proof.
  intros [Hc Hcb _ _ _ _]. unfold on_row, row_feature. rewrite rbind_Ok. intros (values' & -> & (id & -> & (d & Hd & H)%rbind_Ok)%rbind_Ok).
  unfold decodeRow at 1. rewrite Hc, (decode_columns_polls _ _ 1) by done. unfold decodeRow in Hd. rewrite Hd.
  destruct (negb _); [by eauto|]. apply rbind_unit in H as [Ht H]. destruct (validateTemporalRow _ _ _); [|done].
  apply rbind_Ok in H as (m & Hm & H). destruct (matches _ _ _ _ _ _ _) as [[]|]; [| |done]; [|by eauto].
  destruct (_ <=? q_Offset q); [by eauto|]. destruct (_ =? q_Limit q); [by eauto|]. rewrite Hcb, Hc. by eauto.
Qed.

(** *** The window of a page *)

Definition offset : nat := Z.to_nat (q_Offset q).
Definition limit : nat := Z.to_nat (q_Limit q).
Definition window (fs : list Feature) : list Feature := take limit (drop offset fs).

Definition features (rows : list row) : list Feature :=
  omap (fun r => match row_feature r with Ok (Some f) => Some f | _ => None end) rows.

Lemma window_prefix (fs gs : list Feature) : window fs `prefix_of` window (fs ++ gs).
Proof.
  unfold window. rewrite drop_app, take_app. exists (take (limit - length (drop offset fs)) (drop (offset - length fs) gs)). done.
Qed.

Lemma window_full (fs gs : list Feature) : (offset + limit <= length fs)%nat -> window (fs ++ gs) = window fs.
Proof.
  intros H. unfold window. rewrite drop_app_le by lia. apply take_app_le. rewrite length_drop. lia.
Qed.

(** The page after the matches [fs], when the scan goes on. *)
Record page_of (fs : list Feature) (pg : Z * Z * bool * list Feature) : Prop := {
  po_matched : fst (fst (fst pg)) = Z.of_nat (length fs);
  po_returned : snd (fst (fst pg)) = Z.of_nat (length (window fs));
  po_more : snd (fst pg) = false;
  po_delivered : snd pg = window fs;
  po_within : (length fs <= offset + limit)%nat
}.

Lemma page_of_nil : page_of [] (0, 0, false, []).
Proof. split; unfold window; rewrite ?drop_nil, ?take_nil; done || (cbn; lia). Qed.

Lemma page_next_spec (fs : list Feature) (f : Feature) (pg pg' : Z * Z * bool * list Feature) (stop : bool) :
  query_typed q -> page_of fs pg -> Z.of_nat (length fs) + 1 < 2 ^ 64 -> page_next pg f = (pg', stop) ->
  if stop then length fs = (offset + limit)%nat /\ snd (fst (fst pg')) = Z.of_nat (length (window fs)) /\ snd (fst pg') = true /\ snd pg' = window fs
  else page_of (fs ++ [f]) pg'.
Proof.
  intros (Hl & Ho & _) [H1 H2 H3 H4 H5] Hb. destruct pg as [[[m r] more] d]. cbn in *. subst m r more d. rewrite Z.mod_small by lia.
  assert (length (window fs) = Nat.min limit (length fs - offset)) as Ew by (unfold window; rewrite length_take, length_drop; lia).
  destruct (Z.leb_spec (Z.of_nat (length fs) + 1) (q_Offset q)) as [Hle|Hgt].
  - intros [= <- <-]. assert (window fs = [] /\ window (fs ++ [f]) = []) as [E1 E2].
    { unfold window, offset in *. rewrite !drop_ge by (rewrite ?length_app; cbn; lia). by rewrite !take_nil. }
    split; cbn; rewrite ?E1, ?E2, ?length_app; cbn; try done; unfold offset; lia.
  - destruct (Z.eqb_spec (Z.of_nat (length (window fs))) (q_Limit q)) as [He|Hne].
    + intros [= <- <-]. cbn. split; [|done]. rewrite Ew in He. unfold offset, limit in *. lia.
    + intros [= <- <-]. assert (window (fs ++ [f]) = window fs ++ [f]) as E.
      { unfold window, offset, limit in *. rewrite drop_app_le by lia. rewrite !take_ge; rewrite ?length_app, ?length_drop; cbn; try done; lia. }
      split; cbn; rewrite ?E, ?length_app; cbn; try done; [lia| |unfold offset, limit in *; lia].
      rewrite Z.mod_small; [lia|]. unfold limit in *. lia.
Qed.

Lemma features_cons (r : row) (rows : list row) (o : option Feature) :
  row_feature r = Ok o -> features (r :: rows) = match o with Some f => [f] | None => [] end ++ features rows.
Proof. intros H. unfold features. cbn. rewrite H. by destruct o. Qed.

Lemma length_features (rows : list row) : (length (features rows) <= length rows)%nat.
Proof. induction rows as [|r rows IH]; [done|]. unfold features in *. cbn. destruct (row_feature r) as [[]|]; cbn; lia. Qed.

(** The identity of a row that is not null. *)
Definition identified (r : row) : Prop := forall rest, r <> SqlNull :: rest.

Definition row_id (r : row) : option Z := match r with SqlInt id :: _ => Some id | _ => None end.

(** A row that ends the scan. *)
Lemma on_row_stop (st st' : scan) (values : row) (fs gs : list Feature) :
  query_typed q -> page_of fs (page st) -> Z.of_nat (length fs) + 1 < 2 ^ 64 -> on_row st values = (st', Ok true) ->
  exists f, row_feature values = Ok (Some f) /\ (offset + limit < length (fs ++ f :: gs))%nat /\
    s_delivered st' = window (fs ++ f :: gs) /\ s_returned st' = Z.of_nat (length (s_delivered st')) /\ s_more st' = true.
Proof.
  intros Hq Hp Hb (o & Ho & _ & Hn)%on_row_Ok. destruct o as [f|]; [|discriminate]. exists f. split; [done|].
  destruct (page_next_spec fs f _ _ true Hq Hp Hb (eq_sym Hn)) as (Hl & Hr & Hm & Hd). cbn in Hr, Hm, Hd.
  rewrite length_app, window_full by lia. cbn. rewrite Hr, Hm, Hd. split_and!; try done. lia.
Qed.

Lemma on_row_next (st st' : scan) (values : row) (fs : list Feature) :
  query_typed q -> page_of fs (page st) -> Z.of_nat (length fs) + 1 < 2 ^ 64 -> on_row st values = (st', Ok false) ->
  exists o, row_feature values = Ok o /\ after_row values st st' /\ page_of (fs ++ match o with Some f => [f] | None => [] end) (page st').
Proof.
  intros Hq Hp Hb (o & Ho & Ha & Hn)%on_row_Ok. exists o. split; [done|]. split; [done|]. destruct o as [f|].
  - exact (page_next_spec fs f _ _ false Hq Hp Hb (eq_sym Hn)).
  - rewrite app_nil_r. assert (page st' = page st) as -> by congruence. done.
Qed.

Lemma on_row_failed (st st' : scan) (values : row) (fs : list Feature) (rows : list row) (e : query_error) :
  query_typed q -> page_of fs (page st) -> Z.of_nat (length fs) + 1 < 2 ^ 64 -> on_row st values = (st', Err e) ->
  s_delivered st' `prefix_of` window (fs ++ features (values :: rows)).
Proof.
  intros Hq Hp Hb [->|(f & Hf & ->)]%on_row_Err.
  - rewrite (po_delivered _ _ Hp : s_delivered st = _). apply window_prefix.
  - rewrite (features_cons _ _ _ Hf). destruct (page_next (page st) f) as [pg stop] eqn:En.
    pose proof (page_next_spec _ _ _ _ _ Hq Hp Hb En) as Hn. cbn [fst]. destruct stop.
    + destruct Hn as (_ & _ & _ & ->). apply window_prefix.
    + rewrite (po_delivered _ _ Hn), app_assoc. apply window_prefix.
Qed.

Lemma scan_rows_spec (chunk read read' : nat) (st st' : scan) (rows : list row) (fs : list Feature) (out : result query_error bool) :
  query_typed q -> page_of fs (page st) -> Z.of_nat (length fs) + Z.of_nat (length rows) < 2 ^ 64 -> Forall identified rows ->
  scan_rows chunk st read rows = (st', read', out) ->
  match out with
  | Ok false =>
      read' = (read + length rows)%nat /\ page_of (fs ++ features rows) (page st') /\ Forall (fun r => exists id, row_id r = Some id) rows /\
      (forall r, last rows = Some r -> s_started st' = true /\ row_id r = Some (s_cursor st')) /\ (rows = [] -> st' = st)
  | Ok true =>
      (offset + limit < length (fs ++ features rows))%nat /\ s_delivered st' = window (fs ++ features rows) /\
      s_returned st' = Z.of_nat (length (s_delivered st')) /\ s_more st' = true
  | Err _ => s_delivered st' `prefix_of` window (fs ++ features rows)
  end.
Proof.
  intros Hq. revert st fs read. induction rows as [|values rows IH]; intros st fs read Hp Hb Hi; cbn [scan_rows].
  - destruct (env_iteration env chunk); intros [= <- <- <-]; unfold features; cbn; rewrite app_nil_r.
    + by rewrite (po_delivered _ _ Hp : s_delivered st = _).
    + by split_and!.
  - apply Forall_cons in Hi as [Hv Hi]. cbn [length] in Hb.
    assert (s_delivered st `prefix_of` window (fs ++ features (values :: rows))) as Hpre
      by (rewrite (po_delivered _ _ Hp : s_delivered st = _); apply window_prefix).
    destruct (env_ctx env _); [by intros [= <- <- <-]|]. destruct (env_row env _); [by intros [= <- <- <-]|].
    set (st0 := one_row (polled 1 st)). assert (page_of fs (page st0)) as Hp0 by exact Hp.
    destruct (on_row st0 values) as [st1 [[]|e]] eqn:E.
    + intros [= <- <- <-]. destruct (on_row_stop _ _ _ fs (features rows) Hq Hp0 ltac:(lia) E) as (f & Hf & H).
      by rewrite (features_cons _ _ _ Hf).
    + destruct (on_row_next _ _ _ fs Hq Hp0 ltac:(lia) E) as (o & Ho & Ha & Hp1). intros H.
      apply (IH st1 (fs ++ match o with Some f => [f] | None => [] end)) in H; [|done| |done].
      2: { rewrite length_app. destruct o; cbn; lia. }
      rewrite (features_cons _ _ _ Ho), app_assoc. destruct out as [[]|]; try done.
      destruct H as (-> & Hp' & Hids & Hlast & Hnil).
      assert (exists id, row_id values = Some id /\ s_cursor st1 = id /\ s_started st1 = true) as (id & Hid & Hc & Hs).
      { destruct values as [|[] rest]; cbn in Ha; try done; [by destruct (Hv rest)|]. exists i. cbn. tauto. }
      split_and!; try done; [cbn; lia|by constructor; [exists id|]|].
      intros r Hr. destruct rows as [|r' rows]; [|by apply Hlast]. injection Hr as <-. rewrite Hnil by done. by rewrite Hc.
    + intros [= <- <- <-]. eapply on_row_failed; [done|exact Hp0|lia|exact E].
Qed.

Definition decoded (r : row) : Prop := exists o, row_feature r = Ok o.

Lemma scan_rows_calm (chunk read : nat) (st : scan) (rows : list row) :
  calm -> Forall decoded rows -> exists st' read' stop, scan_rows chunk st read rows = (st', read', Ok stop).
Proof.
  intros Hc Hd. revert st read. induction Hd as [|r rows (o & Ho) _ IH]; intros st read; cbn [scan_rows].
  - rewrite (calm_iteration Hc). by eauto.
  - rewrite (calm_ctx Hc), (calm_row Hc). destruct (on_row_calm (one_row (polled 1 st)) r o Hc Ho) as (st' & [] & ->); by eauto.
Qed.

(** *** The chunks *)

(** The order of the identities: a row follows every row with a smaller one. *)
Definition ascending (rows : list row) : Prop := StronglySorted (fun r r' => forall id, row_id r = Some id -> above id r' = true) rows.

Lemma above_id (r : row) (c id : Z) : row_id r = Some id -> above c r = (c <? id).
Proof. destruct r as [|[] ?]; cbn; try done. by intros [= ->]. Qed.

Lemma filter_all {A : Type} (p : A -> bool) (l : list A) : Forall (fun a => p a = true) l -> filter (fun a => p a = true) l = l.
Proof. induction 1 as [|a l H _ IH]; [done|]. rewrite filter_cons_True by done. by rewrite IH. Qed.

Lemma filter_none {A : Type} (p : A -> bool) (l : list A) : Forall (fun a => p a = false) l -> filter (fun a => p a = true) l = [].
Proof. induction 1 as [|a l H _ IH]; [done|]. rewrite filter_cons_False by (by rewrite H). done. Qed.

Lemma filter_above (before rest : list row) (r : row) (cursor : Z) :
  ascending (before ++ rest) -> Forall (fun r => exists id, row_id r = Some id) before -> last before = Some r -> row_id r = Some cursor ->
  filter (fun r => above cursor r = true) (before ++ rest) = rest.
Proof.
  intros Ha Hb (before' & ->)%last_Some Hr. apply StronglySorted_app in Ha as (Hx & Hs & _). apply StronglySorted_app in Hs as (Hy & _ & _).
  apply Forall_app in Hb as [Hb _]. rewrite filter_app, filter_none, filter_all; [done|..].
  - apply Forall_forall. intros r' Hr'. apply (Hx r r'); [|done|done]. rewrite elem_of_app, list_elem_of_singleton. by right.
  - apply Forall_app. split; [|by apply Forall_singleton; rewrite (above_id _ _ _ Hr), Z.ltb_irrefl].
    rewrite Forall_forall in *. intros r' Hr'. destruct (Hb r' Hr') as (id & Hid). rewrite (above_id _ _ _ Hid).
    assert (above id r = true) as H' by (apply (Hy r' r); [done|by apply list_elem_of_singleton|done]).
    rewrite (above_id _ _ _ Hr) in H'. bool_props. lia.
Qed.

(** The state between two chunks: the rows before the last identity are done. *)
Record between (candidates before rest : list row) (st : scan) : Prop := {
  bt_rows : candidates = before ++ rest;
  bt_ids : Forall (fun r => exists id, row_id r = Some id) before;
  bt_page : page_of (features before) (page st);
  bt_cursor : if s_started st then exists r, last before = Some r /\ row_id r = Some (s_cursor st) else before = []
}.

Lemma between_chunk (candidates before rest : list row) (st : scan) :
  ascending candidates -> between candidates before rest st -> chunk_rows candidates st = take featureCandidateChunk rest.
Proof.
  intros Ha [-> Hi _ Hc]. unfold chunk_rows. destruct (s_started st); [|by rewrite Hc].
  destruct Hc as (r & Hl & Hr). by rewrite (filter_above before rest r).
Qed.

Lemma features_app (rows rows' : list row) : features (rows ++ rows') = features rows ++ features rows'.
Proof. apply omap_app. Qed.

(** The answer of a scan that ended without error. *)
Definition answered (candidates : list row) (st : scan) (matched : option Z) : Prop :=
  let total := length (features candidates) in
  s_delivered st = window (features candidates) /\ s_returned st = Z.of_nat (length (s_delivered st)) /\
  s_more st = (offset + limit <? total)%nat /\ matched = if (offset + limit <? total)%nat then None else Some (Z.of_nat total).

Lemma scan_chunk (chunk : nat) (st st' : scan) (read : nat) (out : result query_error bool) (candidates before rest : list row) :
  query_typed q -> Forall identified candidates -> ascending candidates -> Z.of_nat (length candidates) < 2 ^ 64 ->
  between candidates before rest st -> scanFeatureCandidates chunk st (chunk_rows candidates st) = (st', read, out) ->
  match out with
  | Ok false => read = length (take featureCandidateChunk rest) /\ (rest <> [] -> s_started st' = true) /\
      between candidates (before ++ take featureCandidateChunk rest) (drop featureCandidateChunk rest) st'
  | Ok true => answered candidates st' None
  | Err _ => s_delivered st' `prefix_of` window (features candidates)
  end.
Proof.
  intros Hq Hi Ha Hl Hb. rewrite (between_chunk _ before rest) by done. destruct Hb as [-> Hids Hp Hc]. unfold scanFeatureCandidates.
  remember (take featureCandidateChunk rest) as rows eqn:Erows. remember (drop featureCandidateChunk rest) as others eqn:Eothers.
  assert (rest = rows ++ others) as Er by (subst; by rewrite take_drop).
  assert (s_delivered st `prefix_of` window (features (before ++ rest))) as Hpre
    by (rewrite (po_delivered _ _ Hp : s_delivered st = _), features_app; apply window_prefix).
  destruct (env_query env chunk); [by intros [= <- <- <-]|].
  destruct (scan_rows chunk st 0 rows) as [[st1 read1] out1] eqn:E.
  apply (scan_rows_spec chunk 0 read1 st st1 rows (features before) out1 Hq Hp) in E.
  2: { pose proof (length_features before). rewrite Er, !length_app in Hl. lia. }
  2: { rewrite Er in Hi. apply Forall_app in Hi as [_ [Hi _]%Forall_app]. done. }
  assert (s_delivered st1 `prefix_of` window (features (before ++ rest))) as Hpre1.
  { rewrite Er, !features_app, app_assoc. destruct out1 as [[]|].
    - destruct E as (_ & -> & _). apply window_prefix.
    - destruct E as (_ & E & _). rewrite (po_delivered _ _ E : s_delivered st1 = _). apply window_prefix.
    - etransitivity; [exact E|apply window_prefix]. }
  destruct (env_close env chunk); [by intros [= <- <- <-]|]. intros [= <- <- <-]. destruct out1 as [[]|]; [| |done].
  - destruct E as (Hlt & Hd & Hr & Hm). unfold answered. rewrite Er, !features_app, app_assoc.
    assert ((offset + limit <? length ((features before ++ features rows) ++ features others))%nat = true) as ->
      by (apply Nat.ltb_lt; rewrite (length_app (features before ++ _)); lia).
    rewrite window_full by lia. done.
  - destruct E as (-> & Hp1 & Hi1 & Hlast & Hnil). split; [done|]. split.
    + intros Hr. destruct (last rows) as [r|] eqn:El; [by apply (Hlast r)|]. apply last_None in El. rewrite El in Erows. by destruct rest.
    + split; [by rewrite <- app_assoc, <- Er|by apply Forall_app|by rewrite features_app|].
      destruct (last rows) as [r|] eqn:El.
      * destruct (Hlast r eq_refl) as [-> Hr]. exists r. split; [|done]. rewrite last_app, El. done.
      * apply last_None in El. rewrite El, app_nil_r in *. by rewrite (Hnil eq_refl).
Qed.

Lemma scan_loop_spec (fuel chunk : nat) (candidates before rest : list row) (st : scan) :
  query_typed q -> Forall identified candidates -> ascending candidates -> Z.of_nat (length candidates) < 2 ^ 64 ->
  between candidates before rest st -> (length rest < fuel)%nat ->
  exists st' err matched, scan_loop fuel chunk candidates st = Some (st', err, matched) /\
    s_delivered st' `prefix_of` window (features candidates) /\
    (err = None -> answered candidates st' matched) /\ (calm -> Forall decoded candidates -> err = None).
Proof.
  intros Hq Hi Ha Hl. revert chunk before rest st. induction fuel as [|fuel IH]; intros chunk before rest st Hb Hf; [lia|]. cbn [scan_loop].
  assert (s_delivered st `prefix_of` window (features candidates)) as Hpre.
  { destruct Hb as [-> _ Hp _]. rewrite (po_delivered _ _ Hp : s_delivered st = _), features_app. apply window_prefix. }
  destruct (env_ctx env _) eqn:Ec.
  { do 3 eexists. split; [done|]. split; [done|]. split; [done|]. intros Hc. by rewrite (calm_ctx Hc) in Ec. }
  assert (between candidates before rest (polled 1 st)) as Hb1 by (by destruct Hb).
  destruct (scanFeatureCandidates chunk (polled 1 st) _) as [[st1 read] out] eqn:E.
  assert (calm -> Forall decoded candidates -> exists stop, out = Ok stop) as Hcalm.
  { intros Hc Hd. unfold scanFeatureCandidates in E. rewrite (calm_query Hc), (calm_close Hc), (between_chunk _ before rest) in E by done.
    destruct (scan_rows_calm chunk 0 (polled 1 st) (take featureCandidateChunk rest) Hc) as (st' & read' & stop & Es).
    - destruct Hb as [-> _ _ _]. apply Forall_app in Hd as [_ Hd]. by apply Forall_take.
    - rewrite Es in E. injection E as <- <- <-. by exists stop. }
  pose proof (scan_chunk _ _ _ _ _ _ _ _ Hq Hi Ha Hl Hb1 E) as H. destruct out as [[]|e].
  - do 3 eexists. split; [done|]. split; [by destruct H as (-> & _)|]. split; [done|]. done.
  - destruct H as (-> & Hs & Hb2). destruct (Nat.ltb_spec (length (take featureCandidateChunk rest)) featureCandidateChunk) as [Hlt|Hge]; cbn [orb].
    + do 3 eexists. split; [done|]. rewrite length_take in Hlt. destruct Hb2 as [Hr _ [Hm Hret Hmore Hdel Hw] _].
      rewrite drop_ge, app_nil_r in Hr by lia. rewrite <- Hr in *. cbn [page fst snd] in *.
      split; [by rewrite Hdel|]. split; [|done]. intros _. unfold answered. rewrite Hdel, Hret, Hmore, Hm.
      assert ((offset + limit <? length (features candidates))%nat = false) as -> by (apply Nat.ltb_ge; lia). done.
    + rewrite length_take in Hge. unfold featureCandidateChunk in *. rewrite Hs by (intros ->; cbn in Hge; lia). cbn [negb].
      eapply IH; [exact Hb2|]. rewrite length_drop. lia.
  - do 3 eexists. split; [done|]. split; [done|]. split; [done|]. intros Hc Hd. by destruct (Hcalm Hc Hd).
Qed.

(** *** The features *)

(** A feature fits the query: its geometry meets the bounds, and its tags are selected. *)
Definition fits (f : Feature) : Prop :=
  (exists t, tested_geometry mercatorLatitudeLimit Equivalent through_mercator spatial (f_Geometry f) (f_SRID f) q = Ok t /\
             ValidateFeatureSpatialGeometry t = Ok tt /\ in_query_bounds q t) /\
  forall k, is_Some (f_Tags f !! k) -> containsFold fields k = true.

Lemma selected_tags_spec (cells : list (gostring * sql_value)) (tags : gmap gostring tag) (k : gostring) :
  is_Some (selected_tags fields cells tags !! k) -> containsFold fields k = true.
Proof.
  unfold selected_tags. set (start := filter _ tags).
  assert (forall k, is_Some (start !! k) -> containsFold fields k = true) as Hs.
  { intros k' [v Hv]. apply map_lookup_filter_Some in Hv as [_ H]. done. }
  revert Hs. generalize start. induction cells as [|[c v] cells IH]; intros tags' Hs; cbn [foldl]; [apply Hs|].
  apply IH. destruct v; try done. destruct (containsFold fields c) eqn:E; [|done]. intros k' Hk.
  destruct (decide (c = k')) as [->|Hn]; [done|]. rewrite lookup_insert_ne in Hk by done. by apply Hs.
Qed.

Lemma row_feature_fits (values : row) (f : Feature) : valid_query q -> row_feature values = Ok (Some f) -> fits f.
Proof.
  intros Hq. unfold row_feature. rewrite rbind_Ok. intros (values' & _ & (id & _ & (d & _ & H)%rbind_Ok)%rbind_Ok).
  destruct (negb _); [done|]. apply rbind_unit in H as [_ H]. apply rbind_Ok in H as (m & Hm & H). destruct m; [|done]. injection H as <-.
  split; cbn [f_Geometry f_SRID f_Tags]; [|intros k; apply selected_tags_spec].
  destruct (matches _ _ _ _ _ _ _) as [b|] eqn:E; [|done]. injection Hm as ->. apply matches_Ok in E as (t & Ht & Hv & Hb); [|done].
  exists t. split_and!; [done..|]. by apply Hb.
Qed.

Lemma features_fit (rows : list row) : valid_query q -> Forall fits (features rows).
Proof.
  intros Hq. unfold features. induction rows as [|r rows IH]; cbn; [constructor|].
  destruct (row_feature r) as [[f|]|] eqn:E; try done. constructor; [by eapply row_feature_fits|done].
Qed.
End Scan.

(** ** QueryFeatures *)

Section Provider.
Context (mercatorLatitudeLimit : f64) (Equivalent : projection -> option projection -> bool).
Context (through_mercator : Z -> Z -> geometry -> result geometry_error (option geometry)).
Context (NewHeightProjection : Z -> result gostring projection) (NewFeatureProjection : gostring -> result gostring projection).
(** The check of a reference system by the projection library, and SQLite: the rows that
    the WHERE clause with the compiled filter selects, in the order of the identity. *)
Context (validateQueryCRS : Z -> result query_error unit).
Context (candidates : Layer -> FeatureQuery -> list gostring -> gostring -> list sql_arg -> result query_error (list row)).

(** No identity of the query fits a signed 64-bit column. *)
Definition impossible (q : FeatureQuery) : bool := negb (is_nil (q_IDs q)) && forallb (fun id => maxInt64 <? id) (q_IDs q).

Record prepared := mkPrepared {
  pq_layer : Layer; pq_fields : list gostring; pq_columns : list gostring; pq_spatial : spatialQuery; pq_rows : option (list row)
}.

Definition prepare (env : environment) (layers : gmap gostring Layer) (layerName : gostring) (q : FeatureQuery) (nil_callback : bool)
    : result query_error prepared :=
  check? lift_query (Query_Validate q) in
  if nil_callback then Err (QInvalid (invalidQuery "callback" "must not be nil"))
  else
    match layers !! layerName with
    | None => Err (QLayerNotFound layerName)
    | Some layer =>
        check? lift_query (ly_supported (l_filter layer)) in
        if (512 <? blen (q_IDs q)) || (128 <? blen (q_Bounds q) + blen (q_Bounds3D q)) then
          Err (QUnsupported (B "gpkg feature query exceeds bounded predicate profile"))
        else
          let? fields := lift_query (resolveQueryFields layer (q_Fields q)) in
          let? (filterSQL, filterArgs) := lift_query (prepareFeatureFilter (l_filter layer) (q_Filter q)) in
          match env_ctx env 0 with
          | Some e => Err (QContext e)
          | None =>
              let? spatial := lift_geometry (newSpatialQuery NewHeightProjection NewFeatureProjection (l_spatial layer) q) in
              check? (if beq (q_BoundsCRSDefinition q) [] && hasBounds q && negb (q_BoundsSRID q =? resolvedLayerSRID layer)
                         && match sl_heightProjection (l_spatial layer) with None => true | Some _ => false end
                      then check? validateQueryCRS (resolvedLayerSRID layer) in validateQueryCRS (q_BoundsSRID q)
                      else Ok tt) in
              let columns := queryColumns layer fields in
              let? rows := (if impossible q then Ok None
                            else let? rows := candidates layer q columns filterSQL filterArgs in Ok (Some rows)) in
              Ok (mkPrepared layer fields columns spatial rows)
          end
    end.

(** The page that is returned, its error and the features handed to the callback; the
    fuel of the loop is one more than the number of rows. *)
Definition QueryFeatures (env : environment) (layers : gmap gostring Layer) (layerName : gostring) (q : FeatureQuery) (nil_callback : bool)
    : option (FeatureQueryResult * option query_error * list Feature) :=
  let failed e := Some (mkQueryResult 0 None false, Some e, []) in
  match prepare env layers layerName q nil_callback with
  | Err e => failed e
  | Ok p =>
      match pq_rows p with
      | None => Some (mkQueryResult 0 (Some 0) false, None, [])
      | Some rows =>
          match env_begin env, (match q_Filter q with Some _ => env_verify env | None => None end) with
          | Some e, _ => failed (QDatabase (B "gpkg feature snapshot") e)
          | None, Some e => failed (featureSourceError e)
          | None, None =>
              match scan_loop mercatorLatitudeLimit Equivalent through_mercator env (pq_layer p) q (pq_spatial p) (pq_fields p) (pq_columns p)
                      (S (length rows)) 0 rows (mkScan 0 false 0 0 false [] 1 0) with
              | None => None
              | Some (st, err, matched) =>
                  let err := match err, env_rollback env with
                             | None, Some e => Some (QDatabase (B "gpkg feature snapshot close") e)
                             | err, _ => err
                             end in
                  Some (mkQueryResult (s_returned st) matched (s_more st), err, s_delivered st)
              end
          end
      end
  end.

(** The failures outside the scan. *)
Definition healthy (env : environment) : Prop :=
  calm env /\ env_begin env = None /\ env_verify env = None /\ env_rollback env = None.

(** C13. A query that was admitted delivers, in the order of the identities, the window
    of offset and limit of the features that match, each meeting the bounds of the
    query and with selected tags only, whatever the chunks; at worst a failure cuts the
    delivery short, and then it is reported.  Without an error the counts are exact:
    the number returned, whether there is more, and the total when it is known, which
    is when there is no more.  And when nothing fails and every row can be decoded,
    there is no error. *)
Theorem QueryFeatures_page (env : environment) (layers : gmap gostring Layer) (layerName : gostring) (q : FeatureQuery) (nil_callback : bool) (p : prepared) :
  query_typed q -> prepare env layers layerName q nil_callback = Ok p ->
  let rows := default [] (pq_rows p) in
  let matching := features mercatorLatitudeLimit Equivalent through_mercator (pq_layer p) q (pq_spatial p) (pq_fields p) (pq_columns p) rows in
  let total := length matching in
  Forall identified rows -> ascending rows -> Z.of_nat (length rows) < 2 ^ 64 ->
  exists res err delivered,
    QueryFeatures env layers layerName q nil_callback = Some (res, err, delivered) /\
    delivered `prefix_of` window q matching /\
    Forall (fits mercatorLatitudeLimit Equivalent through_mercator q (pq_spatial p) (pq_fields p)) delivered /\
    (err = None ->
       delivered = window q matching /\ r_NumberReturned res = blen delivered /\
       r_HasMore res = (offset q + limit q <? total)%nat /\
       r_NumberMatched res = if r_HasMore res then None else Some (Z.of_nat total)) /\
    (healthy env -> Forall (decoded mercatorLatitudeLimit Equivalent through_mercator (pq_layer p) q (pq_spatial p) (pq_fields p) (pq_columns p)) rows -> err = None).
Proof.
  intros Hq Hp. cbn zeta. intros Hi Ha Hl.
  assert (valid_query q) as Hv.
  { apply Query_Validate_valid; [done|]. unfold prepare in Hp. apply rbind_unit in Hp as [H _]. by destruct (Query_Validate q) as [[]|]. }
  pose proof (features_fit mercatorLatitudeLimit Equivalent through_mercator (pq_layer p) q (pq_spatial p) (pq_fields p) (pq_columns p) (default [] (pq_rows p)) Hv) as Hfit.
  set (matching := features _ _ _ _ _ _ _ _ _) in *.
  assert (forall d, d `prefix_of` window q matching -> Forall (fits mercatorLatitudeLimit Equivalent through_mercator q (pq_spatial p) (pq_fields p)) d) as Hd.
  { intros d [e He]. assert (Forall (fits mercatorLatitudeLimit Equivalent through_mercator q (pq_spatial p) (pq_fields p)) (window q matching)) as H
      by (by apply Forall_take, Forall_drop). rewrite He in H. by apply Forall_app in H as [H _]. }
  unfold QueryFeatures. rewrite Hp. destruct (pq_rows p) as [rows|]; cbn [default id] in *.
  2: { do 3 eexists. split; [done|]. split; [apply prefix_nil|]. split; [constructor|]. split; [|done]. intros _. unfold matching, window. cbn. by rewrite drop_nil, take_nil. }
  destruct (env_begin env) as [e|] eqn:Eb.
  { do 3 eexists. split; [done|]. split; [apply prefix_nil|]. split; [constructor|]. split; [done|]. intros (_ & H & _). congruence. }
  destruct (match q_Filter q with Some _ => env_verify env | None => None end) as [e|] eqn:Ev.
  { do 3 eexists. split; [done|]. split; [apply prefix_nil|]. split; [constructor|]. split; [done|]. intros (_ & _ & H & _). destruct (q_Filter q); congruence. }
  destruct (scan_loop_spec mercatorLatitudeLimit Equivalent through_mercator env (pq_layer p) q (pq_spatial p) (pq_fields p) (pq_columns p) (S (length rows)) 0 rows [] rows
    (mkScan 0 false 0 0 false [] 1 0) Hq Hi Ha Hl) as (st & err & matched & -> & Hpre & Hans & Hcalm).
  { split; try done. apply page_of_nil. }
  { lia. }
  do 3 eexists. split; [done|]. split; [done|]. split; [by apply Hd|]. split.
  - destruct err as [e|]; [done|]. destruct (env_rollback env); [done|]. intros _. destruct (Hans eq_refl) as (-> & Hr & Hm & Ht).
    cbn [r_NumberReturned r_HasMore r_NumberMatched]. rewrite Hm. done.
  - intros (Hc & _ & _ & Hrb) Hdec. rewrite Hrb. by rewrite (Hcalm Hc Hdec).
Qed.
End Provider.
End Query.

(** A layer of two points in WKB, and the page that skips the first. *)
Definition sample_layer : Layer :=
  mkLayer (B "points") (B "id") (B "geom") (mkGeometryLayer (B "wkb") DimensionXY) 4326 (fun _ => false) [] [] (mkMapping [] [] [])
    (mkFilterLayer (Ok tt) None None) (mkSpatialLayer None None false) false.

Definition sample_blob : gostring :=
  byte_of 1 :: byte_of 1 :: repeat (byte_of 0) 3 ++ repeat (byte_of 0) 6 ++ [byte_of 0xE0; byte_of 0x3F] ++ repeat (byte_of 0) 6 ++ [byte_of 0xE0; byte_of 0x3F].

Definition sample_rows : list row := [[SqlInt 3; SqlBlob sample_blob]; [SqlInt 7; SqlBlob sample_blob]].

Definition sample_query : FeatureQuery := mkQuery [mkExtent 0 0 0x3FF0000000000000 0x3FF0000000000000] [] [] 4326 [] None None [] 10 1 [].

Definition sample_env : environment :=
  mkEnvironment (fun _ => None) (fun _ _ => None) None None (fun _ => None) (fun _ => None) (fun _ => None) (fun _ => None) None.

Lemma QueryFeatures_page_witness :
  exists res delivered,
    QueryFeatures beq id (fun _ => Ok None) (fun _ => Ok None) (fun _ => Ok None) (fun _ => false) 0 (fun _ _ => false) (fun _ _ _ => Err GPanic)
      (fun _ => Err []) (fun _ => Err []) (fun _ => Ok tt) (fun _ _ _ _ _ => Ok sample_rows)
      sample_env {[ B "points" := sample_layer ]} (B "points") sample_query false = Some (res, None, delivered) /\
    r_NumberReturned res = blen delivered.
Proof.
  destruct (QueryFeatures_page beq id (fun _ => Ok None) (fun _ => Ok None) (fun _ => Ok None) (fun _ => false) 0 (fun _ _ => false) (fun _ _ _ => Err GPanic)
    (fun _ => Err []) (fun _ => Err []) (fun _ => Ok tt) (fun _ _ _ _ _ => Ok sample_rows)
    sample_env {[ B "points" := sample_layer ]} (B "points") sample_query false
    (mkPrepared sample_layer [] [B "id"; B "geom"] (mkSpatialQuery None None None None) (Some sample_rows)))
    as (res & err & d & H & _ & _ & Ha & Hh).
  - unfold query_typed. cbn. lia.
  - vm_compute. reflexivity.
  - repeat constructor; intros rest; discriminate.
  - repeat constructor; intros id [= <-]; reflexivity.
  - cbn. lia.
  - assert (err = None) as ->.
    + apply Hh; [by repeat split|]. repeat constructor; eexists; vm_compute; reflexivity.
    + exists res, d. split; [exact H|]. apply (Ha eq_refl).
Defined.
