(* ===== verification/TemporalMatch.v ===== *)
(** * Temporal queries of the providers

    The integer bounds of provider/internal/featuresemantics/temporal.go, the tests of
    rows in provider/postgis/query_temporal.go and provider/mysql/query_temporal.go, and
    the SQL predicates of provider/gpkg/query_temporal.go and
    provider/hana/query_temporal.go.  All four select exactly the rows whose interval of
    stored integers meets the constraint on the exact time line of Temporal.v. *)

From S2P Require Import Prelude GoText Temporal Filter FilterDialect FilterGpkg FilterHana GpkgQuery.

#[local] Open Scope Z_scope.

(** ** featuresemantics *)

(** [strings.Trim(fraction, "0") != ""] *)
Definition has_fraction (fraction : gostring) : bool := existsb (fun c => negb (Ascii.eqb c "0")) fraction.

Definition EpochBound (t : Time) (scale : Z) (ceil : bool) (fraction : gostring) (leap : bool) : Z :=
  if leap then
    let value := (Unix t + 1) * scale in
    if negb ceil then value - 1 else value
  else
    let value := Unix t * scale in
    let numerator := t_nsec t * scale in
    let value := value + Z.quot numerator 1000000000 in
    if ceil && (negb (Z.rem numerator 1000000000 =? 0) || has_fraction fraction) then value + 1 else value.

Definition start_bound (c : TemporalConstraint) (t : Time) (scale : Z) : Z := EpochBound t scale true (tc_start_sub c) (tc_start_leap c).
Definition end_bound (c : TemporalConstraint) (t : Time) (scale : Z) : Z := EpochBound t scale false (tc_end_sub c) (tc_end_leap c).

Definition no_mapping (m : TemporalMapping) : bool := beq (InstantField m) [] && beq (StartField m) [] && beq (EndField m) [].

(** A value of an [any]: the types that the drivers return for columns. *)
Inductive any :=
| AnyNil | AnyInt16 (z : Z) | AnyInt32 (z : Z) | AnyInt64 (z : Z) | AnyUint8 (z : Z) | AnyBytes (s : gostring) | AnyOther.

(** The final comparisons of both tests of rows. *)
Definition within (c : TemporalConstraint) (scale : Z) (start last : option Z) : bool :=
  if match tc_start c, last with Some t, Some v => v <? start_bound c t scale | _, _ => false end then false
  else if match tc_end c, start with Some t, Some v => end_bound c t scale <? v | _, _ => false end then false
  else true.

Definition reversed (start last : option Z) : bool := match start, last with Some s, Some e => e <? s | _, _ => false end.

(** ** provider/postgis *)

Definition featureInt64 (value : any) : option Z :=
  match value with AnyInt16 z | AnyInt32 z | AnyInt64 z => Some z | _ => None end.

Definition pg_read (values : gostring -> any) (field : gostring) : result gostring (option Z) :=
  if beq field [] then Ok None
  else
    match values field with
    | AnyNil => Ok None
    | value => match featureInt64 value with Some v => Ok (Some v) | None => Err (B "source temporal field is not an integer") end
    end.

Definition matchesFeatureTemporal (m : TemporalMapping) (scale : Z) (values : gostring -> any) (q : option TemporalConstraint)
    : result gostring bool :=
  if no_mapping m then Ok true
  else
    let? start := pg_read values (StartField m) in
    let? last := pg_read values (EndField m) in
    let? instant := pg_read values (InstantField m) in
    if reversed start last then Err (B "source temporal interval is reversed")
    else
      match q with
      | None => Ok true
      | Some c =>
          if negb (beq (InstantField m) []) then
            match instant with
            | None => Ok true
            | Some _ => Ok (within c scale instant instant)
            end
          else Ok (within c scale start last)
      end.

(** ** provider/mysql *)

(** The configuration: the value of a key, which may not be a string. *)
Definition featureTemporalConfig (conf : gostring -> option (option gostring)) : result QueryError (TemporalMapping * Z) :=
  let read (key : string) : result QueryError gostring :=
    match conf (B key) with
    | None => Ok []
    | Some (Some value) => if is_blank value then Err (FilterHana.featureInvalid key "must be a nonblank string") else Ok value
    | Some None => Err (FilterHana.featureInvalid key "must be a nonblank string")
    end in
  let? v0 := read "temporal_field"%string in
  let? v1 := read "temporal_start_field"%string in
  let? v2 := read "temporal_end_field"%string in
  let? v3 := read "temporal_storage"%string in
  let mapping := mkMapping v0 v1 v2 in
  check? TemporalMapping_Validate mapping in
  if no_mapping mapping then
    if negb (beq v3 []) then Err (FilterHana.featureInvalid "temporal_storage" "requires temporal fields") else Ok (mapping, 0)
  else if beq v3 (B "unix_seconds") then Ok (mapping, 1)
  else if beq v3 (B "unix_milliseconds") then Ok (mapping, 1000)
  else if beq v3 (B "unix_microseconds") then Ok (mapping, 1000000)
  else if beq v3 (B "unix_nanoseconds") then Ok (mapping, 1000000000)
  else Err (FilterHana.featureInvalid "temporal_storage" "requires an integer POSIX storage profile").

Definition featureSignedInteger (value : any) : result QueryError (option Z) :=
  match value with
  | AnyNil => Ok None
  | AnyInt64 v => Ok (Some v)
  | AnyBytes s => match ParseInt s 64 with Some v => Ok (Some v) | None => Err (FilterHana.featureInvalid "temporal" "source integer out of range") end
  | _ => Err (FilterHana.featureInvalid "temporal" "source is not an integer")
  end.

Definition temporalMatches (m : TemporalMapping) (scale : Z) (values : gostring -> any) (temporal : option TemporalConstraint)
    : result QueryError bool :=
  if no_mapping m then Ok true
  else
    let? start := featureSignedInteger (values (StartField m)) in
    let? last := featureSignedInteger (values (EndField m)) in
    let? bounds :=
      if negb (beq (InstantField m) []) then let? start := featureSignedInteger (values (InstantField m)) in Ok (start, start)
      else Ok (start, last) in
    let (start, last) := bounds in
    if reversed start last then Err (FilterHana.featureInvalid "temporal" "source interval reversed")
    else
      match temporal with
      | None => Ok true
      | Some c => if bool_decide (start = None) && bool_decide (last = None) then Ok true else Ok (within c scale start last)
      end.

(** ** provider/gpkg and provider/hana: predicates *)

Definition IsInt64 (z : Z) : bool := (minInt64 <=? z) && (z <=? maxInt64).

(** The texts of a true and a false comparison differ between the two providers. *)
Definition integerBoundSQL (const : bool -> gostring) (field operator : gostring) (bound : Z) (args : list sql_arg) : gostring * list sql_arg :=
  if IsInt64 bound then (field ++ operator ++ B "?", args ++ [ArgInt bound])
  else (const ((beq operator (B ">=") && (bound <? 0)) || (beq operator (B "<=") && (0 <? bound))), args).

Definition gpkg_const (b : bool) : gostring := if b then B "1" else B "0".
Definition hana_const (b : bool) : gostring := if b then B "1=1" else B "1=0".

(** The comparisons of both predicates, each with [wrap] around it: the bound from the
    start of the constraint on [upper], then the bound from its end on [lower]. *)
Definition comparisons (const : bool -> gostring) (wrap : gostring -> gostring -> gostring) (c : TemporalConstraint) (scale : Z)
    (lower upper : gostring) (args : list sql_arg) : list gostring * list sql_arg :=
  let (cs, args) :=
    match tc_start c with
    | Some t => let (s, args) := integerBoundSQL const upper (B ">=") (start_bound c t scale) args in ([wrap upper s], args)
    | None => ([], args)
    end in
  match tc_end c with
  | Some t => let (s, args) := integerBoundSQL const lower (B "<=") (end_bound c t scale) args in (cs ++ [wrap lower s], args)
  | None => (cs, args)
  end.

Definition bare (field s : gostring) : gostring := s.
Definition or_null (field s : gostring) : gostring := B "(" ++ field ++ B " IS NULL OR " ++ s ++ B ")".

Definition not_integer (field : gostring) : gostring := B "(" ++ field ++ B " IS NOT NULL AND typeof(" ++ field ++ B ")<>'integer')".

Definition reversed_sql (start last : gostring) : gostring :=
  B "(" ++ start ++ B " IS NOT NULL AND " ++ last ++ B " IS NOT NULL AND " ++ start ++ B ">" ++ last ++ B ")".

Definition gpkg_temporalPredicate (m : TemporalMapping) (scale : Z) (temporal : option TemporalConstraint) (args : list sql_arg)
    : gostring * list sql_arg :=
  match temporal with
  | None => (B "1", args)
  | Some c =>
      if no_mapping m then (B "1", args)
      else if negb (beq (InstantField m) []) then
        let field := FilterGpkg.column_source (InstantField m) in
        let (cs, args) := comparisons gpkg_const bare c scale field field args in
        (B "(" ++ not_integer field ++ B " OR " ++ field ++ B " IS NULL OR (" ++ Join cs (B " AND ") ++ B "))", args)
      else
        let start := FilterGpkg.column_source (StartField m) in
        let last := FilterGpkg.column_source (EndField m) in
        let (cs, args) := comparisons gpkg_const or_null c scale start last args in
        (B "(" ++ Join [not_integer start; not_integer last; reversed_sql start last] (B " OR ") ++ B " OR (" ++ Join cs (B " AND ") ++ B "))", args)
  end.

Definition physical (projections : list featureProjection) (output : gostring) : gostring :=
  match List.find (fun p => beq (hp_output p) output) projections with Some p => hp_physical p | None => [] end.

Definition hana_field (projections : list featureProjection) (output : gostring) : gostring :=
  B "l." ++ FilterHana.quoteIdent (physical projections output).

Definition hana_temporalPredicate (projections : list featureProjection) (m : TemporalMapping) (scale : Z) (temporal : option TemporalConstraint)
    (args : list sql_arg) : gostring * list sql_arg :=
  match temporal with
  | None => (B "1=1", args)
  | Some c =>
      if no_mapping m then (B "1=1", args)
      else if negb (beq (InstantField m) []) then
        let instant := hana_field projections (InstantField m) in
        let (cs, args) := comparisons hana_const bare c scale instant instant args in
        (B "(" ++ instant ++ B " IS NULL OR (" ++ Join cs (B " AND ") ++ B "))", args)
      else
        let start := hana_field projections (StartField m) in
        let last := hana_field projections (EndField m) in
        let (cs, args) := comparisons hana_const or_null c scale start last args in
        (B "(" ++ reversed_sql start last ++ B " OR (" ++ Join cs (B " AND ") ++ B "))", args)
  end.

Definition featureInteger (value : any) : option Z :=
  match value with AnyInt64 z | AnyInt32 z | AnyInt16 z | AnyUint8 z => Some z | _ => None end.

(** One turn of the loop of [validateTemporalValues]. *)
Definition temporal_value (m : TemporalMapping) (values : gostring -> any) (output : gostring) (bounds : option Z * option Z)
    : result QueryError (option Z * option Z) :=
  if beq output [] then Ok bounds
  else
    match values output with
    | AnyNil => Ok bounds
    | value =>
        match featureInteger value with
        | None => Err (FilterHana.featureInvalid "temporal" "source value is not an integral storage value")
        | Some v => Ok (if beq output (StartField m) then Some v else fst bounds, if beq output (EndField m) then Some v else snd bounds)
        end
    end.

Definition validateTemporalValues (m : TemporalMapping) (values : gostring -> any) : result QueryError unit :=
  let? bounds := rfold (temporal_value m values) [InstantField m; StartField m; EndField m] (None, None) in
  if reversed (fst bounds) (snd bounds) then Err (FilterHana.featureInvalid "temporal" "source interval is reversed") else Ok tt.

(** ** The time line *)

(** The storage units: seconds, milliseconds, microseconds and nanoseconds. *)
Definition storage_scale (scale : Z) : Prop := scale = 1 \/ scale = 1000 \/ scale = 1000000 \/ scale = 1000000000.

(** Where a stored integer is on the time line: in an ordinary second, after the
    fraction of it that is left. *)
Definition stored_key (n : nat) (scale v : Z) : Z :=
  2 * (v / scale) * (10 ^ 9 * 10 ^ Z.of_nat n) + v mod scale * (10 ^ 9 / scale) * 10 ^ Z.of_nat n.

Lemma storage_scale_unit (scale : Z) : storage_scale scale -> 0 < scale /\ exists k, 0 < k /\ scale * k = 10 ^ 9 /\ 10 ^ 9 / scale = k.
Proof. intros [->|[->|[->| ->]]]; (split; [lia|]); eexists; (split; [|split; [|reflexivity]]); vm_compute; done. Qed.

Lemma has_fraction_value (n : nat) (f : gostring) :
  digits f -> (length f <= n)%nat -> has_fraction f = negb (fraction_value n f =? 0).
Proof.
  revert f. induction n as [|n IH]; intros f Hd Hl; [by destruct f; cbn in *; [|lia]|].
  cbn [fraction_value]. pose proof (digits_tail _ Hd) as Hd'. pose proof (fraction_value_range n (tail f) Hd') as Hr.
  pose proof (digits_head _ Hd) as Hh. specialize (IH (tail f) Hd' ltac:(destruct f; cbn in *; lia)).
  assert (0 < 10 ^ Z.of_nat n) as Hp by (apply Z.pow_pos_nonneg; lia).
  destruct (Z.eqb_spec (code (default "0"%char (head f)) - 48) 0) as [E|E].
  - rewrite E, Z.mul_0_l, Z.add_0_l, <- IH. destruct f as [|c f]; [done|]. cbn [has_fraction existsb]. cbn in E.
    rewrite (code_inj c "0") by (change (code "0") with 48; lia). done.
  - replace (has_fraction f) with true; [symmetry; apply negb_true_iff, Z.eqb_neq; nia|].
    destruct f as [|c f]; [done|]. cbn [has_fraction existsb]. destruct (Ascii.eqb_spec c "0") as [->|]; done.
Qed.

Lemma lex_le (w i j x y : Z) : 0 <= x < w -> 0 <= y < w -> i * w + x <= j * w + y <-> i < j \/ i = j /\ x <= y.
Proof. intros Hx Hy. split; [intros H; destruct (Z.lt_trichotomy i j) as [|[|]]; nia|intros [H|[-> H]]; nia]. Qed.

(** Ticks of [k] nanoseconds against a time of [q] ticks and a rest. *)
Lemma ticks (k q r P fv b : Z) :
  0 < k -> 0 <= r < k -> 0 <= fv < P ->
  ((k * q + r) * P + fv <= b * k * P <-> q + (if negb (r =? 0) || negb (fv =? 0) then 1 else 0) <= b)
  /\ (b * k * P <= (k * q + r) * P + fv <-> b <= q).
Proof.
  intros Hk Hr Hf. assert (r * P <= (k - 1) * P) as Hm by (apply Z.mul_le_mono_nonneg_r; lia).
  assert (0 <= r * P) by (apply Z.mul_nonneg_nonneg; lia).
  replace ((k * q + r) * P + fv) with (q * (k * P) + (r * P + fv)) by lia. replace (b * k * P) with (b * (k * P) + 0) by lia.
  rewrite !lex_le by lia. split; [|lia]. destruct (Z.eqb_spec r 0) as [->|]; [destruct (Z.eqb_spec fv 0) as [->|]|]; cbn [negb orb]; try lia.
  assert (0 < r * P) by (apply Z.mul_pos_pos; lia). lia.
Qed.

Section Bounds.
Context (n : nat) (scale : Z) (t : Time) (f : gostring) (Hscale : storage_scale scale) (Hd : digits f) (Hl : (length f <= n)%nat)
  (Hns : 0 <= t_nsec t < 10 ^ 9).

(** The whole units of the fraction and whether some of it is left. *)
Lemma EpochBound_units (ceil : bool) :
  EpochBound t scale ceil f false
  = Unix t * scale + t_nsec t / (10 ^ 9 / scale)
    + (if ceil && (negb (t_nsec t mod (10 ^ 9 / scale) =? 0) || negb (fraction_value n f =? 0)) then 1 else 0).
Proof using Hscale Hd Hl Hns.
  destruct (storage_scale_unit scale Hscale) as (Hs & k & Hk & Esk & ->). unfold EpochBound.
  change 1000000000 with (10 ^ 9). rewrite Z.quot_div_nonneg, Z.rem_mod_nonneg by nia. rewrite (has_fraction_value n f Hd Hl), <- Esk.
  rewrite (Z.mul_comm (t_nsec t)), Z.div_mul_cancel_l, Z.mul_mod_distr_l by lia.
  replace (scale * (t_nsec t mod k) =? 0) with (t_nsec t mod k =? 0); [destruct (ceil && _); lia|].
  apply eq_iff_eq_true. rewrite !Z.eqb_eq. nia.
Qed.

(** The stored integer and the endpoint, by their seconds and the fractions of them. *)
Lemma key_order (leap : bool) (v : Z) :
  let W := 10 ^ 9 * 10 ^ Z.of_nat n in
  let x := t_nsec t * 10 ^ Z.of_nat n + fraction_value n f in
  let y := v mod scale * (10 ^ 9 / scale) * 10 ^ Z.of_nat n in
  (endpoint_key n t f leap <= stored_key n scale v <-> (if leap then Unix t < v / scale else Unix t < v / scale \/ Unix t = v / scale /\ x <= y))
  /\ (stored_key n scale v <= endpoint_key n t f leap <-> (if leap then v / scale <= Unix t else v / scale < Unix t \/ v / scale = Unix t /\ y <= x)).
Proof using Hscale Hd Hl Hns.
  intros W x y. destruct (storage_scale_unit scale Hscale) as (Hs & k & Hk & Esk & Ek). pose proof (fraction_value_range n f Hd) as Hf.
  pose proof (Z.mod_pos_bound v scale Hs) as Hb. assert (0 < 10 ^ Z.of_nat n) as HP by (apply Z.pow_pos_nonneg; lia).
  assert (0 <= x < W) as Hx by (unfold x, W; nia).
  assert (0 <= y < W) as Hy by (unfold y, W; rewrite Ek, <- Esk; split; [nia|]; apply Zmult_lt_compat_r; [done|]; nia).
  unfold endpoint_key, stored_key. fold W x y. rewrite !lex_le by done. destruct leap; lia.
Qed.

Lemma EpochBound_lower (leap : bool) (v : Z) : EpochBound t scale true f leap <= v <-> endpoint_key n t f leap <= stored_key n scale v.
Proof using Hscale Hd Hl Hns.
  pose proof EpochBound_units as Hunits. destruct (key_order leap v) as [-> _]. destruct (storage_scale_unit scale Hscale) as (Hs & k & Hk & Esk & Ek). rewrite Ek in *.
  pose proof (fraction_value_range n f Hd) as Hf. pose proof (Z.mod_pos_bound v scale Hs) as Hb. rewrite (Z.div_mod v scale) at 1 by lia.
  assert (0 < 10 ^ Z.of_nat n) as HP by (apply Z.pow_pos_nonneg; lia). set (P := 10 ^ Z.of_nat n) in *. set (fv := fraction_value n f) in *. set (a := v / scale) in *. set (b := v mod scale) in *.
  destruct leap; [unfold EpochBound; cbn [negb]; split; intros H; nia|]. rewrite Hunits. clear Hunits. cbn [andb].
  pose proof (Z.div_mod (t_nsec t) k ltac:(lia)) as En. pose proof (Z.mod_pos_bound (t_nsec t) k Hk) as Hr.
  set (q := t_nsec t / k) in *. set (r := t_nsec t mod k) in *. assert (0 <= q < scale) as Hq by nia.
  set (c := if negb (r =? 0) || negb (fv =? 0) then 1 else 0).
  assert (t_nsec t * P + fv <= b * k * P <-> q + c <= b) as ->.
  { rewrite En. by apply ticks. }
  assert (0 <= c <= 1) as Hc by (subst c; destruct (negb _ || negb _); lia).
  replace (Unix t * scale + q + c) with (Unix t * scale + (q + c)) by lia. split; intros H; [|nia].
  destruct (Z.lt_trichotomy (Unix t) a) as [|[|]]; [by left|right; nia|nia].
Qed.

Lemma EpochBound_upper (leap : bool) (v : Z) : v <= EpochBound t scale false f leap <-> stored_key n scale v <= endpoint_key n t f leap.
Proof using Hscale Hd Hl Hns.
  pose proof EpochBound_units as Hunits. destruct (key_order leap v) as [_ ->]. destruct (storage_scale_unit scale Hscale) as (Hs & k & Hk & Esk & Ek). rewrite Ek in *.
  pose proof (fraction_value_range n f Hd) as Hf. pose proof (Z.mod_pos_bound v scale Hs) as Hb. rewrite (Z.div_mod v scale) at 1 by lia.
  assert (0 < 10 ^ Z.of_nat n) as HP by (apply Z.pow_pos_nonneg; lia). set (P := 10 ^ Z.of_nat n) in *. set (fv := fraction_value n f) in *. set (a := v / scale) in *. set (b := v mod scale) in *.
  destruct leap; [unfold EpochBound; cbn [negb]; split; intros H; nia|]. rewrite Hunits. clear Hunits. cbn [andb].
  pose proof (Z.div_mod (t_nsec t) k ltac:(lia)) as En. pose proof (Z.mod_pos_bound (t_nsec t) k Hk) as Hr.
  set (q := t_nsec t / k) in *. set (r := t_nsec t mod k) in *. assert (0 <= q < scale) as Hq by nia.
  assert (b * k * P <= t_nsec t * P + fv <-> b <= q) as -> by (rewrite En; by apply ticks).
  split; intros H; [|nia]. destruct (Z.lt_trichotomy a (Unix t)) as [|[|]]; [by left|right; nia|nia].
Qed.

End Bounds.

Lemma stored_key_mono (n : nat) (scale v w : Z) : storage_scale scale -> v <= w -> stored_key n scale v <= stored_key n scale w.
Proof.
  intros Hs Hv. destruct (storage_scale_unit scale Hs) as (Hp & k & Hk & Esk & Ek). unfold stored_key. rewrite Ek, <- Esk.
  assert (0 < 10 ^ Z.of_nat n) as HP by (apply Z.pow_pos_nonneg; lia). set (P := 10 ^ Z.of_nat n) in *.
  pose proof (Z.mod_pos_bound v scale Hp). pose proof (Z.mod_pos_bound w scale Hp).
  pose proof (Z.div_mod v scale ltac:(lia)) as Ev. pose proof (Z.div_mod w scale ltac:(lia)) as Ew.
  assert (forall z, 0 <= z < scale -> 0 <= z * k * P < scale * k * P) as Hz
    by (intros z Hz; split; [nia|]; apply Zmult_lt_compat_r; [done|]; apply Zmult_lt_compat_r; lia).
  apply lex_le; [by apply Hz|by apply Hz|]. destruct (Z.lt_trichotomy (v / scale) (w / scale)) as [|[E|]]; [left; lia| |nia].
  right. split; [lia|]. rewrite E in Ev. apply Z.mul_le_mono_nonneg_r; [lia|]. apply Z.mul_le_mono_nonneg_r; lia.
Qed.

(** A constraint that was validated, with times whose nanoseconds are in range and at
    most [n] further digits. *)
Record constraint_ok (n : nat) (c : TemporalConstraint) : Prop := {
  co_valid : TemporalConstraint_Validate c = Ok tt;
  co_start : (length (tc_start_sub c) <= n)%nat;
  co_end : (length (tc_end_sub c) <= n)%nat;
  co_nsec : forall u, tc_start c = Some u \/ tc_end c = Some u -> 0 <= t_nsec u < 10 ^ 9
}.

Definition start_key (n : nat) (c : TemporalConstraint) (t : Time) : Z := endpoint_key n t (tc_start_sub c) (tc_start_leap c).
Definition end_key (n : nat) (c : TemporalConstraint) (t : Time) : Z := endpoint_key n t (tc_end_sub c) (tc_end_leap c).

(** Some position of the time line is in the stored interval and in the constraint; a
    missing end of either is open. *)
Definition overlaps (n : nat) (scale : Z) (c : TemporalConstraint) (iv : option Z * option Z) : Prop :=
  exists x,
    (forall v, fst iv = Some v -> stored_key n scale v <= x) /\ (forall v, snd iv = Some v -> x <= stored_key n scale v) /\
    (forall t, tc_start c = Some t -> start_key n c t <= x) /\ (forall t, tc_end c = Some t -> x <= end_key n c t).

(** Two lower and two upper bounds leave room exactly when no lower one is above an
    upper one. *)
Lemma room {A C : Type} (f g : A -> Z) (h k : C -> Z) (l1 u1 : option A) (l2 u2 : option C) :
  (exists x, (forall v, l1 = Some v -> f v <= x) /\ (forall v, u1 = Some v -> x <= g v) /\ (forall v, l2 = Some v -> h v <= x) /\ (forall v, u2 = Some v -> x <= k v)) <->
  (forall v w, l1 = Some v -> u1 = Some w -> f v <= g w) /\ (forall v w, l1 = Some v -> u2 = Some w -> f v <= k w) /\
  (forall v w, l2 = Some v -> u1 = Some w -> h v <= g w) /\ (forall v w, l2 = Some v -> u2 = Some w -> h v <= k w).
Proof.
  split; [intros (x & H1 & H2 & H3 & H4); split_and!; intros v w Hv Hw; transitivity x; auto|].
  intros (H1 & H2 & H3 & H4).
  exists (match l1, l2 with
          | Some a, Some b => Z.max (f a) (h b) | Some a, None => f a | None, Some b => h b
          | None, None => match u1, u2 with Some a, Some b => Z.min (g a) (k b) | Some a, None => g a | None, Some b => k b | None, None => 0 end
          end).
  destruct l1 as [a|], l2 as [b|], u1 as [c|], u2 as [d|]; split_and!; intros v Hv; injection Hv as <- || discriminate;
    repeat match goal with H : forall v w, Some ?a = Some v -> Some ?b = Some w -> _ |- _ => specialize (H a b eq_refl eq_refl) end; lia.
Qed.

Lemma below_spec {A C : Type} (f : A -> Z) (g : C -> Z) (a : option A) (b : option C) :
  match a, b with Some x, Some y => g y <? f x | _, _ => false end = false <-> (forall y x, b = Some y -> a = Some x -> f x <= g y).
Proof.
  destruct a as [x|], b as [y|]; try (split; [by intros _ ? ? ? ?|done]).
  rewrite Z.ltb_ge. split; [by intros H ? ? [= <-] [= <-]|by intros H; apply H].
Qed.

Lemma within_spec (c : TemporalConstraint) (scale : Z) (start last : option Z) :
  within c scale start last = true <->
  (forall v t, last = Some v -> tc_start c = Some t -> start_bound c t scale <= v) /\ (forall v t, start = Some v -> tc_end c = Some t -> v <= end_bound c t scale).
Proof.
  rewrite <- (below_spec (fun t => start_bound c t scale) id). unfold within, id.
  assert ((forall v t, start = Some v -> tc_end c = Some t -> v <= end_bound c t scale) <->
          match tc_end c, start with Some t, Some v => end_bound c t scale <? v | _, _ => false end = false) as ->.
  { destruct (tc_end c) as [t|], start as [v|]; try (split; [done|by intros _ ? ? ? ?]).
    rewrite Z.ltb_ge. split; [by intros H; apply H|by intros H ? ? [= <-] [= <-]]. }
  destruct (match tc_start c, last with Some _, Some _ => _ | _, _ => _ end), (match tc_end c, start with Some _, Some _ => _ | _, _ => _ end); tauto || (split; [done|by intros []]).
Qed.

(** Both row tests and both predicates decide by the bounds exactly what the time line does. *)
Lemma within_overlaps (n : nat) (c : TemporalConstraint) (scale : Z) (start last : option Z) :
  constraint_ok n c -> storage_scale scale -> reversed start last = false -> within c scale start last = true <-> overlaps n scale c (start, last).
Proof.
  intros [Hv Hs He Hns] Hscale Hr. unfold overlaps. cbn [fst snd]. rewrite room, within_spec.
  pose proof (proj1 (TemporalConstraint_Validate_exact c n Hs He Hns) Hv) as (_ & Os & Oe & Hse).
  assert (forall v w, start = Some v -> last = Some w -> stored_key n scale v <= stored_key n scale w) as Hsl
    by (intros v w -> ->; apply stored_key_mono; [done|]; cbn in Hr; by apply Z.ltb_ge in Hr).
  assert (forall t v, tc_start c = Some t -> start_bound c t scale <= v <-> start_key n c t <= stored_key n scale v) as Ls.
  { intros t v E. rewrite E in Os. unfold start_bound, start_key. apply EpochBound_lower; [done|apply Os|done|by apply Hns; left]. }
  assert (forall t v, tc_end c = Some t -> v <= end_bound c t scale <-> stored_key n scale v <= end_key n c t) as Le.
  { intros t v E. rewrite E in Oe. unfold end_bound, end_key. apply EpochBound_upper; [done|apply Oe|done|by apply Hns; right]. }
  split; [intros [H1 H2]|intros (_ & H2 & H1 & _)]; split_and!; try done; intros v t E1 E2; first [apply Le|apply Ls]; auto.
Qed.

(** ** Rows *)

(** A mapping and scale as registration leaves them. *)
Record configured (m : TemporalMapping) (scale : Z) : Prop := {
  cf_valid : TemporalMapping_Validate m = Ok tt;
  cf_mapped : no_mapping m = false;
  cf_scale : storage_scale scale
}.

Lemma featureTemporalConfig_configured (conf : gostring -> option (option gostring)) (m : TemporalMapping) (scale : Z) :
  featureTemporalConfig conf = Ok (m, scale) -> no_mapping m = true /\ scale = 0 \/ configured m scale.
Proof.
  unfold featureTemporalConfig. intros H. do 4 (apply rbind_Ok in H as (? & _ & H)). apply rbind_unit in H as [Hv H].
  destruct (no_mapping _) eqn:En; [left; destruct (negb _); [done|]; by injection H as <- <-|right].
  repeat match type of H with (if ?b then _ else _) = _ => destruct b end; try done; injection H as <- <-; split; try done; unfold storage_scale; auto.
Qed.

Lemma mapping_cases (m : TemporalMapping) (scale : Z) :
  configured m scale ->
  InstantField m <> [] /\ StartField m = [] /\ EndField m = [] \/ InstantField m = [] /\ StartField m <> [] /\ EndField m <> [] /\ StartField m <> EndField m.
Proof.
  intros [Hv Hn _]. unfold TemporalMapping_Validate, no_mapping in *. destruct (existsb _ _); [done|].
  destruct (beq (InstantField m) []) eqn:E1, (beq (StartField m) []) eqn:E2, (beq (EndField m) []) eqn:E3, (beq (StartField m) (EndField m)) eqn:E4; try done;
    repeat match goal with E : beq _ _ = true |- _ => apply beq_true in E | E : beq _ _ = false |- _ => apply beq_false in E end; tauto.
Qed.

(** The interval a row has by its mapped cells, each not an integer, missing or an
    integer; there is none when a cell is not an integer or the interval is reversed. *)
Definition source_interval (m : TemporalMapping) (cell : gostring -> option (option Z)) : option (option Z * option Z) :=
  if negb (beq (InstantField m) []) then v ← cell (InstantField m); Some (v, v)
  else
    start ← cell (StartField m); last ← cell (EndField m);
    if reversed start last then None else Some (start, last).

Definition pg_cell (value : any) : option (option Z) := match value with AnyNil => Some None | value => Some <$> featureInt64 value end.

Definition mysql_cell (value : any) : option (option Z) :=
  match value with AnyNil => Some None | AnyInt64 v => Some (Some v) | AnyBytes s => Some <$> ParseInt s 64 | _ => None end.

(** What a test of a row answers: an error without an interval, and otherwise whether
    the interval meets the constraint. *)
Definition answers {E : Type} (n : nat) (scale : Z) (c : TemporalConstraint) (iv : option (option Z * option Z)) (r : result E bool) : Prop :=
  match iv with
  | None => exists e, r = Err e
  | Some iv => exists b, r = Ok b /\ (b = true <-> overlaps n scale c iv)
  end.

Lemma reversed_same (v : option Z) : reversed v v = false.
Proof. destruct v; [cbn; lia|done]. Qed.

Lemma overlaps_open (n : nat) (scale : Z) (c : TemporalConstraint) : constraint_ok n c -> storage_scale scale -> overlaps n scale c (None, None).
Proof. intros Hc Hs. apply (within_overlaps n c scale None None Hc Hs eq_refl). unfold within. by destruct (tc_start c), (tc_end c). Qed.

Section Rows.
Context (n : nat) (m : TemporalMapping) (scale : Z) (c : TemporalConstraint) (values : gostring -> any).
Context (Hc : constraint_ok n c) (Hm : configured m scale).

Lemma answers_within {E : Type} (start last : option Z) (r : result E bool) :
  r = Ok (within c scale start last) -> reversed start last = false -> answers n scale c (Some (start, last)) r.
Proof using Hc Hm. intros -> Hr. eexists. split; [done|]. apply within_overlaps; [done|apply Hm|done]. Qed.

Lemma pg_read_cell (field : gostring) : field <> [] -> pg_cell (values field) = match pg_read values field with Ok v => Some v | Err _ => None end.
Proof using. intros Hf. unfold pg_read. rewrite (proj2 (beq_false _ _) Hf). by destruct (values field). Qed.

Lemma postgis_answers : answers n scale c (source_interval m (pg_cell ∘ values)) (matchesFeatureTemporal m scale values (Some c)).
Proof using Hc Hm.
  unfold matchesFeatureTemporal, source_interval. rewrite (cf_mapped _ _ Hm).
  destruct (mapping_cases m scale Hm) as [(Hi & Hs & He)|(Hi & Hs & He & _)].
  - rewrite Hs, He, (proj2 (beq_false _ _) Hi). cbn [negb compose]. change (pg_read values []) with (@Ok gostring _ (@None Z)). cbn [rbind].
    rewrite pg_read_cell by done. destruct (pg_read values (InstantField m)) as [[v|]|e]; cbn [rbind reversed mbind option_bind answers]; [..|by eexists].
    + by apply answers_within, reversed_same.
    + eexists. split; [done|]. split; [|done]. intros _. by apply overlaps_open; [|apply Hm].
  - rewrite Hi. rewrite beq_refl. cbn [negb compose]. rewrite !pg_read_cell by done. change (pg_read values []) with (@Ok gostring _ (@None Z)).
    destruct (pg_read values (StartField m)) as [s|]; cbn [rbind mbind option_bind]; [|by eexists].
    destruct (pg_read values (EndField m)) as [e|]; cbn [rbind mbind option_bind]; [|by eexists].
    destruct (reversed s e) eqn:Er; [by eexists|]. by apply answers_within.
Qed.

Lemma mysql_read_cell (value : any) : mysql_cell value = match featureSignedInteger value with Ok v => Some v | Err _ => None end.
Proof using. destruct value; try done. cbn. by destruct (ParseInt s 64). Qed.

Lemma mysql_answers : values [] = AnyNil -> answers n scale c (source_interval m (mysql_cell ∘ values)) (temporalMatches m scale values (Some c)).
Proof using Hc Hm.
  intros Hnil. unfold temporalMatches, source_interval. rewrite (cf_mapped _ _ Hm).
  destruct (mapping_cases m scale Hm) as [(Hi & Hs & He)|(Hi & Hs & He & _)].
  - rewrite Hs, He, Hnil, (proj2 (beq_false _ _) Hi). cbn [negb compose rbind featureSignedInteger]. rewrite mysql_read_cell.
    destruct (featureSignedInteger (values (InstantField m))) as [v|e]; cbn [rbind mbind option_bind answers]; [|by eexists].
    rewrite reversed_same. destruct v as [v|]; [by apply answers_within, reversed_same|].
    eexists. split; [done|]. split; [|done]. intros _. by apply overlaps_open; [|apply Hm].
  - rewrite Hi. rewrite beq_refl. cbn [negb compose]. rewrite !mysql_read_cell.
    destruct (featureSignedInteger (values (StartField m))) as [s|]; cbn [rbind mbind option_bind]; [|by eexists].
    destruct (featureSignedInteger (values (EndField m))) as [e|]; cbn [rbind mbind option_bind]; [|by eexists].
    destruct (reversed s e) eqn:Er; [by eexists|].
    destruct (bool_decide (s = None) && bool_decide (e = None)) eqn:Eb; [|by apply answers_within].
    apply andb_true_iff in Eb as [->%bool_decide_eq_true ->%bool_decide_eq_true].
    eexists. split; [done|]. split; [|done]. intros _. by apply overlaps_open; [|apply Hm].
Qed.

End Rows.

(** ** Predicates *)

(** The tests of the predicates on a column. *)
Inductive time_leaf :=
| TIsNull (f : gostring) | TNotNull (f : gostring) | TNotInteger (f : gostring)
| TAtLeast (f : gostring) (bound : Z) | TAtMost (f : gostring) (bound : Z) | TAfter (f g : gostring).

Definition time_text (source : gostring -> gostring) (l : time_leaf) : gostring :=
  match l with
  | TIsNull f => source f ++ B " IS NULL"
  | TNotNull f => source f ++ B " IS NOT NULL"
  | TNotInteger f => B "typeof(" ++ source f ++ B ")<>'integer'"
  | TAtLeast f _ => source f ++ B ">=" ++ B "?"
  | TAtMost f _ => source f ++ B "<=" ++ B "?"
  | TAfter f g => source f ++ B ">" ++ source g
  end.

Definition time_args (l : time_leaf) : list sql_arg := match l with TAtLeast _ z | TAtMost _ z => [ArgInt z] | _ => [] end.

Definition time_dialect (const : bool -> gostring) (source : gostring -> gostring) : dialect time_leaf sql_arg :=
  mkDialect const false false (fun conj values => Join values (connective conj)) (fun _ => time_text source) time_args.

(** What a database promises of the tests on a row with these cells. *)
Record decides (value : time_leaf -> option bool) (cell : gostring -> option (option Z)) : Prop := {
  de_null : forall f, value (TIsNull f) = Some (bool_decide (cell f = Some None));
  de_not_null : forall f, value (TNotNull f) = Some (negb (bool_decide (cell f = Some None)));
  de_integer : forall f, cell f <> Some None -> value (TNotInteger f) = Some (bool_decide (cell f = None));
  de_at_least : forall f z v, cell f = Some (Some v) -> value (TAtLeast f z) = Some (z <=? v);
  de_at_most : forall f z v, cell f = Some (Some v) -> value (TAtMost f z) = Some (v <=? z);
  de_after : forall f g v w, cell f = Some (Some v) -> cell g = Some (Some w) -> value (TAfter f g) = Some (w <? v);
  de_int64 : forall f v, cell f = Some (Some v) -> minInt64 <= v <= maxInt64
}.

Definition bound_pred (least : bool) (f : gostring) (z : Z) : predicate time_leaf :=
  if IsInt64 z then PLeaf (if least then TAtLeast f z else TAtMost f z) else PConst (if least then z <? 0 else 0 <? z).

Lemma integerBoundSQL_print (const : bool -> gostring) (source : gostring -> gostring) (least : bool) (f : gostring) (z : Z) (args : list sql_arg) (k : nat) :
  let d := time_dialect const source in
  integerBoundSQL const (source f) (if least then B ">=" else B "<=") z args = (print d k (bound_pred least f z), args ++ params d (bound_pred least f z)).
Proof. unfold integerBoundSQL, bound_pred. destruct least, (IsInt64 z); cbn; rewrite ?app_nil_r, ?orb_false_r; done. Qed.

Lemma bound_pred_eval (value : time_leaf -> option bool) (cell : gostring -> option (option Z)) (least : bool) (f : gostring) (z v : Z) :
  decides value cell -> cell f = Some (Some v) -> eval value (bound_pred least f z) = Some (if least then z <=? v else v <=? z).
Proof.
  intros Hd Hf. pose proof (de_int64 _ _ Hd f v Hf) as Hv. unfold bound_pred. destruct (IsInt64 z) eqn:E.
  - destruct least; cbn [eval]; [by apply (de_at_least _ _ Hd)|by apply (de_at_most _ _ Hd)].
  - cbn [eval]. unfold IsInt64 in E. apply andb_false_iff in E. rewrite !Z.leb_gt in E. unfold minInt64, maxInt64 in *.
    f_equal. apply eq_iff_eq_true. destruct least; rewrite Z.ltb_lt, Z.leb_le; lia.
Qed.

(** The conjunction of the comparisons, each wrapped. *)
Definition bounds_pred (wrap : gostring -> predicate time_leaf -> predicate time_leaf) (c : TemporalConstraint) (scale : Z) (lower upper : gostring)
    : predicate time_leaf :=
  let first t := wrap upper (bound_pred true upper (start_bound c t scale)) in
  let second t := wrap lower (bound_pred false lower (end_bound c t scale)) in
  match tc_start c, tc_end c with
  | Some s, Some e => PAnd (first s) (second e)
  | Some s, None => first s
  | None, Some e => second e
  | None, None => PConst true
  end.

Definition or_null_pred (f : gostring) (p : predicate time_leaf) : predicate time_leaf := PParen (POr (PLeaf (TIsNull f)) p).

Section Comparisons.
Context (const : bool -> gostring) (source : gostring -> gostring) (c : TemporalConstraint) (scale : Z) (Hc : tc_start c <> None \/ tc_end c <> None).

Lemma comparisons_print (wrap : gostring -> gostring -> gostring) (wrapp : gostring -> predicate time_leaf -> predicate time_leaf)
    (lower upper : gostring) (args : list sql_arg) (k : nat) :
  let d := time_dialect const source in
  (forall f p j, print d j (wrapp f p) = wrap (source f) (print d j p) /\ params d (wrapp f p) = params d p) ->
  let (cs, args') := comparisons const wrap c scale (source lower) (source upper) args in
  Join cs (B " AND ") = print d k (bounds_pred wrapp c scale lower upper) /\ args' = args ++ params d (bounds_pred wrapp c scale lower upper).
Proof using Hc.
  intros d Hw. unfold comparisons, bounds_pred. pose proof (integerBoundSQL_print const source true upper) as H1. pose proof (integerBoundSQL_print const source false lower) as H2.
  cbn [negb] in H1, H2. destruct (tc_start c) as [s|], (tc_end c) as [e|]; [..|by destruct Hc].
  - rewrite (H1 _ _ k), (H2 _ _ (k + length (params d (wrapp upper (bound_pred true upper (start_bound c s scale)))))%nat). cbn [Join app print params]. fold d.
    rewrite !(proj1 (Hw _ _ _)), !(proj2 (Hw _ _ 0%nat)), <- !app_assoc. done.
  - rewrite (H1 _ _ k). fold d. by rewrite (proj1 (Hw _ _ _)), (proj2 (Hw _ _ 0%nat)).
  - rewrite (H2 _ _ k). fold d. cbn [app Join]. by rewrite (proj1 (Hw _ _ _)), (proj2 (Hw _ _ 0%nat)).
Qed.

Lemma bounds_eval (value : time_leaf -> option bool) (cell : gostring -> option (option Z)) (wrapp : gostring -> predicate time_leaf -> predicate time_leaf)
    (lower upper : gostring) (start last : option Z) :
  (forall z, eval value (wrapp upper (bound_pred true upper z)) = Some (match last with Some v => z <=? v | None => true end)) ->
  (forall z, eval value (wrapp lower (bound_pred false lower z)) = Some (match start with Some v => v <=? z | None => true end)) ->
  eval value (bounds_pred wrapp c scale lower upper) = Some (within c scale start last).
Proof using Hc.
  intros H1 H2. unfold bounds_pred, within. destruct (tc_start c) as [s|], (tc_end c) as [e|]; [..|by destruct Hc]; cbn [eval]; rewrite ?H1, ?H2;
    destruct last as [y|], start as [x|]; cbn [and3]; rewrite ?Z.ltb_antisym; repeat match goal with |- context [?a <=? ?b] => destruct (a <=? b) end; done.
Qed.

End Comparisons.

Lemma or_null_eval (value : time_leaf -> option bool) (cell : gostring -> option (option Z)) (least : bool) (f : gostring) (z : Z) (v : option Z) :
  decides value cell -> cell f = Some v ->
  eval value (or_null_pred f (bound_pred least f z)) = Some (match v with Some v => if least then z <=? v else v <=? z | None => true end).
Proof.
  intros Hd Hf. cbn [or_null_pred eval]. rewrite (de_null _ _ Hd), Hf. destruct v as [v|].
  - rewrite bool_decide_eq_false_2 by done. rewrite (bound_pred_eval _ _ _ _ _ v Hd Hf). by destruct (if least then _ else _).
  - by rewrite bool_decide_eq_true_2.
Qed.

(** Invalid cells, reversed intervals, and the interval otherwise. *)
Definition invalid_pred (f : gostring) : predicate time_leaf := PParen (PAnd (PLeaf (TNotNull f)) (PLeaf (TNotInteger f))).
Definition reversed_pred (f g : gostring) : predicate time_leaf := PParen (PAnd (PLeaf (TNotNull f)) (PAnd (PLeaf (TNotNull g)) (PLeaf (TAfter f g)))).

Lemma invalid_eval (value : time_leaf -> option bool) (cell : gostring -> option (option Z)) (f : gostring) :
  decides value cell -> eval value (invalid_pred f) = Some (bool_decide (cell f = None)).
Proof.
  intros Hd. cbn [invalid_pred eval]. rewrite (de_not_null _ _ Hd). destruct (cell f) as [[v|]|] eqn:E.
  - rewrite (de_integer _ _ Hd) by congruence. rewrite E. done.
  - done.
  - rewrite (de_integer _ _ Hd) by congruence. rewrite E. done.
Qed.

Lemma reversed_eval (value : time_leaf -> option bool) (cell : gostring -> option (option Z)) (f g : gostring) (v w : option Z) :
  decides value cell -> cell f = Some v -> cell g = Some w -> eval value (reversed_pred f g) = Some (reversed v w).
Proof.
  intros Hd Hf Hg. cbn [reversed_pred eval]. rewrite !(de_not_null _ _ Hd), Hf, Hg. destruct v as [v|], w as [w|]; try done.
  rewrite (de_after _ _ Hd f g v w) by done. cbn. by destruct (w <? v).
Qed.

(** A row is selected when its interval meets the constraint; one without an interval is
    selected as well, and rejected when it is read. *)
Definition selects (n : nat) (m : TemporalMapping) (scale : Z) (c : TemporalConstraint) (value : time_leaf -> option bool)
    (cell : gostring -> option (option Z)) (p : predicate time_leaf) : Prop :=
  exists b, eval value p = Some b /\ (b = true <-> match source_interval m cell with Some iv => overlaps n scale c iv | None => True end).

Section Predicates.
Context (n : nat) (m : TemporalMapping) (scale : Z) (c : TemporalConstraint) (Hc : constraint_ok n c) (Hm : configured m scale).

Lemma constraint_bounded : tc_start c <> None \/ tc_end c <> None.
Proof using Hc. destruct Hc as [Hv Hs He Hns]. by apply (TemporalConstraint_Validate_exact c n Hs He Hns) in Hv as [? _]. Qed.

Section Row.
Context (value : time_leaf -> option bool) (cell : gostring -> option (option Z)) (Hd : decides value cell).

(** The conditions on an instant, after whether it is an integer. *)
Lemma instant_selects (p : predicate time_leaf) (checked : bool) :
  InstantField m <> [] -> (checked = false -> cell (InstantField m) <> None) ->
  let f := InstantField m in
  eval value p = or3 (if checked then eval value (invalid_pred f) else Some false)
                   (or3 (eval value (PLeaf (TIsNull f))) (eval value (bounds_pred (fun _ p => p) c scale f f))) ->
  selects n m scale c value cell p.
Proof using Hc Hm Hd.
  intros Hi Hk f Hp. unfold selects, source_interval. rewrite (proj2 (beq_false _ _) Hi). cbn [negb]. fold f. fold f in Hk. rewrite Hp. clear Hp.
  rewrite (invalid_eval _ _ _ Hd). cbn [eval]. rewrite (de_null _ _ Hd). destruct (cell f) as [[v|]|] eqn:E; cbn [mbind option_bind].
  - rewrite (bounds_eval c scale constraint_bounded value cell _ f f (Some v) (Some v)); [|intros z; by rewrite (bound_pred_eval _ _ _ _ _ v Hd E)..].
    exists (within c scale (Some v) (Some v)). split; [by destruct checked, (within _ _ _ _)|]. apply within_overlaps; [done|apply Hm|apply reversed_same].
  - exists true. split; [by destruct checked|]. split; [|done]. intros _. apply overlaps_open; [done|apply Hm].
  - exists true. split; [|done]. destruct checked; [done|by destruct Hk].
Qed.

(** The conditions on an interval. *)
Lemma interval_selects (p : predicate time_leaf) (checked : bool) :
  InstantField m = [] -> (checked = false -> cell (StartField m) <> None /\ cell (EndField m) <> None) ->
  let s := StartField m in let e := EndField m in
  eval value p = or3 (if checked then or3 (eval value (invalid_pred s)) (eval value (invalid_pred e)) else Some false)
                   (or3 (eval value (reversed_pred s e)) (eval value (bounds_pred or_null_pred c scale s e))) ->
  selects n m scale c value cell p.
Proof using Hc Hm Hd.
  intros Hi Hk s e Hp. unfold selects, source_interval. rewrite Hi, beq_refl. cbn [negb]. fold s e. fold s e in Hk. rewrite Hp. clear Hp.
  rewrite !(invalid_eval _ _ _ Hd). destruct (cell s) as [x|] eqn:Es; cbn [mbind option_bind]; [destruct (cell e) as [y|] eqn:Ee|].
  - rewrite (reversed_eval _ _ _ _ x y Hd Es Ee).
    rewrite (bounds_eval c scale constraint_bounded value cell _ s e x y); [|intros z; by rewrite (or_null_eval _ _ _ _ _ _ Hd) by done..].
    cbn [mbind option_bind]. destruct (reversed x y) eqn:Er; [exists true; by destruct checked|]. exists (within c scale x y).
    split; [by destruct checked, (within _ _ _ _)|]. apply within_overlaps; [done|apply Hm|done].
  - exists true. split; [|done]. destruct checked; [by destruct (bool_decide (Some x = None))|by destruct Hk].
  - exists true. split; [|done]. destruct checked; [done|by destruct Hk].
Qed.

End Row.

(** The predicate of a GeoPackage layer, as a tree. *)
Definition gpkg_pred : predicate time_leaf :=
  if negb (beq (InstantField m) []) then
    let f := InstantField m in
    PParen (POr (invalid_pred f) (POr (PLeaf (TIsNull f)) (PParen (bounds_pred (fun _ p => p) c scale f f))))
  else
    let s := StartField m in let e := EndField m in
    PParen (POr (POr (invalid_pred s) (POr (invalid_pred e) (reversed_pred s e))) (PParen (bounds_pred or_null_pred c scale s e))).

Definition hana_pred : predicate time_leaf :=
  if negb (beq (InstantField m) []) then
    let f := InstantField m in PParen (POr (PLeaf (TIsNull f)) (PParen (bounds_pred (fun _ p => p) c scale f f)))
  else
    let s := StartField m in let e := EndField m in PParen (POr (reversed_pred s e) (PParen (bounds_pred or_null_pred c scale s e))).

Lemma or_null_print (const : bool -> gostring) (source : gostring -> gostring) (f : gostring) (p : predicate time_leaf) (j : nat) :
  let d := time_dialect const source in
  print d j (or_null_pred f p) = or_null (source f) (print d j p) /\ params d (or_null_pred f p) = params d p.
Proof using. cbn. rewrite Nat.add_0_r. unfold or_null. by rewrite <- !app_assoc. Qed.

(** Two texts over the same columns and comparisons. *)
Ltac compare_texts d f g :=
  fold d; cbn -[FilterGpkg.column_source hana_field bounds_pred app B print params];
  cbn [print params d d_leaf d_args time_dialect time_text time_args invalid_pred reversed_pred length connective];
  fold d; rewrite ?Nat.add_0_r; unfold not_integer, reversed_sql; generalize f, g; intros; apply (f_equal2 pair); [|by rewrite ?app_nil_l];
  match goal with |- context [print d ?k ?p] => generalize (print d k p) end; intros; cbn [Join]; rewrite <- ?app_assoc; cbn [app B]; done.

Lemma gpkg_print (args : list sql_arg) :
  let d := time_dialect gpkg_const FilterGpkg.column_source in
  gpkg_temporalPredicate m scale (Some c) args = (print d (length args) gpkg_pred, args ++ params d gpkg_pred).
Proof using Hc Hm.
  intros d. unfold gpkg_temporalPredicate, gpkg_pred. rewrite (cf_mapped _ _ Hm). destruct (negb (beq (InstantField m) [])).
  - pose proof (comparisons_print gpkg_const FilterGpkg.column_source c scale constraint_bounded bare (fun _ p => p) (InstantField m) (InstantField m) args (length args) ltac:(done)) as H.
    destruct (comparisons _ _ _ _ _ _ _) as [cs args']. destruct H as [-> ->]. by compare_texts d (FilterGpkg.column_source (InstantField m)) (FilterGpkg.column_source (InstantField m)).
  - pose proof (comparisons_print gpkg_const FilterGpkg.column_source c scale constraint_bounded or_null or_null_pred (StartField m) (EndField m) args (length args) (or_null_print _ _)) as H.
    destruct (comparisons _ _ _ _ _ _ _) as [cs args']. destruct H as [-> ->]. by compare_texts d (FilterGpkg.column_source (StartField m)) (FilterGpkg.column_source (EndField m)).
Qed.

Lemma hana_print (projections : list featureProjection) (args : list sql_arg) :
  let d := time_dialect hana_const (hana_field projections) in
  hana_temporalPredicate projections m scale (Some c) args = (print d (length args) hana_pred, args ++ params d hana_pred).
Proof using Hc Hm.
  intros d. unfold hana_temporalPredicate, hana_pred. rewrite (cf_mapped _ _ Hm). destruct (negb (beq (InstantField m) [])).
  - pose proof (comparisons_print hana_const (hana_field projections) c scale constraint_bounded bare (fun _ p => p) (InstantField m) (InstantField m) args (length args) ltac:(done)) as H.
    destruct (comparisons _ _ _ _ _ _ _) as [cs args']. destruct H as [-> ->]. by compare_texts d (hana_field projections (InstantField m)) (hana_field projections (InstantField m)).
  - pose proof (comparisons_print hana_const (hana_field projections) c scale constraint_bounded or_null or_null_pred (StartField m) (EndField m) args (length args) (or_null_print _ _)) as H.
    destruct (comparisons _ _ _ _ _ _ _) as [cs args']. destruct H as [-> ->]. by compare_texts d (hana_field projections (StartField m)) (hana_field projections (EndField m)).
Qed.

End Predicates.

(** ** The databases *)

(** SQLite: every cell has its own type. *)
Definition gpkg_cell (v : sval) : option (option Z) := match v with SNull => Some None | SInt z => Some (Some z) | _ => None end.

Definition gpkg_time_value (row : gostring -> sval) (l : time_leaf) : option bool :=
  match l with
  | TIsNull f => Some (match row f with SNull => true | _ => false end)
  | TNotNull f => Some (match row f with SNull => false | _ => true end)
  | TNotInteger f => Some (match row f with SInt _ => false | _ => true end)
  | TAtLeast f z => compare_sql FilterGreaterEqual (row f) (SInt z)
  | TAtMost f z => compare_sql FilterLessEqual (row f) (SInt z)
  | TAfter f g => match row g with SNull => None | w => compare_sql FilterGreater (row f) w end
  end.

Lemma compare_ints (op : FilterCompareOperator) (v z : Z) : compare_sql op (SInt v) (SInt z) = Some (holds op (v ?= z)).
Proof. cbn. unfold QArith_base.Qcompare. cbn. by rewrite !Z.mul_1_r. Qed.

Lemma gpkg_decides (row : gostring -> sval) :
  (forall f z, row f = SInt z -> minInt64 <= z <= maxInt64) -> decides (gpkg_time_value row) (gpkg_cell ∘ row).
Proof.
  intros Hr. assert (forall f v, gpkg_cell (row f) = Some (Some v) -> row f = SInt v) as Hc by (intros f v; destruct (row f); cbn; congruence).
  split; cbn [gpkg_time_value compose].
  - intros f. by destruct (row f).
  - intros f. by destruct (row f).
  - intros f. by destruct (row f).
  - intros f z v ->%Hc. rewrite compare_ints. f_equal. cbn. unfold Z.leb. by rewrite (Z.compare_antisym v z); destruct (v ?= z).
  - intros f z v ->%Hc. by rewrite compare_ints.
  - intros f g v w ->%Hc ->%Hc. rewrite compare_ints. f_equal. cbn. unfold Z.ltb. by rewrite (Z.compare_antisym v w); destruct (v ?= w).
  - intros f v Hf%Hc. by apply (Hr f).
Qed.

(** HANA: the registered columns hold integers, by their physical names. *)
Definition hana_time_value (projections : list featureProjection) (row : gostring -> option Z) (l : time_leaf) : option bool :=
  let cell f := row (physical projections f) in
  match l with
  | TIsNull f => Some (bool_decide (cell f = None))
  | TNotNull f => Some (negb (bool_decide (cell f = None)))
  | TNotInteger f => Some false
  | TAtLeast f z => v ← cell f; Some (z <=? v)
  | TAtMost f z => v ← cell f; Some (v <=? z)
  | TAfter f g => v ← cell f; w ← cell g; Some (w <? v)
  end.

Lemma hana_decides (projections : list featureProjection) (row : gostring -> option Z) :
  (forall f z, row f = Some z -> minInt64 <= z <= maxInt64) -> decides (hana_time_value projections row) (fun f => Some (row (physical projections f))).
Proof.
  intros Hr. split; cbn [hana_time_value]; intros f.
  - f_equal. apply bool_decide_ext. split; congruence.
  - do 2 f_equal. apply bool_decide_ext. split; congruence.
  - intros _. by rewrite bool_decide_eq_false_2.
  - by intros z v [= ->].
  - by intros z v [= ->].
  - by intros g v w [= ->] [= ->].
  - intros v [= Hf]. by apply (Hr _ _ Hf).
Qed.

Definition hana_cell (value : any) : option (option Z) := match value with AnyNil => Some None | value => Some <$> featureInteger value end.

Lemma temporal_value_cell (m : TemporalMapping) (values : gostring -> any) (output : gostring) (bounds : option Z * option Z) :
  output <> [] ->
  match hana_cell (values output) with
  | None => exists e, temporal_value m values output bounds = Err e
  | Some v => temporal_value m values output bounds =
      Ok (if bool_decide (v <> None) && beq output (StartField m) then v else fst bounds, if bool_decide (v <> None) && beq output (EndField m) then v else snd bounds)
  end.
Proof.
  intros Ho. unfold temporal_value. rewrite (proj2 (beq_false _ _) Ho). destruct (values output); cbn; try (by eexists); try done.
  by destruct bounds.
Qed.

(** The rows that a HANA provider rejects when it reads them are those without an interval. *)
Lemma validateTemporalValues_iff (m : TemporalMapping) (scale : Z) (values : gostring -> any) :
  configured m scale -> validateTemporalValues m values = Ok tt <-> is_Some (source_interval m (hana_cell ∘ values)).
Proof.
  intros Hm. unfold validateTemporalValues, source_interval. cbn [rfold].
  assert (forall b, temporal_value m values [] b = Ok b) as Hnil by done.
  destruct (mapping_cases m scale Hm) as [(Hi & Hs & He)|(Hi & Hs & He & Hse)].
  - rewrite (proj2 (beq_false _ _) Hi), Hs, He. cbn [negb compose]. pose proof (temporal_value_cell m values (InstantField m) (None, None) Hi) as H.
    destruct (hana_cell _) as [v|].
    + rewrite Hs, He, (proj2 (beq_false _ _) Hi), !andb_false_r in H. rewrite H. cbn [rbind fst snd]. rewrite !Hnil. cbn. by split; [eexists|].
    + destruct H as [e ->]. cbn. split; [done|by intros []].
  - rewrite Hi, beq_refl, Hnil. cbn [negb compose rbind]. pose proof (temporal_value_cell m values (StartField m) (None, None) Hs) as H.
    destruct (hana_cell (values (StartField m))) as [v|]; [|destruct H as [e ->]; cbn; split; [done|by intros []]].
    rewrite beq_refl, (proj2 (beq_false _ _) Hse), andb_true_r, andb_false_r in H. rewrite H. cbn [rbind fst snd mbind option_bind]. pose proof (temporal_value_cell m values (EndField m) (if bool_decide (v <> None) then v else None, None) He) as H'.
    destruct (hana_cell (values (EndField m))) as [w|]; [|destruct H' as [e ->]; cbn; split; [done|by intros []]].
    rewrite beq_refl, (proj2 (beq_false (EndField m) (StartField m))), andb_true_r, andb_false_r in H' by done. rewrite H'. cbn [rbind fst snd mbind option_bind].
    assert (forall x : option Z, (if bool_decide (x <> None) then x else None) = x) as Hx by (intros [x|]; [by rewrite bool_decide_eq_true_2|done]).
    rewrite !Hx. destruct (reversed v w); [split; [done|by intros []]|by split; [eexists|]].
Qed.

(** The cell of a column that was read from a GeoPackage. *)
Definition read_cell (v : sql_value) : option (option Z) := match v with SqlNull => Some None | SqlInt z => Some (Some z) | _ => None end.

Definition row_cell (cells : list (gostring * sql_value)) (f : gostring) : option (option Z) :=
  match List.find (fun cv => beq (fst cv) f) cells with Some cv => read_cell (snd cv) | None => Some None end.

Definition row_bound (cells : list (gostring * sql_value)) (f : gostring) (d : option Z) : option Z :=
  match row_cell cells f with Some (Some v) => Some v | _ => d end.

Lemma row_cell_absent (cells : list (gostring * sql_value)) (f : gostring) : f ∉ map fst cells -> row_cell cells f = Some None.
Proof.
  intros H. unfold row_cell. destruct (List.find _ cells) as [cv|] eqn:E; [|done]. apply List.find_some in E as [Hin Hb%beq_true].
  destruct H. rewrite <- Hb. apply list_elem_of_fmap_2. by apply list_elem_of_In.
Qed.

Lemma temporal_cells_read (m : TemporalMapping) (cells : list (gostring * sql_value)) (start last : option Z) :
  NoDup (map fst cells) -> [] ∉ map fst cells ->
  (forall f, f ∈ [InstantField m; StartField m; EndField m] -> row_cell cells f <> None) /\
    temporal_cells m cells start last = Ok (row_bound cells (StartField m) start, row_bound cells (EndField m) last)
  \/ (exists f, f ∈ [InstantField m; StartField m; EndField m] /\ f <> [] /\ row_cell cells f = None) /\ exists e, temporal_cells m cells start last = Err e.
Proof.
  revert start last. induction cells as [|[column value] cells IH]; intros start last Hn He; [by left|].
  cbn [map fst] in Hn, He. apply NoDup_cons in Hn as [Hc Hn]. assert ([] ∉ map fst cells) as He' by set_solver. assert (column <> []) as Hne by set_solver.
  pose proof (row_cell_absent cells column Hc) as Habs.
  assert (forall f, f <> column -> row_cell ((column, value) :: cells) f = row_cell cells f) as Hother
    by (intros f Hf; unfold row_cell; cbn [List.find fst]; by rewrite (proj2 (beq_false column f)) by congruence).
  assert (row_cell ((column, value) :: cells) column = read_cell value) as Hhere by (unfold row_cell; cbn [List.find fst]; by rewrite beq_refl).
  cbn [temporal_cells]. destruct (decide (column ∈ [InstantField m; StartField m; EndField m])) as [Hin|Hout].
  2:{ assert (forall f, f ∈ [InstantField m; StartField m; EndField m] -> row_cell ((column, value) :: cells) f = row_cell cells f) as Hsame by (intros f Hf; apply Hother; by intros ->).
      rewrite !elem_of_cons in Hout. rewrite !(proj2 (beq_false column _)) by tauto. cbn [negb andb]. unfold row_bound. rewrite !Hsame by set_solver.
      destruct (IH start last Hn He') as [[H1 H2]|[(f & H1 & H2 & H3) H4]]; [left; split; [|done]|right; split; [|done]].
      - intros f Hf. rewrite Hsame by done. by apply H1.
      - exists f. by rewrite Hsame. }
  assert (negb (beq column (InstantField m)) && negb (beq column (StartField m)) && negb (beq column (EndField m)) = false) as ->.
  { rewrite !elem_of_cons in Hin. destruct Hin as [->|[->|[->|[]%elem_of_nil]]]; rewrite beq_refl; cbn; by rewrite ?andb_false_r. }
  assert (forall v, value = v -> (v = SqlNull \/ exists z, v = SqlInt z) ->
    forall f d, row_bound ((column, value) :: cells) f d = row_bound cells f (if beq column f then match v with SqlInt z => Some z | _ => d end else d)) as Hbound.
  { intros v -> Hv f d. unfold row_bound. destruct (beq column f) eqn:E; [apply beq_true in E as <-|apply beq_false in E; rewrite Hother; congruence].
    rewrite Hhere, Habs. by destruct Hv as [->|[z ->]]. }
  destruct value; try (right; split; [by exists column|by eexists]).
  - rewrite !(Hbound SqlNull eq_refl (or_introl eq_refl)). replace (if beq column (StartField m) then start else start) with start by (by destruct (beq column _)).
    replace (if beq column (EndField m) then last else last) with last by (by destruct (beq column _)).
    destruct (IH start last Hn He') as [[H1 H2]|[(f & H1 & H2 & H3) H4]]; [left; split; [|done]|right; split; [|done]].
    + intros f Hf. destruct (decide (f = column)) as [->|]; [by rewrite Hhere|rewrite Hother by done; by apply H1].
    + exists f. rewrite Hother; [done|]. intros ->. congruence.
  - rewrite !(Hbound (SqlInt i) eq_refl (or_intror (ex_intro _ i eq_refl))).
    destruct (IH (if beq column (StartField m) then Some i else start) (if beq column (EndField m) then Some i else last) Hn He') as [[H1 H2]|[(f & H1 & H2 & H3) H4]];
      [left; split; [|done]|right; split; [|done]].
    + intros f Hf. destruct (decide (f = column)) as [->|]; [by rewrite Hhere|rewrite Hother by done; by apply H1].
    + exists f. rewrite Hother; [done|]. intros ->. congruence.
Qed.

(** The rows that a GeoPackage provider rejects when it reads them are those without an
    interval. *)
Lemma validateTemporalRow_iff (layer : Layer) (scale : Z) (columns : list gostring) (values : list sql_value) :
  configured (l_temporalMapping layer) scale -> NoDup columns -> [] ∉ columns -> length columns = length values ->
  validateTemporalRow layer columns values = Ok tt <-> is_Some (source_interval (l_temporalMapping layer) (row_cell (combine columns values))).
Proof.
  set (m := l_temporalMapping layer). set (cells := combine columns values). intros Hm Hn He Hl. unfold validateTemporalRow. fold m cells.
  assert (map fst cells = columns) as Ec. { unfold cells. clear -Hl. revert values Hl. induction columns as [|c cs IH]; intros [|v vs] Hl; cbn in *; try done. f_equal. apply IH. lia. }
  pose proof (cf_mapped _ _ Hm) as Hmap. unfold no_mapping in Hmap. rewrite Hmap. rewrite <- Ec in Hn, He.
  assert (row_cell cells [] = Some None) as Hnil by (by apply row_cell_absent).
  unfold source_interval. destruct (temporal_cells_read m cells None None Hn He) as [[H1 ->]|[(f & H1 & H2 & H3) [e ->]]]; cbn [rbind].
  - destruct (mapping_cases m scale Hm) as [(Hi & Hs & He')|(Hi & Hs & He' & _)].
    + rewrite (proj2 (beq_false _ _) Hi), Hs, He'. unfold row_bound. rewrite Hnil. cbn [negb].
      destruct (row_cell cells (InstantField m)) eqn:E; [by split; [eexists|]|]. by destruct (H1 (InstantField m) ltac:(left)).
    + rewrite Hi, beq_refl. cbn [negb]. unfold row_bound.
      destruct (row_cell cells (StartField m)) as [s|] eqn:Es; [|by destruct (H1 (StartField m) ltac:(set_solver))].
      destruct (row_cell cells (EndField m)) as [t|] eqn:Et; [|by destruct (H1 (EndField m) ltac:(set_solver))]. cbn [mbind option_bind].
      destruct s as [s|], t as [t|]; cbn [reversed]; try (by split; [eexists|]). destruct (t <? s); [split; [done|by intros []]|by split; [eexists|]].
  - split; [done|]. intros Hs. exfalso. destruct (mapping_cases m scale Hm) as [(Hi & Hs' & He')|(Hi & Hs' & He' & _)].
    + rewrite (proj2 (beq_false _ _) Hi) in Hs. cbn [negb] in Hs. rewrite Hs', He', !elem_of_cons in H1.
      destruct H1 as [->|[->|[->|[]%elem_of_nil]]]; [|done..]. rewrite H3 in Hs. by destruct Hs.
    + rewrite Hi, beq_refl in Hs. cbn [negb] in Hs. rewrite Hi, !elem_of_cons in H1.
      destruct H1 as [->|[->|[->|[]%elem_of_nil]]]; [done|rewrite H3 in Hs; by destruct Hs|]. rewrite H3 in Hs. destruct (row_cell cells (StartField m)); by destruct Hs.
Qed.

Lemma or3_assoc (a b c : option bool) : or3 a (or3 b c) = or3 (or3 a b) c.
Proof. by destruct a as [[]|], b as [[]|], c as [[]|]. Qed.

Lemma or3_false (a : option bool) : or3 (Some false) a = a.
Proof. by destruct a as [[]|]. Qed.

(** C23. The tests of rows of the PostGIS and MySQL providers are exact.  For a validated
    constraint, with digits of any precision and inserted seconds, and a mapping and
    storage unit that registration accepted, a row whose mapped cells are not integers
    or are reversed is an error; any other row is accepted exactly when some position of
    the exact time line lies in its interval, whose missing ends are open, and in the
    constraint. *)
Theorem temporal_rows_exact (n : nat) (m : TemporalMapping) (scale : Z) (c : TemporalConstraint) (values : gostring -> any) :
  constraint_ok n c -> configured m scale ->
  answers n scale c (source_interval m (pg_cell ∘ values)) (matchesFeatureTemporal m scale values (Some c))
  /\ (values [] = AnyNil -> answers n scale c (source_interval m (mysql_cell ∘ values)) (temporalMatches m scale values (Some c))).
Proof. intros Hc Hm. split; [by apply postgis_answers|by apply mysql_answers]. Qed.

(** The second inserted at the end of 2016, from its middle to the end of the hour. *)
Definition leap_query : TemporalConstraint :=
  mkTemporal (Some (mkTime 2016 12 31 23 59 59 500000000)) (Some (mkTime 2017 1 1 0 59 59 999999999)) (B "25") [] true false.

Lemma leap_query_ok : constraint_ok 2 leap_query.
Proof. split; [by vm_compute|cbn; lia..|]. intros u [[= <-]|[= <-]]; cbn; lia. Qed.

Definition instant_mapping : TemporalMapping := mkMapping (B "t") [] [].

Lemma instant_configured : configured instant_mapping 1000.
Proof. split; [by vm_compute..|]. unfold storage_scale. lia. Qed.

Lemma temporal_rows_exact_witness :
  let row v (f : gostring) := if beq f (B "t") then AnyInt64 v else AnyNil in
  (exists b, matchesFeatureTemporal instant_mapping 1000 (row 1483228800000) (Some leap_query) = Ok b /\ (b = true <-> overlaps 2 1000 leap_query (Some 1483228800000, Some 1483228800000)))
  /\ matchesFeatureTemporal instant_mapping 1000 (row 1483228800000) (Some leap_query) = Ok true
  /\ matchesFeatureTemporal instant_mapping 1000 (row 1483228799999) (Some leap_query) = Ok false.
Proof.
  intros row. split; [|by vm_compute].
  exact (proj1 (temporal_rows_exact 2 instant_mapping 1000 leap_query (row 1483228800000) leap_query_ok instant_configured)).
Defined.


