(* ===== verification/Datetime.v ===== *)
(** * server/handle_features_items: datetime parameters

    Timestamps and intervals of the datetime parameter (parseFeatureTimestamp and
    parseFeatureDatetime).  Exactly the RFC 3339 texts and their intervals are accepted,
    and the constraint has the exact positions that they name: offsets, fractions of any
    length and inserted seconds included. *)

From S2P Require Import Prelude GoText Temporal Filter Schema TemporalMatch.

#[local] Open Scope Z_scope.

(** ** Civil days *)

Definition next_day (t : Time) : Time :=
  let '(y, m, d) :=
    if t_day t <? daysIn (t_month t) (t_year t) then (t_year t, t_month t, t_day t + 1)
    else if t_month t <? 12 then (t_year t, t_month t + 1, 1)
    else (t_year t + 1, 1, 1) in
  mkTime y m d (t_hour t) (t_min t) (t_sec t) (t_nsec t).

Definition prev_day (t : Time) : Time :=
  let '(y, m, d) :=
    if 1 <? t_day t then (t_year t, t_month t, t_day t - 1)
    else if 1 <? t_month t then (t_year t, t_month t - 1, daysIn (t_month t - 1) (t_year t))
    else (t_year t - 1, 12, 31) in
  mkTime y m d (t_hour t) (t_min t) (t_sec t) (t_nsec t).

(** The UTC time of a local time with an offset of less than a day, in minutes. *)
Definition utc_of (t : Time) (offset : Z) : Time :=
  let minutes := t_hour t * 60 + t_min t - offset in
  let day := if minutes <? 0 then prev_day t else if 1440 <=? minutes then next_day t else t in
  mkTime (t_year day) (t_month day) (t_day day) (minutes mod 1440 / 60) (minutes mod 60) (t_sec t) (t_nsec t).

(** ** Timestamps *)

Definition zone_syntax (s : gostring) : bool :=
  match s with
  | [c] => Ascii.eqb c "Z" || Ascii.eqb c "z"
  | [sg; h1; h2; c; m1; m2] =>
      (Ascii.eqb sg "+" || Ascii.eqb sg "-") && is_digit h1 && is_digit h2 && Ascii.eqb c ":" && is_digit m1 && is_digit m2
  | _ => false
  end.

(** What follows the seconds: a fraction and a zone. *)
Definition rest_syntax (r : gostring) : bool :=
  match r with
  | c :: r => if Ascii.eqb c "." then let '(f, r') := digit_run r in negb (beq f []) && zone_syntax r' else zone_syntax (c :: r)
  | [] => false
  end.

Definition featureTimestampSyntax (s : gostring) : bool :=
  let digits_at i n := forallb is_digit (slice s i (i + n)) in
  (20 <=? length s)%nat
  && digits_at 0%nat 4%nat && byte_at s 4 "-" && digits_at 5%nat 2%nat && byte_at s 7 "-"
  && digits_at 8%nat 2%nat && (byte_at s 10 "T" || byte_at s 10 "t")
  && digits_at 11%nat 2%nat && byte_at s 13 ":"
  && digits_at 14%nat 2%nat && byte_at s 16 ":" && digits_at 17%nat 2%nat
  && rest_syntax (drop 19 s).

(** [time.Parse(time.RFC3339Nano, s)] on a text of this syntax with at most nine
    fraction digits, in UTC. *)
Definition parse_time (s : gostring) : option Time :=
  match parse_date (take 10 s), parse_fixed s 11 2, parse_fixed s 14 2, parse_fixed s 17 2 with
  | Some d, Some h, Some mi, Some sec =>
      let '(f, zone) := match drop 19 s with c :: r => if Ascii.eqb c "." then digit_run r else ([], c :: r) | [] => ([], []) end in
      match parse_digits (f ++ repeat "0"%char (9 - length f)) 0, zone_offset zone with
      | Some ns, Some offset =>
          if (h <=? 23) && (mi <=? 59) && (sec <=? 59)
          then Some (utc_of (mkTime (t_year d) (t_month d) (t_day d) h mi sec ns) offset) else None
      | _, _ => None
      end
  | _, _, _, _ => None
  end.

(** [strings.TrimRight(s, "0")] *)
Fixpoint trim_zeros (s : gostring) : gostring :=
  match s with
  | [] => []
  | c :: s => match trim_zeros s with [] => if Ascii.eqb c "0" then [] else [c] | r => c :: r end
  end.

Definition string_gt (a b : gostring) : bool := match Compare a b with Gt => true | _ => false end.

Definition parseFeatureTimestamp (raw : gostring) : option (Time * gostring * bool) :=
  if negb (featureTimestampSyntax raw) then None
  else
    let n := length raw in
    let final := default "0"%char (last raw) in
    let zone := drop (n - 6) raw in
    if negb (Ascii.eqb final "Z") && negb (Ascii.eqb final "z") && (string_gt (slice zone 1 3) (B "23") || string_gt (slice zone 4 6) (B "59")) then None
    else
      let normalized := take 10 raw ++ B "T" ++ drop 11 raw in
      let normalized := if bool_decide (last normalized = Some "z"%char) then take (length normalized - 1) normalized ++ B "Z" else normalized in
      let leap := beq (slice normalized 17 19) (B "60") in
      let normalized := if leap then take 17 normalized ++ B "59" ++ drop 19 normalized else normalized in
      let '(tail, normalized) :=
        if byte_at normalized 19 "." then
          let stop := (20 + length (fst (digit_run (drop 20 normalized))))%nat in
          if (9 <? stop - 20)%nat then (trim_zeros (slice normalized 29 stop), take 29 normalized ++ drop stop normalized) else ([], normalized)
        else ([], normalized) in
      match parse_time normalized with
      | None => None
      | Some parsed => if leap && negb (IsPositiveLeapSecondPredecessor parsed) then None else Some (parsed, tail, leap)
      end.

(** ** Intervals *)

(** The end of an interval: nothing for an open one. *)
Definition parse_end (part : gostring) : option (option (Time * gostring * bool)) :=
  if beq part [] || beq part (B "..") then Some None
  else match parseFeatureTimestamp part with Some t => Some (Some t) | None => None end.

Definition end_time (e : option (Time * gostring * bool)) : option Time := (fun e => fst (fst e)) <$> e.
Definition end_sub (e : option (Time * gostring * bool)) : gostring := match e with Some (_, sub, _) => sub | None => [] end.
Definition end_leap (e : option (Time * gostring * bool)) : bool := match e with Some (_, _, leap) => leap | None => false end.

Definition interval_of (s e : option (Time * gostring * bool)) : TemporalConstraint :=
  mkTemporal (end_time s) (end_time e) (end_sub s) (end_sub e) (end_leap s) (end_leap e).

Definition parseFeatureDatetime (raw : gostring) : option TemporalConstraint :=
  c ← match SplitByte "/" raw with
      | [part] => t ← parseFeatureTimestamp part; Some (interval_of (Some t) (Some t))
      | [first; second] => s ← parse_end first; e ← parse_end second; Some (interval_of s e)
      | _ => None
      end;
  match TemporalConstraint_Validate c with Ok _ => Some c | Err _ => None end.

Example datetime_leap :
  option_map (fun c => (tc_start c, tc_end c, tc_start_sub c, tc_start_leap c)) (parseFeatureDatetime (B "2017-01-01t00:59:60.12345678909+01:00/.."))
  = Some (Some (mkTime 2016 12 31 23 59 59 123456789), None, B "09", true).
Proof. by vm_compute. Qed.

(** ** The texts *)

Definition num (s : gostring) : Z := default 0 (parse_digits s 0).

(** The parts of a timestamp, by their digits; the fraction is empty when there is none. *)
Record stamp := mkStamp {
  st_year : gostring; st_month : gostring; st_day : gostring; st_t : ascii;
  st_hour : gostring; st_min : gostring; st_sec : gostring; st_frac : gostring; st_zone : gostring
}.

Definition frac_text (f : gostring) : gostring := match f with [] => [] | _ => "."%char :: f end.

Definition stamp_text (s : stamp) : gostring :=
  st_year s ++ B "-" ++ st_month s ++ B "-" ++ st_day s ++ [st_t s] ++ st_hour s ++ B ":" ++ st_min s ++ B ":" ++ st_sec s ++ frac_text (st_frac s) ++ st_zone s.

Definition digits_of (n : nat) (s : gostring) : Prop := length s = n /\ digits s.

Record stamp_shape (s : stamp) : Prop := {
  sh_year : digits_of 4 (st_year s); sh_month : digits_of 2 (st_month s); sh_day : digits_of 2 (st_day s);
  sh_t : st_t s = "T"%char \/ st_t s = "t"%char;
  sh_hour : digits_of 2 (st_hour s); sh_min : digits_of 2 (st_min s); sh_sec : digits_of 2 (st_sec s);
  sh_frac : digits (st_frac s); sh_zone : zone_syntax (st_zone s) = true
}.

Definition leap_stamp (s : stamp) : bool := num (st_sec s) =? 60.

(** The civil time of the text, with the second before an inserted one, and its UTC time. *)
Definition local_time (s : stamp) : Time :=
  mkTime (num (st_year s)) (num (st_month s)) (num (st_day s)) (num (st_hour s)) (num (st_min s))
    (if leap_stamp s then 59 else num (st_sec s)) (fraction_value 9 (st_frac s)).

Definition stamp_time (s : stamp) : Time := utc_of (local_time s) (default 0 (zone_offset (st_zone s))).

(** A timestamp of RFC 3339 that names a time: a day of the calendar, a time of day, an
    offset of less than a day, and second 60 only where one was inserted. *)
Record valid_stamp (s : stamp) : Prop := {
  va_shape : stamp_shape s;
  va_month : 1 <= num (st_month s) <= 12;
  va_day : 1 <= num (st_day s) <= daysIn (num (st_month s)) (num (st_year s));
  va_hour : num (st_hour s) <= 23;
  va_min : num (st_min s) <= 59;
  va_sec : num (st_sec s) <= 60;
  va_zone : is_Some (zone_offset (st_zone s));
  va_leap : leap_stamp s = true -> IsPositiveLeapSecondPredecessor (stamp_time s) = true
}.

Lemma digit_run_split (s f r : gostring) : digit_run s = (f, r) -> s = f ++ r /\ digits f.
Proof.
  revert f r. induction s as [|c s IH]; intros f r; cbn; [by intros [= <- <-]|].
  destruct (is_digit c) eqn:Ec; [|by intros [= <- <-]]. destruct (digit_run s) as [d r']. intros [= <- <-].
  destruct (IH d r' eq_refl) as [-> Hd]. split; [done|]. unfold digits. cbn. by rewrite Ec.
Qed.

Lemma digit_run_digits_app (f r : gostring) : digits f -> (forall c, head r = Some c -> is_digit c = false) -> digit_run (f ++ r) = (f, r).
Proof.
  intros Hf Hr. induction f as [|c f IH]; cbn.
  - destruct r as [|c r]; [done|]. cbn. by rewrite (Hr c eq_refl).
  - unfold digits in Hf. cbn in Hf. apply andb_true_iff in Hf as [-> Hf]. by rewrite IH.
Qed.

Lemma zone_head (z : gostring) (c : ascii) : zone_syntax z = true -> head z = Some c -> is_digit c = false /\ Ascii.eqb c "." = false.
Proof.
  destruct z as [|a [|b [|d [|e [|f [|g [|]]]]]]]; cbn; try done; intros H [= <-].
  - by apply orb_true_iff in H as [->%Ascii.eqb_eq| ->%Ascii.eqb_eq].
  - apply andb_true_iff in H as [H _]. do 4 apply andb_true_iff in H as [H _]. by apply orb_true_iff in H as [->%Ascii.eqb_eq| ->%Ascii.eqb_eq].
Qed.

Lemma byte_at_here (s : gostring) (i : nat) (c : ascii) : byte_at s i c = true <-> s !! i = Some c.
Proof. unfold byte_at. by rewrite bool_decide_eq_true. Qed.

Lemma digits_list (n : nat) (s : gostring) : length s = n -> forallb is_digit s = true -> digits_of n s.
Proof. by split. Qed.

Lemma rest_syntax_shape (r : gostring) : rest_syntax r = true <-> exists f z, digits f /\ zone_syntax z = true /\ r = frac_text f ++ z.
Proof.
  split.
  - destruct r as [|c r]; [done|]. cbn [rest_syntax]. destruct (Ascii.eqb c ".") eqn:Ec; [|intros Hz; by exists [], (c :: r)].
    apply Ascii.eqb_eq in Ec as ->. destruct (digit_run r) as [f z] eqn:Er. intros [Hf Hz]%andb_true_iff. apply digit_run_split in Er as [-> Hd].
    exists f, z. destruct f; [done|]. done.
  - intros (f & z & Hf & Hz & ->). destruct f as [|c f]; cbn [frac_text app].
    + destruct z as [|c z]; [done|]. cbn [rest_syntax]. by rewrite (proj2 (zone_head _ c Hz eq_refl)).
    + cbn [rest_syntax]. rewrite Ascii.eqb_refl, app_comm_cons, (digit_run_digits_app (c :: f) z Hf); [done|]. intros d Hd. by apply (zone_head z d Hz).
Qed.

(** The texts of the syntax are those of the shape. *)
Lemma featureTimestampSyntax_shape (raw : gostring) : featureTimestampSyntax raw = true <-> exists s, stamp_shape s /\ raw = stamp_text s.
Proof.
  split.
  - unfold featureTimestampSyntax.
    rewrite !andb_true_iff, orb_true_iff, !byte_at_here. intros [[[[[[[[[[[[Hl H0] H4] H5] H7] H8] H10] H11] H13] H14] H16] H17] Hr].
    apply Nat.leb_le in Hl. apply rest_syntax_shape in Hr as (f & z & Hf & Hz & Er).
    do 19 (destruct raw as [|? raw]; [cbn in Hl; lia|]). cbn in Er. rewrite ?drop_0 in Er. subst raw. cbn in H0, H4, H5, H7, H8, H10, H11, H13, H14, H16, H17.
    injection H4 as ->. injection H7 as ->. injection H13 as ->. injection H16 as ->.
    exists (mkStamp [a; a0; a1; a2] [a4; a5] [a7; a8] a9 [a10; a11] [a13; a14] [a16; a17] f z). split; [|done].
    split; try done; try (by apply digits_list). cbn. destruct H10 as [[= ->]|[= ->]]; auto.
  - intros ([y mo d t h mi s f z] & [[Ly Hy] [Lm Hm] [Ld Hd] Ht [Lh Hh] [Li Hi] [Ls Hs] Hf Hz] & ->). cbn in *.
    destruct y as [|y1 [|y2 [|y3 [|y4 [|]]]]]; try done. destruct mo as [|m1 [|m2 [|]]]; try done. destruct d as [|d1 [|d2 [|]]]; try done.
    destruct h as [|h1 [|h2 [|]]]; try done. destruct mi as [|i1 [|i2 [|]]]; try done. destruct s as [|s1 [|s2 [|]]]; try done.
    unfold featureTimestampSyntax.
    rewrite !andb_true_iff, orb_true_iff, !byte_at_here. split_and!; try done.
    + apply Nat.leb_le. destruct z; [done|]. cbn. rewrite length_app. cbn. lia.
    + destruct Ht as [->| ->]; [by left|by right].
    + apply rest_syntax_shape. by exists f, z.
Qed.

(** *** Zones *)

Lemma string_gt_2 (a b c d : ascii) : string_gt [a; b] [c; d] = (code c <? code a) || ((code a =? code c) && (code d <? code b)).
Proof.
  unfold string_gt. cbn [Compare]. destruct (Z.compare_spec (code a) (code c)) as [E|E|E].
  - rewrite E, Z.ltb_irrefl, Z.eqb_refl. cbn. unfold Z.ltb. rewrite (Z.compare_antisym (code b) (code d)). by destruct (code b ?= code d).
  - decide_ltb. by rewrite (proj2 (Z.eqb_neq _ _)) by lia.
  - by decide_ltb.
Qed.

Definition zone_check (z : gostring) : bool :=
  let final := default "0"%char (last z) in
  negb (Ascii.eqb final "Z") && negb (Ascii.eqb final "z") && (string_gt (slice z 1 3) (B "23") || string_gt (slice z 4 6) (B "59")).

Lemma zone_check_offset (z : gostring) : zone_syntax z = true -> zone_check z = negb (bool_decide (is_Some (zone_offset z))).
Proof.
  destruct z as [|a [|b [|d [|e [|f [|g [|]]]]]]]; cbn [zone_syntax]; try done.
  - unfold zone_check. cbn. intros [->%Ascii.eqb_eq| ->%Ascii.eqb_eq]%orb_true_iff; by vm_compute.
  - rewrite !andb_true_iff. intros [[[[[Ha Hb] Hd] He] Hf] Hg]. unfold zone_check. cbn [last default slice drop take]. unfold slice. cbn [drop take Nat.sub].
    change (B "23") with ["2"; "3"]%char. change (B "59") with ["5"; "9"]%char. cbn [zone_offset]. rewrite Ha, He.
    unfold is_digit in *. apply in_range_iff in Hb, Hd, Hf, Hg. rewrite !string_gt_2.
    unfold id. assert (Ascii.eqb g "Z" = false /\ Ascii.eqb g "z" = false) as [-> ->] by (split; apply Ascii.eqb_neq; intros ->; change (code "Z") with 90 in Hg; change (code "z") with 122 in Hg; lia).
    assert (forall (c : bool) (x : Z), bool_decide (is_Some (if c then Some x else None)) = c) as -> by (intros [] x; by vm_compute).
    assert (forall c k, Ascii.eqb c k = (code c =? code k)) as Heq.
    { intros c k. apply eq_iff_eq_true. rewrite Ascii.eqb_eq, Z.eqb_eq. split; [by intros ->|apply code_inj]. }
    rewrite !Heq. unfold in_range. change (code "2") with 50. change (code "3") with 51. change (code "5") with 53. change (code "9") with 57.
    change (code "0") with 48. change (code "1") with 49. cbn [andb negb]. rewrite andb_true_r.
    apply eq_iff_eq_true. rewrite negb_true_iff, <- not_true_iff_false. rewrite ?orb_true_iff, ?andb_true_iff, ?orb_true_iff, ?andb_true_iff, ?Z.ltb_lt, ?Z.leb_le, ?Z.eqb_eq. lia.
Qed.

(** *** The steps of the parser *)

Definition upper_zone (z : gostring) : gostring := if beq z (B "z") then B "Z" else z.

Lemma zone_nonempty (z : gostring) : zone_syntax z = true -> z <> [].
Proof. by destruct z. Qed.

Lemma last_app_zone (p z : gostring) : z <> [] -> last (p ++ z) = last z.
Proof. intros Hz. rewrite last_app. destruct (last z) eqn:E; [done|]. by apply last_None in E. Qed.

(** The check of the offset looks at the zone alone. *)
Lemma zone_checked (p z : gostring) :
  zone_syntax z = true ->
  let raw := p ++ z in
  let final := default "0"%char (last raw) in
  negb (Ascii.eqb final "Z") && negb (Ascii.eqb final "z")
  && (string_gt (slice (drop (length raw - 6) raw) 1 3) (B "23") || string_gt (slice (drop (length raw - 6) raw) 4 6) (B "59")) = zone_check z.
Proof.
  intros Hz raw final. unfold final, raw, zone_check. rewrite (last_app_zone p z (zone_nonempty z Hz)).
  destruct (negb (Ascii.eqb (default "0"%char (last z)) "Z") && negb (Ascii.eqb (default "0"%char (last z)) "z")) eqn:E; [|done].
  assert (length z = 6%nat) as Hl.
  { destruct z as [|a [|b [|d [|e [|f [|g [|]]]]]]]; try done. cbn in Hz, E. apply orb_true_iff in Hz. unfold id in E. destruct Hz as [Hz|Hz]; rewrite Hz in E; cbn in E; [done|by rewrite andb_false_r in E]. }
  rewrite length_app, Hl. replace (length p + 6 - 6)%nat with (length p) by lia. by rewrite drop_app_length.
Qed.

Lemma upper_zoned (p z : gostring) :
  zone_syntax z = true ->
  (if bool_decide (last (p ++ z) = Some "z"%char) then take (length (p ++ z) - 1) (p ++ z) ++ B "Z" else p ++ z) = p ++ upper_zone z.
Proof.
  intros Hz. rewrite (last_app_zone p z (zone_nonempty z Hz)). unfold upper_zone. destruct (beq z (B "z")) eqn:E.
  - apply beq_true in E as ->. cbn. rewrite bool_decide_eq_true_2 by done. rewrite length_app. cbn. replace (length p + 1 - 1)%nat with (length p) by lia. by rewrite take_app_length.
  - rewrite bool_decide_eq_false_2; [done|]. intros Hl. apply beq_false in E. destruct z as [|a [|b [|d [|e [|f [|g [|]]]]]]]; try done; cbn in Hl; injection Hl as ->; [done|].
    cbn in Hz. by rewrite andb_false_r in Hz.
Qed.

(** The fraction is cut after nine digits. *)
Lemma fraction_cut (p f z : gostring) :
  length p = 19%nat -> digits f -> zone_syntax z = true ->
  let s := p ++ frac_text f ++ z in
  (if byte_at s 19 "." then
     let stop := (20 + length (fst (digit_run (drop 20 s))))%nat in
     if (9 <? stop - 20)%nat then (trim_zeros (slice s 29 stop), take 29 s ++ drop stop s) else ([], s)
   else ([], s)) = (trim_zeros (drop 9 f), p ++ frac_text (take 9 f) ++ z).
Proof.
  intros Hp Hf Hz s. unfold s, byte_at. rewrite lookup_app_r by lia. rewrite Hp. cbn [Nat.sub].
  destruct f as [|c f]; cbn [frac_text app].
  - destruct z as [|c z]; [done|]. cbn [lookup list_lookup]. rewrite bool_decide_eq_false_2; [done|].
    intros [= ->]. by destruct (zone_head _ "."%char Hz eq_refl).
  - cbn [lookup list_lookup]. rewrite bool_decide_eq_true_2 by done.
    assert (drop 20 (p ++ "."%char :: c :: f ++ z) = (c :: f) ++ z) as ->.
    { rewrite drop_app_ge by lia. rewrite Hp. done. }
    rewrite (digit_run_digits_app (c :: f) z Hf) by (intros d Hd; by apply (zone_head z d Hz)). cbn [fst].
    set (g := c :: f) in *. replace (20 + length g - 20)%nat with (length g) by lia. change ("."%char :: c :: f ++ z) with ("."%char :: g ++ z).
    destruct (Nat.ltb_spec 9 (length g)) as [Hg|Hg].
    + f_equal.
      * f_equal. unfold slice. rewrite drop_app_ge by lia. rewrite Hp. cbn [Nat.sub skipn]. rewrite drop_app_le by lia.
        rewrite take_app_le by (rewrite length_drop; lia). rewrite take_ge; [done|]. rewrite length_drop. lia.
      * rewrite take_app_ge by lia. rewrite Hp. cbn [Nat.sub firstn]. rewrite take_app_le by lia. rewrite (drop_app_ge p) by lia. rewrite Hp.
        replace (20 + length g - 19)%nat with (S (length g)) by lia. cbn [skipn]. rewrite drop_app_length. rewrite <- app_assoc. by destruct (take 9 g) eqn:E; [by apply (f_equal length) in E; rewrite length_take in E; cbn in E; lia|].
    + by rewrite drop_ge, take_ge by lia.
Qed.

(** The text that is handed to [time.Parse]. *)
Definition normal (s : stamp) : stamp :=
  mkStamp (st_year s) (st_month s) (st_day s) "T" (st_hour s) (st_min s) (if beq (st_sec s) (B "60") then B "59" else st_sec s)
    (take 9 (st_frac s)) (upper_zone (st_zone s)).

Definition stamp_head (s : stamp) : gostring :=
  st_year s ++ B "-" ++ st_month s ++ B "-" ++ st_day s ++ [st_t s] ++ st_hour s ++ B ":" ++ st_min s ++ B ":" ++ st_sec s.

Lemma stamp_text_head (s : stamp) : stamp_text s = stamp_head s ++ frac_text (st_frac s) ++ st_zone s.
Proof. unfold stamp_text, stamp_head. by rewrite <- !app_assoc. Qed.

Ltac digit_chars :=
  repeat match goal with
  | H : digits_of 4 ?s |- _ => let H1 := fresh in destruct H as [H1 H]; destruct s as [|? [|? [|? [|? [|]]]]]; try discriminate H1; clear H1
  | H : digits_of 2 ?s |- _ => let H1 := fresh in destruct H as [H1 H]; destruct s as [|? [|? [|]]]; try discriminate H1; clear H1
  end.

Lemma stamp_head_length (s : stamp) : stamp_shape s -> length (stamp_head s) = 19%nat.
Proof. destruct s. intros [Hy Hm Hd Ht Hh Hi Hs Hf Hz]. cbn in *. by digit_chars. Qed.

Lemma digits_take (n : nat) (f : gostring) : digits f -> digits (take n f).
Proof.
  unfold digits. rewrite !forallb_forall. intros H x Hx. apply H. rewrite <- (take_drop n f). apply in_or_app. by left.
Qed.

Lemma normal_shape (s : stamp) : stamp_shape s -> stamp_shape (normal s).
Proof.
  intros [Hy Hm Hd Ht Hh Hi Hs Hf Hz]. split; cbn [normal st_year st_month st_day st_t st_hour st_min st_sec st_frac st_zone]; try done.
  - by left.
  - by destruct (beq _ _).
  - by apply digits_take.
  - unfold upper_zone. by destruct (beq _ _).
Qed.

Lemma parse_text (s : stamp) :
  stamp_shape s ->
  parseFeatureTimestamp (stamp_text s)
  = if zone_check (st_zone s) then None
    else match parse_time (stamp_text (normal s)) with
         | None => None
         | Some parsed =>
             if beq (st_sec s) (B "60") && negb (IsPositiveLeapSecondPredecessor parsed) then None
             else Some (parsed, trim_zeros (drop 9 (st_frac s)), beq (st_sec s) (B "60"))
         end.
Proof.
  intros Hs. pose proof (stamp_head_length s Hs) as Hl. unfold parseFeatureTimestamp. rewrite (proj2 (featureTimestampSyntax_shape _)) by (by exists s).
  cbn [negb]. rewrite stamp_text_head. pose proof (sh_zone _ Hs) as Hz. pose proof (sh_frac _ Hs) as Hf.
  rewrite app_assoc, (zone_checked _ _ Hz), <- app_assoc. destruct (zone_check (st_zone s)); [done|].
  set (head' := stamp_head (mkStamp (st_year s) (st_month s) (st_day s) "T" (st_hour s) (st_min s) (st_sec s) [] [])).
  assert (take 10 (stamp_head s ++ frac_text (st_frac s) ++ st_zone s) ++ B "T" ++ drop 11 (stamp_head s ++ frac_text (st_frac s) ++ st_zone s)
          = (head' ++ frac_text (st_frac s)) ++ st_zone s) as ->.
  { rewrite <- app_assoc. unfold head'. destruct s. destruct Hs as [Hy Hm Hd Ht Hh Hi Hs Hf' Hz']. cbn in *. by digit_chars. }
  rewrite (upper_zoned _ _ Hz), <- app_assoc.
  assert (slice (head' ++ frac_text (st_frac s) ++ upper_zone (st_zone s)) 17 19 = st_sec s) as ->.
  { unfold head'. destruct s. destruct Hs as [Hy Hm Hd Ht Hh Hi Hs Hf' Hz']. cbn in *. by digit_chars. }
  assert ((if beq (st_sec s) (B "60") then take 17 (head' ++ frac_text (st_frac s) ++ upper_zone (st_zone s)) ++ B "59" ++ drop 19 (head' ++ frac_text (st_frac s) ++ upper_zone (st_zone s))
           else head' ++ frac_text (st_frac s) ++ upper_zone (st_zone s)) = stamp_head (normal s) ++ frac_text (st_frac s) ++ upper_zone (st_zone s)) as ->.
  { unfold head', normal. destruct s. destruct Hs as [Hy Hm Hd Ht Hh Hi Hs Hf' Hz']. cbn in *. digit_chars. by match goal with |- context [beq ?x ?y] => destruct (beq x y) end. }
  rewrite fraction_cut; [by rewrite stamp_text_head|by apply stamp_head_length, normal_shape|done|by apply (sh_zone _ (normal_shape s Hs))].
Qed.

(** *** Reading the digits *)

Lemma parse_padded (n : nat) (f : gostring) (a : Z) :
  digits f -> (length f <= n)%nat -> parse_digits (f ++ repeat "0"%char (n - length f)) a = Some (a * 10 ^ Z.of_nat n + fraction_value n f).
Proof.
  revert f a. induction n as [|n IH]; intros f a Hd Hl.
  - destruct f; [|cbn in Hl; lia]. cbn. f_equal. lia.
  - cbn [fraction_value]. rewrite Nat2Z.inj_succ, Z.pow_succ_r by lia. destruct f as [|c f].
    + cbn [length Nat.sub app repeat parse_digits]. change (is_digit "0") with true. cbn iota. specialize (IH [] (a * 10 + (code "0" - 48)) Hd ltac:(cbn; lia)).
      cbn [length app] in IH. rewrite Nat.sub_0_r in IH. rewrite IH. cbn [head default tail]. f_equal. change (code "0") with 48. unfold id. lia.
    + cbn [length Nat.sub app parse_digits head default tail]. unfold digits in Hd. cbn in Hd. apply andb_true_iff in Hd as [-> Hd].
      rewrite (IH f) by (cbn in Hl; lia || done). f_equal. unfold id. lia.
Qed.

Lemma parse_digits_num (s : gostring) : digits s -> parse_digits s 0 = Some (num s).
Proof.
  intros Hd. pose proof (parse_padded (length s) s 0 Hd ltac:(lia)) as H. rewrite Nat.sub_diag in H. cbn [repeat] in H. rewrite app_nil_r in H.
  unfold num. by rewrite H.
Qed.

Lemma num_range (n : nat) (s : gostring) : digits_of n s -> 0 <= num s < 10 ^ Z.of_nat n.
Proof.
  intros [Hl Hd]. pose proof (parse_padded (length s) s 0 Hd ltac:(lia)) as H. rewrite Nat.sub_diag in H. cbn [repeat] in H. rewrite app_nil_r in H.
  unfold num. rewrite H. cbn [default]. unfold id. rewrite <- Hl. pose proof (fraction_value_range (length s) s Hd). lia.
Qed.

Definition calendar_ok (s : stamp) : bool :=
  (1 <=? num (st_month s)) && (num (st_month s) <=? 12) && (1 <=? num (st_day s)) && (num (st_day s) <=? daysIn (num (st_month s)) (num (st_year s)))
  && ((num (st_hour s) <=? 23) && (num (st_min s) <=? 59) && (num (st_sec s) <=? 59)).

Lemma parse_fixed_num (t : gostring) (i n : nat) (w : gostring) : slice t i (i + n) = w -> digits_of n w -> parse_fixed t i n = Some (num w).
Proof. intros E [Hl Hd]. unfold parse_fixed. rewrite E, Hl, Nat.eqb_refl. by apply parse_digits_num. Qed.

(** Where the parts are in the text. *)
Lemma stamp_text_parts (s : stamp) :
  stamp_shape s ->
  let t := stamp_text s in let d := take 10 t in
  (slice d 0 (0 + 4) = st_year s /\ byte_at d 4 "-" = true /\ slice d 5 (5 + 2) = st_month s /\ byte_at d 7 "-" = true /\ slice d 8 (8 + 2) = st_day s) /\
  slice t 11 (11 + 2) = st_hour s /\ slice t 14 (14 + 2) = st_min s /\ slice t 17 (17 + 2) = st_sec s /\ drop 19 t = frac_text (st_frac s) ++ st_zone s.
Proof. destruct s. intros [Hy Hm Hd Ht Hh Hi Hs Hf Hz]. cbn [st_year st_month st_day st_hour st_min st_sec st_frac st_zone] in *. by digit_chars. Qed.

Lemma parse_time_text (s : stamp) :
  stamp_shape s -> (length (st_frac s) <= 9)%nat ->
  parse_time (stamp_text s)
  = offset ← zone_offset (st_zone s);
    if calendar_ok s
    then Some (utc_of (mkTime (num (st_year s)) (num (st_month s)) (num (st_day s)) (num (st_hour s)) (num (st_min s)) (num (st_sec s)) (fraction_value 9 (st_frac s))) offset)
    else None.
Proof.
  intros Hs Hl. pose proof (stamp_text_parts s Hs) as ((P1 & P2 & P3 & P4 & P5) & P6 & P7 & P8 & P9). destruct Hs as [Hy Hm Hd Ht Hh Hi Hse Hf Hz].
  unfold parse_time, parse_date. rewrite (parse_fixed_num _ _ _ _ P1 Hy), (parse_fixed_num _ _ _ _ P3 Hm), (parse_fixed_num _ _ _ _ P5 Hd), P2, P4.
  rewrite (parse_fixed_num _ _ _ _ P6 Hh), (parse_fixed_num _ _ _ _ P7 Hi), (parse_fixed_num _ _ _ _ P8 Hse), P9. unfold calendar_ok. cbn [andb].
  assert (match frac_text (st_frac s) ++ st_zone s with c :: r => if Ascii.eqb c "." then digit_run r else ([], c :: r) | [] => ([], []) end = (st_frac s, st_zone s)) as ->.
  { destruct (st_frac s) as [|c f]; cbn [frac_text app].
    - destruct (st_zone s) as [|c z]; [done|]. by rewrite (proj2 (zone_head _ c Hz eq_refl)).
    - rewrite Ascii.eqb_refl, app_comm_cons, digit_run_digits_app; [done|done|]. intros d Hd'. by apply (zone_head _ d Hz). }
  rewrite (parse_padded 9 _ 0 Hf Hl). rewrite Z.mul_0_l, Z.add_0_l.
  destruct ((1 <=? num (st_month s)) && _ && _ && _); cbn [andb]; [|by destruct (zone_offset _)]. cbn [t_year t_month t_day]. by destruct (zone_offset _).
Qed.

(** *** Days *)

Lemma days_before_year_next (y : Z) : days_before_year (y + 1) = days_before_year y + 365 + (if is_leap_year y then 1 else 0).
Proof.
  unfold days_before_year, is_leap_year. replace (y + 1 - 1) with y by lia.
  pose proof (Z.div_mod y 4 ltac:(lia)). pose proof (Z.mod_pos_bound y 4 ltac:(lia)). pose proof (Z.div_mod (y - 1) 4 ltac:(lia)). pose proof (Z.mod_pos_bound (y - 1) 4 ltac:(lia)).
  pose proof (Z.div_mod y 100 ltac:(lia)). pose proof (Z.mod_pos_bound y 100 ltac:(lia)). pose proof (Z.div_mod (y - 1) 100 ltac:(lia)). pose proof (Z.mod_pos_bound (y - 1) 100 ltac:(lia)).
  pose proof (Z.div_mod y 400 ltac:(lia)). pose proof (Z.mod_pos_bound y 400 ltac:(lia)). pose proof (Z.div_mod (y - 1) 400 ltac:(lia)). pose proof (Z.mod_pos_bound (y - 1) 400 ltac:(lia)).
  destruct (Z.eqb_spec (y mod 4) 0), (Z.eqb_spec (y mod 100) 0), (Z.eqb_spec (y mod 400) 0); cbn [andb orb negb]; lia.
Qed.

Lemma days_before_december (y : Z) : days_before_month 11 y = 334 + (if is_leap_year y then 1 else 0).
Proof. cbn [days_before_month]. unfold daysIn. generalize (is_leap_year y). intros []; by vm_compute. Qed.

Lemma days_next (t : Time) :
  1 <= t_month t <= 12 -> 1 <= t_day t <= daysIn (t_month t) (t_year t) ->
  days_from_civil (t_year (next_day t)) (t_month (next_day t)) (t_day (next_day t)) = days_from_civil (t_year t) (t_month t) (t_day t) + 1.
Proof.
  intros Hm Hd. unfold next_day, days_from_civil. destruct (Z.ltb_spec (t_day t) (daysIn (t_month t) (t_year t))) as [H|H]; cbn [t_year t_month t_day]; [lia|].
  destruct (Z.ltb_spec (t_month t) 12) as [H'|H']; cbn [t_year t_month t_day].
  - replace (Z.to_nat (t_month t + 1 - 1)) with (S (Z.to_nat (t_month t - 1))) by lia. cbn [days_before_month].
    replace (Z.of_nat (S (Z.to_nat (t_month t - 1)))) with (t_month t) by lia. lia.
  - rewrite days_before_year_next. replace (t_month t) with 12 in * by lia. change (Z.to_nat (12 - 1)) with 11%nat. rewrite days_before_december.
    change (daysIn 12 (t_year t)) with 31 in *. change (days_before_month (Z.to_nat (1 - 1)) (t_year t + 1)) with 0. lia.
Qed.

Lemma days_prev (t : Time) :
  1 <= t_month t <= 12 -> 1 <= t_day t <= daysIn (t_month t) (t_year t) ->
  days_from_civil (t_year (prev_day t)) (t_month (prev_day t)) (t_day (prev_day t)) = days_from_civil (t_year t) (t_month t) (t_day t) - 1.
Proof.
  intros Hm Hd. unfold prev_day, days_from_civil. destruct (Z.ltb_spec 1 (t_day t)) as [H|H]; cbn [t_year t_month t_day]; [lia|].
  destruct (Z.ltb_spec 1 (t_month t)) as [H'|H']; cbn [t_year t_month t_day].
  - replace (Z.to_nat (t_month t - 1)) with (S (Z.to_nat (t_month t - 1 - 1))) by lia. cbn [days_before_month].
    replace (Z.of_nat (S (Z.to_nat (t_month t - 1 - 1)))) with (t_month t - 1) by lia. lia.
  - pose proof (days_before_year_next (t_year t - 1)) as Hy. replace (t_year t - 1 + 1) with (t_year t) in Hy by lia. rewrite Hy.
    replace (t_month t) with 1 by lia. change (Z.to_nat (12 - 1)) with 11%nat. rewrite days_before_december. change (days_before_month (Z.to_nat (1 - 1)) (t_year t)) with 0. lia.
Qed.

(** The conversion to UTC moves by the offset. *)
Lemma Unix_utc_of (t : Time) (offset : Z) :
  1 <= t_month t <= 12 -> 1 <= t_day t <= daysIn (t_month t) (t_year t) -> 0 <= t_hour t <= 23 -> 0 <= t_min t <= 59 -> - 1440 < offset < 1440 ->
  Unix (utc_of t offset) = Unix t - offset * 60.
Proof.
  intros Hm Hd Hh Hi Ho. unfold Unix, utc_of. cbn [t_year t_month t_day t_hour t_min t_sec].
  set (k := t_hour t * 60 + t_min t - offset). pose proof (Z.div_mod k 1440 ltac:(lia)) as E. pose proof (Z.mod_pos_bound k 1440 ltac:(lia)) as Hk.
  assert (k mod 1440 / 60 * 3600 + k mod 60 * 60 = k mod 1440 * 60) as Es.
  { replace (k mod 60) with ((k mod 1440) mod 60) by (apply Z.mod_mod_divide; by exists 24).
    pose proof (Z.div_mod (k mod 1440) 60 ltac:(lia)). lia. }
  destruct (Z.ltb_spec k 0) as [H|H]; [rewrite days_prev by done|destruct (Z.leb_spec 1440 k) as [H'|H']; [rewrite days_next by done|]];
    [assert (k / 1440 = -1) as E' by (symmetry; apply (Z.div_unique k 1440 (-1) (k + 1440)); lia)
    |assert (k / 1440 = 1) as E' by (symmetry; apply (Z.div_unique k 1440 1 (k - 1440)); lia)
    |assert (k / 1440 = 0) as E' by (apply Z.div_small; lia)]; rewrite E' in E; unfold k in *; lia.
Qed.

(** *** Fractions *)

Lemma fraction_value_split (k n : nat) (f : gostring) : fraction_value (k + n) f = fraction_value k f * 10 ^ Z.of_nat n + fraction_value n (drop k f).
Proof.
  revert f. induction k as [|k IH]; intros f; [by cbn; rewrite drop_0|]. cbn [Nat.add fraction_value]. rewrite IH, Nat2Z.inj_add, Z.pow_add_r by lia.
  replace (drop k (tail f)) with (drop (S k) f) by (by destruct f; cbn; rewrite ?drop_nil). lia.
Qed.

Lemma fraction_value_take (n : nat) (f : gostring) : fraction_value n (take n f) = fraction_value n f.
Proof. revert f. induction n as [|n IH]; intros f; [done|]. destruct f as [|c f]; [done|]. cbn [take fraction_value head tail]. by rewrite IH. Qed.

Lemma fraction_value_nil (n : nat) : fraction_value n [] = 0.
Proof. induction n as [|n IH]; [done|]. cbn [fraction_value head tail]. rewrite IH. change (default "0"%char None) with "0"%char. change (code "0") with 48. lia. Qed.

Lemma trim_zeros_value (n : nat) (f : gostring) : fraction_value n (trim_zeros f) = fraction_value n f.
Proof.
  revert n. induction f as [|c f IH]; intros n; [done|]. cbn [trim_zeros]. destruct n as [|n]; [done|]. specialize (IH n).
  destruct (trim_zeros f) as [|d r]; [|cbn [fraction_value head tail]; by rewrite <- IH].
  rewrite fraction_value_nil in IH. destruct (Ascii.eqb c "0") eqn:E.
  - apply Ascii.eqb_eq in E as ->. rewrite fraction_value_nil. cbn [fraction_value head tail]. rewrite <- IH. change (default "0"%char (Some "0"%char)) with "0"%char. change (code "0") with 48. lia.
  - cbn [fraction_value head tail]. by rewrite fraction_value_nil, <- IH.
Qed.

Lemma trim_zeros_digits (f : gostring) : digits f -> digits (trim_zeros f).
Proof.
  unfold digits. induction f as [|c f IH]; [done|]. cbn. intros [Hc Hf]%andb_true_iff. specialize (IH Hf).
  destruct (trim_zeros f) as [|d r]; [destruct (Ascii.eqb c "0"); [done|]; cbn; by rewrite Hc|]. cbn in *. by rewrite Hc.
Qed.

Lemma trim_zeros_length (f : gostring) : (length (trim_zeros f) <= length f)%nat.
Proof. induction f as [|c f IH]; [done|]. cbn. destruct (trim_zeros f); [destruct (Ascii.eqb c "0"); cbn; lia|cbn in *; lia]. Qed.

(** ** What is accepted *)

Lemma sixty (s : gostring) : digits_of 2 s -> beq s (B "60") = (num s =? 60).
Proof.
  intros H. destruct H as [Hl Hd]. destruct s as [|a [|b [|]]]; try done. unfold digits in Hd. cbn in Hd. rewrite !andb_true_iff in Hd. destruct Hd as (Ha & Hb & _).
  unfold num. cbn [parse_digits]. rewrite Ha, Hb. cbn [default]. unfold id. unfold is_digit in *. apply in_range_iff in Ha, Hb.
  apply eq_iff_eq_true. rewrite beq_true, Z.eqb_eq. split; [by intros [= -> ->]|]. intros E.
  rewrite <- (byte_of_code a), <- (byte_of_code b). replace (code a) with 54 by lia. replace (code b) with 48 by lia. done.
Qed.

Lemma upper_zone_offset (z : gostring) : zone_offset (upper_zone z) = zone_offset z.
Proof. unfold upper_zone. destruct (beq z (B "z")) eqn:E; [|done]. by apply beq_true in E as ->. Qed.

Lemma calendar_normal (s : stamp) :
  stamp_shape s ->
  calendar_ok (normal s) = true <->
  1 <= num (st_month s) <= 12 /\ 1 <= num (st_day s) <= daysIn (num (st_month s)) (num (st_year s)) /\ num (st_hour s) <= 23 /\ num (st_min s) <= 59 /\ num (st_sec s) <= 60.
Proof.
  intros Hs. unfold calendar_ok. cbn [normal st_year st_month st_day st_hour st_min st_sec]. rewrite (sixty _ (sh_sec _ Hs)), !andb_true_iff, !Z.leb_le.
  destruct (Z.eqb_spec (num (st_sec s)) 60) as [->|]; [change (num (B "59")) with 59|]; lia.
Qed.

(** A text is a timestamp exactly when it spells a valid one. *)
Lemma parseFeatureTimestamp_iff (raw : gostring) (t : Time) (tail : gostring) (leap : bool) :
  parseFeatureTimestamp raw = Some (t, tail, leap) <->
  exists s, valid_stamp s /\ raw = stamp_text s /\ t = stamp_time s /\ tail = trim_zeros (drop 9 (st_frac s)) /\ leap = leap_stamp s.
Proof.
  assert (forall s, stamp_shape s -> parse_time (stamp_text (normal s)) = offset ← zone_offset (st_zone s); if calendar_ok (normal s) then Some (stamp_time s) else None) as Hparse.
  { intros s Hs. rewrite (parse_time_text _ (normal_shape s Hs)) by (cbn; rewrite length_take; lia). cbn [normal st_zone]. rewrite upper_zone_offset.
    unfold stamp_time, local_time. destruct (zone_offset (st_zone s)) as [offset|]; [|done]. cbn [mbind option_bind default]. unfold id.
    destruct (calendar_ok _); [|done]. do 2 f_equal. cbn [normal st_year st_month st_day st_hour st_min st_sec st_frac]. f_equal; [|apply fraction_value_take].
    unfold leap_stamp. rewrite (sixty _ (sh_sec _ Hs)). by destruct (num (st_sec s) =? 60). }
  split.
  - intros H. destruct (featureTimestampSyntax raw) eqn:Esyn; [|unfold parseFeatureTimestamp in H; by rewrite Esyn in H].
    apply featureTimestampSyntax_shape in Esyn as (s & Hs & ->). exists s. rewrite (parse_text s Hs), (zone_check_offset _ (sh_zone _ Hs)), (Hparse s Hs), (sixty _ (sh_sec _ Hs)) in H.
    fold (leap_stamp s) in H. destruct (zone_offset (st_zone s)) as [offset|] eqn:Ez; [|by rewrite bool_decide_eq_false_2 in H by (by intros [])].
    rewrite bool_decide_eq_true_2 in H by done. cbn [negb mbind option_bind] in H. destruct (calendar_ok (normal s)) eqn:Ec; [|done].
    apply (calendar_normal s Hs) in Ec as (? & ? & ? & ? & ?).
    destruct (leap_stamp s && negb (IsPositiveLeapSecondPredecessor (stamp_time s))) eqn:El; [done|]. injection H as <- <- <-.
    split_and!; try done. split; try done. intros E. rewrite E in El. cbn in El. by apply negb_false_iff in El.
  - intros (s & [Hs Hm Hd Hh Hi Hse Hz Hleap] & -> & -> & -> & ->).
    rewrite (parse_text s Hs), (zone_check_offset _ (sh_zone _ Hs)), bool_decide_eq_true_2, (Hparse s Hs), (sixty _ (sh_sec _ Hs)) by done. cbn [negb]. fold (leap_stamp s).
    destruct Hz as [offset Ez]. rewrite Ez. cbn [mbind option_bind]. rewrite (proj2 (calendar_normal s Hs)) by done.
    destruct (leap_stamp s); cbn [andb]; [by rewrite Hleap|done].
Qed.

(** Where a timestamp is on the time line. *)
Definition stamp_position (n : nat) (s : stamp) : Z :=
  (2 * (Unix (local_time s) - default 0 (zone_offset (st_zone s)) * 60) + (if leap_stamp s then 1 else 0)) * (10 ^ 9 * 10 ^ Z.of_nat n)
  + fraction_value (9 + n) (st_frac s).

Lemma zone_offset_range (z : gostring) (offset : Z) : zone_offset z = Some offset -> - 1440 < offset < 1440.
Proof.
  destruct z as [|a [|b [|d [|e [|f [|g [|]]]]]]]; cbn [zone_offset]; try done; [by destruct (_ || _); [intros [= <-]|]|].
  destruct (_ && _ && _ && _ && _) eqn:E; [|done]. rewrite !andb_true_iff, !orb_true_iff, !andb_true_iff, !orb_true_iff, !Ascii.eqb_eq in E.
  destruct E as [[[[_ Hb] _] Hf] Hg]. unfold is_digit in *. rewrite !in_range_iff in *.
  assert (0 <= ((code b - 48) * 10 + (code d - 48)) * 60 + (code f - 48) * 10 + (code g - 48) < 1440) as Hr.
  { destruct Hb as [[[->| ->] Hd]|[-> Hd]]; [change (code "0") with 48|change (code "1") with 49|change (code "2") with 50]; lia. }
  destruct (Ascii.eqb a "-"); intros [= <-]; lia.
Qed.

Lemma stamp_key (n : nat) (s : stamp) :
  valid_stamp s -> endpoint_key n (stamp_time s) (trim_zeros (drop 9 (st_frac s))) (leap_stamp s) = stamp_position n s.
Proof.
  intros [[Hy Hmo Hd Ht Hh Hi Hse Hf Hz] Rm Rd Rh Ri Rs [offset Ez] _]. unfold endpoint_key, stamp_position. rewrite trim_zeros_value, fraction_value_split.
  unfold stamp_time. rewrite Ez. cbn [default]. unfold id. pose proof (num_range _ _ Hh). pose proof (num_range _ _ Hi).
  rewrite Unix_utc_of by first [done|by eapply zone_offset_range|cbn; lia]. unfold utc_of, local_time. cbn [t_nsec]. lia.
Qed.

(** The end of an interval: a timestamp, or nothing or two dots for an open one. *)
Definition spells_end (text : gostring) (e : option stamp) : Prop :=
  match e with Some s => valid_stamp s /\ text = stamp_text s | None => text = [] \/ text = B ".." end.

(** An instant, or two ends with a slash between them. *)
Definition spells (text : gostring) (a b : option stamp) : Prop :=
  (exists s, valid_stamp s /\ text = stamp_text s /\ a = Some s /\ b = Some s) \/
  (exists ta tb, spells_end ta a /\ spells_end tb b /\ text = ta ++ "/"%char :: tb).

Definition end_of (s : stamp) : Time * gostring * bool := (stamp_time s, trim_zeros (drop 9 (st_frac s)), leap_stamp s).

Definition constraint_of (a b : option stamp) : TemporalConstraint := interval_of (end_of <$> a) (end_of <$> b).

Lemma digits_no_slash (s : gostring) : digits s -> "/"%char ∉ s.
Proof. unfold digits. rewrite forallb_forall. intros H Hin. apply list_elem_of_In in Hin. by specialize (H _ Hin). Qed.

Lemma zone_no_slash (z : gostring) : zone_syntax z = true -> "/"%char ∉ z.
Proof.
  intros Hz Hin. destruct z as [|a [|b [|d [|e [|f [|g [|]]]]]]]; try done; cbn in Hz.
  - apply list_elem_of_singleton in Hin as <-. done.
  - rewrite !andb_true_iff, orb_true_iff, !Ascii.eqb_eq in Hz. destruct Hz as [[[[[Ha Hb] Hd] He] Hf] Hg].
    rewrite !elem_of_cons in Hin. destruct Hin as [<-|[<-|[<-|[<-|[<-|[<-|[]%elem_of_nil]]]]]]; try done. by destruct Ha.
Qed.

Lemma stamp_no_slash (s : stamp) : stamp_shape s -> "/"%char ∉ stamp_text s.
Proof.
  intros [[_ Hy] [_ Hm] [_ Hd] Ht [_ Hh] [_ Hi] [_ Hs] Hf Hz]. unfold stamp_text. rewrite !not_elem_of_app.
  split_and!; try (by apply digits_no_slash); try (by apply zone_no_slash); try (by intros []%elem_of_cons); try (intros H; apply list_elem_of_singleton in H; by destruct Ht; congruence).
  destruct (st_frac s) as [|c f]; [by intros []%elem_of_nil|]. cbn. intros [H|H]%elem_of_cons; [done|]. by apply (digits_no_slash (c :: f)) in H.
Qed.

Lemma parse_end_iff (text : gostring) (e : option (Time * gostring * bool)) :
  parse_end text = Some e <-> exists a, spells_end text a /\ e = end_of <$> a.
Proof.
  unfold parse_end. destruct (beq text [] || beq text (B "..")) eqn:E.
  - apply orb_true_iff in E. rewrite !beq_true in E. split; [intros [= <-]; by exists None|]. intros (a & Ha & ->). destruct a as [s|]; [|done].
    destruct Ha as [[Hs _ _ _ _ _ _ _] ->]. pose proof (stamp_head_length s Hs) as Hl. destruct E as [E|E]; apply (f_equal length) in E; rewrite stamp_text_head, length_app, Hl in E; cbn in E; lia.
  - apply orb_false_iff in E as [E1%beq_false E2%beq_false]. destruct (parseFeatureTimestamp text) as [[[t tail] leap]|] eqn:Ep.
    + apply parseFeatureTimestamp_iff in Ep as (s & Hs & -> & -> & -> & ->). split; [intros [= <-]; by exists (Some s)|].
      intros ([s'|] & Ha & ->); [|by destruct Ha]. destruct Ha as [Hs' E]. f_equal.
      assert (parseFeatureTimestamp (stamp_text s) = Some (end_of s)) as H1 by (apply parseFeatureTimestamp_iff; by exists s).
      assert (parseFeatureTimestamp (stamp_text s) = Some (end_of s')) as H2 by (apply parseFeatureTimestamp_iff; by exists s').
      rewrite H1 in H2. exact H2.
    + split; [done|]. intros ([s|] & Ha & ->); [|by destruct Ha]. destruct Ha as [Hs ->].
      rewrite (proj2 (parseFeatureTimestamp_iff _ _ _ _)) in Ep by (by exists s). done.
Qed.

Lemma spells_end_no_slash (text : gostring) (a : option stamp) : spells_end text a -> "/"%char ∉ text.
Proof. destruct a as [s|]; [intros [Hs ->]; apply stamp_no_slash, Hs|intros [->| ->]; [by intros []%elem_of_nil|]]. by intros Hin%(bool_decide_eq_true_2 _). Qed.

(** The constraint before it is validated. *)
Lemma parse_interval (raw : gostring) (c : TemporalConstraint) :
  match SplitByte "/" raw with
  | [part] => t ← parseFeatureTimestamp part; Some (interval_of (Some t) (Some t))
  | [first; second] => s ← parse_end first; e ← parse_end second; Some (interval_of s e)
  | _ => None
  end = Some c <-> exists a b, spells raw a b /\ c = constraint_of a b.
Proof.
  split.
  - pose proof (JoinByte_SplitByte "/" raw) as Hj. destruct (SplitByte "/" raw) as [|x [|y [|]]]; cbn [JoinByte] in Hj; try done; intros H.
    + destruct (parseFeatureTimestamp x) as [[[t tail] leap]|] eqn:Ep; [|done]. injection H as <-.
      apply parseFeatureTimestamp_iff in Ep as (s & Hs & -> & -> & -> & ->). exists (Some s), (Some s). split; [|done]. left. by exists s.
    + destruct (parse_end x) as [s|] eqn:Es; [|done]. cbn [mbind option_bind] in H. destruct (parse_end y) as [e|] eqn:Ee; [|done]. injection H as <-.
      apply parse_end_iff in Es as (a & Ha & ->), Ee as (b & Hb & ->). exists a, b. split; [|done]. right. exists x, y. by rewrite <- Hj.
  - intros (a & b & [(s & Hs & -> & -> & ->)|(x & y & Ha & Hb & ->)] & ->).
    + rewrite SplitByte_single by (apply stamp_no_slash, Hs). rewrite (proj2 (parseFeatureTimestamp_iff _ _ _ _)) by (by exists s). done.
    + rewrite SplitByte_app by (by eapply spells_end_no_slash). rewrite SplitByte_single by (by eapply spells_end_no_slash).
      rewrite (proj2 (parse_end_iff x _)) by (by exists a). cbn [mbind option_bind]. by rewrite (proj2 (parse_end_iff y _)) by (by exists b).
Qed.

Lemma spells_valid (raw : gostring) (a b : option stamp) (s : stamp) :
  spells raw a b -> a = Some s \/ b = Some s -> valid_stamp s /\ (length (st_frac s) <= length raw)%nat.
Proof.
  assert (forall x, (length (st_frac x) <= length (stamp_text x))%nat) as Hlen.
  { intros x. rewrite stamp_text_head, !length_app. destruct (st_frac x); cbn; lia. }
  intros [(x & Hx & -> & -> & ->)|(ta & tb & Ha & Hb & ->)] Hs.
  - destruct Hs as [[= <-]|[= <-]]; by split.
  - rewrite length_app. cbn [length]. destruct Hs as [->| ->]; [destruct Ha as [? ->]|destruct Hb as [? ->]]; (split; [done|]); specialize (Hlen s); lia.
Qed.

Lemma stamp_time_nsec (s : stamp) : valid_stamp s -> 0 <= t_nsec (stamp_time s) < 10 ^ 9.
Proof. intros Hs. cbn [stamp_time utc_of t_nsec local_time]. apply (fraction_value_range 9). apply Hs. Qed.

Lemma constraint_end (a : option stamp) (u : Time) : end_time (end_of <$> a) = Some u -> exists s, a = Some s /\ u = stamp_time s.
Proof. destruct a as [s|]; [|done]. intros [= <-]. by exists s. Qed.

Section Accepted.
Context (raw : gostring) (n : nat) (Hn : (length raw <= n)%nat) (a b : option stamp) (Hab : spells raw a b).

Lemma constraint_of_lengths : (length (tc_start_sub (constraint_of a b)) <= n)%nat /\ (length (tc_end_sub (constraint_of a b)) <= n)%nat.
Proof using Hn Hab.
  assert (forall e, e = a \/ e = b -> (length (end_sub (end_of <$> e)) <= n)%nat) as H; [|split; cbn; apply H; auto].
  intros [s|] He; [|cbn; lia]. destruct (spells_valid raw a b s Hab) as [_ Hl]; [destruct He; auto|].
  cbn [fmap option_fmap option_map end_of end_sub]. pose proof (trim_zeros_length (drop 9 (st_frac s))) as Ht. rewrite length_drop in Ht. lia.
Qed.

Lemma constraint_of_nsec (u : Time) : tc_start (constraint_of a b) = Some u \/ tc_end (constraint_of a b) = Some u -> 0 <= t_nsec u < 10 ^ 9.
Proof using Hab.
  cbn [constraint_of interval_of tc_start tc_end]. intros [H|H]; apply constraint_end in H as (s & E & ->); apply stamp_time_nsec; apply (spells_valid raw a b s Hab); auto.
Qed.

Lemma endpoint_of_ok (e : option stamp) : (e = a \/ e = b) -> endpoint_ok (end_time (end_of <$> e)) (end_sub (end_of <$> e)) (end_leap (end_of <$> e)).
Proof using Hab.
  destruct e as [s|]; [|done]. intros He. destruct (spells_valid raw a b s Hab) as [Hs _]; [destruct He; auto|]. cbn. split; [|apply Hs].
  apply trim_zeros_digits. assert (digits (st_frac s)) as Hf by apply Hs. unfold digits in *. rewrite forallb_forall in *. intros x Hx. apply Hf.
  rewrite <- (take_drop 9 (st_frac s)). apply in_or_app. by right.
Qed.

Lemma constraint_of_valid :
  TemporalConstraint_Validate (constraint_of a b) = Ok tt <->
  (a <> None \/ b <> None) /\ (forall s e, a = Some s -> b = Some e -> stamp_position n s <= stamp_position n e).
Proof using Hn Hab.
  destruct constraint_of_lengths as [L1 L2]. rewrite (TemporalConstraint_Validate_exact _ n L1 L2 constraint_of_nsec). cbn [constraint_of interval_of tc_start tc_end tc_start_sub tc_end_sub tc_start_leap tc_end_leap].
  split.
  - intros (H1 & _ & _ & H2). split; [destruct a, b; cbn in H1; naive_solver|]. intros s e -> ->.
    rewrite <- !stamp_key by (apply (spells_valid raw _ _ _ Hab); auto). by apply H2.
  - intros [H1 H2]. split_and!; [destruct a, b; cbn; naive_solver|apply endpoint_of_ok; by left|apply endpoint_of_ok; by right|].
    intros u v Eu Ev. apply constraint_end in Eu as (s & -> & ->), Ev as (e & -> & ->). cbn [fmap option_fmap option_map end_sub end_leap end_of].
    rewrite !stamp_key by (apply (spells_valid raw _ _ _ Hab); auto). by apply H2.
Qed.

End Accepted.

(** C24. The datetime parameter is read exactly.  A text is accepted when it is a
    timestamp of RFC 3339, or an interval of two whose ends may be open but not both,
    every timestamp names a day of the calendar and a time of day, second 60 only where
    one was inserted, with an offset of less than a day, and the start does not come
    after the end on the exact time line.  The constraint it gives is valid and has its
    bounds at the exact positions of the timestamps, fractions of any length included. *)
Theorem parseFeatureDatetime_exact (raw : gostring) (n : nat) (c : TemporalConstraint) :
  (length raw <= n)%nat ->
  (parseFeatureDatetime raw = Some c <->
   exists a b, spells raw a b /\ (a <> None \/ b <> None) /\ (forall s e, a = Some s -> b = Some e -> stamp_position n s <= stamp_position n e) /\ c = constraint_of a b)
  /\ (parseFeatureDatetime raw = Some c -> constraint_ok n c)
  /\ (forall a b, spells raw a b ->
        (forall s, a = Some s -> start_key n (constraint_of a b) (stamp_time s) = stamp_position n s)
        /\ (forall s, b = Some s -> end_key n (constraint_of a b) (stamp_time s) = stamp_position n s)).
Proof.
  intros Hn.
  assert (parseFeatureDatetime raw = Some c <-> exists a b, spells raw a b /\ c = constraint_of a b /\ TemporalConstraint_Validate c = Ok tt) as H0.
  { unfold parseFeatureDatetime. pose proof (parse_interval raw) as Hp. destruct (match SplitByte "/" raw with [] => None | _ => _ end) as [c'|]; cbn [mbind option_bind].
    - split.
      + intros H. destruct (proj1 (Hp c') eq_refl) as (a & b & Hab & Ec). exists a, b. destruct (TemporalConstraint_Validate c') as [[]|e] eqn:Ev; [|done]. by injection H as <-.
      + intros (a & b & Hab & Ec & Ev). assert (Some c' = Some c) as E by (apply Hp; by exists a, b). injection E as ->. by rewrite Ev.
    - split; [done|]. intros (a & b & Hab & Ec & _). by apply (Hp c); exists a, b. }
  split_and!.
  - rewrite H0. split.
    + intros (a & b & Hab & -> & Hv). apply (constraint_of_valid raw n Hn a b Hab) in Hv as [H1 H2]. by exists a, b.
    + intros (a & b & Hab & H1 & H2 & ->). exists a, b. split_and!; [done..|]. by apply (constraint_of_valid raw n Hn a b Hab).
  - intros (a & b & Hab & -> & Hv)%H0. destruct (constraint_of_lengths raw n Hn a b Hab). split; [done..|]. by apply (constraint_of_nsec raw a b).
  - intros a b Hab. split; intros s ->; apply (stamp_key n s); apply (spells_valid raw _ _ _ Hab); auto.
Qed.

(** The last second of 2016 by a clock one hour ahead, and from then on. *)
Lemma parseFeatureDatetime_exact_witness :
  let raw := B "2017-01-01t00:59:60.12345678909+01:00/.." in
  exists c, parseFeatureDatetime raw = Some c /\ constraint_ok 40 c /\ tc_start_leap c = true.
Proof.
  intros raw. destruct (parseFeatureDatetime raw) as [c|] eqn:E; [|by vm_compute in E]. exists c. split; [done|].
  split; [apply (proj1 (proj2 (parseFeatureDatetime_exact raw 40 c ltac:(cbn; lia))) E)|]. vm_compute in E. by injection E as <-.
Defined.
