(* ===== verification/UrlQuery.v ===== *)
(** * net/url: query strings

    The values of a query string as the handlers use them: [url.ParseQuery],
    [Values.Get], [Values.Set] and [Values.Encode], with the escapes of their names and
    values, and that encoded values are read back. *)

From S2P Require Import Prelude GoText Filter Identity.

#[local] Open Scope Z_scope.

(** ** Operations *)

Abbreviation Values := (gmap gostring (list gostring)).

(** [shouldEscape] for a query component: all but the unreserved characters. *)
Definition shouldEscape (c : ascii) : bool :=
  negb (is_digit c || in_range 97 122 c || in_range 65 90 c || Ascii.eqb c "-" || Ascii.eqb c "_" || Ascii.eqb c "." || Ascii.eqb c "~").

Definition escape_byte (c : ascii) : gostring :=
  if Ascii.eqb c " " then ["+"%char]
  else if shouldEscape c then ["%"%char; hex_digit (code c / 16); hex_digit (code c mod 16)]
  else [c].

Definition QueryEscape (s : gostring) : gostring := concat (map escape_byte s).

Fixpoint QueryUnescape (s : gostring) : option gostring :=
  match s with
  | [] => Some []
  | c :: r =>
      if Ascii.eqb c "%" then
        match r with
        | a :: b :: r =>
            match hex_value a, hex_value b with
            | Some x, Some y => t ← QueryUnescape r; Some (byte_of (x * 16 + y) :: t)
            | _, _ => None
            end
        | _ => None
        end
      else t ← QueryUnescape r; Some ((if Ascii.eqb c "+" then " "%char else c) :: t)
  end.

(** [strings.Cut(s, sep)] for a one-byte separator. *)
Fixpoint Cut (sep : ascii) (s : gostring) : gostring * gostring :=
  match s with
  | [] => ([], [])
  | c :: r => if Ascii.eqb c sep then ([], r) else let '(a, b) := Cut sep r in (c :: a, b)
  end.

(** [m[key] = append(m[key], value)] *)
Definition Add (m : Values) (key v : gostring) : Values := <[key := default [] (m !! key) ++ [v]]> m.

(** The pairs between ampersands; empty ones are skipped and semicolons refused. *)
Fixpoint parse_pairs (pairs : list gostring) (m : Values) : option Values :=
  match pairs with
  | [] => Some m
  | p :: pairs =>
      if existsb (Ascii.eqb ";") p then None
      else if beq p [] then parse_pairs pairs m
      else
        let '(key, v) := Cut "=" p in
        key ← QueryUnescape key;
        v ← QueryUnescape v;
        parse_pairs pairs (Add m key v)
  end.

Definition ParseQuery (query : gostring) : option Values := parse_pairs (SplitByte "&" query) ∅.

(** [parameters.Get]: the first value, or the empty text. *)
Definition Get (m : Values) (key : gostring) : gostring := match m !! key with Some (v :: _) => v | _ => [] end.

Definition Set_ (m : Values) (key v : gostring) : Values := <[key := [v]]> m.

Definition values_le (a b : gostring * list gostring) : Prop := string_le (fst a) (fst b).

#[export] Instance values_le_dec (a b : gostring * list gostring) : Decision (values_le a b).
Proof. unfold values_le. apply _. Defined.

Definition encode_pair (key v : gostring) : gostring := QueryEscape key ++ "="%char :: QueryEscape v.

(** The keys in order, each with its values. *)
Definition Encode (m : Values) : gostring :=
  JoinByte "&" (concat (map (fun kvs => map (encode_pair (fst kvs)) (snd kvs)) (merge_sort values_le (map_to_list m)))).

(** ** Lemmas *)

Lemma hex_parts (c : ascii) : 0 <= code c / 16 < 16 /\ 0 <= code c mod 16 < 16 /\ code c / 16 * 16 + code c mod 16 = code c.
Proof.
  pose proof (code_range c). split_and!; try (apply Z.mod_pos_bound; lia); [apply Z.div_pos; lia|apply Z.div_lt_upper_bound; lia|].
  rewrite Z.mul_comm, <- Z.div_mod; lia.
Qed.

Lemma hex_digit_plain (d : Z) : 0 <= d < 16 -> shouldEscape (hex_digit d) = false.
Proof.
  intros Hd. assert (Forall (fun d => shouldEscape (hex_digit d) = false) (seqZ 0 16)) as H by (repeat (constructor; [vm_compute; reflexivity|]); constructor).
  rewrite Forall_forall in H. apply H, elem_of_seqZ. lia.
Qed.

(** Bytes that an escaped text has. *)
Lemma escape_byte_plain (c x : ascii) : x ∈ escape_byte c -> shouldEscape x = false \/ x = "%"%char \/ x = "+"%char.
Proof.
  unfold escape_byte. destruct (hex_parts c) as (H1 & H2 & _). destruct (Ascii.eqb c " "); [intros ->%list_elem_of_singleton; auto|].
  destruct (shouldEscape c) eqn:E; [|by intros ->%list_elem_of_singleton; left].
  rewrite !elem_of_cons. intros [->|[->|[->|[]%elem_of_nil]]]; [by auto|left; by apply hex_digit_plain..].
Qed.

Lemma QueryEscape_plain (s : gostring) (x : ascii) : x ∈ QueryEscape s -> shouldEscape x = false \/ x = "%"%char \/ x = "+"%char.
Proof. unfold QueryEscape. rewrite list_elem_of_In, in_concat. intros (l & (c & <- & _)%in_map_iff & Hx%list_elem_of_In). by apply (escape_byte_plain c). Qed.

Lemma QueryEscape_separators (s : gostring) : ("&"%char ∉ QueryEscape s) /\ (";"%char ∉ QueryEscape s) /\ ("="%char ∉ QueryEscape s).
Proof. split_and!; intros [H|[H|H]]%QueryEscape_plain; done. Qed.

Lemma unescape_byte (c : ascii) (s : gostring) : QueryUnescape (escape_byte c ++ s) = t ← QueryUnescape s; Some (c :: t).
Proof.
  unfold escape_byte. destruct (hex_parts c) as (H1 & H2 & H3). destruct (Ascii.eqb_spec c " ") as [->|Hs]; [done|].
  destruct (shouldEscape c) eqn:E; cbn [app QueryUnescape].
  - rewrite Ascii.eqb_refl, !hex_digit_value, H3, byte_of_code by done. done.
  - destruct (Ascii.eqb_spec c "%") as [->|_]; [by vm_compute in E|]. by destruct (Ascii.eqb_spec c "+") as [->|_]; [vm_compute in E|].
Qed.

Lemma QueryUnescape_QueryEscape (s : gostring) : QueryUnescape (QueryEscape s) = Some s.
Proof.
  unfold QueryEscape. induction s as [|c s IH]; [done|]. cbn [map concat]. by rewrite unescape_byte, IH.
Qed.

Lemma Cut_app (sep : ascii) (a b : gostring) : sep ∉ a -> Cut sep (a ++ sep :: b) = (a, b).
Proof.
  induction a as [|c a IH]; cbn [Cut app]; [by rewrite Ascii.eqb_refl|]. rewrite not_elem_of_cons. intros [Hc Ha].
  destruct (Ascii.eqb_spec c sep) as [->|_]; [done|]. by rewrite IH.
Qed.

Lemma encode_pair_read (key v : gostring) (pairs : list gostring) (m : Values) : parse_pairs (encode_pair key v :: pairs) m = parse_pairs pairs (Add m key v).
Proof.
  destruct (QueryEscape_separators key) as (_ & K2 & K3), (QueryEscape_separators v) as (_ & V2 & V3). cbn [parse_pairs].
  assert (existsb (Ascii.eqb ";") (encode_pair key v) = false) as ->.
  { apply not_true_iff_false. rewrite existsb_exists. intros (x & Hx & <-%Ascii.eqb_eq). apply list_elem_of_In in Hx. unfold encode_pair in Hx.
    rewrite elem_of_app, elem_of_cons in Hx. destruct Hx as [?|[?|?]]; done. }
  assert (beq (encode_pair key v) [] = false) as ->. { apply beq_false. unfold encode_pair. by destruct (QueryEscape key). }
  unfold encode_pair. rewrite Cut_app by done. rewrite !QueryUnescape_QueryEscape. done.
Qed.

Lemma parse_values (key : gostring) (vs : list gostring) (pairs : list gostring) (m : Values) :
  vs <> [] -> parse_pairs (map (encode_pair key) vs ++ pairs) m = parse_pairs pairs (<[key := default [] (m !! key) ++ vs]> m).
Proof.
  revert m. induction vs as [|v vs IH]; intros m Hne; [done|]. cbn [map app]. rewrite encode_pair_read. destruct vs as [|w vs]; [done|].
  rewrite IH by done. unfold Add. rewrite lookup_insert_eq, insert_insert_eq. cbn [default]. unfold id. by rewrite <- app_assoc.
Qed.

Lemma parse_encoded (kvs : list (gostring * list gostring)) (m : Values) :
  NoDup kvs.*1 -> Forall (fun kv => snd kv <> [] /\ m !! fst kv = None) kvs ->
  parse_pairs (concat (map (fun kv => map (encode_pair (fst kv)) (snd kv)) kvs)) m = Some (list_to_map kvs ∪ m).
Proof.
  revert m. induction kvs as [|[k vs] kvs IH]; intros m Hnd Hf; cbn [map concat fst snd]; [cbn; by rewrite (left_id_L ∅ (∪))|].
  apply Forall_cons in Hf as [[Hne Hk] Hf]. cbn [fst snd] in *. cbn in Hnd. apply NoDup_cons in Hnd as [Hn Hnd].
  rewrite parse_values by done. rewrite Hk. cbn [default app]. rewrite IH; [|done|].
  - f_equal. rewrite list_to_map_cons, <- insert_union_l, <- insert_union_r; [done|]. by apply not_elem_of_list_to_map_1.
  - rewrite Forall_forall in *. intros [k' vs'] Hin. destruct (Hf _ Hin). split; [done|]. cbn [fst]. rewrite lookup_insert_ne; [done|].
    intros ->. apply Hn. apply list_elem_of_fmap. by exists (k', vs').
Qed.

(** Encoded values are read back, whatever the names and the values are. *)
Lemma ParseQuery_Encode (m : Values) : (forall k vs, m !! k = Some vs -> vs <> []) -> ParseQuery (Encode m) = Some m.
Proof.
  intros Hne. unfold ParseQuery, Encode. pose proof (merge_sort_Permutation values_le (map_to_list m)) as Hp.
  set (kvs := merge_sort values_le (map_to_list m)) in *.
  assert (parse_pairs (concat (map (fun kv => map (encode_pair (fst kv)) (snd kv)) kvs)) ∅ = Some m) as H.
  { rewrite parse_encoded.
    - f_equal. rewrite (right_id_L ∅ (∪)). rewrite (list_to_map_proper kvs (map_to_list m)); [apply list_to_map_to_list| |done].
      rewrite Hp. apply NoDup_fst_map_to_list.
    - rewrite Hp. apply NoDup_fst_map_to_list.
    - apply Forall_forall. intros [k vs] Hk. rewrite Hp in Hk. apply elem_of_map_to_list in Hk. split; [by apply (Hne k)|apply lookup_empty]. }
  destruct (concat (map (fun kv => map (encode_pair (fst kv)) (snd kv)) kvs)) as [|p ps] eqn:E; [done|]. rewrite SplitByte_JoinByte; [done..|].
  rewrite <- E. apply Forall_forall. intros x Hx. apply list_elem_of_In, in_concat in Hx as (l & (kv & <- & _)%in_map_iff & (v & <- & _)%in_map_iff).
  unfold encode_pair. rewrite elem_of_app, elem_of_cons. destruct (QueryEscape_separators (fst kv)), (QueryEscape_separators v). naive_solver.
Qed.

(** *** Lengths *)

(** The length of a list of pairs with a separator after each. *)
Definition pairs_length (pairs : list gostring) : Z := foldr (fun p n => blen p + 1 + n) 0 pairs.

Lemma pairs_length_cons (p : gostring) (l : list gostring) : pairs_length (p :: l) = blen p + 1 + pairs_length l.
Proof. done. Qed.

Lemma pairs_length_nonneg (l : list gostring) : 0 <= pairs_length l.
Proof. induction l as [|p l IH]; [done|]. rewrite pairs_length_cons. pose proof (blen_nonneg p). lia. Qed.

Lemma JoinByte_length (sep : ascii) (parts : list gostring) : blen (JoinByte sep parts) = Z.max 0 (pairs_length parts - 1).
Proof.
  induction parts as [|p parts IH]; [done|]. rewrite pairs_length_cons. pose proof (blen_nonneg p). pose proof (pairs_length_nonneg parts) as Hp.
  destruct parts as [|p' parts]; [cbn; lia|]. change (JoinByte sep (p :: p' :: parts)) with (p ++ sep :: JoinByte sep (p' :: parts)).
  rewrite blen_app. unfold blen in *. cbn [length] in *. rewrite Nat2Z.inj_succ, IH. rewrite pairs_length_cons in *. pose proof (pairs_length_nonneg parts). unfold blen in *. lia.
Qed.

#[export] Instance pairs_length_proper : Proper ((≡ₚ) ==> (=)) pairs_length.
Proof. intros l l' H. induction H; rewrite ?pairs_length_cons; lia. Qed.

(** The pairs of the values, in any order of the keys. *)
Definition all_pairs (kvs : list (gostring * list gostring)) : list gostring := concat (map (fun kv => map (encode_pair (fst kv)) (snd kv)) kvs).

#[export] Instance all_pairs_proper : Proper ((≡ₚ) ==> (≡ₚ)) all_pairs.
Proof. intros l l' H. unfold all_pairs. rewrite <- !flat_map_concat_map. by rewrite H. Qed.

Lemma Encode_length (m : Values) : blen (Encode m) = Z.max 0 (pairs_length (all_pairs (map_to_list m)) - 1).
Proof. unfold Encode. rewrite JoinByte_length. fold (all_pairs (merge_sort values_le (map_to_list m))). by rewrite merge_sort_Permutation. Qed.

(** A shorter value makes no longer text. *)
Lemma Encode_Set_length (m : Values) (key v v' : gostring) :
  blen (QueryEscape v) <= blen (QueryEscape v') -> blen (Encode (Set_ m key v)) <= blen (Encode (Set_ m key v')).
Proof.
  intros H. rewrite !Encode_length. unfold Set_. rewrite <- !(insert_delete_eq m).
  rewrite !map_to_list_insert by apply lookup_delete_eq. set (l := map_to_list (delete key m)).
  assert (forall w, all_pairs ((key, [w]) :: l) = encode_pair key w :: all_pairs l) as E by done.
  rewrite !E, !pairs_length_cons. unfold encode_pair. rewrite !blen_app. unfold blen in *. cbn [length]. lia.
Qed.
