(* ===== verification/ItemsQuery.v ===== *)
(** * server/handle_features_items: queries of the items of a collection

    The parameters of a request for the items of a collection: limits and offsets,
    bounding boxes, also those that cross the antimeridian or have the axes of another
    reference system, and the query they make (parsePageLimit, parseFeatureBounds,
    parseFeatureBoundsCRS, parseItemsQuery). *)

From Stdlib Require Import QArith Lqa.
From S2P Require Import Prelude GoText Temporal Filter Float64 RawGeom FeatureExtent FeatureSpatial FeatureQuery.
From S2P Require Import Decimal Cql2Lexer Cql2Parser GpkgSpatial Datetime UrlQuery.

#[local] Open Scope Z_scope.

(** ** Limits *)

(** The loop ranges over runes: a byte that is no digit makes a rune that is none. *)
Definition decimalDigits (value : gostring) : bool := negb (beq value []) && forallb is_digit value.

(** [strings.TrimLeft(s, "0")] *)
Fixpoint trim_left_zeros (s : gostring) : gostring :=
  match s with c :: r => if Ascii.eqb c "0" then trim_left_zeros r else s | [] => [] end.

Definition parsePageLimit (raw : gostring) (maximum : Z) : option Z :=
  if negb (decimalDigits raw) then None
  else
    let value := trim_left_zeros raw in
    if beq value [] then None
    else
      let bound := FormatUint maximum in
      if (blen bound <? blen value) || ((blen value =? blen bound) && string_gt value bound) then None else ParseUint value 64.

(** ** Bounding boxes *)

(** The float64 values 180, -180, 90 and -90. *)
Definition f180 : f64 := 0x4066800000000000.
Definition fm180 : f64 := 0xC066800000000000.
Definition f90 : f64 := 0x4056800000000000.
Definition fm90 : f64 := 0xC056800000000000.

Definition outside (lo hi v : f64) : bool := float_lt v lo || float_lt hi v.

(** The geographic domain: longitudes and latitudes in degrees. *)
Definition outside_domain (west south east north : f64) : bool :=
  outside fm180 f180 west || outside fm180 f180 east || outside fm90 f90 south || outside fm90 f90 north.

(** The bounds of a query: one box, or two when it crosses the antimeridian. *)
Definition flat_bounds (west south east north : f64) : list Extent :=
  if float_le west east then [mkExtent west south east north]
  else [mkExtent west south f180 north; mkExtent fm180 south east north].

Definition space_bounds (west south bottom east north top : f64) : list Box :=
  if float_le west east then [mkBox (west, south, bottom) (east, north, top)]
  else [mkBox (west, south, bottom) (f180, north, top); mkBox (fm180, south, bottom) (east, north, top)].

Definition with_bounds (q : FeatureQuery) (bounds : list Extent) (bounds3D : list Box) (vertical : gostring) (srid : Z) (definition : gostring) : FeatureQuery :=
  mkQuery bounds bounds3D vertical srid definition (q_Temporal q) (q_Filter q) (q_IDs q) (q_Limit q) (q_Offset q) (q_Fields q).

Section Parse.
(** [strconv.ParseFloat(s, 64)]: any reading of numbers. *)
Context (ParseFloat : gostring -> option f64).

(** The coordinates, all finite. *)
Fixpoint bbox_values (parts : list gostring) : option (list f64) :=
  match parts with
  | [] => Some []
  | part :: parts =>
      value ← ParseFloat part;
      if nonfinite value then None else values ← bbox_values parts; Some (value :: values)
  end.

Definition parseFeatureBounds (raw : gostring) (q : FeatureQuery) : option FeatureQuery :=
  let parts := SplitByte "," raw in
  if negb (length parts =? 4)%nat && negb (length parts =? 6)%nat then None
  else
    values ← bbox_values parts;
    match values with
    | [west; south; east; north] =>
        if outside_domain west south east north || float_lt north south then None
        else Some (with_bounds q (flat_bounds west south east north) (q_Bounds3D q) (q_BoundsVerticalCRS q) 4326 (q_BoundsCRSDefinition q))
    | [west; south; bottom; east; north; top] =>
        if outside_domain west south east north || float_lt north south then None
        else if float_lt top bottom then None
        else Some (with_bounds q (q_Bounds q) (space_bounds west south bottom east north top) CRS84h 4326 (q_BoundsCRSDefinition q))
    | _ => None
    end.

(** *** Boxes in another reference system *)

(** The parts of a [features.CRS] that boxes use. *)
Record CRS := mkCRS { crs_dimension : nat; crs_srid : Z; crs_geographic : bool; crs_swapped : bool; crs_projection : bool; crs_uri : gostring; crs_definition : gostring }.

Definition orderPosition (c : CRS) (position : list f64) : option (list f64) :=
  if negb (crs_projection c) || negb (length position =? crs_dimension c)%nat then None
  else if existsb nonfinite position then None
  else
    match crs_swapped c, position with
    | true, x :: y :: rest => Some (y :: x :: rest)
    | _, _ => Some position
    end.

Definition parseFeatureBoundsCRS (raw : gostring) (descriptor : CRS) (q : FeatureQuery) : option FeatureQuery :=
  let parts := SplitByte "," raw in
  let dimension := crs_dimension descriptor in
  if negb (length parts =? dimension * 2)%nat then None
  else
    values ← bbox_values parts;
    minimum ← orderPosition descriptor (take dimension values);
    maximum ← orderPosition descriptor (drop dimension values);
    match minimum, maximum with
    | west :: south :: min_rest, east :: north :: max_rest =>
        if float_lt north south || (negb (crs_geographic descriptor) && float_lt east west) then None
        else if crs_geographic descriptor && outside_domain west south east north then None
        else if (dimension =? 2)%nat then
          Some (with_bounds q (flat_bounds west south east north) [] [] (crs_srid descriptor) (crs_definition descriptor))
        else
          match min_rest, max_rest with
          | bottom :: _, top :: _ =>
              if float_lt top bottom then None
              else Some (with_bounds q [] (space_bounds west south bottom east north top) CRS84h (crs_srid descriptor) (crs_definition descriptor))
          | _, _ => None
          end
    | _, _ => None
    end.

(** ** The query *)

Definition known_parameters : list gostring := [B "limit"; B "offset"; B "bbox"; B "datetime"; B "filter"; B "filter-lang"; B "crs"; B "bbox-crs"].

Definition present (parameters : Values) (key : gostring) : bool := bool_decide (is_Some (parameters !! key)).

(** The loop over the parameters, in any order: known names with one value. *)
Definition parameters_ok (parameters : Values) : bool :=
  forallb (fun kv => existsb (beq (fst kv)) known_parameters && (length (snd kv) =? 1)%nat) (map_to_list parameters).

Definition blank_crs (parameters : Values) : bool :=
  existsb (fun key => match parameters !! key with Some (v :: _) => beq v [] | _ => false end) [B "crs"; B "bbox-crs"].

(** A step for a parameter that may be absent. *)
Definition optional {A : Type} (parameters : Values) (key : gostring) (absent : A) (step : gostring -> option A) : option A :=
  match parameters !! key with Some (v :: _) => step v | _ => Some absent end.

Definition parseItemsQuery (defaultLimit maxLimit : Z) (raw : gostring) : option (FeatureQuery * Values) :=
  ps ← ParseQuery raw;
  if negb (parameters_ok ps) then None
  else if blank_crs ps then None
  else if present ps (B "bbox-crs") && negb (present ps (B "bbox")) then None
  else
    limit ← optional ps (B "limit") defaultLimit (fun v => parsePageLimit v maxLimit);
    offset ← optional ps (B "offset") 0 (fun v => if negb (decimalDigits v) then None else ParseUint v 64);
    let q := mkQuery [] [] [] 0 [] None None [] limit offset [] in
    q ← (if beq (Get ps (B "bbox-crs")) [] then optional ps (B "bbox") q (fun v => parseFeatureBounds v q) else Some q);
    temporal ← optional ps (B "datetime") None (fun v => Some <$> parseFeatureDatetime v);
    if present ps (B "filter-lang") && (negb (present ps (B "filter")) || negb (beq (Get ps (B "filter-lang")) (B "cql2-text"))) then None
    else
      filter ← optional ps (B "filter") None
                 (fun v => if beq (TrimSpace v) [] then None else match Parse v with Ok f => Some (Some f) | Err _ => None end);
      let q := mkQuery (q_Bounds q) (q_Bounds3D q) (q_BoundsVerticalCRS q) (q_BoundsSRID q) (q_BoundsCRSDefinition q) temporal filter [] limit offset [] in
      match Query_Validate q with Ok _ => Some (q, ps) | Err _ => None end.

End Parse.

(** ** Lemmas: limits *)

Lemma num_fraction (s : gostring) : digits s -> num s = fraction_value (length s) s.
Proof.
  intros Hd. pose proof (parse_padded (length s) s 0 Hd ltac:(lia)) as H. rewrite Nat.sub_diag in H. cbn [repeat] in H. rewrite app_nil_r in H.
  unfold num. by rewrite H.
Qed.

(** Digits of the same length are in the order of their numbers. *)
Lemma Compare_digits (a b : gostring) : digits a -> digits b -> length a = length b -> Compare a b = (num a ?= num b).
Proof.
  intros Ha Hb Hl. rewrite (num_fraction a Ha), (num_fraction b Hb), Hl. revert b Ha Hb Hl.
  induction a as [|c a IH]; intros [|d b] Ha Hb Hl; try done. injection Hl as Hl. cbn [Compare length fraction_value head tail].
  pose proof (digits_tail _ Ha) as Ha'. pose proof (digits_tail _ Hb) as Hb'. cbn [tail] in *. rewrite (IH b Ha' Hb' Hl).
  pose proof (fraction_value_range (length b) a Ha') as Ra. pose proof (fraction_value_range (length b) b Hb') as Rb. cbn [default]. unfold id.
  set (P := 10 ^ Z.of_nat (length b)) in *. destruct (Z.compare_spec (code c) (code d)) as [->|H|H].
  - by rewrite Z.add_compare_mono_l.
  - symmetry. apply Z.compare_lt_iff. nia.
  - symmetry. apply Z.compare_gt_iff. nia.
Qed.

Lemma trim_left_zeros_digits (s : gostring) : digits s -> digits (trim_left_zeros s) /\ num (trim_left_zeros s) = num s.
Proof.
  induction s as [|c s IH]; [done|]. intros Hd. cbn [trim_left_zeros]. destruct (Ascii.eqb c "0") eqn:E; [|done]. apply Ascii.eqb_eq in E as ->.
  destruct (IH (digits_tail _ Hd)) as [H1 H2]. split; [done|]. rewrite H2. done.
Qed.

Lemma trim_left_zeros_large (s : gostring) : digits s -> trim_left_zeros s <> [] -> 10 ^ (blen (trim_left_zeros s) - 1) <= num (trim_left_zeros s).
Proof.
  induction s as [|c s IH]; [done|]. intros Hd Hne. cbn [trim_left_zeros] in *. destruct (Ascii.eqb c "0") eqn:E; [by apply IH; [apply (digits_tail _ Hd)|]|].
  rewrite (num_fraction _ Hd). cbn [length fraction_value head tail default]. unfold id, blen. cbn [length]. apply Ascii.eqb_neq in E.
  pose proof (digits_head _ Hd) as Hc. cbn in Hc. unfold id in Hc. assert (code c <> 48) as Hn by (intros E'; apply E; by apply code_inj).
  pose proof (fraction_value_range (length s) s (digits_tail _ Hd)). replace (Z.of_nat (S (length s)) - 1) with (Z.of_nat (length s)) by lia.
  assert (0 < 10 ^ Z.of_nat (length s)) by (apply Z.pow_pos_nonneg; lia). nia.
Qed.

Lemma FormatUint_large (n : Z) : 0 < n -> 10 ^ (blen (FormatUint n) - 1) <= n.
Proof.
  intros Hn. destruct (Z.le_gt_cases (10 ^ (blen (FormatUint n) - 1)) n) as [|H]; [done|]. exfalso.
  destruct (Z.le_gt_cases (blen (FormatUint n)) 1) as [H1|H1].
  - assert (blen (FormatUint n) = 1) as E. { pose proof (FormatUint_nonempty n). destruct (FormatUint n); [done|]. unfold blen in *. cbn [length] in *. lia. }
    rewrite E in H. cbn in H. lia.
  - pose proof (format_loop_length (S (Z.to_nat (Z.log2 n))) n (blen (FormatUint n) - 1) [] ltac:(lia) ltac:(lia)) as Hl. unfold FormatUint in *. change (blen (@nil ascii)) with 0 in Hl. lia.
Qed.

(** The limit is read by its value: leading zeros and numbers of any length included. *)
Lemma parsePageLimit_iff (raw : gostring) (maximum v : Z) :
  0 < maximum < 2 ^ 64 -> parsePageLimit raw maximum = Some v <-> digits raw /\ raw <> [] /\ v = num raw /\ 1 <= v <= maximum.
Proof.
  intros Hm. unfold parsePageLimit, decimalDigits. fold (digits raw). destruct (beq raw []) eqn:Er; [apply beq_true in Er; cbn; naive_solver|apply beq_false in Er].
  cbn [negb andb]. destruct (forallb is_digit raw) eqn:Hd; [|cbn; split; [done|]; intros [? _]; unfold digits in *; congruence]. cbn [negb].
  destruct (trim_left_zeros_digits raw Hd) as [Td Tn]. set (value := trim_left_zeros raw) in *. pose proof (trim_left_zeros_large raw Hd) as Hl. fold value in Hl.
  pose proof (num_range (length value) value (conj eq_refl Td)) as Hr. destruct (beq value []) eqn:Ev.
  - apply beq_true in Ev. rewrite Ev in Tn. change (num []) with 0 in Tn. split; [done|]. intros (_ & _ & -> & ?). lia.
  - apply beq_false in Ev. specialize (Hl Ev). assert (ParseUint value 64 = if num value <? 2 ^ 64 then Some (num value) else None) as Hp.
    { unfold ParseUint. rewrite (parse_digits_num value Td). by destruct value. }
    pose proof (FormatUint_large maximum ltac:(lia)) as Fl. pose proof (FormatUint_digits maximum ltac:(lia)) as Fd.
    pose proof (parse_FormatUint maximum ltac:(lia)) as Fp. rewrite (parse_digits_num _ Fd) in Fp. injection Fp as Fp.
    pose proof (num_range (length (FormatUint maximum)) _ (conj eq_refl Fd)) as Fr. rewrite Fp in Fr. fold (blen value) in Hr. fold (blen (FormatUint maximum)) in Fr.
    assert (forall i j, 0 <= i -> i <= j -> 10 ^ i <= 10 ^ j) as Hmono by (intros i j Hi Hj; apply Z.pow_le_mono_r; lia).
    assert (0 <= blen value /\ 0 <= blen (FormatUint maximum)) as [Hb1 Hb2] by (unfold blen; lia).
    assert (1 <= blen value) as Hb3 by (unfold blen in *; destruct value; [done|]; cbn; lia).
    assert (0 < 10 ^ (blen value - 1)) as Hpos by (apply Z.pow_pos_nonneg; lia).
    assert ((blen (FormatUint maximum) <? blen value) || ((blen value =? blen (FormatUint maximum)) && string_gt value (FormatUint maximum)) = (maximum <? num value)) as ->.
    { apply eq_iff_eq_true. rewrite orb_true_iff, andb_true_iff, !Z.ltb_lt, Z.eqb_eq. unfold string_gt.
      destruct (Z.lt_trichotomy (blen value) (blen (FormatUint maximum))) as [H|[H|H]].
      - pose proof (Hmono (blen value) (blen (FormatUint maximum) - 1) ltac:(lia) ltac:(lia)). split; [intros [?|[? _]]; lia|lia].
      - rewrite (Compare_digits value _ Td Fd) by (unfold blen in H; lia). rewrite Fp. destruct (Z.compare_spec (num value) maximum); (split; [intros [?|[_ ?]]; [lia|done || lia]|intros ?; first [lia|by right]]).
      - pose proof (Hmono (blen (FormatUint maximum)) (blen value - 1) ltac:(lia) ltac:(lia)). split; [lia|]. by left. }
    rewrite Hp. rewrite Tn in *. destruct (Z.ltb_spec maximum (num raw)) as [H|H]; [split; [done|]; intros (_ & _ & -> & ?); lia|].
    decide_ltb. split; [intros [= <-]; split_and!; try done; lia|]. by intros (_ & _ & -> & _).
Qed.

(** ** Boxes on the globe *)

(** A box by its corners, with heights or without. *)
Record box_request := mkRequest { b_west : f64; b_south : f64; b_east : f64; b_north : f64; b_heights : option (f64 * f64) }.

Definition request_values (b : box_request) : list f64 :=
  match b_heights b with
  | None => [b_west b; b_south b; b_east b; b_north b]
  | Some (bottom, top) => [b_west b; b_south b; bottom; b_east b; b_north b; top]
  end.

(** Longitudes go east from the first to the second, across the antimeridian if need be. *)
Definition between_longitudes (west east x : Q) : Prop := if Qle_bool west east then (west <= x <= east)%Q else (west <= x \/ x <= east)%Q.

Definition in_request (b : box_request) (q : vec) : Prop :=
  between_longitudes (coord (b_west b)) (coord (b_east b)) (comp q 0) /\ (coord (b_south b) <= comp q 1 <= coord (b_north b))%Q
  /\ match b_heights b with Some (bottom, top) => (coord bottom <= comp q 2 <= coord top)%Q | None => True end.

(** The corners are finite and in order, longitudes apart. *)
Record ordered_request (b : box_request) : Prop := {
  or_finite : Forall finite (request_values b);
  or_latitudes : (coord (b_south b) <= coord (b_north b))%Q;
  or_heights : forall bottom top, b_heights b = Some (bottom, top) -> (coord bottom <= coord top)%Q
}.

(** Longitudes and latitudes in degrees. *)
Record geographic_request (b : box_request) : Prop := {
  gr_west : (-180 <= coord (b_west b) <= 180)%Q; gr_east : (-180 <= coord (b_east b) <= 180)%Q;
  gr_south : (-90 <= coord (b_south b) <= 90)%Q; gr_north : (-90 <= coord (b_north b) <= 90)%Q
}.

Definition request_bounds (b : box_request) : list Extent :=
  match b_heights b with None => flat_bounds (b_west b) (b_south b) (b_east b) (b_north b) | Some _ => [] end.

Definition request_bounds3D (b : box_request) : list Box :=
  match b_heights b with None => [] | Some (bottom, top) => space_bounds (b_west b) (b_south b) bottom (b_east b) (b_north b) top end.

Lemma finite_constants : finite f180 /\ finite fm180 /\ finite f90 /\ finite fm90.
Proof. by vm_compute. Qed.

Lemma coord_constants : (coord f180 == 180 /\ coord fm180 == -180 /\ coord f90 == 90 /\ coord fm90 == -90)%Q.
Proof. by vm_compute. Qed.

Lemma outside_spec (lo hi v : f64) : finite lo -> finite hi -> finite v -> outside lo hi v = false <-> (coord lo <= coord v <= coord hi)%Q.
Proof. intros Hl Hh Hv. unfold outside. rewrite orb_false_iff, !ordered_coord by done. done. Qed.

Lemma outside_domain_spec (b : box_request) :
  Forall finite [b_west b; b_south b; b_east b; b_north b] -> outside_domain (b_west b) (b_south b) (b_east b) (b_north b) = false <-> geographic_request b.
Proof.
  rewrite !Forall_cons. intros (Hw & Hs & He & Hn & _). destruct finite_constants as (F1 & F2 & F3 & F4), coord_constants as (C1 & C2 & C3 & C4).
  unfold outside_domain. rewrite !orb_false_iff, !outside_spec, C1, C2, C3, C4 by done. split; [intros (((Ha & Hb) & Hc) & Hd); exact (Build_geographic_request b Ha Hb Hc Hd)|intros [Ha Hb Hc Hd]; exact (conj (conj (conj Ha Hb) Hc) Hd)].
Qed.

Lemma finite_corners (b : box_request) : Forall finite (request_values b) -> Forall finite [b_west b; b_south b; b_east b; b_north b].
Proof. unfold request_values. destruct (b_heights b) as [[bottom top]|]; rewrite !Forall_cons; tauto. Qed.

Lemma exists_in_nil {A : Type} (P : A -> Prop) : (exists e, e ∈ ([] : list A) /\ P e) <-> False.
Proof. split; [by intros (e & []%elem_of_nil & _)|done]. Qed.

Lemma exists_in_cons {A : Type} (P : A -> Prop) (x : A) (l : list A) : (exists e, e ∈ x :: l /\ P e) <-> P x \/ (exists e, e ∈ l /\ P e).
Proof.
  split; [intros (e & [->|He]%elem_of_cons & Hp); eauto|].
  intros [Hp|(e & He & Hp)]; [exists x|exists e]; (split; [|done]); [left|by right].
Qed.

Lemma extent_valid (west south east north : f64) :
  finite west -> finite south -> finite east -> finite north -> (coord west <= coord east)%Q -> (coord south <= coord north)%Q ->
  valid_extent (mkExtent west south east north).
Proof. intros. split; cbn -[coord]; [|done..]. by rewrite !Forall_cons, Forall_nil. Qed.

Lemma box_valid (west south bottom east north top : f64) :
  valid_extent (mkExtent west south east north) -> finite bottom -> finite top -> (coord bottom <= coord top)%Q ->
  valid_box (mkBox (west, south, bottom) (east, north, top)).
Proof.
  intros [Hf Hx Hy] Hb Ht Hz. cbn -[coord] in *. rewrite !Forall_cons in Hf. destruct Hf as (? & ? & ? & ? & _).
  split; unfold finite3; cbn -[coord]; rewrite !Forall_cons, Forall_nil; done.
Qed.

Section Bounds.
Context (b : box_request) (Ho : ordered_request b).

Lemma west_east : float_le (b_west b) (b_east b) = Qle_bool (coord (b_west b)) (coord (b_east b)).
Proof using Ho.
  pose proof (finite_corners b (or_finite b Ho)) as Hf. rewrite !Forall_cons in Hf. destruct Hf as (Hw & _ & He & _).
  apply eq_iff_eq_true. by rewrite float_le_coord, Qle_bool_iff.
Qed.

(** The boxes are valid. *)
Lemma request_bounds_valid :
  Qle_bool (coord (b_west b)) (coord (b_east b)) = true \/ geographic_request b ->
  Forall valid_extent (request_bounds b) /\ Forall valid_box (request_bounds3D b).
Proof using Ho.
  intros Hg. pose proof (finite_corners b (or_finite b Ho)) as Hc. rewrite !Forall_cons in Hc. destruct Hc as (Hw & Hs & He & Hn & _).
  pose proof (or_latitudes b Ho) as Hl. destruct finite_constants as (F1 & F2 & _ & _), coord_constants as (C1 & C2 & _ & _).
  assert (Forall valid_extent (flat_bounds (b_west b) (b_south b) (b_east b) (b_north b))) as Hv.
  { unfold flat_bounds. rewrite west_east. destruct (Qle_bool _ _) eqn:E.
    - apply Qle_bool_iff in E. apply Forall_cons; split; [by apply extent_valid|constructor].
    - destruct Hg as [?|[[W1 W2] [E1 E2] _ _]]; [done|].
      apply Forall_cons; split; [apply extent_valid; rewrite ?C1; done|]. apply Forall_cons; split; [apply extent_valid; rewrite ?C2; done|constructor]. }
  pose proof (or_finite b Ho) as Hf. unfold request_bounds, request_bounds3D. destruct (b_heights b) as [[bottom top]|] eqn:Eh; [|by split].
  split; [constructor|]. pose proof (or_heights b Ho bottom top Eh) as Hz. unfold request_values in Hf. rewrite Eh, !Forall_cons in Hf.
  destruct Hf as (_ & _ & Hb & _ & _ & Ht & _). unfold flat_bounds, space_bounds in *. revert Hv.
  destruct (float_le (b_west b) (b_east b)); rewrite !Forall_cons, Forall_nil.
  - intros [H1 _]. split; [by apply box_valid|constructor].
  - intros (H1 & H2 & _). split; [by apply box_valid|]. split; [by apply box_valid|constructor].
Qed.

(** They cover the box asked for; across the antimeridian, of the longitudes in degrees. *)
Lemma request_bounds_cover (q : vec) :
  Qle_bool (coord (b_west b)) (coord (b_east b)) = true \/ (-180 <= comp q 0 <= 180)%Q ->
  (exists e, e ∈ request_bounds b /\ in_extent e (comp q 0, comp q 1)) \/ (exists e, e ∈ request_bounds3D b /\ in_box3 e q) <-> in_request b q.
Proof using Ho.
  intros Hg. destruct coord_constants as (C1 & C2 & _ & _). unfold request_bounds, request_bounds3D, in_request, flat_bounds, space_bounds, between_longitudes. rewrite west_east.
  destruct (b_heights b) as [[bottom top]|], (Qle_bool (coord (b_west b)) (coord (b_east b))); rewrite ?exists_in_cons, !exists_in_nil;
    unfold in_extent, Plane.in_rect, in_box3; rewrite ?Forall_cons, ?Forall_nil; cbn [fst snd e_minx e_miny e_maxx e_maxy box_min box_max axis3];
    rewrite ?C1, ?C2; try (destruct Hg as [Hg|Hg]; [discriminate|]); clear C1 C2;
    generalize (coord (b_west b)), (coord (b_east b)), (coord (b_south b)), (coord (b_north b)); revert Hg;
    try (generalize (coord bottom), (coord top)); generalize (comp q 0), (comp q 1), (comp q 2); clear Ho;
    intros; lra || (split; intros H; lra || tauto).
Qed.
End Bounds.

(** ** Lemmas: the parameters *)

Lemma decimalDigits_iff (s : gostring) : decimalDigits s = true <-> digits s /\ s <> [].
Proof. unfold decimalDigits, digits. rewrite andb_true_iff, negb_true_iff, beq_false. tauto. Qed.

Section Values.
Context (ParseFloat : gostring -> option f64).

(** The numbers a text spells. *)
Definition spells_numbers (parts : list gostring) (vs : list f64) : Prop := Forall2 (fun p v => ParseFloat p = Some v) parts vs.

Lemma bbox_values_iff (parts : list gostring) (vs : list f64) :
  bbox_values ParseFloat parts = Some vs <-> spells_numbers parts vs /\ Forall finite vs.
Proof using.
  unfold spells_numbers. revert vs. induction parts as [|p parts IH]; intros vs; cbn [bbox_values].
  - split; [intros [= <-]; split; constructor|]. intros [H _]. by inversion H.
  - split.
    + destruct (ParseFloat p) as [v|] eqn:Ep; cbn [mbind option_bind]; [|done]. destruct (nonfinite v) eqn:En; [done|].
      destruct (bbox_values ParseFloat parts) as [l|]; cbn [mbind option_bind]; [|done]. intros [= <-]. destruct (proj1 (IH l) eq_refl).
      apply finite_nonfinite in En. by split; constructor.
    + intros [H Hf]. inversion H as [|? v ? l Hp Hl]; subst. apply Forall_cons in Hf as [Hv Hf]. apply finite_nonfinite in Hv.
      rewrite Hp. cbn [mbind option_bind]. rewrite Hv. by rewrite (proj2 (IH l) (conj Hl Hf)).
Qed.

(** The bounds of a query for a box. *)
Definition place (b : box_request) (q : FeatureQuery) : FeatureQuery :=
  match b_heights b with
  | None => with_bounds q (request_bounds b) (q_Bounds3D q) (q_BoundsVerticalCRS q) 4326 (q_BoundsCRSDefinition q)
  | Some _ => with_bounds q (q_Bounds q) (request_bounds3D b) CRS84h 4326 (q_BoundsCRSDefinition q)
  end.

Lemma parseFeatureBounds_iff (raw : gostring) (q q' : FeatureQuery) :
  parseFeatureBounds ParseFloat raw q = Some q' <->
  exists b, spells_numbers (SplitByte "," raw) (request_values b) /\ ordered_request b /\ geographic_request b /\ q' = place b q.
Proof using.
  unfold parseFeatureBounds.
  assert (forall vs, bbox_values ParseFloat (SplitByte "," raw) = Some vs -> length (SplitByte "," raw) = length vs) as Hlen.
  { intros vs [H _]%bbox_values_iff. by apply Forall2_length in H. }
  split.
  - destruct (negb _ && _); [done|]. destruct (bbox_values ParseFloat (SplitByte "," raw)) as [vs|] eqn:Ev; cbn [mbind option_bind]; [|done].
    apply bbox_values_iff in Ev as [Em Hf]. clear Hlen. destruct vs as [|w [|s [|c [|d [|e [|f [|]]]]]]]; try done.
    + destruct (outside_domain w s c d || _) eqn:E; [done|]. intros [= <-]. apply orb_false_iff in E as [Ed Es]. exists (mkRequest w s c d None).
      pose proof (outside_domain_spec (mkRequest w s c d None) Hf) as Hdom. cbn [b_west b_south b_east b_north] in Hdom. apply Hdom in Ed.
      rewrite !Forall_cons in Hf. split; [exact Em|]. split; [|by split]. split; [unfold request_values; cbn; rewrite !Forall_cons; tauto|apply ordered_coord; [tauto..|exact Es]|discriminate].
    + destruct (outside_domain w s d e || _) eqn:E; [done|]. destruct (float_lt f c) eqn:Eh; [done|]. intros [= <-]. apply orb_false_iff in E as [Ed Es]. exists (mkRequest w s d e (Some (c, f))).
      assert (Forall finite [w; s; d; e]) as Hf' by (rewrite !Forall_cons in *; tauto).
      pose proof (outside_domain_spec (mkRequest w s d e (Some (c, f))) Hf') as Hdom. cbn [b_west b_south b_east b_north] in Hdom. apply Hdom in Ed.
      split; [exact Em|]. split; [|by split]. split; [exact Hf|rewrite !Forall_cons in Hf; apply ordered_coord; [tauto..|exact Es]|].
      intros ? ? [= <- <-]. rewrite !Forall_cons in Hf. apply ordered_coord; [tauto..|exact Eh].
  - intros (b & Em & Ho & Hg & ->). pose proof (or_finite b Ho) as Hf. pose proof (finite_corners b Hf) as Hc.
    pose proof (proj2 (outside_domain_spec b Hc) Hg) as Hd. rewrite !Forall_cons in Hc. destruct Hc as (Hw & Hs & He & Hn & _).
    pose proof (proj2 (ordered_coord _ _ Hs Hn) (or_latitudes b Ho)) as Hl. pose proof (or_heights b Ho) as Hh.
    assert (bbox_values ParseFloat (SplitByte "," raw) = Some (request_values b)) as Ev by by apply bbox_values_iff.
    rewrite Ev, (Hlen _ Ev). unfold request_values, place, request_bounds, request_bounds3D in *.
    destruct (b_heights b) as [[bottom top]|]; cbn [mbind option_bind length Nat.eqb negb andb]; rewrite Hd, Hl; cbn [orb]; [|done].
    specialize (Hh bottom top eq_refl). rewrite !Forall_cons in Hf. apply ordered_coord in Hh; [|tauto..]. by rewrite Hh.
Qed.
End Values.

(** ** Lemmas: boxes in other reference systems *)

(** A corner in the order of the axes of the reference system. *)
Definition swap_axes (swapped : bool) (p : list f64) : list f64 := match swapped, p with true, x :: y :: rest => y :: x :: rest | _, _ => p end.

Definition lower (b : box_request) : list f64 := b_west b :: b_south b :: match b_heights b with None => [] | Some (bottom, _) => [bottom] end.
Definition upper (b : box_request) : list f64 := b_east b :: b_north b :: match b_heights b with None => [] | Some (_, top) => [top] end.

Definition wire_values (swapped : bool) (b : box_request) : list f64 := swap_axes swapped (lower b) ++ swap_axes swapped (upper b).

(** A box the reference system admits. *)
Record crs_request (c : CRS) (b : box_request) : Prop := {
  cr_projection : crs_projection c = true;
  cr_dimension : crs_dimension c = match b_heights b with None => 2%nat | Some _ => 3%nat end;
  cr_ordered : ordered_request b;
  cr_domain : if crs_geographic c then geographic_request b else (coord (b_west b) <= coord (b_east b))%Q
}.

Definition place_crs (c : CRS) (b : box_request) (q : FeatureQuery) : FeatureQuery :=
  with_bounds q (request_bounds b) (request_bounds3D b) (match b_heights b with None => [] | Some _ => CRS84h end) (crs_srid c) (crs_definition c).

Lemma orderPosition_finite (c : CRS) (p : list f64) :
  crs_projection c = true -> length p = crs_dimension c -> Forall finite p -> orderPosition c p = Some (swap_axes (crs_swapped c) p).
Proof.
  intros Hp Hl Hf. unfold orderPosition. rewrite Hp, Hl, Nat.eqb_refl. cbn [negb orb].
  assert (existsb nonfinite p = false) as ->. { apply existsb_false. eapply Forall_impl; [exact Hf|]. intros v Hv. by apply finite_nonfinite. }
  unfold swap_axes. by destruct (crs_swapped c), p as [|x [|y p]].
Qed.

Lemma wire_finite (swapped : bool) (b : box_request) : Forall finite (wire_values swapped b) <-> Forall finite (request_values b).
Proof.
  unfold wire_values, lower, upper, request_values. destruct swapped, (b_heights b) as [[bottom top]|]; cbn [swap_axes app]; rewrite !Forall_cons, Forall_nil; tauto.
Qed.

(** Every list of four or six values is the corners of a box in any order of axes. *)
Lemma wire_box (swapped : bool) (dimension : nat) (vs : list f64) :
  dimension = 2%nat \/ dimension = 3%nat -> length vs = (dimension * 2)%nat ->
  exists b, vs = wire_values swapped b /\ dimension = match b_heights b with None => 2%nat | Some _ => 3%nat end.
Proof.
  intros [->| ->] Hl; destruct vs as [|v1 [|v2 [|v3 [|v4 [|v5 [|v6 [|]]]]]]]; try discriminate Hl; destruct swapped.
  - by exists (mkRequest v2 v1 v4 v3 None).
  - by exists (mkRequest v1 v2 v3 v4 None).
  - by exists (mkRequest v2 v1 v5 v4 (Some (v3, v6))).
  - by exists (mkRequest v1 v2 v4 v5 (Some (v3, v6))).
Qed.

Section Corners.
Context (c : CRS) (b : box_request) (Hd : crs_dimension c = match b_heights b with None => 2%nat | Some _ => 3%nat end).

Lemma wire_length (swapped : bool) : length (wire_values swapped b) = (crs_dimension c * 2)%nat.
Proof using Hd. rewrite Hd. unfold wire_values, lower, upper. by destruct swapped, (b_heights b) as [[]|]. Qed.

(** The halves of the wire are the corners in the order of the model. *)
Lemma wire_halves :
  length (take (crs_dimension c) (wire_values (crs_swapped c) b)) = crs_dimension c
  /\ length (drop (crs_dimension c) (wire_values (crs_swapped c) b)) = crs_dimension c
  /\ swap_axes (crs_swapped c) (take (crs_dimension c) (wire_values (crs_swapped c) b)) = lower b
  /\ swap_axes (crs_swapped c) (drop (crs_dimension c) (wire_values (crs_swapped c) b)) = upper b.
Proof using Hd. rewrite Hd. unfold wire_values, lower, upper. by destruct (crs_swapped c), (b_heights b) as [[]|]. Qed.

Lemma ordered_corners :
  Forall finite (request_values b) -> crs_projection c = true ->
  orderPosition c (take (crs_dimension c) (wire_values (crs_swapped c) b)) = Some (lower b)
  /\ orderPosition c (drop (crs_dimension c) (wire_values (crs_swapped c) b)) = Some (upper b).
Proof using Hd.
  intros Hf Hp. apply (wire_finite (crs_swapped c)) in Hf. destruct wire_halves as (H1 & H2 & H3 & H4).
  rewrite (orderPosition_finite c _ Hp H1), (orderPosition_finite c _ Hp H2), H3, H4 by (by apply Forall_take || by apply Forall_drop). done.
Qed.
End Corners.

Lemma orderPosition_projection (c : CRS) (p r : list f64) : orderPosition c p = Some r -> crs_projection c = true.
Proof. unfold orderPosition. by destruct (crs_projection c). Qed.

(** A box in another reference system is read as the system admits it. *)
Lemma parseFeatureBoundsCRS_iff (ParseFloat : gostring -> option f64) (raw : gostring) (c : CRS) (q q' : FeatureQuery) :
  crs_dimension c = 2%nat \/ crs_dimension c = 3%nat ->
  parseFeatureBoundsCRS ParseFloat raw c q = Some q' <->
  exists b, spells_numbers ParseFloat (SplitByte "," raw) (wire_values (crs_swapped c) b) /\ crs_request c b /\ q' = place_crs c b q.
Proof.
  intros Hdim. unfold parseFeatureBoundsCRS. split.
  - destruct (length _ =? _)%nat eqn:El; cbn [negb]; [|done]. apply Nat.eqb_eq in El.
    destruct (bbox_values ParseFloat (SplitByte "," raw)) as [vs|] eqn:Ev; cbn [mbind option_bind]; [|done].
    apply bbox_values_iff in Ev as [Em Hf]. pose proof (Forall2_length _ _ _ Em) as Hl.
    destruct (wire_box (crs_swapped c) (crs_dimension c) vs Hdim ltac:(congruence)) as (b & -> & Hd). apply wire_finite in Hf.
    destruct (crs_projection c) eqn:Hp; [|by unfold orderPosition; rewrite Hp].
    destruct (ordered_corners c b Hd Hf Hp) as [-> ->]. cbn [mbind option_bind]. unfold lower, upper.
    pose proof (finite_corners b Hf) as Hc. pose proof (outside_domain_spec b Hc) as Hdom. rewrite !Forall_cons in Hc. destruct Hc as (Hw & Hs & He & Hn & _).
    destruct (float_lt (b_north b) (b_south b) || _) eqn:E1; [done|]. destruct (crs_geographic c && _) eqn:E2; [done|].
    apply orb_false_iff in E1 as [El1 Eg]. apply ordered_coord in El1; [|done..]. intros H. exists b. split; [exact Em|].
    assert (if crs_geographic c then geographic_request b else (coord (b_west b) <= coord (b_east b))%Q) as Hg.
    { destruct (crs_geographic c); [by apply Hdom|]. by apply ordered_coord. }
    unfold request_values in Hf. unfold place_crs, request_bounds, request_bounds3D.
    destruct (b_heights b) as [[bottom top]|] eqn:Eh; rewrite Hd in H; cbn [Nat.eqb] in H.
    + destruct (float_lt top bottom) eqn:Et; [done|]. injection H as <-. split; [|done]. split; try done; [by rewrite Eh|].
      split; [unfold request_values; by rewrite Eh|done|]. intros ? ? E. rewrite Eh in E. injection E as <- <-. rewrite !Forall_cons in Hf. apply ordered_coord; tauto.
    + injection H as <-. split; [|done]. split; try done; [by rewrite Eh|]. split; [unfold request_values; by rewrite Eh|done|congruence].
  - intros (b & Em & [Hp Hd Ho Hg] & ->). pose proof (or_finite b Ho) as Hf. pose proof (finite_corners b Hf) as Hc.
    pose proof (outside_domain_spec b Hc) as Hdom. rewrite !Forall_cons in Hc. destruct Hc as (Hw & Hs & He & Hn & _).
    pose proof (proj2 (ordered_coord _ _ Hs Hn) (or_latitudes b Ho)) as Hl. pose proof (or_heights b Ho) as Hh.
    pose proof (Forall2_length _ _ _ Em) as Hlen. rewrite (wire_length c b Hd) in Hlen. rewrite Hlen, Nat.eqb_refl. cbn [negb].
    rewrite (proj2 (bbox_values_iff ParseFloat _ _) (conj Em (proj2 (wire_finite _ _) Hf))). cbn [mbind option_bind].
    destruct (ordered_corners c b Hd Hf Hp) as [-> ->]. cbn [mbind option_bind]. unfold lower, upper. rewrite Hl. cbn [orb].
    assert (negb (crs_geographic c) && float_lt (b_east b) (b_west b) = false) as ->. { destruct (crs_geographic c); [done|]. by apply ordered_coord. }
    assert (crs_geographic c && outside_domain (b_west b) (b_south b) (b_east b) (b_north b) = false) as ->. { destruct (crs_geographic c); [by apply Hdom|done]. }
    unfold place_crs, request_bounds, request_bounds3D, request_values in *. rewrite Hd.
    destruct (b_heights b) as [[bottom top]|]; cbn [Nat.eqb]; [|done]. rewrite !Forall_cons in Hf.
    specialize (Hh bottom top eq_refl). apply ordered_coord in Hh; [|tauto..]. by rewrite Hh.
Qed.

(** C26. Boxes in other reference systems are read exactly.  A text is accepted if and only
    if it spells the corners of a box in the order of the axes of the system, first
    latitude and then longitude where the system says so, with as many numbers as it has
    dimensions, in order and, for a geographic system, in degrees; the bounds of the
    query then contain exactly the positions of that box. *)
Theorem parseFeatureBoundsCRS_exact (ParseFloat : gostring -> option f64) (raw : gostring) (c : CRS) (q q' : FeatureQuery) :
  crs_dimension c = 2%nat \/ crs_dimension c = 3%nat ->
  (parseFeatureBoundsCRS ParseFloat raw c q = Some q' <->
   exists b, spells_numbers ParseFloat (SplitByte "," raw) (wire_values (crs_swapped c) b) /\ crs_request c b /\ q' = place_crs c b q)
  /\ (parseFeatureBoundsCRS ParseFloat raw c q = Some q' ->
      exists b, spells_numbers ParseFloat (SplitByte "," raw) (wire_values (crs_swapped c) b)
        /\ Forall valid_extent (q_Bounds q') /\ Forall valid_box (q_Bounds3D q')
        /\ forall p, (crs_geographic c = true -> -180 <= comp p 0 <= 180)%Q ->
             (exists e, e ∈ q_Bounds q' /\ in_extent e (comp p 0, comp p 1)) \/ (exists e, e ∈ q_Bounds3D q' /\ in_box3 e p) <-> in_request b p).
Proof.
  intros Hdim. split; [by apply parseFeatureBoundsCRS_iff|]. intros (b & Hs & [_ _ Ho Hg] & ->)%parseFeatureBoundsCRS_iff; [|done]. exists b. split; [done|].
  assert (Qle_bool (coord (b_west b)) (coord (b_east b)) = true \/ geographic_request b) as Hd by (destruct (crs_geographic c); [by right|left; by apply Qle_bool_iff]).
  destruct (request_bounds_valid b Ho Hd) as [V1 V2]. split; [exact V1|]. split; [exact V2|].
  intros p Hp. apply (request_bounds_cover b Ho p). destruct (crs_geographic c); [right; by apply Hp|left; by apply Qle_bool_iff].
Qed.

(** ** Lemmas: the query *)

Lemma ParseUint_digits (v : gostring) (n : Z) : digits v -> v <> [] -> ParseUint v 64 = Some n <-> n = num v /\ n < 2 ^ 64.
Proof.
  intros Hd Hne. unfold ParseUint. rewrite (parse_digits_num v Hd). destruct v as [|c r]; [done|]. set (v := c :: r).
  destruct (Z.ltb_spec (num v) (2 ^ 64)); split; try done; [by intros [= <-]|by intros [-> _]|intros [-> ?]; lia].
Qed.

(** The value of a parameter. *)
Definition value (ps : Values) (key : gostring) : option gostring := ps !! key ≫= head.

Lemma optional_iff {A : Type} (ps : Values) (key : gostring) (absent a : A) (step : gostring -> option A) :
  optional ps key absent step = Some a <-> match value ps key with Some v => step v = Some a | None => a = absent end.
Proof. unfold optional, value. destruct (ps !! key) as [[|v vs]|]; cbn; [|done|]; split; congruence. Qed.

(** Known names, each with one value. *)
Definition single_known (ps : Values) : Prop := forall k vs, ps !! k = Some vs -> k ∈ known_parameters /\ exists v, vs = [v].

Lemma parameters_ok_iff (ps : Values) : parameters_ok ps = true <-> single_known ps.
Proof.
  unfold parameters_ok, single_known. rewrite forallb_forall. split.
  - intros H k vs Hk. apply elem_of_map_to_list, list_elem_of_In in Hk. apply H in Hk as [Hn Hl]%andb_prop. apply existsb_exists in Hn as (k' & Hin & E).
    cbn [fst] in E. apply beq_true in E as ->. apply list_elem_of_In in Hin. split; [done|]. cbn [snd] in Hl. destruct vs as [|v [|]]; try done. by exists v.
  - intros H [k vs] Hk%list_elem_of_In%elem_of_map_to_list. destruct (H k vs Hk) as [Hn [v ->]]. rewrite andb_true_iff. split; [|done].
    apply existsb_exists. exists k. split; [by apply list_elem_of_In|by apply beq_true].
Qed.

Section Single.
Context (ps : Values) (Hs : single_known ps).

Lemma present_value (key : gostring) : present ps key = bool_decide (is_Some (value ps key)).
Proof using Hs.
  apply bool_decide_ext. unfold value. destruct (ps !! key) as [vs|] eqn:E; [|by cbn; split; intros [? ?]]. destruct (Hs _ _ E) as [_ [v ->]]. cbn. split; by eexists.
Qed.

Lemma Get_value (key : gostring) : Get ps key = default [] (value ps key).
Proof using. unfold Get, value. by destruct (ps !! key) as [[|]|]. Qed.

Lemma blank_crs_iff : blank_crs ps = false <-> value ps (B "crs") <> Some [] /\ value ps (B "bbox-crs") <> Some [].
Proof using.
  assert (forall key, match ps !! key with Some (v :: _) => beq v [] | _ => false end = false <-> value ps key <> Some []) as H.
  { intros key. unfold value. destruct (ps !! key) as [[|v vs]|]; cbn [mbind option_bind head]; [done| |done]. rewrite beq_false. split; congruence. }
  unfold blank_crs. cbn [existsb]. rewrite !orb_false_iff, !H. tauto.
Qed.
End Single.

(** A query without bounds. *)
Definition unbounded (limit offset : Z) (temporal : option TemporalConstraint) (filter : option FilterExpression) : FeatureQuery :=
  mkQuery [] [] [] 0 [] temporal filter [] limit offset [].

Definition rejoin (q : FeatureQuery) (temporal : option TemporalConstraint) (filter : option FilterExpression) (limit offset : Z) : FeatureQuery :=
  mkQuery (q_Bounds q) (q_Bounds3D q) (q_BoundsVerticalCRS q) (q_BoundsSRID q) (q_BoundsCRSDefinition q) temporal filter [] limit offset [].

Lemma rejoin_place (b : box_request) (limit offset : Z) (temporal : option TemporalConstraint) (filter : option FilterExpression) :
  rejoin (place b (unbounded limit offset None None)) temporal filter limit offset = place b (unbounded limit offset temporal filter).
Proof. unfold place. by destruct (b_heights b). Qed.

(** The final validation accepts a query whose parts are valid and whose window fits. *)
Lemma Query_Validate_parts (limit offset : Z) (temporal : option TemporalConstraint) (filter : option FilterExpression) (b : option box_request) :
  0 < limit < 2 ^ 64 -> 0 <= offset ->
  (forall t, temporal = Some t -> TemporalConstraint_Validate t = Ok tt) -> (forall f, filter = Some f -> Expression_Validate f = Ok tt) ->
  (forall r, b = Some r -> ordered_request r /\ geographic_request r) ->
  let q := unbounded limit offset temporal filter in
  Query_Validate (from_option (fun r => place r q) q b) = Ok tt <-> offset + limit < 2 ^ 64.
Proof.
  intros Hl Ho Ht Hf Hb q. unfold Query_Validate. rewrite !rbind_unit, !reject_Ok, !rfold_check.
  set (q' := from_option (fun r => place r q) q b).
  assert (q_Limit q' = limit /\ q_Offset q' = offset /\ q_Temporal q' = temporal /\ q_Filter q' = filter /\ q_Fields q' = [] /\ q_BoundsCRSDefinition q' = []) as (-> & -> & -> & -> & -> & ->).
  { unfold q', q. destruct b as [r|]; cbn [from_option]; [|done]. unfold place. by destruct (b_heights r). }
  rewrite Z.eqb_neq, Z.ltb_ge. split; [intros (_ & ? & _); lia|]. intros Hw.
  assert (match temporal with Some t => TemporalConstraint_Validate t | None => Ok tt end = Ok tt) as -> by (destruct temporal; [by apply Ht|done]).
  assert (match filter with Some f => Expression_Validate f | None => Ok tt end = Ok tt) as -> by (destruct filter; [by apply Hf|done]).
  split; [lia|]. split; [lia|]. destruct b as [r|]; cbn [from_option] in q'; [|unfold q'; cbn; split_and!; try done; constructor].
  destruct (Hb r eq_refl) as [Hor Hg]. destruct (request_bounds_valid r Hor (or_intror Hg)) as [V1 V2]. unfold q', place, request_bounds, request_bounds3D, flat_bounds, space_bounds in *.
  destruct (b_heights r) as [[bottom top]|]; cbn [with_bounds q_Bounds q_Bounds3D q_BoundsSRID q_BoundsVerticalCRS hasBounds] in *;
    destruct (float_le (b_west r) (b_east r)); split_and!; try done; try (eapply Forall_impl; [eassumption|]; intros e; by apply validate_bounds_Ok || by apply validate_bounds3d_Ok).
Qed.

(** ** The query of a request *)

(** What the parameters ask for, and the query that says it. *)
Record items_request (ParseFloat : gostring -> option f64) (defaultLimit maxLimit : Z) (ps : Values) (q : FeatureQuery) : Prop := {
  ir_names : single_known ps;
  ir_crs : value ps (B "crs") <> Some [] /\ value ps (B "bbox-crs") <> Some [];
  ir_bbox_crs : is_Some (value ps (B "bbox-crs")) -> is_Some (value ps (B "bbox"));
  ir_language : forall v, value ps (B "filter-lang") = Some v -> v = B "cql2-text" /\ is_Some (value ps (B "filter"));
  ir_limit : match value ps (B "limit") with
             | Some v => digits v /\ v <> [] /\ q_Limit q = num v /\ 1 <= num v <= maxLimit
             | None => q_Limit q = defaultLimit
             end;
  ir_offset : match value ps (B "offset") with Some v => digits v /\ v <> [] /\ q_Offset q = num v | None => q_Offset q = 0 end;
  ir_window : q_Offset q + q_Limit q < 2 ^ 64;
  ir_datetime : match value ps (B "datetime") with
                | Some v => q_Temporal q = parseFeatureDatetime v /\ is_Some (q_Temporal q)
                | None => q_Temporal q = None
                end;
  ir_filter : match value ps (B "filter") with
              | Some v => TrimSpace v <> [] /\ exists f, Parse v = Ok f /\ q_Filter q = Some f
              | None => q_Filter q = None
              end;
  ir_bounds : let q0 := unbounded (q_Limit q) (q_Offset q) (q_Temporal q) (q_Filter q) in
              match value ps (B "bbox"), value ps (B "bbox-crs") with
              | Some v, None => exists b, spells_numbers ParseFloat (SplitByte "," v) (request_values b) /\ ordered_request b /\ geographic_request b /\ q = place b q0
              | _, _ => q = q0
              end
}.

Lemma Datetime_valid (v : gostring) (c : TemporalConstraint) : parseFeatureDatetime v = Some c -> TemporalConstraint_Validate c = Ok tt.
Proof.
  unfold parseFeatureDatetime. intros (c' & _ & H)%bind_Some. destruct (TemporalConstraint_Validate c') as [[]|] eqn:E; [|done]. by injection H as <-.
Qed.

Lemma decimal_offset (v : gostring) (n : Z) : (if negb (decimalDigits v) then None else ParseUint v 64) = Some n <-> digits v /\ v <> [] /\ n = num v /\ n < 2 ^ 64.
Proof.
  pose proof (decimalDigits_iff v) as H. destruct (decimalDigits v); cbn [negb].
  - destruct (proj1 H eq_refl) as [Hd Hn]. rewrite (ParseUint_digits v n Hd Hn). tauto.
  - split; [done|]. intros (Hd & Hn & _). by pose proof (proj2 H (conj Hd Hn)).
Qed.

Lemma num_nonneg (v : gostring) : digits v -> 0 <= num v.
Proof. intros Hd. apply (num_range (length v) v). by split. Qed.

Section Query.
Context (ParseFloat : gostring -> option f64).
Context (defaultLimit maxLimit : Z) (Hmax : 0 < defaultLimit <= maxLimit) (Hwide : maxLimit < 2 ^ 64).

(** The steps of the parser, in order. *)
Lemma parseItemsQuery_steps (raw : gostring) (q : FeatureQuery) (ps : Values) :
  parseItemsQuery ParseFloat defaultLimit maxLimit raw = Some (q, ps) <->
  ParseQuery raw = Some ps /\ single_known ps /\ (value ps (B "crs") <> Some [] /\ value ps (B "bbox-crs") <> Some [])
  /\ (is_Some (value ps (B "bbox-crs")) -> is_Some (value ps (B "bbox")))
  /\ exists limit offset q1 temporal filter,
       match value ps (B "limit") with Some v => parsePageLimit v maxLimit = Some limit | None => limit = defaultLimit end
       /\ match value ps (B "offset") with Some v => (if negb (decimalDigits v) then None else ParseUint v 64) = Some offset | None => offset = 0 end
       /\ match value ps (B "bbox"), value ps (B "bbox-crs") with
          | Some v, None => parseFeatureBounds ParseFloat v (unbounded limit offset None None) = Some q1
          | _, _ => q1 = unbounded limit offset None None
          end
       /\ match value ps (B "datetime") with Some v => Some <$> parseFeatureDatetime v = Some temporal | None => temporal = None end
       /\ (forall v, value ps (B "filter-lang") = Some v -> v = B "cql2-text" /\ is_Some (value ps (B "filter")))
       /\ match value ps (B "filter") with
          | Some v => (if beq (TrimSpace v) [] then None else match Parse v with Ok f => Some (Some f) | Err _ => None end) = Some filter
          | None => filter = None
          end
       /\ Query_Validate (rejoin q1 temporal filter limit offset) = Ok tt /\ q = rejoin q1 temporal filter limit offset.
Proof using.
  unfold parseItemsQuery. rewrite bind_Some. split.
  - intros (ps' & Hp & H). destruct (parameters_ok ps') eqn:Ek; cbn [negb] in H; [|done]. apply parameters_ok_iff in Ek.
    destruct (blank_crs ps') eqn:Eb; [done|]. apply blank_crs_iff in Eb. destruct (present ps' (B "bbox-crs") && _) eqn:Ec; [done|].
    rewrite !present_value in Ec by done. apply bind_Some in H as (limit & Hlim & H). apply bind_Some in H as (offset & Hoff & H).
    apply bind_Some in H as (q1 & Hq1 & H). apply bind_Some in H as (temporal & Ht & H). rewrite !present_value in H by done.
    destruct (bool_decide (is_Some (value ps' (B "filter-lang"))) && _) eqn:El; [done|]. apply bind_Some in H as (filter & Hf & H).
    apply optional_iff in Hlim, Hoff, Ht, Hf. rewrite Get_value in Hq1. fold (rejoin q1 temporal filter limit offset) in H.
    destruct (Query_Validate (rejoin q1 temporal filter limit offset)) as [[]|] eqn:Ev; [|done]. injection H as <- <-.
    split_and!; try done; [by apply Eb|by apply Eb| |].
    { intros Hs. rewrite bool_decide_true in Ec by done. cbn in Ec. apply negb_false_iff, bool_decide_eq_true in Ec. done. }
    exists limit, offset, q1, temporal, filter. split_and!; try done.
    + destruct (value ps' (B "bbox-crs")) as [c|] eqn:Evc; cbn [default] in Hq1; unfold id in Hq1.
      * assert (beq c [] = false) as Hc. { apply beq_false. intros ->. by apply (proj2 Eb). } rewrite Hc in Hq1. injection Hq1 as <-. by destruct (value ps' (B "bbox")).
      * change (beq [] []) with true in Hq1. cbv match in Hq1. apply optional_iff in Hq1. by destruct (value ps' (B "bbox")).
    + intros v Hv. rewrite Hv, bool_decide_true in El by done. cbn [andb] in El. apply orb_false_iff in El as [E1 E2].
      rewrite negb_false_iff in E1, E2. apply bool_decide_eq_true in E1. rewrite Get_value, Hv in E2. by apply beq_true in E2.
  - intros (Hp & Hs & Hc & Hbc & limit & offset & q1 & temporal & filter & Hlim & Hoff & Hq1 & Ht & Hl & Hf & Hv & ->).
    exists ps. split; [done|]. rewrite (proj2 (parameters_ok_iff ps) Hs), (proj2 (blank_crs_iff ps) Hc), !present_value by done. cbn [negb].
    assert (bool_decide (is_Some (value ps (B "bbox-crs"))) && negb (bool_decide (is_Some (value ps (B "bbox")))) = false) as ->.
    { case_bool_decide as E; [|done]. by rewrite bool_decide_true by auto. }
    rewrite (proj2 (optional_iff _ _ _ _ _) Hlim). cbn [mbind option_bind]. rewrite (proj2 (optional_iff _ _ _ _ _) Hoff). cbn [mbind option_bind].
    assert ((if beq (Get ps (B "bbox-crs")) [] then optional ps (B "bbox") (unbounded limit offset None None) (fun v => parseFeatureBounds ParseFloat v (unbounded limit offset None None))
             else Some (unbounded limit offset None None)) = Some q1) as Hq.
    { rewrite Get_value. destruct (value ps (B "bbox-crs")) as [c|] eqn:Evc; cbn [default]; unfold id.
      - assert (beq c [] = false) as ->. { apply beq_false. intros ->. by apply (proj2 Hc). } by destruct (value ps (B "bbox")); subst q1.
      - change (beq [] []) with true. cbv match. apply optional_iff. by destruct (value ps (B "bbox")). }
    unfold unbounded in Hq. rewrite Hq. cbn [mbind option_bind]. rewrite (proj2 (optional_iff _ _ _ _ _) Ht). cbn [mbind option_bind].
    assert (bool_decide (is_Some (value ps (B "filter-lang"))) && (negb (bool_decide (is_Some (value ps (B "filter")))) || negb (beq (Get ps (B "filter-lang")) (B "cql2-text"))) = false) as ->.
    { rewrite Get_value. destruct (value ps (B "filter-lang")) as [v|]; [|done]. destruct (Hl v eq_refl) as [-> Hsome]. by rewrite (bool_decide_true (is_Some (value ps (B "filter")))) by done. }
    rewrite (proj2 (optional_iff _ _ _ _ _) Hf). cbn [mbind option_bind]. fold (rejoin q1 temporal filter limit offset). by rewrite Hv.
Qed.

(** A query the parser makes is one the parameters ask for. *)
Lemma parseItemsQuery_sound (raw : gostring) (q : FeatureQuery) (ps : Values) :
  parseItemsQuery ParseFloat defaultLimit maxLimit raw = Some (q, ps) ->
  ParseQuery raw = Some ps /\ items_request ParseFloat defaultLimit maxLimit ps q /\ Query_Validate q = Ok tt.
Proof using Hmax Hwide.
  intros (Hp & Hs & Hc & Hbc & limit & offset & q1 & temporal & filter & Hlim & Hoff & Hq1 & Ht & Hl & Hf & Hv & ->)%parseItemsQuery_steps.
  split; [done|]. split; [|done].
  assert (q_Offset (rejoin q1 temporal filter limit offset) + q_Limit (rejoin q1 temporal filter limit offset) < 2 ^ 64) as Hw.
  { unfold Query_Validate in Hv. rewrite !rbind_unit, !reject_Ok in Hv. destruct Hv as (_ & H2 & _). apply Z.ltb_ge in H2. lia. }
  split; try done; cbn [rejoin q_Limit q_Offset q_Temporal q_Filter].
  - destruct (value ps (B "limit")) as [v|]; [|done]. apply parsePageLimit_iff in Hlim; [|lia]. by destruct Hlim as (? & ? & -> & ?).
  - destruct (value ps (B "offset")) as [v|]; [|done]. apply decimal_offset in Hoff. tauto.
  - destruct (value ps (B "datetime")) as [v|]; [|done]. by destruct (parseFeatureDatetime v) as [c|]; [injection Ht as <-|].
  - destruct (value ps (B "filter")) as [v|]; [|done]. destruct (beq (TrimSpace v) []) eqn:E; [done|]. apply beq_false in E. split; [done|].
    destruct (Parse v) as [f|]; [|done]. injection Hf as <-. by exists f.
  - destruct (value ps (B "bbox")) as [v|], (value ps (B "bbox-crs")) as [c|]; try (by subst q1).
    apply parseFeatureBounds_iff in Hq1 as (b & Hb & Ho & Hg & ->). exists b. by rewrite rejoin_place.
Qed.

Lemma parseItemsQuery_complete (raw : gostring) (q : FeatureQuery) (ps : Values) :
  ParseQuery raw = Some ps -> items_request ParseFloat defaultLimit maxLimit ps q ->
  parseItemsQuery ParseFloat defaultLimit maxLimit raw = Some (q, ps).
Proof using Hmax Hwide.
  intros Hp [Hs Hc Hbc Hl Hlim Hoff Hw Ht Hf Hb]. apply parseItemsQuery_steps. split_and!; try apply Hc; try done.
  assert (0 < q_Limit q < 2 ^ 64) as Hlr by (destruct (value ps (B "limit")); lia).
  assert (0 <= q_Offset q) as Hor. { destruct (value ps (B "offset")) as [v|]; [|lia]. destruct Hoff as (Hd & _ & ->). by apply num_nonneg. }
  assert (forall t, q_Temporal q = Some t -> TemporalConstraint_Validate t = Ok tt) as Hvt.
  { intros t Et. destruct (value ps (B "datetime")) as [v|]; [|congruence]. destruct Ht as [Ht _]. apply (Datetime_valid v). congruence. }
  assert (forall f, q_Filter q = Some f -> Expression_Validate f = Ok tt) as Hvf.
  { intros f Ef. destruct (value ps (B "filter")) as [v|]; [|congruence]. destruct Hf as (_ & f' & Hpf & Ef'). apply (Parse_valid v). congruence. }
  assert (exists b, (forall r, b = Some r -> ordered_request r /\ geographic_request r)
    /\ q = from_option (fun r => place r (unbounded (q_Limit q) (q_Offset q) (q_Temporal q) (q_Filter q))) (unbounded (q_Limit q) (q_Offset q) (q_Temporal q) (q_Filter q)) b
    /\ match value ps (B "bbox"), value ps (B "bbox-crs") with
       | Some v, None => exists r, b = Some r /\ spells_numbers ParseFloat (SplitByte "," v) (request_values r)
       | _, _ => b = None
       end) as (b & Hbr & Eq & Hbs).
  { destruct (value ps (B "bbox")) as [v|], (value ps (B "bbox-crs")) as [c|]; try (by exists None).
    destruct Hb as (r & Hr & Ho & Hg & E). exists (Some r). split; [by intros ? [= <-]|]. split; [done|]. by exists r. }
  exists (q_Limit q), (q_Offset q), (from_option (fun r => place r (unbounded (q_Limit q) (q_Offset q) None None)) (unbounded (q_Limit q) (q_Offset q) None None) b), (q_Temporal q), (q_Filter q).
  assert (q = rejoin (from_option (fun r => place r (unbounded (q_Limit q) (q_Offset q) None None)) (unbounded (q_Limit q) (q_Offset q) None None) b) (q_Temporal q) (q_Filter q) (q_Limit q) (q_Offset q)) as Er.
  { rewrite Eq at 1. destruct b as [r|]; [|done]. cbn [from_option]. by rewrite rejoin_place. }
  split_and!; try done.
  - destruct (value ps (B "limit")) as [v|]; [|done]. apply parsePageLimit_iff; [lia|]. destruct Hlim as (? & ? & -> & ?). split_and!; done || lia.
  - destruct (value ps (B "offset")) as [v|]; [|done]. apply decimal_offset. destruct Hoff as (? & ? & ?). split_and!; try done. lia.
  - destruct (value ps (B "bbox")) as [v|], (value ps (B "bbox-crs")) as [c|]; try (by subst b). destruct Hbs as (r & -> & Hr).
    apply parseFeatureBounds_iff. exists r. destruct (Hbr r eq_refl). by split_and!.
  - destruct (value ps (B "datetime")) as [v|]; [|done]. destruct Ht as [<- [t ->]]. done.
  - destruct (value ps (B "filter")) as [v|]; [|done]. destruct Hf as (Hn & f & -> & ->). by rewrite (proj2 (beq_false _ _) Hn).
  - rewrite <- Er, Eq. by apply (Query_Validate_parts (q_Limit q) (q_Offset q) (q_Temporal q) (q_Filter q) b).
Qed.

(** C25. The items query is read exactly.  A request is accepted if and only if its
    parameters are known and given once, no reference system is blank, limit and offset
    are decimal numbers, the limit between one and the maximum and both together below
    2^64, the box spells four or six finite numbers of the geographic domain in order,
    the interval and the filter parse, and the filter language is CQL2 text with a
    filter; the query then says exactly that and passes the validation the providers
    rely on.  Its boxes contain exactly the positions of the box asked for, also across
    the antimeridian. *)
Theorem parseItemsQuery_exact (raw : gostring) (q : FeatureQuery) (ps : Values) :
  (parseItemsQuery ParseFloat defaultLimit maxLimit raw = Some (q, ps) <->
   ParseQuery raw = Some ps /\ items_request ParseFloat defaultLimit maxLimit ps q)
  /\ (parseItemsQuery ParseFloat defaultLimit maxLimit raw = Some (q, ps) -> Query_Validate q = Ok tt)
  /\ (forall v, parseItemsQuery ParseFloat defaultLimit maxLimit raw = Some (q, ps) ->
        value ps (B "bbox") = Some v -> value ps (B "bbox-crs") = None ->
        exists b, spells_numbers ParseFloat (SplitByte "," v) (request_values b)
          /\ forall p, (-180 <= comp p 0 <= 180)%Q ->
               (exists e, e ∈ q_Bounds q /\ in_extent e (comp p 0, comp p 1)) \/ (exists e, e ∈ q_Bounds3D q /\ in_box3 e p) <-> in_request b p).
Proof using Hmax Hwide.
  split_and!.
  - split; [intros (? & ? & _)%parseItemsQuery_sound; by split|]. intros [? ?]. by apply parseItemsQuery_complete.
  - by intros (_ & _ & ?)%parseItemsQuery_sound.
  - intros v (_ & H & _)%parseItemsQuery_sound Ev Ec. pose proof (ir_bounds _ _ _ _ _ H) as Hb. rewrite Ev, Ec in Hb. destruct Hb as (b & Hs & Ho & _ & Eq).
    exists b. split; [done|]. intros p Hp. rewrite Eq, <- (request_bounds_cover b Ho p (or_intror Hp)). unfold place, request_bounds, request_bounds3D. by destruct (b_heights b) as [[]|].
Qed.
End Query.

(** ** Examples *)

(** A reading of some numbers. *)
Definition some_numbers (s : gostring) : option f64 :=
  if beq s (B "170") then Some 0x4065400000000000 else if beq s (B "-170") then Some 0xC065400000000000
  else if beq s (B "10") then Some 0x4024000000000000 else if beq s (B "-10") then Some 0xC024000000000000 else None.

(** A system with the latitude first. *)
Lemma parseFeatureBoundsCRS_exact_witness :
  let c := mkCRS 2 4326 true true true (B "http://www.opengis.net/def/crs/EPSG/0/4326") (B "+proj=longlat +datum=WGS84") in
  let q := unbounded 10 0 None None in
  exists q', parseFeatureBoundsCRS some_numbers (B "-10,170,10,-170") c q = Some q' /\ Forall valid_extent (q_Bounds q') /\ length (q_Bounds q') = 2%nat.
Proof.
  intros c q. destruct (parseFeatureBoundsCRS some_numbers (B "-10,170,10,-170") c q) as [q'|] eqn:E; [|by vm_compute in E]. exists q'. split; [done|].
  destruct (proj2 (parseFeatureBoundsCRS_exact some_numbers (B "-10,170,10,-170") c q q' (or_introl eq_refl)) E) as (b & _ & Hv & _). split; [exact Hv|].
  vm_compute in E. by injection E as <-.
Defined.

(** A box across the antimeridian. *)
Lemma parseItemsQuery_exact_witness :
  let raw := B "limit=0010&bbox=170,-10,-170,10" in
  exists q ps, parseItemsQuery some_numbers 10 100 raw = Some (q, ps) /\ Query_Validate q = Ok tt /\ q_Limit q = 10 /\ length (q_Bounds q) = 2%nat.
Proof.
  intros raw. destruct (parseItemsQuery some_numbers 10 100 raw) as [[q ps]|] eqn:E; [|by vm_compute in E]. exists q, ps. split; [done|].
  split; [apply (proj1 (proj2 (parseItemsQuery_exact some_numbers 10 100 ltac:(lia) ltac:(lia) raw q ps)) E)|]. vm_compute in E. by injection E as <- <-.
Defined.
