(* ===== verification/ItemsPages.v ===== *)
(** * server/handle_features_items: the pages of a collection

    The reference systems of a request (resolveFeatureCRS, CollectionCRS), the format
    parameter (protocolHandler), the answer of serveItems with its links to other pages,
    and a client that follows them. *)

From S2P Require Import Prelude GoText Temporal Filter Float64 RawGeom FeatureExtent FeatureSpatial FeatureQuery.
From S2P Require Import Decimal Cql2Lexer Cql2Parser GpkgSpatial Datetime UrlQuery ItemsQuery.

#[local] Open Scope Z_scope.

(** ** Reference systems *)

Inductive ItemsError := CollectionNotFound | InvalidCRS (reason : string) | CRSUnavailable | InvalidBox.

Definition CRS84 : gostring := B "http://www.opengis.net/def/crs/OGC/1.3/CRS84".
Definition MaxCRSURIBytes : Z := 256.

(** [ResolveCRS] of the two default identifiers: longitude and latitude of WGS 84. *)
Definition default_crs (count : nat) : CRS :=
  if (count =? 6)%nat then mkCRS 3 4326 true false true CRS84h (B "+proj=longlat +datum=WGS84")
  else mkCRS 2 4326 true false true CRS84 (B "+proj=longlat +datum=WGS84").

(** The reference systems of a collection; without descriptors it is unavailable. *)
Record CollectionCRS := mkCollectionCRS { cc_descriptors : option (gmap gostring CRS); cc_default : gostring; cc_flat : bool }.

Definition Resolve (c : CollectionCRS) (uri : gostring) : result ItemsError CRS :=
  if beq uri [] || (MaxCRSURIBytes <? blen uri) then Err (InvalidCRS "unrecognized identifier")
  else
    match cc_descriptors c with
    | None => Err CRSUnavailable
    | Some descriptors => match descriptors !! uri with Some crs => Ok crs | None => Err (InvalidCRS "identifier is not supported by collection") end
    end.

Definition ValidateOutput (c : CollectionCRS) (uri : gostring) : result ItemsError CRS :=
  let? crs := Resolve c (if beq uri [] then cc_default c else uri) in
  if negb (Bool.eqb (cc_flat c) (crs_dimension crs =? 2)%nat) then Err (InvalidCRS "representation cannot lose or invent height") else Ok crs.

Definition ValidateBounds (c : CollectionCRS) (uri : gostring) (count : nat) : result ItemsError CRS :=
  if beq uri [] then
    match cc_descriptors c with
    | None => Err CRSUnavailable
    | Some _ => if (count =? 6)%nat || (count =? 4)%nat then Ok (default_crs count) else Err (InvalidCRS "bbox requires four or six coordinates")
    end
  else
    let? crs := Resolve c uri in
    if negb (count =? 2 * crs_dimension crs)%nat then Err (InvalidCRS "bbox dimension differs from CRS") else Ok crs.

(** A published collection: whether its positions are flat, and its reference systems
    where they are available. *)
Record Published := mkPublished { pb_flat : bool; pb_crs : option CollectionCRS }.

Definition DefaultCRSURI (collection : option Published) : result ItemsError gostring :=
  match collection with None => Err CollectionNotFound | Some c => Ok (if pb_flat c then CRS84 else CRS84h) end.

Definition resolveFeatureCRS (ParseFloat : gostring -> option f64) (collection : option Published) (ps : Values) (q : FeatureQuery)
    : result ItemsError (gostring * FeatureQuery) :=
  let? default := DefaultCRSURI collection in
  let catalog := collection ≫= pb_crs in
  let explicitOutput := Get ps (B "crs") in
  let explicitBounds := Get ps (B "bbox-crs") in
  check? match catalog with
         | None => if negb (beq explicitOutput []) || negb (beq explicitBounds []) then Err (InvalidCRS "CRS publication unavailable") else Ok tt
         | Some _ => Ok tt
         end in
  let? output := match catalog with
                 | Some c => if beq explicitOutput [] then Ok default else let? crs := ValidateOutput c explicitOutput in Ok (crs_uri crs)
                 | None => Ok default
                 end in
  let raw := Get ps (B "bbox") in
  match catalog with
  | Some c =>
      if beq raw [] then Ok (output, q)
      else
        let count := length (SplitByte "," raw) in
        let? descriptor := if beq explicitBounds [] then Ok (default_crs count) else ValidateBounds c explicitBounds count in
        match parseFeatureBoundsCRS ParseFloat raw descriptor q with Some q => Ok (output, q) | None => Err InvalidBox end
  | None => Ok (output, q)
  end.

(** ** Pages *)

(** The query without the format parameter.  An error is the status of the answer. *)
Definition protocolHandler (accept : list gostring) (raw : gostring) : result Z (gostring * gostring) :=
  if 65536 <? blen raw then Err 414
  else if 16384 <? foldr (fun a n => blen a + n) 0 accept then Err 431
  else
    match ParseQuery raw with
    | None => Err 400
    | Some values =>
        match values !! B "f" with
        | None => Ok ([], Encode values)
        | Some [f] => if negb (beq f (B "html")) && negb (beq f (B "json")) then Err 400 else Ok (f, Encode (delete (B "f") values))
        | Some _ => Err 400
        end
    end.

(** The query parts of links. *)
Definition formatLink (ps : Values) (format : gostring) : gostring := Encode (Set_ ps (B "f") (if beq format [] then B "json" else format)).

Definition pageLink (ps : Values) (offset : Z) (format : gostring) : gostring := formatLink (Set_ ps (B "offset") (FormatUint offset)) format.

(** The offsets of the links of serveItems; additions of uint64. *)
Definition next_offset (q : FeatureQuery) (page : FeatureQueryResult) : option Z :=
  if r_HasMore page then Some ((q_Offset q + r_NumberReturned page) mod 2 ^ 64) else None.

Definition prev_offset (q : FeatureQuery) : option Z :=
  if q_Offset q =? 0 then None else Some (if q_Limit q <? q_Offset q then q_Offset q - q_Limit q else 0).

(** A page without features that promises more is refused. *)
Definition page_refused (page : FeatureQueryResult) : bool := r_HasMore page && (r_NumberReturned page =? 0).

(** What a page says: its features, its reference system and its links. *)
Record Served (A : Type) := mkServed { sv_features : list A; sv_crs : gostring; sv_next : option gostring; sv_prev : option gostring }.
#[global] Arguments mkServed {A}.
#[global] Arguments sv_features {A}.
#[global] Arguments sv_crs {A}.
#[global] Arguments sv_next {A}.
#[global] Arguments sv_prev {A}.

(** The status of an error of [resolveFeatureCRS] ([writeQueryError]). *)
Definition items_status (e : ItemsError) : Z := match e with CollectionNotFound => 404 | InvalidCRS _ | InvalidBox => 400 | CRSUnavailable => 501 end.

Section Serve.
Context {A : Type}.

(** The limits of the interface, the collection and the service that answers a query in a reference system. *)
Context (ParseFloat : gostring -> option f64) (defaultLimit maxLimit : Z) (collection : option Published).
Context (QueryCollectionPage : FeatureQuery -> gostring -> result Z (list A * FeatureQueryResult)).

Definition serveItems (accept : list gostring) (raw : gostring) : result Z (Served A) :=
  let? request := protocolHandler accept raw in
  let '(format, business) := request in
  match parseItemsQuery ParseFloat defaultLimit maxLimit business with
  | None => Err 400
  | Some (q, ps) =>
      match resolveFeatureCRS ParseFloat collection ps q with
      | Err e => Err (items_status e)
      | Ok (uri, q) =>
          let? answer := QueryCollectionPage q (Get ps (B "crs")) in
          let '(features, page) := answer in
          if page_refused page then Err 500
          else
            let ps := Set_ (Set_ ps (B "limit") (FormatUint (q_Limit q))) (B "offset") (FormatUint (q_Offset q)) in
            Ok (mkServed features uri ((fun o => pageLink ps o format) <$> next_offset q page) ((fun o => pageLink ps o format) <$> prev_offset q))
      end
  end.

(** A client that follows the links to the next page. *)
Fixpoint walk (fuel : nat) (accept : list gostring) (raw : gostring) : result Z (list A) :=
  match fuel with
  | O => Err 0
  | S fuel =>
      let? page := serveItems accept raw in
      match sv_next page with
      | None => Ok (sv_features page)
      | Some raw => let? rest := walk fuel accept raw in Ok (sv_features page ++ rest)
      end
  end.

End Serve.

(** ** Links *)

Definition with_offset (q : FeatureQuery) (o : Z) : FeatureQuery :=
  mkQuery (q_Bounds q) (q_Bounds3D q) (q_BoundsVerticalCRS q) (q_BoundsSRID q) (q_BoundsCRSDefinition q) (q_Temporal q) (q_Filter q) (q_IDs q) (q_Limit q) o (q_Fields q).

(** The parameters of a page. *)
Definition page_params (ps : Values) (limit offset : Z) : Values := Set_ (Set_ ps (B "limit") (FormatUint limit)) (B "offset") (FormatUint offset).

Lemma value_Set (ps : Values) (key key' v : gostring) : value (Set_ ps key v) key' = if decide (key = key') then Some v else value ps key'.
Proof. unfold value, Set_. case_decide as E; [subst key'; by rewrite lookup_insert_eq|by rewrite lookup_insert_ne]. Qed.

Lemma value_page_params (ps : Values) (limit offset : Z) (key : gostring) :
  value (page_params ps limit offset) key
  = if decide (B "offset" = key) then Some (FormatUint offset) else if decide (B "limit" = key) then Some (FormatUint limit) else value ps key.
Proof. unfold page_params. by rewrite !value_Set. Qed.

Lemma pageLink_page_params (ps : Values) (limit offset o : Z) (format : gostring) :
  pageLink (page_params ps limit offset) o format = formatLink (page_params ps limit o) format.
Proof. unfold pageLink, page_params, Set_. by rewrite insert_insert_eq. Qed.

Lemma page_params_again (ps : Values) (limit offset o : Z) : page_params (page_params ps limit offset) limit o = page_params ps limit o.
Proof.
  unfold page_params, Set_. rewrite (insert_insert_ne (<[_:=_]> ps)), insert_insert_eq by done. by rewrite insert_insert_eq.
Qed.

Lemma num_FormatUint (n : Z) : 0 <= n -> digits (FormatUint n) /\ FormatUint n <> [] /\ num (FormatUint n) = n.
Proof.
  intros Hn. pose proof (FormatUint_digits n Hn) as Hd. split; [exact Hd|]. split; [apply FormatUint_nonempty|].
  pose proof (parse_FormatUint n Hn) as Hp. rewrite (parse_digits_num _ Hd) in Hp. by injection Hp.
Qed.

Lemma single_known_page (ps : Values) (limit offset : Z) : single_known ps -> single_known (page_params ps limit offset).
Proof.
  intros Hs k vs. unfold page_params, Set_. rewrite !lookup_insert_Some. unfold known_parameters.
  intros [[<- <-]|[_ [[<- <-]|[_ H]]]]; [split; [set_solver|by eexists]..|by apply Hs].
Qed.

Section Links.
Context (ParseFloat : gostring -> option f64) (defaultLimit maxLimit : Z) (Hmax : 0 < defaultLimit <= maxLimit).

(** The parameters of another page ask for it. *)
Lemma items_request_page (ps : Values) (q : FeatureQuery) (o : Z) :
  items_request ParseFloat defaultLimit maxLimit ps q -> 0 <= o -> o + q_Limit q < 2 ^ 64 ->
  items_request ParseFloat defaultLimit maxLimit (page_params ps (q_Limit q) o) (with_offset q o).
Proof using Hmax.
  intros [Hs Hc Hbc Hl Hlim Hoff Hw Ht Hf Hb] Ho Hwin.
  assert (1 <= q_Limit q <= maxLimit) as Hr by (destruct (value ps (B "limit")); lia).
  destruct (num_FormatUint (q_Limit q) ltac:(lia)) as (L1 & L2 & L3), (num_FormatUint o Ho) as (O1 & O2 & O3).
  split; rewrite ?value_page_params; repeat (rewrite decide_False by done); rewrite ?decide_True by done;
    cbn [with_offset q_Limit q_Offset q_Temporal q_Filter]; try done; [by apply single_known_page|by rewrite L3|].
  destruct (value ps (B "bbox")) as [v|], (value ps (B "bbox-crs")) as [c|]; try (rewrite Hb; done).
  destruct Hb as (b & H1 & H2 & H3 & Eq). exists b. split_and!; try done. rewrite Eq. unfold place. by destruct (b_heights b).
Qed.

Lemma parseFeatureBoundsCRS_offset (raw : gostring) (c : CRS) (q : FeatureQuery) (o : Z) :
  parseFeatureBoundsCRS ParseFloat raw c (with_offset q o) = (fun q => with_offset q o) <$> parseFeatureBoundsCRS ParseFloat raw c q.
Proof using.
  unfold parseFeatureBoundsCRS. destruct (negb _); [done|]. destruct (bbox_values _ _) as [vs|]; cbn [mbind option_bind]; [|done].
  destruct (orderPosition c (take _ _)) as [minimum|]; cbn [mbind option_bind]; [|done].
  destruct (orderPosition c (drop _ _)) as [maximum|]; cbn [mbind option_bind]; [|done].
  destruct minimum as [|? [|? [|]]], maximum as [|? [|? [|]]]; repeat case_match; done.
Qed.

Lemma parseFeatureBoundsCRS_window (raw : gostring) (c : CRS) (q q' : FeatureQuery) :
  parseFeatureBoundsCRS ParseFloat raw c q = Some q' -> q_Limit q' = q_Limit q /\ q_Offset q' = q_Offset q.
Proof using.
  unfold parseFeatureBoundsCRS. destruct (negb _); [done|]. intros (vs & _ & (minimum & _ & (maximum & _ & H)%bind_Some)%bind_Some)%bind_Some.
  repeat case_match; try done; by injection H as <-.
Qed.

(** The reference system of a page does not depend on which page it is. *)
Lemma resolveFeatureCRS_page (collection : option Published) (ps : Values) (q q1 : FeatureQuery) (uri : gostring) (limit o : Z) :
  resolveFeatureCRS ParseFloat collection ps q = Ok (uri, q1) ->
  resolveFeatureCRS ParseFloat collection (page_params ps limit o) (with_offset q o) = Ok (uri, with_offset q1 o)
  /\ q_Limit q1 = q_Limit q /\ q_Offset q1 = q_Offset q.
Proof using.
  unfold resolveFeatureCRS. rewrite !Get_value, !value_page_params. repeat (rewrite decide_False by done).
  destruct (DefaultCRSURI collection) as [d|]; cbn [rbind]; [|done]. destruct (collection ≫= pb_crs) as [c|].
  - cbn [rbind]. match goal with |- context [rbind ?r] => destruct r as [out|] end; cbn [rbind]; [|done]. destruct (beq (default [] (value ps (B "bbox"))) []); [by intros [= <- <-]|].
    match goal with |- context [rbind ?r] => destruct r as [descriptor|] end; cbn [rbind]; [|done].
    rewrite parseFeatureBoundsCRS_offset. destruct (parseFeatureBoundsCRS _ _ _ q) as [q'|] eqn:E; [|done]. cbn [fmap option_fmap option_map].
    intros [= <- <-]. split; [done|]. by apply parseFeatureBoundsCRS_window in E.
  - match goal with |- context [rbind ?r] => destruct r as [[]|] end; cbn [rbind]; [|done]. by intros [= <- <-].
Qed.
End Links.

(** ** Walking the pages *)

Section Accepted.
Context (ParseFloat : gostring -> option f64) (defaultLimit maxLimit : Z) (Hmax : 0 < defaultLimit <= maxLimit) (Hwide : maxLimit < 2 ^ 64).
Context (collection : option Published) (accept : list gostring).

(** A request that is accepted. *)
Record accepted (raw format : gostring) (ps : Values) (q q1 : FeatureQuery) (uri : gostring) : Prop := {
  ac_protocol : exists business, protocolHandler accept raw = Ok (format, business) /\ parseItemsQuery ParseFloat defaultLimit maxLimit business = Some (q, ps);
  ac_resolved : resolveFeatureCRS ParseFloat collection ps q = Ok (uri, q1)
}.

Lemma accepted_request (raw format : gostring) (ps : Values) (q q1 : FeatureQuery) (uri : gostring) :
  accepted raw format ps q q1 uri ->
  items_request ParseFloat defaultLimit maxLimit ps q /\ q_Limit q1 = q_Limit q /\ q_Offset q1 = q_Offset q
  /\ 1 <= q_Limit q <= maxLimit /\ 0 <= q_Offset q /\ q_Offset q + q_Limit q < 2 ^ 64 /\ (format = [] \/ format = B "html" \/ format = B "json").
Proof using Hmax Hwide.
  intros [(business & Hp & Hq) Hr]. apply parseItemsQuery_sound in Hq as (_ & Hi & _); [|done..].
  destruct (resolveFeatureCRS_page ParseFloat collection ps q q1 uri 0 0 Hr) as (_ & -> & ->). split; [done|]. destruct Hi as [_ _ _ _ Hlim Hoff Hw _ _ _].
  split_and!; try done; try (destruct (value ps (B "limit")); lia).
  - destruct (value ps (B "offset")) as [v|]; [|lia]. destruct Hoff as (Hd & _ & ->). by apply num_nonneg.
  - unfold protocolHandler in Hp. destruct (65536 <? _); [done|]. destruct (16384 <? _); [done|]. destruct (ParseQuery raw) as [values|]; [|done].
    destruct (values !! B "f") as [[|f [|]]|]; try done; [|injection Hp as <- _; by left]. destruct (negb _ && _) eqn:E; [done|]. injection Hp as <- _.
    right. apply andb_false_iff in E as [E|E]; apply negb_false_iff, beq_true in E; auto.
Qed.

(** A link to a page is a request that is accepted. *)
Lemma link_accepted (raw format : gostring) (ps : Values) (q q1 : FeatureQuery) (uri : gostring) (o : Z) :
  accepted raw format ps q q1 uri -> 0 <= o -> o + q_Limit q < 2 ^ 64 -> blen (formatLink (page_params ps (q_Limit q) o) format) <= 65536 ->
  exists format', (if beq format' [] then B "json" else format') = (if beq format [] then B "json" else format)
    /\ accepted (formatLink (page_params ps (q_Limit q) o) format) format' (page_params ps (q_Limit q) o) (with_offset q o) (with_offset q1 o) uri.
Proof using Hmax Hwide.
  intros Ha Ho Hw Hlen. destruct (accepted_request _ _ _ _ _ _ Ha) as (Hi & _ & _ & _ & _ & _ & Hformat). destruct Ha as [(business & Hp & _) Hr].
  pose proof (items_request_page ParseFloat defaultLimit maxLimit Hmax ps q o Hi Ho Hw) as Hi'. pose proof (ir_names _ _ _ _ _ Hi') as Hs.
  set (ps' := page_params ps (q_Limit q) o) in *. set (f := if beq format [] then B "json" else format).
  assert (f = B "html" \/ f = B "json") as Hf by (unfold f; destruct Hformat as [->|[->| ->]]; auto).
  assert (ps' !! B "f" = None) as Hnone. { destruct (ps' !! B "f") as [vs|] eqn:E; [|done]. apply Hs in E as [E _]. repeat (apply elem_of_cons in E as [E|E]; [done|]). by apply elem_of_nil in E. }
  exists f. split; [by destruct Hf as [->| ->]|]. split; [|by apply (resolveFeatureCRS_page ParseFloat collection ps q q1 uri (q_Limit q) o)].
  exists (Encode ps'). split.
  - unfold protocolHandler, formatLink in *. fold f in Hlen |- *. unfold protocolHandler in Hp. destruct (65536 <? blen raw); [done|].
    destruct (16384 <? _); [done|]. decide_ltb. rewrite ParseQuery_Encode.
    + unfold Set_. rewrite lookup_insert_eq, delete_insert_id by done. by destruct Hf as [->| ->].
    + intros k vs. unfold Set_. rewrite lookup_insert_Some. intros [[_ <-]|[_ Hk]]; [done|]. by apply Hs in Hk as [_ [v ->]].
  - apply parseItemsQuery_complete; [done..| |done]. apply ParseQuery_Encode. intros k vs Hk. by apply Hs in Hk as [_ [v ->]].
Qed.
End Accepted.

(** The links of a request stay below the length a query may have: the longest has the
    largest offset. *)
Definition short_links (ps : Values) (limit : Z) (format : gostring) : Prop := blen (formatLink (page_params ps limit (2 ^ 64 - 1)) format) <= 65536.

Lemma QueryEscape_digits (s : gostring) : digits s -> QueryEscape s = s.
Proof.
  unfold digits, QueryEscape. induction s as [|c s IH]; [done|]. cbn [forallb map concat]. intros [Hc Hs]%andb_prop. rewrite (IH Hs). unfold escape_byte, shouldEscape.
  rewrite Hc. cbn [orb negb]. destruct (Ascii.eqb_spec c " ") as [->|_]; [by vm_compute in Hc|done].
Qed.

Lemma FormatUint_short (n : Z) : 0 <= n < 2 ^ 64 -> blen (FormatUint n) <= 20.
Proof.
  intros Hn. destruct (Z.eq_dec n 0) as [->|Hz]; [by vm_compute|]. pose proof (FormatUint_large n ltac:(lia)) as H.
  destruct (Z.le_gt_cases (blen (FormatUint n)) 20) as [|Hg]; [done|]. pose proof (Z.pow_le_mono_r 10 20 (blen (FormatUint n) - 1) ltac:(lia) ltac:(lia)). lia.
Qed.

Lemma short_links_all (ps : Values) (limit : Z) (format : gostring) (o : Z) :
  short_links ps limit format -> 0 <= o < 2 ^ 64 -> blen (formatLink (page_params ps limit o) format) <= 65536.
Proof.
  unfold short_links. intros H Ho. etransitivity; [|exact H]. unfold formatLink, page_params. set (f := if beq format [] then B "json" else format).
  assert (forall v m, Set_ (Set_ m (B "offset") v) (B "f") f = Set_ (Set_ m (B "f") f) (B "offset") v) as E by (intros v m; unfold Set_; by rewrite insert_insert_ne).
  rewrite !E. apply Encode_Set_length. rewrite !QueryEscape_digits by (apply FormatUint_digits; lia). pose proof (FormatUint_short o Ho). 
  change (blen (FormatUint (2 ^ 64 - 1))) with 20. lia.
Qed.

Section Walk.
Context {A : Type}.
Context (ParseFloat : gostring -> option f64) (defaultLimit maxLimit : Z) (Hmax : 0 < defaultLimit <= maxLimit) (Hwide : maxLimit < 2 ^ 64).
Context (collection : option Published) (QueryCollectionPage : FeatureQuery -> gostring -> result Z (list A * FeatureQueryResult)) (accept : list gostring).

(** The service answers a query, whatever the offset, with the window of its matches,
    and says whether there are more. *)
Definition window (limit offset : Z) (l : list A) : list A := take (Z.to_nat limit) (drop (Z.to_nat offset) l).

Definition paged (q : FeatureQuery) (crs : gostring) (matches : list A) : Prop :=
  forall o, 0 <= o -> o + q_Limit q < 2 ^ 64 ->
    exists total, QueryCollectionPage (with_offset q o) crs
      = Ok (window (q_Limit q) o matches, mkQueryResult (Z.of_nat (length (window (q_Limit q) o matches))) total (o + q_Limit q <? Z.of_nat (length matches))).

Context (matches : list A).

#[local] Abbreviation serve := (serveItems ParseFloat defaultLimit maxLimit collection QueryCollectionPage accept).

(** The page of an accepted request. *)
Lemma serveItems_page (raw format : gostring) (ps : Values) (q q1 : FeatureQuery) (uri : gostring) :
  accepted ParseFloat defaultLimit maxLimit collection accept raw format ps q q1 uri -> paged q1 (Get ps (B "crs")) matches -> Z.of_nat (length matches) < 2 ^ 64 ->
  serve raw = Ok (mkServed (window (q_Limit q) (q_Offset q) matches) uri
    (if q_Offset q + q_Limit q <? Z.of_nat (length matches) then Some (formatLink (page_params ps (q_Limit q) (q_Offset q + q_Limit q)) format) else None)
    ((fun o => formatLink (page_params ps (q_Limit q) o) format) <$> prev_offset q)).
Proof using Hmax Hwide.
  intros Ha Hpaged Hlen. destruct (accepted_request _ _ _ Hmax Hwide _ _ _ _ _ _ _ _ Ha) as (_ & El & Eo & Hl & Ho & Hw & _). destruct Ha as [(business & Hp & Hq) Hr].
  unfold serveItems. rewrite Hp. cbn [rbind]. rewrite Hq, Hr. destruct (Hpaged (q_Offset q1) ltac:(lia) ltac:(lia)) as [total Ht].
  assert (with_offset q1 (q_Offset q1) = q1) as E1 by by destruct q1. rewrite E1 in Ht. rewrite Ht.
  cbn [rbind]. unfold page_refused, next_offset, prev_offset. cbn [r_HasMore r_NumberReturned]. rewrite El, Eo.
  destruct (Z.ltb_spec (q_Offset q + q_Limit q) (Z.of_nat (length matches))) as [Hm|Hm].
  - assert (Z.of_nat (length (window (q_Limit q) (q_Offset q) matches)) = q_Limit q) as En. { unfold window. rewrite length_take, length_drop. lia. }
    rewrite En. rewrite (proj2 (Z.eqb_neq _ _)) by lia. cbn [andb fmap option_fmap option_map]. f_equal. f_equal.
    + f_equal. rewrite Z.mod_small by lia. apply pageLink_page_params.
    + destruct (q_Offset q =? 0); [done|]. cbn [fmap option_fmap option_map]. f_equal. apply pageLink_page_params.
  - cbn [andb fmap option_fmap option_map]. f_equal. f_equal. destruct (q_Offset q =? 0); [done|]. cbn [fmap option_fmap option_map]. f_equal. apply pageLink_page_params.
Qed.

(** Other pages are answered the same way. *)
Lemma paged_page (ps : Values) (q : FeatureQuery) (limit o : Z) :
  paged q (Get ps (B "crs")) matches -> paged (with_offset q o) (Get (page_params ps limit o) (B "crs")) matches.
Proof using. intros H. rewrite Get_value, value_page_params, !decide_False, <- Get_value by done. exact H. Qed.

Lemma formatLink_page (ps : Values) (limit o : Z) (format format' : gostring) :
  (if beq format' [] then B "json" else format') = (if beq format [] then B "json" else format) ->
  forall o', formatLink (page_params (page_params ps limit o) limit o') format' = formatLink (page_params ps limit o') format.
Proof using. intros E o'. unfold formatLink. by rewrite E, page_params_again. Qed.

Lemma walk_from (fuel : nat) (raw format : gostring) (ps : Values) (q q1 : FeatureQuery) (uri : gostring) :
  accepted ParseFloat defaultLimit maxLimit collection accept raw format ps q q1 uri -> paged q1 (Get ps (B "crs")) matches ->
  Z.of_nat (length matches) + maxLimit < 2 ^ 64 -> short_links ps (q_Limit q) format -> (length matches - Z.to_nat (q_Offset q) < fuel)%nat ->
  walk ParseFloat defaultLimit maxLimit collection QueryCollectionPage fuel accept raw = Ok (drop (Z.to_nat (q_Offset q)) matches).
Proof using Hmax Hwide.
  revert raw format ps q q1. induction fuel as [|fuel IH]; intros raw format ps q q1 Ha Hpg Hlen Hs Hf; [lia|].
  destruct (accepted_request _ _ _ Hmax Hwide _ _ _ _ _ _ _ _ Ha) as (_ & El & Eo & Hl & Ho & Hw & _).
  cbn [walk]. rewrite (serveItems_page raw format ps q q1 uri Ha Hpg ltac:(lia)). cbn [rbind sv_next sv_features]. unfold window.
  destruct (Z.ltb_spec (q_Offset q + q_Limit q) (Z.of_nat (length matches))) as [Hm|Hm].
  - destruct (link_accepted _ _ _ Hmax Hwide _ _ _ _ _ _ _ _ (q_Offset q + q_Limit q) Ha ltac:(lia) ltac:(lia) ltac:(apply short_links_all; done || lia)) as (format' & Ef & Ha').
    rewrite (IH _ _ _ _ _ Ha'); cbn [with_offset q_Offset q_Limit]; [|by apply paged_page|lia| |lia].
    + cbn [rbind]. f_equal. rewrite Z2Nat.inj_add, <- drop_drop by lia. apply take_drop.
    + unfold short_links. by rewrite (formatLink_page ps _ _ format).
  - f_equal. apply take_ge. rewrite length_drop. lia.
Qed.

End Walk.

(** ** Example *)

(** Five matches, two on each page, from the second one on. *)
Definition five : list Z := [1; 2; 3; 4; 5].
Definition answer_five (q : FeatureQuery) (crs : gostring) : result Z (list Z * FeatureQueryResult) :=
  Ok (window (q_Limit q) (q_Offset q) five, mkQueryResult (Z.of_nat (length (window (q_Limit q) (q_Offset q) five))) (Some 5) (q_Offset q + q_Limit q <? 5)).

