(* ===== verification/RingArea.v ===== *)
(** * ogc/features/geojson.go: the orientation of rings

    The sign of the area of a ring.  The sum of the cross products is computed in
    floating point beside an estimate of its error, and in exact rational arithmetic
    where the estimate does not settle the sign ([ringAreaSign]); it is shown to be the
    exact sign in both cases. *)

From Stdlib Require Import Qabs Lqa.
From S2P Require Import Prelude GoText Float64 FloatArith Plane RawGeom FeatureExtent.

#[local] Open Scope Z_scope.

(** ** Operations *)

(** [math.Nextafter(1, 2) - 1], the smallest positive number, 2 and 4. *)
Definition epsilon : fnum := FFin (971 * 2 ^ 52).
Definition smallest : fnum := FFin 1.
Definition two : fnum := FFin (1024 * 2 ^ 52).
Definition four : fnum := FFin (1025 * 2 ^ 52).

(** The error of a difference. *)
Definition difference_error (a o : fnum) : fnum := fadd (fmul epsilon (fadd (fabs a) (fabs o))) smallest.

(** What a product of two differences with errors adds to the uncertainty. *)
Definition product_uncertainty (xe x ye y : fnum) : fnum := fadd (fadd (fmul xe (fabs y)) (fmul ye (fabs x))) (fmul xe ye).

(** One turn of the loop: area and uncertainty. *)
Definition area_step (origin : pos2) (acc : fnum * fnum) (ab : pos2 * pos2) : fnum * fnum :=
  let '(area, uncertainty) := acc in
  let '(a, b) := ab in
  let o0 := of_bits (fst origin) in let o1 := of_bits (snd origin) in
  let a0 := of_bits (fst a) in let a1 := of_bits (snd a) in
  let b0 := of_bits (fst b) in let b1 := of_bits (snd b) in
  let ax := fsub a0 o0 in let ay := fsub a1 o1 in
  let bx := fsub b0 o0 in let by_ := fsub b1 o1 in
  let axError := difference_error a0 o0 in let ayError := difference_error a1 o1 in
  let bxError := difference_error b0 o0 in let byError := difference_error b1 o1 in
  let positive := fmul ax by_ in let negative := fmul bx ay in
  let term := fsub positive negative in
  let uncertainty := fadd uncertainty (product_uncertainty axError ax byError by_) in
  let uncertainty := fadd uncertainty (product_uncertainty bxError bx ayError ay) in
  let uncertainty := fadd uncertainty (fmul epsilon (fadd (fadd (fmul two (fadd (fabs positive) (fabs negative))) (fabs area)) (fabs term))) in
  let uncertainty := fadd uncertainty smallest in
  (fadd area term, uncertainty).

(** Each point with the next. *)
Definition ring_pairs {A : Type} (ring : list A) : list (A * A) := combine ring (tail ring).

(** Twice the exact area of a ring. *)
Definition shoelace (ring : list pos2) : Q :=
  foldr (fun ab s => (fst (point (fst ab)) * snd (point (snd ab)) - fst (point (snd ab)) * snd (point (fst ab)) + s)%Q) 0%Q (ring_pairs ring).

(** A ring is not empty: the source reads its first point. *)
Definition ringAreaSign (ring : list pos2) : Z :=
  match ring with
  | [] => 0
  | origin :: _ =>
      let '(area, uncertainty) := foldl (area_step origin) (FFin 0, FFin 0) (ring_pairs ring) in
      if ffinite area && ffinite uncertainty && fgt (fabs area) (fmul four uncertainty) then
        if fgt (FFin 0) area then -1 else 1
      else Qsgn (shoelace ring)
  end.

(** ** Lemmas: rounding *)

Lemma eta_pos : (0 < eta)%Q.
Proof. apply pow2_pos. Qed.

Lemma constants : (float_value (971 * 2 ^ 52) == 2 * eps /\ float_value 1 == 2 * eta /\ float_value (1024 * 2 ^ 52) == 2 /\ float_value (1025 * 2 ^ 52) == 4)%Q.
Proof. split_and!; [by vm_compute| |by vm_compute..]. rewrite <- pow2_eta. by vm_compute. Qed.

(** What is lost by rounding a product or a sum of numbers that are not negative. *)
Lemma close_lower (c p : Q) : close c p -> (0 <= p)%Q -> (0 <= c)%Q -> (p <= (1 + 2 * eps) * c + eta)%Q.
Proof.
  pose proof eta_pos as Heta. intros [H|[H _]] Hp Hc; rewrite ?(Qabs_pos p) in H by done; apply Qabs_Qle_condition in H as [H1 H2]; unfold eps in *; lra.
Qed.

Lemma relative_lower (c p : Q) : (Qabs (c - p) <= eps * Qabs p)%Q -> (0 <= p)%Q -> (0 <= c /\ p <= (1 + 2 * eps) * c)%Q.
Proof. intros H Hp. rewrite (Qabs_pos p) in H by done. apply Qabs_Qle_condition in H as [H1 H2]. unfold eps in *. split; lra. Qed.

Lemma close_error (c p : Q) : close c p -> (Qabs (c - p) <= 2 * eps * Qabs c + eta)%Q.
Proof.
  pose proof eta_pos as Heta. intros [H|[H _]].
  - pose proof (Qabs_triangle (p - c) c) as Ht. assert (p - c + c == p)%Q as E by ring. rewrite E in Ht.
    assert (Qabs (p - c) == Qabs (c - p))%Q as E' by (rewrite <- Qabs_opp; apply Qabs_wd; ring). rewrite E' in Ht. pose proof (Qabs_nonneg c). unfold eps in *. lra.
  - pose proof (Qabs_nonneg c). unfold eps. lra.
Qed.

Lemma close_nonneg (c : Z) (x : Q) : round64 x = FFin c -> (0 <= x)%Q -> (0 <= float_value c)%Q.
Proof.
  intros H Hx. rewrite <- float_value_0. apply float_value_le. destruct (round64_sign _ _ H) as (H1 & _ & H3).
  destruct (Qlt_le_dec 0 x) as [Hl|Hl]; [by apply H1|]. rewrite (H3 ltac:(lra)). done.
Qed.

Lemma abs_value_nonneg (r : Z) : (0 <= float_value (Z.abs r))%Q.
Proof. rewrite float_value_abs. apply Qabs_nonneg. Qed.

(** Sums and products of numbers that are not negative. *)
Lemma sum_lower (a b r : Z) : fadd (FFin a) (FFin b) = FFin r -> (0 <= float_value a)%Q -> (0 <= float_value b)%Q ->
  (0 <= float_value r /\ float_value a + float_value b <= (1 + 2 * eps) * float_value r)%Q.
Proof. intros H Ha Hb. apply relative_lower; [by apply fadd_error|lra]. Qed.

Lemma product_lower (a b r : Z) : fmul (FFin a) (FFin b) = FFin r -> (0 <= float_value a)%Q -> (0 <= float_value b)%Q ->
  (0 <= float_value r /\ float_value a * float_value b <= (1 + 2 * eps) * float_value r + eta)%Q.
Proof.
  intros H Ha Hb. assert (0 <= float_value a * float_value b)%Q as Hp by nra. pose proof (close_nonneg r _ H Hp) as Hr.
  split; [done|]. apply close_lower; [by apply fmul_error|done..].
Qed.

(** ** Lemmas: one turn of the loop *)

Lemma Qabs_le_iff (x y : Q) : (Qabs x <= y <-> - y <= x <= y)%Q.
Proof. split; [apply Qabs_Qle_condition|apply Qabs_Qle_condition]. Qed.

(** The error of a difference is about half of its estimate. *)
Lemma difference_bounds (a o x e : Z) :
  fsub (FFin a) (FFin o) = FFin x -> difference_error (FFin a) (FFin o) = FFin e ->
  (0 <= float_value e /\ Qabs (float_value x - (float_value a - float_value o)) <= (51 # 100) * float_value e)%Q.
Proof.
  intros Hx He. unfold difference_error in He. cbn [fabs] in He.
  destruct (fadd_finite _ _ _ He) as (m & k & Em & [= <-]). rewrite Em in He. destruct (fmul_finite _ _ _ Em) as (k & s & [= <-] & Es). rewrite Es in Em.
  destruct constants as (C1 & C2 & _). pose proof eta_pos as Heta.
  destruct (sum_lower _ _ _ Es (abs_value_nonneg a) (abs_value_nonneg o)) as [S0 S1]. rewrite !float_value_abs in S1.
  assert (0 <= float_value (971 * 2 ^ 52))%Q as Hpos by (rewrite C1; by vm_compute).
  destruct (product_lower _ _ _ Em Hpos S0) as [M0 M1]. rewrite C1 in M1.
  destruct (sum_lower _ _ _ He M0 ltac:(rewrite C2; lra)) as [E0 E1]. rewrite C2 in E1. apply fsub_error in Hx.
  pose proof (Qabs_triangle (float_value a) (- float_value o)) as Ht. rewrite Qabs_opp in Ht.
  assert (Qabs (float_value a + - float_value o) == Qabs (float_value a - float_value o))%Q as E by (apply Qabs_wd; ring). rewrite E in Ht.
  split; [done|]. unfold eps in *. lra.
Qed.

(** The error of a product of rounded differences, in the part of the uncertainty. *)
Lemma product_bounds (x xe y ye u : Z) (dx dy : Q) :
  (0 <= float_value xe)%Q -> (0 <= float_value ye)%Q ->
  (Qabs (float_value x - dx) <= (51 # 100) * float_value xe)%Q -> (Qabs (float_value y - dy) <= (51 # 100) * float_value ye)%Q ->
  product_uncertainty (FFin xe) (FFin x) (FFin ye) (FFin y) = FFin u ->
  (0 <= float_value u /\ Qabs (float_value x * float_value y - dx * dy) <= (52 # 100) * float_value u + (153 # 100) * eta)%Q.
Proof.
  intros Hxe Hye Hx Hy Hu. unfold product_uncertainty in Hu. cbn [fabs] in Hu.
  destruct (fadd_finite _ _ _ Hu) as (s & c3 & Es & E3). rewrite Es, E3 in Hu. destruct (fadd_finite _ _ _ Es) as (c1 & c2 & E1 & E2). rewrite E1, E2 in Es.
  destruct (product_lower _ _ _ E1 Hxe (abs_value_nonneg y)) as [P1 Q1]. destruct (product_lower _ _ _ E2 Hye (abs_value_nonneg x)) as [P2 Q2].
  destruct (product_lower _ _ _ E3 Hxe Hye) as [P3 Q3]. destruct (sum_lower _ _ _ Es P1 P2) as [P4 Q4]. destruct (sum_lower _ _ _ Hu P4 P3) as [P5 Q5].
  rewrite float_value_abs in Q1, Q2. split; [done|]. pose proof eta_pos as Heta.
  set (X := float_value x) in *. set (Y := float_value y) in *. set (XE := float_value xe) in *. set (YE := float_value ye) in *.
  assert (Qabs (X * Y - dx * dy) <= (51 # 100) * (XE * Qabs Y + YE * Qabs X + XE * YE))%Q as Hb.
  { assert (X * Y - dx * dy == (X - dx) * Y + (Y - dy) * X - (X - dx) * (Y - dy))%Q as -> by ring.
    pose proof (Qabs_triangle ((X - dx) * Y + (Y - dy) * X) (- ((X - dx) * (Y - dy)))) as T1. pose proof (Qabs_triangle ((X - dx) * Y) ((Y - dy) * X)) as T2.
    rewrite Qabs_opp in T1. rewrite (Qabs_Qmult (X - dx) (Y - dy)) in T1. rewrite (Qabs_Qmult (X - dx) Y), (Qabs_Qmult (Y - dy) X) in T2. pose proof (Qabs_nonneg X). pose proof (Qabs_nonneg Y). pose proof (Qabs_nonneg (X - dx)). pose proof (Qabs_nonneg (Y - dy)).
    assert (Qabs (X - dx) * Qabs Y <= (51 # 100) * XE * Qabs Y)%Q by nra. assert (Qabs (Y - dy) * Qabs X <= (51 # 100) * YE * Qabs X)%Q by nra.
    assert (Qabs (X - dx) * Qabs (Y - dy) <= (51 # 100) * XE * ((51 # 100) * YE))%Q by (apply Qmult_le_compat_nonneg; split; done).
    assert (0 <= XE * YE)%Q by nra. unfold Qminus in *. lra. }
  unfold eps in *. lra.
Qed.

Lemma product_uncertainty_finite (xe x ye y : fnum) (u : Z) : product_uncertainty xe x ye y = FFin u -> exists e f, xe = FFin e /\ ye = FFin f.
Proof.
  unfold product_uncertainty. intros (_ & c & _ & E)%fadd_finite. destruct (fmul_finite _ _ _ E) as (e & f & -> & ->). by exists e, f.
Qed.

(** The estimate of the rounding of products and sums. *)
Lemma rounding_bounds (pos neg A t w : Z) :
  fmul epsilon (fadd (fadd (fmul two (fadd (FFin (Z.abs pos)) (FFin (Z.abs neg)))) (FFin (Z.abs A))) (FFin (Z.abs t))) = FFin w ->
  (0 <= float_value w /\
   eps * (3 * (Qabs (float_value pos) + Qabs (float_value neg)) + Qabs (float_value A) + Qabs (float_value t)) <= (76 # 100) * float_value w + (76 # 100) * eta)%Q.
Proof.
  intros Hw. destruct (fmul_finite _ _ _ Hw) as (k & s4 & [= <-] & E4). rewrite E4 in Hw. destruct (fadd_finite _ _ _ E4) as (s3 & k & E3 & [= <-]). rewrite E3 in E4.
  destruct (fadd_finite _ _ _ E3) as (s2 & k & E2 & [= <-]). rewrite E2 in E3. destruct (fmul_finite _ _ _ E2) as (k & s1 & [= <-] & E1). rewrite E1 in E2.
  destruct constants as (C1 & _ & C3 & _). pose proof eta_pos as Heta.
  destruct (sum_lower _ _ _ E1 (abs_value_nonneg _) (abs_value_nonneg _)) as [P1 Q1].
  destruct (product_lower _ _ _ E2 ltac:(rewrite C3; lra) P1) as [P2 Q2]. rewrite C3 in Q2. destruct (sum_lower _ _ _ E3 P2 (abs_value_nonneg _)) as [P3 Q3].
  destruct (sum_lower _ _ _ E4 P3 (abs_value_nonneg _)) as [P4 Q4].
  destruct (product_lower _ _ _ Hw ltac:(rewrite C1; by vm_compute) P4) as [P5 Q5]. rewrite C1 in Q5. rewrite !float_value_abs in *. split; [done|].
  pose proof (Qabs_nonneg (float_value pos)). pose proof (Qabs_nonneg (float_value neg)). pose proof (Qabs_nonneg (float_value A)). pose proof (Qabs_nonneg (float_value t)).
  unfold eps in *. lra.
Qed.

(** The errors of a turn, one after the other. *)
Lemma turn_error (A A' t pos neg xy xy' T T' : Q) :
  (Qabs (A' - (A + t)) <= eps * Qabs (A + t))%Q -> (Qabs (t - (pos - neg)) <= eps * Qabs (pos - neg))%Q -> close pos xy -> close neg xy' ->
  (Qabs (A' - (A + (T - T'))) <= eps * (3 * (Qabs pos + Qabs neg) + Qabs A + Qabs t) + 2 * eta + Qabs (xy - T) + Qabs (xy' - T'))%Q.
Proof.
  intros H1 H2 H3%close_error H4%close_error.
  pose proof (Qabs_triangle A t) as T1. pose proof (Qabs_triangle pos (- neg)) as T2. rewrite Qabs_opp in T2.
  assert (Qabs (pos + - neg) == Qabs (pos - neg))%Q as E by (apply Qabs_wd; ring). rewrite E in T2. clear E.
  assert (Qabs (A' - (A + (T - T'))) <= Qabs (A' - (A + t)) + Qabs (t - (pos - neg)) + Qabs (pos - xy) + Qabs (neg - xy') + Qabs (xy - T) + Qabs (xy' - T'))%Q as Ht.
  { rewrite Qabs_le_iff. pose proof (proj1 (Qabs_le_iff (A' - (A + t)) _) (Qle_refl _)). pose proof (proj1 (Qabs_le_iff (t - (pos - neg)) _) (Qle_refl _)).
    pose proof (proj1 (Qabs_le_iff (pos - xy) _) (Qle_refl _)). pose proof (proj1 (Qabs_le_iff (neg - xy') _) (Qle_refl _)).
    pose proof (proj1 (Qabs_le_iff (xy - T) _) (Qle_refl _)). pose proof (proj1 (Qabs_le_iff (xy' - T') _) (Qle_refl _)). lra. }
  unfold eps in *. lra.
Qed.

(** The exact cross product of an edge as seen from the origin. *)
Definition turn (o : pos2) (ab : pos2 * pos2) : Q :=
  let '(a, b) := ab in ((coord (fst a) - coord (fst o)) * (coord (snd b) - coord (snd o)) - (coord (fst b) - coord (fst o)) * (coord (snd a) - coord (snd o)))%Q.

(** One turn: what it adds to the error of the area is at most three times what it
    adds to the uncertainty. *)
Lemma area_step_bounds (o a b : pos2) (x y : fnum) (A' U' : Z) :
  finite2 o -> finite2 a -> finite2 b -> area_step o (x, y) (a, b) = (FFin A', FFin U') ->
  exists A U, x = FFin A /\ y = FFin U /\
    ((0 <= float_value U)%Q ->
     exists inc, (2 * eta <= inc /\ 0 <= float_value U' /\ float_value U + inc <= (1 + 10 * eps) * float_value U'
       /\ Qabs (float_value A' - (float_value A + turn o (a, b))) <= 3 * inc)%Q).
Proof.
  intros [Ho0 Ho1] [Ha0 Ha1] [Hb0 Hb1]. unfold area_step. rewrite !of_bits_finite by done. intros [= EA EU].
  destruct (fadd_finite _ _ _ EU) as (u3 & k & Eu3 & [= <-]). rewrite Eu3 in EU. destruct (fadd_finite _ _ _ Eu3) as (u2 & w & Eu2 & Ew). rewrite Eu2, Ew in Eu3.
  destruct (fadd_finite _ _ _ Eu2) as (u1 & p2 & Eu1 & Ep2). rewrite Eu1, Ep2 in Eu2. destruct (fadd_finite _ _ _ Eu1) as (U & p1 & -> & Ep1). rewrite Ep1 in Eu1.
  destruct (fadd_finite _ _ _ EA) as (A & t & -> & Et). rewrite Et in EA, Ew. destruct (fsub_finite _ _ _ Et) as (pos & neg & Epos & Eneg). rewrite Epos, Eneg in Et, Ew.
  destruct (fmul_finite _ _ _ Epos) as (xa & yb & Exa & Eyb), (fmul_finite _ _ _ Eneg) as (xb & ya & Exb & Eya). rewrite Exa, Eyb in Epos, Ep1. rewrite Exb, Eya in Eneg, Ep2.
  destruct (product_uncertainty_finite _ _ _ _ _ Ep1) as (xae & ybe & Exae & Eybe), (product_uncertainty_finite _ _ _ _ _ Ep2) as (xbe & yae & Exbe & Eyae).
  rewrite Exae, Eybe in Ep1. rewrite Exbe, Eyae in Ep2. exists A, U. split; [done|]. split; [done|]. intros HU.
  destruct (difference_bounds _ _ _ _ Exa Exae) as [D1 D1'], (difference_bounds _ _ _ _ Eyb Eybe) as [D2 D2'],
    (difference_bounds _ _ _ _ Exb Exbe) as [D3 D3'], (difference_bounds _ _ _ _ Eya Eyae) as [D4 D4'].
  destruct (product_bounds _ _ _ _ _ _ _ D1 D2 D1' D2' Ep1) as [P1 B1], (product_bounds _ _ _ _ _ _ _ D3 D4 D3' D4' Ep2) as [P2 B2].
  destruct (rounding_bounds _ _ _ _ _ Ew) as [Pw Bw]. destruct constants as (_ & C2 & _). pose proof eta_pos as Heta.
  destruct (sum_lower _ _ _ Eu1 HU P1) as [U1 V1]. destruct (sum_lower _ _ _ Eu2 U1 P2) as [U2 V2]. destruct (sum_lower _ _ _ Eu3 U2 Pw) as [U3 V3].
  destruct (sum_lower _ _ _ EU U3 ltac:(rewrite C2; lra)) as [U4 V4]. rewrite C2 in V4.
  exists (float_value p1 + float_value p2 + float_value w + 2 * eta)%Q. split; [lra|]. split; [done|]. split; [unfold eps in *; lra|].
  pose proof (turn_error _ _ _ _ _ _ _ ((coord (fst a) - coord (fst o)) * (coord (snd b) - coord (snd o))) ((coord (fst b) - coord (fst o)) * (coord (snd a) - coord (snd o)))
    (fadd_error _ _ _ EA) (fsub_error _ _ _ Et) (fmul_error _ _ _ Epos) (fmul_error _ _ _ Eneg)) as Hturn.
  unfold turn, coord in *. lra.
Qed.

(** ** Lemmas: the whole loop *)

Definition turns (o : pos2) (pairs : list (pos2 * pos2)) : Q := foldr (fun ab s => (turn o ab + s)%Q) 0%Q pairs.

Lemma turns_app (o : pos2) (l l' : list (pos2 * pos2)) : (turns o (l ++ l') == turns o l + turns o l')%Q.
Proof. induction l as [|ab l IH]; cbn [app turns foldr]; [unfold turns; cbn; ring|]. fold (turns o (l ++ l')). fold (turns o l). rewrite IH. ring. Qed.

(** Rings of up to [2 ^ 40] points: the estimate is rounded down too, by a little in
    each turn. *)
Lemma area_loop (o : pos2) (pairs : list (pos2 * pos2)) (A U : Z) :
  finite2 o -> Forall (fun ab => finite2 (fst ab) /\ finite2 (snd ab)) pairs -> Z.of_nat (length pairs) <= 2 ^ 40 ->
  foldl (area_step o) (FFin 0, FFin 0) pairs = (FFin A, FFin U) ->
  (0 <= float_value U /\ Qabs (float_value A - turns o pairs) <= (3 + 40 * eps * inject_Z (Z.of_nat (length pairs))) * float_value U)%Q
  /\ (pairs = [] /\ A = 0 \/ (eta <= (51 # 100) * float_value U)%Q).
Proof.
  intros Ho. revert A U. induction pairs as [|[a b] pairs IH] using rev_ind; intros A U Hf Hn.
  - intros [= <- <-]. rewrite float_value_0. split; [|by left]. split; [done|]. cbn. done.
  - rewrite foldl_app. cbn [foldl]. apply Forall_app in Hf as [Hf Hab]. apply Forall_cons in Hab as [[Ha Hb] _]. cbn [fst snd] in *.
    rewrite length_app in *. cbn [length] in *. destruct (foldl (area_step o) (FFin 0, FFin 0) pairs) as [x y] eqn:E.
    intros H. destruct (area_step_bounds o a b x y A U Ho Ha Hb H) as (A0 & U0 & -> & -> & Hb0). destruct (IH A0 U0 Hf ltac:(lia) eq_refl) as [[HU Herr] _].
    destruct (Hb0 HU) as (inc & Hi & HU' & Hsum & Hstep). pose proof eta_pos as Heta. split.
    + split; [done|]. rewrite turns_app. cbn [turns foldr]. set (T := turn o (a, b)) in *. fold (turns o pairs) in *.
      replace (Z.of_nat (length pairs + 1)) with (Z.of_nat (length pairs) + 1) by lia. rewrite inject_Z_plus. change (inject_Z 1) with 1%Q.
      assert (0 <= inject_Z (Z.of_nat (length pairs)) <= inject_Z (2 ^ 40))%Q as Hk by (split; [change 0%Q with (inject_Z 0)|]; rewrite <- Zle_Qle; lia).
      set (k := inject_Z (Z.of_nat (length pairs))) in *. change (inject_Z (2 ^ 40)) with (1099511627776 # 1)%Q in Hk.
      set (K := (3 + 40 * eps * k)%Q) in *. assert (3 <= K <= 4)%Q as HK by (unfold K, eps; lra).
      assert (3 + 40 * eps * (k + 1) == K + 40 * eps)%Q as -> by (unfold K; ring).
      assert (Qabs (float_value A - (turns o pairs + (T + 0))) <= Qabs (float_value A0 - turns o pairs) + Qabs (float_value A - (float_value A0 + T)))%Q as Ht.
      { assert (float_value A - (turns o pairs + (T + 0)) == (float_value A0 - turns o pairs) + (float_value A - (float_value A0 + T)))%Q as -> by ring. apply Qabs_triangle. }
      assert (K * float_value U0 + 3 * inc <= K * (float_value U0 + inc))%Q as H1 by nra.
      assert (K * (float_value U0 + inc) <= K * ((1 + 10 * eps) * float_value U))%Q as H2 by (apply Qmult_le_compat_nonneg; split; lra).
      assert (10 * eps * (K * float_value U) <= 40 * eps * float_value U)%Q as H3 by (unfold eps; nra). lra.
    + right. unfold eps in *. lra.
Qed.

Definition cross (a b : pos2) : Q := (coord (fst a) * coord (snd b) - coord (fst b) * coord (snd a))%Q.

Lemma last_cons_default {A : Type} (a b : A) (l : list A) : List.last (b :: l) a = List.last l b.
Proof.
  assert (forall (m : list A) d d', m <> [] -> List.last m d = List.last m d') as H.
  { intros m d d'. induction m as [|x [|y m] IH]; [done|done|]. intros _. by apply IH. }
  destruct l as [|c l]; [done|]. by apply (H (c :: l) a b).
Qed.

(** Seen from any origin the sum is the same, for a ring that is closed. *)
Lemma turns_shoelace (o a : pos2) (ring : list pos2) :
  (turns o (ring_pairs (a :: ring)) == shoelace (a :: ring) + cross (List.last ring a) o - cross a o)%Q.
Proof.
  revert a. induction ring as [|b ring IH]; intros a; [unfold ring_pairs, turns, shoelace; cbn -[coord]; ring|].
  change (ring_pairs (a :: b :: ring)) with ((a, b) :: ring_pairs (b :: ring)). unfold shoelace in *.
  change (ring_pairs (a :: b :: ring)) with ((a, b) :: ring_pairs (b :: ring)). cbn [turns foldr fst snd point] in *. fold (turns o (ring_pairs (b :: ring))). rewrite IH.
  rewrite last_cons_default. unfold turn, cross. ring.
Qed.

Lemma round64_negative (x : Q) : round64 x = FInf true -> (x < 0)%Q.
Proof. unfold round64. destruct (Qcompare x 0) eqn:E; [done|by apply Qlt_alt in E|]. by destruct (max_rank <? _). Qed.

(** The orientation of a closed ring of finite positions is the exact sign of its area,
    also where the sum in floating point is not exact. *)
Lemma ringAreaSign_exact (ring : list pos2) :
  Forall finite2 ring -> (point (List.last ring (0, 0)) = point (default (0, 0) (head ring))) -> Z.of_nat (length ring) <= 2 ^ 40 ->
  ringAreaSign ring = Qsgn (shoelace ring).
Proof.
  intros Hf Hc Hn. destruct ring as [|o ring]; [done|]. cbn [head default] in Hc. unfold id in Hc. unfold ringAreaSign.
  destruct (foldl _ _ _) as [area uncertainty] eqn:E. destruct (ffinite area && ffinite uncertainty && _) eqn:Ef; [|done].
  apply andb_prop in Ef as [[Ea Eu]%andb_prop Eg]. destruct area as [A| |], uncertainty as [U| |]; try done. clear Ea Eu.
  assert (Forall (fun ab => finite2 (fst ab) /\ finite2 (snd ab)) (ring_pairs (o :: ring))) as Hp.
  { apply Forall_forall. intros [a b] Hab%list_elem_of_In. unfold ring_pairs in Hab. cbn [tail] in Hab. rewrite Forall_forall in Hf.
    split; apply Hf, list_elem_of_In; [by apply in_combine_l in Hab|apply in_combine_r in Hab; by right]. }
  assert (length (ring_pairs (o :: ring)) <= length (o :: ring))%nat as Hlen by (unfold ring_pairs; rewrite length_combine; lia).
  destruct (area_loop o (ring_pairs (o :: ring)) A U ltac:(by apply Forall_cons in Hf as [? _]) Hp ltac:(lia) E) as [[HU Herr] Hbig].
  rewrite turns_shoelace in Herr. assert (cross (List.last ring o) o - cross o o == 0)%Q as Ecl.
  { rewrite last_cons_default in Hc. unfold cross. injection Hc as E1 E2. rewrite E1, E2. ring. }
  destruct constants as (_ & _ & _ & C4). destruct (fmul four (FFin U)) as [m|[]|] eqn:Em; try done; cbn [fabs fgt] in Eg.
  2: { apply round64_negative in Em. rewrite C4 in Em. lra. }
  apply Z.ltb_lt in Eg. destruct (product_lower _ _ _ Em ltac:(rewrite C4; lra) HU) as [M0 M1]. rewrite C4 in M1.
  pose proof (float_value_lt _ _ Eg) as Hg. rewrite float_value_abs in Hg. pose proof eta_pos as Heta.
  assert (0 <= m) as Hm by (apply Z.nlt_ge; intros Hlt; pose proof (float_value_lt _ _ Hlt); rewrite float_value_0 in *; lra).
  destruct Hbig as [[_ ->]|Hbig]; [cbn in Eg; lia|].
  assert (0 <= inject_Z (Z.of_nat (length (ring_pairs (o :: ring)))) <= 1099511627776)%Q as Hk.
  { change 1099511627776%Q with (inject_Z (2 ^ 40)). change 0%Q with (inject_Z 0). rewrite <- !Zle_Qle. lia. }
  set (k := inject_Z _) in *. set (S := shoelace (o :: ring)) in *. assert ((3 + 40 * eps * k) * float_value U <= (301 # 100) * float_value U)%Q as HK by (unfold eps; nra).
  assert (Qabs (float_value A - S) < Qabs (float_value A))%Q as Hs.
  { assert (float_value A - S == float_value A - (S + cross (List.last ring o) o - cross o o))%Q as -> by lra. unfold eps in *. lra. }
  cbn [fgt]. destruct (Z.ltb_spec A 0) as [HA|HA].
  - pose proof (float_value_lt _ _ HA) as HA'. rewrite float_value_0 in HA'. rewrite (Qabs_neg (float_value A)) in Hs by lra.
    pose proof (Qle_Qabs (- (float_value A - S))) as Hle. rewrite Qabs_opp in Hle. destruct (Qsgn_cases S) as [[H ->]|[[H ->]|[H ->]]]; done || lra.
  - assert (0 < A) as HA0 by lia. pose proof (float_value_lt _ _ HA0) as HA'. rewrite float_value_0 in HA'. rewrite (Qabs_pos (float_value A)) in Hs by lra.
    pose proof (Qle_Qabs (float_value A - S)) as Hle. destruct (Qsgn_cases S) as [[H ->]|[[H ->]|[H ->]]]; done || lra.
Qed.
