(* ===== verification/GeoJson.v ===== *)
(** * ogc/features/geojson.go: geometries as GeoJSON

    The encoding of a geometry (encodeGeometry) as a tree of GeoJSON, with the rings of
    polygons closed and turned the way RFC 7946 wants them (normalizePolygon,
    normalizePolygonZ).  The rings are changed in place: the operations return the
    changed geometry beside the tree.  Slices are not nil, and [json.Marshal] of finite
    numbers does not fail. *)

From Stdlib Require Import Qabs Lqa.
From S2P Require Import Prelude GoText Float64 FloatArith Plane RawGeom FeatureExtent FeatureSpatial RingArea.

#[local] Open Scope Z_scope.

(** ** Rings *)

Inductive geojson_error :=
| JsonShape (reason : string)
| JsonSpatial (e : spatial_error)
| JsonNumber.

(** Two positions are equal when their values are. *)
Definition key2 (p : pos2) : Z * Z := (float_rank (fst p), float_rank (snd p)).
Definition key3 (p : pos3) : Z * Z * Z := let '(x, y, z) := p in (float_rank x, float_rank y, float_rank z).

Section Ring.
Context {P K : Type} `{EqDecision K, Countable K} (key : P -> K).

(** The number of different positions. *)
Definition distinct (ring : list P) : nat := size (list_to_set (map key ring) : gset K).

(** The first position again at the end, unless it is there. *)
Definition close_ring (ring : list P) : list P :=
  match ring with
  | [] => []
  | p :: _ => if bool_decide (key p = key (List.last ring p)) then ring else ring ++ [p]
  end.

(** A ring in its polygon: the outer one or a hole.  [few] and [zero] are the errors. *)
Definition normalize_ring (few zero : string) (sign : list P -> Z) (outer : bool) (ring : list P) : list P * option geojson_error :=
  if (distinct ring <? 3)%nat then (ring, Some (JsonShape few))
  else
    let ring := close_ring ring in
    let orientation := sign ring in
    if orientation =? 0 then (ring, Some (JsonShape zero))
    else if (outer && (orientation <? 0)) || (negb outer && (0 <? orientation)) then (rev ring, None)
    else (ring, None).

End Ring.

(** A loop that changes the elements in place and stops at the first error. *)
Fixpoint change_all {A E : Type} (f : A -> A * option E) (l : list A) : list A * option E :=
  match l with
  | [] => ([], None)
  | a :: l =>
      let '(a, e) := f a in
      match e with
      | Some e => (a :: l, Some e)
      | None => let '(l, e) := change_all f l in (a :: l, e)
      end
  end.

(** The rings of a polygon: the outer one and the holes. *)
Definition change_rings {P : Type} (f : bool -> list P -> list P * option geojson_error) (rings : list (list P)) : list (list P) * option geojson_error :=
  match rings with
  | [] => ([], Some (JsonShape "polygon has no rings"))
  | outer :: holes =>
      let '(outer, e) := f true outer in
      match e with
      | Some e => (outer :: holes, Some e)
      | None => let '(holes, e) := change_all (f false) holes in (outer :: holes, e)
      end
  end.

Definition normalizePolygon (polygon : list (list pos2)) : list (list pos2) * option geojson_error :=
  change_rings (fun outer ring =>
    if existsb (fun p => negb (featureFinite (fst p) && featureFinite (snd p))) ring then (ring, Some (JsonShape "nonfinite polygon coordinate"))
    else normalize_ring key2 "polygon ring has fewer than three distinct positions" "zero polygon area" ringAreaSign outer ring) polygon.

(** The frames of normalizePolygonZ: pairs of axes. *)
Definition project (axes : nat * nat) (p : pos3) : pos2 := (axis3 p (fst axes), axis3 p (snd axes)).

Definition project_ring (axes : nat * nat) (ring : list pos3) : list pos2 := map (project axes) (close_ring key3 ring).

Definition frame (ring : list pos3) : nat * nat :=
  if negb (ringAreaSign (project_ring (0, 1)%nat ring) =? 0) then (0, 1)%nat
  else if negb (ringAreaSign (project_ring (1, 2)%nat ring) =? 0) then (1, 2)%nat
  else (2, 0)%nat.

Definition normalizePolygonZ (polygon : list (list pos3)) : list (list pos3) * option geojson_error :=
  match validate_polygon3 polygon with
  | Err e => (polygon, Some (JsonSpatial e))
  | Ok _ =>
      match polygon with
      | [] => ([], Some (JsonShape "XYZ polygon has no rings"))
      | ring :: _ =>
          let axes := frame ring in
          change_rings (normalize_ring key3 "XYZ polygon ring has fewer than three distinct positions" "zero XYZ polygon surface area"
                          (fun r => ringAreaSign (project_ring axes r))) polygon
      end
  end.

(** ** Trees *)

#[local] Unset Elimination Schemes.
Inductive coordinates := CNumber (b : f64) | CArray (l : list coordinates).

Inductive geojson := JGeometry (type : string) (c : coordinates) | JCollection (members : list geojson).
#[local] Set Elimination Schemes.

Definition position2 (p : pos2) : coordinates := CArray [CNumber (fst p); CNumber (snd p)].
Definition position3 (p : pos3) : coordinates := let '(x, y, z) := p in CArray [CNumber x; CNumber y; CNumber z].
Definition array {A : Type} (f : A -> coordinates) (l : list A) : coordinates := CArray (map f l).

(** [json.Marshal] refuses numbers that are not finite. *)
Fixpoint marshals (c : coordinates) : bool := match c with CNumber b => featureFinite b | CArray l => forallb marshals l end.

Definition marshal (type : string) (c : coordinates) : result geojson_error geojson := if marshals c then Ok (JGeometry type c) else Err JsonNumber.

Definition short {A : Type} (l : list A) : bool := (length l <? 2)%nat.

(** The changed rings and the tree, or the error. *)
Definition marshal_rings {A : Type} (wrap : list A -> geometry) (type : string) (f : A -> coordinates) (changed : list A * option geojson_error)
    : geometry * result geojson_error geojson :=
  let '(l, e) := changed in (wrap l, match e with Some e => Err e | None => marshal type (array f l) end).

Fixpoint encode_geometry (g : geometry) : geometry * result geojson_error geojson :=
  match g with
  | Point p => (g, marshal "Point" (position2 p))
  | PointZ p => (g, marshal "Point" (position3 p))
  | MultiPointZ ps => (g, marshal "MultiPoint" (array position3 ps))
  | LineStringZ ps => (g, if short ps then Err (JsonShape "invalid XYZ LineString coordinate count") else marshal "LineString" (array position3 ps))
  | MultiLineStringZ ls =>
      (g, if existsb short ls then Err (JsonShape "invalid XYZ MultiLineString coordinate count") else marshal "MultiLineString" (array (array position3) ls))
  | PolygonZ rs => marshal_rings PolygonZ "Polygon" (array position3) (normalizePolygonZ rs)
  | MultiPolygonZ gs => marshal_rings MultiPolygonZ "MultiPolygon" (array (array position3)) (change_all normalizePolygonZ gs)
  | MultiPoint ps => (g, marshal "MultiPoint" (array position2 ps))
  | LineString ps => (g, if short ps then Err (JsonShape "invalid LineString coordinate count") else marshal "LineString" (array position2 ps))
  | MultiLineString ls =>
      (g, if existsb short ls then Err (JsonShape "invalid MultiLineString coordinate count") else marshal "MultiLineString" (array (array position2) ls))
  | Polygon rs => marshal_rings Polygon "Polygon" (array position2) (normalizePolygon rs)
  | MultiPolygon gs => marshal_rings MultiPolygon "MultiPolygon" (array (array position2)) (change_all normalizePolygon gs)
  | Collection gs =>
      let '(gs, r) :=
        (fix loop (gs : list (option geometry)) : list (option geometry) * result geojson_error (list geojson) :=
           match gs with
           | [] => ([], Ok [])
           | None :: gs => (None :: gs, Err (JsonShape "null child in GeometryCollection"))
           | Some child :: gs =>
               let '(child, r) := encode_geometry child in
               match r with
               | Err e => (Some child :: gs, Err e)
               | Ok encoded => let '(gs, r) := loop gs in (Some child :: gs, let? members := r in Ok (encoded :: members))
               end
           end) gs in
      (Collection gs, let? members := r in Ok (JCollection members))
  end.

(** nil is encoded as null, here [None]. *)
Definition encodeGeometry (g : option geometry) : option geometry * result geojson_error (option geojson) :=
  match g with
  | None => (None, Ok None)
  | Some g => let '(g, r) := encode_geometry g in (Some g, let? j := r in Ok (Some j))
  end.

(** ** RFC 7946 *)

(** A ring as it is published: closed, the positions kept in order or reversed, with at
    least three different ones, the outer ring counterclockwise and holes clockwise in
    the frame. *)
Section Published.
Context {P K : Type} `{EqDecision K, Countable K} (key : P -> K) (flat : P -> pos2).

Record published (outer : bool) (ring ring' : list P) : Prop := {
  pb_finite : Forall (fun p => finite2 (flat p)) ring;
  pb_distinct : (3 <= distinct key ring)%nat;
  pb_positions : ring' = close_ring key ring \/ ring' = rev (close_ring key ring);
  pb_turn : if outer then (0 < shoelace (map flat ring'))%Q else (shoelace (map flat ring') < 0)%Q
}.

Definition published_rings (rings rings' : list (list P)) : Prop :=
  exists outer holes outer' holes', rings = outer :: holes /\ rings' = outer' :: holes' /\ published true outer outer' /\ Forall2 (published false) holes holes'.
End Published.

Definition published2 : list (list pos2) -> list (list pos2) -> Prop := published_rings key2 id.

Definition published3 (rings rings' : list (list pos3)) : Prop :=
  validate_polygon3 rings = Ok tt /\ published_rings key3 (project (frame (default [] (head rings)))) rings rings'.

(** A geometry and how it is published. *)
Fixpoint rfc7946 (g g' : geometry) : Prop :=
  match g, g' with
  | Point p, Point _ => finite2 p /\ g' = g
  | PointZ p, PointZ _ => finite3 p /\ g' = g
  | MultiPoint ps, MultiPoint _ => Forall finite2 ps /\ g' = g
  | MultiPointZ ps, MultiPointZ _ => Forall finite3 ps /\ g' = g
  | LineString ps, LineString _ => (2 <= length ps)%nat /\ Forall finite2 ps /\ g' = g
  | LineStringZ ps, LineStringZ _ => (2 <= length ps)%nat /\ Forall finite3 ps /\ g' = g
  | MultiLineString ls, MultiLineString _ => Forall (fun l => (2 <= length l)%nat /\ Forall finite2 l) ls /\ g' = g
  | MultiLineStringZ ls, MultiLineStringZ _ => Forall (fun l => (2 <= length l)%nat /\ Forall finite3 l) ls /\ g' = g
  | Polygon rs, Polygon rs' => published2 rs rs'
  | PolygonZ rs, PolygonZ rs' => published3 rs rs'
  | MultiPolygon gs, MultiPolygon gs' => Forall2 published2 gs gs'
  | MultiPolygonZ gs, MultiPolygonZ gs' => Forall2 published3 gs gs'
  | Collection gs, Collection gs' =>
      (fix members (gs gs' : list (option geometry)) : Prop :=
         match gs, gs' with
         | [], [] => True
         | Some c :: gs, Some c' :: gs' => rfc7946 c c' /\ members gs gs'
         | _, _ => False
         end) gs gs'
  | _, _ => False
  end.

(** The tree of a published geometry. *)
Fixpoint tree (g : geometry) : geojson :=
  match g with
  | Point p => JGeometry "Point" (position2 p)
  | PointZ p => JGeometry "Point" (position3 p)
  | MultiPoint ps => JGeometry "MultiPoint" (array position2 ps)
  | MultiPointZ ps => JGeometry "MultiPoint" (array position3 ps)
  | LineString ps => JGeometry "LineString" (array position2 ps)
  | LineStringZ ps => JGeometry "LineString" (array position3 ps)
  | MultiLineString ls => JGeometry "MultiLineString" (array (array position2) ls)
  | MultiLineStringZ ls => JGeometry "MultiLineString" (array (array position3) ls)
  | Polygon rs => JGeometry "Polygon" (array (array position2) rs)
  | PolygonZ rs => JGeometry "Polygon" (array (array position3) rs)
  | MultiPolygon gs => JGeometry "MultiPolygon" (array (array (array position2)) gs)
  | MultiPolygonZ gs => JGeometry "MultiPolygon" (array (array (array position3)) gs)
  | Collection gs => JCollection (map (fun c => match c with Some c => tree c | None => JCollection [] end) gs)
  end.

(** Rings of a size the area of which is exact; all that fit in memory are. *)
Definition small {A : Type} (ring : list A) : Prop := Z.of_nat (length ring) < 2 ^ 40.

Fixpoint small_rings (g : geometry) : Prop :=
  match g with
  | Polygon rs => Forall small rs
  | PolygonZ rs => Forall small rs
  | MultiPolygon gs => Forall (Forall small) gs
  | MultiPolygonZ gs => Forall (Forall small) gs
  | Collection gs => (fix members (gs : list (option geometry)) : Prop := match gs with [] => True | c :: gs => on_some small_rings c /\ members gs end) gs
  | _ => True
  end.

(** ** Lemmas: rings *)

Lemma ring_pairs_snoc {A : Type} (a b : A) (l : list A) : ring_pairs ((a :: l) ++ [b]) = ring_pairs (a :: l) ++ [(List.last l a, b)].
Proof.
  revert a. induction l as [|c l IH]; intros a; [done|]. change (ring_pairs ((a :: c :: l) ++ [b])) with ((a, c) :: ring_pairs ((c :: l) ++ [b])).
  rewrite IH, last_cons_default. done.
Qed.

Lemma ring_pairs_rev {A : Type} (l : list A) : ring_pairs (rev l) = rev (map (fun ab => (snd ab, fst ab)) (ring_pairs l)).
Proof.
  induction l as [|a l IH]; [done|]. cbn [rev]. destruct l as [|b l]; [done|]. change (ring_pairs (a :: b :: l)) with ((a, b) :: ring_pairs (b :: l)).
  cbn [map rev fst snd]. rewrite <- IH. cbn [rev]. destruct (rev l) as [|c r] eqn:E; [done|]. cbn [app].
  change (ring_pairs (c :: r ++ [b])) with (ring_pairs ((c :: r) ++ [b])). change (c :: (r ++ [b]) ++ [a]) with ((c :: r ++ [b]) ++ [a]). rewrite ring_pairs_snoc. f_equal. f_equal. f_equal. apply List.last_last.
Qed.

Definition edge_cross (ab : pos2 * pos2) : Q := (fst (point (fst ab)) * snd (point (snd ab)) - fst (point (snd ab)) * snd (point (fst ab)))%Q.

Lemma shoelace_sum (ring : list pos2) : shoelace ring = foldr (fun ab s => (edge_cross ab + s)%Q) 0%Q (ring_pairs ring).
Proof. done. Qed.

Lemma sum_snoc {A : Type} (f : A -> Q) (l : list A) (a : A) : (foldr (fun x s => (f x + s)%Q) 0%Q (l ++ [a]) == foldr (fun x s => (f x + s)%Q) 0%Q l + f a)%Q.
Proof. induction l as [|b l IH]; cbn [app foldr]; [ring|]. rewrite IH. ring. Qed.

(** A ring the other way round has the opposite area. *)
Lemma shoelace_rev (ring : list pos2) : (shoelace (rev ring) == - shoelace ring)%Q.
Proof.
  rewrite !shoelace_sum, ring_pairs_rev. induction (ring_pairs ring) as [|ab l IH]; cbn [map rev foldr]; [ring|].
  rewrite sum_snoc, IH. unfold edge_cross. cbn [fst snd]. ring.
Qed.

Section Closed.
Context {P K : Type} `{EqDecision K, Countable K} (key : P -> K).

Lemma close_ring_cons (p : P) (r : list P) : exists r', close_ring key (p :: r) = p :: r' /\ key (List.last r' p) = key p /\ (r' = r \/ r' = r ++ [p]).
Proof using.
  unfold close_ring. rewrite last_cons_default. case_bool_decide as E; [exists r; auto|]. exists (r ++ [p]). split; [done|]. split; [|by right]. by rewrite List.last_last.
Qed.

Lemma close_ring_closed (p : P) (r : list P) : key (List.last r p) = key p -> close_ring key (p :: r) = p :: r.
Proof using. intros E. unfold close_ring. rewrite last_cons_default. by rewrite bool_decide_true. Qed.

Lemma close_ring_twice (ring : list P) : close_ring key (close_ring key ring) = close_ring key ring.
Proof using. destruct ring as [|p r]; [done|]. destruct (close_ring_cons p r) as (r' & -> & E & _). by apply close_ring_closed. Qed.

Lemma close_ring_Forall (Q : P -> Prop) (ring : list P) : Forall Q ring -> Forall Q (close_ring key ring).
Proof using.
  intros H1. destruct ring as [|p r]; [done|]. destruct (close_ring_cons p r) as (r' & -> & _ & [->| ->]); [done|]. apply Forall_cons in H1 as [H2 H3].
  apply Forall_cons. split; [done|]. apply Forall_app. by split; [|constructor].
Qed.

Lemma close_ring_length (ring : list P) : (length (close_ring key ring) <= S (length ring))%nat.
Proof using. destruct ring as [|p r]; [cbn; lia|]. destruct (close_ring_cons p r) as (r' & -> & _ & [->| ->]); cbn [length]; rewrite ?length_app; cbn; lia. Qed.

Context (flat : P -> pos2) (Hflat : forall p q, key p = key q -> point (flat p) = point (flat q)).

(** The sign of a closed ring is exact. *)
Lemma closed_sign (ring : list P) :
  Forall (fun p => finite2 (flat p)) ring -> small ring ->
  ringAreaSign (map flat (close_ring key ring)) = Qsgn (shoelace (map flat (close_ring key ring))).
Proof using Hflat.
  intros Hf Hs. apply ringAreaSign_exact.
  - apply Forall_map. by apply close_ring_Forall.
  - destruct ring as [|p r]; [done|]. destruct (close_ring_cons p r) as (r' & -> & E & _). cbn [map head default]. unfold id. rewrite last_cons_default.
    rewrite <- (Hflat _ _ E). f_equal. clear. revert p. induction r' as [|q r' IH]; intros p; [done|]. cbn [map]. rewrite !last_cons_default. apply IH.
  - rewrite length_map. pose proof (close_ring_length ring). unfold small in Hs. lia.
Qed.

Lemma normalize_ring_iff (few zero : string) (sign : list P -> Z) (outer : bool) (ring ring' : list P) :
  Forall (fun p => finite2 (flat p)) ring -> sign (close_ring key ring) = Qsgn (shoelace (map flat (close_ring key ring))) ->
  normalize_ring key few zero sign outer ring = (ring', None) <-> published key flat outer ring ring'.
Proof using.
  intros Hf Hs. unfold normalize_ring. rewrite Hs. clear Hs. pose proof (shoelace_rev (map flat (close_ring key ring))) as Hr. rewrite <- map_rev in Hr. split.
  - destruct (Nat.ltb_spec (distinct key ring) 3); [done|]. destruct (Qsgn_cases (shoelace (map flat (close_ring key ring)))) as [[Hc ->]|[[Hc ->]|[Hc ->]]]; [|done|];
      destruct outer; intros [= <-]; split; try done; auto; lra.
  - intros [_ Hd Hp Ht]. rewrite (proj2 (Nat.ltb_ge _ _)) by done.
    destruct Hp as [->| ->]; destruct (Qsgn_cases (shoelace (map flat (close_ring key ring)))) as [[Hc ->]|[[Hc ->]|[Hc ->]]]; destruct outer; try done; lra.
Qed.
End Closed.

(** ** Lemmas: polygons *)

Lemma change_all_iff {A E : Type} (f : A -> A * option E) (l l' : list A) : change_all f l = (l', None) <-> Forall2 (fun a a' => f a = (a', None)) l l'.
Proof.
  revert l'. induction l as [|a l IH]; intros l'; cbn [change_all].
  - split; [intros [= <-]; constructor|]. intros H. by inversion H.
  - split.
    + destruct (f a) as [a' [e|]] eqn:Ea; [done|]. destruct (change_all f l) as [m o] eqn:Em. intros [= <- ->]. constructor; [done|]. by apply IH.
    + intros H. inversion H as [|? a' ? m Ha Hm]; subst. rewrite Ha. by rewrite (proj2 (IH m) Hm).
Qed.

Lemma change_rings_iff {P : Type} (f : bool -> list P -> list P * option geojson_error) (rings rings' : list (list P)) :
  change_rings f rings = (rings', None) <->
  exists outer holes outer' holes', rings = outer :: holes /\ rings' = outer' :: holes' /\ f true outer = (outer', None) /\ Forall2 (fun a a' => f false a = (a', None)) holes holes'.
Proof.
  destruct rings as [|outer holes]; cbn [change_rings]; [split; [done|by intros (? & ? & ? & ? & ? & _)]|]. split.
  - destruct (f true outer) as [outer' [e|]] eqn:Eo; [done|]. destruct (change_all (f false) holes) as [holes' o] eqn:Eh. intros [= <- ->]. apply change_all_iff in Eh. by exists outer, holes, outer', holes'.
  - intros (? & ? & outer' & holes' & [= <- <-] & -> & -> & Hh). by rewrite (proj2 (change_all_iff _ _ _) Hh).
Qed.

Lemma Forall2_iff {A C : Type} (R S : A -> C -> Prop) (P : A -> Prop) (l : list A) (l' : list C) :
  Forall P l -> (forall a c, P a -> R a c <-> S a c) -> Forall2 R l l' <-> Forall2 S l l'.
Proof.
  intros HP H. revert l'. induction HP as [|a l Ha HP IH]; intros l'; (split; intros Hl; inversion Hl; subst; constructor);
    first [by apply H|by apply IH].
Qed.

Lemma change_rings_published {P K : Type} `{EqDecision K, Countable K} (key : P -> K) (flat : P -> pos2) (f : bool -> list P -> list P * option geojson_error) (Q : list P -> Prop)
    (rings rings' : list (list P)) :
  Forall Q rings -> (forall outer ring ring', Q ring -> f outer ring = (ring', None) <-> published key flat outer ring ring') ->
  change_rings f rings = (rings', None) <-> published_rings key flat rings rings'.
Proof.
  intros HQ Hf. rewrite change_rings_iff. unfold published_rings.
  split; intros (outer & holes & outer' & holes' & -> & -> & Ho & Hh); apply Forall_cons in HQ as [Q1 Q2]; exists outer, holes, outer', holes'; (split; [done|]); (split; [done|]);
    (split; [by apply Hf|]); revert Hh; apply (Forall2_iff _ _ Q); try done; intros a c Ha; [by rewrite Hf|by rewrite Hf].
Qed.

Lemma point_key2 (p q : pos2) : key2 p = key2 q -> point (id p) = point (id q).
Proof. destruct p, q. unfold key2, point, coord, id. cbn. by intros [= -> ->]. Qed.

Lemma point_key3 (axes : nat * nat) (p q : pos3) : key3 p = key3 q -> point (project axes p) = point (project axes q).
Proof.
  destruct p as [[x y] z], q as [[x' y'] z']. unfold key3, point, coord. intros [= Ex Ey Ez]. unfold project, axis3. cbn [fst snd].
  by destruct (fst axes) as [|[|]], (snd axes) as [|[|]]; rewrite ?Ex, ?Ey, ?Ez.
Qed.

Lemma nonfinite_ring (ring : list pos2) : existsb (fun p => negb (featureFinite (fst p) && featureFinite (snd p))) ring = false <-> Forall finite2 ring.
Proof.
  induction ring as [|p ring IH]; cbn [existsb]; [by rewrite Forall_nil|]. rewrite orb_false_iff, negb_false_iff, andb_true_iff, Forall_cons, IH. done.
Qed.

Lemma normalizePolygon_iff (rings rings' : list (list pos2)) : Forall small rings -> normalizePolygon rings = (rings', None) <-> published2 rings rings'.
Proof.
  intros Hs. unfold normalizePolygon, published2. apply (change_rings_published key2 id _ small); [done|]. intros outer ring ring' Hr.
  destruct (existsb _ ring) eqn:E.
  - split; [done|]. intros [Hf _ _ _]. apply nonfinite_ring in Hf. congruence.
  - apply nonfinite_ring in E. rewrite (normalize_ring_iff key2 id _ _ ringAreaSign); [done|done|]. pose proof (closed_sign key2 id point_key2 ring E Hr) as H. by rewrite !map_id in *.
Qed.

Lemma validate_polygon3_finite (rings : list (list pos3)) : validate_polygon3 rings = Ok tt -> Forall (Forall finite3) rings.
Proof.
  destruct rings as [|r rings]; [constructor|]. unfold validate_polygon3. rewrite rbind_unit, rfold_check. intros [H _]. eapply Forall_impl; [exact H|].
  intros ring. rewrite rbind_unit. unfold validateSpatialPoints, spatial_check. intros [_ Hp]. destruct (forallb _ ring) eqn:E; [|done].
  rewrite forallb_forall in E. apply Forall_forall. intros p Hin%list_elem_of_In. apply E in Hin. cbn [forallb] in Hin. rewrite !andb_true_iff in Hin.
  unfold finite3. rewrite !Forall_cons, Forall_nil. destruct Hin as (? & ? & ? & _). done.
Qed.

Lemma project_finite (axes : nat * nat) (p : pos3) : finite3 p -> finite2 (project axes p).
Proof.
  destruct p as [[x y] z]. unfold finite3. rewrite !Forall_cons. intros (Hx & Hy & Hz & _). unfold project, axis3, finite2. cbn [fst snd] in *.
  destruct (fst axes) as [|[|]], (snd axes) as [|[|]]; done.
Qed.

Lemma normalizePolygonZ_iff (rings rings' : list (list pos3)) : Forall small rings -> normalizePolygonZ rings = (rings', None) <-> published3 rings rings'.
Proof.
  intros Hs. unfold normalizePolygonZ, published3. destruct (validate_polygon3 rings) as [[]|e] eqn:Ev; [|by split; [|intros [? _]]].
  apply validate_polygon3_finite in Ev as Hf. destruct rings as [|ring rings]; [split; [done|by intros (_ & ? & ? & ? & ? & ? & _)]|]. cbn [head default]. unfold id.
  set (axes := frame ring). rewrite (change_rings_published key3 (project axes) _ (fun r => small r /\ Forall finite3 r)); [by split; [|intros [_ ?]]|by apply Forall_and|].
  intros outer r r' [Hr Hfr]. assert (Forall (fun p => finite2 (project axes p)) r) as Hp by (eapply Forall_impl; [exact Hfr|]; intros p; apply project_finite).
  apply normalize_ring_iff; [done|]. unfold project_ring. rewrite close_ring_twice. by apply closed_sign; [apply point_key3|..].
Qed.

(** ** Lemmas: trees *)

Lemma marshals_array {A : Type} (f : A -> coordinates) (l : list A) : marshals (array f l) = true <-> Forall (fun a => marshals (f a) = true) l.
Proof. unfold array. cbn [marshals]. induction l as [|a l IH]; cbn [map forallb]; [by rewrite Forall_nil|]. by rewrite andb_true_iff, Forall_cons, IH. Qed.

Lemma marshals_position2 (p : pos2) : marshals (position2 p) = true <-> finite2 p.
Proof. unfold position2. cbn [marshals forallb]. rewrite !andb_true_iff. unfold finite2, finite. tauto. Qed.

Lemma marshals_position3 (p : pos3) : marshals (position3 p) = true <-> finite3 p.
Proof. destruct p as [[x y] z]. unfold position3, finite3. cbn [marshals forallb axis3]. rewrite !andb_true_iff, !Forall_cons, Forall_nil. unfold finite. tauto. Qed.

Lemma marshals_points2 (ps : list pos2) : marshals (array position2 ps) = true <-> Forall finite2 ps.
Proof. rewrite marshals_array. apply Forall_iff. intros p. apply marshals_position2. Qed.

Lemma marshals_points3 (ps : list pos3) : marshals (array position3 ps) = true <-> Forall finite3 ps.
Proof. rewrite marshals_array. apply Forall_iff. intros p. apply marshals_position3. Qed.

Lemma marshal_iff (type : string) (c : coordinates) (j : geojson) : marshal type c = Ok j <-> marshals c = true /\ j = JGeometry type c.
Proof. unfold marshal. destruct (marshals c); split; [by intros [= <-]|by intros [_ ->]|done|by intros [? _]]. Qed.

Lemma short_iff {A : Type} (l : list A) : short l = false <-> (2 <= length l)%nat.
Proof. apply Nat.ltb_ge. Qed.

Section Finite.
Context {P K : Type} `{EqDecision K, Countable K} (key : P -> K) (flat : P -> pos2) (Q : P -> Prop).

Lemma published_Forall (outer : bool) (ring ring' : list P) : published key flat outer ring ring' -> Forall Q ring -> Forall Q ring'.
Proof using.
  intros [_ _ [->| ->] _] HQ; apply (close_ring_Forall key) in HQ; [done|]. apply Forall_forall. intros p Hp%list_elem_of_In%in_rev%list_elem_of_In. rewrite Forall_forall in HQ. by apply HQ.
Qed.

Lemma published_rings_Forall (rings rings' : list (list P)) : published_rings key flat rings rings' -> Forall (Forall Q) rings -> Forall (Forall Q) rings'.
Proof using.
  intros (outer & holes & outer' & holes' & -> & -> & Ho & Hh) HQ. apply Forall_cons in HQ as [Q1 Q2]. apply Forall_cons. split; [by eapply published_Forall|].
  clear Ho Q1. induction Hh as [|r r' holes holes' Hr Hh IH]; [constructor|]. apply Forall_cons in Q2 as [Q2 Q3]. apply Forall_cons. split; [by eapply published_Forall|by apply IH].
Qed.
End Finite.

Lemma published2_marshals (rings rings' : list (list pos2)) : published2 rings rings' -> marshals (array (array position2) rings') = true.
Proof.
  intros H. apply marshals_array. apply (published_rings_Forall key2 id finite2) in H as Hf.
  - eapply Forall_impl; [exact Hf|]. intros r. apply marshals_points2.
  - destruct H as (outer & holes & outer' & holes' & -> & _ & Ho & Hh). apply Forall_cons. split; [apply Ho|].
    induction Hh as [|r r' ? ? Hr _ IH]; [constructor|]. apply Forall_cons. split; [apply Hr|done].
Qed.

Lemma published3_marshals (rings rings' : list (list pos3)) : published3 rings rings' -> marshals (array (array position3) rings') = true.
Proof.
  intros [Hv H]. apply marshals_array. apply (published_rings_Forall _ _ finite3) in H; [|by apply validate_polygon3_finite].
  eapply Forall_impl; [exact H|]. intros r. apply marshals_points3.
Qed.

Lemma Forall2_marshals {A : Type} (R : A -> A -> Prop) (f : A -> coordinates) (l l' : list A) :
  (forall a a', R a a' -> marshals (f a') = true) -> Forall2 R l l' -> marshals (array f l') = true.
Proof. intros H Hl. apply marshals_array. induction Hl; constructor; [by eapply H|done]. Qed.

Lemma marshal_rings_iff {A : Type} (wrap : list A -> geometry) (type : string) (f : A -> coordinates) (changed : list A * option geojson_error) (g' : geometry) (j : geojson) :
  (forall l, changed = (l, None) -> marshals (array f l) = true) ->
  marshal_rings wrap type f changed = (g', Ok j) <-> exists l, changed = (l, None) /\ g' = wrap l /\ j = JGeometry type (array f l).
Proof.
  intros Hm. destruct changed as [l [e|]]; cbn [marshal_rings]; [split; [done|by intros (? & ? & _)]|]. unfold marshal. rewrite (Hm l eq_refl).
  split; [intros [= <- <-]; by exists l|]. by intros (? & [= <-] & -> & ->).
Qed.

(** ** Encoding *)

Lemma encode_members (gs : list (option geometry)) :
  Forall (on_some (fun g => small_rings g -> forall g' j, encode_geometry g = (g', Ok j) <-> rfc7946 g g' /\ j = tree g')) gs ->
  small_rings (Collection gs) -> forall g' j, encode_geometry (Collection gs) = (g', Ok j) <-> rfc7946 (Collection gs) g' /\ j = tree g'.
Proof.
  intros IH Hs g' j. cbn [encode_geometry]. set (loop := fix loop (gs : list (option geometry)) := _).
  assert (forall gs' js, loop gs = (gs', Ok js) <-> rfc7946 (Collection gs) (Collection gs') /\ js = map (fun c => match c with Some c => tree c | None => JCollection [] end) gs') as Hl.
  { clear g' j. induction IH as [|c gs Hc IH IHl]; intros gs' js; [cbn; split; [by intros [= <- <-]|destruct gs'; [by intros [_ ->]|by intros [? _]]]|].
    cbn [small_rings] in Hs. destruct Hs as [Hs1 Hs2]. specialize (IHl Hs2). cbn [loop]. destruct c as [c|]; [|split; [done|by intros [? _]]]. fold loop.
    cbn [on_some] in Hc, Hs1. specialize (Hc Hs1). destruct (encode_geometry c) as [c' [jc|e]] eqn:Ec.
    - destruct (proj1 (Hc c' jc) eq_refl) as [Hr Hj]. destruct (loop gs) as [ms r] eqn:El. split.
      + destruct r as [js'|]; [|done]. cbn [rbind]. intros [= <- <-]. destruct (proj1 (IHl ms js') eq_refl) as [Hm ->]. split; [by split|]. by rewrite Hj.
      + intros [Hm ->]. destruct gs' as [|[c''|] gs']; try done. destruct Hm as [Hm1 Hm2]. pose proof (proj2 (Hc c'' (tree c'')) (conj Hm1 eq_refl)) as [= -> ->].
        assert ((ms, r) = (gs', Ok (map (fun c => match c with Some c => tree c | None => JCollection [] end) gs'))) as [= -> ->] by by apply IHl. done.
    - split; [done|]. intros [Hm _]. destruct gs' as [|[c''|] gs']; try done. destruct Hm as [Hm1 _]. by pose proof (proj2 (Hc c'' (tree c'')) (conj Hm1 eq_refl)). }
  destruct (loop gs) as [gs' r] eqn:El. split.
  - destruct r as [js|]; [|done]. cbn [rbind]. intros [= <- <-]. destruct (proj1 (Hl gs' js) eq_refl) as [Hm ->]. done.
  - intros [Hm ->]. destruct g' as [| | | | | | | | | | | |gs'']; try done. assert ((gs', r) = (gs'', Ok (map (fun c => match c with Some c => tree c | None => JCollection [] end) gs''))) as [= -> ->] by by apply Hl. done.
Qed.

(** A shape that is not changed. *)
Lemma encode_unchanged (g g' : geometry) (r : result geojson_error geojson) (j : geojson) (ok : Prop) :
  (forall j, r = Ok j <-> ok /\ j = tree g) -> (rfc7946 g g' <-> ok /\ g' = g) -> (g, r) = (g', Ok j) <-> rfc7946 g g' /\ j = tree g'.
Proof.
  intros Hr Hg. rewrite Hg. split.
  - intros [= <- ->]. by destruct (proj1 (Hr j) eq_refl) as [? ->].
  - intros [[Ho ->] ->]. by rewrite (proj2 (Hr (tree g)) (conj Ho eq_refl)).
Qed.

Ltac same_shape := match goal with |- rfc7946 _ ?g' <-> _ => destruct g'; cbn [rfc7946]; (tauto || (split; [done|intros [_ ?]; done])) end.

Lemma line_marshals {A : Type} (f : A -> coordinates) (reason type : string) (ps : list A) (P : A -> Prop) (j : geojson) :
  (marshals (array f ps) = true <-> Forall P ps) ->
  (if short ps then Err (JsonShape reason) else marshal type (array f ps)) = Ok j <-> ((2 <= length ps)%nat /\ Forall P ps) /\ j = JGeometry type (array f ps).
Proof.
  intros Hm. rewrite <- short_iff. destruct (short ps); [split; [done|by intros [[? _] _]]|]. rewrite marshal_iff, Hm. tauto.
Qed.

Lemma lines_marshal {A : Type} (f : A -> coordinates) (reason type : string) (ls : list (list A)) (P : A -> Prop) (j : geojson) :
  (forall ps, marshals (array f ps) = true <-> Forall P ps) ->
  (if existsb short ls then Err (JsonShape reason) else marshal type (array (array f) ls)) = Ok j
  <-> Forall (fun l => (2 <= length l)%nat /\ Forall P l) ls /\ j = JGeometry type (array (array f) ls).
Proof.
  intros Hm. assert (Forall (fun l => (2 <= length l)%nat /\ Forall P l) ls <-> existsb short ls = false /\ marshals (array (array f) ls) = true) as ->.
  { rewrite marshals_array. induction ls as [|l ls IH]; cbn [existsb]; [by rewrite !Forall_nil|]. rewrite !Forall_cons, IH, orb_false_iff, short_iff, Hm. tauto. }
  destruct (existsb short ls); [split; [done|by intros [[? _] _]]|]. rewrite marshal_iff. tauto.
Qed.

Lemma encode_geometry_iff (g : geometry) : small_rings g -> forall g' j, encode_geometry g = (g', Ok j) <-> rfc7946 g g' /\ j = tree g'.
Proof.
  induction g as [g Hg|gs IH] using geometry_ind; [|by apply encode_members].
  intros Hs g' j. destruct g as [p|p|ps|ps|rs|rs|ps|ps|ls|ls|ms|ms|gs]; [..|by destruct (Hg gs)]; cbn [encode_geometry small_rings] in *.
  - apply (encode_unchanged _ _ _ _ (finite2 p)); [|same_shape]. intros j'. by rewrite marshal_iff, marshals_position2.
  - apply (encode_unchanged _ _ _ _ (finite3 p)); [|same_shape]. intros j'. by rewrite marshal_iff, marshals_position3.
  - apply (encode_unchanged _ _ _ _ ((2 <= length ps)%nat /\ Forall finite2 ps)); [|same_shape]. intros j'. apply line_marshals, marshals_points2.
  - apply (encode_unchanged _ _ _ _ ((2 <= length ps)%nat /\ Forall finite3 ps)); [|same_shape]. intros j'. apply line_marshals, marshals_points3.
  - rewrite marshal_rings_iff by (intros l Hl; apply (published2_marshals rs); by apply normalizePolygon_iff). setoid_rewrite normalizePolygon_iff; [|done].
    destruct g' as [| | | |rs'| | | | | | | |]; cbn [rfc7946]; (split; [intros (l & H & E & ->); (by injection E as <-) || done|]); (intros [H ->]; done || by exists rs').
  - rewrite marshal_rings_iff by (intros l Hl; apply (published3_marshals rs); by apply normalizePolygonZ_iff). setoid_rewrite normalizePolygonZ_iff; [|done].
    destruct g' as [| | | | |rs'| | | | | | |]; cbn [rfc7946]; (split; [intros (l & H & E & ->); (by injection E as <-) || done|]); (intros [H ->]; done || by exists rs').
  - apply (encode_unchanged _ _ _ _ (Forall finite2 ps)); [|same_shape]. intros j'. by rewrite marshal_iff, marshals_points2.
  - apply (encode_unchanged _ _ _ _ (Forall finite3 ps)); [|same_shape]. intros j'. by rewrite marshal_iff, marshals_points3.
  - eapply encode_unchanged; [intros j'; apply lines_marshal, marshals_points2|same_shape].
  - eapply encode_unchanged; [intros j'; apply lines_marshal, marshals_points3|same_shape].
  - assert (forall l, change_all normalizePolygon ms = (l, None) <-> Forall2 published2 ms l) as Hc.
    { intros l. rewrite change_all_iff. apply (Forall2_iff _ _ (Forall small)); [done|]. intros a c. apply normalizePolygon_iff. }
    rewrite marshal_rings_iff by (intros l Hl; apply Hc in Hl; revert Hl; apply Forall2_marshals, published2_marshals). setoid_rewrite Hc.
    destruct g' as [| | | | | | | | | |ms'| |]; cbn [rfc7946]; (split; [intros (l & H & E & ->); (by injection E as <-) || done|]); (intros [H ->]; done || by exists ms').
  - assert (forall l, change_all normalizePolygonZ ms = (l, None) <-> Forall2 published3 ms l) as Hc.
    { intros l. rewrite change_all_iff. apply (Forall2_iff _ _ (Forall small)); [done|]. intros a c. apply normalizePolygonZ_iff. }
    rewrite marshal_rings_iff by (intros l Hl; apply Hc in Hl; revert Hl; apply Forall2_marshals, published3_marshals). setoid_rewrite Hc.
    destruct g' as [| | | | | | | | | | |ms'|]; cbn [rfc7946]; (split; [intros (l & H & E & ->); (by injection E as <-) || done|]); (intros [H ->]; done || by exists ms').
Qed.


