(* ===== verification/FeatureService.v ===== *)
(** * ogc/features/service.go: the features of a collection

    The service between the HTTP handlers and the providers: the checks of a query, the
    callback that receives the features of a provider and encodes them
    (QueryCollectionWithOptions, encodeFeatureWithCRS), the pages and single features it
    answers with (QueryCollectionPageWithOptions, QueryFeatureWithOptions), and the
    status of its errors (writeQueryError).

    A provider is a tree of deliveries: it calls the callback, may do anything with its
    answer, and returns a result and an error.  The context is polled at each delivery;
    that it ends while one feature is encoded is seen at the next. *)

From Stdlib Require Import QArith.
From S2P Require Import Prelude GoText Temporal Filter JsonPatch Float64 RawGeom FeatureExtent FeatureSpatial FeatureTransform GpkgGeometry.
From S2P Require Import FeatureQuery GpkgSpatial GpkgQuery UrlQuery ItemsQuery ItemsPages RingArea GeoJson.

#[local] Open Scope Z_scope.

(** ** Errors *)

(** Errors with what they wrap: [FJoin] wraps two. *)
Inductive ferror :=
| FCanceled
| FDeadline
| FCollectionNotFound
| FFeatureNotFound
| FInvalid (field reason : string)
| FUnsupported
| FText (text : string)
| FGeometry (e : geojson_error)
| FSpatial (e : spatial_error)
| FData (e : ferror)
| FWrap (text : string) (e : ferror)
| FJoin (e e' : ferror).

(** [errors.Is] and [errors.As]: the error or one it wraps. *)
Fixpoint wraps (p : ferror -> bool) (e : ferror) : bool :=
  p e || match e with
         | FData e | FWrap _ e => wraps p e
         | FJoin e e' => wraps p e || wraps p e'
         | _ => false
         end.

Definition is_canceled (e : ferror) : bool := match e with FCanceled | FDeadline => true | _ => false end.
Definition is_data (e : ferror) : bool := match e with FData _ | FSpatial (SpatialData _) => true | _ => false end.
Definition is_not_found (e : ferror) : bool := match e with FCollectionNotFound | FFeatureNotFound => true | _ => false end.
Definition is_invalid (e : ferror) : bool := match e with FInvalid _ _ => true | _ => false end.
Definition is_unsupported (e : ferror) : bool := match e with FUnsupported => true | _ => false end.

Definition writeQueryError (e : ferror) : Z :=
  if wraps is_canceled e then 408
  else if wraps is_data e then 500
  else if wraps is_not_found e then 404
  else if wraps is_invalid e then 400
  else if wraps is_unsupported e then 501
  else 500.

Definition serviceSpatialError (e : spatial_error) : ferror :=
  match e with SpatialUnsupported _ => FJoin FUnsupported (FSpatial e) | _ => FSpatial e end.

(** The errors of queries and of encoded geometries. *)
Definition invalid_query (e : QueryError) : ferror :=
  if fq_unsupported e then FJoin FUnsupported (FInvalid (fq_field e) (fq_reason e)) else FInvalid (fq_field e) (fq_reason e).

Definition serviceGeometryError (e : geojson_error) : ferror :=
  match e with JsonSpatial (SpatialUnsupported _) => FJoin FUnsupported (FGeometry e) | _ => FGeometry e end.

(** A result with its errors changed. *)
Definition map_err {E E' A : Type} (f : E -> E') (r : result E A) : result E' A := match r with Ok a => Ok a | Err e => Err (f e) end.

(** ** Dimensions *)

(** Whether positions of a kind fit the dimension of the collection. *)
Definition dimension_fits (dimension : CoordinateDimension) (xyz : bool) : result ferror unit :=
  match dimension, xyz with
  | DimensionMixedXYXYZ, _ | DimensionXYZ, true | DimensionXY, false => Ok tt
  | _, _ => Err (FText "features: geometry dimension differs from frozen source profile")
  end.

(** Empty geometries fit any dimension. *)
Definition unless_empty {A : Type} (l : list A) (r : result ferror unit) : result ferror unit := if is_nil l then Ok tt else r.

Fixpoint validate_dimension (dimension : CoordinateDimension) (g : geometry) : result ferror unit :=
  match g with
  | Collection gs => rfold (fun c _ => match c with Some c => validate_dimension dimension c | None => Ok tt end) gs tt
  | Point _ => dimension_fits dimension false
  | PointZ _ => dimension_fits dimension true
  | MultiPoint ps => unless_empty ps (dimension_fits dimension false)
  | MultiPointZ ps => unless_empty ps (dimension_fits dimension true)
  | LineString ps => unless_empty ps (dimension_fits dimension false)
  | LineStringZ ps => unless_empty ps (dimension_fits dimension true)
  | Polygon rs => unless_empty rs (dimension_fits dimension false)
  | PolygonZ rs => unless_empty rs (dimension_fits dimension true)
  | MultiLineString ls => rfold (fun l _ => unless_empty l (dimension_fits dimension false)) ls tt
  | MultiLineStringZ ls => rfold (fun l _ => unless_empty l (dimension_fits dimension true)) ls tt
  | MultiPolygon gs => rfold (fun p _ => unless_empty p (dimension_fits dimension false)) gs tt
  | MultiPolygonZ gs => rfold (fun p _ => unless_empty p (dimension_fits dimension true)) gs tt
  end.

Definition validateGeometryDimension (g : option geometry) (dimension : CoordinateDimension) : result ferror unit :=
  match g with Some g => validate_dimension dimension g | None => Ok tt end.

(** Nothing instead of an empty list. *)
Definition nonempty {A : Type} (wrap : list A -> geometry) (l : list A) : option geometry := if is_nil l then None else Some (wrap l).

Definition keep_nonempty {A : Type} (l : list (list A)) : list (list A) := filter (fun m => is_nil m = false) l.

Fixpoint normalize_absence (g : geometry) : option geometry :=
  match g with
  | Point _ | PointZ _ => Some g
  | MultiPoint ps => nonempty MultiPoint ps
  | MultiPointZ ps => nonempty MultiPointZ ps
  | LineString ps => nonempty LineString ps
  | LineStringZ ps => nonempty LineStringZ ps
  | Polygon rs => nonempty Polygon rs
  | PolygonZ rs => nonempty PolygonZ rs
  | MultiLineString ls => nonempty MultiLineString (keep_nonempty ls)
  | MultiLineStringZ ls => nonempty MultiLineStringZ (keep_nonempty ls)
  | MultiPolygon gs => nonempty MultiPolygon (keep_nonempty gs)
  | MultiPolygonZ gs => nonempty MultiPolygonZ (keep_nonempty gs)
  | Collection gs =>
      nonempty (fun l => Collection (map Some l)) (omap (fun c => match c with Some c => normalize_absence c | None => None end) gs)
  end.

Definition normalizeDimensionalAbsence (g : option geometry) : option geometry := g ≫= normalize_absence.

(** ** Coordinates *)

(** [basic.ApplyToPoints]: the horizontal types only, and no nil.  The errors of parts
    are flattened to texts; those of coordinates wrap nothing. *)
Fixpoint ApplyToPoints (f : pos2 -> result ferror pos2) (g : geometry) : result ferror geometry :=
  match g with
  | Point p => let? q := f p in Ok (Point q)
  | MultiPoint ps => let? qs := rmap f ps in Ok (MultiPoint qs)
  | LineString ps => let? qs := rmap f ps in Ok (LineString qs)
  | MultiLineString ls => let? out := rmap (rmap f) ls in Ok (MultiLineString out)
  | Polygon rs => let? out := rmap (rmap f) rs in Ok (Polygon out)
  | MultiPolygon gs => let? out := rmap (rmap (rmap f)) gs in Ok (MultiPolygon out)
  | Collection gs =>
      let? out := rmap (fun c => match c with Some c => let? c := ApplyToPoints f c in Ok (Some c) | None => Err (FText "unknown Geometry") end) gs in
      Ok (Collection out)
  | _ => Err (FText "unknown Geometry")
  end.

(** A pair of finite degrees. *)
Definition degrees (output : list f64) : option pos2 :=
  match output with
  | [x; y] => if featureFinite x && featureFinite y && negb (outside fm180 f180 x) && negb (outside fm90 f90 y) then Some (x, y) else None
  | _ => None
  end.

(** A conversion of coordinates by the projection library. *)
Definition converter : Type := pos2 -> result string (list f64).

(** One coordinate of [transformGeometry]; [inverse] is [proj.Inverse] for the code. *)
Definition transform_coordinate (inverse : Z -> converter) (srid : Z) (p : pos2) : result ferror pos2 :=
  if negb (featureFinite (fst p) && featureFinite (snd p)) then Err (FText "nonfinite or unsupported coordinate")
  else
    let? output := if srid =? 4326 then Ok [fst p; snd p] else match inverse srid p with Ok o => Ok o | Err e => Err (FWrap "source CRS transform" (FText e)) end in
    match output with
    | [x; y] =>
        if negb (featureFinite x && featureFinite y) then Err (FText "nonfinite transform result")
        else match degrees output with Some q => Ok q | None => Err (FText "coordinate outside CRS84 domain") end
    | _ => Err (FText "nonfinite transform result")
    end.

Definition transformGeometry (inverse : Z -> converter) (g : option geometry) (srid : Z) : result ferror (option geometry) :=
  match g with None => Ok None | Some g => let? g := ApplyToPoints (transform_coordinate inverse srid) g in Ok (Some g) end.

(** One coordinate by the height-preserving projection of the collection. *)
Definition height_coordinate (inverse : converter) (p : pos2) : result spatial_error pos2 :=
  match inverse p with
  | Err e => Err (SpatialErr (B e))
  | Ok output => match degrees output with Some q => Ok q | None => Err (SpatialErr (B "coordinate outside CRS84 domain")) end
  end.

Definition FromInternalXY (c : CRS) (position : list f64) : result string pos2 :=
  match position with
  | [x; y] =>
      if negb (crs_projection c) then Err "horizontal coordinates require a pair"%string
      else if nonfinite x || nonfinite y then Err "coordinates must be finite"%string
      else Ok (if crs_swapped c then (y, x) else (x, y))
  | _ => Err "horizontal coordinates require a pair"%string
  end.

(** One coordinate of [transformOutputGeometry]: from the source to degrees, and to the
    output unless it is the storage. *)
Definition output_coordinate (source : converter) (forward : CRS -> pos2 -> result string (list f64)) (storage : gostring) (output : CRS) (p : pos2)
    : result spatial_error pos2 :=
  match source p with
  | Err e => Err (SpatialData (B e))
  | Ok geographic =>
      match degrees geographic with
      | None => Err (SpatialData (B "source coordinate outside CRS domain"))
      | Some d =>
          match (if beq storage (crs_uri output) then Ok [fst p; snd p] else forward output d) with
          | Err e => Err (SpatialErr (B e))
          | Ok coordinates => match FromInternalXY output coordinates with Ok q => Ok q | Err e => Err (SpatialErr (B e)) end
          end
      end
  end.

(** ** Positions *)

(** A position with the height it has. *)
Definition position : Type := pos2 * option f64.

Definition flat_position (p : pos2) : position := (p, None).
Definition high_position (p : pos3) : position := (xy p, Some (height p)).

Fixpoint positions (g : geometry) : list position :=
  match g with
  | Point p => [flat_position p]
  | PointZ p => [high_position p]
  | LineString ps | MultiPoint ps => map flat_position ps
  | LineStringZ ps | MultiPointZ ps => map high_position ps
  | Polygon rs | MultiLineString rs => concat (map (map flat_position) rs)
  | PolygonZ rs | MultiLineStringZ rs => concat (map (map high_position) rs)
  | MultiPolygon gs => concat (map (fun rs => concat (map (map flat_position) rs)) gs)
  | MultiPolygonZ gs => concat (map (fun rs => concat (map (map high_position) rs)) gs)
  | Collection gs => concat (map (fun c => match c with Some c => positions c | None => [] end) gs)
  end.

Definition source_positions (g : option geometry) : list position := match g with Some g => positions g | None => [] end.

(** A position and where a conversion puts it; the height stays. *)
Definition moved {E : Type} (f : pos2 -> result E pos2) (p q : position) : Prop := f (fst p) = Ok (fst q) /\ snd q = snd p.

(** Lists that are the same up to order and repetition. *)
Definition same {A : Type} (l l' : list A) : Prop := forall a, a ∈ l' <-> a ∈ l.

Lemma same_map {A C : Type} (f : A -> C) (l l' : list A) : same l l' -> same (map f l) (map f l').
Proof. intros H c. rewrite !list_elem_of_fmap. by setoid_rewrite (H _). Qed.

Lemma same_concat {A C D : Type} (f : A -> list D) (f' : C -> list D) (l : list A) (l' : list C) :
  Forall2 (fun a a' => same (f a) (f' a')) l l' -> same (concat (map f l)) (concat (map f' l')).
Proof. induction 1 as [|a a' l l' H _ IH]; [done|]. cbn [map concat]. intros d. rewrite !elem_of_app, (H d), (IH d). done. Qed.

(** *** Conversions *)

Lemma Forall2_concat {A C D D' : Type} (f : A -> list D) (f' : C -> list D') (R : D -> D' -> Prop) (l : list A) (l' : list C) :
  Forall2 (fun a c => Forall2 R (f a) (f' c)) l l' -> Forall2 R (concat (map f l)) (concat (map f' l')).
Proof. induction 1 as [|a c l l' H _ IH]; [constructor|]. cbn [map concat]. by apply Forall2_app. Qed.

Lemma rmap_moved {E A C D D' : Type} (h : A -> result E C) (f : A -> list D) (f' : C -> list D') (R : D -> D' -> Prop) (l : list A) (l' : list C) :
  (forall a c, h a = Ok c -> Forall2 R (f a) (f' c)) -> rmap h l = Ok l' -> Forall2 R (concat (map f l)) (concat (map f' l')).
Proof. intros H Hl%rmap_Ok. apply Forall2_concat. eapply Forall2_impl; [exact Hl|]. done. Qed.

Lemma rmap_points {E A C D D' : Type} (h : A -> result E C) (f : A -> D) (f' : C -> D') (R : D -> D' -> Prop) (l : list A) (l' : list C) :
  (forall a c, h a = Ok c -> R (f a) (f' c)) -> rmap h l = Ok l' -> Forall2 R (map f l) (map f' l').
Proof. intros H Hl%rmap_Ok. apply Forall2_fmap. eapply Forall2_impl; [exact Hl|]. done. Qed.

Section Moved.
Context (f : transformation).

Lemma transform_pair_moved (p q : pos2) : transform_pair f p = Ok q -> moved f (flat_position p) (flat_position q).
Proof using. unfold transform_pair. destruct (f p) eqn:E; [|done]. intros [= ->]. by split. Qed.

Lemma transform_point3_moved (p q : pos3) : transform_point3 f p = Ok q -> moved f (high_position p) (high_position q).
Proof using.
  destruct p as [[x y] z]. cbn [transform_point3]. intros ([x' y'] & H & [= <-])%rbind_Ok. apply transform_pair_moved in H as [H _]. by split.
Qed.

Lemma transform_geometry_moved (g g' : geometry) : transform_geometry f g = Ok g' -> Forall2 (moved f) (positions g) (positions g').
Proof using.
  pose proof transform_pair_moved as M2. pose proof transform_point3_moved as M3.
  assert (forall l l', transform_points2 f l = Ok l' -> Forall2 (moved f) (map flat_position l) (map flat_position l')) as L2 by (intros l l'; by apply rmap_points).
  assert (forall l l', transform_points3 f l = Ok l' -> Forall2 (moved f) (map high_position l) (map high_position l')) as L3 by (intros l l'; by apply rmap_points).
  revert g'. induction g as [g Hg|gs IH] using geometry_ind; intros g'.
  - destruct g; try (by destruct (Hg gs)); clear Hg; cbn [transform_geometry]; rewrite rbind_Ok; intros (o & Ho & [= <-]); cbn [positions]; auto;
      try (by apply (rmap_moved _ _ _ _ _ _ L2 Ho)); try (by apply (rmap_moved _ _ _ _ _ _ L3 Ho));
      (eapply rmap_moved; [|exact Ho]; intros a c Hac; first [by apply (rmap_moved _ _ _ _ _ _ L2 Hac)|by apply (rmap_moved _ _ _ _ _ _ L3 Hac)]).
  - cbn [transform_geometry]. rewrite rbind_Ok. intros (o & Ho & [= <-]). cbn [positions]. apply rmap_Ok in Ho. apply Forall2_concat.
    revert IH. induction Ho as [|[c|] d l l' Hd _ IHo]; intros IH; constructor; inversion IH; subst; try (by apply IHo).
    + apply rbind_Ok in Hd as (c' & Hc & [= <-]). by auto.
    + by injection Hd as <-.
Qed.
End Moved.

Lemma ApplyToPoints_moved (f : pos2 -> result ferror pos2) (g g' : geometry) : ApplyToPoints f g = Ok g' -> Forall2 (moved f) (positions g) (positions g').
Proof.
  assert (forall p q, f p = Ok q -> moved f (flat_position p) (flat_position q)) as M by (by split).
  assert (forall l l', rmap f l = Ok l' -> Forall2 (moved f) (map flat_position l) (map flat_position l')) as L by (intros l l'; by apply rmap_points).
  revert g'. induction g as [g Hg|gs IH] using geometry_ind; intros g'.
  - destruct g; try (by destruct (Hg gs)); clear Hg; cbn [ApplyToPoints]; try done; rewrite rbind_Ok; intros (o & Ho & [= <-]); cbn [positions]; auto;
      try (by apply (rmap_moved _ _ _ _ _ _ L Ho)).
    eapply rmap_moved; [|exact Ho]. intros a c Hac. by apply (rmap_moved _ _ _ _ _ _ L Hac).
  - cbn [ApplyToPoints]. rewrite rbind_Ok. intros (o & Ho & [= <-]). cbn [positions]. apply rmap_Ok in Ho. apply Forall2_concat.
    revert IH. induction Ho as [|[c|] d l l' Hd _ IHo]; intros IH; constructor; inversion IH; subst; try (by apply IHo); [|done].
    apply rbind_Ok in Hd as (c' & Hc & [= <-]). by auto.
Qed.

(** *** Absence *)

Lemma concat_nonempty {A C : Type} (f : A -> list C) (keep : A -> Prop) `{!forall a, Decision (keep a)} (l : list A) :
  (forall a, ~ keep a -> f a = []) -> concat (map f (filter keep l)) = concat (map f l).
Proof.
  intros Hf. induction l as [|a l IH]; [done|]. rewrite filter_cons. cbn [map concat]. destruct (decide (keep a)) as [|Hn]; cbn [map concat]; rewrite IH; [done|].
  by rewrite (Hf a Hn).
Qed.

Lemma nonempty_positions {A : Type} (wrap : list A -> geometry) (l : list A) : positions (wrap []) = [] -> source_positions (nonempty wrap l) = positions (wrap l).
Proof. intros H. by destruct l. Qed.

Lemma keep_positions {A : Type} (f : list A -> list position) (l : list (list A)) : f [] = [] -> concat (map f (keep_nonempty l)) = concat (map f l).
Proof. intros H. apply concat_nonempty. by intros []. Qed.

Lemma normalize_positions (g : geometry) : source_positions (normalize_absence g) = positions g.
Proof.
  induction g as [g Hg|gs IH] using geometry_ind.
  - destruct g; try (by destruct (Hg gs)); clear Hg; cbn [normalize_absence]; try done; rewrite nonempty_positions by done; cbn [positions]; by try apply keep_positions.
  - cbn [normalize_absence positions]. rewrite nonempty_positions by done. cbn [positions]. induction IH as [|[c|] gs Hc _ IH]; [done| |done].
    cbn [on_some] in Hc. cbn [omap list_omap map concat]. rewrite <- Hc, <- IH. destruct (normalize_absence c); done.
Qed.

Lemma normalizeDimensionalAbsence_positions (g : option geometry) : source_positions (normalizeDimensionalAbsence g) = source_positions g.
Proof. destruct g as [g|]; [apply normalize_positions|done]. Qed.

(** *** Published rings *)

Section Rings.
Context {P K : Type} `{EqDecision K, Countable K} (key : P -> K).

Lemma close_ring_same (ring : list P) : same ring (close_ring key ring).
Proof using.
  destruct ring as [|p r]; [done|]. destruct (close_ring_cons key p r) as (r' & -> & _ & [->| ->]); [done|]. intros a. rewrite !elem_of_cons, elem_of_app, list_elem_of_singleton. tauto.
Qed.

Lemma normalize_ring_same (few zero : string) (sign : list P -> Z) (outer : bool) (ring : list P) : same ring (fst (normalize_ring key few zero sign outer ring)).
Proof using.
  unfold normalize_ring. destruct (_ <? 3)%nat; [done|]. destruct (_ =? 0); [apply close_ring_same|]. destruct (_ || _); [|apply close_ring_same].
  intros a. cbn [fst]. rewrite list_elem_of_In, <- in_rev, <- list_elem_of_In. apply close_ring_same.
Qed.
End Rings.

(** Elements changed one after the other, up to an error. *)
Lemma change_all_related {A E : Type} (R : A -> A -> Prop) (f : A -> A * option E) (l : list A) :
  (forall a, R a a) -> (forall a, R a (fst (f a))) -> Forall2 R l (fst (change_all f l)).
Proof.
  intros Hr Hf. assert (forall l, Forall2 R l l) as Hrefl by (intros m; induction m; by constructor). induction l as [|a l IH]; cbn [change_all]; [constructor|].
  specialize (Hf a). destruct (f a) as [a' [e|]]; cbn [fst] in *; [by constructor|]. destruct (change_all f l) as [l' e]. cbn [fst] in *. by constructor.
Qed.

Lemma change_rings_related {P : Type} (R : list P -> list P -> Prop) (f : bool -> list P -> list P * option geojson_error) (rings : list (list P)) :
  (forall a, R a a) -> (forall outer a, R a (fst (f outer a))) -> Forall2 R rings (fst (change_rings f rings)).
Proof.
  intros Hr Hf. assert (forall l, Forall2 R l l) as Hrefl by (intros m; induction m; by constructor). destruct rings as [|outer holes]; cbn [change_rings]; [constructor|].
  pose proof (Hf true outer) as Ho. destruct (f true outer) as [outer' [e|]]; cbn [fst] in *; [by constructor|].
  pose proof (change_all_related R (f false) holes Hr (Hf false)) as Hh. destruct (change_all (f false) holes) as [holes' e]. by constructor.
Qed.

Lemma normalizePolygon_same (rings : list (list pos2)) : Forall2 same rings (fst (normalizePolygon rings)).
Proof. apply change_rings_related; [done|]. intros outer ring. destruct (existsb _ ring); [done|]. apply normalize_ring_same. Qed.

Lemma normalizePolygonZ_same (rings : list (list pos3)) : Forall2 same rings (fst (normalizePolygonZ rings)).
Proof.
  unfold normalizePolygonZ. assert (Forall2 same rings rings) by (induction rings; by constructor). destruct (validate_polygon3 rings); [|done]. destruct rings as [|ring rings]; [done|].
  apply change_rings_related; [done|]. intros outer r. apply normalize_ring_same.
Qed.

Lemma rings_positions {P : Type} (f : P -> position) (rings rings' : list (list P)) : Forall2 same rings rings' -> same (concat (map (map f) rings)) (concat (map (map f) rings')).
Proof. intros H. apply same_concat. eapply Forall2_impl; [exact H|]. intros r r'. apply same_map. Qed.

Lemma polygons_positions {P : Type} (f : P -> position) (change : list (list P) -> list (list P) * option geojson_error) (gs : list (list (list P))) :
  (forall rings, Forall2 same rings (fst (change rings))) ->
  same (concat (map (fun rs => concat (map (map f) rs)) gs)) (concat (map (fun rs => concat (map (map f) rs)) (fst (change_all change gs)))).
Proof. intros H. apply same_concat. apply (change_all_related (fun rs rs' => same (concat (map (map f) rs)) (concat (map (map f) rs')))); [done|]. intros rings. by apply rings_positions. Qed.

Lemma marshal_rings_positions {A : Type} (wrap : list A -> geometry) (type : string) (f : A -> coordinates) (changed : list A * option geojson_error) :
  fst (marshal_rings wrap type f changed) = wrap (fst changed).
Proof. by destruct changed. Qed.

(** An encoded geometry has the positions it had. *)
Lemma encode_positions (g : geometry) : same (positions g) (positions (fst (encode_geometry g))).
Proof.
  induction g as [g Hg|gs IH] using geometry_ind.
  - destruct g; try (by destruct (Hg gs)); clear Hg; cbn [encode_geometry]; try done; rewrite marshal_rings_positions; cbn [positions].
    + apply rings_positions, normalizePolygon_same.
    + apply rings_positions, normalizePolygonZ_same.
    + apply polygons_positions, normalizePolygon_same.
    + apply polygons_positions, normalizePolygonZ_same.
  - cbn [encode_geometry]. set (loop := fix loop (gs : list (option geometry)) := _). destruct (loop gs) as [gs' r] eqn:El. cbn [fst positions]. apply same_concat.
    revert gs' r El. induction IH as [|[c|] gs Hc _ IH]; intros gs' r; cbn [loop].
    + by intros [= <- _].
    + cbn [on_some] in Hc. destruct (encode_geometry c) as [c' [j|e]].
      * fold loop. destruct (loop gs) as [gs1 r1]. intros [= <- _]. constructor; [exact Hc|]. by eapply IH.
      * intros [= <- _]. constructor; [exact Hc|]. clear. induction gs; by constructor.
    + intros [= <- _]. constructor; [done|]. clear. induction gs; by constructor.
Qed.

Lemma encodeGeometry_positions (g : option geometry) : same (source_positions g) (source_positions (fst (encodeGeometry g))).
Proof. destruct g as [g|]; [|done]. cbn [encodeGeometry]. pose proof (encode_positions g) as H. by destruct (encode_geometry g). Qed.

Lemma encode_tree (g : geometry) : forall g' j, encode_geometry g = (g', Ok j) -> j = tree g'.
Proof.
  assert (forall A (wrap : list A -> geometry) type (f : A -> coordinates) changed g' j,
    marshal_rings wrap type f changed = (g', Ok j) -> exists l, g' = wrap l /\ j = JGeometry type (array f l)) as Hm.
  { intros A wrap type f [l [e|]] g' j; cbn [marshal_rings]; [done|]. unfold marshal. destruct (marshals _); [|done]. intros [= <- <-]. eauto. }
  induction g as [g Hg|gs IH] using geometry_ind; intros g' j.
  - destruct g; try (by destruct (Hg gs)); clear Hg; cbn [encode_geometry]; try (by intros (l & -> & ->)%Hm);
      unfold marshal; intros H; repeat case_match; try done; by injection H as <- <-.
  - cbn [encode_geometry]. set (loop := fix loop (gs : list (option geometry)) := _). destruct (loop gs) as [gs' r] eqn:El. destruct r as [members|e]; [|done].
    intros [= <- <-]. cbn [tree]. f_equal. revert gs' members El. induction IH as [|[c|] gs Hc _ IH]; intros gs' members; cbn [loop]; [by intros [= <- <-]| |done].
    cbn [on_some] in Hc. destruct (encode_geometry c) as [c' [jc|e]]; [|done]. fold loop. destruct (loop gs) as [gs1 [ms|e]]; [|done]. cbn [rbind]. intros [= <- <-].
    cbn [map]. f_equal; [by apply Hc|by apply IH].
Qed.

Lemma encodeGeometry_tree (g g' : option geometry) (j : option geojson) : encodeGeometry g = (g', Ok j) -> j = tree <$> g'.
Proof.
  destruct g as [g|]; cbn [encodeGeometry]; [|by intros [= <- <-]]. destruct (encode_geometry g) as [g1 [j1|e]] eqn:E; [|done]. cbn [rbind]. intros [= <- <-].
  by rewrite (encode_tree _ _ _ E).
Qed.

(** *** Properties *)

Lemma recode_members_some (m : gmap gostring (option json)) (n : gmap gostring json) :
  recode_members m = Some n -> (forall k x, m !! k = Some x -> ValidString k = true) -> forall k, m !! k = Some <$> n !! k.
Proof.
  intros H Hk. assert (forall k x, m !! k = Some x -> is_Some x) as Hs.
  { intros k x Hx. assert ((k, x) ∈ merge_sort key_le (map_to_list m)) as Hin by by rewrite merge_sort_Permutation, elem_of_map_to_list.
    unfold recode_members in H. revert Hin H. generalize (Some (∅ : gmap gostring json)). induction (merge_sort key_le (map_to_list m)) as [|[k0 x0] l IH]; intros acc Hin; [by apply elem_of_nil in Hin|].
    cbn [foldl fst snd]. apply elem_of_cons in Hin as [[= <- <-]|Hin]; [|by apply IH]. destruct x as [x|]; [done|]. clear. intros H. exfalso. revert H.
    assert (forall l, foldl (fun acc kv => match acc, snd kv with Some n, Some v => Some (<[to_valid (fst kv) := v]> n) | _, _ => None end) (None : option (gmap gostring json)) l = None) as E
      by (intros l'; induction l' as [|a l' IH']; [done|exact IH']). destruct acc; by rewrite E. }
  assert (m = Some <$> omap id m) as E.
  { apply map_eq. intros k. rewrite lookup_fmap, lookup_omap. destruct (m !! k) as [x|] eqn:Ex; [|done]. destruct (Hs k x Ex) as [v ->]. done. }
  intros k. rewrite E in H |- *. rewrite recode_members_id in H; [|].
  - injection H as <-. by rewrite lookup_fmap.
  - intros k' x. rewrite lookup_omap. destruct (m !! k') as [y|] eqn:Ey; [|done]. intros _. by eapply Hk.
Qed.

(** *** Degrees *)

(** The domain of CRS84. *)
Definition in_domain (p : pos2) : Prop := finite2 p /\ (-180 <= coord (fst p) <= 180)%Q /\ (-90 <= coord (snd p) <= 90)%Q.

Lemma degrees_domain (output : list f64) (p : pos2) : degrees output = Some p -> in_domain p.
Proof.
  unfold degrees. destruct output as [|x [|y [|]]]; try done. destruct (_ && _) eqn:E; [|done]. intros [= <-]. rewrite !andb_true_iff, !negb_true_iff in E.
  destruct E as [[[Hx Hy] Ex] Ey]. split; [by split|]. destruct finite_constants as (F1 & F2 & F3 & F4), coord_constants as (C1 & C2 & C3 & C4).
  rewrite outside_spec, C1, C2 in Ex by done. rewrite outside_spec, C3, C4 in Ey by done. exact (conj Ex Ey).
Qed.

Lemma transform_coordinate_domain (inverse : Z -> converter) (srid : Z) (p q : pos2) : transform_coordinate inverse srid p = Ok q -> in_domain q.
Proof.
  unfold transform_coordinate. destruct (negb _); [done|]. intros (output & _ & H)%rbind_Ok. destruct output as [|x [|y [|]]]; try done. destruct (negb _); [done|].
  destruct (degrees [x; y]) eqn:E; [|done]. injection H as ->. by eapply degrees_domain.
Qed.

Lemma height_coordinate_domain (inverse : converter) (p q : pos2) : height_coordinate inverse p = Ok q -> in_domain q.
Proof. unfold height_coordinate. destruct (inverse p) as [o|]; [|done]. destruct (degrees o) eqn:E; [|done]. intros [= ->]. by eapply degrees_domain. Qed.

(** ** Collections *)

(** What a provider does in a query: deliveries to the callback, in any number and
    whatever it answers, and the end. *)
Inductive querier_run :=
| Returned (result : FeatureQueryResult) (e : option ferror)
| Deliver (source : option Feature) (k : option ferror -> querier_run).

Record resolvedCollection := mkCollection {
  rc_layer : gostring;
  rc_srid : Z;
  rc_temporal : bool;
  rc_dimension : CoordinateDimension;
  rc_height : option converter;
  rc_crs : option CollectionCRS;
  rc_storage : gostring;
  rc_source : converter;
  rc_queryables : option FeatureQueryables;
  rc_querier : gostring -> FeatureQuery -> querier_run
}.

(** A published feature. *)
Record OutFeature := mkOut { o_ID : Z; o_Geometry : option geojson; o_Properties : gmap gostring json; o_Typed : option geometry }.

Definition lift_crs {A : Type} (r : result ItemsError A) : result ferror A :=
  match r with
  | Ok a => Ok a
  | Err CollectionNotFound => Err FCollectionNotFound
  | Err (InvalidCRS reason) => Err (FInvalid "crs" reason)
  | Err InvalidBox => Err (FInvalid "bbox" "Invalid bounding box")
  | Err CRSUnavailable => Err (FWrap "features: collection CRS unavailable" FUnsupported)
  end.

(** The reference system of the answer; none is the default of a collection that does
    not publish any, and of a descriptor without identifier. *)
Definition collectionOutputCRS (c : resolvedCollection) (uri : gostring) : result ferror (option CRS) :=
  match rc_crs c with
  | None => if negb (beq uri []) then Err (FInvalid "" "CRS publication unavailable") else Ok None
  | Some crs => 
      let? output := lift_crs (ValidateOutput crs (if beq uri [] then cc_default crs else uri)) in
      Ok (if beq (crs_uri output) [] then None else Some output)
  end.

Definition Queryables (c : resolvedCollection) : result ferror FeatureQueryables :=
  match rc_queryables c with
  | None => Err (FWrap "features: queryables unavailable" FUnsupported)
  | Some queryables => map_err invalid_query (NewFeatureQueryables (qs_fields queryables))
  end.

Section Service.

(** The projections of the library and its numbers: [proj.Inverse] for a code, the
    forward projections of reference systems, whether a code has a height-preserving
    projection, and the text of a number in JSON. *)
Context (inverse : Z -> converter) (forward : CRS -> pos2 -> result string (list f64)) (NewHeightProjection : Z -> option ferror) (FormatFloat : f64 -> gostring).

(** *** Encoding *)

(** [json.Marshal] of a property; numbers that are not finite are refused. *)
Definition property (t : tag) : option json :=
  match t with
  | TagNil => Some JNull
  | TagText s => Some (JStr (to_valid s))
  | TagInt i => Some (JNum (FormatInt i))
  | TagReal b => if featureFinite b then Some (JNum (FormatFloat b)) else None
  | TagBool b => Some (JBool b)
  end.

(** The source geometry as the encoding leaves it, and the feature. *)
Definition encodeFeatureWithCRS (c : resolvedCollection) (output : option CRS) (source : Feature) : option geometry * result ferror OutFeature :=
  let g := f_Geometry source in
  match map_err (fun e => FData (serviceSpatialError e)) (ValidateFeatureSpatialGeometry g) with
  | Err e => (g, Err e)
  | Ok _ =>
      match map_err FData (validateGeometryDimension g (rc_dimension c)) with
      | Err e => (g, Err e)
      | Ok _ =>
          let '(g, probe) := match output with Some _ => encodeGeometry g | None => (g, Ok None) end in
          (g, check? (let? _ := map_err (fun e => FData (FGeometry e)) probe in Ok tt) in
              let? transformed :=
                match output, rc_height c with
                | Some crs, _ =>
                    map_err (fun e => if is_data (FSpatial e) then FSpatial e else FInvalid "crs" "geometry cannot be represented in requested CRS")
                      (TransformFeatureSpatialGeometry g (Some (output_coordinate (rc_source c) forward (rc_storage c) crs)))
                | None, None =>
                    map_err (FWrap "features: transform geometry") (transformGeometry inverse g (f_SRID source))
                | None, Some height =>
                    map_err (fun e => FWrap "features: transform geometry" (serviceSpatialError e)) (TransformFeatureSpatialGeometry g (Some (height_coordinate height)))
                end in
              let geometry := if decide (rc_dimension c = DimensionXY) then transformed else normalizeDimensionalAbsence transformed in
              let '(geometry, encoded) := encodeGeometry geometry in
              match encoded with
              | Err e =>
                  Err (match output with
                       | Some _ => FInvalid "crs" "geometry cannot be represented in requested CRS"
                       | None => FWrap "features: encode geometry" (serviceGeometryError e)
                       end)
              | Ok encoded =>
                  match recode_members (property <$> f_Tags source) with
                  | None => Err (FText "features: encode properties")
                  | Some properties => Ok (mkOut (f_ID source) encoded properties geometry)
                  end
              end)
      end
  end.

(** *** Queries *)

(** The checks before the provider is asked: the collection, the reference system of the
    answer and the query it is asked.  The callback of the caller is never nil. *)
Definition prepare_query (now : option ferror) (collections : gmap gostring resolvedCollection) (id : gostring) (q : FeatureQuery) (uri : gostring)
    : result ferror (resolvedCollection * option CRS * FeatureQuery) :=
  check? match now with Some e => Err e | None => Ok tt end in
  let? c := match collections !! id with Some c => Ok c | None => Err FCollectionNotFound end in
  let? output := collectionOutputCRS c uri in
  check? map_err invalid_query (Query_Validate q) in
  let temporal := if rc_temporal c then q_Temporal q else None in
  let? filter :=
    match q_Filter q with
    | None => Ok None
    | Some f =>
        let? catalog := Queryables c in
        let? r := map_err invalid_query (ResolveFeatureFilter f catalog) in
        Ok (Some (rf_expression r))
    end in
  check? (if negb (is_nil (q_Bounds3D q)) && negb (beq (q_BoundsVerticalCRS q) CRS84h) then Err (FWrap "features: unsupported query height reference" FUnsupported) else Ok tt) in
  check? match rc_height c with
         | Some _ =>
             if beq (q_BoundsCRSDefinition q) [] && hasBounds q then
               match NewHeightProjection (q_BoundsSRID q) with
               | Some e => Err (FWrap "features: unsupported height-preserving query CRS" (FJoin FUnsupported e))
               | None => Ok tt
               end
             else Ok tt
         | None => Ok tt
         end in
  Ok (c, output, mkQuery (q_Bounds q) (q_Bounds3D q) (q_BoundsVerticalCRS q) (q_BoundsSRID q) (q_BoundsCRSDefinition q) temporal filter (q_IDs q) (q_Limit q) (q_Offset q) (q_Fields q)).

Section Callback.
Context {S : Type}.

(** The callback of the caller, with its state. *)
Context (fn : S -> OutFeature -> S * option ferror).
Context (ctx : nat -> option ferror) (c : resolvedCollection) (output : option CRS) (q : FeatureQuery).

(** What the callback of the service remembers: the features delivered, the first error,
    the state of the caller and how often the context was polled. *)
Record delivery := mkDelivery { dl_count : Z; dl_error : option ferror; dl_state : S; dl_polls : nat }.

Definition fail (st : delivery) (polls : nat) (s : S) (e : ferror) : delivery * option ferror := (mkDelivery (dl_count st) (Some e) s polls, Some e).

Definition callback (st : delivery) (source : option Feature) : delivery * option ferror :=
  match dl_error st with
  | Some e => (st, Some e)
  | None =>
      let s := dl_state st in
      let polls := Datatypes.S (dl_polls st) in
      match ctx (dl_polls st) with
      | Some e => fail st polls s e
      | None =>
          if q_Limit q <=? dl_count st then fail st polls s (FText "features: provider exceeded page limit")
          else
            match source with
            | None => fail st polls s (FText "features: provider delivered nil feature")
            | Some source =>
                if negb (f_SRID source =? rc_srid c) then fail st polls s (FText "features: source SRID differs from frozen collection SRID")
                else
                  match snd (encodeFeatureWithCRS c output source) with
                  | Err e => fail st polls s e
                  | Ok feature =>
                      let '(s, e) := fn s feature in
                      match e with
                      | Some e => fail st polls s e
                      | None => (mkDelivery (dl_count st + 1) None s polls, None)
                      end
                  end
            end
      end
  end.

Fixpoint run (st : delivery) (r : querier_run) : delivery * FeatureQueryResult * option ferror :=
  match r with
  | Returned result e => (st, result, e)
  | Deliver source k => let '(st, answer) := callback st source in run st (k answer)
  end.

End Callback.

Definition QueryCollectionWithOptions {S : Type} (fn : S -> OutFeature -> S * option ferror) (s : S) (ctx : nat -> option ferror)
    (collections : gmap gostring resolvedCollection) (id : gostring) (q : FeatureQuery) (uri : gostring) : S * result ferror FeatureQueryResult :=
  match prepare_query (ctx 0%nat) collections id q uri with
  | Err e => (s, Err e)
  | Ok (c, output, q) =>
      let '(st, result, e) := run fn ctx c output q (mkDelivery 0 None s 1) (rc_querier c (rc_layer c) q) in
      (dl_state st,
       match dl_error st with
       | Some e => Err (FWrap "features: collection callback" e)
       | None =>
           match e with
           | Some e => Err (FWrap "features: collection query" e)
           | None =>
               match ctx (dl_polls st) with
               | Some e => Err e
               | None =>
                   if negb (r_NumberReturned result =? dl_count st) then Err (FText "features: provider callback/count disagreement")
                   else match r_NumberMatched result with
                        | Some count => if count <? dl_count st then Err (FText "features: provider matched count below returned count") else Ok result
                        | None => Ok result
                        end
               end
           end
       end)
  end.

Definition QueryFeatureWithOptions (ctx : nat -> option ferror) (collections : gmap gostring resolvedCollection) (id : gostring) (featureID : Z) (uri : gostring)
    : result ferror OutFeature :=
  let '(found, r) :=
    QueryCollectionWithOptions
      (fun (found : option OutFeature) value =>
         if negb (o_ID value =? featureID) then (found, Some (FText "features: provider returned an unexpected feature ID")) else (Some value, None))
      None ctx collections id (mkQuery [] [] [] 0 [] None None [featureID] 1 0 []) uri in
  check? (let? _ := r in Ok tt) in
  match found with Some feature => Ok feature | None => Err FFeatureNotFound end.

Definition QueryCollectionPageWithOptions (ctx : nat -> option ferror) (collections : gmap gostring resolvedCollection) (id : gostring) (q : FeatureQuery) (uri : gostring)
    : result ferror (list OutFeature * FeatureQueryResult) :=
  let '(features, r) := QueryCollectionWithOptions (fun features feature => (features ++ [feature], None)) [] ctx collections id q uri in
  let? result := r in
  Ok (features, result).

(** ** What is published *)

(** Where the conversion of a collection puts a position. *)
Definition converts (c : resolvedCollection) (output : option CRS) (srid : Z) (p q : position) : Prop :=
  match output, rc_height c with
  | Some crs, _ => moved (output_coordinate (rc_source c) forward (rc_storage c) crs) p q
  | None, None => moved (transform_coordinate inverse srid) p q
  | None, Some height => moved (height_coordinate height) p q
  end.

Lemma map_err_Ok {E E' A : Type} (f : E -> E') (r : result E A) (a : A) : map_err f r = Ok a <-> r = Ok a.
Proof using. destruct r; cbn; split; congruence. Qed.

Lemma moved_elem {E : Type} (f : pos2 -> result E pos2) (l l' : list position) :
  Forall2 (moved f) l l' -> forall q, q ∈ l' <-> exists p, p ∈ l /\ moved f p q.
Proof using.
  induction 1 as [|p0 q0 l l' Hm _ IH]; intros q.
  - split; [by intros ?%elem_of_nil|by intros (? & ?%elem_of_nil & _)].
  - rewrite elem_of_cons, (IH q). split.
    + intros [->|(p & Hp & Hq)]; [exists p0; split; [left|done]|exists p; split; [by right|done]].
    + intros (p & [->|Hp]%elem_of_cons & Hq); [left|right; by exists p]. destruct Hm as [Em Es], Hq as [Eq Et]. destruct q, q0. cbn [fst snd] in *. congruence.
Qed.

Lemma TransformFeatureSpatialGeometry_moved (f : transformation) (g g' : option geometry) :
  TransformFeatureSpatialGeometry g (Some f) = Ok g' -> Forall2 (moved f) (source_positions g) (source_positions g').
Proof using.
  cbn [TransformFeatureSpatialGeometry]. intros (? & _ & H)%rbind_Ok. apply rbind_Ok in H as (out & H & (? & _ & [= <-])%rbind_Ok).
  destruct g as [g|]; [|by injection H as <-]. apply rbind_Ok in H as (h & H & [= <-]). by apply transform_geometry_moved.
Qed.

(** What a published feature is made of: the source geometry after the first encoding,
    the converted geometry and the encoded one. *)
Lemma encodeFeatureWithCRS_inv (c : resolvedCollection) (output : option CRS) (source : Feature) (feature : OutFeature) :
  snd (encodeFeatureWithCRS c output source) = Ok feature ->
  exists g transformed, same (source_positions (f_Geometry source)) (source_positions g)
    /\ (forall q, q ∈ source_positions transformed <-> exists p, p ∈ source_positions g /\ converts c output (f_SRID source) p q)
    /\ encodeGeometry (if decide (rc_dimension c = DimensionXY) then transformed else normalizeDimensionalAbsence transformed) = (o_Typed feature, Ok (o_Geometry feature))
    /\ recode_members (property <$> f_Tags source) = Some (o_Properties feature) /\ o_ID feature = f_ID source.
Proof using.
  unfold encodeFeatureWithCRS. destruct (map_err _ (ValidateFeatureSpatialGeometry _)); [|done]. destruct (map_err FData _); [|done].
  set (g1 := match output with Some _ => _ | None => _ end).
  assert (same (source_positions (f_Geometry source)) (source_positions (fst g1))) as Hg by (destruct output; [apply encodeGeometry_positions|done]).
  destruct g1 as [g probe]. cbn [fst snd] in *. intros (? & _ & H)%rbind_Ok. apply rbind_Ok in H as (transformed & Ht & H). exists g, transformed.
  split; [exact Hg|]. split.
  - unfold converts. destruct output as [crs|]; [|destruct (rc_height c)]; apply map_err_Ok in Ht; apply moved_elem; [by apply TransformFeatureSpatialGeometry_moved..|].
    destruct g as [g|]; [|by injection Ht as <-]. apply rbind_Ok in Ht as (h & Ht & [= <-]). by apply ApplyToPoints_moved.
  - destruct (encodeGeometry _) as [g2 [j|e]]; [|done]. destruct (recode_members _) as [properties|]; [|done]. by injection H as <-.
Qed.


(** ** What the provider has to do *)

(** The deliveries of a provider all of whose features are taken. *)
Fixpoint accepting (r : querier_run) : list (option Feature) * FeatureQueryResult * option ferror :=
  match r with
  | Returned result e => ([], result, e)
  | Deliver source k => let '(sources, result, e) := accepting (k None) in (source :: sources, result, e)
  end.

(** A delivered feature and how it is published. *)
Definition publishes (c : resolvedCollection) (output : option CRS) (source : option Feature) (feature : OutFeature) : Prop :=
  exists s, source = Some s /\ f_SRID s = rc_srid c /\ snd (encodeFeatureWithCRS c output s) = Ok feature.

(** The context is not done at the polls from [i], [n] of them. *)
Definition calm (ctx : nat -> option ferror) (i n : nat) : Prop := forall j, (i <= j < i + n)%nat -> ctx j = None.

(** The caller takes features one after the other. *)
Inductive takes {S : Type} (fn : S -> OutFeature -> S * option ferror) : S -> list OutFeature -> S -> Prop :=
| takes_nil (s : S) : takes fn s [] s
| takes_cons (s s' s'' : S) (f : OutFeature) (l : list OutFeature) : fn s f = (s', None) -> takes fn s' l s'' -> takes fn s (f :: l) s''.

(** The counts of a result agree with the features delivered. *)
Definition counted (n : Z) (result : FeatureQueryResult) : Prop :=
  r_NumberReturned result = n /\ match r_NumberMatched result with Some count => n <= count | None => True end.

Section Run.
Context {S : Type} (fn : S -> OutFeature -> S * option ferror) (ctx : nat -> option ferror) (c : resolvedCollection) (output : option CRS) (q : FeatureQuery).

(** The first error stays, whatever the provider does with it. *)
Lemma run_latched (r : querier_run) (st : delivery) (e : ferror) :
  dl_error st = Some e -> dl_error (fst (fst (run fn ctx c output q st r))) = Some e.
Proof using.
  revert st. induction r as [result e'|source k IH]; intros st He; cbn [run]; [done|]. unfold callback. rewrite He. by apply IH.
Qed.

Lemma callback_fails (st : delivery) (source : option Feature) :
  dl_error st = None -> dl_error (fst (callback fn ctx c output q st source)) = None ->
  exists feature s, publishes c output source feature /\ ctx (dl_polls st) = None /\ dl_count st < q_Limit q /\ fn (dl_state st) feature = (s, None) /\
    callback fn ctx c output q st source = (mkDelivery (dl_count st + 1) None s (Datatypes.S (dl_polls st)), None).
Proof using.
  intros He. unfold callback, fail. rewrite He. destruct (ctx _); [done|]. destruct (Z.leb_spec (q_Limit q) (dl_count st)); [done|]. destruct source as [source|]; [|done].
  destruct (Z.eqb_spec (f_SRID source) (rc_srid c)) as [Hs|]; [|done]. cbn [negb]. destruct (snd (encodeFeatureWithCRS c output source)) as [feature|e] eqn:Ef; [|done].
  destruct (fn (dl_state st) feature) as [s [e|]] eqn:Es; [done|]. intros _. exists feature, s. split; [by exists source|]. done.
Qed.

Lemma callback_takes (st : delivery) (source : option Feature) (feature : OutFeature) (s : S) :
  dl_error st = None -> publishes c output source feature -> ctx (dl_polls st) = None -> dl_count st < q_Limit q -> fn (dl_state st) feature = (s, None) ->
  callback fn ctx c output q st source = (mkDelivery (dl_count st + 1) None s (Datatypes.S (dl_polls st)), None).
Proof using.
  intros He (src & -> & Hs & Hf) Hc Hl Ht. unfold callback. rewrite He, Hc, (proj2 (Z.leb_gt _ _) Hl), Hs, Z.eqb_refl, Hf, Ht. done.
Qed.

(** A run without an error is that of a provider whose features are all taken. *)
Lemma run_iff (r : querier_run) (st : delivery) (st' : delivery) (result : FeatureQueryResult) (e : option ferror) :
  dl_error st = None -> dl_count st <= q_Limit q ->
  run fn ctx c output q st r = (st', result, e) /\ dl_error st' = None <->
  exists sources features s, accepting r = (sources, result, e) /\ Forall2 (publishes c output) sources features /\ calm ctx (dl_polls st) (length sources) /\
    dl_count st + Z.of_nat (length sources) <= q_Limit q /\ takes fn (dl_state st) features s /\
    st' = mkDelivery (dl_count st + Z.of_nat (length sources)) None s (dl_polls st + length sources).
Proof using.
  revert st. induction r as [result' e'|source k IH]; intros st He Hc; cbn [run accepting].
  - split.
    + intros [[= <- <- <-] _]. exists [], [], (dl_state st). cbn [length]. rewrite Z.add_0_r, Nat.add_0_r. repeat split; try done; [intros j Hj; lia|constructor|].
      destruct st; cbn in *. by subst.
    + intros (sources & features & s & [= <- <- <-] & H2 & _ & _ & Ht & ->). split; [|done]. inversion H2; subst. inversion Ht; subst. cbn [length].
      rewrite Z.add_0_r, Nat.add_0_r. destruct st; cbn in *. by subst.
  - split.
    + destruct (callback fn ctx c output q st source) as [st1 answer] eqn:Ec. intros [Hr Hn]. assert (dl_error st1 = None) as H1.
      { destruct (dl_error st1) as [e1|] eqn:E1; [|done]. pose proof (run_latched (k answer) st1 e1 E1) as H. rewrite Hr in H. cbn in H. congruence. }
      destruct (callback_fails st source He) as (feature & s & Hp & Hx & Hl & Ht & Hcb); [by rewrite Ec|]. rewrite Hcb in Ec. injection Ec as <- <-.
      destruct (proj1 (IH None (mkDelivery (dl_count st + 1) None s (Datatypes.S (dl_polls st))) eq_refl ltac:(cbn; lia)) (conj Hr Hn)) as (sources & features & s' & Ea & H2 & Hcalm & Hlim & Htk & ->). rewrite Ea.
      exists (source :: sources), (feature :: features), s'. cbn [length dl_count dl_polls dl_state] in *. repeat split; try done.
      * by constructor.
      * intros j Hj. destruct (decide (j = dl_polls st)) as [->|]; [done|]. apply Hcalm. lia.
      * lia.
      * by econstructor.
      * f_equal; lia.
    + intros (sources & features & s & Ha & H2 & Hcalm & Hlim & Ht & ->). split; [|done]. destruct (accepting (k None)) as [[sources' result''] e''] eqn:Ea.
      injection Ha as <- <- <-. inversion H2 as [|? feature ? features' Hp H2']; subst. inversion Ht as [|? s1 ? ? ? Hf Ht']; subst. cbn [length] in *.
      rewrite (callback_takes st source feature s1); [|done|done|apply Hcalm; lia|lia|done].
      refine (proj1 (proj2 (IH None (mkDelivery (dl_count st + 1) None s1 (Datatypes.S (dl_polls st))) eq_refl ltac:(cbn; lia)) _)).
      exists sources', features', s. rewrite Ea. cbn [dl_count dl_polls dl_state]. repeat split; try done; [|lia|f_equal; lia]. intros j Hj. apply Hcalm. lia.
Qed.
End Run.

(** A query that is answered: the checks pass, the provider whose features are all taken
    delivers [sources], not more than the limit, and returns [result] without an error;
    each can be published, the counts agree and the context is not done. *)
Record answers (ctx : nat -> option ferror) (collections : gmap gostring resolvedCollection) (id : gostring) (q : FeatureQuery) (uri : gostring)
    (sources : list (option Feature)) (features : list OutFeature) (result : FeatureQueryResult) : Prop := {
  an_run : exists c output q', prepare_query (ctx 0%nat) collections id q uri = Ok (c, output, q')
             /\ accepting (rc_querier c (rc_layer c) q') = (sources, result, None) /\ Forall2 (publishes c output) sources features;
  an_calm : calm ctx 1 (1 + length sources);
  an_limit : Z.of_nat (length sources) <= q_Limit q;
  an_counted : counted (Z.of_nat (length sources)) result
}.

Lemma prepare_query_limit (now : option ferror) (collections : gmap gostring resolvedCollection) (id : gostring) (q : FeatureQuery) (uri : gostring)
    (c : resolvedCollection) (output : option CRS) (q' : FeatureQuery) :
  prepare_query now collections id q uri = Ok (c, output, q') -> q_Limit q' = q_Limit q.
Proof using.
  unfold prepare_query. intros (? & _ & H)%rbind_Ok. revert H. intros (? & _ & H)%rbind_Ok. revert H. intros (? & _ & H)%rbind_Ok. revert H.
  intros (? & _ & H)%rbind_Ok. revert H. intros (? & _ & H)%rbind_Ok. revert H. intros (? & _ & H)%rbind_Ok. revert H. by intros (? & _ & [= <- <- <-])%rbind_Ok.
Qed.

Lemma QueryCollectionWithOptions_iff {S : Type} (fn : S -> OutFeature -> S * option ferror) (s s' : S) (ctx : nat -> option ferror)
    (collections : gmap gostring resolvedCollection) (id : gostring) (q : FeatureQuery) (uri : gostring) (result : FeatureQueryResult) :
  0 <= q_Limit q ->
  QueryCollectionWithOptions fn s ctx collections id q uri = (s', Ok result) <->
  exists sources features, answers ctx collections id q uri sources features result /\ takes fn s features s'.
Proof using.
  intros Hl. unfold QueryCollectionWithOptions. destruct (prepare_query _ _ _ _ _) as [[[c output] q']|e] eqn:Ep.
  2: { split; [done|]. intros (? & ? & [(? & ? & ? & H & _) _ _ _] & _). congruence. }
  pose proof (prepare_query_limit _ _ _ _ _ _ _ _ Ep) as El.
  pose proof (run_iff fn ctx c output q' (rc_querier c (rc_layer c) q') (mkDelivery 0 None s 1)) as Hrun.
  destruct (run _ _ _ _ _ _ _) as [[st res] e] eqn:Er. cbn [dl_error dl_count dl_polls dl_state] in Hrun. split.
  - intros H. assert (dl_error st = None /\ e = None /\ ctx (dl_polls st) = None /\ counted (dl_count st) res /\ res = result /\ s' = dl_state st) as (E1 & -> & E3 & E4 & -> & ->).
    { destruct (dl_error st); [done|]. destruct e; [done|]. destruct (ctx (dl_polls st)); [done|]. unfold counted.
      destruct (Z.eqb_spec (r_NumberReturned res) (dl_count st)); [|done]. cbn [negb] in H. destruct (r_NumberMatched res) as [n|]; [|by injection H as <- <-].
      destruct (Z.ltb_spec n (dl_count st)); [done|]. by injection H as <- <-. }
    destruct (proj1 (Hrun st result None eq_refl ltac:(lia)) (conj eq_refl E1)) as (sources & features & t & Ha & H2 & Hc & Hlim & Ht & ->).
    exists sources, features. cbn [dl_state dl_count dl_polls] in *. split; [|done]. split; [by exists c, output, q'| |by rewrite <- El|done].
    intros j Hj. destruct (decide (j = 1 + length sources)%nat) as [->|]; [done|]. apply Hc. lia.
  - intros (sources & features & [(c1 & output1 & q1 & E1 & Ha & H2) Hc Hlim Hcount] & Ht). rewrite Ep in E1. injection E1 as <- <- <-.
    destruct (proj2 (Hrun (mkDelivery (0 + Z.of_nat (length sources)) None s' (1 + length sources)) result None eq_refl ltac:(lia))) as [[= -> -> ->] _].
    { exists sources, features, s'. repeat split; try done; [|lia]. intros j Hj. apply Hc. lia. }
    cbn [dl_error dl_count dl_polls dl_state]. rewrite Hc by lia. destruct Hcount as [Hn Hm]. rewrite Hn, Z.add_0_l, Z.eqb_refl. cbn [negb].
    destruct (r_NumberMatched result) as [n|]; [|done]. by rewrite (proj2 (Z.ltb_ge _ _) Hm).
Qed.

(** *** Pages and single features *)

Lemma takes_append (features : list OutFeature) : forall page page',
  takes (fun page feature => (page ++ [feature], None)) page features page' <-> page' = page ++ features.
Proof using.
  induction features as [|f features IH]; intros page page'.
  - rewrite app_nil_r. split; [by inversion 1|intros ->; constructor].
  - split.
    + inversion 1 as [|? ? ? ? ? [= <-] Ht]; subst. apply IH in Ht as ->. by rewrite <- app_assoc.
    + intros ->. econstructor; [done|]. apply IH. by rewrite <- app_assoc.
Qed.

Lemma page_iff (ctx : nat -> option ferror) (collections : gmap gostring resolvedCollection) (id : gostring) (q : FeatureQuery) (uri : gostring)
    (features : list OutFeature) (result : FeatureQueryResult) :
  0 <= q_Limit q ->
  QueryCollectionPageWithOptions ctx collections id q uri = Ok (features, result) <-> exists sources, answers ctx collections id q uri sources features result.
Proof using.
  intros Hl. unfold QueryCollectionPageWithOptions.
  pose proof (QueryCollectionWithOptions_iff (fun page feature => (page ++ [feature], None)) [] features ctx collections id q uri result Hl) as H.
  destruct (QueryCollectionWithOptions _ _ _ _ _ _ _) as [page r]. split.
  - intros (result' & -> & [= -> ->])%rbind_Ok. destruct (proj1 H eq_refl) as (sources & features' & Ha & ->%takes_append). by exists sources.
  - intros [sources Ha]. assert ((page, r) = (features, Ok result)) as [= -> ->]; [|done]. apply H. exists sources, features. split; [done|]. by apply takes_append.
Qed.

(** C28. A page is answered exactly when the provider keeps its part of the contract.  A
    page holds the published features of all deliveries of the provider, in order; it is
    refused when one of them cannot be published, exceeds the limit, is nil or in another
    reference system, when the counts disagree or when the context is done, even if the
    provider goes on after the error or hides it. *)
Theorem QueryCollectionPage_exact (ctx : nat -> option ferror) (collections : gmap gostring resolvedCollection) (id : gostring) (q : FeatureQuery) (uri : gostring)
    (features : list OutFeature) (result : FeatureQueryResult) :
  0 <= q_Limit q ->
  QueryCollectionPageWithOptions ctx collections id q uri = Ok (features, result) <-> exists sources, answers ctx collections id q uri sources features result.
Proof using. apply page_iff. Qed.

Definition one_feature (featureID : Z) : FeatureQuery := mkQuery [] [] [] 0 [] None None [featureID] 1 0 [].

Lemma takes_one (featureID : Z) (features : list OutFeature) (found : option OutFeature) :
  (length features <= 1)%nat ->
  takes (fun (found : option OutFeature) value =>
           if negb (o_ID value =? featureID) then (found, Some (FText "features: provider returned an unexpected feature ID")) else (Some value, None)) None features found
  <-> features = option_list found /\ (forall feature, found = Some feature -> o_ID feature = featureID).
Proof using.
  intros Hlen. destruct features as [|f [|]]; [| |cbn in Hlen; lia].
  - split; [by inversion 1|]. intros [E _]. destruct found; [done|]. constructor.
  - split.
    + inversion 1 as [|? s' ? ? ? Hf Ht]; subst. inversion Ht; subst. destruct (Z.eqb_spec (o_ID f) featureID); [|done]. injection Hf as <-. split; [done|]. by intros ? [= <-].
    + intros [E Hid]. destruct found as [g|]; [|done]. injection E as <-. eapply takes_cons; [|constructor]. by rewrite (Hid f eq_refl), Z.eqb_refl.
Qed.

(** A single feature is the one asked for.  It is answered exactly when the provider
    delivers one feature and its published form has the identifier; a provider that
    delivers none gives the error for a feature that is not found. *)
Lemma QueryFeatureWithOptions_exact (ctx : nat -> option ferror) (collections : gmap gostring resolvedCollection) (id : gostring) (featureID : Z) (uri : gostring) :
  (forall feature, QueryFeatureWithOptions ctx collections id featureID uri = Ok feature <->
     o_ID feature = featureID /\ exists source result, answers ctx collections id (one_feature featureID) uri [source] [feature] result)
  /\ forall result, answers ctx collections id (one_feature featureID) uri [] [] result -> QueryFeatureWithOptions ctx collections id featureID uri = Err FFeatureNotFound.
Proof using.
  unfold QueryFeatureWithOptions. fold (one_feature featureID).
  pose proof (fun found result => QueryCollectionWithOptions_iff
    (fun (found : option OutFeature) value =>
       if negb (o_ID value =? featureID) then (found, Some (FText "features: provider returned an unexpected feature ID")) else (Some value, None))
    None found ctx collections id (one_feature featureID) uri result ltac:(done)) as H.
  destruct (QueryCollectionWithOptions _ _ _ _ _ _ _) as [found r]. split.
  - intros feature. split.
    + intros ([] & (result & -> & _)%rbind_Ok & Hf)%rbind_Ok. destruct found as [f|]; [|done]. injection Hf as ->.
      destruct (proj1 (H _ _) eq_refl) as (sources & features & Ha & Ht). pose proof (an_limit _ _ _ _ _ _ _ _ Ha) as Hlim. cbn [one_feature q_Limit] in Hlim.
      destruct (an_run _ _ _ _ _ _ _ _ Ha) as (? & ? & ? & _ & _ & H2%Forall2_length). apply takes_one in Ht as [-> Hid]; [|lia]. split; [by apply Hid|].
      cbn in H2. destruct sources as [|source [|]]; try done. by exists source, result.
    + intros (Hid & source & result & Ha). assert ((found, r) = (Some feature, Ok result)) as [= -> ->]; [|done]. apply H. exists [source], [feature]. split; [done|].
      apply takes_one; [done|]. split; [done|]. by intros ? [= <-].
  - intros result Ha. assert ((found, r) = (None, Ok result)) as [= -> ->]; [|done]. apply H. exists [], []. split; [done|constructor].
Qed.

(** *** Pages of a collection *)

(** What a provider that pages promises: at any offset the window of its matches and
    whether there are more. *)
Definition pages (c : resolvedCollection) (q : FeatureQuery) (matches : list Feature) : Prop :=
  forall o, 0 <= o -> o + q_Limit q < 2 ^ 64 ->
    exists total, accepting (rc_querier c (rc_layer c) (with_offset q o))
        = (map Some (window (q_Limit q) o matches),
           mkQueryResult (Z.of_nat (length (window (q_Limit q) o matches))) total (o + q_Limit q <? Z.of_nat (length matches)), None)
      /\ match total with Some n => Z.of_nat (length matches) <= n | None => True end.

(** The checks do not depend on the offset. *)
Lemma Query_Validate_offset (q : FeatureQuery) (o : Z) :
  Query_Validate q = Ok tt -> o + q_Limit q < 2 ^ 64 -> Query_Validate (with_offset q o) = Ok tt.
Proof using.
  unfold Query_Validate. rewrite !rbind_unit. cbn [with_offset q_Limit q_Offset q_Bounds q_Bounds3D q_BoundsVerticalCRS q_BoundsSRID q_BoundsCRSDefinition q_Temporal q_Filter q_IDs q_Fields].
  intros (H1 & H2 & H3) Ho. split; [exact H1|]. split; [|exact H3]. apply reject_Ok, Z.ltb_ge. lia.
Qed.

Lemma prepare_query_offset (now : option ferror) (collections : gmap gostring resolvedCollection) (id : gostring) (q : FeatureQuery) (uri : gostring)
    (c : resolvedCollection) (output : option CRS) (q' : FeatureQuery) (o : Z) :
  prepare_query now collections id q uri = Ok (c, output, q') -> o + q_Limit q < 2 ^ 64 ->
  prepare_query now collections id (with_offset q o) uri = Ok (c, output, with_offset q' o).
Proof using.
  intros H Ho. unfold prepare_query in *. destruct now; [done|]. cbn [rbind] in *. destruct (collections !! id) as [c1|]; [|done]. cbn [rbind] in *.
  destruct (collectionOutputCRS c1 uri) as [output1|]; [|done]. cbn [rbind] in *. destruct (Query_Validate q) as [[]|] eqn:Ev; [|done].
  rewrite (Query_Validate_offset q o Ev Ho). cbn [map_err rbind with_offset q_Temporal q_Filter q_Bounds3D q_Bounds q_BoundsVerticalCRS q_BoundsCRSDefinition q_BoundsSRID q_IDs q_Limit q_Offset q_Fields] in *.
  change (hasBounds (with_offset q o)) with (hasBounds q).
  apply rbind_Ok in H as (f & -> & H). cbn [rbind]. apply rbind_Ok in H as (? & -> & H). cbn [rbind]. apply rbind_Ok in H as (? & E & [= <- <- <-]). cbn beta in E |- *. by rewrite E.
Qed.

Lemma window_length {A : Type} (limit o : Z) (l : list A) : 0 <= limit -> Z.of_nat (length (window limit o l)) <= limit.
Proof using. intros H. unfold window. rewrite length_take. lia. Qed.

(** The service answers the pages of a provider that pages. *)
Lemma QueryCollectionPage_paged (ctx : nat -> option ferror) (collections : gmap gostring resolvedCollection) (id : gostring) (q : FeatureQuery) (uri : gostring)
    (c : resolvedCollection) (output : option CRS) (q' : FeatureQuery) (matches : list Feature) (features : list OutFeature) :
  0 <= q_Limit q -> (forall i, ctx i = None) -> prepare_query None collections id q uri = Ok (c, output, q') -> pages c q' matches ->
  Forall2 (publishes c output) (map Some matches) features ->
  paged (fun q uri => map_err writeQueryError (QueryCollectionPageWithOptions ctx collections id q uri)) q uri features.
Proof using.
  intros Hl Hctx Hp Hpages H2 o Ho Hw. pose proof (prepare_query_limit _ _ _ _ _ _ _ _ Hp) as El. destruct (Hpages o Ho ltac:(lia)) as (total & Ha & Ht).
  rewrite El in Ha. pose proof (Forall2_length _ _ _ H2) as Hlen. rewrite length_map in Hlen.
  assert (Forall2 (publishes c output) (map Some (window (q_Limit q) o matches)) (window (q_Limit q) o features)) as Hf.
  { unfold window. rewrite <- firstn_map, <- skipn_map. by apply Forall2_take, Forall2_drop. }
  pose proof (Forall2_length _ _ _ Hf) as Hn. rewrite length_map in Hn. exists total.
  enough (QueryCollectionPageWithOptions ctx collections id (with_offset q o) uri
    = Ok (window (q_Limit q) o features, mkQueryResult (Z.of_nat (length (window (q_Limit q) o features))) total (o + q_Limit q <? Z.of_nat (length features)))) as -> by done.
  apply page_iff; [done|]. exists (map Some (window (q_Limit q) o matches)). rewrite <- Hn, <- Hlen. split; rewrite ?length_map.
  - exists c, output, (with_offset q' o). rewrite Hctx. split; [by apply prepare_query_offset|]. by split.
  - intros j _. apply Hctx.
  - by apply window_length.
  - split; [done|]. cbn [r_NumberMatched]. destruct total; [|done]. etransitivity; [|exact Ht]. unfold window. rewrite length_take, length_drop. lia.
Qed.

(** What the handlers see of a collection and the answers they get. *)
Definition published_collection (c : resolvedCollection) : Published := mkPublished (bool_decide (rc_dimension c = DimensionXY)) (rc_crs c).

Definition page_service (ctx : nat -> option ferror) (collections : gmap gostring resolvedCollection) (id : gostring) (q : FeatureQuery) (uri : gostring)
    : result Z (list OutFeature * FeatureQueryResult) :=
  map_err writeQueryError (QueryCollectionPageWithOptions ctx collections id q uri).


End Service.

(** ** Example *)

(** A projection library without projections. *)
Definition no_inverse (srid : Z) : converter := fun _ => Err "unsupported"%string.
Definition no_forward (crs : CRS) (p : pos2) : result string (list f64) := Err "unsupported"%string.
Definition no_height (srid : Z) : option ferror := Some FUnsupported.
Definition zero_text (b : f64) : gostring := B "0".

(** A provider that delivers a window of its features. *)
Definition deliver (features : list Feature) (q : FeatureQuery) : querier_run :=
  let page := window (q_Limit q) (q_Offset q) features in
  foldr (fun f r => Deliver (Some f) (fun e => match e with Some e => Returned (mkQueryResult 0 None false) (Some e) | None => r end))
    (Returned (mkQueryResult (Z.of_nat (length page)) (Some (Z.of_nat (length features))) (q_Offset q + q_Limit q <? Z.of_nat (length features))) None) page.

(** Three features at one degree east. *)
Definition mark (id : Z) : Feature :=
  mkFeature id (Some (Point (0x3FF0000000000000, 0))) 4326 {[ B "name" := TagText (B "mark") ]}.
Definition marks : list Feature := map mark [7; 8; 9].

Definition mark_collection : resolvedCollection :=
  mkCollection (B "marks") 4326 false DimensionXY None None [] (no_inverse 0) None (fun _ q => deliver marks q).
Definition mark_collections : gmap gostring resolvedCollection := {[ B "marks" := mark_collection ]}.

(** A query without bounds, time and filter, of a collection in degrees. *)
Lemma prepare_plain (c : resolvedCollection) (q : FeatureQuery) :
  rc_crs c = None -> rc_height c = None -> Query_Validate q = Ok tt -> (q_Temporal q, q_Filter q, q_Bounds3D q) = (None, None, []) ->
  prepare_query no_height None {[ B "marks" := c ]} (B "marks") q [] = Ok (c, None, q).
Proof.
  intros Ec Eh Ev [= Et Ef Eb]. unfold prepare_query. rewrite lookup_singleton_eq. cbn [rbind]. unfold collectionOutputCRS. rewrite Ec. cbn [beq negb rbind]. rewrite Ev, Ef, Eb, Eh.
  cbn [map_err rbind is_nil negb andb]. destruct q. cbn in *. subst. by destruct (rc_temporal c).
Qed.

#[local] Abbreviation encode_mark := (encodeFeatureWithCRS no_inverse no_forward zero_text mark_collection None).

Definition published_mark (source : Feature) : OutFeature := match snd (encode_mark source) with Ok feature => feature | Err _ => mkOut 0 None ∅ None end.

Lemma marks_published : Forall (fun s => snd (encode_mark s) = Ok (published_mark s)) marks.
Proof. apply Forall_cons_2; [vm_compute; reflexivity|]. apply Forall_cons_2; [vm_compute; reflexivity|]. apply Forall_cons_2; [vm_compute; reflexivity|constructor]. Qed.


Lemma deliver_accepting (features : list Feature) (q : FeatureQuery) :
  accepting (deliver features q)
  = (map Some (window (q_Limit q) (q_Offset q) features),
     mkQueryResult (Z.of_nat (length (window (q_Limit q) (q_Offset q) features))) (Some (Z.of_nat (length features))) (q_Offset q + q_Limit q <? Z.of_nat (length features)), None).
Proof.
  unfold deliver. set (page := window _ _ _). generalize (mkQueryResult (Z.of_nat (length page)) (Some (Z.of_nat (length features))) (q_Offset q + q_Limit q <? Z.of_nat (length features))).
  intros result. induction page as [|f page IH]; [done|]. cbn [foldr accepting map]. by rewrite IH.
Qed.

Lemma deliver_pages (q : FeatureQuery) : pages mark_collection q marks.
Proof. intros o _ _. exists (Some 3). split; [exact (deliver_accepting marks (with_offset q o))|done]. Qed.

Lemma marks_publish : Forall2 (publishes no_inverse no_forward zero_text mark_collection None) (map Some marks) (map published_mark marks).
Proof.
  assert (Forall (fun s => f_SRID s = 4326) marks) as Hs by by repeat constructor. pose proof marks_published as Hp. induction marks as [|s l IH]; [constructor|].
  apply Forall_cons in Hs as [H1 H2], Hp as [P1 P2]. cbn [map]. constructor; [|by apply IH]. exists s. split; [exact eq_refl|]. split; [exact H1|exact P1].
Qed.

Definition two_marks : FeatureQuery := mkQuery [] [] [] 0 [] None None [] 2 1 [].

#[local] Abbreviation query_page := (QueryCollectionPageWithOptions no_inverse no_forward no_height zero_text).

Lemma QueryCollectionPage_exact_witness :
  query_page (fun _ => None) mark_collections (B "marks") two_marks [] = Ok (map published_mark [mark 8; mark 9], mkQueryResult 2 (Some 3) false).
Proof.
  apply (QueryCollectionPage_exact no_inverse no_forward no_height zero_text); [discriminate|]. exists [Some (mark 8); Some (mark 9)]. split.
  - exists mark_collection, None, two_marks. split; [by apply prepare_plain|]. split; [exact (deliver_accepting marks two_marks)|exact (Forall2_drop _ _ _ 1 marks_publish)].
  - by intros j _.
  - discriminate.
  - by split.
Defined.

(** A provider that ignores the errors of the callback and counts what it delivers: the
    page is refused. *)
Definition bad_mark : Feature := mkFeature 7 (Some (Point (0x7FF0000000000000, 0))) 4326 ∅.
Definition stubborn_collection : resolvedCollection :=
  mkCollection (B "marks") 4326 false DimensionXY None None [] (no_inverse 0) None
    (fun _ _ => Deliver (Some bad_mark) (fun _ => Returned (mkQueryResult 0 None false) None)).

Lemma stubborn_refused : exists e, query_page (fun _ => None) {[ B "marks" := stubborn_collection ]} (B "marks") two_marks [] = Err e /\ writeQueryError e = 500.
Proof. eexists. split; [vm_compute; reflexivity|vm_compute; reflexivity]. Qed.

(** A provider that looks features up. *)
Definition lookup_collection : resolvedCollection :=
  mkCollection (B "marks") 4326 false DimensionXY None None [] (no_inverse 0) None (fun _ q => deliver (filter (fun f => f_ID f ∈ q_IDs q) marks) q).

Lemma mark_not_found :
  QueryFeatureWithOptions no_inverse no_forward no_height zero_text (fun _ => None) {[ B "marks" := lookup_collection ]} (B "marks") 6 [] = Err FFeatureNotFound.
Proof.
  apply (proj2 (QueryFeatureWithOptions_exact no_inverse no_forward no_height zero_text (fun _ => None) {[ B "marks" := lookup_collection ]} (B "marks") 6 []))
    with (result := mkQueryResult 0 (Some 0) false). split.
  - exists lookup_collection, None, (one_feature 6). split; [by apply prepare_plain|]. split; [vm_compute; reflexivity|constructor].
  - by intros j _.
  - discriminate.
  - by split.
Qed.

(** A request for the marks from the second one, one on each page. *)
Definition request : gostring := B "limit=1&offset=1".
Definition asked : FeatureQuery * Values := default (two_marks, ∅) (parseItemsQuery some_numbers 10 100 request).

Lemma request_accepted :
  accepted some_numbers 10 100 (published_collection <$> mark_collections !! B "marks") [] request [] (snd asked) (fst asked) (fst asked) CRS84.
Proof. split; [exists request; split; vm_compute; reflexivity|]. unfold mark_collections. rewrite lookup_singleton_eq. vm_compute. reflexivity. Qed.

