(* ===== verification/Revision.v ===== *)
(** * provider/audit/revision.go

    Revisions of features for optimistic concurrency: a table maps a feature to a
    revision and an incarnation, and conditional changes compare the token of a
    client with it inside the transaction of the change. *)

From S2P Require Import Prelude GoText Schema.

#[local] Open Scope Z_scope.

(** An error: a [*MutationError], or another with its text. *)
Inductive go_error :=
| Classified (kind : MutationErrorKind) (reason : gostring)
| Plain (text : gostring).

(** Collection and feature identifier. *)
Abbreviation revision_key := (gostring * Z)%type.

(** The table tegola_revisions, from keys to revision and incarnation; [None] when it
    does not exist. *)
Abbreviation revision_table := (option (gmap revision_key (Z * Z))).

(** The statements a transaction runs on it; each may fail with a text. *)
Inductive statement := SelectRevision | UpsertRevision | SelectIncarnation | UpdateIncarnation.

Record RevisionBump := mkBump { b_old : Z; b_new : Z; b_old_inc : Z; b_new_inc : Z }.

(** int64 arithmetic *)
Definition wrap64 (z : Z) : Z := (z + 2 ^ 63) mod 2 ^ 64 - 2 ^ 63.

Definition missing_table_text : gostring := B "no such table: tegola_revisions".

Definition IsMissingTable (msg : gostring) : bool :=
  Contains msg (B "no such table") || Contains msg (B "doesn't exist") || Contains msg (B "does not exist").

Definition malformed_revision : go_error := Classified MutationErrMalformedInput (B "invalid revision").

(** Incarnation and revision of a token; a token without a point is a revision. *)
Definition ParseRevision (value : gostring) : result go_error (Z * Z) :=
  let parts := SplitByte "." value in
  let parts := if (length parts =? 1)%nat then B "0" :: parts else parts in
  match parts with
  | [a; b] =>
      match ParseInt a 64, ParseInt b 64 with
      | Some incarnation, Some revision =>
          if (incarnation <? 0) || (revision <? 0) then Err malformed_revision else Ok (incarnation, revision)
      | _, _ => Err malformed_revision
      end
  | _ => Err malformed_revision
  end.

Definition formatIncarnationRevision (inc rev : Z) : gostring :=
  if rev <? 0 then [] else FormatInt inc ++ B "." ++ FormatInt rev.

Section Statements.
(** The texts of the statements that fail. *)
Context (fault : statement -> option gostring).

(** Run a statement on the table. *)
Definition exec {A : Type} (s : statement) (t : revision_table) (k : gmap revision_key (Z * Z) -> result gostring A)
    : result gostring A :=
  match fault s, t with
  | Some text, _ => Err text
  | None, None => Err missing_table_text
  | None, Some rows => k rows
  end.

(** The read of CheckAndBumpRevisionSQL: the row, or [None] for no rows. *)
Definition select_row (s : statement) (t : revision_table) (key : revision_key) : result gostring (option (Z * Z)) :=
  exec s t (fun rows => Ok (rows !! key)).

Definition mismatch_text (inc rev wantInc wantRev : Z) : gostring :=
  B "revision mismatch: have " ++ FormatInt inc ++ B "." ++ FormatInt rev ++ B ", want " ++ FormatInt wantInc ++ B "."
    ++ FormatInt wantRev.

Definition CheckAndBumpRevisionSQL (t : revision_table) (key : revision_key) (want : gostring)
    : result go_error (revision_table * RevisionBump) :=
  match select_row SelectRevision t key with
  | Err text =>
      if IsMissingTable text then
        if negb (beq want []) then
          Err (Classified MutationErrUnsupportedCapability
                 (B "revision precondition requires tegola_revisions table (run migration)"))
        else Ok (t, mkBump (-1) (-1) 0 0)
      else Err (Classified MutationErrExecutionFailed (B "revision read: " ++ text))
  | Ok row =>
      let '(cur, curInc) := default (0, 0) row in
      check? (if negb (beq want []) then
                let? (wantInc, wantRev) := ParseRevision want in
                if negb (wantRev =? cur) || negb (wantInc =? curInc) then
                  Err (Classified MutationErrPreconditionFailed (mismatch_text curInc cur wantInc wantRev))
                else Ok tt
              else Ok tt) in
      let newRev := match row with Some _ => wrap64 (cur + 1) | None => 1 end in
      let newInc := match row with Some _ => curInc | None => 0 end in
      match exec UpsertRevision t (fun rows => Ok (<[key := (newRev, newInc)]> rows)) with
      | Ok rows => Ok (Some rows, mkBump cur newRev curInc newInc)
      | Err text =>
          if IsMissingTable text then Ok (t, mkBump (-1) (-1) 0 0)
          else Err (Classified MutationErrExecutionFailed (B "revision bump: " ++ text))
      end
  end.

(** The database refuses to increment the largest integer. *)
Definition increment (z : Z) : result gostring Z :=
  if z =? 2 ^ 63 - 1 then Err (B "integer overflow") else Ok (z + 1).

Definition BumpIncarnationOnDelete (t : revision_table) (key : revision_key) : result go_error revision_table :=
  let plain (r : result gostring (gmap revision_key (Z * Z))) :=
    match r with Ok rows => Ok (Some rows) | Err text => Err (Plain text) end in
  match select_row SelectIncarnation t key with
  | Ok None =>
      plain (exec UpdateIncarnation t (fun rows =>
        match rows !! key with
        | None => Ok (<[key := (0, 1)]> rows)
        | Some (rev, inc) => let? inc := increment inc in Ok (<[key := (rev, inc)]> rows)
        end))
  | Err text => if IsMissingTable text then Ok t else Err (Plain text)
  | Ok (Some _) =>
      plain (exec UpdateIncarnation t (fun rows =>
        match rows !! key with
        | None => Ok rows
        | Some (_, inc) => let? inc := increment inc in Ok (<[key := (0, inc)]> rows)
        end))
  end.

End Statements.

(** ** Positions and tokens *)

(** Incarnation and revision of a feature; a feature without a row is at 0.0. *)
Definition position (rows : gmap revision_key (Z * Z)) (key : revision_key) : Z * Z :=
  let '(rev, inc) := default (0, 0) (rows !! key) in (inc, rev).

Definition token (p : Z * Z) : gostring := formatIncarnationRevision (fst p) (snd p).

(** The order in which positions are taken. *)
Definition before (p q : Z * Z) : Prop := fst p < fst q \/ (fst p = fst q /\ snd p < snd q).

(** The counters of a table lie between zero and [n]. *)
Definition counters (n : Z) (rows : gmap revision_key (Z * Z)) : Prop :=
  forall key row, rows !! key = Some row -> 0 <= fst row <= n /\ 0 <= snd row <= n.

Lemma before_trans (p q r : Z * Z) : before p q -> before q r -> before p r.
Proof. unfold before. lia. Qed.

Lemma before_irrefl (p : Z * Z) : ~ before p p.
Proof. unfold before. lia. Qed.

Lemma position_bound (n : Z) (rows : gmap revision_key (Z * Z)) (key : revision_key) :
  0 <= n -> counters n rows -> 0 <= fst (position rows key) <= n /\ 0 <= snd (position rows key) <= n.
Proof.
  intros Hn H. unfold position. destruct (rows !! key) as [[rev inc]|] eqn:E; cbn; [|lia].
  apply H in E. cbn in E. lia.
Qed.

Lemma FormatInt_digits (n : Z) : 0 <= n -> forallb is_digit (FormatInt n) = true /\ FormatInt n <> [].
Proof.
  intros H. unfold FormatInt. decide_ltb. split; [by apply FormatUint_digits|apply FormatUint_nonempty].
Qed.

Lemma ParseInt_FormatInt (n : Z) : 0 <= n < 2 ^ 63 -> ParseInt (FormatInt n) 64 = Some n.
Proof.
  intros H. destruct (FormatInt_digits n ltac:(lia)) as [Hd Hne]. unfold ParseInt.
  assert (FormatInt n = FormatUint n) as E by (unfold FormatInt; by decide_ltb).
  pose proof (parse_FormatUint n ltac:(lia)) as Hp. rewrite E in *. destruct (FormatUint n) as [|c s]; [done|].
  cbn [forallb] in Hd. apply andb_true_iff in Hd as [Hc _].
  destruct (Ascii.eqb_spec c "-") as [->|]; [done|]. destruct (Ascii.eqb_spec c "+") as [->|]; [done|].
  rewrite Hp. by decide_ltb.
Qed.

(** The parts of a token. *)
Lemma digits_no_point (s : gostring) : forallb is_digit s = true -> "."%char ∉ s.
Proof.
  intros H%forallb_Forall_true Hin. rewrite Forall_forall in H. by apply H in Hin.
Qed.

Lemma SplitByte_token (p : Z * Z) :
  0 <= fst p -> 0 <= snd p -> SplitByte "." (token p) = [FormatInt (fst p); FormatInt (snd p)].
Proof.
  intros H1 H2. unfold token, formatIncarnationRevision. decide_ltb.
  destruct (FormatInt_digits (fst p) H1) as [D1 _], (FormatInt_digits (snd p) H2) as [D2 _].
  change (B "." ++ FormatInt (snd p)) with ("."%char :: FormatInt (snd p)).
  rewrite SplitByte_app, SplitByte_single by by apply digits_no_point. done.
Qed.

(** A token is read back. *)
Lemma ParseRevision_token (p : Z * Z) : 0 <= fst p < 2 ^ 63 -> 0 <= snd p < 2 ^ 63 -> ParseRevision (token p) = Ok p.
Proof.
  intros H1 H2. unfold ParseRevision. rewrite SplitByte_token by lia. cbn [length Nat.eqb].
  rewrite !ParseInt_FormatInt by lia. decide_ltb. by destruct p.
Qed.

Lemma token_nonempty (p : Z * Z) : 0 <= fst p -> 0 <= snd p -> token p <> [].
Proof.
  intros H1 H2. unfold token, formatIncarnationRevision. decide_ltb.
  destruct (FormatInt_digits (fst p) H1) as [_ Hne]. by destruct (FormatInt (fst p)).
Qed.

Lemma wrap64_id (z : Z) : - 2 ^ 63 <= z < 2 ^ 63 -> wrap64 z = z.
Proof. intros H. unfold wrap64. rewrite Z.mod_small; lia. Qed.

(** *** One statement sequence *)

(** Failures of an existing table do not look like a missing one. *)
Definition faults_distinct (fault : statement -> option gostring) : Prop :=
  forall s text, fault s = Some text -> IsMissingTable text = false.

(** The position after a change. *)
Definition bumped (p : Z * Z) : Z * Z := (fst p, snd p + 1).

Definition retired (p : Z * Z) : Z * Z := (fst p + 1, 0).

Definition set_position (rows : gmap revision_key (Z * Z)) (key : revision_key) (p : Z * Z) : gmap revision_key (Z * Z) :=
  <[key := (snd p, fst p)]> rows.

Lemma position_set (rows : gmap revision_key (Z * Z)) (key key' : revision_key) (p : Z * Z) :
  position (set_position rows key p) key' = if decide (key' = key) then p else position rows key'.
Proof.
  unfold position, set_position. destruct (decide (key' = key)) as [->|Hne].
  - rewrite lookup_insert_eq. by destruct p.
  - by rewrite lookup_insert_ne.
Qed.

Section Spec.
Context (fault : statement -> option gostring) (Hfault : faults_distinct fault) (n : Z) (Hn : 0 <= n < 2 ^ 63 - 1).

(** A check that passes names the current position, or nothing, and moves the feature
    to its next revision. *)
Lemma CheckAndBump_ok (rows : gmap revision_key (Z * Z)) (key : revision_key) (want : gostring) (t : revision_table)
    (b : RevisionBump) :
  counters n rows -> CheckAndBumpRevisionSQL fault (Some rows) key want = Ok (t, b) ->
  let p := position rows key in
  (want = [] \/ ParseRevision want = Ok p)
  /\ t = Some (set_position rows key (bumped p))
  /\ b = mkBump (snd p) (snd p + 1) (fst p) (fst p).
Proof.
  intros Hc. pose proof (position_bound n rows key ltac:(lia) Hc) as Hp.
  unfold CheckAndBumpRevisionSQL, select_row, exec. destruct (fault SelectRevision) as [text|] eqn:E1.
  { by rewrite (Hfault _ _ E1). }
  unfold set_position, bumped, position in *. cbn [default].
  assert (forall rev inc, default (0, 0) (rows !! key) = (rev, inc) ->
          match rows !! key with Some _ => wrap64 (rev + 1) | None => 1 end = rev + 1
          /\ match rows !! key with Some _ => inc | None => 0 end = inc) as Hnew.
  { intros rev inc E. destruct (rows !! key) as [[rev' inc']|]; cbn in E; injection E as <- <-; [|done].
    cbn in Hp. rewrite wrap64_id by lia. done. }
  destruct (default (0, 0) (rows !! key)) as [rev inc]. destruct (Hnew rev inc eq_refl) as [-> ->]. cbn [fst snd] in *.
  rewrite rbind_unit. intros [Hw H].
  destruct (fault UpsertRevision) as [text|] eqn:E2; [by rewrite (Hfault _ _ E2) in H|]. injection H as <- <-.
  split_and!; [|done|done]. destruct (beq want []) eqn:Ew; cbn [negb] in Hw; [left; by apply beq_true in Ew|right].
  apply rbind_Ok in Hw as ([wi wr] & -> & Hw). apply if_Err_Ok in Hw as [Hw _].
  apply orb_false_iff in Hw as [->%negb_false_iff%Z.eqb_eq ->%negb_false_iff%Z.eqb_eq]. done.
Qed.

(** Conversely it passes when no statement fails. *)
Lemma CheckAndBump_passes (rows : gmap revision_key (Z * Z)) (key : revision_key) (want : gostring) :
  counters n rows -> (forall s, fault s = None) -> want = [] \/ ParseRevision want = Ok (position rows key) ->
  is_ok (CheckAndBumpRevisionSQL fault (Some rows) key want) = true.
Proof.
  intros Hc Hf Hw. unfold CheckAndBumpRevisionSQL, select_row, exec. rewrite !Hf. unfold position in Hw.
  destruct (default (0, 0) (rows !! key)) as [rev inc].
  destruct Hw as [->|Hw]; [done|]. destruct (beq want []); [done|]. rewrite Hw. cbn [negb rbind].
  by rewrite !Z.eqb_refl.
Qed.

Lemma BumpIncarnation_ok (rows : gmap revision_key (Z * Z)) (key : revision_key) (t : revision_table) (p : Z * Z) :
  rows !! key = Some (snd p, fst p) -> BumpIncarnationOnDelete fault (Some rows) key = Ok t ->
  t = Some (set_position rows key (retired p)).
Proof.
  intros E. unfold BumpIncarnationOnDelete, select_row, exec. destruct (fault SelectIncarnation) as [text|] eqn:E1.
  { by rewrite (Hfault _ _ E1). }
  rewrite E. destruct (fault UpdateIncarnation); [done|]. unfold increment.
  destruct (_ =? _); [done|]. cbn. intros [= <-]. done.
Qed.

End Spec.
