(* ===== verification/GpkgTx.v ===== *)
(** * provider/gpkg/mutation.go, mutation_ops.go, audit.go: feature transactions

    The transaction of the GeoPackage writer: the conditional-change check, the change
    of the data, the revision, the audit entry and the outbox event of each mutation,
    published together by the commit.  The change of the rows of a feature table is an
    argument; the tables of the service are modelled. *)

From S2P Require Import Prelude GoText Schema Coordinator Revision.

#[local] Open Scope Z_scope.

(** ** The service tables *)

Record audit_entry := mkEntry {
  ae_ts : gostring; ae_actor : gostring; ae_collection : gostring; ae_operation : gostring; ae_feature : Z;
  ae_before : gostring; ae_after : gostring; ae_transaction : gostring; ae_request : gostring
}.

Record outbox_event := mkEvent {
  oe_ts : gostring; oe_type : gostring; oe_collection : gostring; oe_feature : Z; oe_payload : gostring; oe_dispatched : bool
}.

Record database (D : Type) := mkDatabase {
  db_data : D; db_revisions : revision_table; db_audit : list audit_entry; db_outbox : list outbox_event
}.

Arguments mkDatabase {D} _ _ _ _.
Arguments db_data {D} _.
Arguments db_revisions {D} _.
Arguments db_audit {D} _.
Arguments db_outbox {D} _.

(** The write mapping of a layer. *)
Record writeMapping := mkMapping { wm_table : gostring; wm_mapplgis : bool; wm_createUnsupportedReason : gostring }.

(** What the transaction runs outside the service tables, on the data [D] (which may
    include a clock): the mapping of a layer, the validation of a canonical geometry,
    the lookup of the row of a feature, the insertion and the change of a row; and the
    failures of the statements on the service tables. *)
Record environment (D : Type) := mkEnvironment {
  env_mapping : D -> gostring -> result go_error writeMapping;
  env_validate : D -> writeMapping -> Mutation -> result go_error unit;
  env_find : D -> writeMapping -> Mutation -> result go_error unit;
  env_insert : D -> writeMapping -> Mutation -> result go_error (D * Z);
  env_change : D -> writeMapping -> Mutation -> result go_error D;
  env_fault : D -> statement -> option gostring;
  env_audit_fault : D -> option gostring;
  env_outbox_fault : D -> option gostring;
  env_clock : D -> gostring
}.

Arguments env_mapping {D} _ _ _.
Arguments env_validate {D} _ _ _ _.
Arguments env_find {D} _ _ _ _.
Arguments env_insert {D} _ _ _ _.
Arguments env_change {D} _ _ _ _.
Arguments env_fault {D} _ _ _.
Arguments env_audit_fault {D} _ _.
Arguments env_outbox_fault {D} _ _.
Arguments env_clock {D} _ _.

(** ** The check of a conditional change *)

Definition mapSQLError (msg : gostring) : go_error :=
  if Contains msg (B "UNIQUE constraint failed") then
    Classified MutationErrPreconditionFailed (B "unique constraint violated")
  else if Contains msg (B "NOT NULL constraint failed") then
    Classified MutationErrSchemaViolation (B "not-null constraint violated")
  else if Contains msg (B "FOREIGN KEY constraint failed") then
    Classified MutationErrSchemaViolation (B "foreign key constraint violated")
  else if Contains msg (B "database is locked") || Contains msg (B "database table is locked") then
    Classified MutationErrLockConflict (B "database is locked")
  else Classified MutationErrMalformedInput (B "storage error").

Definition expected_text (expected got : gostring) : go_error :=
  Classified MutationErrPreconditionFailed (B "revision mismatch: expected " ++ expected ++ B ", got " ++ got).

(** It compares texts, not numbers. *)
Definition checkRevisionCAS (fault : statement -> option gostring) (t : revision_table) (key : revision_key)
    (ifRevision : gostring) : result go_error unit :=
  if beq ifRevision [] then Ok tt
  else
    let '(wantInc, wantRev) :=
      match SplitByte "." ifRevision with [a; b] => (a, b) | _ => (B "0", ifRevision) end in
    match select_row fault SelectRevision t key with
    | Ok None =>
        if negb (beq wantRev (B "0")) || negb (beq wantInc (B "0")) then Err (expected_text ifRevision (B "0.0")) else Ok tt
    | Ok (Some (curRev, curInc)) =>
        let curStr := FormatInt curInc ++ B "." ++ FormatInt curRev in
        let wantStr := wantInc ++ B "." ++ wantRev in
        if negb (beq curStr wantStr) then Err (expected_text wantStr curStr) else Ok tt
    | Err text =>
        if IsMissingTable text then
          Err (Classified MutationErrUnsupportedCapability
                 (B "revision precondition requires tegola_revisions table (run migration)"))
        else Err (mapSQLError text)
    end.

(** The token that a client reads; [feature] is a uint64. *)
Definition CurrentRevision (fault : statement -> option gostring) (t : revision_table) (table : option gostring)
    (feature : Z) : result gostring gostring :=
  match table with
  | None => Ok []
  | Some table =>
      if 2 ^ 63 - 1 <? feature then Ok (B "0.0")
      else
        match select_row fault SelectRevision t (table, feature) with
        | Ok None => Ok (B "0.0")
        | Ok (Some (rev, inc)) => Ok (FormatInt inc ++ B "." ++ FormatInt rev)
        | Err text => if IsMissingTable text then Ok (B "0.0") else Err text
        end
  end.

(** ** The audit trail *)

Definition outboxEventType (op : MutationOp) : gostring :=
  match op with
  | MutationInsert => B "feature.created"
  | MutationReplace => B "feature.replaced"
  | MutationUpdate => B "feature.updated"
  | MutationDelete => B "feature.deleted"
  | MutationOpOther _ => B "feature.changed"
  end.

Definition auditEntryFor (ts collection : gostring) (op : MutationOp) (outcome : MutationOutcome)
    (actor requestID txID : gostring) : audit_entry :=
  let before := match op with MutationInsert => [] | _ => o_revision_before outcome end in
  let after := match op with MutationDelete => [] | _ => o_revision outcome end in
  mkEntry ts actor collection (Op_String op) (o_feature outcome) before after txID requestID.

Definition event_of (entry : audit_entry) (eventType : gostring) : outbox_event :=
  mkEvent (ae_ts entry) eventType (ae_collection entry) (ae_feature entry) (B "{}") false.

(** ** Transactions *)

Section Transaction.
Context {D : Type} (env : environment D).

Definition recordAuditTx (db : database D) (entry : audit_entry) (eventType : gostring) : result go_error (database D) :=
  match env_audit_fault env (db_data db) with
  | Some text => Err (Plain (B "audit insert: " ++ text))
  | None =>
      match env_outbox_fault env (db_data db) with
      | Some text => Err (Plain (B "outbox insert: " ++ text))
      | None =>
          Ok (mkDatabase (db_data db) (db_revisions db) (db_audit db ++ [entry])
                (db_outbox db ++ [event_of entry eventType]))
      end
  end.

(** The change of the row of a feature, by operation: the data and the feature. *)
Definition change_row (db : database D) (mp : writeMapping) (m : Mutation) : result go_error (D * Z) :=
  let d := db_data db in
  let cas := checkRevisionCAS (env_fault env d) (db_revisions db) (wm_table mp, m_feature m) (m_if_revision m) in
  let change := let? d' := env_change env d mp m in Ok (d', m_feature m) in
  match m_op m with
  | MutationInsert =>
      if negb (beq (wm_createUnsupportedReason mp) []) then
        Err (Classified MutationErrUnsupportedCapability (wm_createUnsupportedReason mp))
      else env_insert env d mp m
  | MutationReplace => check? env_find env d mp m in check? cas in change
  | MutationUpdate | MutationDelete => check? cas in check? env_find env d mp m in check? cas in change
  | MutationOpOther _ => Err (Classified MutationErrMalformedInput (B "unknown op"))
  end.

(** The body of Apply. *)
Definition apply_mutation (db : database D) (actor requestID : gostring) (m : Mutation)
    : result go_error (database D * MutationOutcome) :=
  let? mp := env_mapping env (db_data db) (m_collection m) in
  check? (if wm_mapplgis mp && negb (bool_decide (m_op m = MutationInsert)) && negb (bool_decide (m_wkb m = None))
          then env_validate env (db_data db) mp m else Ok tt) in
  let? (d, id) := change_row db mp m in
  let key := (wm_table mp, id) in
  let? (t, bump) := CheckAndBumpRevisionSQL (env_fault env d) (db_revisions db) key (m_if_revision m) in
  let? (t, bump) :=
    if bool_decide (m_op m = MutationDelete) then
      let? t := BumpIncarnationOnDelete (env_fault env d) t key in
      Ok (t, mkBump (b_old bump) 0 (b_old_inc bump) (wrap64 (b_new_inc bump + 1)))
    else Ok (t, bump) in
  let outcome :=
    mkOutcome id (formatIncarnationRevision (b_new_inc bump) (b_new bump))
      (formatIncarnationRevision (b_old_inc bump) (b_old bump)) 1 in
  let entry := auditEntryFor (env_clock env d) (m_collection m) (m_op m) outcome actor requestID [] in
  let? db' := recordAuditTx (mkDatabase d t (db_audit db) (db_outbox db)) entry (outboxEventType (m_op m)) in
  Ok (db', outcome).

Record featureTx := mkTx {
  ft_failed : option (MutationErrorKind * gostring); ft_db : database D; ft_done : bool;
  ft_actor : gostring; ft_requestID : gostring
}.

Definition BeginFeatureTx (db : database D) (options : TxOptions) : featureTx :=
  mkTx None db false (tx_actor options) (tx_request options).

Definition classify (e : go_error) : MutationErrorKind * gostring :=
  match e with
  | Classified kind reason => (kind, reason)
  | Plain text => (MutationErrExecutionFailed, text)
  end.

(** A failed transaction can only be rolled back, so the partial changes of a failed
    mutation are not kept. *)
Definition tx_apply (t : featureTx) (m : Mutation)
    : featureTx * result (MutationErrorKind * gostring) MutationOutcome :=
  match ft_failed t with
  | Some e => (t, Err e)
  | None =>
      let r :=
        if ft_done t then Err (Classified MutationErrMalformedInput (B "transaction already finished"))
        else apply_mutation (ft_db t) (ft_actor t) (ft_requestID t) m in
      match r with
      | Ok (db, outcome) => (mkTx None db (ft_done t) (ft_actor t) (ft_requestID t), Ok outcome)
      | Err e => (mkTx (Some (classify e)) (ft_db t) (ft_done t) (ft_actor t) (ft_requestID t), Err (classify e))
      end
  end.

(** The end of a native transaction: the error of the metadata maintenance, the error
    of the commit and whether it took effect in spite of it. *)
Inductive commit_answer := CommitDone | MaintenanceFailed (text : gostring) | CommitFailed (text : gostring) (effective : bool).

(** The receipt, the error, and the changes that take effect. *)
Definition tx_commit (answer : commit_answer) (t : featureTx)
    : featureTx * (CommitStatus * option (MutationErrorKind * gostring)) * option (database D) :=
  if ft_done t then
    (t, (CommitUnknown, Some (MutationErrMalformedInput, B "transaction already finished")), None)
  else
    let t' := mkTx (ft_failed t) (ft_db t) true (ft_actor t) (ft_requestID t) in
    match ft_failed t with
    | Some e => (t', (CommitNotCommitted, Some e), None)
    | None =>
        match answer with
        | MaintenanceFailed text =>
            (t', (CommitNotCommitted, Some (MutationErrExecutionFailed, B "gpkg metadata maintenance failed: " ++ text)), None)
        | CommitFailed text effective =>
            (t', (CommitUnknown, Some (MutationErrCommitUnknown, B "commit failed: " ++ text)),
             if effective then Some (ft_db t) else None)
        | CommitDone => (t', (CommitCommitted, None), Some (ft_db t))
        end
    end.

(** ** Histories *)

(** A transaction of the single writer: its mutations, then the commit. *)
Record request := mkRequest { rq_options : TxOptions; rq_mutations : list Mutation; rq_answer : commit_answer }.

Fixpoint apply_list (t : featureTx) (ms : list Mutation) : featureTx * list (result (MutationErrorKind * gostring) MutationOutcome) :=
  match ms with
  | [] => (t, [])
  | m :: ms' =>
      let '(t', r) := tx_apply t m in
      let '(t'', rs) := apply_list t' ms' in
      (t'', r :: rs)
  end.

Definition serve (db : database D) (rq : request) : database D :=
  let '(t, _) := apply_list (BeginFeatureTx db (rq_options rq)) (rq_mutations rq) in
  let '(_, _, published) := tx_commit (rq_answer rq) t in
  default db published.

Definition serve_all (db : database D) (rqs : list request) : database D := foldl serve db rqs.

End Transaction.

(** ** What a mutation does *)

Section Spec.
Context {D : Type} (env : environment D) (Hfault : forall d, faults_distinct (env_fault env d)).

Definition next_position (op : MutationOp) (p : Z * Z) : Z * Z :=
  if bool_decide (op = MutationDelete) then retired p else bumped p.

Lemma next_position_before (op : MutationOp) (p : Z * Z) : before p (next_position op p).
Proof. unfold next_position, before, retired, bumped. case_bool_decide; cbn; lia. Qed.

Lemma set_position_counters (n : Z) (rows : gmap revision_key (Z * Z)) (key : revision_key) (p : Z * Z) :
  counters n rows -> 0 <= fst p <= n + 1 -> 0 <= snd p <= n + 1 -> counters (n + 1) (set_position rows key p).
Proof.
  intros H H1 H2 key' row. unfold set_position. destruct (decide (key' = key)) as [->|Hne].
  - rewrite lookup_insert_eq. intros [= <-]. cbn. lia.
  - rewrite lookup_insert_ne by done. intros E%H. lia.
Qed.

(** The effect of a mutation on the service tables, at the revisions [rows]: its
    feature, at the position the precondition names, moves to its next position, and
    one audit entry and one event with both tokens are added. *)
Definition applied (db : database D) (rows : gmap revision_key (Z * Z)) (actor requestID : gostring) (m : Mutation)
    (db' : database D) (o : MutationOutcome) : Prop :=
  exists mp ts,
    let key := (wm_table mp, o_feature o) in
    let p := position rows key in
    let p' := next_position (m_op m) p in
    let entry := auditEntryFor ts (m_collection m) (m_op m) o actor requestID [] in
    env_mapping env (db_data db) (m_collection m) = Ok mp
    /\ (m_if_revision m = [] \/ ParseRevision (m_if_revision m) = Ok p)
    /\ (m_op m <> MutationInsert -> o_feature o = m_feature m)
    /\ db_revisions db' = Some (set_position rows key p')
    /\ o_revision o = token p' /\ o_revision_before o = token p
    /\ db_audit db' = db_audit db ++ [entry]
    /\ db_outbox db' = db_outbox db ++ [event_of entry (outboxEventType (m_op m))].

Lemma change_row_feature (db : database D) (mp : writeMapping) (m : Mutation) (d : D) (id : Z) :
  change_row env db mp m = Ok (d, id) -> m_op m <> MutationInsert -> id = m_feature m.
Proof.
  unfold change_row. intros H Hop.
  destruct (m_op m); try done; repeat (apply rbind_unit in H as [_ H]); by apply rbind_Ok in H as (d' & _ & [= _ <-]).
Qed.

Lemma recordAuditTx_ok (db db' : database D) (entry : audit_entry) (eventType : gostring) :
  recordAuditTx env db entry eventType = Ok db' ->
  db' = mkDatabase (db_data db) (db_revisions db) (db_audit db ++ [entry]) (db_outbox db ++ [event_of entry eventType]).
Proof.
  unfold recordAuditTx. destruct (env_audit_fault _ _); [done|]. destruct (env_outbox_fault _ _); [done|]. by intros [= <-].
Qed.

Lemma apply_mutation_ok (n : Z) (db db' : database D) (rows : gmap revision_key (Z * Z)) (actor requestID : gostring)
    (m : Mutation) (o : MutationOutcome) :
  0 <= n < 2 ^ 63 - 1 -> db_revisions db = Some rows -> counters n rows ->
  apply_mutation env db actor requestID m = Ok (db', o) -> applied db rows actor requestID m db' o.
Proof.
  intros Hn Hrows Hc H. unfold apply_mutation in H. apply rbind_Ok in H as (mp & Hmp & H).
  apply rbind_unit in H as [_ H]. apply rbind_Ok in H as ([d id] & Hrow & H).
  apply rbind_Ok in H as ([t bump] & Hbump & H). rewrite Hrows in Hbump.
  destruct (CheckAndBump_ok (env_fault env d) (Hfault d) n Hn rows _ _ t bump Hc Hbump) as (Hw & -> & ->).
  pose proof (position_bound n rows (wm_table mp, id) ltac:(lia) Hc) as Hp. set (p := position rows _) in *.
  apply rbind_Ok in H as ([t' bump'] & Hdel & H). apply rbind_Ok in H as (db'' & Haud & [= <- <-]).
  apply recordAuditTx_ok in Haud as ->. cbn [db_data db_revisions db_audit db_outbox] in *.
  assert (t' = Some (set_position rows (wm_table mp, id) (next_position (m_op m) p))
          /\ bump' = mkBump (snd p) (snd (next_position (m_op m) p)) (fst p) (fst (next_position (m_op m) p))) as [-> ->].
  { unfold next_position. case_bool_decide; [|injection Hdel as <- <-; done].
    apply rbind_Ok in Hdel as (t2 & Hinc & [= <- <-]). cbn [b_old b_old_inc b_new_inc].
    eapply (BumpIncarnation_ok (env_fault env d) (Hfault d)) in Hinc as ->; [|apply (lookup_insert_eq rows)].
    unfold set_position. rewrite insert_insert_eq. cbn. rewrite wrap64_id by lia. done. }
  exists mp, (env_clock env d). cbn [o_feature o_revision o_revision_before b_old b_new b_old_inc b_new_inc].
  split_and!; try done. intros Hop. by eapply change_row_feature.
Qed.

(** *** Transactions *)

(** The entry of a mutation with its outcome. *)
Definition entry_of (actor requestID : gostring) (mo : Mutation * MutationOutcome) (e : audit_entry) : Prop :=
  exists ts, e = auditEntryFor ts (m_collection (fst mo)) (m_op (fst mo)) (snd mo) actor requestID [].

Definition events_of (ms : list Mutation) (entries : list audit_entry) : list outbox_event :=
  zip_with (fun m e => event_of e (outboxEventType (m_op m))) ms entries.

(** The changes of a transaction in which every mutation succeeded. *)
Definition trail (db : database D) (actor requestID : gostring) (ms : list Mutation) (os : list MutationOutcome)
    (db' : database D) : Prop :=
  exists entries,
    length os = length ms
    /\ db_audit db' = db_audit db ++ entries /\ db_outbox db' = db_outbox db ++ events_of ms entries
    /\ Forall2 (entry_of actor requestID) (zip ms os) entries.

Lemma apply_mutation_audit (db db' : database D) (actor requestID : gostring) (m : Mutation) (o : MutationOutcome) :
  apply_mutation env db actor requestID m = Ok (db', o) ->
  exists ts,
    let e := auditEntryFor ts (m_collection m) (m_op m) o actor requestID [] in
    db_audit db' = db_audit db ++ [e] /\ db_outbox db' = db_outbox db ++ [event_of e (outboxEventType (m_op m))].
Proof.
  unfold apply_mutation. intros H. apply rbind_Ok in H as (mp & _ & H). apply rbind_unit in H as [_ H].
  apply rbind_Ok in H as ([d id] & _ & H). apply rbind_Ok in H as ([t bump] & _ & H).
  apply rbind_Ok in H as ([t' bump'] & _ & H). apply rbind_Ok in H as (db'' & Haud & [= <- <-]).
  apply recordAuditTx_ok in Haud as ->. by exists (env_clock env d).
Qed.

(** Once a mutation failed, the transaction stays failed. *)
Lemma apply_list_failed (t : featureTx) (ms : list Mutation) (e : MutationErrorKind * gostring) :
  ft_failed t = Some e -> apply_list env t ms = (t, map (fun _ => Err e) ms).
Proof.
  intros E. induction ms as [|m ms IH]; [done|]. cbn [apply_list map]. unfold tx_apply. rewrite E. by rewrite IH.
Qed.

(** The mutations of an open transaction either all succeed, with their trail, or
    leave it failed. *)
Lemma apply_list_spec (db : database D) (actor requestID : gostring) (ms : list Mutation) :
  let '(t, rs) := apply_list env (mkTx None db false actor requestID) ms in
  (exists db' os, t = mkTx None db' false actor requestID /\ rs = map Ok os /\ trail db actor requestID ms os db')
  \/ (exists e db', t = mkTx (Some e) db' false actor requestID /\ existsb (fun r => negb (is_ok r)) rs = true).
Proof.
  revert db. induction ms as [|m ms IH]; intros db; cbn [apply_list].
  { left. exists db, []. split_and!; [done|done|]. exists []. by rewrite !app_nil_r. }
  unfold tx_apply. cbn [ft_failed ft_done ft_db ft_actor ft_requestID].
  destruct (apply_mutation env db actor requestID m) as [[db1 o]|e] eqn:E.
  - specialize (IH db1). destruct (apply_list env _ ms) as [t rs].
    destruct IH as [(db' & os & -> & -> & entries & Hl & Ha & Ho & Hf)|(e & db' & -> & Hrs)].
    + left. exists db', (o :: os). split_and!; [done|done|].
      destruct (apply_mutation_audit _ _ _ _ _ _ E) as (ts & Ea & Eo).
      exists (auditEntryFor ts (m_collection m) (m_op m) o actor requestID [] :: entries).
      cbn [length]. rewrite Hl, Ha, Ho, Ea, Eo, <- !app_assoc. split_and!; [done|done|done|].
      constructor; [by exists ts|done].
    + right. exists e, db'. by split.
  - rewrite (apply_list_failed _ ms (classify e)) by done. right. by exists (classify e), db.
Qed.

(** *** Revisions along a history *)

(** No feature goes back to an earlier position. *)
Definition monotone (rows rows' : gmap revision_key (Z * Z)) : Prop :=
  forall key, position rows' key = position rows key \/ before (position rows key) (position rows' key).

Lemma monotone_refl (rows : gmap revision_key (Z * Z)) : monotone rows rows.
Proof. intros key. by left. Qed.

Lemma monotone_trans (r1 r2 r3 : gmap revision_key (Z * Z)) : monotone r1 r2 -> monotone r2 r3 -> monotone r1 r3.
Proof.
  intros H1 H2 key. destruct (H1 key) as [<-|Hb1], (H2 key) as [->|Hb2]; auto. right. by eapply before_trans.
Qed.

(** The state of the revisions after changes from [rows] by at most [k] mutations. *)
Definition reaches (n k : Z) (rows : gmap revision_key (Z * Z)) (db : database D) : Prop :=
  exists rows', db_revisions db = Some rows' /\ counters (n + k) rows' /\ monotone rows rows'.

Lemma apply_mutation_reaches (n k : Z) (rows : gmap revision_key (Z * Z)) (db db' : database D) (actor requestID : gostring)
    (m : Mutation) (o : MutationOutcome) :
  0 <= n -> 0 <= k -> n + k < 2 ^ 63 - 1 -> reaches n k rows db ->
  apply_mutation env db actor requestID m = Ok (db', o) -> reaches n (k + 1) rows db'.
Proof.
  intros Hn Hk Hlt (rows1 & E1 & Hc1 & Hm1) H.
  destruct (apply_mutation_ok (n + k) db db' rows1 actor requestID m o ltac:(lia) E1 Hc1 H)
    as (mp & ts & _ & _ & _ & E2 & _). eexists. split_and!; [exact E2| |].
  - replace (n + (k + 1)) with (n + k + 1) by lia.
    pose proof (position_bound (n + k) rows1 (wm_table mp, o_feature o) ltac:(lia) Hc1) as Hp.
    apply set_position_counters; [done|unfold next_position, retired, bumped; case_bool_decide; cbn; lia..].
  - eapply monotone_trans; [done|]. intros key. rewrite position_set. case_decide as Hd; [|by left].
    subst key. right. apply next_position_before.
Qed.

Lemma apply_list_reaches (n : Z) (rows : gmap revision_key (Z * Z)) (actor requestID : gostring) (ms : list Mutation) :
  0 <= n -> forall k db, 0 <= k -> n + k + blen ms < 2 ^ 63 - 1 -> reaches n k rows db ->
  let t := fst (apply_list env (mkTx None db false actor requestID) ms) in
  ft_failed t = None -> reaches n (k + blen ms) rows (ft_db t).
Proof.
  intros Hn. induction ms as [|m ms IH]; intros k db Hk Hlt Hr; cbn [apply_list].
  { cbn. rewrite Z.add_0_r. done. }
  assert (blen (m :: ms) = 1 + blen ms) as Hl by (unfold blen; cbn [length]; lia). pose proof (blen_nonneg ms) as Hms.
  rewrite Hl in *. unfold tx_apply. cbn [ft_failed ft_done ft_db ft_actor ft_requestID].
  destruct (apply_mutation env db actor requestID m) as [[db1 o]|e] eqn:E.
  - specialize (IH (k + 1) db1 ltac:(lia) ltac:(lia)). destruct (apply_list env _ ms) as [t rs]. cbn [fst] in *.
    intros Hf. replace (k + (1 + blen ms)) with (k + 1 + blen ms) by lia. apply IH; [|done].
    by eapply (apply_mutation_reaches n k); [lia..| |exact E].
  - by rewrite (apply_list_failed _ ms (classify e)).
Qed.

Lemma reaches_weaken (n k k' : Z) (rows : gmap revision_key (Z * Z)) (db : database D) :
  k <= k' -> reaches n k rows db -> reaches n k' rows db.
Proof.
  intros Hk (rows' & E & Hc & Hm). exists rows'. split_and!; [done| |done]. intros key row H. apply Hc in H. lia.
Qed.

Lemma serve_reaches (n k : Z) (rows : gmap revision_key (Z * Z)) (db : database D) (rq : request) :
  0 <= n -> 0 <= k -> n + k + blen (rq_mutations rq) < 2 ^ 63 - 1 -> reaches n k rows db ->
  reaches n (k + blen (rq_mutations rq)) rows (serve env db rq).
Proof.
  intros Hn Hk Hlt Hr. pose proof (blen_nonneg (rq_mutations rq)) as Hl.
  assert (reaches n (k + blen (rq_mutations rq)) rows db) as Hsame by (eapply reaches_weaken; [|done]; lia).
  unfold serve, BeginFeatureTx.
  pose proof (apply_list_reaches n rows (tx_actor (rq_options rq)) (tx_request (rq_options rq)) (rq_mutations rq) Hn k db Hk Hlt Hr) as H.
  destruct (apply_list env _ _) as [t rs]. cbn [fst] in H. unfold tx_commit. destruct (ft_done t); [done|].
  destruct (ft_failed t) as [e|]; [done|]. specialize (H eq_refl).
  destruct (rq_answer rq) as [| |text []]; cbn [default]; auto.
Qed.

Definition mutation_count (rqs : list request) : Z := foldr (fun rq k => blen (rq_mutations rq) + k) 0 rqs.

Lemma serve_all_reaches (n : Z) (rows : gmap revision_key (Z * Z)) (rqs : list request) :
  0 <= n -> forall k db, 0 <= k -> n + k + mutation_count rqs < 2 ^ 63 - 1 -> reaches n k rows db ->
  reaches n (k + mutation_count rqs) rows (serve_all env db rqs).
Proof.
  intros Hn. induction rqs as [|rq rqs IH]; intros k db Hk Hlt Hr; cbn [serve_all foldl mutation_count foldr] in *.
  { by rewrite Z.add_0_r. }
  change (foldr _ 0 rqs) with (mutation_count rqs) in *.
  assert (0 <= mutation_count rqs) as Hnn.
  { clear. induction rqs as [|rq rqs IH]; cbn; [lia|]. pose proof (blen_nonneg (rq_mutations rq)). unfold mutation_count in IH. lia. }
  pose proof (blen_nonneg (rq_mutations rq)) as Hl. rewrite Z.add_assoc. apply IH; [lia|lia|]. apply serve_reaches; [lia..|done].
Qed.

Lemma mutation_count_app (r1 r2 : list request) : mutation_count (r1 ++ r2) = mutation_count r1 + mutation_count r2.
Proof. unfold mutation_count. induction r1 as [|rq r1 IH]; cbn [app foldr]; [lia|]. rewrite IH. lia. Qed.

Lemma mutation_count_nonneg (rqs : list request) : 0 <= mutation_count rqs.
Proof. unfold mutation_count. induction rqs as [|rq rqs IH]; cbn; [lia|]. pose proof (blen_nonneg (rq_mutations rq)). lia. Qed.

(** The position of a feature in a database. *)
Definition current_position (db : database D) (key : revision_key) : Z * Z :=
  match db_revisions db with Some rows => position rows key | None => (0, 0) end.

(** Positions do not go back: once a feature is where it was, it was there all the
    time. *)
Lemma positions_between (n : Z) (rows : gmap revision_key (Z * Z)) (db : database D) (r1 r2 : list request) (key : revision_key) :
  0 <= n -> n + mutation_count (r1 ++ r2) < 2 ^ 63 - 1 -> db_revisions db = Some rows -> counters n rows ->
  current_position (serve_all env db (r1 ++ r2)) key = position rows key ->
  current_position (serve_all env db r1) key = position rows key.
Proof.
  intros Hn Hlt E Hc. rewrite mutation_count_app in Hlt.
  pose proof (mutation_count_nonneg r1). pose proof (mutation_count_nonneg r2).
  destruct (serve_all_reaches n rows r1 Hn 0 db ltac:(lia) ltac:(lia)) as (rows1 & E1 & Hc1 & Hm1).
  { exists rows. rewrite Z.add_0_r. split_and!; [done|done|apply monotone_refl]. }
  rewrite (foldl_app (serve env) r1 r2 db : serve_all env db (r1 ++ r2) = serve_all env (serve_all env db r1) r2).
  destruct (serve_all_reaches (n + mutation_count r1) rows1 r2 ltac:(lia) 0 (serve_all env db r1) ltac:(lia) ltac:(lia))
    as (rows2 & E2 & _ & Hm2).
  { exists rows1. rewrite !Z.add_0_r in *. split_and!; [done|done|apply monotone_refl]. }
  unfold current_position. rewrite E1, E2. intros Hp.
  destruct (Hm1 key) as [->|Hb1]; [done|]. exfalso. destruct (Hm2 key) as [H2|Hb2].
  - rewrite Hp in H2. rewrite <- H2 in Hb1. by eapply before_irrefl.
  - rewrite Hp in Hb2. eapply before_irrefl, before_trans; eassumption.
Qed.

(** The token that a client reads is that of the position. *)
Lemma CurrentRevision_token (fault : statement -> option gostring) (rows : gmap revision_key (Z * Z)) (table : gostring)
    (feature n : Z) (tok : gostring) :
  faults_distinct fault -> 0 <= n -> counters n rows -> feature < 2 ^ 63 ->
  CurrentRevision fault (Some rows) (Some table) feature = Ok tok -> tok = token (position rows (table, feature)).
Proof.
  intros Hf Hn Hc Hid. unfold CurrentRevision. decide_ltb. unfold select_row, exec.
  destruct (fault SelectRevision) as [text|] eqn:E; [by rewrite (Hf _ _ E)|].
  unfold position. destruct (rows !! (table, feature)) as [[rev inc]|] eqn:Er; cbn [default]; intros [= <-].
  - apply Hc in Er. cbn in Er. unfold token, formatIncarnationRevision. cbn [default id fst snd]. by decide_ltb.
  - done.
Qed.

(** The check passes on the token of the position. *)
Lemma checkRevisionCAS_token (fault : statement -> option gostring) (rows : gmap revision_key (Z * Z)) (key : revision_key)
    (n : Z) :
  (forall s, fault s = None) -> 0 <= n -> counters n rows ->
  checkRevisionCAS fault (Some rows) key (token (position rows key)) = Ok tt.
Proof.
  intros Hf Hn Hc. pose proof (position_bound n rows key Hn Hc) as Hp. unfold checkRevisionCAS.
  destruct (beq _ []); [done|]. rewrite SplitByte_token by lia. unfold select_row, exec. rewrite Hf.
  unfold position in *. destruct (rows !! key) as [[rev inc]|]; cbn [default id fst snd] in *.
  - by rewrite beq_refl.
  - done.
Qed.

End Spec.

(** C5. A transaction is reported committed exactly when every mutation succeeded and
    the commit did; a transaction with a failed mutation or failed maintenance has no
    effect and is reported so; and what takes effect has exactly one audit entry and
    one outbox event per mutation, in order, each with the operation, feature and
    revision tokens of its outcome. *)
Theorem serve_atomic {D : Type} (env : environment D) (db : database D) (rq : request) :
  let actor := tx_actor (rq_options rq) in
  let requestID := tx_request (rq_options rq) in
  let '(t, rs) := apply_list env (BeginFeatureTx db (rq_options rq)) (rq_mutations rq) in
  let '(_, (status, err), published) := tx_commit (rq_answer rq) t in
  (status = CommitCommitted <-> rq_answer rq = CommitDone /\ forallb is_ok rs = true)
  /\ (err = None <-> status = CommitCommitted)
  /\ (status = CommitNotCommitted -> published = None)
  /\ serve env db rq = default db published
  /\ forall db', published = Some db' ->
       exists os, rs = map Ok os /\ trail db actor requestID (rq_mutations rq) os db'.
Proof.
  cbn zeta. unfold serve, BeginFeatureTx. pose proof (apply_list_spec env db (tx_actor (rq_options rq)) (tx_request (rq_options rq))
    (rq_mutations rq)) as H.
  destruct (apply_list env _ _) as [t rs]. destruct H as [(db' & os & -> & -> & Ht)|(e & db' & -> & Hrs)].
  - assert (forallb is_ok (map (@Ok (MutationErrorKind * gostring) MutationOutcome) os) = true) as Hok
      by (clear; by induction os).
    unfold tx_commit. cbn [ft_done ft_failed ft_db]. destruct (rq_answer rq) as [|text|text effective]; cbn.
    + split_and!; try done. intros db'' [= <-]. by exists os.
    + split_and!; try done; try (split; [done|by intros [? _]]).
    + split_and!; try done; try (split; [done|by intros [? _]]). intros db''. destruct effective; [|done].
      intros [= <-]. by exists os.
  - unfold tx_commit. cbn. split_and!; try done. split; [done|]. intros [_ Hok]. exfalso.
    apply existsb_exists in Hrs as (r & Hin & Hr). rewrite forallb_forall in Hok. by rewrite (Hok r Hin) in Hr.
Qed.

(** C4. Conditional changes lose no update.  A client reads the token of a feature; other
    transactions follow, some of which fail; then a replacement, update or deletion
    conditional on the token is applied.  If it succeeds, then the feature was never
    changed in between, since its position is what it was at every moment, and each
    change moves it strictly forward.  Conversely, if the feature is where it was,
    both checks of the token pass unless a statement fails. *)
Theorem if_match_exact {D : Type} (env : environment D) (fault : statement -> option gostring) (db0 : database D)
    (rows0 : gmap revision_key (Z * Z)) (n : Z) (rqs : list request) (actor requestID : gostring) (m : Mutation)
    (mp : writeMapping) :
  (forall d, faults_distinct (env_fault env d)) -> faults_distinct fault ->
  db_revisions db0 = Some rows0 -> counters n rows0 -> 0 <= n -> n + mutation_count rqs < 2 ^ 63 - 1 ->
  CurrentRevision fault (Some rows0) (Some (wm_table mp)) (m_feature m) = Ok (m_if_revision m) ->
  m_op m <> MutationInsert -> m_feature m < 2 ^ 63 ->
  let db := serve_all env db0 rqs in
  let key := (wm_table mp, m_feature m) in
  env_mapping env (db_data db) (m_collection m) = Ok mp ->
  (forall db' o, apply_mutation env db actor requestID m = Ok (db', o) ->
     (forall before_rqs after_rqs, rqs = before_rqs ++ after_rqs ->
        current_position (serve_all env db0 before_rqs) key = position rows0 key)
     /\ before (position rows0 key) (current_position db' key))
  /\ (current_position db key = position rows0 key -> forall none, (forall s, none s = None) ->
        checkRevisionCAS none (db_revisions db) key (m_if_revision m) = Ok tt
        /\ is_ok (CheckAndBumpRevisionSQL none (db_revisions db) key (m_if_revision m)) = true).
Proof.
  intros Hfault Hf0 E0 Hc0 Hn Hlt Htok Hop Hid db key Hmp. subst db key.
  apply (CurrentRevision_token fault rows0 (wm_table mp) (m_feature m) n _ Hf0 Hn Hc0 Hid) in Htok.
  pose proof (mutation_count_nonneg rqs) as Hcount.
  destruct (serve_all_reaches env Hfault n rows0 rqs Hn 0 db0 ltac:(lia) ltac:(lia)) as (rows & E & Hc & _).
  { exists rows0. rewrite Z.add_0_r. split_and!; [done|done|apply monotone_refl]. }
  rewrite Z.add_0_l in Hc. pose proof (position_bound n rows0 (wm_table mp, m_feature m) Hn Hc0) as Hp0.
  assert (ParseRevision (m_if_revision m) = Ok (position rows0 (wm_table mp, m_feature m))) as Hparse
    by (rewrite Htok; apply ParseRevision_token; lia).
  split.
  - intros db' o Ha.
    destruct (apply_mutation_ok env Hfault (n + mutation_count rqs) _ db' rows actor requestID m o ltac:(lia) E Hc Ha)
      as (mp' & ts & Hmp' & Hw & Hid' & E' & _). rewrite Hmp in Hmp'. injection Hmp' as <-. rewrite (Hid' Hop) in *.
    destruct Hw as [Hw|Hw]; [rewrite Htok in Hw; by apply token_nonempty in Hw; [| |]; lia|].
    rewrite Hparse in Hw. injection Hw as Hw. split.
    + intros r1 r2 ->. eapply (positions_between env Hfault n rows0 db0 r1 r2); [lia|lia|done|done|].
      unfold current_position. by rewrite E.
    + unfold current_position. rewrite E', position_set, decide_True by done. rewrite Hw. apply next_position_before.
  - unfold current_position. rewrite E. intros Hpos none Hnone. rewrite Htok, <- Hpos. split.
    + by apply (checkRevisionCAS_token none rows _ (n + mutation_count rqs)); [|lia|].
    + apply (CheckAndBump_passes none (n + mutation_count rqs)); [done|done|]. right. rewrite Hpos. by rewrite <- Htok.
Qed.

Lemma if_match_exact_witness :
  let mp := mkMapping (B "roads") false [] in
  let env := mkEnvironment unit (fun _ _ => Ok mp) (fun _ _ _ => Ok tt) (fun _ _ _ => Ok tt) (fun _ _ _ => Ok (tt, 9))
               (fun _ _ _ => Ok tt) (fun _ _ => None) (fun _ => None) (fun _ => None) (fun _ => B "2026-01-01T00:00:00Z") in
  let change op id tok := mkMutation op (B "roads") id ∅ None true 0 false tok in
  let rows0 : gmap revision_key (Z * Z) := {[ (B "roads", 7) := (3, 1) ]} in
  let db0 := mkDatabase tt (Some rows0) [] [] in
  let rqs := [mkRequest (mkTxOptions false [] []) [change MutationDelete 8 []] CommitDone;
              mkRequest (mkTxOptions false [] []) [change MutationUpdate 7 (B "0.9")] CommitDone] in
  let m := change MutationUpdate 7 (B "1.3") in
  let key := (B "roads", 7) in
  let db := serve_all env db0 rqs in
  (forall db' o, apply_mutation env db [] [] m = Ok (db', o) ->
     (forall before_rqs after_rqs, rqs = before_rqs ++ after_rqs ->
        current_position (serve_all env db0 before_rqs) key = position rows0 key)
     /\ before (position rows0 key) (current_position db' key))
  /\ (current_position db key = position rows0 key -> forall none, (forall s, none s = None) ->
        checkRevisionCAS none (db_revisions db) key (m_if_revision m) = Ok tt
        /\ is_ok (CheckAndBumpRevisionSQL none (db_revisions db) key (m_if_revision m)) = true).
Proof.
  intros mp env change rows0 db0 rqs m key db.
  apply (if_match_exact env (fun _ => None) db0 rows0 3 rqs [] [] m mp).
  - intros d s text H. discriminate H.
  - intros s text H. discriminate H.
  - reflexivity.
  - intros k row H. apply lookup_singleton_Some in H as [_ <-]. cbn. lia.
  - lia.
  - reflexivity.
  - vm_compute. reflexivity.
  - discriminate.
  - reflexivity.
  - reflexivity.
Defined.
